(* ===== verification/_CoqProject ===== *)
-Q . S2P
Prelude.v
Views.v
PackedWords.v
Errors.v
Buffers.v
CellBuffers.v
WriteBuffers.v
VectoredBuffers.v
Queue.v
Machine.v
Scenario.v
Invariant.v
GhostLemmas.v
Preservation.v
ResizeLoop.v
DequeuerSteps.v
StepInvariant.v
Concurrent.v
AnyLoad.v
Orderings.v
RaceFree.v
AtomicQueue.v
Linearize.v
Sequential.v
QueueSpec.v
Limits.v
BufferQueues.v
Waker.v
Interleave.v
WakerList.v
AtomicWaker.v
WakerOrderings.v
Synchronized.v
SyncRuns.v
LockFree.v
Progress.v
SyncProgress.v
EnqueueWaiting.v
EnqueueValue.v
DequeueWaiting.v
QueueIter.v
SyncLimits.v
StaleReads.v
DebugText.v
