(* ===== verification/Prelude.v ===== *)
(** * swap-buffer-queue: a verification library

    ** The program

    A queue for many producers and one consumer at a time, made of two buffers
    that are swapped. Producers reserve slots of the enqueuing buffer with a
    compare-and-swap on one packed word (closed flag, remaining capacity, index
    of the buffer), write their value in the slots, and add the size to the
    length of the buffer. A consumer locks a second word (length to dequeue,
    index of the buffer), swaps the buffers through the first one, waits until
    the length of the old buffer is what was reserved, and gets a slice of it;
    dropping the slice clears the buffer, requeuing it saves the length in the
    second word. Buffers come in six kinds; two lists of wakers let callers wait.

    ** Files and what they model

    - [Prelude]: outcomes of Rust code (return, panic, undefined behaviour), [usize]
      arithmetic on 64 bits, slices and cells, pairs indexed by the buffer index.
    - [PackedWords]: [EnqueuingCapacity] and [DequeuingLength] of
      [src/src/queue.rs], bit operation by bit operation; the rewriting base [words]
      turns them into arithmetic on encoded words ([enc], [deq_enc]).
    - [Errors]: [src/src/error.rs].
    - [Buffers]: the traits of [src/src/buffer.rs] as classes, arrays and
      [ValueIter] as values, and [BufferLaws], the contract between the queue and a
      buffer: which slots are "inserted", and what each operation does to them, the
      assignment of an element through a slice included ([SliceMut]). The theorems
      about the queue are proved from [BufferLaws] only.
    - [CellBuffers] ([src/src/buffer/array.rs], [src/src/buffer/vec.rs]),
      [WriteBuffers] ([src/src/write.rs] and [src/src/write/]), [VectoredBuffers]
      ([src/src/write_vectored.rs] and [src/src/write_vectored/]): the six buffers,
      each an instance of [BufferLaws], with their slices and frames.
    - [Queue]: the methods of [Queue], [BufferSlice] and [BufferIter]. A call is a
      program point with the locals of the method ([pc]); [step] runs it to its next
      access to shared memory. One definition per section of a method between two
      accesses: [enq_start], [enq_loop], [enq_insert], [enq_add], [enq_notify] are
      [try_enqueue]; [deq_start] to [deq_ack] are [try_dequeue_internal], [deq_spin],
      [deq_take], [deq_save] are [try_dequeue_spin]; [rel_clear], [rel_len],
      [rel_unlock] are [release]; and so on. A weak exchange may fail spuriously.
    - [Machine]: any number of threads on one queue, one action at a time; [Scenario]:
      concrete executions, for the witnesses.
    - [Invariant], [GhostLemmas], [Preservation], [ResizeLoop], [DequeuerSteps],
      [StepInvariant]: the invariant of a shared queue, with the log of the
      reservations of each buffer as ghost state, and its preservation by every step
      of every thread.
    - [Concurrent]: the theorems about all executions. [AtomicQueue]: the queue as its
      documentation describes it, an object whose calls take effect at once;
      [Linearize]: every execution of the machine is one of it ([abs] and [phase_of]
      read its state off the words, the history and the program points).
      [Sequential], [QueueSpec]: the
      queue used by one client refines an abstract queue of two lists; [Drop].
      [Limits]: what happens outside the conditions of the other theorems: resizing calls
      whose values overrun the capacity, sizes and iterators that lie, [len] and
      [capacity] around a resizing call.
      [BufferQueues]: queues of byte buffers and of vectored buffers.
    - [Views]: what [Ordering] arguments give to the accesses that are not atomic: the
      accesses are numbered, threads and atomic locations carry the sets of those that happen
      before. [Orderings]: the orderings of [src/src/queue.rs] ([source_orderings]), the
      atomic operation of each step ([atomic_of]) and what it touches of the buffers
      ([touch_of]); [RaceFree]: the data races, and their absence. [WakerOrderings]: the
      same for the cell of [src/src/synchronized/atomic_waker.rs].
    - [AnyLoad], [StaleReads]: beyond interleavings. [AnyLoad]: enqueuers whose loads
      return any word. [StaleReads]: the synchronized queue, whose enqueuers may load
      an older word when the orderings allow it.
    - [Waker], [WakerList], [AtomicWaker]: [src/src/synchronized/], as state machines
      over [Interleave].
    - [Synchronized]: [src/src/synchronized.rs]. A thread is where it is in a waiting
      method ([outer]: an attempt of the spin loop, the registration, the last attempt,
      parked or pending), its call on the queue, and its point in the list of wakers or
      in the atomic waker; one step is a step of the innermost one. A notification of
      the queue starts a [wake]; waking a thread or a task leaves a signal
      ([s_signals]); parking ends with or without one, as [park] may.
    - [SyncRuns]: the executions of the synchronized queue, their projections to the
      machines of the queue, of the list and of the atomic waker, and the rule
      induction on them. [Progress]: termination and results of the waiting methods.
      [EnqueueWaiting], [DequeueWaiting]: nobody is left waiting.
      [EnqueueValue]: what becomes of the value of an enqueue. [QueueIter]: the
      iterator [iter]. [SyncLimits]: two consumers that wait.
    - [LockFree], [SyncProgress]: measures of the steps that a queue, and a synchronized
      queue, have left.
    - [DebugText]: the texts of [Debug]; those of the errors are in [Errors].

    ** What the theorems show

    - Delivery: whatever the interleaving, the elements consumed are those enqueued,
      once, in the order of the reservations, and none is lost ([Concurrent]).
    - Memory safety: no slot is read before it is written, and threads that can
      access a buffer at the same time access disjoint slots.
    - Memory orderings: with one thread that dequeues, every access to a buffer happens
      after the conflicting ones; with several it may not, as the dequeuing word is not
      acquired and released. Every access to the cell of the
      atomic waker happens after the previous ones. Delivery and memory safety do not
      depend on what enqueuers load; not being left waiting does ([StaleReads]).
    - Control: dequeuing is exclusive, [Conflict] is answered exactly then, closing
      stops reservations until reopening, a consumer only waits for insertions.
    - Width: no field of a packed word ever overflows into the next one.
    - Refinement: any number of threads see an atomic queue, whatever the interleaving
      ([Linearize.linearizable]), and one client sees two lists, whatever the calls
      ([QueueSpec]). [capacity] agrees with it outside of resizing calls, and [len], which
      loads two words one after the other, if none is completed in between.
    - Buffers: what is inserted is what is read, with header and trailer around it.
    - Wakers: none is woken twice or forgotten; the cell of the atomic waker is never
      accessed by two threads.
    - Waiting: in every interleaving, an enqueuer that waits, and the consumer that waits
      when it is the only one, have been woken, or are about to be, or have nothing to be woken for. Two
      consumers that wait at once share one cell, and the last to register takes it
      ([SyncLimits]).
    - Progress: whatever the interleaving, [n] threads end their calls on a queue within
      [n * (2 * n + 101)] steps ([LockFree.calls_end]); the threads of a synchronized
      queue come, in boundedly many steps without a new call or the end of a wait, to the end of
      their methods or to where they wait, and none stays in front of the mutex
      ([SyncProgress.all_settle]). The
      measures count attempts, steps and writes of the word, so no fuel is involved.
    - Composition: a synchronized queue is a queue, so the theorems of [Concurrent] hold
      of it; what the waiting methods and the iterator return.
    - Defects the model shows: two threads that dequeue in turn race with enqueuers
      ([RaceFree]); an enqueuer and the dequeuer can both wait on an empty queue, as the
      orderings let each miss what the other did ([StaleReads]); a second waiting consumer strands the first; io-slices
      assigned through [DerefMut] outlive their slice; [len] while and across resizing; the byte
      counter of vectored buffers after [clear], the end bound of
      [VectoredSlice::frame], the capacity check of [try_dequeue_and_resize], the shift
      of [try_reserve], [len] of [ValueIter], [Drop].

    ** Choices and bounds

    - [usize] has 64 bits. Additions and subtractions of the source panic on overflow,
      as with overflow checks, and its [debug_assert]s are checked; the theorems on
      panics show that neither happens. Atomic additions wrap.
    - Executions are interleavings: atomics read the last value written, but in [AnyLoad]
      and [StaleReads]. The orderings of the atomics decide what happens before what
      ([Views]): a release sequence is kept by read-modify-writes and ended by stores; a
      load of an older value is over-approximated in what it acquires. The
      loads of the dequeuing side, and those of the length of a buffer, are never stale
      in the model. Busy waiting ([spin_loop]) has no effect and is left out; the exponents
      of the backoff are kept.
    - A panicking step stops its thread and leaves the shared state as it was.
    - [SPIN_LIMIT] is 64 as in [src/src/loom.rs]. [Sequential.FUEL] is 24 steps, one more
      than the longest call that runs alone; every call is proved to end within it.
    - The events of an execution say what was enqueued; an assignment through a slice
      replaces the element enqueued, which is the one consumed next.
    - The observers are functions of the queue at each of their loads: [queue_len q q'] is a
      [len] that loads the enqueuing word in [q] and [capacity] in [q'].
    - Theorems on executions whose resizing calls fit ([strict]) leave out those that give
      values without a capacity. Allocations succeed, so [WriteVecBuffer::resize] does not
      overflow.
    - Values given to the theorems satisfy [valid_value]: the size is the number of
      elements and below [2^63]. [Limits] shows what happens otherwise. The owner given
      to [with_owned] refers to the queue of the iterator.

    ** Not modelled

    - In [src/src/synchronized.rs], [stream] (the combinators are those of an external
      crate), and the time itself (a deadline may pass at any moment). A pending future
      may be dropped ([cancel]); its waker stays registered.
    - The assignment of an io-slice of a vectored buffer is modelled on the buffer
      ([VectoredBuffers]), not as a step of the queue: the elements of the queue are the
      values, which it does not change.
    - [src/src/lib.rs], and what has no behaviour: [AsRef], imports, bounds of the
      implementations, [Send] and [Sync].
    - The addresses behind the io-slices of vectored buffers: an [IoSlice] is its bytes.
*)

From stdpp Require Export base gmap sets list numbers option strings fin_maps fin_map_dom.
From Stdlib Require Export ZArith Lia.

#[local] Open Scope Z_scope.

(** ** Outcomes of Rust code

    A call returns normally, panics (an index out of range, a failed
    [assert!]/[debug_assert!], an arithmetic overflow under overflow checks),
    or has undefined behaviour (reading an uninitialised [MaybeUninit]). *)
Inductive outcome (A : Type) : Type :=
  | Ret (a : A)
  | Panic
  | UB.
Arguments Ret {A} a.
Arguments Panic {A}.
Arguments UB {A}.

Definition obind {A B} (o : outcome A) (f : A → outcome B) : outcome B :=
  match o with Ret a => f a | Panic => Panic | UB => UB end.

Definition omap_out {A B} (f : A → B) (o : outcome A) : outcome B :=
  obind o (λ a, Ret (f a)).

Declare Scope outcome_scope.
Delimit Scope outcome_scope with out.
Notation "'let!' x := o 'in' k" := (obind o (λ x, k))
  (at level 10, x pattern, o at level 100, k at level 200) : outcome_scope.
Notation "o ;;! k" := (obind o (λ _, k))
  (at level 100, k at level 200, right associativity) : outcome_scope.
#[global] Open Scope outcome_scope.

(** Rust's [Result]. *)
Inductive result (A Err : Type) : Type :=
  | Ok (a : A)
  | Err (e : Err).
Arguments Ok {A Err} a.
Arguments Err {A Err} e.

(** [Option::is_some]. *)
Definition is_some {A} (o : option A) : bool :=
  match o with Some _ => true | None => false end.

Definition assert (b : bool) : outcome unit := if b then Ret tt else Panic.

Lemma obind_Ret_inv {A B} (o : outcome A) (f : A → outcome B) b :
  obind o f = Ret b → ∃ a, o = Ret a ∧ f a = Ret b.
Proof. destruct o; simpl; intros; eauto; discriminate. Qed.

(** Open the binds and the tests of a handler that returned. *)
Ltac inv_ret H :=
  lazymatch type of H with
  | Ret _ = Ret _ => injection H as <- <- <-
  | obind _ _ = _ =>
      let x := fresh "x" in let Hx := fresh "Hx" in
      apply obind_Ret_inv in H as (x & Hx & H); inv_ret H
  | context [match ?x with _ => _ end] =>
      let Hm := fresh "Hm" in destruct x eqn:Hm; inv_ret H
  | _ => try discriminate H
  end.

(** ** Machine integers: a [usize] is an integer of [0, 2^64) *)
Definition USIZE_BITS : Z := 64.
Definition USIZE_MODULUS : Z := 18446744073709551616. (* 2^64 *)
Definition usize_MAX : Z := 18446744073709551615.     (* 2^64 - 1 *)

Definition is_usize (z : Z) : Prop := 0 ≤ z < USIZE_MODULUS.

Definition wrap (z : Z) : Z := z mod USIZE_MODULUS.
(** [a << n] drops the bits shifted out; [a >> n] is logical. *)
Definition shl (a n : Z) : Z := wrap (Z.shiftl a n).
Definition shr (a n : Z) : Z := Z.shiftr a n.
(** [!a] *)
Definition bnot (a : Z) : Z := Z.lxor a usize_MAX.
Definition wrapping_add (a b : Z) : Z := wrap (a + b).
Definition wrapping_sub (a b : Z) : Z := wrap (a - b).
Definition checked_sub (a b : Z) : option Z :=
  if b <=? a then Some (a - b) else None.
Definition saturating_sub (a b : Z) : Z := Z.max 0 (a - b).
(** [a + b] and [a - b] with overflow checks. *)
Definition usize_add (a b : Z) : outcome Z :=
  if a + b <=? usize_MAX then Ret (a + b) else Panic.
Definition usize_sub (a b : Z) : outcome Z :=
  if b <=? a then Ret (a - b) else Panic.

(** A half-open [core::ops::Range<usize>]. *)
Record range : Set := Range { r_start : Z; r_end : Z }.

#[export] Instance range_eq_dec : EqDecision range.
Proof. solve_decision. Defined.

(** [range.is_empty()] *)
Definition range_is_empty (r : range) : bool := negb (r_start r <? r_end r).

(** ** Indexing: [a[i]] and [a[r]] panic out of range *)
Definition index {A} (l : list A) (i : Z) : outcome A :=
  match l !! Z.to_nat i with Some x => Ret x | None => Panic end.

(** Replace the element at [i]. *)
Definition index_set {A} (l : list A) (i : Z) (x : A) : outcome (list A) :=
  if i <? Z.of_nat (length l) then Ret (<[Z.to_nat i := x]> l) else Panic.

Definition index_range {A} (l : list A) (r : range) : outcome (list A) :=
  if (r_start r <=? r_end r) && (r_end r <=? Z.of_nat (length l))
  then Ret (take (Z.to_nat (r_end r - r_start r)) (drop (Z.to_nat (r_start r)) l))
  else Panic.

(** ** [MaybeUninit] cells: [None] is uninitialised memory *)
Abbreviation MaybeUninit := option (only parsing).

Definition assume_init {A} (c : MaybeUninit A) : outcome A :=
  match c with Some x => Ret x | None => UB end.

(** A slice of cells read as a slice of values. *)
Fixpoint assume_init_all {A} (l : list (MaybeUninit A)) : outcome (list A) :=
  match l with
  | [] => Ret []
  | c :: l =>
      let! x := assume_init c in
      let! xs := assume_init_all l in
      Ret (x :: xs)
  end.

(** ** Two-element arrays [[A; 2]] indexed by a buffer index *)
Definition sel {A} (i : Z) (p : A * A) : A := if i =? 0 then p.1 else p.2.
Definition upd {A} (i : Z) (a : A) (p : A * A) : A * A :=
  if i =? 0 then (a, p.2) else (p.1, a).

(** [size] is the name of a trait method; the size of a finite set is: *)
Abbreviation set_size := stdpp.base.size (only parsing).

(** ** Tactics and hints *)
Create HintDb sbq discriminated.
Create Rewrite HintDb sbq.

(** Split the conjunctions and existentials of the context. *)
Ltac split_hyps :=
  repeat match goal with
         | H : _ ∧ _ |- _ => destruct H
         | H : ∃ _, _ |- _ => destruct H
         end.

(** Case on the boolean comparisons of [Z] in the goal. *)
Ltac zcases :=
  repeat match goal with
         | |- context [?a <=? ?b] => destruct (Z.leb_spec a b)
         | |- context [?a <? ?b] => destruct (Z.ltb_spec a b)
         | |- context [?a =? ?b] => destruct (Z.eqb_spec a b)
         end.
(** The same in one hypothesis. *)
Ltac zcases_in H :=
  repeat match type of H with
         | context [?a <=? ?b] => destruct (Z.leb_spec a b)
         | context [?a <? ?b] => destruct (Z.ltb_spec a b)
         | context [?a =? ?b] => destruct (Z.eqb_spec a b)
         end.

Ltac zlia :=
  unfold is_usize, USIZE_MODULUS, usize_MAX in *; lia.

(** Turn a boolean test into [true]/[false] by a [lia] side condition. *)
Ltac bool_true t := replace t with true by (symmetry; apply Z.leb_le; zlia).

Section Arrays.
Context {A : Type}.
Implicit Types (p : A * A) (a b : A).

Lemma sel_upd_eq i a p : sel i (upd i a p) = a.
Proof. unfold sel, upd. by destruct (i =? 0). Qed.

Lemma sel_upd_ne i j a p :
  0 ≤ i ≤ 1 → 0 ≤ j ≤ 1 → i ≠ j → sel i (upd j a p) = sel i p.
Proof. unfold sel, upd. intros. zcases; try done; lia. Qed.

(** The other index of an array of two is [1 - i]. *)
Lemma sel_upd_other i a p : 0 ≤ i ≤ 1 → sel (1 - i) (upd i a p) = sel (1 - i) p.
Proof. intros. apply sel_upd_ne; lia. Qed.

Lemma sel_upd_other' i a p : 0 ≤ i ≤ 1 → sel i (upd (1 - i) a p) = sel i p.
Proof. intros. apply sel_upd_ne; lia. Qed.

Lemma upd_sel i p : upd i (sel i p) p = p.
Proof. unfold sel, upd. destruct p. by destruct (i =? 0). Qed.
End Arrays.

#[export] Hint Rewrite @sel_upd_eq @upd_sel : sbq.

Section Words.
Lemma wrap_small z : is_usize z → wrap z = z.
Proof. intros. apply Z.mod_small. unfold is_usize in *. lia. Qed.

Lemma wrap_is_usize z : is_usize (wrap z).
Proof. unfold is_usize, wrap. apply Z.mod_pos_bound. reflexivity. Qed.

Lemma wrapping_add_small a b :
  0 ≤ a → 0 ≤ b → a + b < USIZE_MODULUS → wrapping_add a b = a + b.
Proof. intros. apply wrap_small. unfold is_usize. lia. Qed.

Lemma shl_1_small a : 0 ≤ a → 2 * a < USIZE_MODULUS → shl a 1 = 2 * a.
Proof.
  intros. unfold shl. rewrite Z.shiftl_mul_pow2 by lia.
  rewrite wrap_small; unfold is_usize; lia.
Qed.

Lemma shr_1 a : shr a 1 = a / 2.
Proof. unfold shr. by rewrite Z.shiftr_div_pow2 by lia. Qed.

Lemma usize_add_Ret a b : a + b ≤ usize_MAX → usize_add a b = Ret (a + b).
Proof. intros. unfold usize_add. by rewrite (proj2 (Z.leb_le _ _)). Qed.

Lemma usize_sub_Ret a b : b ≤ a → usize_sub a b = Ret (a - b).
Proof. intros. unfold usize_sub. by rewrite (proj2 (Z.leb_le _ _)). Qed.

Lemma usize_sub_inv a b x : usize_sub a b = Ret x → x = a - b ∧ b ≤ a.
Proof. unfold usize_sub. destruct (Z.leb_spec b a); [by intros [= <-]|done]. Qed.
End Words.

Section Indexing.
Context {A : Type}.
Implicit Types (l : list A).

Lemma index_Ret l i x : l !! Z.to_nat i = Some x → index l i = Ret x.
Proof. unfold index. by intros ->. Qed.

Lemma index_set_Ret l i x :
  i < Z.of_nat (length l) → index_set l i x = Ret (<[Z.to_nat i := x]> l).
Proof. intros. unfold index_set. by rewrite (proj2 (Z.ltb_lt _ _)). Qed.

(** A range whose elements are known, at offset [s]. *)
Lemma index_range_Ret l s (l' : list A) :
  0 ≤ s → s + Z.of_nat (length l') ≤ Z.of_nat (length l) →
  (∀ k x, l' !! k = Some x → l !! (Z.to_nat s + k)%nat = Some x) →
  index_range l (Range s (s + Z.of_nat (length l'))) = Ret l'.
Proof.
  intros Hs Hlen Hl. unfold index_range; simpl.
  rewrite !(proj2 (Z.leb_le _ _)) by lia; simpl. f_equal.
  replace (Z.to_nat (s + Z.of_nat (length l') - s)) with (length l') by lia.
  apply list_eq_same_length with (length l'); [done| |].
  - rewrite length_take, length_drop. lia.
  - intros i x y Hi Hx Hy. rewrite lookup_take in Hx.
    case_decide; [|done]. rewrite lookup_drop in Hx.
    specialize (Hl i y Hy). congruence.
Qed.

(** Writing back a part of a list with one element assigned. *)
Lemma inserts_segment l (s n p : nat) x :
  (s + n ≤ length l)%nat → (p < n)%nat →
  list_inserts s (<[p := x]> (take n (drop s l))) l = <[(s + p)%nat := x]> l.
Proof.
  intros Hn Hp. assert (length (<[p := x]> (take n (drop s l))) = n) as Hlen
    by (rewrite length_insert, length_take, length_drop; lia).
  apply list_eq. intros i. destruct (decide (i < s)%nat).
  { rewrite list_lookup_inserts_lt, list_lookup_insert_ne by lia. done. }
  destruct (decide (s + n ≤ i)%nat).
  { rewrite list_lookup_inserts_ge, list_lookup_insert_ne by lia. done. }
  rewrite list_lookup_inserts by lia. destruct (decide (i = s + p)%nat) as [->|].
  - rewrite list_lookup_insert_eq by lia. replace (s + p - s)%nat with p by lia.
    apply list_lookup_insert_eq. rewrite length_take, length_drop. lia.
  - rewrite !list_lookup_insert_ne by lia. rewrite lookup_take_lt, lookup_drop by lia.
    f_equal. lia.
Qed.

Lemma assume_init_all_Some l : assume_init_all (Some <$> l) = Ret l.
Proof. induction l as [|x l IH]; [done|]. rewrite fmap_cons. simpl. by rewrite IH. Qed.
End Indexing.

(** ** The sum of a measure over the entries of a map *)
Section Sums.
Context `{Countable K} {A : Type}.
Implicit Types (m : gmap K A) (f g : A → nat).

Definition map_sum f m : nat := map_fold (λ _ x s, (f x + s)%nat) 0%nat m.

Lemma map_sum_delete f m i x :
  m !! i = Some x → map_sum f m = (f x + map_sum f (delete i m))%nat.
Proof. intros Hi. unfold map_sum.
  apply (map_fold_delete_L (λ _ x s, (f x + s)%nat)); [lia|done]. Qed.

Lemma map_sum_insert f m i x : map_sum f (<[i := x]> m) = (f x + map_sum f (delete i m))%nat.
Proof.
  unfold map_sum. rewrite <- insert_delete_eq.
  apply (map_fold_insert_L (λ _ x s, (f x + s)%nat)); [lia|].
  apply lookup_delete_eq.
Qed.

Lemma map_sum_le f g m k :
  (∀ i x, m !! i = Some x → f x ≤ g x + k)%nat →
  (map_sum f m ≤ map_sum g m + k * set_size m)%nat.
Proof.
  induction m as [|i x m Hi IH] using map_ind; intros Hle; [unfold map_sum; rewrite !map_fold_empty; lia|].
  rewrite !map_sum_insert, delete_id, map_size_insert_None by done.
  pose proof (Hle i x (lookup_insert_eq _ _ _)).
  assert (map_sum f m ≤ map_sum g m + k * set_size m)%nat; [|lia].
  apply IH. intros j y Hj. apply (Hle j). rewrite lookup_insert_ne; [done|congruence].
Qed.
End Sums.
