(* ===== verification/Views.v ===== *)
(** * Views of a weak memory

    What the [Ordering] arguments of atomic operations give to the accesses that
    are not atomic: the accesses are numbered in the order of the execution; each thread has
    a view, the accesses that happen before its next step, and each atomic location
    carries the view its last writes released. An acquiring load adds the view of the
    location to that of the thread, a releasing store replaces it, and a
    read-modify-write keeps it (the release sequence goes on), adding its own when
    it releases. Executions are interleavings: a load reads the last value written.
    [Orderings] and [WakerOrderings] use it for the queue and for the waker of the
    dequeuer. *)

From stdpp Require Import functions.
From S2P Require Import Prelude.

(** ** Orderings of the standard library *)
Inductive ordering : Type := Relaxed | Acquire | Release | AcqRel.

Definition acquires (o : ordering) : bool :=
  match o with Acquire | AcqRel => true | _ => false end.
Definition releases (o : ordering) : bool :=
  match o with Release | AcqRel => true | _ => false end.

(** ** Memory *)
Section Views.
(** The atomic locations, and the accesses that are not atomic. *)
Context {location touch : Type} `{!EqDecision location}.

Inductive atomic : Type :=
  | NoAtomic
  | Load (l : location) (o : ordering)
  | Store (l : location) (o : ordering)
  | ReadModifyWrite (l : location) (o : ordering).

Record memory : Type := mk_memory {
  m_log : list (nat * touch);          (* the accesses, and by whom *)
  m_view : nat → gset nat;             (* by thread *)
  m_msg : location → gset nat;
}.

Definition initial_memory : memory := mk_memory [] (λ _, ∅) (λ _, ∅).

Definition acquire (t : nat) (l : location) (o : ordering) (m : memory) : memory :=
  if acquires o
  then mk_memory (m_log m) (<[t := m_view m t ∪ m_msg m l]> (m_view m)) (m_msg m)
  else m.

Definition synchronise (t : nat) (a : atomic) (m : memory) : memory :=
  match a with
  | NoAtomic => m
  | Load l o => acquire t l o m
  | Store l o =>
      mk_memory (m_log m) (m_view m)
        (<[l := if releases o then m_view m t else ∅]> (m_msg m))
  | ReadModifyWrite l o =>
      let m := acquire t l o m in
      if releases o
      then mk_memory (m_log m) (m_view m) (<[l := m_msg m l ∪ m_view m t]> (m_msg m))
      else m
  end.

(** Thread [t] does an access: it has the next number. *)
Definition record_touch (t : nat) (a : option touch) (m : memory) : memory :=
  match a with
  | None => m
  | Some a =>
      mk_memory (m_log m ++ [(t, a)])
        (<[t := m_view m t ∪ {[length (m_log m)]}]> (m_view m)) (m_msg m)
  end.

(** ** Steps *)
(** From [m] to [m'], a step of thread [t] that logs [new]. *)
Record grows (t : nat) (new : list touch) (m m' : memory) : Prop := {
  gr_log : m_log m' = m_log m ++ ((λ a, (t, a)) <$> new);
  gr_new k : (length (m_log m) ≤ k < length (m_log m'))%nat → k ∈ m_view m' t;
  gr_view t' : m_view m t' ⊆ m_view m' t';
}.

Lemma acquire_log t l o m : m_log (acquire t l o m) = m_log m.
Proof. unfold acquire. by destruct (acquires o). Qed.

Lemma acquire_msg t l o m : m_msg (acquire t l o m) = m_msg m.
Proof. unfold acquire. by destruct (acquires o). Qed.

Lemma acquire_view t l o m t' : m_view m t' ⊆ m_view (acquire t l o m) t'.
Proof.
  unfold acquire. destruct (acquires o); [|done]. simpl.
  destruct (decide (t' = t)) as [->|]; [rewrite fn_lookup_insert; set_solver|].
  by rewrite fn_lookup_insert_ne.
Qed.

Lemma acquire_acquires t l o m : acquires o = true → m_msg m l ⊆ m_view (acquire t l o m) t.
Proof. unfold acquire. intros ->. simpl. rewrite fn_lookup_insert. set_solver. Qed.

Lemma synchronise_log t a m : m_log (synchronise t a m) = m_log m.
Proof.
  destruct a; simpl; try done; [apply acquire_log|].
  destruct (releases o); simpl; apply acquire_log.
Qed.

Lemma synchronise_view t a m t' : m_view m t' ⊆ m_view (synchronise t a m) t'.
Proof.
  destruct a; simpl; try done; [apply acquire_view|].
  destruct (releases o); simpl; apply acquire_view.
Qed.

(** What an atomic operation may not do to a location: empty it. *)
Lemma synchronise_msg t a m l :
  (∀ o, a ≠ Store l o) → m_msg m l ⊆ m_msg (synchronise t a m) l.
Proof.
  intros Ha. destruct a as [|l' o|l' o|l' o]; simpl; try done.
  - by rewrite acquire_msg.
  - destruct (decide (l = l')) as [->|]; [by destruct (Ha o)|].
    by rewrite fn_lookup_insert_ne.
  - destruct (releases o); simpl; rewrite acquire_msg; [|done].
    destruct (decide (l = l')) as [->|]; [rewrite fn_lookup_insert; set_solver|].
    by rewrite fn_lookup_insert_ne.
Qed.

Lemma load_acquires t l o m :
  acquires o = true → m_msg m l ⊆ m_view (synchronise t (Load l o) m) t.
Proof. apply acquire_acquires. Qed.

Lemma rmw_acquires t l o m :
  acquires o = true → m_msg m l ⊆ m_view (synchronise t (ReadModifyWrite l o) m) t.
Proof.
  intros Ho. simpl. destruct (releases o); simpl; by apply acquire_acquires.
Qed.

Lemma rmw_releases t l o m :
  releases o = true →
  let m' := synchronise t (ReadModifyWrite l o) m in m_view m' t ⊆ m_msg m' l.
Proof.
  intros Ho. simpl. rewrite Ho. simpl. rewrite fn_lookup_insert. set_solver.
Qed.

Lemma store_releases t l o m :
  releases o = true →
  let m' := synchronise t (Store l o) m in m_view m' t ⊆ m_msg m' l.
Proof. intros Ho. simpl. by rewrite Ho, fn_lookup_insert. Qed.

Lemma record_touch_grows t a m : grows t (option_list a) m (record_touch t a m).
Proof.
  destruct a as [a|]; simpl; split; simpl.
  - done.
  - intros k. rewrite length_app, fn_lookup_insert. simpl. intros Hk.
    replace k with (length (m_log m)) by lia. apply elem_of_union_r, elem_of_singleton_2. done.
  - intros t'. destruct (decide (t' = t)) as [->|]; [rewrite fn_lookup_insert; set_solver|].
    by rewrite fn_lookup_insert_ne.
  - by rewrite app_nil_r.
  - intros k. lia.
  - done.
Qed.

Lemma record_touch_msg t a m : m_msg (record_touch t a m) = m_msg m.
Proof. by destruct a. Qed.

Lemma step_grows t a x m : grows t (option_list a) m (synchronise t x (record_touch t a m)).
Proof.
  destruct (record_touch_grows t a m) as [Hl Hn Hv]. split.
  - by rewrite synchronise_log.
  - rewrite synchronise_log. intros k Hk. by apply synchronise_view, Hn.
  - intros t'. etrans; [apply Hv|]. apply synchronise_view.
Qed.

(** An access of the log after a step: an old one, or a new one the thread knows of. *)
Lemma grows_lookup t new m m' k t' a :
  grows t new m m' → m_log m' !! k = Some (t', a) →
  m_log m !! k = Some (t', a) ∨ t' = t ∧ a ∈ new ∧ k ∈ m_view m' t.
Proof.
  intros [Hl Hn _] Hk. pose proof (lookup_lt_Some _ _ _ Hk).
  rewrite Hl in Hk. apply lookup_app_Some in Hk as [Hk|[Hlt Hk]]; [by left|right].
  rewrite list_lookup_fmap in Hk. apply fmap_Some in Hk as (a' & Ha & [= -> ->]).
  split_and!; [done|by eapply list_elem_of_lookup_2|apply Hn; lia].
Qed.
End Views.
Arguments memory : clear implicits.
Arguments atomic : clear implicits.
