(* ===== verification/PackedWords.v ===== *)
(** * The two packed atomic words of [src/src/queue.rs]

    [EnqueuingCapacity] (closed flag, remaining capacity, buffer index) and
    [DequeuingLength] (length, buffer index), both [#[repr(transparent)]]
    wrappers of a [usize]; a value of either type is its word. The arithmetic
    meaning of a word is [enc]/[deq_enc]; the lemmas of the first part rewrite
    every bit operation on an encoded word to arithmetic (database [words]). *)

From S2P Require Import Prelude.
#[local] Open Scope Z_scope.

Definition CLOSED_FLAG : Z := shr usize_MAX 1 + 1.
Definition DEQUEUING_LOCKED : Z := usize_MAX.

Module EnqueuingCapacity.
Definition new (buffer_index capacity : Z) : outcome Z :=
  assert (shl capacity 1 <? CLOSED_FLAG) ;;!
  Ret (Z.lor buffer_index (shl capacity 1)).

Definition buffer_index (self : Z) : Z := Z.land self 1.

Definition remaining_capacity (self : Z) : Z :=
  shr (Z.land self (bnot CLOSED_FLAG)) 1.

Definition is_closed (self : Z) : bool := negb (Z.land self CLOSED_FLAG =? 0).

Definition try_reserve (self size : Z) : option Z :=
  checked_sub self (shl size 1).

Definition with_closed (self enqueuing : Z) : Z :=
  Z.lor self (Z.land enqueuing CLOSED_FLAG).

(** [close] and [reopen] are one atomic read-modify-write of the word. *)
Definition close (atomic : Z) : Z := Z.lor atomic CLOSED_FLAG.

Definition reopen (atomic : Z) : Z := Z.land atomic (bnot CLOSED_FLAG).

Definition check_overflow (capacity : Z) : outcome unit :=
  assert (capacity <? shr usize_MAX 2).
End EnqueuingCapacity.

Module DequeuingLength.
Definition new (buffer_index length : Z) : Z :=
  Z.lor buffer_index (shl length 1).

Definition buffer_index (self : Z) : Z := Z.land self 1.

Definition buffer_len (self : Z) : Z := shr self 1.

(** [Err(TryDequeueError::Conflict)] is the only error: [None]. *)
Definition try_from_atomic (atomic : Z) : option Z :=
  if negb (atomic =? DEQUEUING_LOCKED) then Some atomic else None.
End DequeuingLength.

(** ** Arithmetic reading of the words *)
Definition enc (closed : bool) (i r : Z) : Z :=
  i + 2 * r + (if closed then 9223372036854775808 else 0).

Definition deq_enc (i l : Z) : Z := i + 2 * l.

(** A remaining capacity fits the 62 bits between the index and the flag. *)
Definition MAX_REMAINING : Z := 4611686018427387904. (* 2^62 *)

Create Rewrite HintDb words.

Section Masks.
Lemma CLOSED_FLAG_eq : CLOSED_FLAG = 2 ^ 63.
Proof. reflexivity. Qed.

Lemma land_1 w : Z.land w 1 = w mod 2.
Proof. change (Z.land w (Z.ones 1) = w mod 2 ^ 1). by rewrite Z.land_ones. Qed.

Lemma buffer_index_bound w : 0 ≤ EnqueuingCapacity.buffer_index w ≤ 1.
Proof.
  unfold EnqueuingCapacity.buffer_index. rewrite land_1.
  pose proof (Z.mod_pos_bound w 2). lia.
Qed.

Lemma bnot_CLOSED_FLAG : bnot CLOSED_FLAG = Z.ones 63.
Proof. reflexivity. Qed.

Lemma land_not_closed w : Z.land w (bnot CLOSED_FLAG) = w mod 2 ^ 63.
Proof. by rewrite bnot_CLOSED_FLAG, Z.land_ones by lia. Qed.

(** The flag bit of a word is its quotient by [2^63]. *)
Lemma land_closed w :
  is_usize w → Z.land w CLOSED_FLAG = 2 ^ 63 * (w / 2 ^ 63).
Proof.
  intros Hw. rewrite CLOSED_FLAG_eq.
  pose proof (Z.div_mod w (2 ^ 63) ltac:(lia)) as Hdm.
  assert (w / 2 ^ 63 = 0 ∨ w / 2 ^ 63 = 1) as Hq.
  { pose proof (Z.mod_pos_bound w (2 ^ 63) ltac:(lia)). zlia. }
  apply Z.bits_inj'; intros k Hk.
  rewrite Z.land_spec, Z.pow2_bits_eqb by lia.
  rewrite Z.mul_comm, Z.mul_pow2_bits by lia.
  destruct (Z.eqb_spec 63 k) as [<-|Hne].
  - rewrite andb_true_r, Z.sub_diag.
    by rewrite Z.div_pow2_bits by lia.
  - rewrite andb_false_r.
    destruct (Z.lt_ge_cases k 63); [by rewrite Z.testbit_neg_r by lia|].
    destruct Hq as [-> | ->]; [by rewrite Z.bits_0|].
    symmetry. apply (Z.bits_above_log2 1); simpl; lia.
Qed.

Lemma lor_bit_even i a : 0 ≤ i ≤ 1 → Z.lor i (2 * a) = i + 2 * a.
Proof.
  intros. symmetry. apply Z.add_nocarry_lor.
  assert (i = 0 ∨ i = 1) as [-> | ->] by lia; [apply Z.land_0_l|].
  rewrite Z.land_comm, land_1, Z.mul_comm. apply Z_mod_mult.
Qed.

Lemma lor_flag w q :
  0 ≤ w < 2 ^ 63 → Z.lor w (2 ^ 63 * q) = w + 2 ^ 63 * q.
Proof.
  intros. symmetry. apply Z.add_nocarry_lor.
  apply Z.bits_inj'; intros k Hk. rewrite Z.land_spec, Z.bits_0.
  rewrite (Z.mul_comm (2 ^ 63)), Z.mul_pow2_bits by lia.
  destruct (Z.lt_ge_cases k 63) as [?|?].
  - by rewrite (Z.testbit_neg_r q) by lia; rewrite andb_false_r.
  - destruct (Z.eq_dec w 0) as [->|]; [by rewrite Z.bits_0|].
    rewrite (Z.bits_above_log2 w); [done|lia|].
    apply Z.log2_lt_pow2; [lia|]. apply Z.lt_le_trans with (2 ^ 63); [lia|].
    by apply Z.pow_le_mono_r.
Qed.
End Masks.

(** Whatever the words, [with_closed] hands the flag over. *)
Lemma with_closed_keeps w w' :
  EnqueuingCapacity.is_closed w' = true →
  EnqueuingCapacity.is_closed (EnqueuingCapacity.with_closed w w') = true.
Proof.
  unfold EnqueuingCapacity.is_closed, EnqueuingCapacity.with_closed.
  rewrite !negb_true_iff, !Z.eqb_neq, Z.land_lor_distr_l, <- Z.land_assoc, Z.land_diag.
  intros Hne [_ ?]%Z.lor_eq_0_iff. done.
Qed.

(** ** Every operation on an encoded word *)
Section Encoded.
Variables (c : bool) (i r : Z).
Hypothesis Hi : 0 ≤ i ≤ 1.
Hypothesis Hr : 0 ≤ r < MAX_REMAINING.

Lemma enc_is_usize : is_usize (enc c i r).
Proof. unfold enc, MAX_REMAINING in *. destruct c; zlia. Qed.

Lemma enc_div : enc c i r / 2 ^ 63 = if c then 1 else 0.
Proof.
  symmetry. apply Z.div_unique with (i + 2 * r);
    unfold enc, MAX_REMAINING in *; destruct c; lia.
Qed.

Lemma enc_mod : enc c i r mod 2 ^ 63 = i + 2 * r.
Proof.
  symmetry. apply Z.mod_unique with (if c then 1 else 0);
    unfold enc, MAX_REMAINING in *; destruct c; lia.
Qed.

Lemma new_enc : EnqueuingCapacity.new i r = Ret (enc false i r).
Proof.
  unfold EnqueuingCapacity.new, MAX_REMAINING in *.
  rewrite shl_1_small by zlia. rewrite CLOSED_FLAG_eq.
  rewrite (proj2 (Z.ltb_lt _ _)) by lia. simpl.
  rewrite lor_bit_even by done. unfold enc. f_equal; lia.
Qed.

Lemma buffer_index_enc : EnqueuingCapacity.buffer_index (enc c i r) = i.
Proof.
  unfold EnqueuingCapacity.buffer_index. rewrite land_1.
  symmetry. apply Z.mod_unique with (r + if c then 2 ^ 62 else 0);
    unfold enc; destruct c; lia.
Qed.

Lemma remaining_capacity_enc : EnqueuingCapacity.remaining_capacity (enc c i r) = r.
Proof.
  unfold EnqueuingCapacity.remaining_capacity.
  rewrite land_not_closed, enc_mod, shr_1.
  symmetry. apply Z.div_unique with i; lia.
Qed.

Lemma is_closed_enc : EnqueuingCapacity.is_closed (enc c i r) = c.
Proof.
  unfold EnqueuingCapacity.is_closed.
  rewrite (land_closed _ enc_is_usize), enc_div. by destruct c.
Qed.

Lemma close_enc : EnqueuingCapacity.close (enc c i r) = enc true i r.
Proof.
  unfold EnqueuingCapacity.close. rewrite CLOSED_FLAG_eq.
  unfold enc, MAX_REMAINING in *. destruct c.
  - replace (i + 2 * r + 9223372036854775808) with (i + 2 * r + 2 ^ 63 * 1) by lia.
    rewrite <- lor_flag by lia. rewrite <- Z.lor_assoc. f_equal.
  - rewrite Z.add_0_r. replace (2 ^ 63) with (2 ^ 63 * 1) at 1 by lia.
    rewrite lor_flag by lia. lia.
Qed.

Lemma reopen_enc : EnqueuingCapacity.reopen (enc c i r) = enc false i r.
Proof.
  unfold EnqueuingCapacity.reopen. rewrite land_not_closed, enc_mod.
  unfold enc. lia.
Qed.

(** Reserving [n] slots of an open word succeeds exactly when [n] slots
    remain, as long as [n << 1] does not overflow. *)
Lemma try_reserve_enc n :
  0 ≤ n → 2 * n < USIZE_MODULUS →
  EnqueuingCapacity.try_reserve (enc false i r) n =
    if n <=? r then Some (enc false i (r - n)) else None.
Proof.
  intros. unfold EnqueuingCapacity.try_reserve, checked_sub, enc.
  rewrite shl_1_small by done. zcases; try lia; do 2 f_equal; lia.
Qed.

Lemma with_closed_enc (i' r' : Z) :
  0 ≤ i' ≤ 1 → 0 ≤ r' < MAX_REMAINING →
  EnqueuingCapacity.with_closed (enc false i' r') (enc c i r) = enc c i' r'.
Proof using Hi Hr.
  intros. unfold EnqueuingCapacity.with_closed.
  rewrite (land_closed _ enc_is_usize), enc_div.
  rewrite lor_flag by (unfold enc, MAX_REMAINING in *; lia).
  unfold enc. destruct c; lia.
Qed.
End Encoded.

#[export] Hint Rewrite new_enc buffer_index_enc remaining_capacity_enc
  is_closed_enc close_enc reopen_enc using (assumption || lia) : words.

(** The flag is the top bit. *)
Lemma open_small w : is_usize w → EnqueuingCapacity.is_closed w = false ↔ w < 2 ^ 63.
Proof.
  intros Hw. unfold EnqueuingCapacity.is_closed. rewrite negb_false_iff, Z.eqb_eq.
  rewrite land_closed by done. unfold is_usize in Hw.
  pose proof (Z.div_mod w (2 ^ 63) ltac:(lia)).
  pose proof (Z.mod_pos_bound w (2 ^ 63) ltac:(lia)). split; intros Hc; [lia|].
  rewrite Z.div_small; lia.
Qed.

(** [reopen] leaves an open word alone. *)
Lemma reopen_open w :
  is_usize w → EnqueuingCapacity.is_closed w = false → EnqueuingCapacity.reopen w = w.
Proof.
  intros Hw Hc. unfold EnqueuingCapacity.reopen. rewrite land_not_closed.
  apply Z.mod_small. apply open_small in Hc; [|done]. unfold is_usize in Hw. lia.
Qed.

(** ** Encoded dequeuing lengths *)
Section DeqEncoded.
Variables (i l : Z).
Hypothesis Hi : 0 ≤ i ≤ 1.
Hypothesis Hl : 0 ≤ l < MAX_REMAINING.

Lemma deq_new_enc : DequeuingLength.new i l = deq_enc i l.
Proof.
  unfold DequeuingLength.new, MAX_REMAINING in *.
  rewrite shl_1_small by zlia. by rewrite lor_bit_even.
Qed.

Lemma deq_buffer_index_enc : DequeuingLength.buffer_index (deq_enc i l) = i.
Proof.
  unfold DequeuingLength.buffer_index. rewrite land_1.
  symmetry. apply Z.mod_unique with l; unfold deq_enc; lia.
Qed.

Lemma deq_buffer_len_enc : DequeuingLength.buffer_len (deq_enc i l) = l.
Proof.
  unfold DequeuingLength.buffer_len. rewrite shr_1.
  symmetry. apply Z.div_unique with i; unfold deq_enc; lia.
Qed.

(** The lock word is not a dequeuing length. *)
Lemma deq_enc_unlocked : deq_enc i l ≠ DEQUEUING_LOCKED.
Proof. unfold deq_enc, DEQUEUING_LOCKED, MAX_REMAINING in *. zlia. Qed.

Lemma try_from_atomic_enc :
  DequeuingLength.try_from_atomic (deq_enc i l) = Some (deq_enc i l).
Proof.
  unfold DequeuingLength.try_from_atomic.
  destruct (Z.eqb_spec (deq_enc i l) DEQUEUING_LOCKED); [|done].
  by destruct deq_enc_unlocked.
Qed.
End DeqEncoded.

#[export] Hint Rewrite deq_new_enc deq_buffer_index_enc deq_buffer_len_enc
  try_from_atomic_enc using (assumption || lia) : words.

(** Every word is the encoding of one triple. *)
Lemma enc_surj w :
  is_usize w → ∃ c i r, w = enc c i r ∧ 0 ≤ i ≤ 1 ∧ 0 ≤ r < MAX_REMAINING.
Proof.
  intros Hw. exists (2 ^ 63 <=? w), ((w mod 2 ^ 63) mod 2), ((w mod 2 ^ 63) / 2).
  pose proof (Z.mod_pos_bound w (2 ^ 63) ltac:(lia)).
  pose proof (Z.div_mod (w mod 2 ^ 63) 2 ltac:(lia)).
  pose proof (Z.mod_pos_bound (w mod 2 ^ 63) 2 ltac:(lia)).
  pose proof (Z.div_mod w (2 ^ 63) ltac:(lia)).
  unfold enc, MAX_REMAINING in *. split; [|lia].
  destruct (Z.leb_spec (2 ^ 63) w); zlia.
Qed.

Lemma enc_inj c i r c' i' r' :
  0 ≤ i ≤ 1 → 0 ≤ r < MAX_REMAINING → 0 ≤ i' ≤ 1 → 0 ≤ r' < MAX_REMAINING →
  enc c i r = enc c' i' r' → c = c' ∧ i = i' ∧ r = r'.
Proof. intros ????. unfold enc, MAX_REMAINING in *. destruct c, c'; lia. Qed.

(** ** The words as a data type *)

(** C28: [new] and the accessors are inverse of each other, and [close] and
    [reopen] move the flag only. *)
Theorem enqueuing_roundtrip i r :
  0 ≤ i ≤ 1 → 0 ≤ r < MAX_REMAINING →
  ∃ w, EnqueuingCapacity.new i r = Ret w ∧ is_usize w ∧
    EnqueuingCapacity.buffer_index w = i ∧
    EnqueuingCapacity.remaining_capacity w = r ∧
    EnqueuingCapacity.is_closed w = false ∧
    let w' := EnqueuingCapacity.close w in
    EnqueuingCapacity.buffer_index w' = i ∧
    EnqueuingCapacity.remaining_capacity w' = r ∧
    EnqueuingCapacity.is_closed w' = true ∧
    EnqueuingCapacity.reopen w' = w.
Proof.
  intros Hi Hr. exists (enc false i r). cbv zeta.
  rewrite close_enc, reopen_enc, !buffer_index_enc, !remaining_capacity_enc,
    !is_closed_enc, new_enc by done.
  split_and!; try done; by apply enc_is_usize.
Qed.

Lemma enqueuing_roundtrip_witness :
  ∃ w, EnqueuingCapacity.new 1 42 = Ret w ∧ is_usize w ∧
    EnqueuingCapacity.buffer_index w = 1 ∧ EnqueuingCapacity.remaining_capacity w = 42.
Proof.
  destruct (enqueuing_roundtrip 1 42) as (w & ? & ? & ? & ? & _); [lia|unfold MAX_REMAINING; lia|].
  by exists w.
Defined.

(** C27: reserving on any open word: it succeeds exactly when the slots remain,
    and then takes that many, without touching the index or the flag. *)
Theorem try_reserve_exact w n :
  is_usize w → EnqueuingCapacity.is_closed w = false → 0 ≤ n < 9223372036854775808 →
  match EnqueuingCapacity.try_reserve w n with
  | Some w' =>
      n ≤ EnqueuingCapacity.remaining_capacity w ∧ is_usize w' ∧
      EnqueuingCapacity.remaining_capacity w' = EnqueuingCapacity.remaining_capacity w - n ∧
      EnqueuingCapacity.buffer_index w' = EnqueuingCapacity.buffer_index w ∧
      EnqueuingCapacity.is_closed w' = false
  | None => EnqueuingCapacity.remaining_capacity w < n
  end.
Proof.
  intros (c & i & r & -> & Hi & Hr)%enc_surj Hc Hn.
  rewrite is_closed_enc in Hc by done. subst c.
  rewrite try_reserve_enc by (done || zlia).
  rewrite remaining_capacity_enc by done.
  destruct (Z.leb_spec n r); [|done].
  rewrite !buffer_index_enc, remaining_capacity_enc, is_closed_enc by lia.
  split_and!; try done; apply enc_is_usize; lia.
Qed.

Lemma try_reserve_exact_witness :
  3 ≤ EnqueuingCapacity.remaining_capacity 9 ∧ is_usize 3 ∧
  EnqueuingCapacity.remaining_capacity 3 = EnqueuingCapacity.remaining_capacity 9 - 3 ∧
  EnqueuingCapacity.buffer_index 3 = EnqueuingCapacity.buffer_index 9 ∧
  EnqueuingCapacity.is_closed 3 = false.
Proof. exact (try_reserve_exact 9 3 ltac:(zlia) eq_refl ltac:(lia)). Defined.

(** the capacities [check_overflow] accepts are those for which both words
    can be built, read back, and never look like the lock. *)
Theorem check_overflow_safe i c l :
  0 ≤ i ≤ 1 → 0 ≤ l ≤ c → EnqueuingCapacity.check_overflow c = Ret tt →
  (∃ w, EnqueuingCapacity.new i l = Ret w) ∧
  DequeuingLength.new i l ≠ DEQUEUING_LOCKED ∧
  DequeuingLength.try_from_atomic (DequeuingLength.new i l) = Some (DequeuingLength.new i l) ∧
  DequeuingLength.buffer_index (DequeuingLength.new i l) = i ∧
  DequeuingLength.buffer_len (DequeuingLength.new i l) = l.
Proof.
  intros Hi Hl. unfold EnqueuingCapacity.check_overflow.
  change (shr usize_MAX 2) with 4611686018427387903.
  destruct (Z.ltb_spec c 4611686018427387903); [intros _|done].
  assert (0 ≤ l < MAX_REMAINING) by (unfold MAX_REMAINING; lia).
  rewrite new_enc, deq_new_enc, try_from_atomic_enc, deq_buffer_index_enc,
    deq_buffer_len_enc by done.
  split_and!; eauto. by apply deq_enc_unlocked.
Qed.

Lemma check_overflow_safe_witness :
  (∃ w, EnqueuingCapacity.new 1 5 = Ret w) ∧ DequeuingLength.new 1 5 ≠ DEQUEUING_LOCKED ∧
  DequeuingLength.try_from_atomic (DequeuingLength.new 1 5) = Some (DequeuingLength.new 1 5) ∧
  DequeuingLength.buffer_index (DequeuingLength.new 1 5) = 1 ∧
  DequeuingLength.buffer_len (DequeuingLength.new 1 5) = 5.
Proof. exact (check_overflow_safe 1 8 5 ltac:(lia) ltac:(lia) eq_refl). Defined.
