(* ===== verification/Errors.v ===== *)
(** * The error types of [src/src/error.rs]

    The enums with their methods and the texts of their [Display]/[Debug]
    implementations. *)

From S2P Require Import Prelude.

Module TryEnqueueError.
Inductive t (T : Type) : Type :=
  | InsufficientCapacity (v : T)
  | Closed (v : T).
Arguments InsufficientCapacity {T} v.
Arguments Closed {T} v.

Definition into_inner {T} (self : t T) : T :=
  match self with InsufficientCapacity v | Closed v => v end.

(** [impl fmt::Debug] *)
Definition debug {T} (self : t T) : string :=
  match self with
  | InsufficientCapacity _ => "TryEnqueueError::InsufficientCapacity(_)"
  | Closed _ => "TryEnqueueError::Closed(_)"
  end.

(** [impl fmt::Display] *)
Definition display {T} (self : t T) : string :=
  match self with
  | InsufficientCapacity _ => "queue has insufficient capacity"
  | Closed _ => "queue is closed"
  end.
End TryEnqueueError.

Module TryDequeueError.
Inductive t : Set := Empty | Pending | Closed | Conflict.

#[export] Instance eq_dec : EqDecision t.
Proof. solve_decision. Defined.

(** [impl fmt::Display] *)
Definition display (self : t) : string :=
  match self with
  | Empty => "queue is empty"
  | Pending => "waiting for concurrent enqueuing end"
  | Closed => "queue is closed"
  | Conflict => "queue is concurrently dequeued"
  end.
End TryDequeueError.

Module DequeueError.
Inductive t : Set := Closed | Conflict.

#[export] Instance eq_dec : EqDecision t.
Proof. solve_decision. Defined.

(** [impl fmt::Display] *)
Definition display (self : t) : string :=
  match self with
  | Closed => "queue is closed"
  | Conflict => "queue is concurrently dequeued"
  end.
End DequeueError.
