(* ===== verification/Buffers.v ===== *)
(** * The buffer interface of [src/src/buffer.rs]

    The traits [Buffer], [InsertIntoBuffer], [CellBuffer], [Resize] and
    [Drain] as classes of operations; the two generic [InsertIntoBuffer]
    implementations over a [CellBuffer] (arrays and [ValueIter]); and
    [BufferLaws], the contract the traits document ("inserted" ranges), which
    is all the queue's theorems use of a buffer. *)

From S2P Require Import Prelude.
#[local] Open Scope Z_scope.

(** ** The traits *)
Class Buffer (B S : Type) := {
  buf_default : B;                         (* [Buffer: Default] *)
  capacity : B → Z;
  slice : B → range → outcome S;
  clear : B → range → outcome B;
}.

Class InsertIntoBuffer (B V : Type) := {
  size : V → Z;
  insert_into : V → B → Z → outcome B;
}.

Class CellBuffer (B T : Type) := insert : B → Z → T → outcome B.

(** [Resize] and [Drain] are implemented by some buffers only: [None] for a
    buffer without the implementation. *)
Class Resize (B : Type) := resize : option (B → Z → B).

Class Drain (B E : Type) := remove : option (B → Z → outcome (B * E)).

(** A slice is a mutable borrow of its buffer. [assign s k x] is [s[k] = x]
    through [DerefMut]; [store b r s] is what [b] holds once the borrow of its
    slots [r] ends. [None] when the elements are not what the slice gives access
    to (the io-slices of the vectored buffers). *)
Record slice_ops (B S E : Type) : Type := mk_slice_ops {
  assign : S → Z → E → outcome S;
  store : B → range → S → outcome B;
}.
Arguments mk_slice_ops {B S E}.
Arguments assign {B S E}.
Arguments store {B S E}.

Class SliceMut (B S E : Type) := slice_mut : option (slice_ops B S E).

(** [slice[k] = x] on the slots [r] of a buffer: the buffer and the slice after. *)
Definition slice_set {B S E : Type} `{Buffer B S} (ops : slice_ops B S E) (b : B) (r : range)
    (k : Z) (x : E) : outcome (B * S) :=
  let! sl := slice b r in
  let! sl := assign ops sl k x in
  let! b := store ops b r sl in
  Ret (b, sl).

(** [slice[k] = x] on a slice of [&mut [T]]. *)
Definition list_assign {T} (s : list T) (k : Z) (x : T) : outcome (list T) := index_set s k x.

(** ** [InsertIntoBuffer] for [[T; N]] *)
Fixpoint array_insert_loop `{CellBuffer B T}
    (elts : list T) (i : Z) (buffer : B) (index : Z) : outcome B :=
  match elts with
  | [] => Ret buffer
  | elt :: elts =>
      let! pos := usize_add index i in
      let! buffer := insert buffer pos elt in
      array_insert_loop elts (i + 1) buffer index
  end.

Definition array_insert_into `{CellBuffer B T}
    (self : list T) (buffer : B) (index : Z) : outcome B :=
  array_insert_loop self 0 buffer index.

Definition array_size {T} (self : list T) : Z := Z.of_nat (length self).

(** ** [InsertIntoBuffer] for [ValueIter]

    [ExactSizeIterator] is a safe trait, so [len] may answer anything, and
    something else at each call. The implementation calls it twice: in [size]
    and again in [insert_into]. *)
Record ValueIter (T : Type) : Type := mk_ValueIter {
  len_in_size : Z;          (* the answer to the call of [size] *)
  len_in_insert : Z;        (* the answer to the call of [insert_into] *)
  items : list T;           (* what [next] yields before [None] *)
}.
Arguments mk_ValueIter {T}.
Arguments len_in_size {T}.
Arguments len_in_insert {T}.
Arguments items {T}.

(** [into_value_iter] on an iterator whose [len] is right. *)
Definition into_value_iter {T} (l : list T) : ValueIter T :=
  {| len_in_size := Z.of_nat (length l);
     len_in_insert := Z.of_nat (length l); items := l |}.

Definition value_iter_size {T} (self : ValueIter T) : Z := len_in_size self.

Fixpoint value_iter_loop `{CellBuffer B T}
    (n : nat) (i : Z) (its : list T) (buffer : B) : outcome B :=
  match n with
  | O => Ret buffer
  | S n =>
      match its with
      | [] => Panic            (* "iterator exhausted before reaching its exact size" *)
      | x :: its =>
          let! buffer := insert buffer i x in
          value_iter_loop n (i + 1) its buffer
      end
  end.

Definition value_iter_insert_into `{CellBuffer B T}
    (self : ValueIter T) (buffer : B) (index : Z) : outcome B :=
  let! last := usize_add index (len_in_insert self) in
  value_iter_loop (Z.to_nat (last - index)) index (items self) buffer.

(** A value of a cell buffer is either an array or a wrapped iterator. *)
Inductive cell_value (T : Type) : Type :=
  | VArray (elts : list T)
  | VIter (it : ValueIter T).
Arguments VArray {T} elts.
Arguments VIter {T} it.

#[export] Instance cell_value_insert `{CellBuffer B T} :
  InsertIntoBuffer B (cell_value T) := {|
    size v := match v with
              | VArray elts => array_size elts
              | VIter it => value_iter_size it
              end;
    insert_into v b i := match v with
                         | VArray elts => array_insert_into elts b i
                         | VIter it => value_iter_insert_into it b i
                         end;
  |}.

(** ** The contract

    [Rep b m]: the slots "inserted" in [b] are the domain of [m], and slot [i]
    holds [m !! i]. A value inserts its [elems]; a slice shows its elements
    through [obs]. *)
Class BufferLaws (B S V E Ob : Type)
    `{Buffer B S, InsertIntoBuffer B V, Resize B, Drain B E, SliceMut B S E} := {
  elems : V → list E;
  obs : E → Ob;
  view : S → list Ob;
  Rep : B → gmap Z E → Prop;
  valid_value : V → Prop;

  valid_size v : valid_value v →
    size v = Z.of_nat (length (elems v)) ∧ size v < 9223372036854775808;
  capacity_nonneg b : 0 ≤ capacity b;
  rep_default : Rep buf_default ∅;
  rep_bound b m i x : Rep b m → m !! i = Some x → 0 ≤ i < capacity b;
  insert_spec b m v i :
    Rep b m → valid_value v → capacity b < 4611686018427387904 →
    0 < size v → 0 ≤ i → i + size v ≤ capacity b →
    (∀ j, i ≤ j < i + size v → m !! j = None) →
    ∃ b', insert_into v b i = Ret b' ∧ capacity b' = capacity b ∧
          Rep b' (map_seqZ i (elems v) ∪ m);
  (** Even out of range, an insertion is never undefined behaviour and keeps
      the capacity (it panics or returns). *)
  insert_no_UB v (b : B) i : insert_into v b i ≠ UB;
  insert_capacity v (b : B) i b' : insert_into v b i = Ret b' → capacity b' = capacity b;
  slice_spec b m s l :
    Rep b m → capacity b < 4611686018427387904 → 0 ≤ s → 0 < capacity b → s + Z.of_nat (length l) ≤ capacity b →
    (∀ k x, l !! k = Some x → m !! (s + Z.of_nat k) = Some x) →
    ∃ sl, slice b (Range s (s + Z.of_nat (length l))) = Ret sl ∧ view sl = obs <$> l;
  clear_spec b m s e :
    Rep b m → 0 ≤ s ≤ e → (∀ j, is_Some (m !! j) ↔ s ≤ j < e) →
    ∃ b', clear b (Range s e) = Ret b' ∧ capacity b' = capacity b ∧ Rep b' ∅;
  remove_spec rm b m j x :
    remove = Some rm → Rep b m → m !! j = Some x →
    ∃ b', rm b j = Ret (b', x) ∧ capacity b' = capacity b ∧ Rep b' (delete j m);
  resize_spec rs b n :
    resize = Some rs → Rep b ∅ → 0 ≤ n < 4611686018427387904 →
    Rep (rs b n) ∅ ∧ capacity (rs b n) = n;
  slice_set_spec ops b m s l k x :
    slice_mut = Some ops → Rep b m → capacity b < 4611686018427387904 → 0 ≤ s →
    s + Z.of_nat (length l) ≤ capacity b → (k < length l)%nat →
    (∀ k x, l !! k = Some x → m !! (s + Z.of_nat k) = Some x) →
    ∃ b' sl, slice_set ops b (Range s (s + Z.of_nat (length l))) (Z.of_nat k) x = Ret (b', sl) ∧
             view sl = obs <$> <[k := x]> l ∧ capacity b' = capacity b ∧
             Rep b' (<[s + Z.of_nat k := x]> m);
}.
Arguments elems {B S V E Ob _ _ _ _ _ _} _ : assert.
Arguments obs {B S V E Ob _ _ _ _ _ _} _ : assert.
Arguments view {B S V E Ob _ _ _ _ _ _} _ : assert.
Arguments Rep {B S V E Ob _ _ _ _ _ _} _ _ : assert.
Arguments valid_value {B S V E Ob _ _ _ _ _ _} _ : assert.

(** ** Insertion loops over a cell buffer that inserts one slot correctly *)
Section InsertLoops.
Context `{CellBuffer B T} (cap : B → Z) (R : B → gmap Z T → Prop).

(** What one [CellBuffer::insert] promises. *)
Definition insert_one_ok : Prop :=
  ∀ b m i x, R b m → 0 ≤ i < cap b →
    ∃ b', insert b i x = Ret b' ∧ cap b' = cap b ∧ R b' (<[i := x]> m).

(** What it promises anywhere. *)
Definition insert_one_safe : Prop :=
  ∀ b i x, insert b i x ≠ UB ∧ ∀ b', insert b i x = Ret b' → cap b' = cap b.

Lemma array_insert_loop_safe (Hs : insert_one_safe) elts : ∀ b i index,
  array_insert_loop elts i b index ≠ UB ∧
  ∀ b', array_insert_loop elts i b index = Ret b' → cap b' = cap b.
Proof.
  induction elts as [|x l IH]; intros b i index; simpl; [split; congruence|].
  unfold usize_add. zcases; simpl; [|split; congruence].
  destruct (Hs b (index + i) x) as [Hu Hc].
  destruct (insert b (index + i) x) as [b1| |]; simpl; [|split; congruence|done].
  specialize (Hc b1 eq_refl). destruct (IH b1 (i + 1) index) as [? Hc'].
  split; [done|]. intros b' ?%Hc'. congruence.
Qed.

Lemma value_iter_loop_safe (Hs : insert_one_safe) n : ∀ its b i,
  value_iter_loop n i its b ≠ UB ∧
  ∀ b', value_iter_loop n i its b = Ret b' → cap b' = cap b.
Proof.
  induction n as [|n IH]; intros its b i; simpl; [split; congruence|].
  destruct its as [|x its]; simpl; [split; congruence|].
  destruct (Hs b i x) as [Hu Hc].
  destruct (insert b i x) as [b1| |]; simpl; [|split; congruence|done].
  specialize (Hc b1 eq_refl). destruct (IH its b1 (i + 1)) as [? Hc'].
  split; [done|]. intros b' ?%Hc'. congruence.
Qed.

Lemma cell_insert_safe (Hs : insert_one_safe) (v : cell_value T) b i :
  insert_into v b i ≠ UB ∧ ∀ b', insert_into v b i = Ret b' → cap b' = cap b.
Proof.
  destruct v as [l|it]; simpl; [by apply array_insert_loop_safe|].
  unfold value_iter_insert_into, usize_add. zcases; simpl;
    [by apply value_iter_loop_safe|split; congruence].
Qed.

Hypothesis Hone : insert_one_ok.

Lemma map_seqZ_snoc_insert (i : Z) (x : T) (l : list T) (m : gmap Z T) :
  map_seqZ (i + 1) l ∪ <[i := x]> m = map_seqZ i (x :: l) ∪ m.
Proof.
  replace (i + 1) with (Z.succ i) by lia. rewrite map_seqZ_cons.
  rewrite <- insert_union_l, <- insert_union_r; [done|].
  apply lookup_map_seqZ_None. lia.
Qed.

Lemma array_insert_loop_spec elts : ∀ b m i index,
  R b m → 0 ≤ i → 0 ≤ index → cap b ≤ usize_MAX →
  index + i + Z.of_nat (length elts) ≤ cap b →
  ∃ b', array_insert_loop elts i b index = Ret b' ∧ cap b' = cap b ∧
        R b' (map_seqZ (index + i) elts ∪ m).
Proof.
  induction elts as [|x l IH]; intros b m i index HR Hi Hx Hmax Hcap; simpl in *.
  { exists b. rewrite (left_id_L ∅ (∪)). eauto. }
  rewrite usize_add_Ret by lia. simpl.
  destruct (Hone b m (index + i) x) as (b1 & -> & Hc1 & HR1); [done|lia|]. simpl.
  destruct (IH b1 _ (i + 1) index HR1) as (b2 & -> & Hc2 & HR2); try lia.
  exists b2. repeat split; [congruence|].
  by rewrite Z.add_assoc, map_seqZ_snoc_insert in HR2.
Qed.

Lemma value_iter_loop_spec its : ∀ b m i,
  R b m → 0 ≤ i → i + Z.of_nat (length its) ≤ cap b →
  ∃ b', value_iter_loop (length its) i its b = Ret b' ∧ cap b' = cap b ∧
        R b' (map_seqZ i its ∪ m).
Proof.
  induction its as [|x l IH]; intros b m i HR Hi Hcap; simpl in *.
  { exists b. rewrite (left_id_L ∅ (∪)). eauto. }
  destruct (Hone b m i x) as (b1 & -> & Hc1 & HR1); [done|lia|]. simpl.
  destruct (IH b1 _ (i + 1) HR1) as (b2 & -> & Hc2 & HR2); try lia.
  exists b2. repeat split; [congruence|].
  by rewrite map_seqZ_snoc_insert in HR2.
Qed.
End InsertLoops.

(** ** The two ways to insert agree *)
Section Equivalence.
Context `{CellBuffer B T}.

Lemma insert_loops_agree elts : ∀ i b index,
  0 ≤ i → index + i + Z.of_nat (length elts) ≤ usize_MAX →
  array_insert_loop elts i b index = value_iter_loop (length elts) (index + i) elts b.
Proof.
  induction elts as [|x l IH]; intros i b index Hi Hmax; simpl in *; [done|].
  rewrite usize_add_Ret by lia. simpl.
  destruct (insert b (index + i) x) as [b'| |]; simpl; [|done..].
  rewrite IH by lia. f_equal. lia.
Qed.

(** C40: inserting an array and inserting an iterator over the same values
    ([into_value_iter]) do the same thing to any cell buffer, and reserve the
    same size. *)
Theorem insertions_agree (elts : list T) (b : B) (index : Z) :
  0 ≤ index → index + Z.of_nat (length elts) ≤ usize_MAX →
  array_size elts = value_iter_size (into_value_iter elts) ∧
  array_insert_into elts b index = value_iter_insert_into (into_value_iter elts) b index.
Proof.
  intros Hi Hmax. split; [done|].
  unfold array_insert_into, value_iter_insert_into. simpl.
  rewrite usize_add_Ret by lia. simpl.
  rewrite insert_loops_agree by lia. rewrite Z.add_0_r. f_equal. lia.
Qed.
End Equivalence.
