(* ===== verification/CellBuffers.v ===== *)
(** * [ArrayBuffer] and [VecBuffer]
    ([src/src/buffer/array.rs], [src/src/buffer/vec.rs], [init_array] of
    [src/src/utils.rs])

    Both are arrays of [Cell<MaybeUninit<T>>]. They differ on [remove]: the
    array buffer takes the value out of its cell, the vector buffer reads it
    and leaves the bits behind. Both satisfy [BufferLaws]. *)

From S2P Require Import Prelude Buffers.
#[local] Open Scope Z_scope.

(** [init_array(default)] for an array of length [N]. *)
Definition init_array {T} (N : Z) (default : T) : list T :=
  replicate (Z.to_nat N) default.

Module ArrayBuffer.
Record t (T : Type) (N : Z) : Type := mk { cells : list (MaybeUninit T) }.
Arguments mk {T N} cells.
Arguments cells {T N} _.

Section Ops.
Context {T : Type} {N : Z}.

Definition default : t T N := mk (init_array N None).

Definition capacity (self : t T N) : Z := Z.of_nat (length (cells self)).

Definition slice (self : t T N) (r : range) : outcome (list T) :=
  let! cs := index_range (cells self) r in assume_init_all cs.

Definition insert (self : t T N) (index : Z) (value : T) : outcome (t T N) :=
  let! cs := index_set (cells self) index (Some value) in Ret (mk cs).

Definition remove (self : t T N) (i : Z) : outcome (t T N * T) :=
  let! c := index (cells self) i in
  let! cs := index_set (cells self) i None in
  let! x := assume_init c in
  Ret (mk cs, x).

Fixpoint clear_loop (n : nat) (i : Z) (self : t T N) : outcome (t T N) :=
  match n with
  | O => Ret self
  | S n => let! (self, _) := remove self i in clear_loop n (i + 1) self
  end.

Definition clear (self : t T N) (r : range) : outcome (t T N) :=
  clear_loop (Z.to_nat (r_end r - r_start r)) (r_start r) self.
(** The [T]s behind the slots [r], once the [&mut [T]] has the values [s]. *)
Definition store (self : t T N) (r : range) (s : list T) : outcome (t T N) :=
  Ret (mk (list_inserts (Z.to_nat (r_start r)) (Some <$> s) (cells self))).
End Ops.
End ArrayBuffer.

Module VecBuffer.
Record t (T : Type) : Type := mk { cells : list (MaybeUninit T) }.
Arguments mk {T} cells.
Arguments cells {T} _.

Section Ops.
Context {T : Type}.

Definition default : t T := mk [].

Definition capacity (self : t T) : Z := Z.of_nat (length (cells self)).

Definition slice (self : t T) (r : range) : outcome (list T) :=
  let! cs := index_range (cells self) r in assume_init_all cs.

Definition insert (self : t T) (index : Z) (value : T) : outcome (t T) :=
  let! cs := index_set (cells self) index (Some value) in Ret (mk cs).

(** [assume_init_read] copies the value out; the cell keeps its bits. *)
Definition remove (self : t T) (i : Z) : outcome (t T * T) :=
  let! c := index (cells self) i in
  let! x := assume_init c in
  Ret (self, x).

Fixpoint clear_loop (n : nat) (i : Z) (self : t T) : outcome (t T) :=
  match n with
  | O => Ret self
  | S n => let! (self, _) := remove self i in clear_loop n (i + 1) self
  end.

Definition clear (self : t T) (r : range) : outcome (t T) :=
  clear_loop (Z.to_nat (r_end r - r_start r)) (r_start r) self.

Definition resize (self : t T) (capacity : Z) : t T :=
  mk (replicate (Z.to_nat capacity) None).
(** The [T]s behind the slots [r], once the [&mut [T]] has the values [s]. *)
Definition store (self : t T) (r : range) (s : list T) : outcome (t T) :=
  Ret (mk (list_inserts (Z.to_nat (r_start r)) (Some <$> s) (cells self))).
End Ops.
End VecBuffer.

(** ** The trait implementations *)
#[export] Instance ArrayBuffer_Buffer {T N} : Buffer (ArrayBuffer.t T N) (list T) := {|
  buf_default := ArrayBuffer.default;
  capacity := ArrayBuffer.capacity;
  slice := ArrayBuffer.slice;
  clear := ArrayBuffer.clear;
|}.
#[export] Instance ArrayBuffer_CellBuffer {T N} : CellBuffer (ArrayBuffer.t T N) T :=
  ArrayBuffer.insert.
#[export] Instance ArrayBuffer_Resize {T N} : Resize (ArrayBuffer.t T N) := None.
#[export] Instance ArrayBuffer_Drain {T N} : Drain (ArrayBuffer.t T N) T :=
  Some ArrayBuffer.remove.
#[export] Instance ArrayBuffer_SliceMut {T N} : SliceMut (ArrayBuffer.t T N) (list T) T :=
  Some (mk_slice_ops list_assign ArrayBuffer.store).

#[export] Instance VecBuffer_Buffer {T} : Buffer (VecBuffer.t T) (list T) := {|
  buf_default := VecBuffer.default;
  capacity := VecBuffer.capacity;
  slice := VecBuffer.slice;
  clear := VecBuffer.clear;
|}.
#[export] Instance VecBuffer_CellBuffer {T} : CellBuffer (VecBuffer.t T) T :=
  VecBuffer.insert.
#[export] Instance VecBuffer_Resize {T} : Resize (VecBuffer.t T) :=
  Some VecBuffer.resize.
#[export] Instance VecBuffer_Drain {T} : Drain (VecBuffer.t T) T :=
  Some VecBuffer.remove.
#[export] Instance VecBuffer_SliceMut {T} : SliceMut (VecBuffer.t T) (list T) T :=
  Some (mk_slice_ops list_assign VecBuffer.store).

(** ** Cells that hold the inserted values *)
Section CellsRep.
Context {T : Type}.
Implicit Types (cs : list (MaybeUninit T)) (m : gmap Z T).

Definition cells_rep cs m : Prop :=
  ∀ i x, m !! i = Some x → 0 ≤ i ∧ cs !! Z.to_nat i = Some (Some x).

Lemma cells_rep_empty cs : cells_rep cs ∅.
Proof. intros i x Hi. by rewrite lookup_empty in Hi. Qed.

Lemma cells_rep_bound cs m i x :
  cells_rep cs m → m !! i = Some x → 0 ≤ i < Z.of_nat (length cs).
Proof.
  intros HR Hi. destruct (HR i x Hi) as [? Hl%lookup_lt_Some]. lia.
Qed.

Lemma cells_rep_insert cs m i x :
  cells_rep cs m → 0 ≤ i < Z.of_nat (length cs) →
  cells_rep (<[Z.to_nat i := Some x]> cs) (<[i := x]> m).
Proof.
  intros HR Hi j y. destruct (decide (i = j)) as [<-|Hne].
  - rewrite lookup_insert_eq. intros [= <-]. split; [lia|].
    apply list_lookup_insert_eq. lia.
  - rewrite lookup_insert_ne by done. intros Hj.
    destruct (HR j y Hj). split; [done|].
    rewrite list_lookup_insert_ne by lia. done.
Qed.

Lemma cells_rep_delete cs m j c :
  cells_rep cs m → 0 ≤ j →
  cells_rep (<[Z.to_nat j := c]> cs) (delete j m).
Proof.
  intros HR Hj i x. rewrite lookup_delete_Some. intros [Hne Hi].
  destruct (HR i x Hi). split; [done|].
  rewrite list_lookup_insert_ne by lia. done.
Qed.

Lemma cells_rep_forget cs m j : cells_rep cs m → cells_rep cs (delete j m).
Proof.
  intros HR i x. rewrite lookup_delete_Some. intros [_ Hi]. by apply HR.
Qed.

(** A range of inserted cells reads as its values. *)
Lemma cells_rep_slice cs m s (l : list T) :
  cells_rep cs m → 0 ≤ s → s + Z.of_nat (length l) ≤ Z.of_nat (length cs) →
  (∀ k x, l !! k = Some x → m !! (s + Z.of_nat k) = Some x) →
  obind (index_range cs (Range s (s + Z.of_nat (length l)))) assume_init_all
    = Ret l.
Proof.
  intros HR Hs Hlen Hl.
  pose proof (index_range_Ret cs s (Some <$> l)) as Hr.
  rewrite length_fmap in Hr. rewrite Hr; simpl;
    [apply assume_init_all_Some|done..|].
  intros k y. rewrite list_lookup_fmap, fmap_Some. intros (x & Hx & ->).
  destruct (HR _ _ (Hl k x Hx)) as [_ <-]. f_equal. lia.
Qed.

(** Assigning through the slice of a range of inserted cells. *)
Lemma cells_rep_store cs m s (l : list T) k x :
  cells_rep cs m → 0 ≤ s → s + Z.of_nat (length l) ≤ Z.of_nat (length cs) →
  (k < length l)%nat → (∀ k x, l !! k = Some x → m !! (s + Z.of_nat k) = Some x) →
  cells_rep (list_inserts (Z.to_nat s) (Some <$> <[k := x]> l) cs)
    (<[s + Z.of_nat k := x]> m).
Proof.
  intros HR Hs Hlen Hk Hl j y. rewrite lookup_insert_Some.
  intros [[<- <-]|[Hne Hj]].
  - split; [lia|]. rewrite list_lookup_inserts by (rewrite ?length_fmap, ?length_insert; lia).
    rewrite list_lookup_fmap. replace (Z.to_nat (s + Z.of_nat k) - Z.to_nat s)%nat with k by lia.
    by rewrite list_lookup_insert_eq.
  - destruct (HR j y Hj) as [Hj0 Hc]. split; [done|].
    destruct (decide (Z.to_nat j < Z.to_nat s)%nat); [by rewrite list_lookup_inserts_lt|].
    destruct (decide (Z.to_nat s + length l ≤ Z.to_nat j)%nat).
    + by rewrite list_lookup_inserts_ge by (rewrite length_fmap, length_insert; lia).
    + rewrite list_lookup_inserts by (rewrite ?length_fmap, ?length_insert; lia).
      rewrite list_lookup_fmap, list_lookup_insert_ne by lia.
      destruct (lookup_lt_is_Some_2 l (Z.to_nat j - Z.to_nat s)) as [z Hz]; [lia|].
      rewrite Hz. simpl. specialize (Hl _ _ Hz).
      replace (s + Z.of_nat (Z.to_nat j - Z.to_nat s)) with j in Hl by lia. congruence.
Qed.
End CellsRep.

(** Clearing a buffer whose [remove] is correct empties the inserted range. *)
Section ClearLoop.
Context {B T : Type} (cap : B → Z) (R : B → gmap Z T → Prop).
Context (rm : B → Z → outcome (B * T)) (loop : nat → Z → B → outcome B).
Hypothesis loop_0 : ∀ i b, loop 0 i b = Ret b.
Hypothesis loop_S : ∀ n i b,
  loop (S n) i b = let! (b, _) := rm b i in loop n (i + 1) b.
Hypothesis rm_ok : ∀ b m j x, R b m → m !! j = Some x →
  ∃ b', rm b j = Ret (b', x) ∧ cap b' = cap b ∧ R b' (delete j m).

Lemma clear_loop_spec n : ∀ s b m,
  R b m → (∀ j, is_Some (m !! j) ↔ s ≤ j < s + Z.of_nat n) →
  ∃ b', loop n s b = Ret b' ∧ cap b' = cap b ∧ R b' ∅.
Proof.
  induction n as [|n IH]; intros s b m HR Hm.
  - assert (m = ∅) as ->.
    { apply map_empty. intros j. apply eq_None_not_Some. rewrite Hm. lia. }
    rewrite loop_0. eauto.
  - assert (is_Some (m !! s)) as [x Hx] by (apply Hm; lia).
    rewrite loop_S. destruct (rm_ok b m s x HR Hx) as (b1 & -> & Hc & HR1). simpl.
    destruct (IH (s + 1) b1 (delete s m) HR1) as (b2 & -> & Hc2 & HR2).
    { intros j. destruct (decide (s = j)) as [<-|Hne].
      - rewrite lookup_delete_eq. split; [by intros []|lia].
      - rewrite lookup_delete_ne, Hm by done. lia. }
    exists b2. repeat split; congruence || done.
Qed.
End ClearLoop.

(** A value inserts its elements; an iterator must report its length. *)
Definition cell_elems {T} (v : cell_value T) : list T :=
  match v with VArray elts => elts | VIter it => items it end.

Definition cell_valid {T} (v : cell_value T) : Prop :=
  Z.of_nat (length (cell_elems v)) < 9223372036854775808 ∧
  match v with
  | VArray _ => True
  | VIter it => len_in_size it = Z.of_nat (length (items it)) ∧
                len_in_insert it = Z.of_nat (length (items it))
  end.

Lemma cell_valid_size {B T} `{CellBuffer B T} (v : cell_value T) :
  cell_valid v →
  size (B := B) v = Z.of_nat (length (cell_elems v)) ∧
  size (B := B) v < 9223372036854775808.
Proof.
  unfold cell_valid. destruct v as [l|it]; simpl; unfold array_size, value_iter_size.
  - intros; split_hyps; lia.
  - intros (? & -> & ?). lia.
Qed.

(** [insert_spec] for the values of any cell buffer. *)
Lemma cell_insert_spec `{CellBuffer B T} (cap : B → Z) (R : B → gmap Z T → Prop)
    (Hone : insert_one_ok cap R) b m (v : cell_value T) i :
  R b m → cell_valid v → cap b < 4611686018427387904 →
  0 ≤ i → i + size (B := B) v ≤ cap b →
  ∃ b', insert_into v b i = Ret b' ∧ cap b' = cap b ∧
        R b' (map_seqZ i (cell_elems v) ∪ m).
Proof.
  intros HR Hv Hcap Hi Hsz. destruct (cell_valid_size (B := B) v Hv) as [Hs _].
  destruct Hv as [_ Hv]. rewrite Hs in Hsz.
  destruct v as [l|it]; simpl in *.
  - unfold array_insert_into.
    destruct (array_insert_loop_spec cap R Hone l b m 0 i) as (b' & -> & ? & HR');
      [done|lia|lia|zlia|lia|].
    rewrite Z.add_0_r in HR'. eauto.
  - destruct Hv as [_ Hv]. unfold value_iter_insert_into.
    rewrite Hv, usize_add_Ret by zlia. simpl.
    replace (Z.to_nat _) with (length (items it)) by lia.
    by apply (value_iter_loop_spec cap R Hone).
Qed.

(** ** The laws of [ArrayBuffer] *)
Section ArrayLaws.
Context {T : Type} {N : Z}.
Implicit Types (b : ArrayBuffer.t T N) (m : gmap Z T).

Definition array_rep b m : Prop := cells_rep (ArrayBuffer.cells b) m.

Lemma array_insert_one : insert_one_ok ArrayBuffer.capacity array_rep.
Proof.
  intros b m i x HR Hi. unfold insert, ArrayBuffer_CellBuffer, ArrayBuffer.insert.
  unfold ArrayBuffer.capacity in *. rewrite index_set_Ret by lia. simpl.
  eexists; split; [done|]. split; [simpl; by rewrite length_insert|].
  apply cells_rep_insert; [done|lia].
Qed.

Lemma array_insert_safe : insert_one_safe (B := ArrayBuffer.t T N) ArrayBuffer.capacity.
Proof.
  intros b i x. unfold insert, ArrayBuffer_CellBuffer, ArrayBuffer.insert, index_set.
  destruct (_ <? _); simpl; split; try congruence. intros b' [= <-].
  unfold ArrayBuffer.capacity. simpl. by rewrite length_insert.
Qed.

Lemma array_remove b m j x :
  array_rep b m → m !! j = Some x →
  ∃ b', ArrayBuffer.remove b j = Ret (b', x) ∧
        ArrayBuffer.capacity b' = ArrayBuffer.capacity b ∧ array_rep b' (delete j m).
Proof.
  intros HR Hj. destruct (HR j x Hj) as [? Hc].
  pose proof (cells_rep_bound _ _ _ _ HR Hj).
  unfold ArrayBuffer.remove, ArrayBuffer.capacity in *.
  rewrite (index_Ret _ _ _ Hc). simpl. rewrite index_set_Ret by lia. simpl.
  eexists; split; [done|]. split; [simpl; by rewrite length_insert|].
  by apply cells_rep_delete.
Qed.

Lemma array_slice_set b m s (l : list T) k x :
  array_rep b m → 0 ≤ s → s + Z.of_nat (length l) ≤ ArrayBuffer.capacity b → (k < length l)%nat →
  (∀ k x, l !! k = Some x → m !! (s + Z.of_nat k) = Some x) →
  ∃ b', slice_set (mk_slice_ops list_assign ArrayBuffer.store) b (Range s (s + Z.of_nat (length l)))
          (Z.of_nat k) x = Ret (b', <[k := x]> l) ∧
        ArrayBuffer.capacity b' = ArrayBuffer.capacity b ∧ array_rep b' (<[s + Z.of_nat k := x]> m).
Proof.
  intros HR Hs Hlen Hk Hl. unfold slice_set. simpl. unfold ArrayBuffer.slice.
  rewrite (cells_rep_slice _ m) by done. simpl. unfold list_assign.
  rewrite index_set_Ret by lia. simpl. rewrite Nat2Z.id. eexists; split; [done|].
  unfold ArrayBuffer.capacity. simpl. rewrite length_inserts. split; [done|].
  by apply cells_rep_store.
Qed.

#[export] Instance ArrayBuffer_Laws :
  BufferLaws (ArrayBuffer.t T N) (list T) (cell_value T) T T.
Proof.
  refine {| elems := cell_elems; obs := id; view := id; Rep := array_rep;
            valid_value := cell_valid |}.
  - intros v. apply cell_valid_size.
  - intros b. simpl. unfold ArrayBuffer.capacity. lia.
  - apply cells_rep_empty.
  - intros b m i x. apply cells_rep_bound.
  - intros b m v i ?????? _. by apply (cell_insert_spec _ _ array_insert_one).
  - intros v b i. apply (cell_insert_safe _ array_insert_safe).
  - intros v b i. apply (cell_insert_safe _ array_insert_safe).
  - intros b m s l HR ??? Hc Hl. exists l.
    split; [by apply (cells_rep_slice _ m)|]. simpl. by rewrite list_fmap_id.
  - intros b m s e HR Hse Hm. simpl. unfold ArrayBuffer.clear; simpl.
    apply (clear_loop_spec ArrayBuffer.capacity array_rep
             ArrayBuffer.remove ArrayBuffer.clear_loop) with m;
      [done|done|apply array_remove|done|].
    intros j. rewrite Hm. lia.
  - intros rm b m j x [= <-]. apply array_remove.
  - intros rs b n Hrs. discriminate.
  - intros ops b m s l k x [= <-] HR _ Hs Hlen Hk Hl.
    destruct (array_slice_set b m s l k x) as (b' & ? & ? & ?); [done..|].
    exists b', (<[k := x]> l). by rewrite list_fmap_id.
Defined.
End ArrayLaws.

(** ** The laws of [VecBuffer] *)
Section VecLaws.
Context {T : Type}.
Implicit Types (b : VecBuffer.t T) (m : gmap Z T).

Definition vec_rep b m : Prop := cells_rep (VecBuffer.cells b) m.

Lemma vec_insert_one : insert_one_ok VecBuffer.capacity vec_rep.
Proof.
  intros b m i x HR Hi. unfold insert, VecBuffer_CellBuffer, VecBuffer.insert.
  unfold VecBuffer.capacity in *. rewrite index_set_Ret by lia. simpl.
  eexists; split; [done|]. split; [simpl; by rewrite length_insert|].
  apply cells_rep_insert; [done|lia].
Qed.

Lemma vec_insert_safe : insert_one_safe (B := VecBuffer.t T) VecBuffer.capacity.
Proof.
  intros b i x. unfold insert, VecBuffer_CellBuffer, VecBuffer.insert, index_set.
  destruct (_ <? _); simpl; split; try congruence. intros b' [= <-].
  unfold VecBuffer.capacity. simpl. by rewrite length_insert.
Qed.

Lemma vec_remove b m j x :
  vec_rep b m → m !! j = Some x →
  ∃ b', VecBuffer.remove b j = Ret (b', x) ∧
        VecBuffer.capacity b' = VecBuffer.capacity b ∧ vec_rep b' (delete j m).
Proof.
  intros HR Hj. destruct (HR j x Hj) as [? Hc].
  unfold VecBuffer.remove. rewrite (index_Ret _ _ _ Hc). simpl.
  eexists; split; [done|]. split; [done|]. by apply cells_rep_forget.
Qed.

Lemma vec_slice_set b m s (l : list T) k x :
  vec_rep b m → 0 ≤ s → s + Z.of_nat (length l) ≤ VecBuffer.capacity b → (k < length l)%nat →
  (∀ k x, l !! k = Some x → m !! (s + Z.of_nat k) = Some x) →
  ∃ b', slice_set (mk_slice_ops list_assign VecBuffer.store) b (Range s (s + Z.of_nat (length l)))
          (Z.of_nat k) x = Ret (b', <[k := x]> l) ∧
        VecBuffer.capacity b' = VecBuffer.capacity b ∧ vec_rep b' (<[s + Z.of_nat k := x]> m).
Proof.
  intros HR Hs Hlen Hk Hl. unfold slice_set. simpl. unfold VecBuffer.slice.
  rewrite (cells_rep_slice _ m) by done. simpl. unfold list_assign.
  rewrite index_set_Ret by lia. simpl. rewrite Nat2Z.id. eexists; split; [done|].
  unfold VecBuffer.capacity. simpl. rewrite length_inserts. split; [done|].
  by apply cells_rep_store.
Qed.

#[export] Instance VecBuffer_Laws :
  BufferLaws (VecBuffer.t T) (list T) (cell_value T) T T.
Proof.
  refine {| elems := cell_elems; obs := id; view := id; Rep := vec_rep;
            valid_value := cell_valid |}.
  - intros v. apply cell_valid_size.
  - intros b. simpl. unfold VecBuffer.capacity. lia.
  - apply cells_rep_empty.
  - intros b m i x. apply cells_rep_bound.
  - intros b m v i ?????? _. by apply (cell_insert_spec _ _ vec_insert_one).
  - intros v b i. apply (cell_insert_safe _ vec_insert_safe).
  - intros v b i. apply (cell_insert_safe _ vec_insert_safe).
  - intros b m s l HR ??? Hc Hl. exists l.
    split; [by apply (cells_rep_slice _ m)|]. simpl. by rewrite list_fmap_id.
  - intros b m s e HR Hse Hm. simpl. unfold VecBuffer.clear; simpl.
    apply (clear_loop_spec VecBuffer.capacity vec_rep
             VecBuffer.remove VecBuffer.clear_loop) with m;
      [done|done|apply vec_remove|done|].
    intros j. rewrite Hm. lia.
  - intros rm b m j x [= <-]. apply vec_remove.
  - intros rs b n [= <-] _ Hn. split; [apply cells_rep_empty|].
    simpl. unfold VecBuffer.capacity, VecBuffer.resize; simpl.
    rewrite length_replicate. lia.
  - intros ops b m s l k x [= <-] HR _ Hs Hlen Hk Hl.
    destruct (vec_slice_set b m s l k x) as (b' & ? & ? & ?); [done..|].
    exists b', (<[k := x]> l). by rewrite list_fmap_id.
Defined.
End VecLaws.

(** ** Round trips on the concrete buffers *)
Section Roundtrips.
Context {T : Type}.
Implicit Types (b : VecBuffer.t T) (l : list T).

Lemma vec_insert_loop l : ∀ b i index,
  0 ≤ i → 0 ≤ index → index + i + Z.of_nat (length l) ≤ VecBuffer.capacity b →
  VecBuffer.capacity b ≤ usize_MAX →
  array_insert_loop l i b index
    = Ret (VecBuffer.mk (list_inserts (Z.to_nat (index + i)) (Some <$> l) (VecBuffer.cells b))).
Proof.
  unfold VecBuffer.capacity.
  induction l as [|x l IH]; intros [cs] i index Hi Hx Hfit Hmax; simpl in *; [done|].
  rewrite usize_add_Ret by lia. simpl.
  unfold insert, VecBuffer_CellBuffer, VecBuffer.insert. simpl.
  rewrite index_set_Ret by lia. simpl.
  rewrite IH by (simpl; rewrite ?length_insert; lia). simpl. do 2 f_equal.
  rewrite list_insert_inserts_lt by lia. f_equal. lia.
Qed.

(** what is inserted is what is read: a slice of the inserted range gives
    the values back, the other cells and the capacity are untouched. *)
Theorem vec_insert_slice l b i :
  0 ≤ i → i + Z.of_nat (length l) ≤ VecBuffer.capacity b → VecBuffer.capacity b ≤ usize_MAX →
  ∃ b', insert_into (VArray l) b i = Ret b' ∧
    VecBuffer.slice b' (Range i (i + Z.of_nat (length l))) = Ret l ∧
    VecBuffer.capacity b' = VecBuffer.capacity b ∧
    ∀ k, ¬ (i ≤ Z.of_nat k < i + Z.of_nat (length l)) →
      VecBuffer.cells b' !! k = VecBuffer.cells b !! k.
Proof.
  intros Hi Hfit Hmax. pose proof (vec_insert_loop l b 0 i) as Hins.
  rewrite Z.add_0_r in Hins. eexists. split; [apply Hins; lia|].
  unfold VecBuffer.slice, VecBuffer.capacity in *; simpl. split_and!.
  - replace (Z.of_nat (length l)) with (Z.of_nat (length (Some <$> l)))
      by (by rewrite length_fmap).
    rewrite index_range_Ret; simpl; [apply assume_init_all_Some|lia| |].
    + rewrite length_fmap, length_inserts. lia.
    + intros k y Hk. pose proof (lookup_lt_Some _ _ _ Hk) as Hlt.
      rewrite length_fmap in Hlt.
      rewrite list_lookup_inserts by (rewrite ?length_fmap; lia).
      rewrite <- Hk. f_equal. lia.
  - by rewrite length_inserts.
  - intros k Hk. destruct (Z.lt_ge_cases (Z.of_nat k) i).
    + apply list_lookup_inserts_lt. lia.
    + apply list_lookup_inserts_ge. rewrite length_fmap. lia.
Qed.
End Roundtrips.

Lemma vec_insert_slice_witness :
  ∃ b', insert_into (VArray [7; 8]%nat) (VecBuffer.mk [None; None; Some 1%nat]) 0 = Ret b' ∧
    VecBuffer.slice b' (Range 0 2) = Ret [7; 8]%nat ∧ VecBuffer.capacity b' = 3 ∧
    ∀ k, ¬ (0 ≤ Z.of_nat k < 2) →
      VecBuffer.cells b' !! k = [None; None; Some 1%nat] !! k.
Proof.
  apply (vec_insert_slice [7; 8]%nat (VecBuffer.mk [None; None; Some 1%nat]) 0);
    vm_compute; discriminate.
Defined.

Lemma insertions_agree_witness :
  array_size [7; 8]%nat = value_iter_size (into_value_iter [7; 8]%nat) ∧
  array_insert_into [7; 8]%nat (VecBuffer.mk [None; None; None]) 1
    = value_iter_insert_into (into_value_iter [7; 8]%nat) (VecBuffer.mk [None; None; None]) 1.
Proof. apply insertions_agree; vm_compute; discriminate. Defined.
