(* ===== verification/WriteBuffers.v ===== *)
(** * Byte buffers with a header and a trailer
    ([src/src/write.rs], [src/src/write/array.rs], [src/src/write/vec.rs],
    [ArrayWithHeaderAndTrailer] of [src/src/utils.rs])

    The bytes of a buffer are [HEADER_SIZE + N + TRAILER_SIZE] cells; slot [i]
    of the queue is cell [HEADER_SIZE + i], and a slice spans its slots with a
    header before and a trailer after. Both buffers satisfy [BufferLaws], so
    the theorems about the queue hold for them. *)

From S2P Require Import Prelude Buffers CellBuffers.
#[local] Open Scope Z_scope.

(** ** [ArrayWithHeaderAndTrailer]: three arrays read as one *)
Module ArrayWithHeaderAndTrailer.
Record t (T : Type) : Type := mk {
  header : list T;
  array : list T;
  trailer : list T;
}.
Arguments mk {T}.
Arguments header {T}.
Arguments array {T}.
Arguments trailer {T}.

Section Ops.
Context {T : Type}.

Definition new (HEADER_SIZE N TRAILER_SIZE : Z) (default : T) : t T :=
  mk (init_array HEADER_SIZE default) (init_array N default)
    (init_array TRAILER_SIZE default).

(** The three fields are consecutive ([repr(C)]). *)
Definition deref (self : t T) : list T := header self ++ array self ++ trailer self.

(** Storing the cells [l] back through [deref_mut]. *)
Definition store (self : t T) (l : list T) : t T :=
  let h := length (header self) in
  let n := length (array self) in
  mk (take h l) (take n (drop h l)) (drop (h + n) l).
End Ops.
End ArrayWithHeaderAndTrailer.

(** ** [BytesSlice] *)
Module BytesSlice.
(** The frame; the sizes of its header and trailer are in its type. *)
Record t (HEADER_SIZE TRAILER_SIZE : Z) : Type := new { frame : list Z }.
Arguments new {HEADER_SIZE TRAILER_SIZE} _.
Arguments frame {HEADER_SIZE TRAILER_SIZE} _.

Section Ops.
Context {HEADER_SIZE TRAILER_SIZE : Z}.
Implicit Types (self : t HEADER_SIZE TRAILER_SIZE).

Definition len self : Z := Z.of_nat (length (frame self)).

Definition header_range self : outcome range := Ret (Range 0 HEADER_SIZE).
Definition trailer_range self : outcome range :=
  let! start := usize_sub (len self) TRAILER_SIZE in Ret (Range start (len self)).
Definition deref_range self : outcome range :=
  let! stop := usize_sub (len self) TRAILER_SIZE in Ret (Range HEADER_SIZE stop).

(** The three reborrowed parts. *)
Definition header self : outcome (list Z) :=
  let! r := header_range self in index_range (frame self) r.
Definition trailer self : outcome (list Z) :=
  let! r := trailer_range self in index_range (frame self) r.
Definition deref self : outcome (list Z) :=
  let! r := deref_range self in index_range (frame self) r.

(** Assigning byte [k] of a part: [slice[k] = x] through [DerefMut], and the same
    through [header()], [trailer()] and [frame_mut()]. *)
Definition assign_in (part : outcome range) self (k x : Z)
    : outcome (t HEADER_SIZE TRAILER_SIZE) :=
  let! r := part in
  let! _ := index_range (frame self) r in
  assert (k <? r_end r - r_start r) ;;!
  let! l := index_set (frame self) (r_start r + k) x in
  Ret (new l).
Definition deref_mut self (k x : Z) := assign_in (deref_range self) self k x.
Definition header_mut self (k x : Z) := assign_in (header_range self) self k x.
Definition trailer_mut self (k x : Z) := assign_in (trailer_range self) self k x.
Definition frame_mut self (k x : Z) := assign_in (Ret (Range 0 (len self))) self k x.
End Ops.
End BytesSlice.

(** [copy_from_slice] into the range [r] of [dst]: the lengths must agree. *)
Definition copy_from_slice (dst : list Z) (r : range) (src : list Z) : outcome (list Z) :=
  let! part := index_range dst r in
  assert (Nat.eqb (length part) (length src)) ;;!
  Ret (list_inserts (Z.to_nat (r_start r)) src dst).

(** ** [WriteBytesSlice]

    The values of byte buffers: a byte slice, or a size and a closure that
    writes a slice of that size. A closure is what it leaves in the slice as a
    function of what it finds; it cannot change the length. *)
Inductive bytes_value : Type :=
  | Bytes (bytes : list Z)
  | Writer (n : Z) (f : list Z → list Z).

Definition write_size (v : bytes_value) : Z :=
  match v with Bytes l => Z.of_nat (length l) | Writer n _ => n end.

(** What the call of the closure leaves in [part]. *)
Definition overwrite (f : list Z → list Z) (part : list Z) : list Z :=
  imap (λ k old, default old (f part !! k)) part.

(** [self.write(&mut dst[r])] *)
Definition write (v : bytes_value) (dst : list Z) (r : range) : outcome (list Z) :=
  match v with
  | Bytes l => copy_from_slice dst r l
  | Writer _ f =>
      let! part := index_range dst r in
      Ret (list_inserts (Z.to_nat (r_start r)) (overwrite f part) dst)
  end.

(** ** The two buffers *)
(** The range of the frame of the slots [r], and of the slots of a value. *)
Definition frame_range (HEADER_SIZE TRAILER_SIZE : Z) (r : range) : outcome range :=
  let! e := usize_add HEADER_SIZE (r_end r) in
  let! e := usize_add e TRAILER_SIZE in
  Ret (Range (r_start r) e).

Definition insert_range (HEADER_SIZE : Z) (v : bytes_value) (index : Z) : outcome range :=
  let! s := usize_add HEADER_SIZE index in
  let! e := usize_add s (write_size v) in
  Ret (Range s e).

Module WriteArrayBuffer.
Record t (N HEADER_SIZE TRAILER_SIZE : Z) : Type := mk {
  cells : ArrayWithHeaderAndTrailer.t Z
}.
Arguments mk {N HEADER_SIZE TRAILER_SIZE} _.
Arguments cells {N HEADER_SIZE TRAILER_SIZE} _.

Section Ops.
Context {N HEADER_SIZE TRAILER_SIZE : Z}.
Implicit Types (self : t N HEADER_SIZE TRAILER_SIZE).

Definition default : t N HEADER_SIZE TRAILER_SIZE :=
  mk (ArrayWithHeaderAndTrailer.new HEADER_SIZE N TRAILER_SIZE 0).

Definition capacity self : Z := N.

Definition slice self (r : range) : outcome (BytesSlice.t HEADER_SIZE TRAILER_SIZE) :=
  let! r := frame_range HEADER_SIZE TRAILER_SIZE r in
  let! l := index_range (ArrayWithHeaderAndTrailer.deref (cells self)) r in
  Ret (BytesSlice.new l).

Definition clear self (_ : range) : outcome (t N HEADER_SIZE TRAILER_SIZE) := Ret self.

Definition insert_into (v : bytes_value) self (index : Z)
    : outcome (t N HEADER_SIZE TRAILER_SIZE) :=
  let! r := insert_range HEADER_SIZE v index in
  let! l := write v (ArrayWithHeaderAndTrailer.deref (cells self)) r in
  Ret (mk (ArrayWithHeaderAndTrailer.store (cells self) l)).

(** The cells of the frame of the slots [r], once the slice has the frame of [s]. *)
Definition store self (r : range) (s : BytesSlice.t HEADER_SIZE TRAILER_SIZE)
    : outcome (t N HEADER_SIZE TRAILER_SIZE) :=
  let! r := frame_range HEADER_SIZE TRAILER_SIZE r in
  Ret (mk (ArrayWithHeaderAndTrailer.store (cells self)
             (list_inserts (Z.to_nat (r_start r)) (BytesSlice.frame s)
                (ArrayWithHeaderAndTrailer.deref (cells self))))).
End Ops.
End WriteArrayBuffer.

Module WriteVecBuffer.
Record t (HEADER_SIZE TRAILER_SIZE : Z) : Type := mk { cells : list Z }.
Arguments mk {HEADER_SIZE TRAILER_SIZE} _.
Arguments cells {HEADER_SIZE TRAILER_SIZE} _.

Section Ops.
Context {HEADER_SIZE TRAILER_SIZE : Z}.
Implicit Types (self : t HEADER_SIZE TRAILER_SIZE).

Definition default : t HEADER_SIZE TRAILER_SIZE := mk [].

Definition capacity self : Z :=
  saturating_sub (Z.of_nat (length (cells self))) (HEADER_SIZE + TRAILER_SIZE).

Definition slice self (r : range) : outcome (BytesSlice.t HEADER_SIZE TRAILER_SIZE) :=
  let! r := frame_range HEADER_SIZE TRAILER_SIZE r in
  let! l := index_range (cells self) r in
  Ret (BytesSlice.new l).

Definition clear self (_ : range) : outcome (t HEADER_SIZE TRAILER_SIZE) := Ret self.

Definition insert_into (v : bytes_value) self (index : Z)
    : outcome (t HEADER_SIZE TRAILER_SIZE) :=
  let! r := insert_range HEADER_SIZE v index in
  let! l := write v (cells self) r in
  Ret (mk l).

(** The allocation fails before the sum overflows. *)
Definition resize self (capacity : Z) : t HEADER_SIZE TRAILER_SIZE :=
  let full_capacity := HEADER_SIZE + capacity + TRAILER_SIZE in
  mk (replicate (Z.to_nat full_capacity) 0).

(** The cells of the frame of the slots [r], once the slice has the frame of [s]. *)
Definition store self (r : range) (s : BytesSlice.t HEADER_SIZE TRAILER_SIZE)
    : outcome (t HEADER_SIZE TRAILER_SIZE) :=
  let! r := frame_range HEADER_SIZE TRAILER_SIZE r in
  Ret (mk (list_inserts (Z.to_nat (r_start r)) (BytesSlice.frame s) (cells self))).
End Ops.
End WriteVecBuffer.

(** ** The trait implementations *)
#[export] Instance WriteArrayBuffer_Buffer {N H T} :
    Buffer (WriteArrayBuffer.t N H T) (BytesSlice.t H T) := {|
  buf_default := WriteArrayBuffer.default;
  capacity := WriteArrayBuffer.capacity;
  slice := WriteArrayBuffer.slice;
  clear := WriteArrayBuffer.clear;
|}.
#[export] Instance WriteArrayBuffer_Insert {N H T} :
    InsertIntoBuffer (WriteArrayBuffer.t N H T) bytes_value := {|
  size := write_size; insert_into := WriteArrayBuffer.insert_into |}.
#[export] Instance WriteArrayBuffer_Resize {N H T} : Resize (WriteArrayBuffer.t N H T) := None.
#[export] Instance WriteArrayBuffer_Drain {N H T} : Drain (WriteArrayBuffer.t N H T) Z := None.
#[export] Instance WriteArrayBuffer_SliceMut {N H T} : SliceMut (WriteArrayBuffer.t N H T) (BytesSlice.t H T) Z :=
  Some (mk_slice_ops BytesSlice.deref_mut WriteArrayBuffer.store).

#[export] Instance WriteVecBuffer_Buffer {H T} :
    Buffer (WriteVecBuffer.t H T) (BytesSlice.t H T) := {|
  buf_default := WriteVecBuffer.default;
  capacity := WriteVecBuffer.capacity;
  slice := WriteVecBuffer.slice;
  clear := WriteVecBuffer.clear;
|}.
#[export] Instance WriteVecBuffer_Insert {H T} :
    InsertIntoBuffer (WriteVecBuffer.t H T) bytes_value := {|
  size := write_size; insert_into := WriteVecBuffer.insert_into |}.
#[export] Instance WriteVecBuffer_Resize {H T} : Resize (WriteVecBuffer.t H T) :=
  Some WriteVecBuffer.resize.
#[export] Instance WriteVecBuffer_Drain {H T} : Drain (WriteVecBuffer.t H T) Z := None.
#[export] Instance WriteVecBuffer_SliceMut {H T} : SliceMut (WriteVecBuffer.t H T) (BytesSlice.t H T) Z :=
  Some (mk_slice_ops BytesSlice.deref_mut WriteVecBuffer.store).

(** ** The bytes of a value, and of a slice *)
Definition bytes_elems (v : bytes_value) : list Z :=
  match v with Bytes l => l | Writer n f => f (replicate (Z.to_nat n) 0) end.

(** A closure that writes its whole slice, whatever was there. *)
Definition bytes_valid (v : bytes_value) : Prop :=
  match v with
  | Bytes l => Z.of_nat (length l) < 9223372036854775808
  | Writer n f =>
      0 ≤ n < 9223372036854775808 ∧
      ∀ part, length part = Z.to_nat n →
        length (f part) = Z.to_nat n ∧ f part = f (replicate (Z.to_nat n) 0)
  end.

Definition bytes_view {H T} (s : BytesSlice.t H T) : list Z :=
  take (Z.to_nat (BytesSlice.len s - H - T)) (drop (Z.to_nat H) (BytesSlice.frame s)).

Lemma bytes_size v : bytes_valid v →
  write_size v = Z.of_nat (length (bytes_elems v)) ∧ 0 ≤ write_size v < 9223372036854775808.
Proof.
  destruct v as [l|n f]; simpl; [lia|]. intros [Hn Hf].
  destruct (Hf (replicate (Z.to_nat n) 0)) as [-> _]; [by rewrite length_replicate|lia].
Qed.

Lemma overwrite_all f part : length (f part) = length part → overwrite f part = f part.
Proof.
  intros Hlen. apply list_eq_same_length with (length part); [done| |].
  - unfold overwrite. by rewrite length_imap.
  - intros i x y Hi. unfold overwrite. rewrite list_lookup_imap, fmap_Some.
    intros (z & Hz & ->) Hy. by rewrite Hy.
Qed.

Lemma index_range_length {A} (l : list A) s n :
  0 ≤ s → 0 ≤ n → s + n ≤ Z.of_nat (length l) →
  ∃ part, index_range l (Range s (s + n)) = Ret part ∧ length part = Z.to_nat n.
Proof.
  intros Hs Hn Hlen. unfold index_range. simpl.
  rewrite !(proj2 (Z.leb_le _ _)) by lia. simpl. eexists; split; [done|].
  rewrite length_take, length_drop. lia.
Qed.

Lemma write_valid v dst s :
  bytes_valid v → 0 ≤ s → s + write_size v ≤ Z.of_nat (length dst) →
  write v dst (Range s (s + write_size v))
    = Ret (list_inserts (Z.to_nat s) (bytes_elems v) dst).
Proof.
  intros Hv Hs Hfit. destruct (bytes_size v Hv) as [Hsz Hnn].
  destruct (index_range_length dst s (write_size v)) as (part & Hpart & Hlen); [lia..|].
  destruct v as [l|n f]; simpl in *.
  - unfold copy_from_slice. simpl. rewrite Hpart. simpl.
    by rewrite (proj2 (Nat.eqb_eq _ _)) by lia.
  - rewrite Hpart. simpl. destruct Hv as [_ Hf]. destruct (Hf part Hlen) as [Hl Heq].
    by rewrite overwrite_all, Heq by congruence.
Qed.

Lemma write_no_UB v dst r :
  write v dst r ≠ UB ∧ ∀ l, write v dst r = Ret l → length l = length dst.
Proof.
  destruct v as [l|n f]; simpl; unfold copy_from_slice, index_range.
  - destruct (_ && _); simpl; [|split; congruence].
    destruct (Nat.eqb _ _); simpl; split; try congruence.
    intros ? [= <-]. by rewrite length_inserts.
  - destruct (_ && _); simpl; split; try congruence.
    intros ? [= <-]. by rewrite length_inserts.
Qed.

(** ** Slots in the frame *)
Section Frame.
Variables (H T cap : Z).
Hypothesis HH : 0 ≤ H.
Hypothesis HT : 0 ≤ T.
Implicit Types (cs : list Z) (m : gmap Z Z).

Definition frame_rep cs m : Prop :=
  ∀ i x, m !! i = Some x → 0 ≤ i < cap ∧ cs !! Z.to_nat (H + i) = Some x.

Lemma frame_rep_insert cs m i (l : list Z) :
  frame_rep cs m → 0 ≤ i → i + Z.of_nat (length l) ≤ cap →
  H + cap + T ≤ Z.of_nat (length cs) →
  frame_rep (list_inserts (Z.to_nat (H + i)) l cs) (map_seqZ i l ∪ m).
Proof using HH HT.
  intros HR Hi Hfit Hlen j x.
  rewrite lookup_union_Some_raw, lookup_map_seqZ_Some, lookup_map_seqZ_None.
  intros [[Hj Hx]|[Hj Hx]].
  - pose proof (lookup_lt_Some _ _ _ Hx). split; [lia|].
    rewrite list_lookup_inserts by lia. rewrite <- Hx. f_equal. lia.
  - destruct (HR j x Hx) as [? Hc]. split; [done|]. destruct Hj.
    + rewrite list_lookup_inserts_lt by lia. done.
    + rewrite list_lookup_inserts_ge by lia. done.
Qed.

Lemma frame_rep_slice cs m s (l : list Z) :
  frame_rep cs m → 0 ≤ s → s + Z.of_nat (length l) ≤ cap →
  H + cap + T ≤ Z.of_nat (length cs) → H + cap + T ≤ usize_MAX →
  (∀ k x, l !! k = Some x → m !! (s + Z.of_nat k) = Some x) →
  ∃ fr, (let! r := frame_range H T (Range s (s + Z.of_nat (length l))) in
         index_range cs r) = Ret fr ∧
        Z.of_nat (length fr) = H + Z.of_nat (length l) + T ∧
        bytes_view (BytesSlice.new fr : BytesSlice.t H T) = l.
Proof using HH HT.
  intros HR Hs Hfit Hlen Hmax Hl. unfold frame_range. simpl.
  do 2 (rewrite usize_add_Ret by lia; simpl). unfold index_range. simpl.
  rewrite !(proj2 (Z.leb_le _ _)) by lia. simpl. eexists; split; [done|].
  rewrite length_take, length_drop. split; [lia|].
  unfold bytes_view, BytesSlice.len. simpl. rewrite length_take, length_drop.
  apply list_eq_same_length with (length l); [done| |].
  - rewrite length_take, length_drop, length_take, length_drop. lia.
  - intros k x y Hk Hx Hy. rewrite lookup_take_lt, lookup_drop, lookup_take_lt, lookup_drop in Hx
      by lia.
    destruct (HR _ _ (Hl k y Hy)) as [_ Hc].
    replace (Z.to_nat (H + (s + Z.of_nat k)))
      with (Z.to_nat s + (Z.to_nat H + k))%nat in Hc by lia. congruence.
Qed.

Lemma frame_rep_assign cs m i x :
  frame_rep cs m → 0 ≤ i < cap → H + cap + T ≤ Z.of_nat (length cs) →
  frame_rep (<[Z.to_nat (H + i) := x]> cs) (<[i := x]> m).
Proof using HH HT.
  intros HR Hi Hlen j y [[<- <-]|[Hne Hj]]%lookup_insert_Some.
  - split; [done|]. apply list_lookup_insert_eq. lia.
  - destruct (HR j y Hj). split; [done|]. rewrite list_lookup_insert_ne by lia. done.
Qed.

(** A cell outside of the inserted slots: those of the header and the trailer. *)
Lemma frame_rep_outside cs m (c : nat) x :
  frame_rep cs m → m !! (Z.of_nat c - H) = None → frame_rep (<[c := x]> cs) m.
Proof using HH.
  intros HR Hc j y Hj. destruct (HR j y Hj). split; [done|].
  rewrite list_lookup_insert_ne; [done|]. intros ->.
  replace (Z.of_nat (Z.to_nat (H + j)) - H) with j in Hc by lia. congruence.
Qed.

(** Assigning [k] of a part [r] of the slice of the slots [s .. s + n]. *)
Lemma assign_in_cells cs s n r k x :
  0 ≤ s → 0 ≤ n → H + (s + n) + T ≤ Z.of_nat (length cs) →
  0 ≤ r_start r → r_end r ≤ H + n + T → 0 ≤ k < r_end r - r_start r →
  let fr := take (Z.to_nat (H + n + T)) (drop (Z.to_nat s) cs) in
  ∃ sl : BytesSlice.t H T,
    BytesSlice.assign_in (Ret r) (BytesSlice.new fr : BytesSlice.t H T) k x = Ret sl ∧
    BytesSlice.frame sl = <[Z.to_nat (r_start r + k) := x]> fr ∧
    list_inserts (Z.to_nat s) (BytesSlice.frame sl) cs
      = <[Z.to_nat (s + r_start r + k) := x]> cs.
Proof using HH HT.
  intros Hs Hn Hlen Hr Hre Hk fr. unfold BytesSlice.assign_in. simpl.
  assert (length fr = Z.to_nat (H + n + T)) as Hfr
    by (unfold fr; rewrite length_take, length_drop; lia).
  unfold index_range. rewrite !(proj2 (Z.leb_le _ _)) by lia. simpl.
  rewrite (proj2 (Z.ltb_lt _ _)) by lia. simpl. rewrite index_set_Ret by lia. simpl.
  eexists; split; [done|]. simpl. split; [done|]. unfold fr.
  rewrite inserts_segment by lia. f_equal. lia.
Qed.

Lemma frame_range_Ret s n :
  0 ≤ s → 0 ≤ n → H + (s + n) + T ≤ usize_MAX →
  frame_range H T (Range s (s + n)) = Ret (Range s (s + (H + n + T))).
Proof using HH HT.
  intros Hs Hn Hmax. unfold frame_range. simpl.
  do 2 (rewrite usize_add_Ret by lia; simpl). do 2 f_equal. lia.
Qed.

Lemma bytes_view_assign (sl : BytesSlice.t H T) fr k x :
  BytesSlice.frame sl = <[Z.to_nat (H + Z.of_nat k) := x]> fr →
  (k < length (bytes_view (BytesSlice.new fr : BytesSlice.t H T)))%nat →
  bytes_view sl = <[k := x]> (bytes_view (BytesSlice.new fr : BytesSlice.t H T)).
Proof using HH HT.
  unfold bytes_view, BytesSlice.len. intros -> Hk. simpl in *.
  rewrite length_take, length_drop in Hk. rewrite length_insert.
  rewrite drop_insert_ge by lia. rewrite take_insert_lt by lia. f_equal. lia.
Qed.

(** Assigning through [DerefMut] of a slice, then the end of the borrow. *)
Lemma frame_rep_slice_set cs m s (l : list Z) k x :
  frame_rep cs m → 0 ≤ s → s + Z.of_nat (length l) ≤ cap →
  H + cap + T ≤ Z.of_nat (length cs) → H + cap + T ≤ usize_MAX → (k < length l)%nat →
  (∀ k x, l !! k = Some x → m !! (s + Z.of_nat k) = Some x) →
  ∃ fr sl,
    (let! r := frame_range H T (Range s (s + Z.of_nat (length l))) in
     index_range cs r) = Ret fr ∧
    BytesSlice.deref_mut (BytesSlice.new fr : BytesSlice.t H T) (Z.of_nat k) x = Ret sl ∧
    bytes_view sl = <[k := x]> l ∧
    frame_rep (list_inserts (Z.to_nat s) (BytesSlice.frame sl) cs) (<[s + Z.of_nat k := x]> m).
Proof using HH HT.
  intros HR Hs Hfit Hlen Hmax Hk Hl.
  destruct (frame_rep_slice cs m s l HR Hs Hfit Hlen Hmax Hl) as (fr & Hfr & Hfl & Hv).
  exists fr. assert (fr = take (Z.to_nat (H + Z.of_nat (length l) + T)) (drop (Z.to_nat s) cs))
    as Heq.
  { rewrite frame_range_Ret in Hfr by lia. simpl in Hfr. unfold index_range in Hfr. simpl in Hfr.
    rewrite !(proj2 (Z.leb_le _ _)) in Hfr by lia. simpl in Hfr. injection Hfr as <-.
    f_equal. lia. }
  destruct (assign_in_cells cs s (Z.of_nat (length l)) (Range H (H + Z.of_nat (length l)))
    (Z.of_nat k) x) as (sl & Hsl & Hfs & Hin); simpl; try lia.
  exists sl. split; [done|]. rewrite Heq in Hfl, Hv |- *. simpl in Hfs. split; [|split].
  - rewrite <- Hsl. unfold BytesSlice.deref_mut, BytesSlice.deref_range, BytesSlice.len. simpl.
    rewrite Hfl, usize_sub_Ret by lia. simpl.
    by replace (H + Z.of_nat (length l) + T - T) with (H + Z.of_nat (length l)) by lia.
  - rewrite <- Hv. apply bytes_view_assign; [done|by rewrite Hv].
  - simpl in Hin. rewrite Hin, <- Z.add_assoc, (Z.add_comm s), <- Z.add_assoc, (Z.add_comm _ s).
    apply frame_rep_assign; done || lia.
Qed.
End Frame.

(** ** The laws *)
Section Laws.
Context {N H T : Z}.
(** The sizes are those of arrays that exist: their total fits a [usize]. *)
Context (HN : 0 ≤ N) (HH : 0 ≤ H) (HT : 0 ≤ T) (Hsum : H + N + T ≤ usize_MAX)
  (HHT : H + T ≤ 4611686018427387904).

Lemma store_deref (a : ArrayWithHeaderAndTrailer.t Z) l :
  length l = length (ArrayWithHeaderAndTrailer.deref a) →
  ArrayWithHeaderAndTrailer.deref (ArrayWithHeaderAndTrailer.store a l) = l.
Proof using.
  intros _. unfold ArrayWithHeaderAndTrailer.deref, ArrayWithHeaderAndTrailer.store. simpl.
  rewrite <- drop_drop, take_drop, take_drop. done.
Qed.

Definition warr_rep (b : WriteArrayBuffer.t N H T) (m : gmap Z Z) : Prop :=
  let cs := ArrayWithHeaderAndTrailer.deref (WriteArrayBuffer.cells b) in
  frame_rep H N cs m ∧ H + N + T ≤ Z.of_nat (length cs).

Definition wvec_rep (b : WriteVecBuffer.t H T) (m : gmap Z Z) : Prop :=
  frame_rep H (WriteVecBuffer.capacity b) (WriteVecBuffer.cells b) m.

Lemma wvec_length (b : WriteVecBuffer.t H T) :
  0 < WriteVecBuffer.capacity b →
  H + WriteVecBuffer.capacity b + T = Z.of_nat (length (WriteVecBuffer.cells b)).
Proof using HH HT. unfold WriteVecBuffer.capacity, saturating_sub. lia. Qed.

Lemma insert_range_Ret v i c :
  bytes_valid v → 0 ≤ i → i + write_size v ≤ c → H + c + T ≤ usize_MAX →
  insert_range H v i = Ret (Range (H + i) (H + i + write_size v)).
Proof using HH HT.
  intros Hv Hi Hfit Hmax. destruct (bytes_size v Hv). unfold insert_range.
  rewrite usize_add_Ret by lia. simpl. by rewrite usize_add_Ret by lia.
Qed.

Lemma warr_insert b m v i :
  warr_rep b m → bytes_valid v → 0 ≤ i → i + write_size v ≤ N →
  ∃ b', WriteArrayBuffer.insert_into v b i = Ret b' ∧
        warr_rep b' (map_seqZ i (bytes_elems v) ∪ m).
Proof using HH HT Hsum.
  intros [HR Hlen] Hv Hi Hfit. destruct (bytes_size v Hv) as [Hs Hnn].
  unfold WriteArrayBuffer.insert_into.
  rewrite (insert_range_Ret v i N) by done. simpl.
  rewrite write_valid by (done || lia). simpl. eexists; split; [done|].
  unfold warr_rep; simpl. rewrite store_deref by (by rewrite length_inserts).
  rewrite length_inserts. split; [|done]. apply (frame_rep_insert H T N); done || lia.
Qed.

Lemma wvec_insert b m v i :
  wvec_rep b m → bytes_valid v → WriteVecBuffer.capacity b < 4611686018427387904 →
  0 < write_size v → 0 ≤ i → i + write_size v ≤ WriteVecBuffer.capacity b →
  ∃ b', WriteVecBuffer.insert_into v b i = Ret b' ∧
        WriteVecBuffer.capacity b' = WriteVecBuffer.capacity b ∧
        wvec_rep b' (map_seqZ i (bytes_elems v) ∪ m).
Proof using HH HT HHT.
  intros HR Hv Hcap Hpos Hi Hfit. destruct (bytes_size v Hv) as [Hs Hnn].
  unfold WriteVecBuffer.insert_into.
  rewrite (insert_range_Ret v i (WriteVecBuffer.capacity b)) by (done || zlia). simpl.
  pose proof (wvec_length b) as Hlen.
  rewrite write_valid by (done || lia). simpl. eexists; split; [done|].
  assert (WriteVecBuffer.capacity (WriteVecBuffer.mk
    (list_inserts (Z.to_nat (H + i)) (bytes_elems v) (WriteVecBuffer.cells b))
    : WriteVecBuffer.t H T) = WriteVecBuffer.capacity b) as Hc.
  { unfold WriteVecBuffer.capacity. simpl. by rewrite length_inserts. }
  split; [done|]. unfold wvec_rep. rewrite Hc. simpl.
  apply (frame_rep_insert H T (WriteVecBuffer.capacity b)); done || lia.
Qed.

#[export] Instance WriteArrayBuffer_Laws :
  BufferLaws (WriteArrayBuffer.t N H T) (BytesSlice.t H T) bytes_value Z Z.
Proof using HN HH HT Hsum.
  refine {| elems := bytes_elems; obs := id; view := bytes_view; Rep := warr_rep;
            valid_value := bytes_valid |}.
  - intros v Hv. by destruct (bytes_size v Hv) as [? [_ ?]].
  - done.
  - split; [by intros i x|]. simpl. unfold ArrayWithHeaderAndTrailer.deref; simpl.
    rewrite !length_app. unfold init_array. rewrite !length_replicate. lia.
  - intros b m i x [HR _] Hx. by apply (HR i x).
  - intros b m v i ? ? _ _ ? ? _.
    destruct (warr_insert b m v i) as (b' & ? & ?); [done..|]. by exists b'.
  - intros v b i. simpl. unfold WriteArrayBuffer.insert_into, insert_range, usize_add.
    repeat (case_match; simpl; try congruence).
    all: match goal with |- context [write ?v ?d ?r] =>
           destruct (write_no_UB v d r); destruct (write v d r); simpl; congruence end.
  - done.
  - intros b m s l [HR Hlen] _ Hs Hc Hfit Hl.
    destruct (frame_rep_slice H T N HH HT _ m s l HR Hs Hfit Hlen Hsum Hl)
      as (fr & Hfr & _ & Hv).
    exists (BytesSlice.new fr). rewrite list_fmap_id. split; [|done]. simpl.
    unfold WriteArrayBuffer.slice. revert Hfr. destruct (frame_range _ _ _); simpl; try done.
    by intros ->.
  - intros b m s e [_ ?] _ _. exists b. by split_and!.
  - discriminate.
  - discriminate.
  - intros ops b m s l k x [= <-] [HR Hlen] _ Hs Hfit Hk Hl.
    destruct (frame_rep_slice_set H T N HH HT _ m s l k x HR Hs Hfit Hlen Hsum Hk Hl)
      as (fr & sl & Hfr & Hsl & Hv & HR').
    rewrite list_fmap_id. unfold slice_set. simpl. unfold WriteArrayBuffer.slice.
    unfold WriteArrayBuffer.store. simpl in Hfit. unfold WriteArrayBuffer.capacity in Hfit.
    rewrite frame_range_Ret in Hfr |- * by lia. simpl in Hfr |- *. rewrite Hfr. simpl.
    rewrite Hsl. simpl. do 2 eexists. split; [done|]. split; [done|]. split; [done|].
    unfold warr_rep. simpl. rewrite store_deref by (by rewrite length_inserts).
    by rewrite length_inserts.
Defined.

Lemma wvec_slice b m s (l : list Z) :
  wvec_rep b m → WriteVecBuffer.capacity b < 4611686018427387904 →
  0 ≤ s → 0 < WriteVecBuffer.capacity b →
  s + Z.of_nat (length l) ≤ WriteVecBuffer.capacity b →
  (∀ k x, l !! k = Some x → m !! (s + Z.of_nat k) = Some x) →
  ∃ sl, WriteVecBuffer.slice b (Range s (s + Z.of_nat (length l))) = Ret sl ∧
        BytesSlice.len sl = H + Z.of_nat (length l) + T ∧ bytes_view sl = l.
Proof using HH HT HHT.
  intros HR Hcap Hs Hc Hfit Hl. pose proof (wvec_length b Hc) as Hlen.
  destruct (frame_rep_slice H T (WriteVecBuffer.capacity b) HH HT _ m s l HR Hs Hfit)
    as (fr & Hfr & Hfl & Hv); [lia|zlia|done|].
  exists (BytesSlice.new fr). split; [|done]. unfold WriteVecBuffer.slice. revert Hfr.
  destruct (frame_range _ _ _); simpl; try done. by intros ->.
Qed.

#[export] Instance WriteVecBuffer_Laws :
  BufferLaws (WriteVecBuffer.t H T) (BytesSlice.t H T) bytes_value Z Z.
Proof using HH HT HHT.
  refine {| elems := bytes_elems; obs := id; view := bytes_view; Rep := wvec_rep;
            valid_value := bytes_valid |}.
  - intros v Hv. by destruct (bytes_size v Hv) as [? [_ ?]].
  - intros b. simpl. unfold WriteVecBuffer.capacity, saturating_sub. lia.
  - by intros i x.
  - intros b m i x HR Hx. by apply (HR i x).
  - intros b m v i ? ? ? ? ? ? _. by apply wvec_insert.
  - intros v b i. simpl. unfold WriteVecBuffer.insert_into, insert_range, usize_add.
    repeat (case_match; simpl; try congruence).
    all: match goal with |- context [write ?v ?d ?r] =>
           destruct (write_no_UB v d r); destruct (write v d r); simpl; congruence end.
  - intros v b i b'. simpl. unfold WriteVecBuffer.insert_into. destruct (insert_range _ _ _) as [r| |];
      simpl; try congruence.
    destruct (write_no_UB v (WriteVecBuffer.cells b) r) as [_ Hl].
    destruct (write v (WriteVecBuffer.cells b) r) as [l| |]; simpl; try congruence.
    intros [= <-]. unfold WriteVecBuffer.capacity. simpl. by rewrite (Hl l eq_refl).
  - intros b m s l HR ? ? ? ? Hl.
    destruct (wvec_slice b m s l) as (sl & ? & _ & ?); [done..|].
    exists sl. by rewrite list_fmap_id.
  - intros b m s e _ _ _. exists b. by split_and!.
  - discriminate.
  - intros rs b n [= <-] _ Hn. split; [by intros i x|]. simpl.
    unfold WriteVecBuffer.capacity, WriteVecBuffer.resize, saturating_sub. simpl.
    rewrite length_replicate. lia.
  - intros ops b m s l k x [= <-] HR Hcap Hs Hfit Hk Hl. simpl in Hcap, Hfit.
    pose proof (wvec_length b ltac:(lia)) as Hlen.
    destruct (frame_rep_slice_set H T (WriteVecBuffer.capacity b) HH HT _ m s l k x HR Hs Hfit)
      as (fr & sl & Hfr & Hsl & Hv & HR'); try (done || lia || zlia).
    rewrite list_fmap_id. unfold slice_set. simpl. unfold WriteVecBuffer.slice.
    unfold WriteVecBuffer.store.
    rewrite frame_range_Ret in Hfr |- * by (lia || zlia). simpl in Hfr |- *. rewrite Hfr. simpl.
    rewrite Hsl. simpl. do 2 eexists. split; [done|]. split; [done|].
    unfold wvec_rep, WriteVecBuffer.capacity in *. simpl. by rewrite length_inserts.
Defined.
End Laws.

(** ** What the slices show *)
(** a frame is its header, its bytes and its trailer, in that order, and the
    parts have the declared sizes; a slice shorter than header and trailer
    together panics instead of overlapping them. *)
Theorem bytes_slice_parts {H T : Z} (s : BytesSlice.t H T) :
  0 ≤ H → 0 ≤ T →
  if H + T <=? BytesSlice.len s
  then ∃ h d t, BytesSlice.header s = Ret h ∧ BytesSlice.deref s = Ret d ∧
         BytesSlice.trailer s = Ret t ∧ BytesSlice.frame s = h ++ d ++ t ∧
         Z.of_nat (length h) = H ∧ Z.of_nat (length t) = T
  else BytesSlice.deref s = Panic.
Proof.
  intros HH HT. unfold BytesSlice.header, BytesSlice.deref, BytesSlice.trailer,
    BytesSlice.header_range, BytesSlice.deref_range, BytesSlice.trailer_range, BytesSlice.len.
  destruct s as [l]. simpl.
  destruct (Z.leb_spec (H + T) (Z.of_nat (length l))) as [Hle|Hlt].
  - unfold index_range. simpl. rewrite !usize_sub_Ret by lia. simpl.
    rewrite !(proj2 (Z.leb_le _ _)) by lia. simpl. do 3 eexists. split_and!; try done.
    + rewrite Z.sub_0_r, drop_0. replace (Z.to_nat (Z.of_nat (length l) - T)) with
        (Z.to_nat H + Z.to_nat (Z.of_nat (length l) - T - H))%nat by lia.
      rewrite <- drop_drop, (take_ge (drop (Z.to_nat (Z.of_nat (length l) - T - H)) _)) by (rewrite !length_drop; lia).
      by rewrite take_drop, take_drop.
    + rewrite length_take, length_drop. lia.
    + rewrite length_take, length_drop. lia.
  - unfold usize_sub. destruct (Z.leb_spec T (Z.of_nat (length l))); simpl; [|done].
    unfold index_range. simpl. by rewrite (proj2 (Z.leb_gt _ _)) by lia.
Qed.

(** C29: bytes written are bytes read, framed: inserting a value in a
    [WriteVecBuffer] and slicing its slots gives a frame of the right size whose
    unframed part is exactly what the value wrote. *)
Theorem write_vec_roundtrip {H T : Z} (b : WriteVecBuffer.t H T) (v : bytes_value) (i : Z) :
  0 ≤ H → 0 ≤ T → H + T ≤ 4611686018427387904 → bytes_valid v → 0 < write_size v → 0 ≤ i →
  i + write_size v ≤ WriteVecBuffer.capacity b → WriteVecBuffer.capacity b < 4611686018427387904 →
  ∃ b' s, WriteVecBuffer.insert_into v b i = Ret b' ∧
    WriteVecBuffer.capacity b' = WriteVecBuffer.capacity b ∧
    WriteVecBuffer.slice b' (Range i (i + write_size v)) = Ret s ∧
    BytesSlice.len s = H + write_size v + T ∧ BytesSlice.deref s = Ret (bytes_elems v).
Proof.
  intros HH HT HHT Hv Hpos Hi Hfit Hcap. destruct (bytes_size v Hv) as [Hs _].
  destruct (wvec_insert HH HT HHT b ∅ v i) as (b' & Hins & Hc & HR); try done.
  rewrite (right_id_L ∅ (∪)) in HR.
  destruct (wvec_slice HH HT HHT b' _ i (bytes_elems v) HR) as (s & Hsl & Hlen & Hview);
    try lia.
  { intros k x Hk. apply lookup_map_seqZ_Some. split; [lia|]. rewrite <- Hk. f_equal. lia. }
  exists b', s. rewrite Hs. split_and!; try done.
  revert Hview. unfold BytesSlice.deref, BytesSlice.deref_range, bytes_view.
  rewrite usize_sub_Ret by lia. simpl. unfold index_range. simpl.
  rewrite !(proj2 (Z.leb_le _ _)) by (unfold BytesSlice.len in *; lia). simpl.
  intros <-. do 2 f_equal. lia.
Qed.

Lemma wvec_slice_cells {H T : Z} (b : WriteVecBuffer.t H T) s n :
  0 ≤ H → 0 ≤ T → 0 ≤ s → 0 ≤ n → H + (s + n) + T ≤ Z.of_nat (length (WriteVecBuffer.cells b)) →
  H + (s + n) + T ≤ usize_MAX →
  WriteVecBuffer.slice b (Range s (s + n)) =
    Ret (BytesSlice.new (take (Z.to_nat (H + n + T)) (drop (Z.to_nat s) (WriteVecBuffer.cells b)))).
Proof.
  intros. unfold WriteVecBuffer.slice. rewrite frame_range_Ret by lia. simpl.
  unfold index_range. simpl. rewrite !(proj2 (Z.leb_le _ _)) by lia. simpl. do 3 f_equal. lia.
Qed.

(** C30: The bytes outside of the slots can be assigned and stay: [header_mut] and
    [trailer_mut] change one byte of the frame, not the bytes inserted, and what they
    write is what the next slice of the same slots shows. *)
Theorem write_vec_header_trailer {H T : Z} (b : WriteVecBuffer.t H T) (s : Z) (l : list Z)
    (in_trailer : bool) (k x : Z) :
  0 ≤ H → 0 ≤ T → H + T ≤ 4611686018427387904 →
  WriteVecBuffer.capacity b < 4611686018427387904 → wvec_rep b (map_seqZ s l) →
  0 ≤ s → 0 < WriteVecBuffer.capacity b → s + Z.of_nat (length l) ≤ WriteVecBuffer.capacity b →
  0 ≤ k < (if in_trailer then T else H) →
  let r := Range s (s + Z.of_nat (length l)) in
  ∃ sl sl' b', WriteVecBuffer.slice b r = Ret sl ∧
    (if in_trailer then BytesSlice.trailer_mut sl k x else BytesSlice.header_mut sl k x) = Ret sl' ∧
    bytes_view sl' = l ∧
    index (BytesSlice.frame sl') (if in_trailer then H + Z.of_nat (length l) + k else k) = Ret x ∧
    WriteVecBuffer.store b r sl' = Ret b' ∧ wvec_rep b' (map_seqZ s l) ∧
    WriteVecBuffer.slice b' r = Ret sl'.
Proof.
  intros HH HT HHT Hcap HR Hs Hpos Hfit Hk r.
  pose proof (wvec_length HH HT b Hpos) as Hlen.
  set (p := if in_trailer then H + Z.of_nat (length l) + k else k).
  set (part := if in_trailer then Range (H + Z.of_nat (length l)) (H + Z.of_nat (length l) + T)
               else Range 0 H).
  set (cs := WriteVecBuffer.cells b) in *.
  set (fr := take (Z.to_nat (H + Z.of_nat (length l) + T)) (drop (Z.to_nat s) cs)).
  assert (length fr = Z.to_nat (H + Z.of_nat (length l) + T)) as Hfl
    by (unfold fr; rewrite length_take, length_drop; lia).
  assert (∀ b' : WriteVecBuffer.t H T, length (WriteVecBuffer.cells b') = length cs →
    WriteVecBuffer.slice b' r =
      Ret (BytesSlice.new (take (Z.to_nat (H + Z.of_nat (length l) + T))
             (drop (Z.to_nat s) (WriteVecBuffer.cells b'))))) as Hslice.
  { intros b' Hb'. apply wvec_slice_cells; lia || zlia. }
  destruct (assign_in_cells H T HH HT cs s (Z.of_nat (length l)) part k x)
    as (sl' & Hsl' & Hfs & Hin); try (unfold part; destruct in_trailer; simpl; lia).
  assert (r_start part + k = p) as Hp by (by unfold part, p; destruct in_trailer).
  fold fr in Hfs, Hsl'. rewrite Hp in Hfs. rewrite <- Z.add_assoc, Hp in Hin.
  assert (wvec_rep (WriteVecBuffer.mk (<[Z.to_nat (s + p) := x]> cs) : WriteVecBuffer.t H T)
            (map_seqZ s l)) as HR'.
  { unfold wvec_rep, WriteVecBuffer.capacity. simpl. rewrite length_insert.
    apply frame_rep_outside; [done|done|]. apply lookup_map_seqZ_None.
    unfold p. destruct in_trailer; lia. }
  exists (BytesSlice.new fr), sl', (WriteVecBuffer.mk (<[Z.to_nat (s + p) := x]> cs)).
  split; [by rewrite Hslice|]. split.
  { rewrite <- Hsl'. unfold part, BytesSlice.trailer_mut, BytesSlice.header_mut,
      BytesSlice.trailer_range, BytesSlice.header_range, BytesSlice.len.
    destruct in_trailer; [|done]. simpl. rewrite Hfl, usize_sub_Ret by lia. simpl.
    by replace (Z.of_nat (Z.to_nat (H + Z.of_nat (length l) + T))) with
      (H + Z.of_nat (length l) + T) by lia;
      replace (H + Z.of_nat (length l) + T - T) with (H + Z.of_nat (length l)) by lia. }
  assert (sl' = BytesSlice.new (take (Z.to_nat (H + Z.of_nat (length l) + T))
            (drop (Z.to_nat s) (<[Z.to_nat (s + p) := x]> cs)))) as Heq.
  { destruct sl' as [f']. simpl in Hfs. rewrite Hfs. f_equal. unfold fr.
    rewrite drop_insert_ge, take_insert_lt by (unfold p; destruct in_trailer; lia).
    f_equal. unfold p. destruct in_trailer; lia. }
  split; [|split; [|split; [|split; [done|]]]].
  - destruct (wvec_slice HH HT HHT _ _ s l HR') as (sl & Hsl & _ & Hv); try done.
    1-3: unfold WriteVecBuffer.capacity in *; simpl; by rewrite length_insert.
    + intros i y Hi. apply lookup_map_seqZ_Some. split; [lia|]. rewrite <- Hi. f_equal. lia.
    + fold r in Hsl. rewrite Hslice in Hsl by (simpl; by rewrite length_insert).
      rewrite Heq. by injection Hsl as ->.
  - apply index_Ret. rewrite Hfs. apply list_lookup_insert_eq. unfold p. destruct in_trailer; lia.
  - unfold WriteVecBuffer.store, r. rewrite frame_range_Ret by (lia || zlia). simpl.
    fold cs. by rewrite Hin.
  - rewrite Hslice by (simpl; by rewrite length_insert). by rewrite Heq.
Qed.

Lemma bytes_slice_parts_witness :
  ∃ h d t, BytesSlice.header (BytesSlice.new [0; 1; 2; 3; 9] : BytesSlice.t 2 1) = Ret h ∧
    BytesSlice.deref (BytesSlice.new [0; 1; 2; 3; 9] : BytesSlice.t 2 1) = Ret d ∧
    BytesSlice.trailer (BytesSlice.new [0; 1; 2; 3; 9] : BytesSlice.t 2 1) = Ret t ∧
    [0; 1; 2; 3; 9] = h ++ d ++ t ∧ Z.of_nat (length h) = 2 ∧ Z.of_nat (length t) = 1.
Proof.
  exact (bytes_slice_parts (BytesSlice.new [0; 1; 2; 3; 9] : BytesSlice.t 2 1)
           ltac:(lia) ltac:(lia)).
Defined.

Lemma write_vec_roundtrip_witness :
  ∃ b' s, WriteVecBuffer.insert_into (Writer 2 (λ _, [7; 8]))
      (WriteVecBuffer.mk [0; 0; 0; 0; 0; 0] : WriteVecBuffer.t 2 1) 1 = Ret b' ∧
    WriteVecBuffer.capacity b' = 3 ∧ WriteVecBuffer.slice b' (Range 1 3) = Ret s ∧
    BytesSlice.len s = 2 + 2 + 1 ∧ BytesSlice.deref s = Ret [7; 8].
Proof.
  refine (write_vec_roundtrip (WriteVecBuffer.mk [0; 0; 0; 0; 0; 0] : WriteVecBuffer.t 2 1)
            (Writer 2 (λ _, [7; 8])) 1 _ _ _ _ _ _ _ _); try (vm_compute; congruence).
  split; [lia|]. intros part Hp. by split.
Defined.

(** The byte of a trailer of one byte, behind the bytes 7 and 8 and a header of two. *)
Lemma write_vec_header_trailer_witness :
  let b : WriteVecBuffer.t 2 1 := WriteVecBuffer.mk [0; 0; 0; 7; 8; 0] in
  ∃ sl sl' b', WriteVecBuffer.slice b (Range 1 3) = Ret sl ∧
    BytesSlice.trailer_mut sl 0 9 = Ret sl' ∧ bytes_view sl' = [7; 8] ∧
    index (BytesSlice.frame sl') 4 = Ret 9 ∧
    WriteVecBuffer.store b (Range 1 3) sl' = Ret b' ∧ wvec_rep b' (map_seqZ 1 [7; 8]) ∧
    WriteVecBuffer.slice b' (Range 1 3) = Ret sl'.
Proof.
  refine (write_vec_header_trailer (WriteVecBuffer.mk [0; 0; 0; 7; 8; 0] : WriteVecBuffer.t 2 1)
            1 [7; 8] true 0 9 _ _ _ _ _ _ _ _ _); try (vm_compute; done).
  intros i x. rewrite lookup_map_seqZ_Some. intros [Hi Hx]. pose proof (lookup_lt_Some _ _ _ Hx).
  simpl in *. assert (i = 1 ∨ i = 2) as [-> | ->] by lia; vm_compute in Hx |- *; by simplify_eq.
Defined.
