(* ===== verification/VectoredBuffers.v ===== *)
(** * Vectored buffers
    ([src/src/write_vectored.rs], [src/src/write_vectored/array.rs],
    [src/src/write_vectored/vec.rs])

    A buffer of values that keeps, next to each value, the [IoSlice] of its
    bytes, with one free [IoSlice] at each end for a header and a trailer. An
    [IoSlice] is the bytes it points to. [total_size] is an atomic counter, kept
    at the width of a [usize]. *)

From S2P Require Import Prelude Buffers CellBuffers WriteBuffers.
#[local] Open Scope Z_scope.

Abbreviation IoSlice := (list Z).
Definition EMPTY_SLICE : IoSlice := [].

(** [T: AsRef<[u8]>], code of the user. *)
Class AsRef (T : Type) := as_ref : T → list Z.

Definition io_len (s : IoSlice) : Z := Z.of_nat (length s).

(** ** [VectoredSlice] and [VectoredFrame] *)
(** [core::ops::Bound] *)
Inductive Bound : Type :=
  | Included (n : Z)
  | Excluded (n : Z)
  | Unbounded.

Module VectoredFrame.
(** The frame borrows the part [bounds] of the io-slices; [header] and
    [trailer] are what was there before. *)
Record t : Type := mk {
  slices : list IoSlice;
  bounds : range;
  header : option IoSlice;
  trailer : option IoSlice;
}.

Definition deref (self : t) : outcome (list IoSlice) :=
  index_range (slices self) (bounds self).

(** [self.slices[i] = s], an index into the part. *)
Definition store (self : t) (i : Z) (s : IoSlice) : outcome t :=
  assert (i <? r_end (bounds self) - r_start (bounds self)) ;;!
  let! l := index_set (slices self) (r_start (bounds self) + i) s in
  Ret (mk l (bounds self) (header self) (trailer self)).

Definition drop (self : t) : outcome t :=
  let! self :=
    match header self with Some h => store self 0 h | None => Ret self end in
  match trailer self with
  | Some t =>
      let! last := usize_sub (r_end (bounds self) - r_start (bounds self)) 1 in
      store self last t
  | None => Ret self
  end.
End VectoredFrame.

Module VectoredSlice.
Record t : Type := new { slices : list IoSlice; total_size : Z }.

Definition len (self : t) : Z := Z.of_nat (length (slices self)).

Definition deref (self : t) : outcome (list IoSlice) :=
  let! last := usize_sub (len self) 1 in index_range (slices self) (Range 1 last).

(** [self[k] = s] through [DerefMut]. *)
Definition deref_mut (self : t) (k : Z) (s : IoSlice) : outcome t :=
  let! last := usize_sub (len self) 1 in
  let! _ := index_range (slices self) (Range 1 last) in
  assert (k <? last - 1) ;;!
  let! l := index_set (slices self) (1 + k) s in
  Ret (new l (total_size self)).

Definition start_index (b : Bound) : outcome Z :=
  match b with
  | Included n => Ret n
  | Excluded n => usize_add n 1
  | Unbounded => Ret 0
  end.

Definition end_index (self : t) (b : Bound) : outcome Z :=
  match b with
  | Included n => usize_add n 2
  | Excluded n => usize_add n 1
  | Unbounded => Ret (len self)
  end.

(** [mem::replace(&mut slices[i], s)] *)
Definition replace (l : list IoSlice) (i : Z) (s : IoSlice)
    : outcome (list IoSlice * IoSlice) :=
  let! old := index l i in
  let! l := index_set l i s in
  Ret (l, old).

Definition frame (self : t) (range_start range_end : Bound)
    (header trailer : option IoSlice) : outcome VectoredFrame.t :=
  let! start := start_index range_start in
  let! stop := end_index self range_end in
  let! (l, start, header) :=
    match header with
    | Some h => let! (l, old) := replace (slices self) start h in Ret (l, start, Some old)
    | None => let! start := usize_add start 1 in Ret (slices self, start, None)
    end in
  let! (l, stop, trailer) :=
    match trailer with
    | Some t =>
        let! i := usize_sub stop 1 in
        let! (l, old) := replace l i t in Ret (l, stop, Some old)
    | None => let! stop := usize_sub stop 1 in Ret (l, stop, None)
    end in
  let! _ := index_range l (Range start stop) in
  Ret (VectoredFrame.mk l (Range start stop) header trailer).
End VectoredSlice.

(** ** The buffers: values, their io-slices, and the total size *)
Section IoCells.
Context {T : Type} `{AsRef T}.

Record io_cells : Type := mk_io_cells {
  owned : list (MaybeUninit T);
  slices : list IoSlice;
  total_size : Z;
}.
Implicit Types (self : io_cells).

Definition io_slice self (r : range) : outcome VectoredSlice.t :=
  let! e := usize_add (r_end r) 2 in
  let! l := index_range (slices self) (Range (r_start r) e) in
  Ret (VectoredSlice.new l (total_size self)).

Definition io_insert self (index : Z) (value : T) : outcome io_cells :=
  let s := as_ref value in
  let! i := usize_add index 1 in
  let! l := index_set (slices self) i s in
  let! o := index_set (owned self) index (Some value) in
  Ret (mk_io_cells o l (wrapping_add (total_size self) (io_len s))).

Definition io_remove self (i : Z) : outcome (io_cells * T) :=
  let! c := index (owned self) i in
  let! o := index_set (owned self) i None in
  let! value := assume_init c in
  Ret (mk_io_cells o (slices self)
         (wrapping_sub (total_size self) (io_len (as_ref value))), value).

Fixpoint io_clear_loop (n : nat) (i : Z) self : outcome io_cells :=
  match n with
  | O => Ret self
  | S n => let! (self, _) := io_remove self i in io_clear_loop n (i + 1) self
  end.

Definition io_clear self (r : range) : outcome io_cells :=
  let self := mk_io_cells (owned self) (slices self) 0 in
  io_clear_loop (Z.to_nat (r_end r - r_start r)) (r_start r) self.

(** The io-slices behind the slots [r], once the slice has those of [s]. *)
Definition io_store self (r : range) (s : VectoredSlice.t) : io_cells :=
  mk_io_cells (owned self)
    (list_inserts (Z.to_nat (r_start r)) (VectoredSlice.slices s) (slices self))
    (total_size self).
End IoCells.
Arguments io_cells : clear implicits.

Module WriteVectoredArrayBuffer.
(** [slices] is [ArrayWithHeaderAndTrailer<_, 1, N, 1>], read as one slice. *)
Record t (T : Type) (N : Z) : Type := mk { cells : io_cells T }.
Arguments mk {T N} cells.
Arguments cells {T N} _.

Section Ops.
Context {T : Type} `{AsRef T} {N : Z}.
Implicit Types (self : t T N).

Definition default : t T N :=
  mk (mk_io_cells (init_array N None)
        (ArrayWithHeaderAndTrailer.deref (ArrayWithHeaderAndTrailer.new 1 N 1 EMPTY_SLICE)) 0).

Definition capacity self : Z := N.

Definition slice self (r : range) : outcome VectoredSlice.t := io_slice (cells self) r.

Definition store self (r : range) (s : VectoredSlice.t) : t T N := mk (io_store (cells self) r s).

Definition insert self (index : Z) (value : T) : outcome (t T N) :=
  let! c := io_insert (cells self) index value in Ret (mk c).

Definition remove self (i : Z) : outcome (t T N * T) :=
  let! (c, value) := io_remove (cells self) i in Ret (mk c, value).

Definition clear self (r : range) : outcome (t T N) :=
  let! c := io_clear (cells self) r in Ret (mk c).
End Ops.
End WriteVectoredArrayBuffer.

Module WriteVectoredVecBuffer.
Record t (T : Type) : Type := mk { cells : io_cells T }.
Arguments mk {T} cells.
Arguments cells {T} _.

Section Ops.
Context {T : Type} `{AsRef T}.
Implicit Types (self : t T).

Definition default : t T := mk (mk_io_cells [] [] 0).

Definition capacity self : Z := Z.of_nat (length (owned (cells self))).

Definition slice self (r : range) : outcome VectoredSlice.t := io_slice (cells self) r.

Definition store self (r : range) (s : VectoredSlice.t) : t T := mk (io_store (cells self) r s).

Definition insert self (index : Z) (value : T) : outcome (t T) :=
  let! c := io_insert (cells self) index value in Ret (mk c).

Definition remove self (i : Z) : outcome (t T * T) :=
  let! (c, value) := io_remove (cells self) i in Ret (mk c, value).

Definition clear self (r : range) : outcome (t T) :=
  let! c := io_clear (cells self) r in Ret (mk c).

(** [total_size] is not touched. *)
Definition resize self (capacity : Z) : t T :=
  mk (mk_io_cells (replicate (Z.to_nat capacity) None)
        (replicate (Z.to_nat (capacity + 2)) EMPTY_SLICE) (total_size (cells self))).
End Ops.
End WriteVectoredVecBuffer.

(** ** The trait implementations *)
Section Instances.
Context {T : Type} `{AsRef T}.

#[export] Instance WriteVectoredArrayBuffer_Buffer {N} :
    Buffer (WriteVectoredArrayBuffer.t T N) VectoredSlice.t := {|
  buf_default := WriteVectoredArrayBuffer.default;
  capacity := WriteVectoredArrayBuffer.capacity;
  slice := WriteVectoredArrayBuffer.slice;
  clear := WriteVectoredArrayBuffer.clear;
|}.
#[export] Instance WriteVectoredArrayBuffer_CellBuffer {N} :
  CellBuffer (WriteVectoredArrayBuffer.t T N) T := WriteVectoredArrayBuffer.insert.
#[export] Instance WriteVectoredArrayBuffer_Resize {N} :
  Resize (WriteVectoredArrayBuffer.t T N) := None.
#[export] Instance WriteVectoredArrayBuffer_Drain {N} :
  Drain (WriteVectoredArrayBuffer.t T N) T := Some WriteVectoredArrayBuffer.remove.
#[export] Instance WriteVectoredArrayBuffer_SliceMut {N} :
  SliceMut (WriteVectoredArrayBuffer.t T N) VectoredSlice.t T := None.

#[export] Instance WriteVectoredVecBuffer_Buffer :
    Buffer (WriteVectoredVecBuffer.t T) VectoredSlice.t := {|
  buf_default := WriteVectoredVecBuffer.default;
  capacity := WriteVectoredVecBuffer.capacity;
  slice := WriteVectoredVecBuffer.slice;
  clear := WriteVectoredVecBuffer.clear;
|}.
#[export] Instance WriteVectoredVecBuffer_CellBuffer :
  CellBuffer (WriteVectoredVecBuffer.t T) T := WriteVectoredVecBuffer.insert.
#[export] Instance WriteVectoredVecBuffer_Resize :
  Resize (WriteVectoredVecBuffer.t T) := Some WriteVectoredVecBuffer.resize.
#[export] Instance WriteVectoredVecBuffer_Drain :
  Drain (WriteVectoredVecBuffer.t T) T := Some WriteVectoredVecBuffer.remove.
#[export] Instance WriteVectoredVecBuffer_SliceMut :
  SliceMut (WriteVectoredVecBuffer.t T) VectoredSlice.t T := None.
End Instances.

(** ** The slots of the cells *)
Section IoRep.
Context {T : Type} `{AsRef T}.
Implicit Types (c : io_cells T) (m : gmap Z T).

Definition io_cap c : Z := Z.of_nat (length (owned c)).

(** Both arrays hold the slot, the io-slice one further. *)
Definition io_rep c m : Prop :=
  cells_rep (owned c) m ∧
  (0 < io_cap c → Z.of_nat (length (slices c)) = io_cap c + 2) ∧
  ∀ i x, m !! i = Some x → slices c !! Z.to_nat (i + 1) = Some (as_ref x).

Lemma io_insert_ok c m i x :
  io_rep c m → 0 ≤ i < io_cap c → io_cap c < usize_MAX →
  ∃ c', io_insert c i x = Ret c' ∧ io_cap c' = io_cap c ∧ io_rep c' (<[i := x]> m).
Proof.
  intros (Ho & Hl & Hs) Hi Hmax. specialize (Hl ltac:(lia)). unfold io_cap in *.
  unfold io_insert. rewrite usize_add_Ret by lia. simpl.
  rewrite index_set_Ret by lia. simpl. rewrite index_set_Ret by lia. simpl.
  eexists; split; [done|]. simpl. rewrite length_insert. split; [done|].
  split; [by apply cells_rep_insert|]. unfold io_cap. simpl. rewrite !length_insert.
  split; [done|]. intros j y. destruct (decide (i = j)) as [<-|Hne].
  - rewrite lookup_insert_eq. intros [= <-]. apply list_lookup_insert_eq. lia.
  - rewrite lookup_insert_ne by done. intros Hj. destruct (Ho j y Hj).
    rewrite list_lookup_insert_ne by lia. by apply Hs.
Qed.

Lemma io_insert_safe c i x :
  io_insert c i x ≠ UB ∧ ∀ c', io_insert c i x = Ret c' → io_cap c' = io_cap c.
Proof.
  unfold io_insert, index_set, usize_add.
  repeat (case_match; simpl; try (split; congruence)).
  split; [congruence|]. intros c' [= <-]. unfold io_cap. simpl. by rewrite length_insert.
Qed.

Lemma io_remove_ok c m i x :
  io_rep c m → m !! i = Some x →
  ∃ c', io_remove c i = Ret (c', x) ∧ io_cap c' = io_cap c ∧ io_rep c' (delete i m) ∧
        total_size c' = wrapping_sub (total_size c) (io_len (as_ref x)).
Proof.
  intros (Ho & Hl & Hs) Hx. destruct (Ho i x Hx) as [Hi Hc].
  pose proof (lookup_lt_Some _ _ _ Hc). unfold io_remove.
  rewrite (index_Ret _ _ _ Hc). simpl. rewrite index_set_Ret by lia. simpl.
  eexists; split; [done|]. unfold io_cap; simpl. rewrite length_insert. split; [done|].
  split; [|done]. unfold io_rep, io_cap. simpl. rewrite length_insert. split_and!.
  - by apply cells_rep_delete.
  - done.
  - intros j y. rewrite lookup_delete_Some. intros [_ Hj]. by apply Hs.
Qed.

Lemma io_rep_total c m n :
  io_rep c m → io_rep (mk_io_cells (owned c) (slices c) n) m.
Proof. done. Qed.

Lemma io_rep_empty c : (0 < io_cap c → Z.of_nat (length (slices c)) = io_cap c + 2) → io_rep c ∅.
Proof. intros Hl. split; [apply cells_rep_empty|]. split; [done|]. by intros i x. Qed.

Definition vectored_view (s : VectoredSlice.t) : list IoSlice :=
  take (Z.to_nat (VectoredSlice.len s - 2)) (drop 1 (VectoredSlice.slices s)).

Lemma io_slice_ok c m s (l : list T) :
  io_rep c m → 0 ≤ s → 0 < io_cap c → io_cap c + 2 ≤ usize_MAX →
  s + Z.of_nat (length l) ≤ io_cap c →
  (∀ k x, l !! k = Some x → m !! (s + Z.of_nat k) = Some x) →
  ∃ sl, io_slice c (Range s (s + Z.of_nat (length l))) = Ret sl ∧
        VectoredSlice.len sl = Z.of_nat (length l) + 2 ∧
        VectoredSlice.total_size sl = total_size c ∧
        vectored_view sl = as_ref <$> l.
Proof.
  intros (Ho & Hl & Hs) Hs0 Hc Hmax Hfit Hm. specialize (Hl Hc).
  unfold io_slice. simpl. rewrite usize_add_Ret by lia. simpl.
  unfold index_range. simpl. rewrite !(proj2 (Z.leb_le _ _)) by lia. simpl.
  eexists; split; [done|]. unfold VectoredSlice.len, vectored_view, VectoredSlice.len. simpl.
  rewrite length_take, length_drop. split; [lia|]. split; [done|].
  apply list_eq_same_length with (length l).
  - by rewrite length_fmap.
  - rewrite length_take, length_drop, length_take, length_drop. lia.
  - intros k x y Hk Hx Hy. rewrite lookup_take_lt, lookup_drop, lookup_take_lt, lookup_drop in Hx
      by lia.
    apply list_lookup_fmap_Some in Hy as (z & -> & Hz).
    specialize (Hs _ _ (Hm k z Hz)).
    replace (Z.to_nat (s + Z.of_nat k + 1)) with (Z.to_nat s + (1 + k))%nat in Hs by lia.
    congruence.
Qed.
End IoRep.

(** ** The laws *)
Section VectoredLaws.
Context {T : Type} `{AsRef T}.

Lemma io_clear_ok (c : io_cells T) m s e :
  io_rep c m → 0 ≤ s ≤ e → (∀ j, is_Some (m !! j) ↔ s ≤ j < e) →
  ∃ c', io_clear c (Range s e) = Ret c' ∧ io_cap c' = io_cap c ∧ io_rep c' ∅.
Proof using.
  intros HR Hse Hm. unfold io_clear. simpl.
  destruct (clear_loop_spec io_cap io_rep io_remove io_clear_loop
              ltac:(done) ltac:(done)) with (n := Z.to_nat (e - s)) (s := s)
              (b := mk_io_cells (owned c) (slices c) 0) (m := m) as (c' & Hc' & Hcap & HR').
  - intros b m' j x Hb Hx. destruct (io_remove_ok b m' j x Hb Hx) as (b' & ? & ? & ? & _).
    by exists b'.
  - exact HR.
  - intros j. rewrite Hm. lia.
  - by exists c'.
Qed.

(** What wrapping the cells in a buffer type gives. *)
Section Wrapper.
Context {B : Type} (wrap : io_cells T → B) (get : B → io_cells T) (cap : B → Z).
Context (get_wrap : ∀ c, get (wrap c) = c) (wrap_get : ∀ b, wrap (get b) = b).
Context (ins : CellBuffer B T)
  (ins_eq : ∀ b i x, insert b i x = let! c := io_insert (get b) i x in Ret (wrap c)).

Lemma io_insert_one (R : B → gmap Z T → Prop) :
  (∀ b m, R b m ↔ io_rep (get b) m ∧ io_cap (get b) = cap b ∧ cap b < 4611686018427387904) →
  (∀ c b, io_cap c = cap b → cap (wrap c) = cap b) →
  insert_one_ok cap R.
Proof using get_wrap ins_eq.
  intros HR Hcap b m i x (Hb & Hc & Hlt)%HR Hi. rewrite ins_eq.
  destruct (io_insert_ok (get b) m i x Hb) as (c' & -> & Hc' & Hrep);
    [by rewrite Hc|zlia|]. simpl.
  assert (cap (wrap c') = cap b) as Hcb by (apply Hcap; congruence).
  eexists; split; [done|]. split; [done|]. apply HR. rewrite get_wrap.
  split_and!; [done|congruence|congruence].
Qed.

Lemma io_insert_one_safe :
  (∀ c b, io_cap c = io_cap (get b) → cap (wrap c) = cap b) → insert_one_safe cap.
Proof using ins_eq.
  intros Hcap b i x. rewrite ins_eq. destruct (io_insert_safe (get b) i x) as [Hu Hs].
  destruct (io_insert (get b) i x) as [c'| |]; simpl; [|split; congruence|done].
  split; [congruence|]. intros b' [= <-]. by apply Hcap, Hs.
Qed.
End Wrapper.

Section OfArray.
Context {N : Z} (HN : 0 ≤ N < 4611686018427387904).

Definition wvarr_rep (b : WriteVectoredArrayBuffer.t T N) (m : gmap Z T) : Prop :=
  io_rep (WriteVectoredArrayBuffer.cells b) m ∧
  io_cap (WriteVectoredArrayBuffer.cells b) = N ∧ N < 4611686018427387904.

#[export] Instance WriteVectoredArrayBuffer_Laws :
  BufferLaws (WriteVectoredArrayBuffer.t T N) VectoredSlice.t (cell_value T) T IoSlice.
Proof using HN.
  assert (insert_one_ok WriteVectoredArrayBuffer.capacity wvarr_rep) as Hone.
  { apply (io_insert_one WriteVectoredArrayBuffer.mk WriteVectoredArrayBuffer.cells); done. }
  assert (insert_one_safe (B := WriteVectoredArrayBuffer.t T N)
            WriteVectoredArrayBuffer.capacity) as Hsafe.
  { by apply (io_insert_one_safe WriteVectoredArrayBuffer.mk WriteVectoredArrayBuffer.cells). }
  refine {| elems := cell_elems; obs := as_ref; view := vectored_view; Rep := wvarr_rep;
            valid_value := cell_valid |}.
  - intros v. apply cell_valid_size.
  - intros b. simpl. unfold WriteVectoredArrayBuffer.capacity. lia.
  - unfold wvarr_rep, io_cap. simpl. unfold init_array. rewrite length_replicate.
    split_and!; [|lia|lia]. apply io_rep_empty. unfold io_cap; simpl.
    unfold init_array. rewrite length_app, !length_replicate. lia.
  - intros b m i x ((Ho & _) & Hc & _) Hx.
    pose proof (cells_rep_bound _ _ _ _ Ho Hx). simpl.
    unfold WriteVectoredArrayBuffer.capacity, io_cap in *. lia.
  - intros b m v i ? ? ? ? ? ? _. by apply (cell_insert_spec _ _ Hone).
  - intros v b i. apply (cell_insert_safe _ Hsafe).
  - intros v b i. apply (cell_insert_safe _ Hsafe).
  - intros b m s l (HR & Hc & _) ? ? ? ? Hl. simpl in *.
    unfold WriteVectoredArrayBuffer.capacity in *.
    destruct (io_slice_ok _ m s l HR) as (sl & Hsl & _ & _ & Hv); try (done || lia || zlia).
    by exists sl.
  - intros b m s e (HR & Hc & Hlt) Hse Hm.
    destruct (io_clear_ok _ m s e HR Hse Hm) as (c' & Hc' & Hcap & HR').
    simpl. unfold WriteVectoredArrayBuffer.clear. rewrite Hc'. simpl.
    eexists; split; [done|]. split; [done|]. split_and!; simpl; [done|congruence|done].
  - intros rm b m j x [= <-] (HR & Hc & Hlt) Hx.
    destruct (io_remove_ok _ m j x HR Hx) as (c' & Hc' & Hcap & HR' & _).
    unfold WriteVectoredArrayBuffer.remove. rewrite Hc'. simpl.
    eexists; split; [done|]. split; [done|]. split_and!; simpl; [done|congruence|done].
  - discriminate.
  - discriminate.
Defined.
End OfArray.

Definition wvvec_rep (b : WriteVectoredVecBuffer.t T) (m : gmap Z T) : Prop :=
  io_rep (WriteVectoredVecBuffer.cells b) m ∧
  WriteVectoredVecBuffer.capacity b < 4611686018427387904.

#[export] Instance WriteVectoredVecBuffer_Laws :
  BufferLaws (WriteVectoredVecBuffer.t T) VectoredSlice.t (cell_value T) T IoSlice.
Proof using.
  assert (insert_one_ok WriteVectoredVecBuffer.capacity wvvec_rep) as Hone.
  { apply (io_insert_one WriteVectoredVecBuffer.mk WriteVectoredVecBuffer.cells); try done.
    intros b m. unfold wvvec_rep, WriteVectoredVecBuffer.capacity, io_cap. tauto. }
  assert (insert_one_safe (B := WriteVectoredVecBuffer.t T)
            WriteVectoredVecBuffer.capacity) as Hsafe.
  { by apply (io_insert_one_safe WriteVectoredVecBuffer.mk WriteVectoredVecBuffer.cells). }
  refine {| elems := cell_elems; obs := as_ref; view := vectored_view; Rep := wvvec_rep;
            valid_value := cell_valid |}.
  - intros v. apply cell_valid_size.
  - intros b. simpl. unfold WriteVectoredVecBuffer.capacity. lia.
  - split; [by apply io_rep_empty|done].
  - intros b m i x ((Ho & _) & _) Hx. apply (cells_rep_bound _ _ _ _ Ho Hx).
  - intros b m v i ? ? ? ? ? ? _. by apply (cell_insert_spec _ _ Hone).
  - intros v b i. apply (cell_insert_safe _ Hsafe).
  - intros v b i. apply (cell_insert_safe _ Hsafe).
  - intros b m s l (HR & Hc) ? ? ? ? Hl. simpl in *.
    unfold WriteVectoredVecBuffer.capacity in *.
    destruct (io_slice_ok _ m s l HR) as (sl & Hsl & _ & _ & Hv);
      try (done || unfold io_cap in *; zlia).
    by exists sl.
  - intros b m s e (HR & Hlt) Hse Hm.
    destruct (io_clear_ok _ m s e HR Hse Hm) as (c' & Hc' & Hcap & HR').
    simpl. unfold WriteVectoredVecBuffer.clear. rewrite Hc'. simpl.
    unfold wvvec_rep, WriteVectoredVecBuffer.capacity, io_cap in *.
    eexists; split; [done|]. simpl. split; [done|]. split; [done|congruence].
  - intros rm b m j x [= <-] (HR & Hlt) Hx.
    destruct (io_remove_ok _ m j x HR Hx) as (c' & Hc' & Hcap & HR' & _).
    unfold WriteVectoredVecBuffer.remove. rewrite Hc'. simpl.
    unfold wvvec_rep, WriteVectoredVecBuffer.capacity, io_cap in *.
    eexists; split; [done|]. simpl. split; [done|]. split; [done|congruence].
  - intros rs b n [= <-] _ Hn. simpl.
    unfold wvvec_rep, WriteVectoredVecBuffer.capacity, WriteVectoredVecBuffer.resize. simpl.
    rewrite !length_replicate. split; [|lia]. split; [|lia].
    apply io_rep_empty. unfold io_cap. simpl. rewrite !length_replicate. lia.
  - discriminate.
Defined.

(** ** The total size *)
Definition total (xs : list T) : Z := foldr (λ x z, io_len (as_ref x) + z) 0 xs.

(** Clearing resets the counter, then subtracts every size from it. *)
Lemma io_clear_loop_total (xs : list T) : ∀ (c : io_cells T) s m,
  io_rep c m → is_usize (total_size c) →
  (∀ k x, xs !! k = Some x → m !! (s + Z.of_nat k) = Some x) →
  ∃ c', io_clear_loop (length xs) s c = Ret c' ∧
        total_size c' = wrap (total_size c - total xs).
Proof using.
  induction xs as [|x xs IH]; intros c s m HR Hu Hx; simpl.
  { exists c. rewrite Z.sub_0_r, wrap_small by done. done. }
  destruct (io_remove_ok c m s x HR) as (c1 & -> & _ & HR1 & Ht).
  { specialize (Hx 0%nat x eq_refl). by rewrite Z.add_0_r in Hx. }
  simpl. destruct (IH c1 (s + 1) _ HR1) as (c' & -> & Ht').
  - rewrite Ht. apply wrap_is_usize.
  - intros k y Hk. rewrite lookup_delete_ne by lia.
    specialize (Hx (Datatypes.S k) y Hk). rewrite <- Hx. f_equal. lia.
  - exists c'. split; [done|]. rewrite Ht', Ht. unfold wrapping_sub, wrap.
    rewrite Zminus_mod_idemp_l. f_equal. lia.
Qed.
End VectoredLaws.

(** C38: what [clear] does to [total_size]. It stores 0 and only then removes the
    values, each removal subtracting its size: the counter ends at minus their
    sum (modulo the width) instead of 0, and the next slice of that buffer
    reports a wrong total. *)
Theorem clear_total_size {T : Type} `{AsRef T} (b : WriteVectoredVecBuffer.t T) (m : gmap Z T)
    (s : Z) (xs : list T) :
  wvvec_rep b m → (∀ k x, xs !! k = Some x → m !! (s + Z.of_nat k) = Some x) →
  ∃ b', WriteVectoredVecBuffer.clear b (Range s (s + Z.of_nat (length xs))) = Ret b' ∧
        total_size (WriteVectoredVecBuffer.cells b') = wrap (- total xs).
Proof.
  intros [HR _] Hx. unfold WriteVectoredVecBuffer.clear, io_clear. simpl.
  replace (Z.to_nat (s + Z.of_nat (length xs) - s)) with (length xs) by lia.
  destruct (io_clear_loop_total xs
    (mk_io_cells (owned (WriteVectoredVecBuffer.cells b))
       (slices (WriteVectoredVecBuffer.cells b)) 0) s m HR) as (c' & -> & Ht).
  - unfold is_usize. simpl. zlia.
  - done.
  - simpl. eexists; split; [done|]. simpl. by rewrite Ht.
Qed.

(** ** Frames *)
Section Frames.
Implicit Types (l mid : list IoSlice) (x y a z : IoSlice).

Lemma replace_middle l1 l2 x y i :
  i = Z.of_nat (length l1) →
  VectoredSlice.replace (l1 ++ x :: l2) i y = Ret (l1 ++ y :: l2, x).
Proof.
  intros ->. unfold VectoredSlice.replace.
  rewrite (index_Ret _ _ x) by (rewrite Nat2Z.id; by apply list_lookup_middle). simpl.
  rewrite index_set_Ret by (rewrite length_app; simpl; lia). simpl.
  by rewrite Nat2Z.id, insert_app_r_alt, Nat.sub_diag by lia.
Qed.

(** A part of a list, by what comes before and after it. *)
Lemma index_range_app l1 l2 l3 s e :
  s = Z.of_nat (length l1) → e = s + Z.of_nat (length l2) →
  index_range (l1 ++ l2 ++ l3) (Range s e) = Ret l2.
Proof.
  intros -> ->. unfold index_range. simpl. rewrite !length_app.
  rewrite !(proj2 (Z.leb_le _ _)) by lia. simpl.
  rewrite Nat2Z.id, drop_app_length.
  replace (Z.to_nat _) with (length l2) by lia. by rewrite take_app_length.
Qed.

Lemma store_middle l1 l2 x y i r h t :
  r_start r + i = Z.of_nat (length l1) → i < r_end r - r_start r →
  VectoredFrame.store (VectoredFrame.mk (l1 ++ x :: l2) r h t) i y
    = Ret (VectoredFrame.mk (l1 ++ y :: l2) r h t).
Proof.
  intros Hi Hlt. unfold VectoredFrame.store. simpl.
  rewrite (proj2 (Z.ltb_lt _ _)) by done. simpl. rewrite Hi.
  rewrite index_set_Ret by (rewrite length_app; simpl; lia). simpl.
  by rewrite Nat2Z.id, insert_app_r_alt, Nat.sub_diag by lia.
Qed.

Definition opt_list (o : option IoSlice) : list IoSlice :=
  match o with Some x => [x] | None => [] end.
End Frames.

(** C32: the frame of a whole slice is the header, every io-slice, the trailer,
    each if given; dropping the frame restores the slice, which is its
    unframed content again. *)
Theorem frame_whole (a z : IoSlice) (mid : list IoSlice) (n : Z) (header trailer : option IoSlice) :
  Z.of_nat (length mid) + 2 ≤ usize_MAX →
  let s := VectoredSlice.new (a :: mid ++ [z]) n in
  VectoredSlice.deref s = Ret mid ∧
  ∃ f f', VectoredSlice.frame s Unbounded Unbounded header trailer = Ret f ∧
    VectoredFrame.deref f = Ret (opt_list header ++ mid ++ opt_list trailer) ∧
    VectoredFrame.drop f = Ret f' ∧ VectoredFrame.slices f' = VectoredSlice.slices s.
Proof.
  intros Hmax s. assert (VectoredSlice.len s = Z.of_nat (length mid) + 2) as Hlen.
  { unfold VectoredSlice.len, s. simpl. rewrite length_app. simpl. lia. }
  split.
  { unfold VectoredSlice.deref. rewrite Hlen, usize_sub_Ret by lia. simpl.
    apply (index_range_app [a] mid [z]); simpl; lia. }
  assert (∀ x y, VectoredSlice.replace (x :: mid ++ [z]) (Z.of_nat (length mid) + 2 - 1) y
                   = Ret (x :: mid ++ [y], z)) as Hlast.
  { intros x y. apply (replace_middle (x :: mid) [] z y). simpl. lia. }
  assert (∀ x y, VectoredSlice.replace (x :: mid ++ [z]) 0 y = Ret (y :: mid ++ [z], x)) as Hfirst.
  { intros x y. by apply (replace_middle [] (mid ++ [z]) x y). }
  unfold VectoredSlice.frame. simpl. rewrite Hlen.
  destruct header as [h|], trailer as [t|]; simpl; rewrite ?Hfirst; simpl;
    rewrite usize_sub_Ret by lia; simpl; rewrite ?Hlast; simpl;
    change (0 + 1) with 1.
  - assert (index_range (h :: mid ++ [t]) (Range 0 (Z.of_nat (length mid) + 2))
              = Ret (h :: mid ++ [t])) as Hr.
    { pose proof (index_range_app [] (h :: mid ++ [t]) [] 0 (Z.of_nat (length mid) + 2)) as Hr.
      rewrite app_nil_r in Hr. apply Hr; [done|]. simpl. rewrite length_app. simpl. lia. }
    rewrite Hr. simpl. do 2 eexists. split_and!; [done|exact Hr| |].
    + unfold VectoredFrame.drop. simpl.
      rewrite (store_middle [] (mid ++ [t]) h a) by (simpl; lia). simpl.
      rewrite usize_sub_Ret by lia. simpl.
      apply (store_middle (a :: mid) [] t z); simpl; lia.
    + done.
  - pose proof (index_range_app [] (h :: mid) [z] 0 (Z.of_nat (length mid) + 2 - 1)
      eq_refl ltac:(simpl; lia)) as Hr. simpl in Hr.
    rewrite Hr. simpl. do 2 eexists. split_and!; [done|by rewrite app_nil_r| |].
    + unfold VectoredFrame.drop. simpl.
      rewrite (store_middle [] (mid ++ [z]) h a) by (simpl; lia). done.
    + done.
  - pose proof (index_range_app [a] (mid ++ [t]) [] 1 (Z.of_nat (length mid) + 2)
      eq_refl ltac:(rewrite length_app; simpl; lia)) as Hr.
    rewrite app_nil_r in Hr. simpl in Hr.
    rewrite Hr. simpl. do 2 eexists. split_and!; [done|exact Hr| |].
    + unfold VectoredFrame.drop. simpl. rewrite usize_sub_Ret by lia. simpl.
      apply (store_middle (a :: mid) [] t z); simpl; lia.
    + done.
  - pose proof (index_range_app [a] mid [z] 1 (Z.of_nat (length mid) + 2 - 1)
      eq_refl ltac:(simpl; lia)) as Hr. simpl in Hr.
    rewrite Hr. simpl. do 2 eexists. by rewrite app_nil_r.
Qed.

(** an explicit end bound is off by one. [Excluded n] is turned into the
    end [n + 1] of the padded array, one less than what [Unbounded] gives for
    the same [n], so [..n] frames the first [n - 1] io-slices only, and with a
    trailer the [n]-th one is what the trailer replaces. *)
Theorem frame_end_off_by_one (a z : IoSlice) (mid : list IoSlice) (n total : Z)
    (trailer : option IoSlice) :
  1 ≤ n ≤ Z.of_nat (length mid) → Z.of_nat (length mid) + 2 ≤ usize_MAX →
  let s := VectoredSlice.new (a :: mid ++ [z]) total in
  ∃ f, VectoredSlice.frame s Unbounded (Excluded n) None trailer = Ret f ∧
    VectoredFrame.deref f = Ret (take (Z.to_nat (n - 1)) mid ++ opt_list trailer) ∧
    VectoredSlice.frame s Unbounded (Included (n - 1)) None trailer = Ret f.
Proof.
  intros Hn Hmax s. unfold VectoredSlice.frame. simpl.
  rewrite (usize_add_Ret (n - 1) 2), (usize_add_Ret n 1) by lia. simpl.
  replace (n - 1 + 2) with (n + 1) by lia. rewrite usize_sub_Ret by lia. simpl.
  replace (n + 1 - 1) with n by lia. change (0 + 1) with 1.
  destruct (lookup_lt_is_Some_2 mid (Z.to_nat (n - 1))) as [x Hx]; [lia|].
  pose proof (take_drop_middle _ _ _ Hx) as Hmid.
  set (l1 := take (Z.to_nat (n - 1)) mid) in *.
  set (l2 := drop (Datatypes.S (Z.to_nat (n - 1))) mid) in *.
  assert (Z.of_nat (length l1) = n - 1) as Hl1.
  { unfold l1. rewrite length_take. lia. }
  assert (a :: mid ++ [z] = (a :: l1) ++ x :: l2 ++ [z]) as Heq.
  { rewrite <- Hmid. simpl. by rewrite <- (assoc_L (++)). }
  destruct trailer as [t|]; simpl.
  - rewrite Heq, (replace_middle (a :: l1) (l2 ++ [z]) x t) by (simpl; lia). simpl.
    pose proof (index_range_app [a] (l1 ++ [t]) (l2 ++ [z]) 1 (n + 1) eq_refl
      ltac:(rewrite length_app; simpl; lia)) as Hr.
    rewrite <- (assoc_L (++)) in Hr. simpl in Hr.
    rewrite Hr. simpl. eexists. split_and!; [done|exact Hr|done].
  - rewrite Heq. pose proof (index_range_app [a] l1 (x :: l2 ++ [z]) 1 n eq_refl
      ltac:(lia)) as Hr. simpl in Hr.
    rewrite app_nil_r. simpl. rewrite Hr. simpl. eexists. split_and!; [done|exact Hr|done].
Qed.

Lemma io_slice_cells {T : Type} (c : io_cells T) s (n : nat) :
  0 ≤ s → s + Z.of_nat n + 2 ≤ Z.of_nat (length (slices c)) → s + Z.of_nat n + 2 ≤ usize_MAX →
  io_slice c (Range s (s + Z.of_nat n)) =
    Ret (VectoredSlice.new (take (n + 2) (drop (Z.to_nat s) (slices c))) (total_size c)).
Proof.
  intros. unfold io_slice. simpl. rewrite usize_add_Ret by lia. simpl.
  unfold index_range. simpl. rewrite !(proj2 (Z.leb_le _ _)) by lia. simpl. do 3 f_equal. lia.
Qed.

(** C31: An io-slice assigned through [DerefMut] stays in the buffer when the slice is
    requeued: the next slice shows it in place of the bytes of the value, which
    is still the one that [remove] gives. The comment of [deref_mut] says that the
    slices are only read with the lifetime of the slice they were assigned in. *)
Theorem vectored_assign_stays {T : Type} `{AsRef T} (b : WriteVectoredVecBuffer.t T)
    (m : gmap Z T) (s : Z) (l : list T) (k : nat) (x : T) (io : IoSlice) :
  wvvec_rep b m → 0 ≤ s → s + Z.of_nat (length l) ≤ WriteVectoredVecBuffer.capacity b →
  (∀ k x, l !! k = Some x → m !! (s + Z.of_nat k) = Some x) → l !! k = Some x →
  let r := Range s (s + Z.of_nat (length l)) in
  ∃ sl sl' sl'' b'', WriteVectoredVecBuffer.slice b r = Ret sl ∧
    VectoredSlice.deref_mut sl (Z.of_nat k) io = Ret sl' ∧
    let b' := WriteVectoredVecBuffer.store b r sl' in
    WriteVectoredVecBuffer.slice b' r = Ret sl'' ∧
    vectored_view sl'' = <[k := io]> (as_ref <$> l) ∧
    WriteVectoredVecBuffer.remove b' (s + Z.of_nat k) = Ret (b'', x).
Proof.
  intros [HR Hcap] Hs Hfit Hl Hk r. pose proof (lookup_lt_Some _ _ _ Hk) as Hlt.
  pose proof HR as (Ho & Hlen & _). unfold WriteVectoredVecBuffer.capacity in *.
  set (c := WriteVectoredVecBuffer.cells b) in *. unfold io_cap in Hlen. specialize (Hlen ltac:(lia)).
  set (fr := take (length l + 2) (drop (Z.to_nat s) (slices c))).
  assert (length fr = length l + 2)%nat as Hfl by (unfold fr; rewrite length_take, length_drop; lia).
  assert (∀ c' : io_cells T, length (slices c') = length (slices c) →
    io_slice c' r = Ret (VectoredSlice.new (take (length l + 2) (drop (Z.to_nat s) (slices c')))
                           (total_size c'))) as Hslice.
  { intros c' Hc'. apply io_slice_cells; zlia. }
  destruct (io_slice_ok c m s l HR Hs) as (sl & Hsl & _ & _ & Hv); try (unfold io_cap; lia || zlia);
    [done|]. fold r in Hsl. rewrite Hslice in Hsl by done. injection Hsl as <-. fold fr in Hv.
  set (sl' := VectoredSlice.new (<[(1 + k)%nat := io]> fr) (total_size c)).
  assert (slices (io_store c r sl') = <[(Z.to_nat s + (1 + k))%nat := io]> (slices c)) as Hst.
  { simpl. unfold fr. by rewrite inserts_segment by lia. }
  assert (take (length l + 2) (drop (Z.to_nat s) (slices (io_store c r sl')))
            = <[(1 + k)%nat := io]> fr) as Hfr'.
  { rewrite Hst, drop_insert_ge, take_insert_lt by lia. unfold fr. f_equal. lia. }
  destruct (Ho _ _ (Hl k x Hk)) as [_ Hx]. pose proof (lookup_lt_Some _ _ _ Hx).
  eexists _, sl', sl', _. split; [by apply Hslice|]. fold c; fold fr. split; [|split; [|split]].
  - unfold VectoredSlice.deref_mut, VectoredSlice.len. simpl. rewrite Hfl, usize_sub_Ret by lia.
    simpl. unfold index_range. simpl. rewrite Hfl, !(proj2 (Z.leb_le _ _)) by lia. simpl.
    rewrite (proj2 (Z.ltb_lt _ _)) by lia. simpl. rewrite index_set_Ret by lia. simpl.
    unfold sl'. do 3 f_equal. lia.
  - unfold WriteVectoredVecBuffer.slice, WriteVectoredVecBuffer.store. simpl. fold c.
    rewrite Hslice by (simpl; by rewrite length_inserts). by rewrite Hfr'.
  - rewrite <- Hv. unfold vectored_view, VectoredSlice.len. simpl. rewrite length_insert, Hfl.
    rewrite drop_insert_ge, take_insert_lt by lia. f_equal. lia.
  - unfold WriteVectoredVecBuffer.remove, io_remove. simpl. fold c.
    rewrite (index_Ret _ _ _ Hx). simpl. rewrite index_set_Ret by lia. simpl. done.
Qed.

#[export] Instance bytes_as_ref : AsRef (list Z) := id.

Lemma clear_total_size_witness :
  ∃ b', WriteVectoredVecBuffer.clear
      (WriteVectoredVecBuffer.mk (mk_io_cells [Some [1; 2; 3]] [[]; [1; 2; 3]; []] 3))
      (Range 0 1) = Ret b' ∧
    total_size (WriteVectoredVecBuffer.cells b') = wrap (-3).
Proof.
  refine (clear_total_size
    (WriteVectoredVecBuffer.mk (mk_io_cells [Some [1; 2; 3]] [[]; [1; 2; 3]; []] 3))
    {[0 := [1; 2; 3]]} 0 [[1; 2; 3]] _ _).
  - split; [|reflexivity]. split; [|split; [reflexivity|]];
      intros i x [<- <-]%lookup_singleton_Some; [split; [lia|reflexivity]|reflexivity].
  - intros [|k] x Hk; [by injection Hk as <-|by destruct k].
Defined.

Lemma frame_whole_witness :
  let s := VectoredSlice.new [[]; [2; 3]; [4]; []] 3 in
  VectoredSlice.deref s = Ret [[2; 3]; [4]] ∧
  ∃ f f', VectoredSlice.frame s Unbounded Unbounded (Some [0; 1]) (Some [6]) = Ret f ∧
    VectoredFrame.deref f = Ret [[0; 1]; [2; 3]; [4]; [6]] ∧
    VectoredFrame.drop f = Ret f' ∧ VectoredFrame.slices f' = VectoredSlice.slices s.
Proof.
  exact (frame_whole [] [] [[2; 3]; [4]] 3 (Some [0; 1]) (Some [6]) ltac:(vm_compute; discriminate)).
Defined.

(** [..2] of two io-slices, with a trailer. *)
Lemma frame_end_off_by_one_witness :
  let s := VectoredSlice.new [[]; [2; 3]; [4]; []] 3 in
  ∃ f, VectoredSlice.frame s Unbounded (Excluded 2) None (Some [6]) = Ret f ∧
    VectoredFrame.deref f = Ret [[2; 3]; [6]] ∧
    VectoredSlice.frame s Unbounded (Included 1) None (Some [6]) = Ret f.
Proof.
  exact (frame_end_off_by_one [] [] [[2; 3]; [4]] 2 3 (Some [6])
           ltac:(vm_compute; split; discriminate) ltac:(vm_compute; discriminate)).
Defined.

(** The io-slice of the second value of two is assigned. *)
Lemma vectored_assign_stays_witness :
  let b : WriteVectoredVecBuffer.t (list Z) := WriteVectoredVecBuffer.mk
    (mk_io_cells [Some [2; 3]; Some [4]] [[]; [2; 3]; [4]; []] 3) in
  ∃ sl sl' sl'' b'', WriteVectoredVecBuffer.slice b (Range 0 2) = Ret sl ∧
    VectoredSlice.deref_mut sl 1 [9; 9] = Ret sl' ∧
    let b' := WriteVectoredVecBuffer.store b (Range 0 2) sl' in
    WriteVectoredVecBuffer.slice b' (Range 0 2) = Ret sl'' ∧
    vectored_view sl'' = [[2; 3]; [9; 9]] ∧
    WriteVectoredVecBuffer.remove b' 1 = Ret (b'', [4]).
Proof.
  refine (vectored_assign_stays (WriteVectoredVecBuffer.mk
    (mk_io_cells [Some [2; 3]; Some [4]] [[]; [2; 3]; [4]; []] 3)) (map_seqZ 0 [[2; 3]; [4]])
    0 [[2; 3]; [4]] 1 [4] [9; 9] _ _ _ _ _); try (vm_compute; done).
  - assert (∀ i x, (map_seqZ 0 [[2; 3]; [4]] : gmap Z (list Z)) !! i = Some x →
      i = 0 ∧ x = [2; 3] ∨ i = 1 ∧ x = [4]) as Hm.
    { intros i x. rewrite lookup_map_seqZ_Some. intros [Hi Hx].
      pose proof (lookup_lt_Some _ _ _ Hx). simpl in *.
      assert (i = 0 ∨ i = 1) as [-> | ->] by lia; simpl in Hx; simplify_eq; auto. }
    split; [split; [|split]|]; try (vm_compute; done).
    + intros i x [[-> ->]|[-> ->]]%Hm; vm_compute; by split.
    + by intros i x [[-> ->]|[-> ->]]%Hm.
  - intros k x Hk. rewrite lookup_map_seqZ_Some. split; [lia|]. rewrite <- Hk. f_equal. lia.
Defined.
