(* ===== verification/Queue.v ===== *)
(** * The queue of [src/src/queue.rs] as a machine of atomic steps

    [Queue] is the shared state. A call in progress is a program counter
    [pc] with the locals of the method at that point; [step] runs it to its
    next access of shared memory (one atomic operation, or one access to a
    buffer through its [UnsafeCell]). The same steps are run alone in
    [Sequential] and interleaved in [Machine]. *)

From S2P Require Import Prelude PackedWords Errors Buffers.
#[local] Open Scope Z_scope.

(** [src/src/loom.rs], outside of loom tests. *)
Definition SPIN_LIMIT : nat := 64.
Definition BACKOFF_LIMIT : Z := 6.

Record Queue (B : Type) : Type := mk_Queue {
  enqueuing_capacity : Z;
  dequeuing_length : Z;
  buffers : B * B;
  buffers_length : Z * Z;
  q_capacity : Z;                       (* the field [capacity] *)
}.
Arguments mk_Queue {B}.
Arguments enqueuing_capacity {B}.
Arguments dequeuing_length {B}.
Arguments buffers {B}.
Arguments buffers_length {B}.
Arguments q_capacity {B}.

(** Stores to one field. *)
Section Stores.
Context {B : Type} (q : Queue B).
Definition set_enqueuing (w : Z) : Queue B :=
  mk_Queue w (dequeuing_length q) (buffers q) (buffers_length q) (q_capacity q).
Definition set_dequeuing (w : Z) : Queue B :=
  mk_Queue (enqueuing_capacity q) w (buffers q) (buffers_length q) (q_capacity q).
Definition set_buffer (i : Z) (b : B) : Queue B :=
  mk_Queue (enqueuing_capacity q) (dequeuing_length q) (upd i b (buffers q))
    (buffers_length q) (q_capacity q).
Definition set_buffer_length (i : Z) (n : Z) : Queue B :=
  mk_Queue (enqueuing_capacity q) (dequeuing_length q) (buffers q)
    (upd i n (buffers_length q)) (q_capacity q).
Definition set_capacity (n : Z) : Queue B :=
  mk_Queue (enqueuing_capacity q) (dequeuing_length q) (buffers q)
    (buffers_length q) n.
End Stores.

(** The [BufferSlice] and [OwnedBufferIter] handles of [src/src/buffer.rs],
    without their reference to the queue. *)
Record BufferSlice (S : Type) : Type := mk_BufferSlice {
  bs_buffer_index : Z;
  bs_range : range;
  bs_slice : S;
}.
Arguments mk_BufferSlice {S}.
Arguments bs_buffer_index {S}.
Arguments bs_range {S}.
Arguments bs_slice {S}.

Record BufferIter : Type := mk_BufferIter {
  it_buffer_index : Z;
  it_range : range;
}.

(** The arguments of [try_dequeue_and_resize]; the iterator of [insert] is
    the list of what it yields. *)
Record resize_args (V : Type) : Type := mk_resize_args {
  ra_capacity : option Z;
  ra_insert : option (list V);
}.
Arguments mk_resize_args {V}.
Arguments ra_capacity {V}.
Arguments ra_insert {V}.

(** Locals of [try_dequeue_internal] once the next buffer is prepared. *)
Record deq_locals : Type := mk_deq_locals {
  dl_dequeuing : Z;
  dl_resized : bool;
  dl_inserted : Z;
  dl_next_capa : Z;
}.

(** ** Program points *)
Section Points.
Context {S V E : Type}.

Inductive pc : Type :=
  (* no call in progress *)
  | Idle
  (* try_enqueue *)
  | EnqStart (value : V)
  | EnqLoop (value : V) (enqueuing : Z) (backoff : option Z)
  | EnqInsert (value : V) (enqueuing : Z)
  | EnqAdd (value : V) (enqueuing : Z)
  | EnqNotify
  | EnqDone (res : result unit (TryEnqueueError.t V))
  (* try_dequeue, try_dequeue_and_resize *)
  | DeqStart (rz : option (resize_args V))
  | DeqInternal (dequeuing : Z) (rz : option (resize_args V))
  | DeqResize (dequeuing : Z) (rz : option (resize_args V))
  | DeqAddInserted (d : deq_locals)
  | DeqLoad (d : deq_locals)
  | DeqCheck (d : deq_locals) (enqueuing : Z)
  | DeqRestore (d : deq_locals) (enqueuing : Z)
  | DeqSwap (d : deq_locals) (enqueuing capacity next_enqueuing backoff : Z)
  | DeqCapLoad (d : deq_locals) (enqueuing capacity : Z)
  | DeqCapStore (d : deq_locals) (enqueuing capacity : Z)
  | DeqNotify (d : deq_locals) (enqueuing capacity : Z)
  | DeqMatch (d : deq_locals) (enqueuing capacity : Z)
  | DeqAck (buffer_index : Z)
  | DeqSpin (buffer_index length : Z) (n : nat)
  | DeqTake (buffer_index : Z) (r : range)
  | DeqSave (buffer_index length : Z)
  | DeqErr (e : TryDequeueError.t)
  (* a dequeued slice, its drop and its requeuing *)
  | Slice (bs : BufferSlice S)
  | SliceSet (bs : BufferSlice S) (k : Z) (x : E)
  | RelClear (buffer_index : Z) (r : range)
  | RelLen (buffer_index : Z)
  | RelUnlock (buffer_index : Z)
  | Requeue (buffer_index : Z) (r : range)
  (* the draining iterator; [last] is what [next] returned last *)
  | Iter (it : BufferIter) (last : option (option E))
  | IterRemove (it : BufferIter)
  | GetSlice (it : BufferIter)
  (* close and reopen *)
  | CloseOr
  | CloseNotifyDeq
  | CloseNotifyEnq
  | ReopenAnd
  (* a thread that panicked, or reached undefined behaviour *)
  | Panicked
  | Undefined.

(** What an execution shows: reservations, buffer swaps, and what the
    dequeuer consumes; plus the two notifications. *)
Inductive event : Type :=
  | EvReserve (value : V)
  | EvPreload (values : list V)
  | EvSwap
  | EvRelease (slice : S)
  | EvNext (x : E)
  | EvAssign (k : nat) (x : E)          (* element [k] of the slice becomes [x] *)
  | EvNotifyDequeue
  | EvNotifyEnqueue.

(** Calls of the public methods. *)
Inductive call : Type :=
  | TryEnqueue (value : V)
  | TryDequeue
  | TryDequeueAndResize (args : resize_args V)
  | Close
  | Reopen
  | SliceAssign (k : Z) (x : E)         (* slice[k] = x *)
  | SliceDrop
  | SliceRequeue
  | SliceIntoIter
  | IterNext
  | IterDrop
  | IterIntoSlice
  | IterWithOwned (same : bool).    (* whether the owner references the same queue *)
End Points.
Arguments pc : clear implicits.
Arguments event : clear implicits.
Arguments call : clear implicits.

Section Machine.
Context {B S V E : Type}.
Context `{Buffer B S, InsertIntoBuffer B V, Resize B, Drain B E, SliceMut B S E}.
Implicit Types (q : Queue B).

Abbreviation pc := (pc S V E).
Abbreviation event := (event S V E).
Abbreviation next := (outcome (Queue B * pc * list event)).

(** ** Construction *)
Definition queue_new : outcome (Queue B) :=
  let buffers : B * B := (buf_default, buf_default) in
  let capacity := capacity (sel 0 buffers) in
  EnqueuingCapacity.check_overflow capacity ;;!
  let! w := EnqueuingCapacity.new 0 capacity in
  Ret (mk_Queue w (DequeuingLength.new 1 0) buffers (0, 0) capacity).

Definition queue_with_capacity (rs : B → Z → B) (capacity : Z) : outcome (Queue B) :=
  EnqueuingCapacity.check_overflow capacity ;;!
  let buffers : B * B := (rs buf_default capacity, rs buf_default capacity) in
  let! w := EnqueuingCapacity.new 0 capacity in
  Ret (mk_Queue w (DequeuingLength.new 1 0) buffers (0, 0) capacity).

(** ** Read-only methods
    An argument per load: [len] loads the enqueuing word, from [q], and then the field
    [capacity], from [q'], the queue at a later instant of the execution. *)
Definition queue_capacity q : Z := q_capacity q.

Definition queue_len q q' : Z :=
  saturating_sub (queue_capacity q')
    (EnqueuingCapacity.remaining_capacity (enqueuing_capacity q)).

Definition queue_is_empty q q' : bool := queue_len q q' =? 0.

Definition queue_is_closed q : bool :=
  EnqueuingCapacity.is_closed (enqueuing_capacity q).

(** ** [try_enqueue] *)
Definition enq_start q (value : V) : next :=
  if size value =? 0 then Ret (q, EnqDone (Ok tt), [])
  else Ret (q, EnqLoop value (enqueuing_capacity q) None, []).

(** One turn of the compare-and-swap loop; [spurious]: the weak exchange
    fails although the word is the expected one. *)
Definition enq_loop (spurious : bool) q (value : V) (enqueuing : Z)
    (backoff : option Z) : next :=
  if EnqueuingCapacity.is_closed enqueuing
  then Ret (q, EnqDone (Err (TryEnqueueError.Closed value)), [])
  else
    match EnqueuingCapacity.try_reserve enqueuing (size value) with
    | None => Ret (q, EnqDone (Err (TryEnqueueError.InsufficientCapacity value)), [])
    | Some next_enq =>
        let backoff := (λ b, if b <? BACKOFF_LIMIT then b + 1 else b) <$> backoff in
        let enq := enqueuing_capacity q in
        if negb spurious && (enq =? enqueuing)
        then Ret (set_enqueuing q next_enq, EnqInsert value enqueuing,
                  [EvReserve value])
        else
          let backoff :=
            if EnqueuingCapacity.buffer_index next_enq =?
               EnqueuingCapacity.buffer_index enq
            then Some (default 0 backoff) else None in
          Ret (q, EnqLoop value enq backoff, [])
    end.

Definition enq_insert q (value : V) (enqueuing : Z) : next :=
  let i := EnqueuingCapacity.buffer_index enqueuing in
  let buffer := sel i (buffers q) in
  let! index := usize_sub (capacity buffer)
                  (EnqueuingCapacity.remaining_capacity enqueuing) in
  let! buffer := insert_into value buffer index in
  Ret (set_buffer q i buffer, EnqAdd value enqueuing, []).

Definition enq_add q (value : V) (enqueuing : Z) : next :=
  let i := EnqueuingCapacity.buffer_index enqueuing in
  Ret (set_buffer_length q i (wrapping_add (sel i (buffers_length q)) (size value)),
       EnqNotify, []).

Definition enq_notify q : next :=
  Ret (q, EnqDone (Ok tt), [EvNotifyDequeue]).

(** ** [try_dequeue_internal] *)
(** The closure of [try_dequeue_and_resize]: its insertion loop, and the
    values that the loop inserts. *)
Fixpoint insert_values (values : list V) (buffer_mut : B) (length : Z)
    : outcome (B * Z) :=
  match values with
  | [] => Ret (buffer_mut, length)
  | value :: values =>
      if size value =? 0 then insert_values values buffer_mut length
      else if capacity buffer_mut <? size value then Ret (buffer_mut, length)
      else
        let! buffer_mut := insert_into value buffer_mut length in
        let! length := usize_add length (size value) in
        insert_values values buffer_mut length
  end.

Fixpoint inserted_values (cap : Z) (values : list V) : list V :=
  match values with
  | [] => []
  | value :: values =>
      if size value =? 0 then inserted_values cap values
      else if cap <? size value then []
      else value :: inserted_values cap values
  end.

Definition resized_capa (args : resize_args V) (buffer_mut : B) : option Z :=
  capa ← ra_capacity args; if capa =? capacity buffer_mut then None else Some capa.

Definition resize_buffer (rs : B → Z → B) (args : resize_args V) (buffer_mut : B)
    : outcome B :=
  match resized_capa args buffer_mut with
  | Some capa => EnqueuingCapacity.check_overflow capa ;;! Ret (rs buffer_mut capa)
  | None => Ret buffer_mut
  end.

Definition resize_closure (rs : B → Z → B) (args : resize_args V) (buffer_mut : B)
    : outcome (B * bool * Z) :=
  let resized := is_some (resized_capa args buffer_mut) in
  let! buffer_mut := resize_buffer rs args buffer_mut in
  let! (buffer_mut, length) :=
    match ra_insert args with
    | Some values => insert_values values buffer_mut 0
    | None => Ret (buffer_mut, 0)
    end in
  Ret (buffer_mut, resized, length).

(** The closure as the parameter [resize] of [try_dequeue_internal]; a
    buffer without [Resize] has no [try_dequeue_and_resize]. *)
Definition apply_resize (rz : option (resize_args V)) (next_buffer : B)
    : outcome (B * bool * Z) :=
  match rz, resize with
  | Some args, Some rs => resize_closure rs args next_buffer
  | _, _ => Ret (next_buffer, false, 0)
  end.

Definition deq_start q (rz : option (resize_args V)) : next :=
  let old := dequeuing_length q in
  let q := set_dequeuing q DEQUEUING_LOCKED in
  match DequeuingLength.try_from_atomic old with
  | Some dequeuing => Ret (q, DeqInternal dequeuing rz, [])
  | None => Ret (q, DeqErr TryDequeueError.Conflict, [])
  end.

Definition deq_internal q (dequeuing : Z) (rz : option (resize_args V)) : next :=
  let len := DequeuingLength.buffer_len dequeuing in
  if len =? 0 then Ret (q, DeqResize dequeuing rz, [])
  else Ret (q, DeqSpin (DequeuingLength.buffer_index dequeuing) len SPIN_LIMIT, []).

Definition deq_resize q (dequeuing : Z) (rz : option (resize_args V)) : next :=
  let i := DequeuingLength.buffer_index dequeuing in
  let! (next_buffer, resized, inserted_length) :=
    apply_resize rz (sel i (buffers q)) in
  Ret (set_buffer q i next_buffer,
       DeqAddInserted (mk_deq_locals dequeuing resized inserted_length
                         (capacity next_buffer)),
       [EvPreload (inserted_values (capacity next_buffer)
                     (default [] (rz ≫= ra_insert)))]).

Definition deq_add_inserted q (d : deq_locals) : next :=
  let i := DequeuingLength.buffer_index (dl_dequeuing d) in
  let q := if 0 <? dl_inserted d
           then set_buffer_length q i
                  (wrapping_add (sel i (buffers_length q)) (dl_inserted d))
           else q in
  Ret (q, DeqLoad d, []).

Definition deq_load q (d : deq_locals) : next :=
  let enqueuing := enqueuing_capacity q in
  (* debug_assert_ne! *)
  assert (negb (DequeuingLength.buffer_index (dl_dequeuing d) =?
                EnqueuingCapacity.buffer_index enqueuing)) ;;!
  Ret (q, DeqCheck d enqueuing, []).

Definition deq_check q (d : deq_locals) (enqueuing : Z) : next :=
  let capacity := capacity (sel (EnqueuingCapacity.buffer_index enqueuing) (buffers q)) in
  if (EnqueuingCapacity.remaining_capacity enqueuing =? capacity)
     && negb (dl_resized d) && (dl_inserted d =? 0)
  then Ret (q, DeqRestore d enqueuing, [])
  else
    let! remaining := usize_sub (dl_next_capa d) (dl_inserted d) in
    let! next_enqueuing :=
      EnqueuingCapacity.new (DequeuingLength.buffer_index (dl_dequeuing d)) remaining in
    Ret (q, DeqSwap d enqueuing capacity next_enqueuing 0, []).

Definition deq_restore q (d : deq_locals) (enqueuing : Z) : next :=
  Ret (set_dequeuing q (dl_dequeuing d),
       DeqErr (if EnqueuingCapacity.is_closed enqueuing
               then TryDequeueError.Closed else TryDequeueError.Empty), []).

Definition deq_swap (spurious : bool) q (d : deq_locals)
    (enqueuing capacity next_enqueuing backoff : Z) : next :=
  let enq := enqueuing_capacity q in
  if negb spurious && (enq =? enqueuing)
  then Ret (set_enqueuing q (EnqueuingCapacity.with_closed next_enqueuing enqueuing),
            DeqCapLoad d enqueuing capacity, [EvSwap])
  else
    let backoff :=
      if EnqueuingCapacity.remaining_capacity enq =? 0 then backoff
      else if backoff <? BACKOFF_LIMIT then backoff + 1 else backoff in
    Ret (q, DeqSwap d enq capacity next_enqueuing backoff, []).

Definition deq_cap_load q (d : deq_locals) (enqueuing capacity : Z) : next :=
  if q_capacity q =? dl_next_capa d
  then Ret (q, DeqNotify d enqueuing capacity, [])
  else Ret (q, DeqCapStore d enqueuing capacity, []).

Definition deq_cap_store q (d : deq_locals) (enqueuing capacity : Z) : next :=
  Ret (set_capacity q (dl_next_capa d), DeqNotify d enqueuing capacity, []).

Definition deq_notify q (d : deq_locals) (enqueuing capacity : Z) : next :=
  Ret (q, DeqMatch d enqueuing capacity, [EvNotifyEnqueue]).

Definition deq_match q (d : deq_locals) (enqueuing capacity : Z) : next :=
  let i := EnqueuingCapacity.buffer_index enqueuing in
  let! len := usize_sub capacity (EnqueuingCapacity.remaining_capacity enqueuing) in
  if negb (len =? 0) then Ret (q, DeqSpin i len SPIN_LIMIT, [])
  else if 0 <? dl_inserted d
  then Ret (q, DeqInternal (DequeuingLength.new i 0) None, [])
  else assert (dl_resized d) ;;! Ret (q, DeqAck i, []).

Definition deq_ack q (i : Z) : next :=
  Ret (set_dequeuing q (DequeuingLength.new i 0), DeqErr TryDequeueError.Empty, []).

(** ** [try_dequeue_spin]: one turn of the loop per unit of [n] *)
Definition deq_spin q (i length : Z) (n : nat) : next :=
  match n with
  | Datatypes.O => Ret (q, DeqSave i length, [])
  | Datatypes.S n =>
      let buffer_len := sel i (buffers_length q) in
      if length <=? buffer_len
      then Ret (q, DeqTake i (Range (buffer_len - length) buffer_len), [])
      else Ret (q, DeqSpin i length n, [])
  end.

Definition deq_take q (i : Z) (r : range) : next :=
  let! sl := slice (sel i (buffers q)) r in
  Ret (q, Slice (mk_BufferSlice i r sl), []).

Definition deq_save q (i length : Z) : next :=
  Ret (set_dequeuing q (DequeuingLength.new i length),
       DeqErr TryDequeueError.Pending, []).

(** ** [release], [requeue], [get_slice], [remove] *)
Definition rel_clear q (i : Z) (r : range) : next :=
  let! buffer := clear (sel i (buffers q)) r in
  Ret (set_buffer q i buffer, RelLen i, []).

Definition rel_len q (i : Z) : next :=
  Ret (set_buffer_length q i 0, RelUnlock i, []).

Definition rel_unlock q (i : Z) : next :=
  Ret (set_dequeuing q (DequeuingLength.new i 0), Idle, []).

Definition queue_requeue q (i : Z) (r : range) : next :=
  let! length := usize_sub (r_end r) (r_start r) in
  if 0 <? length
  then Ret (set_dequeuing q (DequeuingLength.new i length), Idle, [])
  else Ret (q, RelClear i r, []).

Definition get_slice q (it : BufferIter) : next :=
  let! sl := slice (sel (it_buffer_index it) (buffers q)) (it_range it) in
  Ret (q, Slice (mk_BufferSlice (it_buffer_index it) (it_range it) sl), []).

(** [slice[k] = x] through [DerefMut for BufferSlice]: the slice is a mutable borrow
    of the buffer, so the buffer has the element at once. *)
Definition slice_assign q (bs : BufferSlice S) (k : Z) (x : E) : next :=
  let i := bs_buffer_index bs in
  match slice_mut with
  | None => UB
  | Some ops =>
      let! (buffer, sl) := slice_set ops (sel i (buffers q)) (bs_range bs) k x in
      Ret (set_buffer q i buffer, Slice (mk_BufferSlice i (bs_range bs) sl),
           [EvAssign (Z.to_nat k) x])
  end.

(** [Queue::remove] and the rest of [OwnedBufferIter::next]. *)
Definition iter_remove q (it : BufferIter) : next :=
  let i := it_buffer_index it in
  let start := r_start (it_range it) in
  match remove with
  | None => UB
  | Some rm =>
      (* debug_assert_eq! *)
      assert (dequeuing_length q =? DEQUEUING_LOCKED) ;;!
      let! (buffer, value) := rm (sel i (buffers q)) start in
      Ret (set_buffer q i buffer,
           Iter (mk_BufferIter i (Range (start + 1) (r_end (it_range it))))
             (Some (Some value)),
           [EvNext value])
  end.

(** ** [close] and [reopen] *)
Definition close_or q : next :=
  Ret (set_enqueuing q (EnqueuingCapacity.close (enqueuing_capacity q)),
       CloseNotifyDeq, []).

Definition reopen_and q : next :=
  Ret (set_enqueuing q (EnqueuingCapacity.reopen (enqueuing_capacity q)), Idle, []).

(** ** One step of a call; [None] for a thread at rest *)
Definition step (spurious : bool) q (p : pc) : option next :=
  match p with
  | EnqStart v => Some (enq_start q v)
  | EnqLoop v enq b => Some (enq_loop spurious q v enq b)
  | EnqInsert v enq => Some (enq_insert q v enq)
  | EnqAdd v enq => Some (enq_add q v enq)
  | EnqNotify => Some (enq_notify q)
  | DeqStart rz => Some (deq_start q rz)
  | DeqInternal deq rz => Some (deq_internal q deq rz)
  | DeqResize deq rz => Some (deq_resize q deq rz)
  | DeqAddInserted d => Some (deq_add_inserted q d)
  | DeqLoad d => Some (deq_load q d)
  | DeqCheck d enq => Some (deq_check q d enq)
  | DeqRestore d enq => Some (deq_restore q d enq)
  | DeqSwap d enq capa next b => Some (deq_swap spurious q d enq capa next b)
  | DeqCapLoad d enq capa => Some (deq_cap_load q d enq capa)
  | DeqCapStore d enq capa => Some (deq_cap_store q d enq capa)
  | DeqNotify d enq capa => Some (deq_notify q d enq capa)
  | DeqMatch d enq capa => Some (deq_match q d enq capa)
  | DeqAck i => Some (deq_ack q i)
  | DeqSpin i len n => Some (deq_spin q i len n)
  | DeqTake i r => Some (deq_take q i r)
  | DeqSave i len => Some (deq_save q i len)
  | RelClear i r => Some (rel_clear q i r)
  | RelLen i => Some (rel_len q i)
  | RelUnlock i => Some (rel_unlock q i)
  | Requeue i r => Some (queue_requeue q i r)
  | SliceSet bs k x => Some (slice_assign q bs k x)
  | IterRemove it => Some (iter_remove q it)
  | GetSlice it => Some (get_slice q it)
  | CloseOr => Some (close_or q)
  | CloseNotifyDeq => Some (Ret (q, CloseNotifyEnq, [EvNotifyDequeue]))
  | CloseNotifyEnq => Some (Ret (q, Idle, [EvNotifyEnqueue]))
  | ReopenAnd => Some (reopen_and q)
  | Idle | EnqDone _ | DeqErr _ | Slice _ | Iter _ _ | Panicked | Undefined => None
  end.

(** A thread that may call a method of the queue. *)
Definition ready (p : pc) : bool :=
  match p with Idle | EnqDone _ | DeqErr _ => true | _ => false end.

(** ** The handles of [src/src/buffer.rs] *)
(** [Drop for BufferSlice]; the caller is done with the content. *)
Definition slice_drop (bs : BufferSlice S) : pc * list event :=
  (RelClear (bs_buffer_index bs) (bs_range bs), [EvRelease (bs_slice bs)]).

(** [DerefMut for BufferSlice]; out of the slice, [slice[k] = x] panics in the
    caller before it writes: it is not a step of the program. *)
Definition slice_deref_mut (bs : BufferSlice S) (k : Z) (x : E) : option (pc * list event) :=
  if (0 <=? k) && (k <? r_end (bs_range bs) - r_start (bs_range bs))
  then Some (SliceSet bs k x, []) else None.

Definition slice_requeue (bs : BufferSlice S) : pc * list event :=
  (Requeue (bs_buffer_index bs) (bs_range bs), []).

Definition slice_into_iter (bs : BufferSlice S) : pc * list event :=
  (Iter (mk_BufferIter (bs_buffer_index bs) (bs_range bs)) None, []).

(** [next] up to the call of [Queue::remove]. *)
Definition iter_next (it : BufferIter) : pc * list event :=
  if range_is_empty (it_range it) then (Iter it (Some None), [])
  else (IterRemove it, []).

(** [size_hint], that of a [Range<usize>]. *)
Definition iter_size_hint (it : BufferIter) : Z * option Z :=
  let r := it_range it in
  let n := if r_start r <? r_end r then r_end r - r_start r else 0 in
  (n, Some n).

(** [Drop for OwnedBufferIter] *)
Definition iter_drop (it : BufferIter) : pc * list event :=
  (Requeue (it_buffer_index it) (it_range it), []).

Definition iter_into_slice (it : BufferIter) : pc * list event := (GetSlice it, []).

(** [with_owned]: the iterator continues behind another owner of its queue. The
    [assert!] comes after the [ManuallyDrop], so its failure drops nothing. *)
Definition iter_with_owned (same : bool) (it : BufferIter) : pc * list event :=
  if same then (Iter it None, []) else (Panicked, []).

(** Start a call. Moving out of a handle ([drop], [requeue], [into_iter],
    [into_slice], [with_owned]) ends it; dropping a slice is where its content is
    consumed. [into_iter] needs [B: Drain], and [try_dequeue_and_resize]
    needs [B: Resize]; the elements of a slice are mutable when [slice_mut] says so. *)
Definition start_call (p : pc) (c : call V E) : option (pc * list event) :=
  match c, p with
  | TryEnqueue v, _ => if ready p then Some (EnqStart v, []) else None
  | TryDequeue, _ => if ready p then Some (DeqStart None, []) else None
  | TryDequeueAndResize args, _ =>
      if ready p && is_some resize
      then Some (DeqStart (Some args), []) else None
  | Close, _ => if ready p then Some (CloseOr, []) else None
  | Reopen, _ => if ready p then Some (ReopenAnd, []) else None
  | SliceAssign k x, Slice bs =>
      if is_some (slice_mut (B := B) (S := S) (E := E)) then slice_deref_mut bs k x else None
  | SliceDrop, Slice bs => Some (slice_drop bs)
  | SliceRequeue, Slice bs => Some (slice_requeue bs)
  | SliceIntoIter, Slice bs => if is_some remove then Some (slice_into_iter bs) else None
  | IterNext, Iter it _ => Some (iter_next it)
  | IterDrop, Iter it _ => Some (iter_drop it)
  | IterIntoSlice, Iter it _ => Some (iter_into_slice it)
  | IterWithOwned same, Iter it _ => Some (iter_with_owned same it)
  | _, _ => None
  end.
End Machine.

(** A step of the queue, opened. [enq_start] and [enq_loop], whose cases are often
    treated apart, come with the second tactic only. *)
Ltac unfold_call_in H :=
  unfold enq_insert, enq_add, enq_notify, deq_start, deq_internal, deq_resize,
    deq_add_inserted, deq_load, deq_check, deq_restore, deq_cap_load, deq_cap_store,
    deq_notify, deq_match, deq_ack, deq_spin, deq_take, deq_save, rel_clear, rel_len,
    rel_unlock, queue_requeue, get_slice, slice_assign, iter_remove, deq_swap, close_or, reopen_and in H.
Ltac unfold_step_in H := unfold enq_start, enq_loop in H; unfold_call_in H.
Ltac unfold_step :=
  unfold enq_start, enq_loop, enq_insert, enq_add, enq_notify, deq_start, deq_internal, deq_resize,
    deq_add_inserted, deq_load, deq_check, deq_restore, deq_cap_load, deq_cap_store,
    deq_notify, deq_match, deq_ack, deq_spin, deq_take, deq_save, rel_clear, rel_len,
    rel_unlock, queue_requeue, get_slice, slice_assign, iter_remove, deq_swap, close_or, reopen_and.

(** The start of a call, opened. *)
Ltac unfold_start_in H :=
  unfold start_call, slice_drop, slice_deref_mut, slice_requeue, slice_into_iter, iter_next, iter_drop,
    iter_into_slice, iter_with_owned in H.
