(* ===== verification/Machine.v ===== *)
(** * Interleavings of calls on one queue

    A configuration is a queue and the program counters of its threads. One
    action starts a call of a thread or runs it to its next atomic step, so an
    [execution] is any sequentially consistent interleaving of calls. [exec]
    runs a schedule. *)

From S2P Require Import Prelude PackedWords Errors Buffers Queue.
#[local] Open Scope Z_scope.

Section Config.
Context {B S V E : Type}.
Context `{Buffer B S, InsertIntoBuffer B V, Resize B, Drain B E, SliceMut B S E}.

Abbreviation pc := (pc S V E).
Abbreviation event := (event S V E).

Record config : Type := mk_config {
  queue : Queue B;
  threads : gmap nat pc;
}.

Inductive action : Type :=
  | Call (c : call V E)
  | Run (spurious : bool).

Definition set_thread (ths : gmap nat pc) (t : nat) (p : pc) : gmap nat pc :=
  <[t := p]> ths.

(** Action [a] of thread [t]: the next configuration and the events, or
    [None] when the thread cannot do it. A panicking step leaves the shared
    state alone: what it did to a buffer before panicking is only visible
    through that buffer, which the thread still guards. *)
Definition act (c : config) (t : nat) (a : action) : option (config * list event) :=
  p ← threads c !! t;
  match a with
  | Call m =>
      '(p', evs) ← start_call p m;
      Some (mk_config (queue c) (set_thread (threads c) t p'), evs)
  | Run spurious =>
      o ← step spurious (queue c) p;
      Some match o with
           | Ret (q', p', evs) => (mk_config q' (set_thread (threads c) t p'), evs)
           | Panic => (mk_config (queue c) (set_thread (threads c) t Panicked), [])
           | UB => (mk_config (queue c) (set_thread (threads c) t Undefined), [])
           end
  end.

(** What a step gives: the queue, the program point and the events after it. *)
Definition queue_after (q : Queue B) (o : outcome (Queue B * pc * list event)) : Queue B :=
  match o with Ret (q', _, _) => q' | _ => q end.
Definition events_of (o : outcome (Queue B * pc * list event)) : list event :=
  match o with Ret (_, _, evs) => evs | _ => [] end.
Definition pc_after (o : outcome (Queue B * pc * list event)) : pc :=
  match o with Ret (_, p', _) => p' | Panic => Panicked | UB => Undefined end.

(** Run a schedule. *)
Fixpoint exec (c : config) (sched : list (nat * action))
    : option (config * list event) :=
  match sched with
  | [] => Some (c, [])
  | (t, a) :: sched =>
      '(c1, evs1) ← act c t a;
      '(c2, evs2) ← exec c1 sched;
      Some (c2, evs1 ++ evs2)
  end.

(** The executions whose actions satisfy [ok], with their trace. *)
Inductive execution (ok : action → Prop) (c0 : config)
    : list event → config → Prop :=
  | execution_nil : execution ok c0 [] c0
  | execution_snoc tr c t a c' evs :
      execution ok c0 tr c → ok a → act c t a = Some (c', evs) →
      execution ok c0 (tr ++ evs) c'.

(** A new queue shared by [n] threads at rest. *)
Definition initial (q : Queue B) (n : nat) : config :=
  mk_config q (map_seq 0 (replicate n Idle)).

Lemma execution_cons ok c0 t a c1 evs1 tr c :
  ok a → act c0 t a = Some (c1, evs1) →
  execution ok c1 tr c → execution ok c0 (evs1 ++ tr) c.
Proof.
  intros Hok Ha Hex. induction Hex as [|tr c t' a' c' evs Hex IH Hok' Ha'].
  - rewrite <- (app_nil_l evs1), app_nil_r.
    econstructor; eauto using execution_nil.
  - rewrite app_assoc. econstructor; eauto.
Qed.

Lemma execution_app ok (c0 c1 c2 : config) tr1 tr2 :
  execution ok c0 tr1 c1 → execution ok c1 tr2 c2 → execution ok c0 (tr1 ++ tr2) c2.
Proof.
  intros Hex1 Hex2. induction Hex2 as [|tr c t a c' evs Hex IH Hok Ha]; [by rewrite app_nil_r|].
  rewrite (assoc_L (++)). by econstructor.
Qed.

(** Every schedule is an execution. *)
Lemma exec_execution (ok : action → Prop) sched : ∀ c0 c tr,
  Forall (λ ta, ok ta.2) sched →
  exec c0 sched = Some (c, tr) → execution ok c0 tr c.
Proof.
  induction sched as [|[t a] sched IH]; intros c0 c tr Hok Hex; simpl in Hex.
  - injection Hex as <- <-. constructor.
  - apply Forall_cons in Hok as [Ha Hok]. simpl in Ha.
    apply bind_Some in Hex as ([c1 evs1] & Hact & Hex).
    apply bind_Some in Hex as ([c2 evs2] & Hex & [= <- <-]).
    eapply execution_cons; eauto.
Qed.
End Config.
Arguments config : clear implicits.
Arguments action : clear implicits.
