(* ===== verification/Scenario.v ===== *)
(** * Concrete executions

    Schedules of two or three threads on queues of small [VecBuffer]s, run by
    [exec]; the witnesses of the other files apply their theorems to them. *)

From S2P Require Import Prelude PackedWords Errors Buffers CellBuffers Queue Machine.
#[local] Open Scope Z_scope.

Abbreviation buf := (VecBuffer.t nat).
Abbreviation val := (cell_value nat).
Abbreviation vconfig := (config buf (list nat) val nat).
Abbreviation vevent := (event (list nat) val nat).

(** A queue of capacity [c], and [n] threads. *)
Definition vec_queue (c : Z) : Queue buf :=
  match queue_with_capacity VecBuffer.resize c with
  | Ret q => q
  | _ => mk_Queue 0 0 (VecBuffer.default, VecBuffer.default) (0, 0) 0
  end.

Definition vec_initial (c : Z) (n : nat) : vconfig := initial (vec_queue c) n.

(** [n] steps of thread [t]. *)
Definition runs (t n : nat) : list (nat * action val nat) := replicate n (t, Run false).

Definition scenario (c : Z) (n : nat) (sched : list (nat * action val nat))
    : vconfig * list vevent :=
  default (vec_initial c n, []) (exec (vec_initial c n) sched).

(** Thread 0 enqueues, thread 1 enqueues meanwhile (its insertion overtakes),
    and thread 2 dequeues what both reserved. *)
Definition sched_interleaved : list (nat * action val nat) :=
  [(0%nat, Call (TryEnqueue (VArray [1; 2]%nat)))] ++ runs 0 2 ++
  [(1%nat, Call (TryEnqueue (VArray [3]%nat)))] ++ runs 1 5 ++ runs 0 3 ++
  [(2%nat, Call TryDequeue)] ++ runs 2 12.

(** The same, with thread 0 stopped before its insertion. *)
Definition sched_pending : list (nat * action val nat) :=
  [(0%nat, Call (TryEnqueue (VArray [1; 2]%nat)))] ++ runs 0 2 ++
  [(1%nat, Call (TryEnqueue (VArray [3]%nat)))] ++ runs 1 2 ++
  [(2%nat, Call TryDequeue)] ++ runs 2 10.

(** The dequeuer drops its slice, and one more element is enqueued. *)
Definition sched_released : list (nat * action val nat) :=
  sched_interleaved ++ [(2%nat, Call SliceDrop)] ++ runs 2 3 ++
  [(0%nat, Call (TryEnqueue (VIter (into_value_iter [4]%nat))))] ++ runs 0 5.

(** Thread 0 is about to reserve. *)
Definition sched_reserving : list (nat * action val nat) :=
  [(0%nat, Call (TryEnqueue (VArray [1; 2]%nat)))] ++ runs 0 1.

(** The queue is closed while thread 0 is about to reserve. *)
Definition sched_closed : list (nat * action val nat) :=
  [(0%nat, Call (TryEnqueue (VArray [1; 2]%nat)))] ++ runs 0 1 ++
  [(1%nat, Call Close)] ++ runs 1 3.

(** The dequeuer spins, and the two insertions it waits for are done. *)
Definition sched_spinning : list (nat * action val nat) := sched_pending ++ runs 0 3 ++ runs 1 3.

(** What was inserted is consumed, the queue is closed, and a dequeue finds nothing. *)
Definition sched_emptied : list (nat * action val nat) :=
  sched_interleaved ++ [(2%nat, Call SliceDrop)] ++ runs 2 3 ++ [(1%nat, Call Close)] ++ runs 1 3 ++
  [(2%nat, Call TryDequeue)] ++ runs 2 6.

(** The configuration after one action, and its events. *)
Definition after (c : vconfig) (t : nat) (a : action val nat) : vconfig * list vevent :=
  default (c, []) (act c t a).

Example scenario_interleaved :
  (threads (scenario 4 3 sched_interleaved).1 !! 2%nat : option (pc (list nat) val nat))
    = Some (Slice (mk_BufferSlice 0 (Range 0 3) [1; 2; 3]%nat)).
Proof. vm_compute. reflexivity. Qed.

(** The dequeuer is spinning while thread 0 has not inserted. *)
Example scenario_pending :
  (threads (scenario 4 3 sched_pending).1 !! 2%nat : option (pc (list nat) val nat))
    = Some (DeqSpin 0 3 64).
Proof. vm_compute. reflexivity. Qed.
