(* ===== verification/Invariant.v ===== *)
(** * The invariant of the queue under every interleaving

    Ghost state: for each of the two buffers, the reservation log (what was
    reserved since the buffer was last empty, in the order of the
    compare-and-swaps), the acknowledged positions (those counted in
    [buffers_length]), the slots inserted, and how many were drained. The
    invariant ties the packed words, the buffers and the program points of all
    threads to it; [Inv_act] is its preservation by every action. *)

From S2P Require Import Prelude PackedWords Errors Buffers Queue Machine.
#[local] Open Scope Z_scope.

(** ** Intervals as finite sets *)
Definition seg (off n : Z) : gset Z := list_to_set (seqZ off n).

Lemma elem_of_seg j off n : j ∈ seg off n ↔ off ≤ j < off + n.
Proof. unfold seg. rewrite elem_of_list_to_set, elem_of_seqZ. done. Qed.

Lemma size_seg off n : 0 ≤ n → Z.of_nat (set_size (seg off n)) = n.
Proof.
  intros. unfold seg. rewrite size_list_to_set by apply NoDup_seqZ.
  rewrite length_seqZ. lia.
Qed.

Lemma subseteq_seg_full (X : gset Z) n :
  0 ≤ n → X ⊆ seg 0 n → n ≤ Z.of_nat (set_size X) → X = seg 0 n.
Proof.
  intros Hn Hsub Hsz. apply set_subseteq_size_eq; [done|].
  pose proof (size_seg 0 n Hn). lia.
Qed.

(** ** Ghost state *)
Section Ghost.
Context {B S V E Ob : Type}.
Context `{L : BufferLaws B S V E Ob}.
(** [strict]: every resizing call fits its buffer (see [fits]). *)
Variable strict : bool.

Abbreviation pc := (pc S V E).
Abbreviation event := (event S V E).

Record gbuf : Type := mk_gbuf {
  g_log : list E;          (* reserved, in order *)
  g_done : gset Z;         (* positions acknowledged *)
  g_cont : gmap Z E;       (* slots inserted *)
  g_drained : Z;           (* slots drained from the front *)
}.

Definition g_fresh : gbuf := mk_gbuf [] ∅ ∅ 0.
Definition g_len (g : gbuf) : Z := Z.of_nat (length (g_log g)).
Definition g_rest (g : gbuf) : list E := drop (Z.to_nat (g_drained g)) (g_log g).
Definition all_done (g : gbuf) : Prop := ∀ j, 0 ≤ j < g_len g → j ∈ g_done g.

(** A buffer and its length counter [n] agree with the ghost state. *)
Record buf_inv (b : B) (n : Z) (g : gbuf) : Prop := {
  bi_cap : capacity b < MAX_REMAINING;
  bi_rep : Rep b (g_cont g);
  bi_len : g_len g ≤ capacity b;
  bi_done : g_done g ⊆ seg 0 (g_len g);
  bi_size : n = Z.of_nat (set_size (g_done g));
  bi_cont j x : g_cont g !! j = Some x →
    g_drained g ≤ j ∧ g_log g !! Z.to_nat j = Some x;
  bi_done_cont j : j ∈ g_done g → g_drained g ≤ j → is_Some (g_cont g !! j);
  bi_drained : 0 ≤ g_drained g ≤ g_len g;
  bi_drained_done : 0 < g_drained g → all_done g;
}.

(** A reservation not acknowledged yet. *)
Record pending : Type := mk_pending {
  pd_buf : Z;
  pd_off : Z;
  pd_val : V;
  pd_inserted : bool;
}.
Definition pd_size (pd : pending) : Z := size (pd_val pd).

Definition pending_of (bs : B * B) (p : pc) : option pending :=
  let mk v enq ins :=
    let i := EnqueuingCapacity.buffer_index enq in
    Some (mk_pending i
            (capacity (sel i bs) - EnqueuingCapacity.remaining_capacity enq) v ins) in
  match p with
  | EnqInsert v enq => mk v enq false
  | EnqAdd v enq => mk v enq true
  | _ => None
  end.

Record pend_ok (g : gbuf) (pd : pending) : Prop := {
  po_buf : 0 ≤ pd_buf pd ≤ 1;
  po_off : g_drained g ≤ pd_off pd ∧ 0 ≤ pd_off pd;
  po_size : 0 < pd_size pd;
  po_valid : valid_value (pd_val pd);
  po_end : pd_off pd + pd_size pd ≤ g_len g;
  po_log k x : elems (pd_val pd) !! k = Some x →
    g_log g !! (Z.to_nat (pd_off pd) + k)%nat = Some x;
  po_done j : pd_off pd ≤ j < pd_off pd + pd_size pd → j ∉ g_done g;
  po_cont j : pd_off pd ≤ j < pd_off pd + pd_size pd →
    if pd_inserted pd then is_Some (g_cont g !! j) else g_cont g !! j = None;
}.

Definition pend_disjoint (p1 p2 : pending) : Prop :=
  pd_buf p1 = pd_buf p2 →
  pd_off p1 + pd_size p1 ≤ pd_off p2 ∨ pd_off p2 + pd_size p2 ≤ pd_off p1.

(** Slot [j] of buffer [i] belongs to the reservation a thread holds. *)
Definition covers (bs : B * B) (p : pc) (i j : Z) : Prop :=
  ∃ pd, pending_of bs p = Some pd ∧ pd_buf pd = i ∧
        pd_off pd ≤ j < pd_off pd + pd_size pd.

(** Reserved and not acknowledged yet. *)
Definition undone (g : gbuf) (j : Z) : Prop := 0 ≤ j < g_len g ∧ j ∉ g_done g.

(** ** Calls *)
Definition sizes (vs : list V) : Z := foldr (λ v z, size v + z) 0 vs.

(** A resizing call whose capacity is accepted and whose values fit it. A call that gives
    values and no capacity fits too if the buffer it finds has room for them; that is not
    known from its arguments, so such calls are only in the executions that are not
    [strict]. *)
Definition fits (args : resize_args V) : Prop :=
  (∀ c, ra_capacity args = Some c → c < shr usize_MAX 2) ∧
  (∀ vs, ra_insert args = Some vs →
     vs = [] ∨ ∃ c, ra_capacity args = Some c ∧ sizes vs ≤ c).

Definition args_ok (args : resize_args V) : Prop :=
  (∀ c, ra_capacity args = Some c → 0 ≤ c) ∧
  Forall valid_value (default [] (ra_insert args)) ∧
  (strict = true → fits args).

Definition rz_ok (rz : option (resize_args V)) : Prop :=
  ∀ args, rz = Some args → args_ok args ∧ is_some (resize (B := B)) = true.

Definition call_ok (c : call V E) : Prop :=
  match c with
  | TryEnqueue v => valid_value v
  | TryDequeueAndResize args => args_ok args
  | IterWithOwned same => same = true
  | _ => True
  end.

Definition action_ok (a : action V E) : Prop :=
  match a with Call c => call_ok c | Run _ => True end.

Definition pc_ok (p : pc) : Prop :=
  match p with
  | EnqStart v => valid_value v
  | EnqLoop v _ _ => valid_value v ∧ 0 < size v
  | DeqStart rz | DeqInternal _ rz | DeqResize _ rz => rz_ok rz
  | Iter _ _ | IterRemove _ => is_some (remove (B := B) (E := E)) = true
  | SliceSet _ _ _ => is_some (slice_mut (B := B) (S := S) (E := E)) = true
  | Undefined => False
  | _ => True
  end.

(** ** The thread that holds the dequeuing side *)
Definition is_holder (p : pc) : bool :=
  match p with
  | DeqInternal _ _ | DeqResize _ _ | DeqAddInserted _ | DeqLoad _ | DeqCheck _ _
  | DeqRestore _ _ | DeqSwap _ _ _ _ _ | DeqCapLoad _ _ _ | DeqCapStore _ _ _
  | DeqNotify _ _ _ | DeqMatch _ _ _ | DeqAck _ | DeqSpin _ _ _ | DeqTake _ _
  | DeqSave _ _ | Slice _ | SliceSet _ _ _ | RelClear _ _ | RelLen _ | RelUnlock _ | Requeue _ _
  | Iter _ _ | IterRemove _ | GetSlice _ | Panicked => true
  | _ => false
  end.

(** Inserting while resizing ran over the buffer: the call will panic. *)
Definition overrun (d : deq_locals) : bool := dl_next_capa d <? dl_inserted d.

(** The buffer being resized is not described any more. *)
Definition broken (p : pc) : bool :=
  match p with
  | DeqAddInserted d | DeqLoad d | DeqCheck d _ => overrun d
  | Panicked => true
  | _ => false
  end.

(** The length inserted while resizing is added to the counter later. *)
Definition lag (p : pc) : Z :=
  match p with DeqAddInserted d => dl_inserted d | _ => 0 end.

(** The [capacity] field lags between the swap and its update. *)
Definition cap_stale (p : pc) : bool :=
  match p with DeqCapLoad _ _ _ | DeqCapStore _ _ _ => true | _ => false end.

Definition deq_word_ok (d : Z) (g : gbuf) (w : Z) : Prop :=
  w = deq_enc d (g_len g - g_drained g) ∧
  (g_drained g = g_len g → g_log g = []).

Section Holder.
Variables (q : Queue B) (e : Z) (g : gbuf * gbuf) (pre held : list E).
Let d : Z := 1 - e.
Let gd : gbuf := sel d g.
Let ge : gbuf := sel e g.
Let cap_d : Z := capacity (sel d (buffers q)).
Let cap_e : Z := capacity (sel e (buffers q)).

(** Before the swap: the next buffer holds the preloaded elements. *)
Definition prepared (dl : deq_locals) : Prop :=
  held = [] ∧ dl_dequeuing dl = deq_enc d 0 ∧ 0 ≤ dl_next_capa dl ∧
  0 ≤ dl_inserted dl ∧ g_drained gd = 0 ∧ all_done gd ∧
  if overrun dl then strict = false ∧ g_log gd = []
  else dl_next_capa dl = cap_d ∧ g_log gd = pre ∧ dl_inserted dl = g_len gd.

(** After the swap: the dequeued buffer is complete up to acknowledgement. *)
Definition swapped (dl : deq_locals) (enq cap : Z) : Prop :=
  held = g_log gd ∧ g_drained gd = 0 ∧ cap = cap_d ∧
  EnqueuingCapacity.buffer_index enq = d ∧
  EnqueuingCapacity.remaining_capacity enq = cap - g_len gd ∧
  dl_next_capa dl = cap_e ∧
  (g_log gd = [] → dl_resized dl = true ∨ 0 < dl_inserted dl).

Definition spinning (i len : Z) : Prop :=
  held = g_rest gd ∧ i = d ∧ len = g_len gd - g_drained gd ∧ 0 < len.

Definition taken (i : Z) (r : range) : Prop :=
  i = d ∧ r = Range (g_drained gd) (g_len gd) ∧ all_done gd ∧ g_log gd ≠ [].

Definition holder_inv (p : pc) : Prop :=
  match p with
  | DeqInternal w _ => held = g_rest gd ∧ deq_word_ok d gd w
  | DeqResize w _ => held = [] ∧ w = deq_enc d 0 ∧ g_log gd = []
  | DeqAddInserted dl | DeqLoad dl => prepared dl
  | DeqCheck dl enq =>
      prepared dl ∧ EnqueuingCapacity.buffer_index enq = e ∧
      (g_log ge = [] → EnqueuingCapacity.remaining_capacity enq = cap_e)
  | DeqRestore dl enq =>
      prepared dl ∧ overrun dl = false ∧ dl_inserted dl = 0 ∧
      EnqueuingCapacity.remaining_capacity enq = cap_e
  | DeqSwap dl enq cap nxt _ =>
      prepared dl ∧ overrun dl = false ∧ cap = cap_e ∧
      nxt = enc false d (dl_next_capa dl - dl_inserted dl) ∧
      (dl_resized dl = true ∨ 0 < dl_inserted dl ∨ g_log ge ≠ [])
  | DeqCapLoad dl enq cap | DeqCapStore dl enq cap | DeqNotify dl enq cap
  | DeqMatch dl enq cap => swapped dl enq cap
  | DeqAck i => held = [] ∧ i = d ∧ g_log gd = []
  | DeqSpin i len _ | DeqSave i len => spinning i len
  | DeqTake i r => taken i r ∧ held = g_rest gd ∧ held ≠ []
  | Requeue i r => taken i r ∧ held = g_rest gd
  | Slice bs =>
      taken (bs_buffer_index bs) (bs_range bs) ∧ held = g_rest gd ∧
      view (bs_slice bs) = obs <$> g_rest gd
  | SliceSet bs k _ =>
      taken (bs_buffer_index bs) (bs_range bs) ∧ held = g_rest gd ∧
      0 ≤ k < g_len gd - g_drained gd
  | Iter it _ | GetSlice it =>
      taken (it_buffer_index it) (it_range it) ∧ held = g_rest gd
  | IterRemove it =>
      taken (it_buffer_index it) (it_range it) ∧ held = g_rest gd ∧
      g_drained gd < g_len gd
  | RelClear i r => taken i r ∧ held = []
  | RelLen i => held = [] ∧ i = d ∧ g_drained gd = g_len gd ∧ all_done gd
  | RelUnlock i => held = [] ∧ i = d ∧ g_log gd = []
  | Panicked => strict = false ∧ held = [] ∧ g_log gd = []
  | _ => False
  end.
End Holder.

(** ** History of a trace *)
Record hist : Type := mk_hist {
  h_enq : list E;          (* enqueued, in order *)
  h_pre : list E;          (* preloaded, enqueued by the next swap *)
  h_out : list Ob;         (* consumed, in order *)
}.

Definition hist_event (h : hist) (ev : event) : hist :=
  match ev with
  | EvReserve v => mk_hist (h_enq h ++ elems v) (h_pre h) (h_out h)
  | EvPreload vs => mk_hist (h_enq h) (concat (elems <$> vs)) (h_out h)
  | EvSwap => mk_hist (h_enq h ++ h_pre h) [] (h_out h)
  | EvRelease s => mk_hist (h_enq h) (h_pre h) (h_out h ++ view s)
  | EvNext x => mk_hist (h_enq h) (h_pre h) (h_out h ++ [obs x])
  | EvAssign k x => mk_hist (<[(length (h_out h) + k)%nat := x]> (h_enq h)) (h_pre h) (h_out h)
  | EvNotifyDequeue | EvNotifyEnqueue => h
  end.

Definition hist_of (tr : list event) : hist := foldl hist_event (mk_hist [] [] []) tr.

Lemma hist_of_app tr tr' : hist_of (tr ++ tr') = foldl hist_event (hist_of tr) tr'.
Proof. unfold hist_of. by rewrite foldl_app. Qed.

(** The elements enqueued and consumed by a trace. What is assigned through a slice
    replaces the element enqueued; the slice is what comes next to be consumed. *)
Definition enqueued (tr : list event) : list E := h_enq (hist_of tr).
Definition dequeued (tr : list event) : list Ob := h_out (hist_of tr).

(** ** The invariant *)
Record threads_inv (bs : B * B) (g : gbuf * gbuf) (ths : gmap nat pc) : Prop := {
  ti_pc t p : ths !! t = Some p → pc_ok p;
  ti_pend t p pd : ths !! t = Some p → pending_of bs p = Some pd →
    pend_ok (sel (pd_buf pd) g) pd;
  ti_disjoint t1 t2 p1 p2 pd1 pd2 : t1 ≠ t2 →
    ths !! t1 = Some p1 → ths !! t2 = Some p2 →
    pending_of bs p1 = Some pd1 → pending_of bs p2 = Some pd2 →
    pend_disjoint pd1 pd2;
  ti_cover i j : 0 ≤ i ≤ 1 → undone (sel i g) j →
    ∃ t p, ths !! t = Some p ∧ covers bs p i j;
}.

Definition unlocked (q : Queue B) (e : Z) (g : gbuf * gbuf) (held : list E)
    (ths : gmap nat pc) : Prop :=
  let d := 1 - e in
  (∀ t p, ths !! t = Some p → is_holder p = false) ∧
  deq_word_ok d (sel d g) (dequeuing_length q) ∧ held = g_rest (sel d g) ∧
  buf_inv (sel d (buffers q)) (sel d (buffers_length q)) (sel d g) ∧
  q_capacity q = capacity (sel e (buffers q)).

Definition locked_by (q : Queue B) (e : Z) (g : gbuf * gbuf) (pre held : list E)
    (ths : gmap nat pc) (t : nat) (p : pc) : Prop :=
  let d := 1 - e in
  dequeuing_length q = DEQUEUING_LOCKED ∧
  ths !! t = Some p ∧ is_holder p = true ∧
  (∀ t' p', ths !! t' = Some p' → is_holder p' = true → t' = t) ∧
  (broken p = false →
   buf_inv (sel d (buffers q)) (sel d (buffers_length q) + lag p) (sel d g)) ∧
  (cap_stale p = false → q_capacity q = capacity (sel e (buffers q))) ∧
  holder_inv q e g pre held p.

Definition enq_side (q : Queue B) (e : Z) (cl : bool) (g : gbuf * gbuf) : Prop :=
  0 ≤ e ≤ 1 ∧
  enqueuing_capacity q =
    enc cl e (capacity (sel e (buffers q)) - g_len (sel e g)) ∧
  buf_inv (sel e (buffers q)) (sel e (buffers_length q)) (sel e g) ∧
  g_drained (sel e g) = 0.

Definition Inv_with (q : Queue B) (ths : gmap nat pc) (h : hist)
    (e : Z) (cl : bool) (g : gbuf * gbuf) (held : list E) : Prop :=
  enq_side q e cl g ∧ threads_inv (buffers q) g ths ∧
  (unlocked q e g held ths ∨ ∃ t p, locked_by q e g (h_pre h) held ths t p) ∧
  obs <$> h_enq h = h_out h ++ (obs <$> held ++ g_log (sel e g)).

Definition Inv (c : config B S V E) (h : hist) : Prop :=
  ∃ e cl g held, Inv_with (queue c) (threads c) h e cl g held.
End Ghost.
