(* ===== verification/GhostLemmas.v ===== *)
(** * Ghost steps

    The three ghost updates of an enqueuer (reserve, insert, acknowledge) and
    those of the dequeuer, each with the facts of one buffer it preserves. The
    step lemmas of [Preservation] only compose them. *)

From S2P Require Import Prelude PackedWords Errors Buffers Queue Machine Invariant.
#[local] Open Scope Z_scope.

Section GhostLemmas.
Context {B S V E Ob : Type}.
Context `{L : BufferLaws B S V E Ob}.
Implicit Types (b : B) (g : gbuf (E := E)) (pd : pending (V := V)) (v : V).

(** ** One buffer *)
Section Buf.
Variables (b : B) (n : Z) (g : gbuf (E := E)).
Hypothesis HI : buf_inv b n g.

Lemma bi_count_le : 0 ≤ n ≤ g_len g.
Proof.
  rewrite (bi_size _ _ _ HI).
  pose proof (subseteq_size _ _ (bi_done _ _ _ HI)).
  pose proof (size_seg 0 (g_len g)). unfold g_len in *. lia.
Qed.

Lemma bi_full : g_len g ≤ n → all_done g.
Proof.
  intros Hn j Hj. rewrite (bi_size _ _ _ HI) in Hn.
  rewrite (subseteq_seg_full (g_done g) (g_len g));
    [|unfold g_len in *; lia|apply (bi_done _ _ _ HI)|done].
  apply elem_of_seg. lia.
Qed.

Lemma bi_full_count : all_done g → n = g_len g.
Proof.
  intros Hall. pose proof bi_count_le. rewrite (bi_size _ _ _ HI).
  assert (g_done g = seg 0 (g_len g)) as ->.
  { apply set_eq. intros j. split.
    - apply (bi_done _ _ _ HI).
    - rewrite elem_of_seg. intros. apply Hall. lia. }
  apply size_seg. lia.
Qed.

Lemma bi_cont_range :
  all_done g → ∀ j, is_Some (g_cont g !! j) ↔ g_drained g ≤ j < g_len g.
Proof.
  intros Hall j. split.
  - intros [x Hx]. destruct (bi_cont _ _ _ HI j x Hx) as [? Hl%lookup_lt_Some].
    pose proof (rep_bound _ _ _ _ (bi_rep _ _ _ HI) Hx). unfold g_len. lia.
  - intros Hj. apply (bi_done_cont _ _ _ HI); [|lia].
    apply Hall. pose proof (bi_drained _ _ _ HI). lia.
Qed.

(** The slots that remain to be consumed hold the rest of the log. *)
Lemma bi_cont_rest k x :
  all_done g → g_rest g !! k = Some x → g_cont g !! (g_drained g + Z.of_nat k) = Some x.
Proof.
  unfold g_rest. rewrite lookup_drop. intros Hall Hk.
  pose proof (lookup_lt_Some _ _ _ Hk). pose proof (bi_drained _ _ _ HI).
  destruct (proj2 (bi_cont_range Hall (g_drained g + Z.of_nat k))) as [y Hy];
    [unfold g_len; lia|].
  destruct (bi_cont _ _ _ HI _ _ Hy) as [_ Hl]. rewrite Hy. f_equal.
  replace (Z.to_nat (g_drained g + Z.of_nat k))
    with (Z.to_nat (g_drained g) + k)%nat in Hl by lia. congruence.
Qed.

Lemma bi_empty_cont : g_drained g = g_len g → g_cont g = ∅.
Proof.
  intros Hd. apply map_empty. intros j. apply eq_None_not_Some. intros [x Hx].
  destruct (bi_cont _ _ _ HI j x Hx) as [? Hl%lookup_lt_Some].
  pose proof (rep_bound _ _ _ _ (bi_rep _ _ _ HI) Hx). unfold g_len in *. lia.
Qed.

Lemma bi_empty_count : g_log g = [] → n = 0.
Proof. intros Hl. pose proof bi_count_le. unfold g_len in *. rewrite Hl in *. simpl in *. lia. Qed.

(** Taking the rest of a complete buffer as a slice. *)
Lemma slice_rest :
  all_done g → g_log g ≠ [] →
  ∃ sl, slice b (Range (g_drained g) (g_len g)) = Ret sl ∧ view sl = obs <$> g_rest g.
Proof.
  intros Hall Hne. pose proof (bi_drained _ _ _ HI) as Hdr.
  pose proof (bi_len _ _ _ HI) as Hlen.
  assert (Z.of_nat (length (g_rest g)) = g_len g - g_drained g) as Hrest.
  { unfold g_rest, g_len in *. rewrite length_drop. lia. }
  assert (0 < g_len g) as Hpos.
  { unfold g_len. destruct (g_log g); [done|]. simpl. lia. }
  destruct (slice_spec b (g_cont g) (g_drained g) (g_rest g)) as (sl & Hsl & Hv);
    [apply (bi_rep _ _ _ HI)|apply (bi_cap _ _ _ HI)|lia|lia|lia| |].
  - intros k x. by apply bi_cont_rest.
  - exists sl. split; [|done]. rewrite <- Hsl. do 2 f_equal. lia.
Qed.

Lemma g_rest_length : Z.of_nat (length (g_rest g)) = g_len g - g_drained g.
Proof.
  pose proof (bi_drained _ _ _ HI). unfold g_rest, g_len in *.
  rewrite length_drop. lia.
Qed.
End Buf.

Lemma g_len_nonneg g : 0 ≤ g_len g.
Proof. unfold g_len. lia. Qed.

Lemma g_len_nil g : g_len g = 0 ↔ g_log g = [].
Proof.
  unfold g_len. split; [|by intros ->]. intros. apply length_zero_iff_nil. lia.
Qed.

Lemma empty_all_done g : g_log g = [] → all_done g.
Proof. intros Hg j. unfold g_len. rewrite Hg. simpl. lia. Qed.

(** No reservation is pending on a buffer that is empty or complete. *)
Lemma all_done_no_pend g pd : all_done g → pend_ok g pd → False.
Proof.
  intros Hall HP. pose proof (po_end _ _ HP). pose proof (po_size _ _ HP).
  pose proof (po_off _ _ HP).
  apply (po_done _ _ HP (pd_off pd)); [lia|]. apply Hall. lia.
Qed.

Lemma empty_no_pend g pd : g_log g = [] → pend_ok g pd → False.
Proof. intros Hg. apply all_done_no_pend. by apply empty_all_done. Qed.

Lemma buf_inv_fresh b : Rep b ∅ → capacity b < MAX_REMAINING → buf_inv b 0 g_fresh.
Proof.
  intros HR Hc. split; simpl; try done; try set_solver.
  apply capacity_nonneg.
Qed.

(** A buffer preloaded with [pre] while it was resized. *)
Lemma buf_inv_preloaded b (pre : list E) n :
  Rep b (map_seqZ 0 pre) → capacity b < MAX_REMAINING →
  n = Z.of_nat (length pre) → n ≤ capacity b →
  buf_inv b (0 + n) (mk_gbuf pre (seg 0 n) (map_seqZ 0 pre) 0).
Proof.
  intros HR Hcap -> Hle. split; simpl; try done.
  - rewrite size_seg by lia. lia.
  - intros j x [? Hx]%lookup_map_seqZ_Some. by rewrite Z.sub_0_r in Hx.
  - intros j Hj%elem_of_seg ?. apply lookup_map_seqZ_is_Some. lia.
  - unfold g_len; simpl. lia.
Qed.

(** ** Clear and remove *)
Definition g_cleared g : gbuf := mk_gbuf (g_log g) (g_done g) ∅ (g_len g).

Lemma clear_step b n g :
  buf_inv b n g → all_done g →
  ∃ b', clear b (Range (g_drained g) (g_len g)) = Ret b' ∧ buf_inv b' n (g_cleared g) ∧
        capacity b' = capacity b.
Proof.
  intros HI Hall. pose proof (bi_drained _ _ _ HI).
  destruct (clear_spec b (g_cont g) (g_drained g) (g_len g)) as (b' & Hb' & Hc & HR);
    [apply (bi_rep _ _ _ HI)|lia|by eapply bi_cont_range|].
  exists b'. split; [done|]. split; [|done].
  destruct HI as [? ? ? Hd ? ? ? ? ?]. split; simpl; try done.
  - congruence.
  - unfold g_len in *; simpl. lia.
  - intros j Hj%Hd Hle. apply elem_of_seg in Hj. lia.
  - pose proof (g_len_nonneg g). unfold g_len in *; simpl. lia.
Qed.

Definition g_removed g : gbuf :=
  mk_gbuf (g_log g) (g_done g) (delete (g_drained g) (g_cont g)) (g_drained g + 1).

Lemma g_rest_removed g x :
  0 ≤ g_drained g → g_log g !! Z.to_nat (g_drained g) = Some x →
  g_rest g = x :: g_rest (g_removed g).
Proof.
  intros Hd Hx. unfold g_rest, g_removed; simpl.
  rewrite (drop_S _ _ _ Hx). do 2 f_equal. lia.
Qed.

Lemma remove_step rm b n g :
  remove = Some rm → buf_inv b n g → all_done g → g_drained g < g_len g →
  ∃ b' x, rm b (g_drained g) = Ret (b', x) ∧ buf_inv b' n (g_removed g) ∧
          g_rest g = x :: g_rest (g_removed g) ∧ capacity b' = capacity b.
Proof.
  intros Hrm HI Hall Hlt. pose proof (bi_drained _ _ _ HI).
  destruct (proj2 (bi_cont_range _ _ _ HI Hall (g_drained g))) as [x Hx]; [lia|].
  destruct (bi_cont _ _ _ HI _ _ Hx) as [_ Hl].
  destruct (remove_spec rm b (g_cont g) (g_drained g) x Hrm (bi_rep _ _ _ HI) Hx)
    as (b' & Hb' & Hc & HR).
  exists b', x. split; [done|]. split; [|split; [apply g_rest_removed; [lia|done]|done]].
  destruct HI as [? ? ? ? ? Hcont Hdc ? ?]. split; simpl; try done; try congruence.
  - unfold g_len in *; simpl. lia.
  - intros j y [Hne Hj]%lookup_delete_Some. destruct (Hcont j y Hj). split; [lia|done].
  - intros j Hj Hle. rewrite lookup_delete_ne by lia. apply Hdc; [done|lia].
  - unfold g_len in *; simpl. lia.
Qed.

(** ** Assign through the slice *)
Definition g_assign g (k : nat) (x : E) : gbuf :=
  mk_gbuf (<[(Z.to_nat (g_drained g) + k)%nat := x]> (g_log g)) (g_done g)
    (<[g_drained g + Z.of_nat k := x]> (g_cont g)) (g_drained g).

Lemma g_assign_len g k x : g_len (g_assign g k x) = g_len g.
Proof. unfold g_len, g_assign. simpl. by rewrite length_insert. Qed.

Lemma g_rest_assign g k x : g_rest (g_assign g k x) = <[k := x]> (g_rest g).
Proof.
  unfold g_rest, g_assign. simpl. rewrite drop_insert_ge by lia. f_equal. lia.
Qed.

Lemma assign_step ops b n g k x :
  slice_mut = Some ops → buf_inv b n g → all_done g → (k < length (g_rest g))%nat →
  ∃ b' sl, slice_set ops b (Range (g_drained g) (g_len g)) (Z.of_nat k) x = Ret (b', sl) ∧
    view sl = obs <$> <[k := x]> (g_rest g) ∧ capacity b' = capacity b ∧
    buf_inv b' n (g_assign g k x).
Proof.
  intros Hops HI Hall Hk. pose proof (bi_drained _ _ _ HI). pose proof (bi_len _ _ _ HI).
  pose proof (g_rest_length _ _ _ HI) as Hrl.
  destruct (slice_set_spec ops b (g_cont g) (g_drained g) (g_rest g) k x)
    as (b' & sl & Hset & Hv & Hc & HR); try (done || lia).
  { apply (bi_rep _ _ _ HI). }
  { apply (bi_cap _ _ _ HI). }
  { intros i y. by apply (bi_cont_rest _ _ _ HI). }
  exists b', sl. replace (g_drained g + _) with (g_len g) in Hset by lia.
  split; [done|]. split; [done|]. split; [done|].
  destruct HI as [? ? ? Hd ? Hcont Hdc ? Hdd].
  split; simpl; rewrite ?g_assign_len; try done; try congruence.
  - intros j y [[<- <-]|[Hne Hj]]%lookup_insert_Some.
    + split; [lia|]. replace (Z.to_nat (g_drained g + Z.of_nat k)) with
        (Z.to_nat (g_drained g) + k)%nat by lia. apply list_lookup_insert_eq.
      unfold g_len in *. lia.
    + destruct (Hcont j y Hj). split; [done|]. rewrite list_lookup_insert_ne by lia. done.
  - intros j Hj ?. rewrite lookup_insert_is_Some. destruct (decide (g_drained g + Z.of_nat k = j));
      [by left|right; auto].
  - intros Hpos j. rewrite g_assign_len. by apply Hdd.
Qed.

(** ** Reserve *)
Definition g_reserve g v : gbuf :=
  mk_gbuf (g_log g ++ elems v) (g_done g) (g_cont g) (g_drained g).

Lemma g_reserve_len g v : valid_value v → g_len (g_reserve g v) = g_len g + size v.
Proof.
  intros Hv. unfold g_len, g_reserve; simpl. rewrite length_app.
  destruct (valid_size v Hv) as [-> _]. lia.
Qed.

Lemma buf_inv_reserve b n g v :
  buf_inv b n g → valid_value v → g_len g + size v ≤ capacity b → g_drained g = 0 →
  buf_inv b n (g_reserve g v).
Proof.
  intros HI Hv Hfit Hdr0. pose proof (g_reserve_len g v Hv) as Hlen.
  destruct (valid_size v Hv) as [Hsz _].
  destruct HI as [? ? ? Hd ? Hc ? ? ?]. split; try done.
  - lia.
  - intros j Hj%Hd. apply elem_of_seg in Hj. apply elem_of_seg. lia.
  - intros j x Hj. destruct (Hc j x Hj). split; [done|].
    simpl. by apply lookup_app_l_Some.
  - simpl. lia.
  - simpl. lia.
Qed.

Lemma pend_ok_reserve g v pd :
  valid_value v → pend_ok g pd → pend_ok (g_reserve g v) pd.
Proof.
  intros Hv [? ? ? ? He Hl ? ?]. split; try done.
  - pose proof (g_reserve_len g v Hv). destruct (valid_size v Hv). lia.
  - intros k x Hk. simpl. apply lookup_app_l_Some. by apply Hl.
Qed.

Lemma pend_ok_new b n g v i :
  buf_inv b n g → valid_value v → 0 < size v → 0 ≤ i ≤ 1 →
  pend_ok (g_reserve g v) (mk_pending i (g_len g) v false).
Proof.
  intros HI Hv Hs Hi. pose proof (bi_drained _ _ _ HI). split; simpl; try done.
  - lia.
  - rewrite g_reserve_len by done. unfold pd_size. simpl. lia.
  - intros k x Hk. rewrite lookup_app_r by (unfold g_len; lia).
    rewrite <- Hk. f_equal. unfold g_len. lia.
  - intros j Hj Hin. apply (bi_done _ _ _ HI) in Hin. apply elem_of_seg in Hin. lia.
  - intros j Hj. apply eq_None_not_Some. intros [x Hx].
    destruct (bi_cont _ _ _ HI j x Hx) as [? Hl%lookup_lt_Some].
    pose proof (rep_bound _ _ _ _ (bi_rep _ _ _ HI) Hx). unfold g_len in *. lia.
Qed.

Lemma pend_disjoint_new g pd i v :
  pend_ok g pd → pend_disjoint pd (mk_pending i (g_len g) v false).
Proof. intros HP _. left. simpl. apply (po_end _ _ HP). Qed.

(** ** Insert *)
Definition g_insert g pd : gbuf :=
  mk_gbuf (g_log g) (g_done g)
    (map_seqZ (pd_off pd) (elems (pd_val pd)) ∪ g_cont g) (g_drained g).

Definition pd_written pd : pending :=
  mk_pending (pd_buf pd) (pd_off pd) (pd_val pd) true.

Lemma pd_size_elems g pd :
  pend_ok g pd → pd_size pd = Z.of_nat (length (elems (pd_val pd))).
Proof. intros HP. by destruct (valid_size _ (po_valid _ _ HP)). Qed.

Lemma g_insert_lookup_ne g pd j :
  pend_ok g pd → ¬ (pd_off pd ≤ j < pd_off pd + pd_size pd) →
  g_cont (g_insert g pd) !! j = g_cont g !! j.
Proof.
  intros HP Hj. rewrite (pd_size_elems _ _ HP) in Hj. simpl.
  rewrite lookup_union_r; [done|]. apply lookup_map_seqZ_None. lia.
Qed.

Lemma g_insert_lookup_eq g pd j :
  pend_ok g pd → pd_off pd ≤ j < pd_off pd + pd_size pd →
  is_Some (g_cont (g_insert g pd) !! j).
Proof.
  intros HP Hj. rewrite (pd_size_elems _ _ HP) in Hj. simpl.
  apply lookup_union_is_Some. left. apply lookup_map_seqZ_is_Some. lia.
Qed.

Lemma insert_step b n g pd :
  buf_inv b n g → pend_ok g pd → pd_inserted pd = false →
  ∃ b', insert_into (pd_val pd) b (pd_off pd) = Ret b' ∧ capacity b' = capacity b ∧
        buf_inv b' n (g_insert g pd) ∧ pend_ok (g_insert g pd) (pd_written pd).
Proof.
  intros HI HP Hpd. pose proof (po_off _ _ HP). pose proof (po_end _ _ HP).
  pose proof (bi_len _ _ _ HI). pose proof (pd_size_elems _ _ HP) as Hsz.
  destruct (insert_spec b (g_cont g) (pd_val pd) (pd_off pd)) as (b' & Hb' & Hc & HR).
  - apply (bi_rep _ _ _ HI).
  - apply (po_valid _ _ HP).
  - apply (bi_cap _ _ _ HI).
  - apply (po_size _ _ HP).
  - lia.
  - unfold pd_size in *. lia.
  - intros j Hj. pose proof (po_cont _ _ HP j Hj) as Hn. by rewrite Hpd in Hn.
  - exists b'. split; [done|]. split; [done|]. split.
    + destruct HI as [? ? ? ? ? Hcont Hdc ? ?]. split; simpl; try done; try congruence.
      * unfold g_len in *; simpl. lia.
      * intros j x. rewrite lookup_union_Some_raw, lookup_map_seqZ_Some.
        intros [[Hj Hx]|[_ Hx]]; [|by apply Hcont].
        split; [lia|]. rewrite <- (po_log _ _ HP _ _ Hx). f_equal. lia.
      * intros j ??. apply lookup_union_is_Some. right. by apply Hdc.
    + destruct HP. split; simpl; try done.
      intros j Hj. apply lookup_union_is_Some. left.
      apply lookup_map_seqZ_is_Some. unfold pd_size in *. simpl in Hj. lia.
Qed.

Lemma pend_ok_insert_other g pd pd' :
  pend_ok g pd → pend_ok g pd' → pd_buf pd' = pd_buf pd → pend_disjoint pd' pd →
  pend_ok (g_insert g pd) pd'.
Proof.
  intros HP HP' Hb Hd. specialize (Hd Hb).
  destruct HP' as [? ? ? ? ? ? ? Hcont]. split; try done.
  intros j Hj. rewrite g_insert_lookup_ne; [by apply Hcont|done|lia].
Qed.

(** ** Acknowledge *)
Definition g_ack g pd : gbuf :=
  mk_gbuf (g_log g) (g_done g ∪ seg (pd_off pd) (pd_size pd)) (g_cont g) (g_drained g).

Lemma buf_inv_ack b n g pd :
  buf_inv b n g → pend_ok g pd → pd_inserted pd = true →
  buf_inv b (wrapping_add n (pd_size pd)) (g_ack g pd).
Proof.
  intros HI HP Hpd. pose proof (bi_count_le _ _ _ HI).
  pose proof (po_off _ _ HP). pose proof (po_end _ _ HP). pose proof (po_size _ _ HP).
  assert (g_done g ## seg (pd_off pd) (pd_size pd)) as Hdisj.
  { intros j Hj1 Hj2%elem_of_seg. by apply (po_done _ _ HP j). }
  assert (Z.of_nat (set_size (g_done (g_ack g pd))) = n + pd_size pd) as Hsz.
  { simpl. rewrite size_union by done. rewrite Nat2Z.inj_add, size_seg by lia.
    by rewrite (bi_size _ _ _ HI). }
  assert (g_done (g_ack g pd) ⊆ seg 0 (g_len g)) as Hsub.
  { simpl. apply union_subseteq. split; [apply (bi_done _ _ _ HI)|].
    intros j. rewrite !elem_of_seg. lia. }
  pose proof (bi_cap _ _ _ HI). pose proof (bi_len _ _ _ HI).
  pose proof (subseteq_size _ _ Hsub). pose proof (size_seg 0 (g_len g)).
  destruct HI as [? ? ? ? ? ? Hdc ? Hdd]. split; try done.
  - rewrite Hsz. apply wrapping_add_small; unfold MAX_REMAINING in *; zlia.
  - intros j Hj Hdr. simpl in Hj.
    apply elem_of_union in Hj as [Hj|Hj%elem_of_seg]; [by apply Hdc|].
    pose proof (po_cont _ _ HP j Hj) as Hs. by rewrite Hpd in Hs.
  - intros Hdr j Hj. simpl. apply elem_of_union. left. by apply Hdd.
Qed.

Lemma pend_ok_ack_other g pd pd' :
  pend_ok g pd' → pd_buf pd' = pd_buf pd → pend_disjoint pd' pd →
  pend_ok (g_ack g pd) pd'.
Proof.
  intros [? ? ? ? ? ? Hdone ?] Hb Hd. specialize (Hd Hb). split; try done.
  intros j Hj Hin. simpl in Hin.
  apply elem_of_union in Hin as [Hin|Hin%elem_of_seg]; [by apply (Hdone j)|lia].
Qed.
End GhostLemmas.
