(* ===== verification/Preservation.v ===== *)
(** * The invariant is preserved

    One lemma per kind of action: neutral moves of a thread, the three steps
    of an enqueuer, closing and reopening, taking and releasing the dequeuing
    lock, the steps of its holder, and the swap. *)

From S2P Require Import Prelude PackedWords Errors Buffers Queue Machine Invariant GhostLemmas.
#[local] Open Scope Z_scope.

Section Preservation.
Context {B S V E Ob : Type}.
Context `{L : BufferLaws B S V E Ob}.
Variable strict : bool.

Abbreviation pc := (pc S V E).
Abbreviation gbuf := (gbuf (E := E)).
Implicit Types (q : Queue B) (g : gbuf * gbuf) (ths : gmap nat pc) (p : pc).

(** ** Threads *)
Lemma pending_of_caps (bs bs' : B * B) p :
  (∀ i, 0 ≤ i ≤ 1 → capacity (sel i bs') = capacity (sel i bs)) →
  pending_of bs' p = pending_of bs p.
Proof.
  intros Hc. destruct p; simpl; try done; by rewrite Hc by apply buffer_index_bound.
Qed.

Lemma pending_not_holder (bs : B * B) p : is_holder p = true → pending_of bs p = None.
Proof. by destruct p. Qed.

Lemma not_covers_None (bs : B * B) p i j : pending_of bs p = None → ¬ covers bs p i j.
Proof. intros Hn (pd & Hpd & _). congruence. Qed.

Lemma all_done_undone (gb : gbuf) j : all_done gb → ¬ undone gb j.
Proof. intros Hall [Hj Hd]. by apply Hd, Hall. Qed.

Lemma threads_inv_update (bs bs' : B * B) g g' ths t p p' :
  threads_inv strict bs g ths → ths !! t = Some p → pc_ok strict p' →
  (∀ t' p'', t' ≠ t → ths !! t' = Some p'' → pending_of bs' p'' = pending_of bs p'') →
  (∀ t' p'' pd, t' ≠ t → ths !! t' = Some p'' → pending_of bs p'' = Some pd →
     pend_ok (sel (pd_buf pd) g) pd → pend_ok (sel (pd_buf pd) g') pd) →
  (∀ pd, pending_of bs' p' = Some pd → pend_ok (sel (pd_buf pd) g') pd ∧
     ∀ t' p'' pd', t' ≠ t → ths !! t' = Some p'' → pending_of bs p'' = Some pd' →
       pend_disjoint pd' pd) →
  (∀ i j, 0 ≤ i ≤ 1 → undone (sel i g') j →
     covers bs' p' i j ∨ undone (sel i g) j ∧ ¬ covers bs p i j) →
  threads_inv strict bs' g' (<[t := p']> ths).
Proof.
  intros [Hpc Hpend Hdis Hcov] Ht Hp' Hsame Hother Hnew Hund. split.
  - intros t1 p1 [[-> <-]|[? ?]]%lookup_insert_Some; eauto.
  - intros t1 p1 pd [[-> <-]|[Hne Ht1]]%lookup_insert_Some Hpd.
    + by apply Hnew.
    + rewrite (Hsame t1 p1) in Hpd by done. eauto.
  - intros t1 t2 p1 p2 pd1 pd2 Hne
      [[-> <-]|[Hne1 Ht1]]%lookup_insert_Some [[-> <-]|[Hne2 Ht2]]%lookup_insert_Some
      Hpd1 Hpd2.
    + done.
    + rewrite (Hsame t2 p2) in Hpd2 by done.
      destruct (Hnew _ Hpd1) as [_ Hd]. intros Hb.
      destruct (Hd t2 p2 pd2 (not_eq_sym Hne2) Ht2 Hpd2 (eq_sym Hb)); auto.
    + rewrite (Hsame t1 p1) in Hpd1 by done.
      destruct (Hnew _ Hpd2) as [_ Hd]. eauto.
    + rewrite (Hsame t1 p1) in Hpd1 by done. rewrite (Hsame t2 p2) in Hpd2 by done.
      by apply (Hdis t1 t2 p1 p2).
  - intros i j Hi Hj. destruct (Hund i j Hi Hj) as [Hc|[Hu Hnc]].
    + exists t, p'. by rewrite lookup_insert_eq.
    + destruct (Hcov i j Hi Hu) as (t1 & p1 & Ht1 & pd & Hpd & Hr).
      assert (t1 ≠ t) as Hne.
      { intros ->. apply Hnc. exists pd. by simplify_eq. }
      exists t1, p1. rewrite lookup_insert_ne by done.
      split; [done|]. exists pd. by rewrite (Hsame t1 p1).
Qed.

(** A thread moves to a point without pending reservation. *)
Lemma threads_inv_neutral (bs : B * B) g ths t p p' :
  threads_inv strict bs g ths → ths !! t = Some p → pc_ok strict p' →
  pending_of bs p = None → pending_of bs p' = None →
  threads_inv strict bs g (<[t := p']> ths).
Proof.
  intros HT Ht Hok Hn Hn'. apply (threads_inv_update bs _ g _ _ _ p); auto.
  - congruence.
  - intros i j _ Hu. right. split; [done|]. by apply not_covers_None.
Qed.

(** ** The dequeuing side is not affected by the enqueuers *)
Record deq_stable q q' (e : Z) g g' : Prop := {
  ds_deq : dequeuing_length q' = dequeuing_length q;
  ds_q_capacity : q_capacity q' = q_capacity q;
  ds_cap i : 0 ≤ i ≤ 1 → capacity (sel i (buffers q')) = capacity (sel i (buffers q));
  ds_log : g_log (sel (1 - e) g') = g_log (sel (1 - e) g);
  ds_drained : g_drained (sel (1 - e) g') = g_drained (sel (1 - e) g);
  ds_done : g_done (sel (1 - e) g) ⊆ g_done (sel (1 - e) g');
  ds_enq_log : g_log (sel e g') = [] → g_log (sel e g) = [];
  ds_buf lg : lg = 0 ∨ all_done (sel (1 - e) g) →
    buf_inv (sel (1 - e) (buffers q)) (sel (1 - e) (buffers_length q) + lg)
      (sel (1 - e) g) →
    buf_inv (sel (1 - e) (buffers q')) (sel (1 - e) (buffers_length q') + lg)
      (sel (1 - e) g');
}.

Lemma deq_stable_refl q (e : Z) g : deq_stable q q e g g.
Proof. by split. Qed.

Lemma holder_broken_empty q (e : Z) g pre held p :
  holder_inv strict q e g pre held p → broken p = true → g_log (sel (1 - e) g) = [].
Proof.
  destruct p; simpl; try done; unfold prepared; intros Hinv Hbr;
    rewrite ?Hbr in Hinv; intuition auto.
Qed.

Section Stable.
Variables (q q' : Queue B) (e : Z) (g g' : gbuf * gbuf).
Hypothesis He : 0 ≤ e ≤ 1.
Hypothesis HS : deq_stable q q' e g g'.

Lemma stable_len : g_len (sel (1 - e) g') = g_len (sel (1 - e) g).
Proof using HS. unfold g_len. by rewrite (ds_log _ _ _ _ _ HS). Qed.

Lemma stable_rest : g_rest (sel (1 - e) g') = g_rest (sel (1 - e) g).
Proof using HS.
  unfold g_rest. by rewrite (ds_log _ _ _ _ _ HS), (ds_drained _ _ _ _ _ HS).
Qed.

Lemma stable_all_done : all_done (sel (1 - e) g) → all_done (sel (1 - e) g').
Proof using HS.
  intros Ha j. rewrite stable_len. intros Hj.
  apply (ds_done _ _ _ _ _ HS). by apply Ha.
Qed.

Lemma stable_word w : deq_word_ok (1 - e) (sel (1 - e) g) w →
  deq_word_ok (1 - e) (sel (1 - e) g') w.
Proof using HS.
  unfold deq_word_ok.
  by rewrite stable_len, (ds_log _ _ _ _ _ HS), (ds_drained _ _ _ _ _ HS).
Qed.

Lemma holder_inv_stable pre held p :
  holder_inv strict q e g pre held p → holder_inv strict q' e g' pre held p.
Proof using He HS.
  pose proof stable_all_done as Had. pose proof (ds_enq_log _ _ _ _ _ HS) as Hel.
  destruct p; simpl; unfold prepared, swapped, spinning, taken, deq_word_ok;
    rewrite ?stable_len, ?stable_rest, ?(ds_log _ _ _ _ _ HS),
      ?(ds_drained _ _ _ _ _ HS), ?(ds_cap _ _ _ _ _ HS) by lia;
    try done; intuition auto.
Qed.

Lemma lock_stable pre held ths t p p' :
  is_holder p = false → is_holder p' = false → ths !! t = Some p →
  unlocked q e g held ths ∨ (∃ t0 p0, locked_by strict q e g pre held ths t0 p0) →
  unlocked q' e g' held (<[t := p']> ths) ∨
  (∃ t0 p0, locked_by strict q' e g' pre held (<[t := p']> ths) t0 p0).
Proof using He HS.
  intros Hp Hp' Ht [(Hno & Hw & Hheld & Hb & Hcap)|(t0 & p0 & Hl & Ht0 & Hh & Huniq & Hb & Hcap & Hinv)].
  - left. unfold unlocked. split_and!.
    + intros t1 p1 [[-> <-]|[? ?]]%lookup_insert_Some; eauto.
    + rewrite (ds_deq _ _ _ _ _ HS). by apply stable_word.
    + by rewrite stable_rest.
    + pose proof (ds_buf _ _ _ _ _ HS 0) as Hd. rewrite !Z.add_0_r in Hd. auto.
    + rewrite (ds_q_capacity _ _ _ _ _ HS), (ds_cap _ _ _ _ _ HS) by lia. done.
  - right. exists t0, p0. assert (t0 ≠ t) as Hne by (intros ->; congruence).
    split; [by rewrite (ds_deq _ _ _ _ _ HS)|]. split; [by rewrite lookup_insert_ne|].
    split; [done|]. split.
    { intros t1 p1 [[-> <-]|[? ?]]%lookup_insert_Some; [congruence|eauto]. }
    split; [|split].
    + intros Hbr. apply (ds_buf _ _ _ _ _ HS); [|by apply Hb].
      destruct p0; simpl in *; auto. destruct Hinv as (_ & _ & _ & _ & _ & Ha & _). auto.
    + rewrite (ds_q_capacity _ _ _ _ _ HS), (ds_cap _ _ _ _ _ HS) by lia. done.
    + by apply holder_inv_stable.
Qed.
End Stable.

(** ** Steps of the enqueuers, and of [close] and [reopen] *)
Section Steps.
Variables (q : Queue B) (ths : gmap nat pc) (h : hist (E := E) (Ob := Ob)).
Variables (e : Z) (cl : bool) (g : gbuf * gbuf) (held : list E).
Variables (t : nat) (p : pc).
Hypothesis HI : Inv_with strict q ths h e cl g held.
Hypothesis Ht : ths !! t = Some p.

Lemma inv_neutral p' :
  is_holder p = false → is_holder p' = false → pc_ok strict p' →
  pending_of (buffers q) p = None → pending_of (buffers q) p' = None →
  Inv strict (mk_config q (<[t := p']> ths)) h.
Proof using HI Ht.
  destruct HI as (Henq & Hths & Hlock & Hhist). intros Hp Hp' Hok Hpd Hpd'.
  exists e, cl, g, held. unfold Inv_with; split_and!; simpl; [done| |destruct Henq|done].
  - by apply (threads_inv_neutral _ _ _ _ p).
  - by apply (lock_stable q q e g g) with (p := p); auto using deq_stable_refl.
Qed.

(** The closed flag changes, or nothing of the word does. *)
Lemma inv_reword p' cl' w :
  is_holder p = false → is_holder p' = false → pc_ok strict p' →
  pending_of (buffers q) p = None → pending_of (buffers q) p' = None →
  w = enc cl' e (capacity (sel e (buffers q)) - g_len (sel e g)) →
  Inv strict (mk_config (set_enqueuing q w) (<[t := p']> ths)) h.
Proof using HI Ht.
  destruct HI as ((He & _ & Hb & Hdr) & Hths & Hlock & Hhist).
  intros Hp Hp' Hok Hpd Hpd' ->.
  exists e, cl', g, held. unfold Inv_with; split_and!; simpl; [done| | |done].
  - by apply (threads_inv_neutral _ _ _ _ p).
  - apply (lock_stable q _ e g g) with (p := p); done.
Qed.

Lemma word_of_inv :
  0 ≤ e ≤ 1 ∧ 0 ≤ capacity (sel e (buffers q)) - g_len (sel e g) < MAX_REMAINING.
Proof using HI.
  destruct HI as ((He & _ & Hb & _) & _). split; [done|].
  pose proof (bi_cap _ _ _ Hb). pose proof (bi_len _ _ _ Hb).
  pose proof (g_len_nonneg (sel e g)). lia.
Qed.

Lemma inv_reserve v nxt :
  pc_ok strict p → is_holder p = false → pending_of (buffers q) p = None →
  valid_value v → 0 < size v →
  EnqueuingCapacity.is_closed (enqueuing_capacity q) = false →
  EnqueuingCapacity.try_reserve (enqueuing_capacity q) (size v) = Some nxt →
  Inv strict (mk_config (set_enqueuing q nxt)
                (<[t := EnqInsert v (enqueuing_capacity q)]> ths))
    (hist_event h (EvReserve v)).
Proof using HI Ht.
  destruct word_of_inv as [_ Hr].
  destruct HI as ((He & Hw & Hb & Hdr) & Hths & Hlock & Hhist).
  intros Hok Hp Hpn Hv Hs Hcl Hres. destruct (valid_size v Hv) as [_ Hmax].
  rewrite Hw in *. rewrite is_closed_enc in Hcl by done. subst cl.
  rewrite try_reserve_enc in Hres by (try done; zlia).
  destruct (Z.leb_spec (size v) (capacity (sel e (buffers q)) - g_len (sel e g)))
    as [Hfit|]; [|done]. injection Hres as <-.
  set (ge := sel e g) in *.
  assert (pending_of (buffers q)
            (EnqInsert v (enc false e (capacity (sel e (buffers q)) - g_len ge)) : pc)
          = Some (mk_pending e (g_len ge) v false)) as Hpd.
  { simpl. rewrite buffer_index_enc, remaining_capacity_enc by done.
    do 2 f_equal. lia. }
  exists e, false, (upd e (g_reserve ge v) g), held. unfold Inv_with; split_and!; simpl.
  - unfold enq_side; simpl. rewrite sel_upd_eq, g_reserve_len by done.
    split_and!; [lia|lia|f_equal; lia|apply buf_inv_reserve; [done|done|lia|done]|done].
  - apply (threads_inv_update (buffers q) _ g _ _ _ p); try done.
    + intros t' p'' pd Hne Ht' Hpd' HP.
      destruct (Z.eq_dec (pd_buf pd) e) as [Heq|].
      * rewrite Heq in *. rewrite sel_upd_eq. by apply pend_ok_reserve.
      * pose proof (po_buf _ _ HP). by rewrite sel_upd_ne by lia.
    + rewrite Hpd. intros pd [= <-]. simpl. rewrite sel_upd_eq. split.
      * by eapply pend_ok_new.
      * intros t' p'' pd' Hne Ht' Hpd' Hbuf. simpl in Hbuf.
        eapply pend_disjoint_new; [|done].
        pose proof (ti_pend _ _ _ _ Hths _ _ _ Ht' Hpd') as HP.
        rewrite Hbuf in HP. exact HP.
    + intros i j Hi Hu. destruct (Z.eq_dec i e) as [->|Hne].
      * rewrite sel_upd_eq in Hu. destruct Hu as [Hj Hd].
        rewrite g_reserve_len in Hj by done. simpl in Hd.
        destruct (Z.lt_ge_cases j (g_len ge)).
        -- right. split; [|by apply not_covers_None]. by split; [unfold ge in *; lia|].
        -- left. eexists. split; [exact Hpd|]. unfold pd_size; simpl. lia.
      * rewrite sel_upd_ne in Hu by done. right. split; [done|].
        by apply not_covers_None.
  - apply (lock_stable q _ e g _) with (p := p); try done. split; simpl; try done;
      rewrite ?sel_upd_other by done; try done.
    rewrite sel_upd_eq. simpl. by intros [? _]%app_eq_nil.
  - rewrite sel_upd_eq. simpl. rewrite !fmap_app, Hhist, !fmap_app.
    by rewrite <- !(assoc_L (++)).
Qed.

(** The pending reservation of [t] and the ghost update [g'] of its
    buffer: what an insertion or acknowledgement must provide. *)
Lemma inv_pending_step q' p' pd gb' :
  is_holder p = false → is_holder p' = false → pc_ok strict p' →
  pending_of (buffers q) p = Some pd →
  enqueuing_capacity q' = enqueuing_capacity q →
  dequeuing_length q' = dequeuing_length q → q_capacity q' = q_capacity q →
  (∀ i, 0 ≤ i ≤ 1 → capacity (sel i (buffers q')) = capacity (sel i (buffers q))) →
  (∀ i, 0 ≤ i ≤ 1 → i ≠ pd_buf pd →
     sel i (buffers q') = sel i (buffers q) ∧
     sel i (buffers_length q') = sel i (buffers_length q)) →
  (∀ lg, lg = 0 ∨ all_done (sel (pd_buf pd) g) →
     buf_inv (sel (pd_buf pd) (buffers q)) (sel (pd_buf pd) (buffers_length q) + lg)
       (sel (pd_buf pd) g) →
     buf_inv (sel (pd_buf pd) (buffers q')) (sel (pd_buf pd) (buffers_length q') + lg)
       gb') →
  g_log gb' = g_log (sel (pd_buf pd) g) →
  g_drained gb' = g_drained (sel (pd_buf pd) g) →
  g_done (sel (pd_buf pd) g) ⊆ g_done gb' →
  (∀ pd', pend_ok (sel (pd_buf pd) g) pd' → pd_buf pd' = pd_buf pd →
     pend_disjoint pd' pd → pend_ok gb' pd') →
  (∀ pd', pending_of (buffers q') p' = Some pd' →
     pd' = pd_written pd ∧ pend_ok gb' pd') →
  (∀ j, undone gb' j → covers (buffers q') p' (pd_buf pd) j ∨
     undone (sel (pd_buf pd) g) j ∧ ¬ (pd_off pd ≤ j < pd_off pd + pd_size pd)) →
  Inv strict (mk_config q' (<[t := p']> ths)) h.
Proof using HI Ht.
  destruct HI as ((He & Hw & Hb & Hdr) & Hths & Hlock & Hhist).
  intros Hp Hp' Hok Hpd Hweq Hdeq Hqc Hcap Hoth Hbuf Hlog Hdrn Hdone Hpo Hnew Hund.
  pose proof (ti_pend _ _ _ _ Hths _ _ _ Ht Hpd) as HP.
  pose proof (po_buf _ _ HP) as Hi. set (i := pd_buf pd) in *.
  assert (∀ j, 0 ≤ j ≤ 1 → g_log (sel j (upd i gb' g)) = g_log (sel j g)) as Hlg.
  { intros j Hj. destruct (Z.eq_dec j i) as [->|]; [by rewrite sel_upd_eq|].
    by rewrite sel_upd_ne. }
  exists e, cl, (upd i gb' g), held. unfold Inv_with; split_and!; simpl.
  - unfold enq_side. rewrite Hcap by done. unfold g_len. rewrite Hlg by done.
    split_and!; [lia|lia|by rewrite Hweq, Hw| |].
    + destruct (Z.eq_dec e i) as [->|Hne].
      * rewrite sel_upd_eq. specialize (Hbuf 0 (or_introl eq_refl)).
        rewrite !Z.add_0_r in Hbuf. by apply Hbuf.
      * rewrite sel_upd_ne by done. by destruct (Hoth e He Hne) as [-> ->].
    + destruct (Z.eq_dec e i) as [->|]; [rewrite sel_upd_eq; congruence|].
      by rewrite sel_upd_ne.
  - apply (threads_inv_update (buffers q) _ g _ _ _ p); try done.
    + intros t' p'' _ _. by apply pending_of_caps.
    + intros t' p'' pd' Hne Ht' Hpd' HP'.
      destruct (Z.eq_dec (pd_buf pd') i) as [Heq|].
      * rewrite Heq in *. rewrite sel_upd_eq. apply Hpo; [done..|].
        apply (ti_disjoint _ _ _ _ Hths t' t p'' p); done.
      * pose proof (po_buf _ _ HP'). by rewrite sel_upd_ne by lia.
    + intros pd' Hpd'. destruct (Hnew pd' Hpd') as [-> Hok']. simpl.
      rewrite sel_upd_eq. split; [done|].
      intros t' p'' pd'' Hne Ht' Hpd''.
      apply (ti_disjoint _ _ _ _ Hths t' t p'' p pd'' pd); done.
    + intros i' j Hi' Hu. destruct (Z.eq_dec i' i) as [->|Hne].
      * rewrite sel_upd_eq in Hu. destruct (Hund j Hu) as [?|[? Hn]]; [by left|].
        right. split; [done|]. intros (pd' & Hpd' & _ & Hj). by simplify_eq.
      * rewrite sel_upd_ne in Hu by done. right. split; [done|].
        intros (pd' & Hpd' & Hb' & _). by simplify_eq.
  - apply (lock_stable q _ e g _) with (p := p); try done. split; try done.
    + apply Hlg. lia.
    + destruct (Z.eq_dec (1 - e) i) as [->|]; [by rewrite sel_upd_eq|].
      rewrite sel_upd_ne; [done|lia..].
    + destruct (Z.eq_dec (1 - e) i) as [->|]; [by rewrite sel_upd_eq|].
      rewrite sel_upd_ne; [done|lia..].
    + by rewrite Hlg.
    + intros lg Hlg' Hb'. destruct (Z.eq_dec (1 - e) i) as [Heq|Hne].
      * rewrite Heq in *. rewrite sel_upd_eq. by apply Hbuf.
      * rewrite sel_upd_ne by lia.
        destruct (Hoth (1 - e) ltac:(lia) Hne) as [-> ->]. done.
  - by rewrite Hlg.
Qed.
Lemma inv_insert v enq :
  p = EnqInsert v enq →
  ∃ q', enq_insert q v enq = Ret (q', EnqAdd v enq : pc, []) ∧
        Inv strict (mk_config q' (<[t := EnqAdd v enq]> ths)) h.
Proof using HI Ht.
  intros Hp. pose proof Ht as Htp. rewrite Hp in Htp.
  pose proof HI as (_ & Hths & _).
  destruct (ti_pend _ _ _ _ Hths _ _ _ Htp eq_refl) as [Hi Hoff Hs Hv Hend Hl Hd Hc].
  set (i := EnqueuingCapacity.buffer_index enq) in *.
  set (pd := mk_pending i (capacity (sel i (buffers q)) -
               EnqueuingCapacity.remaining_capacity enq) v false) in *.
  assert (pend_ok (sel i g) pd) as HP by by split.
  assert (∃ n, buf_inv (sel i (buffers q)) n (sel i g)) as [n Hb].
  { destruct HI as ((? & _ & Hb & _) & _ & Hlock & _).
    destruct (Z.eq_dec i e) as [->|]; [eauto|].
    assert (i = 1 - e) as Hid by (change (0 ≤ i ≤ 1) in Hi; lia). rewrite Hid.
    destruct Hlock as [(_ & _ & _ & ? & _)|
      (t0 & p0 & _ & _ & _ & _ & Hbr & _ & Hinv)]; [eauto|].
    destruct (broken p0) eqn:Hbroken; [|eauto].
    exfalso. rewrite Hid in HP. apply (empty_no_pend _ _ (holder_broken_empty _ _ _ _ _ _ Hinv Hbroken) HP). }
  destruct (insert_step _ _ _ _ Hb HP eq_refl) as (b' & Hins & Hcap & _ & Hok).
  exists (set_buffer q i b'). split.
  { unfold enq_insert. fold i. simpl in Hins, Hoff. rewrite usize_sub_Ret by lia.
    simpl. rewrite Hins. done. }
  apply (inv_pending_step _ _ pd (g_insert (sel i g) pd)); rewrite ?Hp; try done.
  - intros j Hj. simpl. destruct (Z.eq_dec j i) as [->|]; [by rewrite sel_upd_eq|].
    by rewrite sel_upd_ne.
  - intros j Hj Hne. simpl in *. by rewrite sel_upd_ne.
  - intros lg _ Hlg. simpl. rewrite sel_upd_eq.
    destruct (insert_step _ _ _ _ Hlg HP eq_refl) as (b'' & Hins' & _ & Hb'' & _).
    assert (Ret b'' = Ret b') as [= ->] by (rewrite <- Hins'; exact Hins). done.
  - intros pd' ???. by apply pend_ok_insert_other.
  - intros pd' Hpd'. simpl in Hpd'. fold i in Hpd'. rewrite sel_upd_eq, Hcap in Hpd'.
    injection Hpd' as <-. done.
  - intros j Hu. destruct (decide (pd_off pd ≤ j ∧ j < pd_off pd + pd_size pd)) as [Hj|];
      [|by right]. left. eexists. split; [done|]. simpl. fold i.
    rewrite sel_upd_eq, Hcap. by split.
Qed.

Lemma inv_add v enq :
  p = EnqAdd v enq →
  ∃ q', enq_add q v enq = Ret (q', EnqNotify : pc, []) ∧
        Inv strict (mk_config q' (<[t := EnqNotify]> ths)) h.
Proof using HI Ht.
  intros Hp. pose proof Ht as Htp. rewrite Hp in Htp.
  pose proof HI as (_ & Hths & _).
  pose proof (ti_pend _ _ _ _ Hths _ _ _ Htp eq_refl) as HP.
  set (i := EnqueuingCapacity.buffer_index enq) in *.
  set (pd := mk_pending i (capacity (sel i (buffers q)) -
               EnqueuingCapacity.remaining_capacity enq) v true) in *.
  eexists. split; [done|]. fold i.
  pose proof (po_buf _ _ HP) as Hi. change (0 ≤ i ≤ 1) in Hi.
  apply (inv_pending_step _ _ pd (g_ack (sel i g) pd)); rewrite ?Hp; try done.
  - intros j Hj Hne. simpl in *. by rewrite sel_upd_ne.
  - intros lg Hlg Hb. simpl in *. rewrite sel_upd_eq.
    destruct Hlg as [-> |Hall]; [|by destruct (all_done_no_pend _ _ Hall HP)].
    rewrite Z.add_0_r in *. exact (buf_inv_ack _ _ _ pd Hb HP eq_refl).
  - simpl. apply union_subseteq_l.
  - intros pd' ???. by apply (pend_ok_ack_other _ pd).
  - intros j [Hj Hnd]. simpl in Hnd. rewrite elem_of_union, elem_of_seg in Hnd.
    right. split; [by split; [|tauto]|]. tauto.
Qed.
End Steps.
End Preservation.
