(* ===== verification/ResizeLoop.v ===== *)
(** * The closure of [try_dequeue_and_resize]

    What resizing the next buffer and inserting values into it does: the slots
    [0..n] hold the elements of the inserted values, unless the values run
    over the buffer, which [fits] excludes. *)

From S2P Require Import Prelude PackedWords Errors Buffers Queue Machine Invariant.
#[local] Open Scope Z_scope.

Section ResizeLoop.
Context {B S V E Ob : Type}.
Context `{L : BufferLaws B S V E Ob}.
Implicit Types (b : B) (v : V) (vs : list V) (pre : list E).

Abbreviation len l := (Z.of_nat (length l)).

Definition values_elems vs : list E := concat (elems <$> vs).

Lemma valid_size_nonneg v : valid_value v → 0 ≤ size v.
Proof. intros Hv. destruct (valid_size v Hv). lia. Qed.

Lemma sizes_nonneg vs : Forall valid_value vs → 0 ≤ sizes vs.
Proof.
  induction 1 as [|v vs Hv _ IH]; simpl; [lia|].
  pose proof (valid_size_nonneg v Hv). lia.
Qed.

(** Past the end of the buffer, the loop can only run further. *)
Lemma insert_values_over vs : ∀ b n,
  Forall valid_value vs → capacity b < n →
  match insert_values vs b n with
  | UB => False
  | Panic => True
  | Ret (b', n') => capacity b' = capacity b ∧ capacity b < n'
  end.
Proof.
  induction vs as [|v vs IH]; intros b n Hvs Hn; simpl; [done|].
  apply Forall_cons in Hvs as [Hv Hvs]. pose proof (valid_size_nonneg v Hv).
  destruct (size v =? 0); [by apply IH|]. destruct (capacity b <? size v); [done|].
  pose proof (insert_no_UB v b n). pose proof (insert_capacity v b n) as Hc.
  destruct (insert_into v b n) as [b'| |]; simpl; [|done|done].
  specialize (Hc b' eq_refl). unfold usize_add.
  destruct (n + size v <=? usize_MAX); simpl; [|done].
  specialize (IH b' (n + size v) Hvs).
  destruct (insert_values vs b' (n + size v)) as [[b'' n']| |];
    [|done|apply IH; lia]. destruct IH; [lia|]. split; [congruence|lia].
Qed.

Lemma rep_append b pre v :
  Rep b (map_seqZ 0 pre) → valid_value v → capacity b < MAX_REMAINING →
  0 < size v → len pre + size v ≤ capacity b →
  ∃ b', insert_into v b (len pre) = Ret b' ∧ capacity b' = capacity b ∧
        Rep b' (map_seqZ 0 (pre ++ elems v)).
Proof.
  intros HR Hv Hcap Hpos Hfit.
  destruct (insert_spec b (map_seqZ 0 pre) v (len pre)) as (b' & Hb' & Hc & HR');
    [done|done|done|done|lia|lia| |].
  - intros j Hj. apply lookup_map_seqZ_None. lia.
  - exists b'. split; [done|]. split; [done|].
    rewrite map_seqZ_app, Z.add_0_l, map_union_comm; [done|].
    apply map_disjoint_spec. intros j x y.
    rewrite !lookup_map_seqZ_Some. intros [? Hx%lookup_lt_Some] [? _]. lia.
Qed.

Lemma insert_values_spec vs : ∀ b pre,
  Rep b (map_seqZ 0 pre) → Forall valid_value vs → capacity b < MAX_REMAINING →
  len pre ≤ capacity b →
  match insert_values vs b (len pre) with
  | UB => False
  | Panic => capacity b < len pre + sizes vs
  | Ret (b', n) =>
      capacity b' = capacity b ∧
      if capacity b <? n then capacity b < len pre + sizes vs
      else n = len (pre ++ values_elems (inserted_values (B := B) (capacity b) vs)) ∧
           Rep b' (map_seqZ 0 (pre ++ values_elems (inserted_values (B := B) (capacity b) vs)))
  end.
Proof.
  unfold values_elems. induction vs as [|v vs IH]; intros b pre HR Hvs Hcap Hlen; simpl.
  { rewrite app_nil_r. split; [done|]. zcases; [lia|done]. }
  apply Forall_cons in Hvs as [Hv Hvs]. pose proof (valid_size_nonneg v Hv).
  pose proof (sizes_nonneg vs Hvs). destruct (valid_size v Hv) as [Hsz _].
  destruct (Z.eqb_spec (size v) 0) as [H0s|Hnz].
  { specialize (IH b pre HR Hvs Hcap Hlen). by rewrite H0s. }
  destruct (Z.ltb_spec (capacity b) (size v)).
  { simpl. rewrite app_nil_r. split; [done|]. zcases; [lia|done]. }
  destruct (Z.le_gt_cases (len pre + size v) (capacity b)) as [Hfit|Hover].
  - destruct (rep_append b pre v HR Hv Hcap ltac:(lia) Hfit) as (b' & -> & Hc & HR'). simpl.
    rewrite usize_add_Ret by (unfold MAX_REMAINING in *; zlia). simpl.
    specialize (IH b' (pre ++ elems v) HR' Hvs). rewrite Hc in IH.
    rewrite length_app, Nat2Z.inj_add, <- Hsz in IH. specialize (IH Hcap Hfit).
    rewrite <- !(assoc_L (++)) in IH.
    destruct (insert_values vs b' (len pre + size v)) as [[b'' n]| |];
      [|lia|done].
    destruct IH as [? IH]. split; [congruence|].
    destruct (Z.ltb_spec (capacity b) n); [lia|done].
  - pose proof (insert_no_UB v b (len pre)) as Hu.
    pose proof (insert_capacity v b (len pre)) as Hc.
    destruct (insert_into v b (len pre)) as [b'| |]; simpl; [|lia|done].
    specialize (Hc b' eq_refl). unfold usize_add.
    destruct (Z.leb_spec (len pre + size v) usize_MAX); simpl; [|lia].
    pose proof (insert_values_over vs b' (len pre + size v) Hvs) as Hov.
    destruct (insert_values vs b' (len pre + size v)) as [[b'' n]| |];
      [|lia|apply Hov; lia].
    destruct Hov as [? Hn]; [lia|]. split; [congruence|].
    rewrite (proj2 (Z.ltb_lt _ _)) by lia. lia.
Qed.

Variable strict : bool.

Lemma resize_buffer_spec rs args b :
  resize = Some rs → Rep b ∅ → capacity b < MAX_REMAINING → args_ok strict args →
  match resize_buffer rs args b with
  | UB => False
  | Panic => strict = false
  | Ret b' => Rep b' ∅ ∧ capacity b' < MAX_REMAINING ∧
              (∀ c, ra_capacity args = Some c → capacity b' = c)
  end.
Proof.
  intros Hrs HR Hcap (Hnn & _ & Hfits).
  unfold resize_buffer, resized_capa, EnqueuingCapacity.check_overflow.
  destruct (ra_capacity args) as [c|] eqn:Hc; simpl; [|done].
  destruct (Z.eqb_spec c (capacity b)) as [->|]; simpl.
  { split; [done|]. split; [done|]. by intros ? [= ->]. }
  change (shr usize_MAX 2) with 4611686018427387903 in *.
  destruct (Z.ltb_spec c 4611686018427387903); simpl.
  - specialize (Hnn c eq_refl).
    destruct (resize_spec rs b c Hrs HR) as [HR' Hc']; [lia|].
    unfold MAX_REMAINING. split; [done|]. split; [lia|]. congruence.
  - destruct strict; [|done]. destruct (Hfits eq_refl) as [Hlt _].
    specialize (Hlt c Hc). change (shr usize_MAX 2) with 4611686018427387903 in Hlt.
    lia.
Qed.

Lemma apply_resize_spec rz b :
  Rep b ∅ → capacity b < MAX_REMAINING → rz_ok (B := B) strict rz →
  match apply_resize rz b with
  | UB => False
  | Panic => strict = false
  | Ret (b', _, n) =>
      if capacity b' <? n then strict = false
      else
        let pre := values_elems (inserted_values (B := B) (capacity b')
                                   (default [] (rz ≫= ra_insert))) in
        capacity b' < MAX_REMAINING ∧ n = len pre ∧ Rep b' (map_seqZ 0 pre)
  end.
Proof.
  intros HR Hcap Hrz. unfold apply_resize.
  destruct rz as [args|]; simpl; [|rewrite (proj2 (Z.ltb_ge _ _));
                                     [done|apply capacity_nonneg]].
  destruct (Hrz args eq_refl) as [Hok Hsome]. unfold is_some in Hsome.
  destruct resize as [rs|] eqn:Hrs; [|done]. unfold resize_closure.
  pose proof (resize_buffer_spec rs args b Hrs HR Hcap Hok) as Hb.
  destruct (resize_buffer rs args b) as [b1| |]; simpl; [|done|done].
  destruct Hb as (HR1 & Hcap1 & Hc1). destruct Hok as (_ & Hvs & Hfits).
  pose proof (capacity_nonneg b1).
  destruct (ra_insert args) as [vs|] eqn:Hins; simpl in *;
    [|rewrite (proj2 (Z.ltb_ge _ _)) by done; done].
  pose proof (insert_values_spec vs b1 [] HR1 Hvs Hcap1 ltac:(simpl; lia)) as Hspec.
  assert (strict = false ∨ sizes vs ≤ capacity b1) as Hfit.
  { destruct strict; [|by left]. right. destruct (Hfits eq_refl) as [_ Hf].
    destruct (Hf vs Hins) as [->|(c & Hc & ?)]; [done|]. by rewrite (Hc1 c Hc). }
  simpl in Hspec. rewrite ?Z.add_0_l in Hspec. change (Z.of_nat 0) with 0 in Hspec.
  destruct (insert_values vs b1 0) as [[b' n]| |]; simpl; [| |done].
  - destruct Hspec as [Hcb Hspec]. rewrite Hcb.
    destruct (Z.ltb_spec (capacity b1) n); [|by split].
    destruct Hfit as [|]; [done|lia].
  - destruct Hfit as [|]; [done|lia].
Qed.
End ResizeLoop.

(** ** Calls that fit *)
Section Fits.
Context {B S V E Ob : Type}.
Context `{L : BufferLaws B S V E Ob}.
Abbreviation len l := (Z.of_nat (length l)).

(** What a resizing call asks for, on a next buffer of capacity [cap]. *)
Definition plan_cap (rz : option (resize_args V)) (cap : Z) : Z :=
  default cap (rz ≫= ra_capacity).
Definition plan_elems (rz : option (resize_args V)) (cap : Z) : list E :=
  values_elems (inserted_values (B := B) cap (default [] (rz ≫= ra_insert))).

Lemma resize_buffer_fits rs (args : resize_args V) (b : B) :
  resize = Some rs → Rep b ∅ → capacity b < MAX_REMAINING → args_ok true args →
  let c := plan_cap (Some args) (capacity b) in
  is_some (resized_capa args b) = negb (c =? capacity b) ∧
  ∃ b', resize_buffer rs args b = Ret b' ∧ Rep b' ∅ ∧ capacity b' = c ∧ c < MAX_REMAINING.
Proof.
  intros Hrs HR Hcap Hok. pose proof (resize_buffer_spec true rs args b Hrs HR Hcap Hok) as Hb.
  revert Hb. unfold resize_buffer, resized_capa, plan_cap. simpl.
  destruct (ra_capacity args) as [c|]; simpl.
  - destruct (Z.eqb_spec c (capacity b)) as [->|]; simpl.
    + intros _. split; [done|]. by exists b.
    + destruct (EnqueuingCapacity.check_overflow c); simpl; [|done..].
      intros (? & Hlt & Hc). specialize (Hc c eq_refl). split; [done|].
      eexists. split; [done|]. split_and!; [done|done|congruence].
  - rewrite Z.eqb_refl. intros _. split; [done|]. by exists b.
Qed.

(** When the call fits, the next buffer gets the capacity and the values. *)
Lemma apply_resize_fits (rz : option (resize_args V)) (b : B) :
  Rep b ∅ → capacity b < MAX_REMAINING → rz_ok (B := B) true rz →
  let c := plan_cap rz (capacity b) in
  ∃ b', apply_resize rz b = Ret (b', negb (c =? capacity b), len (plan_elems rz c)) ∧
    capacity b' = c ∧ c < MAX_REMAINING ∧ len (plan_elems rz c) ≤ c ∧
    Rep b' (map_seqZ 0 (plan_elems rz c)).
Proof.
  intros HR Hcap Hrz. pose proof (capacity_nonneg b) as Hnn.
  pose proof (apply_resize_spec true rz b HR Hcap Hrz) as Hspec. revert Hspec.
  unfold apply_resize. destruct rz as [args|];
    [|intros _; exists b; simpl; rewrite Z.eqb_refl; by split_and!].
  destruct (Hrz args eq_refl) as [Hok Hsome]. unfold is_some in Hsome.
  destruct resize as [rs|] eqn:Hrs; [|done]. unfold resize_closure.
  destruct (resize_buffer_fits rs args b Hrs HR Hcap Hok) as (Hres & b1 & -> & HR1 & Hc1 & Hlt).
  rewrite Hres. simpl. set (c := plan_cap (Some args) (capacity b)) in *.
  set (o := match ra_insert args with Some _ => _ | None => _ end).
  assert (∀ b' n, o = Ret (b', n) → capacity b' = c) as Hoc.
  { unfold o. destruct Hok as (_ & Hvs & _).
    destruct (ra_insert args) as [vs|]; simpl in Hvs; [|by intros ?? [= <- <-]].
    intros b' n Ho. rewrite <- Hc1 in Hlt |- *.
    pose proof (insert_values_spec vs b1 [] HR1 Hvs Hlt) as Hi.
    change (Z.of_nat (length (@nil E))) with 0 in Hi. rewrite Ho in Hi.
    by apply Hi; apply capacity_nonneg. }
  destruct o as [[b' n]| |]; simpl; [|done..].
  rewrite (Hoc b' n eq_refl). specialize (Hoc b' n eq_refl).
  destruct (Z.ltb_spec c n) as [|Hle]; [done|].
  intros (_ & -> & HR'). exists b'. by split_and!.
Qed.

(** ** Calls that do not *)
Lemma length_values_elems vs : Forall valid_value vs → len (values_elems vs) = sizes vs.
Proof.
  induction 1 as [|v vs Hv _ IH]; [done|].
  change (len (elems v ++ values_elems vs) = size v + sizes vs).
  destruct (valid_size v Hv) as [-> _]. rewrite length_app, <- IH. lia.
Qed.

Lemma inserted_valid cap vs :
  Forall valid_value vs → Forall valid_value (inserted_values (B := B) cap vs).
Proof.
  induction 1 as [|v vs Hv Hvs IH]; simpl; [done|].
  destruct (size v =? 0); [done|]. destruct (cap <? size v); [done|]. by constructor.
Qed.

Lemma apply_resize_capacity strict args (b b' : B) resized n :
  Rep b ∅ → capacity b < MAX_REMAINING → rz_ok (B := B) strict (Some args) →
  apply_resize (Some args) b = Ret (b', resized, n) →
  capacity b' = plan_cap (Some args) (capacity b).
Proof.
  intros HR Hcap Hrz. destruct (Hrz args eq_refl) as [Hok Hsome]. unfold is_some in Hsome.
  unfold apply_resize. destruct resize as [rs|] eqn:Hrs; [|done]. unfold resize_closure.
  pose proof (resize_buffer_spec strict rs args b Hrs HR Hcap Hok) as Hb.
  assert (∀ b1, resize_buffer rs args b = Ret b1 →
            capacity b1 = plan_cap (Some args) (capacity b)) as Hplan.
  { intros b1 Hb1. rewrite Hb1 in Hb. unfold plan_cap. simpl.
    destruct (ra_capacity args) as [c|] eqn:Hc; simpl; [by apply Hb|].
    unfold resize_buffer, resized_capa in Hb1. rewrite Hc in Hb1. by injection Hb1 as ->. }
  destruct (resize_buffer rs args b) as [b1| |]; simpl; [|done..].
  destruct Hb as (HR1 & Hcap1 & _). destruct Hok as (_ & Hvs & _).
  rewrite <- (Hplan b1 eq_refl).
  destruct (ra_insert args) as [vs|]; simpl in *; [|by intros [= <- _ _]].
  pose proof (insert_values_spec vs b1 [] HR1 Hvs Hcap1 (capacity_nonneg b1)) as Hi.
  simpl in Hi. change (Z.of_nat 0) with 0 in Hi.
  destruct (insert_values vs b1 0) as [[b'' n'']| |]; simpl; [|done..].
  intros [= <- _ _]. by apply Hi.
Qed.

(** The values the loop inserts overrun the buffer: it panics, or says so. *)
Lemma apply_resize_overruns strict args (b b' : B) resized n :
  Rep b ∅ → capacity b < MAX_REMAINING → rz_ok (B := B) strict (Some args) →
  let cap := plan_cap (Some args) (capacity b) in
  cap < sizes (inserted_values (B := B) cap (default [] (ra_insert args))) →
  apply_resize (Some args) b = Ret (b', resized, n) → capacity b' < n.
Proof.
  intros HR Hcap Hrz cap Hover Hres.
  pose proof (apply_resize_capacity _ _ _ _ _ _ HR Hcap Hrz Hres) as Hc.
  pose proof (apply_resize_spec strict (Some args) b HR Hcap Hrz) as Hspec. rewrite Hres in Hspec.
  destruct (Z.ltb_spec (capacity b') n) as [|Hle]; [done|]. destruct Hspec as (_ & Hn & _).
  destruct (Hrz args eq_refl) as [(_ & Hvs & _) _].
  change (Some args ≫= ra_insert) with (ra_insert args) in Hn.
  rewrite length_values_elems in Hn by by apply inserted_valid.
  rewrite Hc in Hn, Hle. fold cap in Hn, Hle. lia.
Qed.
End Fits.
