(* ===== verification/DequeuerSteps.v ===== *)
(** * The steps of the dequeuing side preserve the invariant

    [inv_holder] is the general move of the lock holder (it may change its own
    buffer, that buffer's counter and the [capacity] field); [inv_unlock]
    releases the lock; [inv_swap] is the successful compare-and-swap that
    exchanges the roles of the two buffers. *)

From S2P Require Import Prelude PackedWords Errors Buffers Queue Machine Invariant GhostLemmas.
From S2P Require Import Preservation ResizeLoop.
#[local] Open Scope Z_scope.

Section DequeuerSteps.
Context {B S V E Ob : Type}.
Context `{L : BufferLaws B S V E Ob}.
Variable strict : bool.

Abbreviation pc := (pc S V E).
Abbreviation gbuf := (gbuf (E := E)).
Implicit Types (ths : gmap nat pc) (p : pc).

Section Steps.
Variables (q : Queue B) (ths : gmap nat pc) (h : hist (E := E) (Ob := Ob)).
Variables (e : Z) (cl : bool) (g : gbuf * gbuf) (held : list E).
Variables (t : nat) (p : pc).
Hypothesis HI : Inv_with strict q ths h e cl g held.
Hypothesis Ht : ths !! t = Some p.
Let d : Z := 1 - e.
Let gd : gbuf := sel d g.

Lemma holder_locked :
  is_holder p = true → locked_by strict q e g (h_pre h) held ths t p.
Proof using HI Ht.
  destruct HI as (_ & _ & Hlock & _). intros Hp.
  destruct Hlock as [(Hno & _)|(t0 & p0 & Hl & Ht0 & Hh & Hu & Hr)].
  - rewrite (Hno _ _ Ht) in Hp. done.
  - assert (t = t0) as <- by eauto. assert (p = p0) as <- by congruence.
    by split_and!; auto; apply Hr.
Qed.

Lemma sel_d i : 0 ≤ i ≤ 1 → i = e ∨ i = d.
Proof using HI. destruct HI as ((? & _) & _). unfold d. lia. Qed.

(** Reservations pending on the dequeuing buffer: none when it is complete. *)
Lemma pend_transfer g' :
  sel e g' = sel e g → (all_done gd ∨ sel d g' = gd) →
  ∀ t' p'' pd, t' ≠ t → ths !! t' = Some p'' → pending_of (buffers q) p'' = Some pd →
    pend_ok (sel (pd_buf pd) g) pd → pend_ok (sel (pd_buf pd) g') pd.
Proof using HI.
  intros He Hd t' p'' pd _ _ _ HP. destruct (sel_d _ (po_buf _ _ HP)) as [Heq|Heq].
  - rewrite Heq in *. by rewrite He.
  - rewrite Heq in *. destruct Hd as [Hd|Hd]; [|by rewrite Hd].
    by destruct (all_done_no_pend _ _ Hd HP).
Qed.

Lemma pending_same (bs' : B * B) :
  sel e bs' = sel e (buffers q) →
  (all_done gd ∨ capacity (sel d bs') = capacity (sel d (buffers q))) →
  ∀ t' p'', t' ≠ t → ths !! t' = Some p'' →
    pending_of bs' p'' = pending_of (buffers q) p''.
Proof using HI.
  intros He Hd t' p'' _ Ht'. pose proof HI as (_ & Hths & _).
  destruct (pending_of (buffers q) p'') as [pd|] eqn:Hpd; [|by destruct p''].
  pose proof (ti_pend _ _ _ _ Hths _ _ _ Ht' Hpd) as HP.
  destruct (sel_d _ (po_buf _ _ HP)) as [Heq|Heq].
  - destruct p''; try done; simpl in *; injection Hpd as <-; simpl in Heq;
      by rewrite Heq, He.
  - destruct Hd as [Hd|Hd].
    + rewrite Heq in HP. by destruct (all_done_no_pend _ _ Hd HP).
    + destruct p''; try done; simpl in *; injection Hpd as <-; simpl in Heq;
        by rewrite Heq, Hd.
Qed.

(** A thread without reservation leaves the uncovered slots alone. *)
Lemma undone_same g' (bs' : B * B) p' i j :
  sel e g' = sel e g → pending_of (buffers q) p = None →
  (all_done gd ∧ all_done (sel d g') ∨ sel d g' = gd) →
  0 ≤ i ≤ 1 → undone (sel i g') j →
  covers bs' p' i j ∨ undone (sel i g) j ∧ ¬ covers (buffers q) p i j.
Proof using HI.
  intros Heq Hpn Hd Hi Hu. right. split; [|by apply not_covers_None].
  destruct (sel_d i Hi) as [-> | ->]; [by rewrite <- Heq|].
  destruct Hd as [[_ Hall]|Hd]; [by destruct (all_done_undone _ _ Hall Hu)|].
  fold gd. by rewrite <- Hd.
Qed.

(** The general step of the holder. *)
Lemma inv_holder q' gd' p' held' h' :
  is_holder p = true → is_holder p' = true → pc_ok strict p' →
  enqueuing_capacity q' = enqueuing_capacity q →
  dequeuing_length q' = DEQUEUING_LOCKED →
  sel e (buffers q') = sel e (buffers q) →
  sel e (buffers_length q') = sel e (buffers_length q) →
  (all_done gd ∧ all_done gd' ∨
   capacity (sel d (buffers q')) = capacity (sel d (buffers q)) ∧ gd' = gd) →
  (broken p' = false →
   buf_inv (sel d (buffers q')) (sel d (buffers_length q') + lag p') gd') →
  (cap_stale p' = false → q_capacity q' = capacity (sel e (buffers q))) →
  holder_inv strict q' e (upd d gd' g) (h_pre h') held' p' →
  obs <$> h_enq h' = h_out h' ++ (obs <$> held' ++ g_log (sel e g)) →
  Inv strict (mk_config q' (<[t := p']> ths)) h'.
Proof using HI Ht.
  intros Hp Hp' Hok Hw Hdl Hbe Hle Hd Hbuf Hcap Hinv Hhist.
  pose proof (holder_locked Hp) as (_ & _ & _ & Hu & _).
  destruct HI as ((He & Hword & Hb & Hdr) & Hths & _).
  assert (sel e (upd d gd' g) = sel e g) as Hge by (apply sel_upd_other'; done).
  exists e, cl, (upd d gd' g), held'. unfold Inv_with; split_and!; simpl.
  - unfold enq_side. rewrite Hbe, Hle, Hge, Hw. done.
  - apply (threads_inv_update strict (buffers q) _ g _ _ _ p); try done.
    + apply pending_same; [done|]. destruct Hd as [[? _]|[? _]]; auto.
    + apply pend_transfer; [done|]. destruct Hd as [[? _]|[_ ?]]; [auto|].
      right. rewrite sel_upd_eq. done.
    + by destruct p'.
    + intros i j. apply undone_same; [done|by apply pending_not_holder|]. rewrite sel_upd_eq. tauto.
  - right. exists t, p'. unfold locked_by. rewrite lookup_insert_eq, Hbe.
    fold d. rewrite sel_upd_eq. split_and!; try done.
    intros t' p'' [[-> <-]|[? ?]]%lookup_insert_Some; eauto.
  - by rewrite Hge.
Qed.

(** A step that changes neither the shared state nor the ghost state. *)
Lemma inv_holder_local p' held' h' :
  is_holder p = true → is_holder p' = true → pc_ok strict p' →
  broken p' = broken p → lag p' = lag p →
  (cap_stale p = true → cap_stale p' = false →
   q_capacity q = capacity (sel e (buffers q))) →
  holder_inv strict q e g (h_pre h') held' p' →
  obs <$> h_enq h' = h_out h' ++ (obs <$> held' ++ g_log (sel e g)) →
  Inv strict (mk_config q (<[t := p']> ths)) h'.
Proof using HI Ht.
  intros Hp Hp' Hok Hbr Hlag Hst Hinv Hhist.
  pose proof (holder_locked Hp) as (Hdl & _ & _ & _ & Hb & Hcap & _).
  apply (inv_holder q gd p' held' h'); try done.
  - by right.
  - by rewrite Hbr, Hlag.
  - intros Hs. destruct (cap_stale p); auto.
  - unfold gd. by rewrite upd_sel.
Qed.

(** The lock is released with a length that describes the buffer. *)
Lemma inv_unlock w p' gd' :
  is_holder p = true → is_holder p' = false → pc_ok strict p' →
  pending_of (buffers q) p' = None →
  cap_stale p = false → (all_done gd ∧ all_done gd' ∨ gd' = gd) →
  deq_word_ok d gd' w → held = g_rest gd' →
  buf_inv (sel d (buffers q)) (sel d (buffers_length q)) gd' →
  Inv strict (mk_config (set_dequeuing q w) (<[t := p']> ths)) h.
Proof using HI Ht.
  intros Hp Hp' Hok Hpd Hst Hd Hw Hheld Hb.
  pose proof (holder_locked Hp) as (_ & _ & _ & Hu & _ & Hcap & _).
  destruct HI as ((He & Hword & Hbe & Hdr) & Hths & _ & Hhist).
  assert (sel e (upd d gd' g) = sel e g) as Hge by (apply sel_upd_other'; done).
  exists e, cl, (upd d gd' g), held. unfold Inv_with; split_and!; simpl.
  - unfold enq_side; simpl. by rewrite Hge.
  - apply (threads_inv_update strict (buffers q) _ g _ _ _ p); try done.
    + apply pend_transfer; [done|]. rewrite sel_upd_eq. tauto.
    + rewrite Hpd. done.
    + intros i j. apply undone_same; [done|by apply pending_not_holder|]. by rewrite sel_upd_eq.
  - left. unfold unlocked. fold d. rewrite sel_upd_eq; simpl. split_and!; auto.
    intros t' p'' [[-> <-]|[Hne Ht']]%lookup_insert_Some; [done|].
    destruct (is_holder p'') eqn:Hh; [|done]. by destruct (Hu _ _ Ht' Hh).
  - by rewrite Hge.
Qed.

(** A thread takes the lock. *)
Lemma inv_lock w rz :
  is_holder p = false → pending_of (buffers q) p = None → rz_ok (B := B) strict rz →
  dequeuing_length q ≠ DEQUEUING_LOCKED → w = dequeuing_length q →
  Inv strict (mk_config (set_dequeuing q DEQUEUING_LOCKED)
                (<[t := DeqInternal w rz]> ths)) h.
Proof using HI Ht.
  intros Hp Hpn Hrz Hne ->. destruct HI as (Henq & Hths & Hlock & Hhist).
  destruct Hlock as [(Hno & Hw & Hheld & Hb & Hcap)|(t0 & p0 & Hl & _)]; [|done].
  exists e, cl, g, held. unfold Inv_with; split_and!; simpl; [done| | |done].
  - apply (threads_inv_neutral strict _ _ _ _ p); done.
  - right. exists t, (DeqInternal (dequeuing_length q) rz).
    unfold locked_by; simpl. rewrite lookup_insert_eq, Z.add_0_r.
    split_and!; auto.
    intros t' p'' [[-> <-]|[_ Ht']]%lookup_insert_Some; [done|].
    intros Hh. rewrite (Hno _ _ Ht') in Hh. done.
Qed.

(** The successful exchange of the buffers. *)
Lemma inv_swap dl cap nxt b :
  p = DeqSwap dl (enqueuing_capacity q) cap nxt b →
  Inv strict
    (mk_config
       (set_enqueuing q (EnqueuingCapacity.with_closed nxt (enqueuing_capacity q)))
       (<[t := DeqCapLoad dl (enqueuing_capacity q) cap]> ths))
    (hist_event h EvSwap).
Proof using HI Ht.
  intros Hp. assert (is_holder p = true) as Hhold by by rewrite Hp.
  pose proof (holder_locked Hhold) as (Hdl & _ & _ & Hu & Hbuf & Hcap & Hinv).
  pose proof (word_of_inv strict _ _ _ _ _ _ _ HI) as [He Hr].
  rewrite Hp in Hbuf, Hinv. simpl in Hbuf, Hinv. fold d gd in Hbuf, Hinv.
  destruct Hinv as (Hprep & Hov & -> & -> & Hwhy).
  destruct Hprep as (Hheld & _ & Hnc & Hins & Hdrn & Hall & Hm).
  rewrite Hov in Hm. destruct Hm as (Hnc' & Hpre & Hlen).
  specialize (Hbuf eq_refl). rewrite Z.add_0_r in Hbuf.
  destruct HI as ((_ & Hw & Hbe & Hdre) & Hths & _ & Hhist).
  assert (1 - d = e) as Hde by (unfold d; lia).
  assert (0 ≤ d ≤ 1) as Hd01 by (unfold d; lia).
  assert (0 ≤ capacity (sel d (buffers q)) - g_len gd < MAX_REMAINING) as Hrd.
  { pose proof (bi_len _ _ _ Hbuf). pose proof (bi_cap _ _ _ Hbuf).
    pose proof (g_len_nonneg gd). lia. }
  exists d, cl, g, (g_log (sel e g)). unfold Inv_with; split_and!; simpl.
  - unfold enq_side; simpl. fold gd. rewrite Hw, Hnc', Hlen.
    rewrite with_closed_enc by done. done.
  - apply (threads_inv_neutral strict _ _ _ _ p); try done. by apply pending_not_holder.
  - right. exists t, (DeqCapLoad dl (enqueuing_capacity q) (capacity (sel e (buffers q)))).
    unfold locked_by; simpl. rewrite Hde, lookup_insert_eq, Z.add_0_r.
    split_and!; try done.
    + intros t' p'' [[-> <-]|[_ Ht']]%lookup_insert_Some; eauto.
    + unfold swapped. rewrite Hde, Hw, buffer_index_enc, remaining_capacity_enc by done.
      split_and!; try done. intros Hnil. tauto.
  - fold gd. rewrite !fmap_app, Hhist, Hheld, <- Hpre, fmap_app. simpl.
    by rewrite (assoc_L (++)).
Qed.
End Steps.
End DequeuerSteps.
