(* ===== verification/StepInvariant.v ===== *)
(** * Every step of every thread preserves the invariant

    One lemma per handler of [Queue], on all its branches; [Inv_act] for an
    action of any thread, and [Inv_execution] by induction on executions. *)

From S2P Require Import Prelude PackedWords Errors Buffers Queue Machine Invariant GhostLemmas.
From S2P Require Import Preservation ResizeLoop DequeuerSteps.
#[local] Open Scope Z_scope.

Section StepInvariant.
Context {B S V E Ob : Type}.
Context `{L : BufferLaws B S V E Ob}.
Variable strict : bool.

Abbreviation pc := (pc S V E).
Abbreviation event := (event S V E).
Abbreviation gbuf := (gbuf (E := E)).
Implicit Types (ths : gmap nat pc) (p : pc).

(** What a step of thread [t] must establish. *)
Definition outcome_ok (q : Queue B) ths (t : nat) (h : hist (E := E) (Ob := Ob))
    (o : outcome (Queue B * pc * list event)) : Prop :=
  match o with
  | Ret (q', p', evs) =>
      Inv strict (mk_config q' (<[t := p']> ths)) (foldl hist_event h evs)
  | Panic => Inv strict (mk_config q (<[t := Panicked]> ths)) h
  | UB => False
  end.

Section Handlers.
Variables (q : Queue B) (ths : gmap nat pc) (h : hist (E := E) (Ob := Ob)).
Variables (e : Z) (cl : bool) (g : gbuf * gbuf) (held : list E).
Variable (t : nat).
Hypothesis HI : Inv_with strict q ths h e cl g held.
Let d : Z := 1 - e.
Let gd : gbuf := sel d g.

Abbreviation ok := (outcome_ok q ths t h).

Lemma pc_ok_t p : ths !! t = Some p → pc_ok strict p.
Proof using HI.
  destruct HI as (_ & Hths & _). exact (ti_pc _ _ _ _ Hths _ _).
Qed.

Lemma d_bound : 0 ≤ d ≤ 1.
Proof using HI. destruct HI as ((? & _) & _). unfold d. lia. Qed.

(** The holder's facts at its program point. *)
Lemma holder_facts p :
  ths !! t = Some p → is_holder p = true →
  dequeuing_length q = DEQUEUING_LOCKED ∧
  (broken p = false →
   buf_inv (sel d (buffers q)) (sel d (buffers_length q) + lag p) gd) ∧
  (cap_stale p = false → q_capacity q = capacity (sel e (buffers q))) ∧
  holder_inv strict q e g (h_pre h) held p ∧
  obs <$> h_enq h = h_out h ++ (obs <$> held ++ g_log (sel e g)).
Proof using HI.
  intros Ht Hp. pose proof (holder_locked _ _ _ _ _ _ _ _ _ _ HI Ht Hp) as Hl.
  destruct Hl as (? & _ & _ & _ & ? & ? & ?). destruct HI as (_ & _ & _ & ?).
  by split_and!.
Qed.

Lemma gd_bound b n : buf_inv b n gd → 0 ≤ g_len gd - g_drained gd < MAX_REMAINING.
Proof using.
  intros Hb. pose proof (bi_cap _ _ _ Hb). pose proof (bi_len _ _ _ Hb).
  pose proof (bi_drained _ _ _ Hb). lia.
Qed.

(** *** The enqueuer *)
Lemma ok_enq_start v : ths !! t = Some (EnqStart v) → ok (enq_start q v).
Proof using HI.
  intros Ht. pose proof (pc_ok_t _ Ht) as Hok. simpl in Hok.
  pose proof (valid_size_nonneg v Hok). unfold enq_start.
  destruct (Z.eqb_spec (size v) 0); simpl;
    eapply inv_neutral with (t := t); eauto; try done. simpl. split; [done|lia].
Qed.

Lemma ok_enq_loop sp v enq b : ths !! t = Some (EnqLoop v enq b) → ok (enq_loop sp q v enq b).
Proof using HI.
  intros Ht. pose proof (pc_ok_t _ Ht) as Hok. simpl in Hok.
  unfold enq_loop. destruct (EnqueuingCapacity.is_closed enq) eqn:Hcl; simpl.
  { eapply inv_neutral with (t := t); eauto; done. }
  destruct (EnqueuingCapacity.try_reserve enq (size v)) as [nxt|] eqn:Hres; simpl;
    [|eapply inv_neutral with (t := t); eauto; done].
  destruct (negb sp && (enqueuing_capacity q =? enq)) eqn:Hcas; simpl;
    [|eapply inv_neutral with (t := t); eauto; done].
  apply andb_true_iff in Hcas as [_ <-%Z.eqb_eq].
  destruct Hok. eapply inv_reserve with (t := t); eauto; done.
Qed.

Lemma ok_enq_insert v enq : ths !! t = Some (EnqInsert v enq) → ok (enq_insert q v enq).
Proof using HI.
  intros Ht. destruct (inv_insert _ _ _ _ _ _ _ _ _ _ HI Ht v enq eq_refl) as (q' & -> & Hq').
  done.
Qed.

Lemma ok_enq_add v enq : ths !! t = Some (EnqAdd v enq) → ok (enq_add q v enq).
Proof using HI.
  intros Ht. destruct (inv_add _ _ _ _ _ _ _ _ _ _ HI Ht v enq eq_refl) as (q' & -> & Hq').
  done.
Qed.

(** *** [close] and [reopen] *)
Lemma ok_close : ths !! t = Some (CloseOr) → ok (close_or q).
Proof using HI.
  intros Ht. destruct (word_of_inv _ _ _ _ _ _ _ _ HI) as [He Hr].
  pose proof HI as ((_ & Hw & _) & _). simpl.
  eapply (inv_reword _ _ _ _ _ _ _ _ _ _ HI Ht _ true); try done.
  rewrite Hw. by apply close_enc.
Qed.

Lemma ok_reopen : ths !! t = Some (ReopenAnd) → ok (reopen_and q).
Proof using HI.
  intros Ht. destruct (word_of_inv _ _ _ _ _ _ _ _ HI) as [He Hr].
  pose proof HI as ((_ & Hw & _) & _). simpl.
  eapply (inv_reword _ _ _ _ _ _ _ _ _ _ HI Ht _ false); try done.
  rewrite Hw. by apply reopen_enc.
Qed.

(** *** Taking the lock *)
Lemma ok_deq_start rz : ths !! t = Some (DeqStart rz) → ok (deq_start q rz).
Proof using HI.
  intros Ht. pose proof (pc_ok_t _ Ht) as Hok. simpl in Hok.
  unfold deq_start, DequeuingLength.try_from_atomic.
  destruct (Z.eqb_spec (dequeuing_length q) DEQUEUING_LOCKED) as [Heq|Hne]; simpl.
  - replace (set_dequeuing q DEQUEUING_LOCKED) with q
      by (rewrite <- Heq; by destruct q).
    eapply inv_neutral with (t := t); eauto; done.
  - eapply inv_lock with (t := t); eauto; try done.
Qed.

Lemma ok_deq_internal w rz : ths !! t = Some (DeqInternal w rz) → ok (deq_internal q w rz).
Proof using HI.
  intros Ht. pose proof (pc_ok_t _ Ht) as Hok. simpl in Hok.
  destruct (holder_facts _ Ht eq_refl) as (_ & Hb & _ & Hinv & Hh). simpl in Hb, Hinv. specialize (Hb eq_refl).
  destruct Hinv as (Hheld & Hw & Hnil). fold d gd in Hheld, Hw, Hnil.
  pose proof (gd_bound _ _ Hb) as Hlt. pose proof d_bound as Hd.
  unfold deq_internal. rewrite Hw, deq_buffer_len_enc, deq_buffer_index_enc by done.
  destruct (Z.eqb_spec (g_len gd - g_drained gd) 0) as [Hz|Hnz]; simpl.
  - assert (g_log gd = []) as Hl by (apply Hnil; lia).
    eapply (inv_holder_local _ _ _ _ _ _ _ _ _ _ HI Ht _ held);
      try done; simpl. fold d gd.
    rewrite Hheld, Hz, Hl. unfold g_rest. rewrite Hl, drop_nil. done.
  - eapply (inv_holder_local _ _ _ _ _ _ _ _ _ _ HI Ht _ held);
      try done; simpl. fold d gd. unfold spinning. fold d gd.
    split_and!; try done. lia.
Qed.

Lemma sel_e {A} (x : A) pr : sel e (upd d x pr) = sel e pr.
Proof using HI. destruct HI as ((? & _) & _). by apply sel_upd_other'. Qed.

(** The facts of the holder at the point of [Ht], simplified. *)
Ltac holder :=
  match goal with
  | Ht : ths !! t = Some _ |- _ =>
      destruct (holder_facts _ Ht eq_refl) as (Hdl & Hb & Hcap & Hinv & Hh);
      simpl in Hb, Hcap, Hinv;
      unfold prepared, swapped, spinning, taken in Hinv; fold d gd in Hb, Hinv;
      try (specialize (Hb eq_refl)); try (specialize (Hcap eq_refl));
      pose proof d_bound as Hd
  end.

(** Apply a local step of the holder with [x] still held. *)
Tactic Notation "local" constr(x) :=
  match goal with
  | Ht : ths !! t = Some _ |- _ =>
      eapply (inv_holder_local _ _ _ _ _ _ _ _ _ _ HI Ht _ x); try done;
      simpl; unfold prepared, swapped, spinning, taken; fold d gd;
      try done; try (split_and!; done)
  end.

Lemma empty_rest (g0 : gbuf) : g_log g0 = [] → g_rest g0 = [].
Proof using. intros Hl. unfold g_rest. by rewrite Hl, drop_nil. Qed.

Lemma empty_gd b n : buf_inv b n gd → g_log gd = [] → g_len gd = 0 ∧ g_drained gd = 0.
Proof using.
  intros Hb Hl. pose proof (bi_drained _ _ _ Hb).
  assert (g_len gd = 0) by (by apply g_len_nil). lia.
Qed.

(** The panics of the invariant: the buffer being resized is lost. *)
Lemma holder_panics p :
  ths !! t = Some p → is_holder p = true → cap_stale p = false →
  strict = false → held = [] → g_log gd = [] →
  Inv strict (mk_config q (<[t := Panicked]> ths)) h.
Proof using HI.
  intros Ht Hp Hst Hs Hheld Hl.
  destruct (holder_facts _ Ht Hp) as (Hdl & _ & Hcap & _ & Hh).
  eapply (inv_holder _ _ _ _ _ _ _ _ _ _ HI Ht q gd _ held); try done.
  - by right.
  - intros _. by apply Hcap.
  - simpl. fold d gd. unfold gd. rewrite upd_sel. done.
Qed.

(** *** Preparing the next buffer *)
Lemma ok_deq_resize w rz : ths !! t = Some (DeqResize w rz) → ok (deq_resize q w rz).
Proof using HI.
  intros Ht. pose proof (pc_ok_t _ Ht) as Hok. simpl in Hok. holder.
  destruct Hinv as (Hheld & -> & Hl). rewrite Z.add_0_r in Hb.
  destruct (empty_gd _ _ Hb Hl) as [Hlen Hdr].
  pose proof (bi_empty_count _ _ _ Hb Hl) as Hn.
  pose proof (bi_rep _ _ _ Hb) as HR. rewrite (bi_empty_cont _ _ _ Hb) in HR by lia.
  unfold deq_resize. rewrite deq_buffer_index_enc by (done || reflexivity).
  pose proof (apply_resize_spec strict rz _ HR (bi_cap _ _ _ Hb) Hok) as Hrs.
  destruct (apply_resize rz (sel d (buffers q))) as [[[b' resized] n]| |]; simpl;
    [|by apply (holder_panics _ Ht)|done].
  set (pre := values_elems _) in Hrs. pose proof (capacity_nonneg b').
  assert (all_done gd) as Hall by by apply empty_all_done.
  destruct (Z.ltb_spec (capacity b') n) as [Hov|Hov].
  - eapply (inv_holder _ _ _ _ _ _ _ _ _ _ HI Ht _ gd _ held);
      try done; simpl; fold d gd.
    + apply sel_e.
    + by left.
    + unfold overrun; simpl. by rewrite (proj2 (Z.ltb_lt _ _)).
    + unfold prepared; simpl. fold d. rewrite sel_upd_eq. unfold overrun; simpl.
      rewrite (proj2 (Z.ltb_lt _ _)) by done. split_and!; try done; lia.
  - destruct Hrs as (Hcap' & Hlenn & HR').
    set (gd' := mk_gbuf pre (seg 0 n) (map_seqZ 0 pre) 0).
    assert (g_len gd' = n) as Hlen' by done.
    eapply (inv_holder _ _ _ _ _ _ _ _ _ _ HI Ht _ gd' _ held);
      try done; simpl; fold d gd.
    + apply sel_e.
    + left. split; [done|]. intros j Hj. apply elem_of_seg. simpl. lia.
    + intros _. rewrite sel_upd_eq, Hn. by apply buf_inv_preloaded.
    + unfold prepared; simpl. fold d. rewrite !sel_upd_eq. unfold overrun; simpl.
      rewrite (proj2 (Z.ltb_ge _ _)) by done. split_and!; try done; try lia.
      intros j Hj. simpl. apply elem_of_seg. lia.
Qed.

Lemma ok_deq_add_inserted dl :
  ths !! t = Some (DeqAddInserted dl) → ok (deq_add_inserted q dl).
Proof using HI.
  intros Ht. holder. destruct Hinv as (Hheld & Hdq & Hnc & Hins & Hdr & Hall & Hm).
  unfold deq_add_inserted. rewrite Hdq, deq_buffer_index_enc by (done || reflexivity).
  set (q' := if 0 <? dl_inserted dl then _ else q). simpl.
  assert (sel e (buffers_length q') = sel e (buffers_length q)) as Hle.
  { unfold q'. destruct (_ <? _); [apply sel_e|done]. }
  assert (buffers q' = buffers q ∧ enqueuing_capacity q' = enqueuing_capacity q ∧
          dequeuing_length q' = dequeuing_length q ∧ q_capacity q' = q_capacity q)
    as (Hbs & Hwq & Hdlq & Hcq) by (unfold q'; by destruct (_ <? _)).
  eapply (inv_holder _ _ _ _ _ _ _ _ _ _ HI Ht _ gd _ held); try done;
    rewrite ?Hbs, ?Hwq, ?Hdlq, ?Hcq; fold d gd; try done.
  - by right.
  - simpl. intros Hov. rewrite Hov in Hm. destruct Hm as (_ & _ & Hlen).
    specialize (Hb Hov). rewrite Z.add_0_r. unfold q'.
    pose proof (bi_full_count _ _ _ Hb Hall).
    destruct (Z.ltb_spec 0 (dl_inserted dl)); simpl.
    + rewrite sel_upd_eq, wrapping_add_small; [done|lia|lia|].
      pose proof (bi_len _ _ _ Hb). pose proof (bi_cap _ _ _ Hb).
      unfold MAX_REMAINING in *. zlia.
    + by replace (dl_inserted dl) with 0 in Hb by lia; rewrite Z.add_0_r in Hb.
  - simpl. unfold prepared. unfold gd. rewrite upd_sel, Hbs. done.
Qed.

Lemma ok_deq_load dl : ths !! t = Some (DeqLoad dl) → ok (deq_load q dl).
Proof using HI.
  intros Ht. holder. pose proof Hinv as (_ & Hdq & _).
  destruct (word_of_inv _ _ _ _ _ _ _ _ HI) as [He Hr].
  pose proof HI as ((_ & Hw & _) & _).
  unfold deq_load. rewrite Hdq, deq_buffer_index_enc by (done || reflexivity).
  rewrite Hw, buffer_index_enc by done.
  rewrite (proj2 (Z.eqb_neq d e)) by (unfold d; lia). simpl.
  local held. split; [done|].
  rewrite buffer_index_enc, remaining_capacity_enc by done.
  split; [done|]. intros Hl%g_len_nil. lia.
Qed.

Lemma ok_deq_check dl enq : ths !! t = Some (DeqCheck dl enq) → ok (deq_check q dl enq).
Proof using HI.
  intros Ht. holder.
  destruct Hinv as ((Hheld & Hdq & Hnc & Hins & Hdr & Hall & Hm) & Hbi & Hrem).
  unfold deq_check. rewrite Hbi, Hdq, deq_buffer_index_enc by (done || reflexivity).
  destruct (_ && _ && _) eqn:Hempty.
  - apply andb_true_iff in Hempty as [Hempty Hi0%Z.eqb_eq].
    assert (overrun dl = false) as Hov by (apply Z.ltb_ge; lia).
    apply andb_true_iff in Hempty as [Hroom%Z.eqb_eq _].
    by local held.
  - destruct (overrun dl) eqn:Hov.
    + destruct Hm as [Hs Hl]. unfold overrun in Hov. apply Z.ltb_lt in Hov.
      unfold usize_sub. rewrite (proj2 (Z.leb_gt _ _)) by done.
      simpl. by apply (holder_panics _ Ht).
    + destruct Hm as (Hnc' & Hpre & Hlen). specialize (Hb eq_refl).
      pose proof (bi_len _ _ _ Hb). pose proof (bi_cap _ _ _ Hb).
      rewrite usize_sub_Ret by lia. simpl. rewrite new_enc by lia. simpl.
      local held. rewrite Hov. split_and!; try done.
      apply andb_false_iff in Hempty as [[Hempty|Hempty]%andb_false_iff|Hempty].
      * right; right. intros Hnil. apply Z.eqb_neq in Hempty. auto.
      * left. by apply negb_false_iff.
      * right; left. apply Z.eqb_neq in Hempty. lia.
Qed.

Lemma ok_deq_restore dl enq :
  ths !! t = Some (DeqRestore dl enq) → ok (deq_restore q dl enq).
Proof using HI.
  intros Ht. holder.
  destruct Hinv as ((Hheld & Hdq & Hnc & Hins & Hdr & Hall & Hm) & Hov & Hi0 & _).
  rewrite Hov in Hm. destruct Hm as (_ & _ & Hlen). rewrite Z.add_0_r in Hb.
  assert (g_log gd = []) as Hl by (apply g_len_nil; lia). simpl.
  eapply (inv_unlock _ _ _ _ _ _ _ _ _ _ HI Ht _ _ gd); try done.
  - by right.
  - fold d. split; [|done]. rewrite Hdq. f_equal. lia.
  - by rewrite empty_rest.
Qed.

Lemma ok_deq_swap sp dl enq cap nxt b :
  ths !! t = Some (DeqSwap dl enq cap nxt b) → ok (deq_swap sp q dl enq cap nxt b).
Proof using HI.
  intros Ht. unfold deq_swap.
  destruct (negb sp && (enqueuing_capacity q =? enq)) eqn:Hcas; simpl.
  - apply andb_true_iff in Hcas as [_ <-%Z.eqb_eq].
    by eapply (inv_swap _ _ _ _ _ _ _ _ _ _ HI Ht).
  - holder. by local held.
Qed.

(** *** After the swap *)
Lemma ok_deq_cap_load dl enq cap :
  ths !! t = Some (DeqCapLoad dl enq cap) → ok (deq_cap_load q dl enq cap).
Proof using HI.
  intros Ht. holder. unfold deq_cap_load.
  destruct (Z.eqb_spec (q_capacity q) (dl_next_capa dl)); simpl; local held.
  intros _ _. destruct Hinv as (_ & _ & _ & _ & _ & Hnc & _). congruence.
Qed.

Lemma ok_deq_cap_store dl enq cap :
  ths !! t = Some (DeqCapStore dl enq cap) → ok (deq_cap_store q dl enq cap).
Proof using HI.
  intros Ht. holder. simpl.
  eapply (inv_holder _ _ _ _ _ _ _ _ _ _ HI Ht _ gd _ held); try done.
  - by right.
  - intros _. apply Hinv.
  - simpl. unfold swapped, gd. by rewrite upd_sel.
Qed.

Lemma ok_deq_notify dl enq cap :
  ths !! t = Some (DeqNotify dl enq cap) → ok (deq_notify q dl enq cap).
Proof using HI. intros Ht. holder. simpl. by local held. Qed.

Lemma ok_deq_match dl enq cap :
  ths !! t = Some (DeqMatch dl enq cap) → ok (deq_match q dl enq cap).
Proof using HI.
  intros Ht. holder.
  destruct Hinv as (Hheld & Hdr & -> & Hbi & Hrem & Hnc & Hwhy).
  rewrite Z.add_0_r in Hb. pose proof (gd_bound _ _ Hb) as Hlt.
  unfold deq_match. rewrite Hbi, Hrem, usize_sub_Ret by lia. simpl.
  replace (capacity (sel d (buffers q)) - _) with (g_len gd) by lia.
  assert (held = g_rest gd) as Hrest by (unfold g_rest; rewrite Hdr; done).
  destruct (Z.eqb_spec (g_len gd) 0) as [Hz|Hnz]; simpl.
  - assert (g_log gd = []) as Hl by by apply g_len_nil.
    destruct (Z.ltb_spec 0 (dl_inserted dl)) as [Hi|Hi]; simpl.
    + rewrite deq_new_enc by (done || reflexivity). local held.
      split; [done|]. split; [f_equal; lia|done].
    + destruct Hwhy as [->|]; [done| |lia]. simpl. local held.
      by rewrite Hheld.
  - local held. split_and!; try done; lia.
Qed.

Lemma ok_deq_ack i : ths !! t = Some (DeqAck i) → ok (deq_ack q i).
Proof using HI.
  intros Ht. holder. destruct Hinv as (Hheld & -> & Hl). rewrite Z.add_0_r in Hb.
  destruct (empty_gd _ _ Hb Hl) as [Hlen Hdr].
  unfold deq_ack. rewrite deq_new_enc by (done || reflexivity). simpl.
  eapply (inv_unlock _ _ _ _ _ _ _ _ _ _ HI Ht _ _ gd); try done.
  - by right.
  - fold d. split; [f_equal; lia|done].
  - by rewrite empty_rest.
Qed.

(** *** [try_dequeue_spin] *)
Lemma ok_deq_spin i len n :
  ths !! t = Some (DeqSpin i len n) → ok (deq_spin q i len n).
Proof using HI.
  intros Ht. holder. destruct Hinv as (Hheld & -> & -> & Hpos).
  rewrite Z.add_0_r in Hb. pose proof (bi_drained _ _ _ Hb).
  destruct n as [|n]; simpl; [by local held|].
  destruct (Z.leb_spec (g_len gd - g_drained gd) (sel d (buffers_length q)));
    [|local held; split_and!; done].
  assert (all_done gd) as Hall.
  { destruct (Z.eq_dec (g_drained gd) 0).
    - apply (bi_full _ _ _ Hb). lia.
    - apply (bi_drained_done _ _ _ Hb). lia. }
  assert (g_log gd ≠ []) by (intros ?%g_len_nil; lia).
  simpl. local held. rewrite (bi_full_count _ _ _ Hb Hall).
  split_and!; try done; [f_equal; lia|].
  intros Hnil. pose proof (g_rest_length _ _ _ Hb) as Hl. rewrite <- Hheld, Hnil in Hl.
  simpl in Hl. lia.
Qed.

Lemma ok_deq_take i r : ths !! t = Some (DeqTake i r) → ok (deq_take q i r).
Proof using HI.
  intros Ht. holder. destruct Hinv as ((-> & -> & Hall & Hne) & Hheld & _).
  rewrite Z.add_0_r in Hb.
  destruct (slice_rest _ _ _ Hb Hall Hne) as (sl & Hsl & Hv).
  unfold deq_take. rewrite Hsl. simpl. by local held.
Qed.

Lemma ok_get_slice it : ths !! t = Some (GetSlice it) → ok (get_slice q it).
Proof using HI.
  intros Ht. holder. destruct Hinv as ((Hi & Hr & Hall & Hne) & Hheld).
  rewrite Z.add_0_r in Hb.
  destruct (slice_rest _ _ _ Hb Hall Hne) as (sl & Hsl & Hv).
  unfold get_slice. rewrite Hi, Hr, Hsl. simpl. by local held.
Qed.

Lemma ok_deq_save i len : ths !! t = Some (DeqSave i len) → ok (deq_save q i len).
Proof using HI.
  intros Ht. holder. destruct Hinv as (Hheld & -> & -> & Hpos).
  rewrite Z.add_0_r in Hb. pose proof (gd_bound _ _ Hb).
  unfold deq_save. rewrite deq_new_enc by (done || lia). simpl.
  eapply (inv_unlock _ _ _ _ _ _ _ _ _ _ HI Ht _ _ gd); try done.
  - by right.
  - fold d. split; [done|lia].
Qed.

(** *** Releasing and requeuing *)
Lemma ok_rel_clear i r : ths !! t = Some (RelClear i r) → ok (rel_clear q i r).
Proof using HI.
  intros Ht. holder. destruct Hinv as ((-> & -> & Hall & Hne) & Hheld).
  rewrite Z.add_0_r in Hb.
  destruct (clear_step _ _ _ Hb Hall) as (b' & Hb' & Hbuf & _).
  unfold rel_clear. rewrite Hb'. simpl.
  eapply (inv_holder _ _ _ _ _ _ _ _ _ _ HI Ht _ (g_cleared gd) _ held);
    try done; simpl; fold d gd.
  - apply sel_e.
  - left. by split.
  - intros _. by rewrite sel_upd_eq, Z.add_0_r.
  - rewrite sel_upd_eq. by split_and!.
Qed.

Lemma ok_rel_len i : ths !! t = Some (RelLen i) → ok (rel_len q i).
Proof using HI.
  intros Ht. holder. destruct Hinv as (Hheld & -> & Hdr & Hall).
  pose proof (bi_rep _ _ _ Hb) as HR. rewrite (bi_empty_cont _ _ _ Hb Hdr) in HR.
  unfold rel_len. simpl.
  eapply (inv_holder _ _ _ _ _ _ _ _ _ _ HI Ht _ g_fresh _ held);
    try done; simpl; fold d gd.
  - apply sel_e.
  - left. split; [done|]. by apply empty_all_done.
  - intros _. rewrite sel_upd_eq. apply buf_inv_fresh; [done|apply (bi_cap _ _ _ Hb)].
  - rewrite sel_upd_eq. by split_and!.
Qed.

Lemma ok_rel_unlock i : ths !! t = Some (RelUnlock i) → ok (rel_unlock q i).
Proof using HI.
  intros Ht. holder. destruct Hinv as (Hheld & -> & Hl). rewrite Z.add_0_r in Hb.
  destruct (empty_gd _ _ Hb Hl) as [Hlen Hdr].
  unfold rel_unlock. rewrite deq_new_enc by (done || reflexivity). simpl.
  eapply (inv_unlock _ _ _ _ _ _ _ _ _ _ HI Ht _ _ gd); try done.
  - by right.
  - fold d. split; [f_equal; lia|done].
  - by rewrite empty_rest.
Qed.

Lemma ok_requeue i r : ths !! t = Some (Requeue i r) → ok (queue_requeue q i r).
Proof using HI.
  intros Ht. holder. destruct Hinv as ((-> & -> & Hall & Hne) & Hheld).
  rewrite Z.add_0_r in Hb. pose proof (gd_bound _ _ Hb).
  unfold queue_requeue. simpl. rewrite usize_sub_Ret by lia. simpl.
  destruct (Z.ltb_spec 0 (g_len gd - g_drained gd)); simpl.
  - rewrite deq_new_enc by (done || lia).
    eapply (inv_unlock _ _ _ _ _ _ _ _ _ _ HI Ht _ _ gd); try done.
    + by right.
    + fold d. split; [done|lia].
  - local held. split_and!; try done. rewrite Hheld.
    apply nil_length_inv. pose proof (g_rest_length _ _ _ Hb). lia.
Qed.

(** *** Assigning through the slice *)
Lemma ok_slice_assign bs k x :
  ths !! t = Some (SliceSet bs k x) → ok (slice_assign q bs k x).
Proof using HI.
  intros Ht. pose proof (pc_ok_t _ Ht) as Hsome. simpl in Hsome. holder.
  destruct Hinv as ((Hi & Hr & Hall & Hne) & Hheld & Hk).
  rewrite Z.add_0_r in Hb. unfold slice_assign.
  destruct slice_mut as [ops|] eqn:Hops in Hsome |- *; [|done].
  pose proof (g_rest_length _ _ _ Hb) as Hrl.
  destruct (assign_step ops _ _ _ (Z.to_nat k) x Hops Hb Hall) as (b' & sl & Hset & Hv & _ & Hbuf);
    [lia|].
  rewrite Z2Nat.id in Hset by lia. rewrite Hi, Hr, Hset. simpl.
  assert (all_done (g_assign gd (Z.to_nat k) x)) as Hall'.
  { intros j. rewrite g_assign_len. apply Hall. }
  eapply (inv_holder _ _ _ _ _ _ _ _ _ _ HI Ht _ (g_assign gd (Z.to_nat k) x) _
            (g_rest (g_assign gd (Z.to_nat k) x))); try done; simpl; fold d gd.
  - apply sel_e.
  - left. by split.
  - intros _. by rewrite sel_upd_eq, Z.add_0_r.
  - unfold taken. fold d. rewrite sel_upd_eq, g_assign_len, g_rest_assign. split_and!; try done.
    intros Hnil. apply Hne, length_zero_iff_nil. apply (f_equal length) in Hnil. simpl in Hnil.
    by rewrite length_insert in Hnil.
  - rewrite list_fmap_insert, Hh, insert_app_r, Hheld, g_rest_assign. f_equal.
    rewrite !fmap_app, list_fmap_insert. apply insert_app_l. rewrite length_fmap. lia.
Qed.

(** *** The draining iterator *)
Lemma ok_iter_remove it :
  ths !! t = Some (IterRemove it) → ok (iter_remove q it).
Proof using HI.
  intros Ht. pose proof (pc_ok_t _ Ht) as Hsome. simpl in Hsome. holder. destruct Hinv as ((Hi & Hr & Hall & Hne) & Hheld & Hlt).
  rewrite Z.add_0_r in Hb. unfold iter_remove.
  destruct remove as [rm|] eqn:Hrm in Hsome |- *; [|done].
  rewrite Hdl, Z.eqb_refl, Hi, Hr. simpl.
  destruct (remove_step rm _ _ _ Hrm Hb Hall Hlt) as (b' & x & Hb' & Hbuf & Hrest & _).
  rewrite Hb'. simpl.
  eapply (inv_holder _ _ _ _ _ _ _ _ _ _ HI Ht _ (g_removed gd) _
            (g_rest (g_removed gd))); try done; simpl; fold d gd.
  - by rewrite Hrm.
  - apply sel_e.
  - left. by split.
  - intros _. by rewrite sel_upd_eq, Z.add_0_r.
  - unfold taken. fold d. rewrite sel_upd_eq. by split_and!.
  - rewrite Hh, Hheld, Hrest. simpl. by rewrite <- !(assoc_L (++)).
Qed.

(** *** Calls *)
Lemma ok_call c p p' evs :
  ths !! t = Some p → call_ok strict c → start_call p c = Some (p', evs) →
  Inv strict (mk_config q (<[t := p']> ths)) (foldl hist_event h evs).
Proof using HI.
  intros Ht Hc Hs.
  assert (ready p = true → evs = [] → is_holder p' = false → pc_ok strict p' →
          pending_of (buffers q) p' = None →
          Inv strict (mk_config q (<[t := p']> ths)) (foldl hist_event h evs))
    as Hready.
  { intros Hr -> ???. eapply (inv_neutral _ _ _ _ _ _ _ _ _ _ HI Ht); try done;
      by destruct p. }
  unfold_start_in Hs.
  destruct c; simpl in Hs, Hc;
    try (destruct (ready p) eqn:Hr; [|done]; simplify_eq/=; by apply Hready).
  - destruct (ready p) eqn:Hr; [|done].
    destruct (is_some resize) eqn:Hsome; simplify_eq/=.
    apply Hready; try done. by intros ? [= <-].
  - destruct p; try done. destruct (is_some slice_mut) eqn:Hsome; [|done].
    destruct (_ && _) eqn:Hk; simplify_eq. apply andb_true_iff in Hk as [Hk1 Hk2].
    apply Z.leb_le in Hk1. apply Z.ltb_lt in Hk2. holder.
    destruct Hinv as ((? & Hr & ? & ?) & Hheld & _). rewrite Hr in Hk2. simpl in Hk2.
    local held.
  - destruct p; simplify_eq. holder. local (@nil E).
    + destruct Hinv as ((? & ? & ? & ?) & _). by split_and!.
    + destruct Hinv as (_ & Hheld & Hv).
      rewrite Hh, Hv, Hheld, !fmap_app. by rewrite (assoc_L (++)).
  - destruct p; simplify_eq. holder. local held. by destruct Hinv as (? & ? & _).
  - destruct p; try done. destruct (is_some remove) eqn:Hsome; simplify_eq.
    holder. local held. by destruct Hinv as (? & ? & _).
  - destruct p; try done. pose proof (pc_ok_t _ Ht) as Hok; simpl in Hok.
    destruct (range_is_empty _) eqn:Hemp; simplify_eq; holder.
    + by local held.
    + local held. destruct Hinv as ((Hi & Hr & Hall & Hne) & Hheld).
      split_and!; try done. rewrite Hr in Hemp. unfold range_is_empty in Hemp.
      simpl in Hemp. apply negb_false_iff, Z.ltb_lt in Hemp. done.
  - destruct p; simplify_eq. holder. by local held.
  - destruct p; simplify_eq. holder. by local held.
  - rewrite Hc in Hs. destruct p; simplify_eq. pose proof (pc_ok_t _ Ht) as Hok.
    holder. by local held.
Qed.

Lemma ok_step sp p o :
  ths !! t = Some p → step sp q p = Some o → ok o.
Proof using HI.
  intros Ht Hs. destruct p; simpl in Hs; try discriminate; injection Hs as <-.
  - by apply ok_enq_start.
  - by apply ok_enq_loop.
  - by apply ok_enq_insert.
  - by apply ok_enq_add.
  - by eapply (inv_neutral _ _ _ _ _ _ _ _ _ _ HI Ht).
  - by apply ok_deq_start.
  - by apply ok_deq_internal.
  - by apply ok_deq_resize.
  - by apply ok_deq_add_inserted.
  - by apply ok_deq_load.
  - by apply ok_deq_check.
  - by apply ok_deq_restore.
  - by apply ok_deq_swap.
  - by apply ok_deq_cap_load.
  - by apply ok_deq_cap_store.
  - by apply ok_deq_notify.
  - by apply ok_deq_match.
  - by apply ok_deq_ack.
  - by apply ok_deq_spin.
  - by apply ok_deq_take.
  - by apply ok_deq_save.
  - by apply ok_slice_assign.
  - by apply ok_rel_clear.
  - by apply ok_rel_len.
  - by apply ok_rel_unlock.
  - by apply ok_requeue.
  - by apply ok_iter_remove.
  - by apply ok_get_slice.
  - by apply ok_close.
  - by eapply (inv_neutral _ _ _ _ _ _ _ _ _ _ HI Ht).
  - by eapply (inv_neutral _ _ _ _ _ _ _ _ _ _ HI Ht).
  - by apply ok_reopen.
Qed.
End Handlers.

(** ** Every action, every execution *)
Lemma Inv_act c h t a c' evs :
  Inv strict c h → action_ok strict a → act c t a = Some (c', evs) →
  Inv strict c' (foldl hist_event h evs).
Proof.
  intros (e & cl & g & held & HI) Hok Ha. unfold act in Ha.
  apply bind_Some in Ha as (p & Ht & Ha). destruct c as [q ths]; simpl in *.
  destruct a as [m|sp]; simpl in *.
  - apply bind_Some in Ha as ([p' evs'] & Hs & [= <- <-]).
    by eapply ok_call.
  - apply bind_Some in Ha as (o & Hs & [= Ho]).
    pose proof (ok_step _ _ _ _ _ _ _ _ HI sp p o Ht Hs) as Hout.
    destruct o as [[[q' p'] evs']| |]; simplify_eq; simpl in *; done.
Qed.

Lemma Inv_execution c0 h0 tr c :
  Inv strict c0 h0 → execution (action_ok strict) c0 tr c →
  Inv strict c (foldl hist_event h0 tr).
Proof.
  intros H0' Hex. induction Hex as [|tr c t a c' evs Hex IH Hok Ha]; [done|].
  rewrite foldl_app. by eapply Inv_act.
Qed.

(** ** New queues *)
Definition h_empty : hist (E := E) (Ob := Ob) := mk_hist [] [] [].

Lemma initial_threads (q : Queue B) n t p :
  threads (initial (S := S) (V := V) (E := E) q n) !! t = Some p → p = Idle.
Proof.
  simpl. rewrite lookup_map_seq_Some. intros [_ Hp].
  by apply lookup_replicate in Hp as [-> _].
Qed.

Lemma Inv_initial b0 b1 w c n :
  Rep b0 ∅ → Rep b1 ∅ → c = capacity b0 → c < MAX_REMAINING →
  capacity b1 < MAX_REMAINING → w = enc false 0 c →
  Inv strict (initial (mk_Queue w (DequeuingLength.new 1 0) (b0, b1) (0, 0) c) n) h_empty.
Proof.
  intros HR0 HR1 -> Hc0 Hc1 ->. pose proof (capacity_nonneg b0).
  assert (buf_inv b0 0 g_fresh) by by apply buf_inv_fresh.
  assert (buf_inv b1 0 g_fresh) by by apply buf_inv_fresh.
  exists 0, false, (g_fresh, g_fresh), []. unfold Inv_with; split_and!.
  - unfold enq_side; simpl. split_and!; try done. by rewrite Z.sub_0_r.
  - split.
    + by intros t p ->%initial_threads.
    + by intros t p pd ->%initial_threads.
    + by intros t1 t2 p1 p2 pd1 pd2 _ ->%initial_threads.
    + intros i j _ [Hj _]. exfalso. unfold g_len, sel in Hj.
      destruct (i =? 0); simpl in Hj; lia.
  - left. unfold unlocked. split_and!; try done.
    by intros t p ->%initial_threads.
  - done.
Qed.

Lemma Inv_queue_new q n :
  queue_new = Ret q → Inv strict (initial q n) h_empty.
Proof.
  unfold queue_new, EnqueuingCapacity.check_overflow. cbn [sel Z.eqb fst].
  pose proof (capacity_nonneg (buf_default (B := B))).
  change (shr usize_MAX 2) with 4611686018427387903.
  destruct (Z.ltb_spec (capacity (buf_default (B := B))) 4611686018427387903);
    simpl; [|by intros].
  rewrite new_enc by (unfold MAX_REMAINING; lia). simpl. intros [= <-].
  apply Inv_initial; try done; try apply rep_default; unfold MAX_REMAINING; lia.
Qed.

Lemma Inv_queue_with_capacity rs c q n :
  resize = Some rs → 0 ≤ c → queue_with_capacity rs c = Ret q →
  Inv strict (initial q n) h_empty.
Proof.
  intros Hrs Hc. unfold queue_with_capacity, EnqueuingCapacity.check_overflow.
  change (shr usize_MAX 2) with 4611686018427387903.
  destruct (Z.ltb_spec c 4611686018427387903); simpl; [|by intros].
  destruct (resize_spec rs buf_default c Hrs rep_default) as [HR Hcap]; [lia|].
  rewrite new_enc by (unfold MAX_REMAINING; lia). simpl. intros [= <-].
  apply Inv_initial; try done; unfold MAX_REMAINING; lia.
Qed.
End StepInvariant.
