(* ===== verification/Concurrent.v ===== *)
(** * The queue under every interleaving of calls

    The theorems about all executions of a queue shared by any number of
    threads, read off the invariant of [StepInvariant]: order and exactly-once
    delivery, the content of slices, absence of undefined behaviour and of
    panics, mutual exclusion of dequeuing, disjoint accesses to the buffers,
    the ranges of the atomic words, closing, and when a dequeuer can be told
    to come back later. *)

From S2P Require Import Prelude PackedWords Errors Buffers CellBuffers Queue Machine Scenario.
From S2P Require Import Invariant GhostLemmas Preservation DequeuerSteps StepInvariant.
#[local] Open Scope Z_scope.

(** ** Runs *)
Section Runs.
Context {B S V E Ob : Type}.
Context `{L : BufferLaws B S V E Ob}.

Abbreviation pc := (pc S V E).
Abbreviation event := (event S V E).
Abbreviation gbuf := (gbuf (E := E)).
Abbreviation config := (config B S V E).

(** A queue built by [new] or [with_capacity]. *)
Definition built (q0 : Queue B) : Prop :=
  queue_new = Ret q0 ∨
  ∃ rs c, resize = Some rs ∧ 0 ≤ c ∧ queue_with_capacity rs c = Ret q0.

(** [c] is reached by an execution of [n] threads on a new queue, with trace
    [tr]; [strict]: the resizing calls fit (see [fits]). *)
Definition run (strict : bool) (n : nat) (tr : list event) (c : config) : Prop :=
  ∃ q0, built q0 ∧ execution (action_ok strict) (initial q0 n) tr c.

Lemma run_inv strict n tr c : run strict n tr c → Inv strict c (hist_of tr).
Proof.
  intros (q0 & [Hq|(rs & cap & Hrs & Hc & Hq)] & Hex).
  - eapply Inv_execution; [by apply Inv_queue_new|done].
  - eapply Inv_execution; [by eapply Inv_queue_with_capacity|done].
Qed.

(** What a thread may touch of a buffer at its next step, or through the
    handle it has: the slots it inserts, or the whole buffer. *)
Inductive access : Type :=
  | Inserts (i : Z) (r : range)
  | Owns (i : Z).

Definition access_of (bs : B * B) (p : pc) : option access :=
  match p with
  | EnqInsert v enq =>
      let i := EnqueuingCapacity.buffer_index enq in
      let s := capacity (sel i bs) - EnqueuingCapacity.remaining_capacity enq in
      Some (Inserts i (Range s (s + size v)))
  | DeqResize w _ => Some (Owns (DequeuingLength.buffer_index w))
  | DeqTake i _ | RelClear i _ => Some (Owns i)
  | Slice s | SliceSet s _ _ => Some (Owns (bs_buffer_index s))
  | Iter it _ | IterRemove it | GetSlice it => Some (Owns (it_buffer_index it))
  | _ => None
  end.

Definition compatible (a1 a2 : access) : Prop :=
  match a1, a2 with
  | Inserts i1 r1, Inserts i2 r2 =>
      i1 = i2 → r_end r1 ≤ r_start r2 ∨ r_end r2 ≤ r_start r1
  | Inserts i _, Owns j | Owns j, Inserts i _ => i ≠ j
  | Owns _, Owns _ => False
  end.

Definition in_bounds (bs : B * B) (a : access) : Prop :=
  match a with
  | Inserts i r => 0 ≤ i ≤ 1 ∧ 0 ≤ r_start r ∧ r_end r ≤ capacity (sel i bs)
  | Owns i => 0 ≤ i ≤ 1
  end.

(** A thread with a reservation on buffer [i] it has not acknowledged. *)
Definition enqueuing_on (i : Z) (p : pc) : bool :=
  match p with
  | EnqInsert _ enq | EnqAdd _ enq => EnqueuingCapacity.buffer_index enq =? i
  | _ => false
  end.

(** ** What a step does to the enqueuing word *)
Inductive word_move (q q' : Queue B) (p : pc) (evs : list event) : Prop :=
  | word_same :
      enqueuing_capacity q' = enqueuing_capacity q →
      (∀ v, EvReserve v ∉ evs) → word_move q q' p evs
  | word_reserve v b :
      p = EnqLoop v (enqueuing_capacity q) b → evs = [EvReserve v] →
      queue_is_closed q = false →
      EnqueuingCapacity.try_reserve (enqueuing_capacity q) (size v)
        = Some (enqueuing_capacity q') → word_move q q' p evs
  | word_swap dl capa nxt b :
      p = DeqSwap dl (enqueuing_capacity q) capa nxt b → evs = [EvSwap] →
      enqueuing_capacity q' =
        EnqueuingCapacity.with_closed nxt (enqueuing_capacity q) →
      word_move q q' p evs
  | word_close :
      p = CloseOr → evs = [] →
      enqueuing_capacity q' = EnqueuingCapacity.close (enqueuing_capacity q) →
      word_move q q' p evs
  | word_reopen :
      p = ReopenAnd → evs = [] →
      enqueuing_capacity q' = EnqueuingCapacity.reopen (enqueuing_capacity q) →
      word_move q q' p evs.

(** No reservation among explicit events. *)
Ltac no_reserve :=
  let v := fresh "v" in let Hv := fresh "Hv" in
  intros v Hv; repeat (apply elem_of_cons in Hv as [Hv|Hv]; [discriminate Hv|]);
  by apply elem_of_nil in Hv.

Lemma step_word sp (q q' : Queue B) p p' evs :
  step sp q p = Some (Ret (q', p', evs)) → word_move q q' p evs.
Proof.
  intros Hs. destruct p; simpl in Hs; try discriminate; apply (inj Some) in Hs;
    try (unfold enq_start, enq_insert, enq_add, enq_notify, deq_start, deq_internal,
           deq_resize, deq_add_inserted, deq_load, deq_check, deq_restore, deq_cap_load,
           deq_cap_store, deq_notify, deq_match, deq_ack, deq_spin, deq_take, deq_save,
           rel_clear, rel_len, rel_unlock, queue_requeue, get_slice, slice_assign, iter_remove in Hs;
         inv_ret Hs; by (apply word_same; [simpl; try case_match|no_reserve])).
  - unfold enq_loop in Hs.
    destruct (EnqueuingCapacity.is_closed enqueuing) eqn:Hcl;
      [inv_ret Hs; by (apply word_same; [simpl; try case_match|no_reserve])|].
    destruct (EnqueuingCapacity.try_reserve enqueuing (size value)) eqn:Hr;
      [|inv_ret Hs; by (apply word_same; [simpl; try case_match|no_reserve])].
    destruct (_ && _) eqn:Hc; simplify_eq/=; [|by (apply word_same; [|no_reserve])].
    apply andb_true_iff in Hc as [_ <-%Z.eqb_eq]. by eapply word_reserve.
  - unfold deq_swap in Hs. destruct (_ && _) eqn:Hc; simplify_eq/=;
      [|by (apply word_same; [|no_reserve])].
    apply andb_true_iff in Hc as [_ <-%Z.eqb_eq]. by eapply word_swap.
  - injection Hs as <- <- <-. by apply word_close.
  - injection Hs as <- <- <-. by apply word_reopen.
Qed.

(** An action that is not a step leaves the queue alone. *)
Lemma act_word (c c' : config) t a evs :
  act c t a = Some (c', evs) →
  queue c' = queue c ∧ (∀ v, EvReserve v ∉ evs) ∨
  ∃ p p' sp, threads c !! t = Some p ∧ a = Run sp ∧
    step sp (queue c) p = Some (Ret (queue c', p', evs)).
Proof.
  unfold act. intros (p & Hp & Ha)%bind_Some. destruct a as [m|sp].
  - apply bind_Some in Ha as ([p' evs'] & Hs & [= <- <-]). left. split; [done|].
    unfold_start_in Hs.
    destruct m; simpl in Hs; repeat (case_match; try discriminate);
      simplify_eq; no_reserve.
  - apply bind_Some in Ha as (o & Hs & [= Ho]).
    destruct o as [[[q' p'] evs']| |]; simplify_eq; [right; eauto 10|left; split; [done|no_reserve]..].
Qed.

(** ** Facts of the invariant *)
Section Facts.
Variables (strict : bool) (q : Queue B) (ths : gmap nat pc).
Variables (h : hist (E := E) (Ob := Ob)).
Variables (e : Z) (cl : bool) (g : gbuf * gbuf) (held : list E).
Hypothesis HI : Inv_with strict q ths h e cl g held.
Let d : Z := 1 - e.
Let gd : gbuf := sel d g.

Lemma inv_locked t p : ths !! t = Some p → is_holder p = true →
  locked_by strict q e g (h_pre h) held ths t p.
Proof using HI. intros Ht Hp. by apply (holder_locked _ _ _ _ _ _ _ _ _ _ HI Ht). Qed.

(** The words, decoded. *)
Lemma inv_word :
  0 ≤ e ≤ 1 ∧ EnqueuingCapacity.buffer_index (enqueuing_capacity q) = e ∧
  EnqueuingCapacity.remaining_capacity (enqueuing_capacity q)
    = capacity (sel e (buffers q)) - g_len (sel e g) ∧
  EnqueuingCapacity.is_closed (enqueuing_capacity q) = cl ∧
  0 ≤ g_len (sel e g) ≤ capacity (sel e (buffers q)) ∧
  capacity (sel e (buffers q)) < MAX_REMAINING.
Proof using HI.
  destruct (word_of_inv _ _ _ _ _ _ _ _ HI) as [He Hr].
  destruct HI as ((_ & Hw & Hb & _) & _). rewrite Hw.
  rewrite buffer_index_enc, remaining_capacity_enc, is_closed_enc by done.
  pose proof (bi_len _ _ _ Hb). pose proof (bi_cap _ _ _ Hb).
  pose proof (g_len_nonneg (sel e g)). split_and!; done || lia.
Qed.

(** A thread that owns a buffer holds the dequeuing side, and its buffer
    is the complete one. *)
Lemma inv_owns t p i : ths !! t = Some p → access_of (buffers q) p = Some (Owns i) →
  is_holder p = true ∧ i = d ∧ all_done gd.
Proof using HI.
  intros Ht Ha. assert (is_holder p = true) as Hp by by destruct p.
  split; [done|]. destruct (inv_locked _ _ Ht Hp) as (_ & _ & _ & _ & _ & _ & Hinv).
  destruct inv_word as (He & _).
  destruct p; simplify_eq/=; unfold taken in Hinv; fold d gd in Hinv;
    try (destruct Hinv as ((? & ? & ? & ?) & _); done).
  destruct Hinv as (_ & -> & Hl). fold d.
  rewrite deq_buffer_index_enc by (done || (unfold d; lia)).
  split; [done|]. by apply empty_all_done.
Qed.

Lemma inv_inserts t p i r : ths !! t = Some p →
  access_of (buffers q) p = Some (Inserts i r) →
  ∃ pd, pending_of (buffers q) p = Some pd ∧ pd_buf pd = i ∧
        r = Range (pd_off pd) (pd_off pd + pd_size pd) ∧ pend_ok (sel i g) pd.
Proof using HI.
  intros Ht Ha. destruct p; simplify_eq/=.
  eexists; split; [done|]. split_and!; try done.
  destruct HI as (_ & Hths & _). exact (ti_pend _ _ _ _ Hths _ _ _ Ht eq_refl).
Qed.

(** A buffer with reservations is described by the invariant. *)
Lemma inv_buf i : 0 ≤ i ≤ 1 → g_log (sel i g) ≠ [] →
  ∃ n, buf_inv (sel i (buffers q)) n (sel i g).
Proof using HI.
  intros Hi Hne. pose proof HI as ((? & _ & Hb & _) & _ & Hlock & _).
  destruct (Z.eq_dec i e) as [->|]; [eauto|].
  assert (i = d) as -> by (unfold d; lia).
  destruct Hlock as [(_ & _ & _ & ? & _)|(t & p & _ & _ & _ & _ & Hbr & _ & Hinv)];
    [eauto|].
  destruct (broken p) eqn:Hp; [|eauto].
  by destruct Hne; apply (holder_broken_empty _ _ _ _ _ _ _ Hinv).
Qed.

Lemma inserts_in_bounds pd :
  pend_ok (sel (pd_buf pd) g) pd →
  0 ≤ pd_buf pd ≤ 1 ∧ 0 ≤ pd_off pd ∧
  pd_off pd + pd_size pd ≤ capacity (sel (pd_buf pd) (buffers q)).
Proof using HI.
  intros HP. pose proof (po_buf _ _ HP). pose proof (po_off _ _ HP).
  pose proof (po_end _ _ HP). pose proof (po_size _ _ HP).
  destruct (inv_buf (pd_buf pd)) as [n Hb]; [done| |].
  - intros ?%g_len_nil. lia.
  - pose proof (bi_len _ _ _ Hb). lia.
Qed.

Lemma inserts_not_owned t1 t2 p1 p2 i r j :
  ths !! t1 = Some p1 → ths !! t2 = Some p2 →
  access_of (buffers q) p1 = Some (Inserts i r) →
  access_of (buffers q) p2 = Some (Owns j) → i ≠ j.
Proof using HI.
  intros Ht1 Ht2 Ha1 Ha2 ->.
  destruct (inv_inserts _ _ _ _ Ht1 Ha1) as (pd & _ & _ & _ & HP).
  destruct (inv_owns _ _ _ Ht2 Ha2) as (_ & -> & Hall).
  exact (all_done_no_pend _ _ Hall HP).
Qed.

(** What two threads may touch at the same time is disjoint. *)
Lemma inv_compatible t1 t2 p1 p2 a1 a2 : t1 ≠ t2 →
  ths !! t1 = Some p1 → ths !! t2 = Some p2 →
  access_of (buffers q) p1 = Some a1 → access_of (buffers q) p2 = Some a2 →
  compatible a1 a2.
Proof using HI.
  intros Hne Ht1 Ht2 Ha1 Ha2.
  destruct a1 as [i1 r1|i1], a2 as [i2 r2|i2]; simpl.
  - destruct (inv_inserts _ _ _ _ Ht1 Ha1) as (pd1 & Hpd1 & <- & -> & _).
    destruct (inv_inserts _ _ _ _ Ht2 Ha2) as (pd2 & Hpd2 & <- & -> & _).
    destruct HI as (_ & Hths & _).
    exact (ti_disjoint _ _ _ _ Hths _ _ _ _ _ _ Hne Ht1 Ht2 Hpd1 Hpd2).
  - exact (inserts_not_owned _ _ _ _ _ _ _ Ht1 Ht2 Ha1 Ha2).
  - exact (inserts_not_owned _ _ _ _ _ _ _ Ht2 Ht1 Ha2 Ha1).
  - destruct (inv_owns _ _ _ Ht1 Ha1) as (Hp1 & _).
    destruct (inv_owns _ _ _ Ht2 Ha2) as (Hp2 & _).
    destruct (inv_locked _ _ Ht2 Hp2) as (_ & _ & _ & Hu & _).
    by apply Hne, (Hu _ p1).
Qed.

Lemma inv_lock_word :
  dequeuing_length q = DEQUEUING_LOCKED ↔
  ∃ t p, ths !! t = Some p ∧ is_holder p = true.
Proof using HI.
  destruct inv_word as (He & _).
  pose proof HI as (_ & _ & [(Hno & (Hw & _) & _ & Hb & _)|(t & p & Hl & Ht & Hp & _)] & _).
  - split.
    + rewrite Hw. intros Hl. exfalso. revert Hl. apply deq_enc_unlocked; [lia|].
      pose proof (bi_cap _ _ _ Hb). pose proof (bi_len _ _ _ Hb).
      pose proof (bi_drained _ _ _ Hb). lia.
    + intros (t & p & Ht & Hp). rewrite (Hno _ _ Ht) in Hp. done.
  - split; [eauto|done].
Qed.
End Facts.

(** ** Order and delivery *)

(** C1: exactly-once, in order. What the dequeuer consumed is always a prefix
    of what was enqueued, in the order of the reservations; an element assigned
    through its slice counts as enqueued with its new value. *)
Theorem dequeued_prefix strict n tr c :
  run strict n tr c →
  ∃ rest, obs <$> enqueued tr = dequeued tr ++ rest.
Proof.
  intros (e & cl & g & held & _ & _ & _ & Hh)%run_inv. eauto.
Qed.

(** C14: a dequeued slice is the next segment of what was enqueued, and it is
    everything enqueued before the swap: only [len] elements come after it. *)
Theorem slice_is_next strict n tr c t s :
  run strict n tr c → threads c !! t = Some (Slice s) →
  ∃ rest, obs <$> enqueued tr = dequeued tr ++ view (bs_slice s) ++ rest ∧
          Z.of_nat (length rest) = queue_len (queue c) (queue c) ∧
          Z.of_nat (length (view (bs_slice s)))
            = r_end (bs_range s) - r_start (bs_range s).
Proof.
  intros (e & cl & g & held & HI)%run_inv Ht.
  destruct (holder_facts _ _ _ _ _ _ _ _ _ HI _ Ht eq_refl) as (_ & Hb & Hcap & Hinv & Hh).
  specialize (Hb eq_refl). specialize (Hcap eq_refl). rewrite Z.add_0_r in Hb.
  destruct Hinv as ((_ & Hr & _ & _) & Hheld & Hv).
  destruct (inv_word _ _ _ _ _ _ _ _ HI) as (_ & _ & Hrem & _ & Hlen & _).
  exists (obs <$> g_log (sel e g)). unfold enqueued, dequeued, queue_len, queue_capacity, saturating_sub.
  rewrite Hh, Hv, Hheld, fmap_app, Hrem, Hcap, !length_fmap.
  rewrite (g_rest_length _ _ _ Hb), Hr. unfold g_len in *. split_and!; done || lia.
Qed.

(** C21: nothing is lost. Once no call is in progress and no handle is held,
    the elements not consumed are those [len] counts in the enqueuing buffer
    and those the dequeuing word counts in the other one. *)
Theorem nothing_lost strict n tr c :
  run strict n tr c →
  (∀ t p, threads c !! t = Some p → is_holder p = false) →
  Z.of_nat (length (enqueued tr)) =
    Z.of_nat (length (dequeued tr)) + queue_len (queue c) (queue c) +
    DequeuingLength.buffer_len (dequeuing_length (queue c)).
Proof.
  intros (e & cl & g & held & HI)%run_inv Hidle.
  destruct (inv_word _ _ _ _ _ _ _ _ HI) as (He & _ & Hrem & _ & Hlen & _).
  destruct HI as (_ & _ & [(_ & (Hw & _) & Hheld & Hb & Hcap)|
    (t & p & _ & Ht & Hp & _)] & Hh); [|rewrite (Hidle _ _ Ht) in Hp; done].
  unfold enqueued, dequeued, queue_len, queue_capacity, saturating_sub.
  rewrite <- (length_fmap obs (h_enq _)), Hh, length_app, length_fmap, length_app.
  pose proof (gd_bound _ _ _ _ Hb).
  rewrite Hw, deq_buffer_len_enc, Hrem, Hcap, Hheld by (done || lia).
  pose proof (g_rest_length _ _ _ Hb). unfold g_len in *. lia.
Qed.

(** C11: a dequeue answers [Empty] or [Closed] only when it has found nothing, whatever was
    done since. Either it exchanged no buffer: then all that is not consumed was reserved since
    it loaded the enqueuing word, which counts it, and it answers [Closed] if that word
    was closed; or it resized, and exchanged the buffers: then all that is not consumed was
    reserved in the new one, and it answers [Empty] even if the queue is closed. *)
Theorem nothing_left strict n tr c t p sp q' e evs :
  run strict n tr c → threads c !! t = Some p →
  step sp (queue c) p = Some (Ret (q', DeqErr e, evs)) →
  e = TryDequeueError.Empty ∨ e = TryDequeueError.Closed →
  ∃ since, obs <$> enqueued tr = dequeued tr ++ since ∧
    match p with
    | DeqRestore _ enq =>
        Z.of_nat (length since) = EnqueuingCapacity.remaining_capacity enq -
          EnqueuingCapacity.remaining_capacity (enqueuing_capacity (queue c)) ∧
        (e = TryDequeueError.Closed ↔ EnqueuingCapacity.is_closed enq = true)
    | DeqAck _ =>
        Z.of_nat (length since) = queue_len (queue c) (queue c) ∧ e = TryDequeueError.Empty
    | _ => False
    end.
Proof.
  intros (en & cl & g & held & HI)%run_inv Ht Hs He.
  destruct (inv_word _ _ _ _ _ _ _ _ HI) as (_ & _ & Hrem & _ & Hlen & _).
  assert ((∃ dl enq, p = DeqRestore dl enq) ∨ ∃ i, p = DeqAck i) as Hp.
  { remember (DeqErr e : pc) as p' eqn:Hp'.
    destruct p; simpl in Hs; try discriminate; apply (inj Some) in Hs; eauto;
      unfold_step_in Hs; inv_ret Hs; try discriminate Hp'; injection Hp' as Hp';
      rewrite <- Hp' in He; by destruct He. }
  assert (is_holder p = true) as Hh by (by destruct Hp as [(? & ? & ->)|[? ->]]).
  destruct (holder_facts _ _ _ _ _ _ _ _ _ HI _ Ht Hh) as (_ & _ & Hcap & Hinv & Henq).
  assert (held = []) as -> by (destruct Hp as [(? & ? & ->)|[? ->]]; apply Hinv).
  exists (obs <$> g_log (sel en g)). split; [exact Henq|]. rewrite length_fmap.
  destruct Hp as [(dl & enq & ->)|[i ->]]; simpl in Hs, Hinv.
  - destruct Hinv as (_ & _ & _ & Hroom). rewrite Hrem, Hroom. unfold g_len. split; [lia|].
    unfold deq_restore in Hs. injection Hs as _ <- _.
    by destruct (EnqueuingCapacity.is_closed enq).
  - unfold queue_len, queue_capacity, saturating_sub. rewrite Hrem, (Hcap eq_refl).
    unfold g_len in *. split; [lia|].
    unfold deq_ack in Hs. by injection Hs as _ <- _.
Qed.

(** ** Safety *)
(** C17: no undefined behaviour in any execution: no slot is read before it is
    inserted, whatever the interleaving. *)
Theorem no_undefined_behaviour strict n tr c t :
  run strict n tr c → threads c !! t ≠ Some Undefined.
Proof.
  intros (e & cl & g & held & _ & Hths & _)%run_inv Ht.
  by apply (ti_pc _ _ _ _ Hths _ _ Ht).
Qed.

(** C18: no panic, when the resizing calls fit: no index out of range, no
    overflow, no failed assertion. *)
Theorem no_panic n tr c t :
  run true n tr c → threads c !! t ≠ Some Panicked.
Proof.
  intros (e & cl & g & held & HI)%run_inv Ht.
  by destruct (inv_locked _ _ _ _ _ _ _ _ HI _ _ Ht eq_refl)
    as (_ & _ & _ & _ & _ & _ & Hf & _).
Qed.

(** C19: dequeuing is exclusive: at most one thread is between locking and
    releasing, and the word says so. *)
Theorem dequeuing_exclusive strict n tr c :
  run strict n tr c →
  (∀ t1 t2 p1 p2, threads c !! t1 = Some p1 → threads c !! t2 = Some p2 →
     is_holder p1 = true → is_holder p2 = true → t1 = t2) ∧
  (dequeuing_length (queue c) = DEQUEUING_LOCKED ↔
   ∃ t p, threads c !! t = Some p ∧ is_holder p = true).
Proof.
  intros (e & cl & g & held & HI)%run_inv. split; [|by eapply inv_lock_word].
  intros t1 t2 p1 p2 Ht1 Ht2 Hp1 Hp2.
  destruct (inv_locked _ _ _ _ _ _ _ _ HI _ _ Ht2 Hp2) as (_ & _ & _ & Hu & _). eauto.
Qed.

(** a call of [try_dequeue] answers [Conflict] exactly when another thread
    is dequeuing, and such a call changes nothing. *)
Theorem conflict_iff_dequeuing strict n tr c rz :
  run strict n tr c →
  (∃ t p, threads c !! t = Some p ∧ is_holder p = true) ↔
  deq_start (queue c) rz
    = Ret (queue c, DeqErr TryDequeueError.Conflict : pc, []).
Proof.
  intros (e & cl & g & held & HI)%run_inv. rewrite <- (inv_lock_word _ _ _ _ _ _ _ _ HI).
  unfold deq_start, DequeuingLength.try_from_atomic.
  destruct (Z.eqb_spec (dequeuing_length (queue c)) DEQUEUING_LOCKED) as [Heq|]; simpl.
  - split; [|done]. intros _. do 3 f_equal. rewrite <- Heq. by destruct (queue c).
  - split; [done|]. by intros [=].
Qed.

(** C15: freedom from data races on the buffers. What two threads may touch at
    the same time is disjoint, and in bounds. *)
Theorem accesses_compatible strict n tr c :
  run strict n tr c →
  (∀ t p a, threads c !! t = Some p → access_of (buffers (queue c)) p = Some a →
     in_bounds (buffers (queue c)) a) ∧
  (∀ t1 t2 p1 p2 a1 a2, t1 ≠ t2 →
     threads c !! t1 = Some p1 → threads c !! t2 = Some p2 →
     access_of (buffers (queue c)) p1 = Some a1 →
     access_of (buffers (queue c)) p2 = Some a2 → compatible a1 a2).
Proof.
  intros (e & cl & g & held & HI)%run_inv.
  destruct (inv_word _ _ _ _ _ _ _ _ HI) as (He & _). split.
  - intros t p a Ht Ha. destruct a as [i r|i].
    + destruct (inv_inserts _ _ _ _ _ _ _ _ HI _ _ _ _ Ht Ha)
        as (pd & _ & <- & -> & HP).
      exact (inserts_in_bounds _ _ _ _ _ _ _ _ HI _ HP).
    + destruct (inv_owns _ _ _ _ _ _ _ _ HI _ _ _ Ht Ha) as (_ & -> & _). simpl. lia.
  - by eapply inv_compatible.
Qed.

(** C20: the packed words stay in range: no carry ever crosses a field, and
    neither counter exceeds the capacity of its buffer. *)
Theorem words_in_range strict n tr c :
  run strict n tr c →
  let q := queue c in
  let e := EnqueuingCapacity.buffer_index (enqueuing_capacity q) in
  let cap_e := capacity (sel e (buffers q)) in
  let cap_d := capacity (sel (1 - e) (buffers q)) in
  enqueuing_capacity q =
    enc (queue_is_closed q) e (EnqueuingCapacity.remaining_capacity (enqueuing_capacity q)) ∧
  0 ≤ EnqueuingCapacity.remaining_capacity (enqueuing_capacity q) ≤ cap_e ∧
  cap_e < MAX_REMAINING ∧ 0 ≤ sel e (buffers_length q) ≤ cap_e ∧
  (dequeuing_length q = DEQUEUING_LOCKED ∨
   ∃ l, dequeuing_length q = deq_enc (1 - e) l ∧ 0 ≤ l ≤ cap_d ∧ cap_d < MAX_REMAINING ∧
        0 ≤ sel (1 - e) (buffers_length q) ≤ cap_d).
Proof.
  intros (e & cl & g & held & HI)%run_inv.
  destruct (inv_word _ _ _ _ _ _ _ _ HI) as (He & He' & Hrem & Hcl & Hlen & Hcap).
  unfold queue_is_closed. rewrite He', Hrem, Hcl. cbv zeta.
  destruct HI as ((_ & Hw & Hb & _) & _ & Hlock & _).
  pose proof (bi_count_le _ _ _ Hb). split_and!; try done; try lia.
  destruct Hlock as [(_ & (Hd & _) & _ & Hbd & _)|(t & p & Hl & _)]; [right|by left].
  eexists; split; [exact Hd|]. pose proof (bi_count_le _ _ _ Hbd).
  pose proof (bi_drained _ _ _ Hbd). pose proof (bi_len _ _ _ Hbd).
  pose proof (bi_cap _ _ _ Hbd). lia.
Qed.

(** a reservation is exact: it only happens on an open word with enough
    room, takes [size v] slots of the same buffer, and leaves the flag. *)
Theorem reservation_exact strict n tr c t a c' evs v :
  run strict n tr c → act c t a = Some (c', evs) → EvReserve v ∈ evs →
  let w := enqueuing_capacity (queue c) in
  let w' := enqueuing_capacity (queue c') in
  EnqueuingCapacity.is_closed w = false ∧ EnqueuingCapacity.is_closed w' = false ∧
  EnqueuingCapacity.buffer_index w' = EnqueuingCapacity.buffer_index w ∧
  0 < size v ≤ EnqueuingCapacity.remaining_capacity w ∧
  EnqueuingCapacity.remaining_capacity w' =
    EnqueuingCapacity.remaining_capacity w - size v.
Proof.
  intros (e & cl & g & held & HI)%run_inv Ha Hin.
  destruct (word_of_inv _ _ _ _ _ _ _ _ HI) as [He Hr].
  pose proof HI as ((_ & Hw & _) & Hths & _).
  destruct (act_word _ _ _ _ _ Ha) as [[_ Hno]|(p & p' & sp & Hp & _ & Hs)];
    [by destruct (Hno v)|].
  destruct (step_word _ _ _ _ _ _ Hs)
    as [? Hno|v' b -> -> Hop Hres|? ? ? ? ? ->|? ->|? ->];
    [by destruct (Hno v)| |exfalso; revert v Hin; no_reserve..].
  apply list_elem_of_singleton in Hin as [= <-].
  destruct (ti_pc _ _ _ _ Hths _ _ Hp) as [Hv Hpos].
  destruct (valid_size v Hv) as [_ Hmax].
  unfold queue_is_closed in Hop. cbv zeta. rewrite Hw in *.
  rewrite is_closed_enc in Hop by done. subst cl.
  rewrite try_reserve_enc in Hres by (try done; zlia).
  destruct (Z.leb_spec (size v) (capacity (sel e (buffers (queue c))) - g_len (sel e g)));
    [|done]. injection Hres as <-.
  rewrite !is_closed_enc, !buffer_index_enc, !remaining_capacity_enc by (done || lia).
  split_and!; done || lia.
Qed.

(** ** Closing *)
(** a closed queue accepts nothing: no step of any thread reserves. *)
Theorem closed_no_reservation (c c' : config) t (a : action V E) evs v :
  queue_is_closed (queue c) = true → act c t a = Some (c', evs) →
  EvReserve v ∉ evs.
Proof.
  unfold queue_is_closed. intros Hcl Ha Hin.
  destruct (act_word _ _ _ _ _ Ha) as [[_ Hno]|(p & p' & sp & _ & _ & Hs)];
    [by apply (Hno v)|].
  unfold queue_is_closed in *.
  destruct (step_word _ _ _ _ _ _ Hs) as [? Hno|? ? ? ? Hop|? ? ? ? ? ->|? ->|? ->];
    [by apply (Hno v)| |revert v Hin; no_reserve..].
  unfold queue_is_closed in Hop. congruence.
Qed.

(** only [reopen] reopens: any other action of a thread leaves a closed
    queue closed, the exchange of the buffers included. *)
Theorem closed_until_reopened strict n tr c t a c' evs :
  run strict n tr c → act c t a = Some (c', evs) →
  threads c !! t ≠ Some ReopenAnd →
  queue_is_closed (queue c) = true → queue_is_closed (queue c') = true.
Proof.
  intros (e & cl & g & held & HI)%run_inv Ha Hne. unfold queue_is_closed.
  destruct (word_of_inv _ _ _ _ _ _ _ _ HI) as [He Hr].
  pose proof HI as ((_ & Hw & _) & _).
  destruct (act_word _ _ _ _ _ Ha) as [[-> _]|(p & p' & sp & Hp & _ & Hs)]; [done|].
  destruct (step_word _ _ _ _ _ _ Hs) as [-> |? ? ? ? Hop|dl capa nxt b -> _ -> |? ? -> |];
    try done.
  - unfold queue_is_closed in Hop. congruence.
  - apply with_closed_keeps.
  - by rewrite Hw, close_enc, !is_closed_enc by done.
  - congruence.
Qed.

(** ** Progress *)
(** In the spin loop, without an insertion in progress the length is there. *)
Lemma spin_complete strict (q : Queue B) ths h e cl g held t i len k :
  Inv_with strict q ths h e cl g held → ths !! t = Some (DeqSpin i len k) →
  (∀ t' p, ths !! t' = Some p → enqueuing_on i p = false) →
  0 ≤ i ≤ 1 ∧ len ≤ sel i (buffers_length q).
Proof.
  intros HI Ht Hno.
  destruct (holder_facts _ _ _ _ _ _ _ _ _ HI _ Ht eq_refl) as (_ & Hb & _ & Hinv & _).
  specialize (Hb eq_refl). rewrite Z.add_0_r in Hb.
  destruct Hinv as (_ & -> & -> & _). destruct (inv_word _ _ _ _ _ _ _ _ HI) as (He & _).
  set (gd := sel (1 - e) g) in *.
  assert (all_done gd) as Hall.
  { intros j Hj. destruct (decide (j ∈ g_done gd)) as [|Hnd]; [done|exfalso].
    destruct HI as (_ & Hths & _).
    destruct (ti_cover _ _ _ _ Hths (1 - e) j) as (t' & p' & Ht' & pd & Hpd & Hbuf & _);
      [lia|by split|].
    specialize (Hno _ _ Ht'). destruct p'; simplify_eq/=; apply Z.eqb_neq in Hno; congruence. }
  pose proof (bi_full_count _ _ _ Hb Hall). pose proof (bi_drained _ _ _ Hb). lia.
Qed.

(** a dequeuer waits for insertions only. When no thread is between its
    reservation on the dequeued buffer and its acknowledgement, the next turn
    of the spin loop takes the buffer, so [Pending] is not answered. *)
Theorem spin_succeeds strict n tr c t i len k :
  run strict n tr c → threads c !! t = Some (DeqSpin i len (Datatypes.S k)) →
  (∀ t' p, threads c !! t' = Some p → enqueuing_on i p = false) →
  ∃ r, deq_spin (queue c) i len (Datatypes.S k)
         = Ret (queue c, DeqTake i r : pc, []) ∧ r_end r - r_start r = len.
Proof.
  intros (e & cl & g & held & HI)%run_inv Ht Hno.
  destruct (spin_complete _ _ _ _ _ _ _ _ _ _ _ _ HI Ht Hno) as [_ Hlen].
  simpl. rewrite (proj2 (Z.leb_le _ _)) by done. eexists; split; [done|]. simpl. lia.
Qed.

(** [len] and [capacity] are exact while no call is dequeuing: the field
    is the capacity of the enqueuing buffer, [len] the slots reserved in it. *)
Theorem len_exact strict n tr c :
  run strict n tr c →
  (∀ t p, threads c !! t = Some p → is_holder p = false) →
  let q := queue c in
  let w := enqueuing_capacity q in
  q_capacity q = capacity (sel (EnqueuingCapacity.buffer_index w) (buffers q)) ∧
  queue_len q q + EnqueuingCapacity.remaining_capacity w = q_capacity q ∧
  (queue_is_empty q q = true ↔ EnqueuingCapacity.remaining_capacity w = q_capacity q).
Proof.
  intros (e & cl & g & held & HI)%run_inv Hidle. cbv zeta.
  destruct (inv_word _ _ _ _ _ _ _ _ HI) as (_ & -> & Hrem & _ & Hlen & _).
  unfold queue_is_empty, queue_len, queue_capacity, saturating_sub. rewrite Hrem.
  destruct HI as (_ & _ & [(_ & _ & _ & _ & ->)|(t & p & _ & Ht & Hp & _)] & _);
    [|rewrite (Hidle _ _ Ht) in Hp; done].
  rewrite Z.eqb_eq. split_and!; lia.
Qed.
End Runs.

(** ** Concrete runs, and the theorems at work on them *)
Lemma vec_queue_built (c : Z) : 0 ≤ c < 4611686018427387903 → built (vec_queue c).
Proof.
  intros Hc. right. exists VecBuffer.resize, c. split; [done|]. split; [lia|].
  unfold vec_queue. destruct (queue_with_capacity VecBuffer.resize c) eqn:Hq; [done| |].
  all: exfalso; revert Hq; unfold queue_with_capacity, EnqueuingCapacity.check_overflow;
    change (shr usize_MAX 2) with 4611686018427387903;
    rewrite (proj2 (Z.ltb_lt _ _)) by lia; simpl;
    rewrite new_enc by (unfold MAX_REMAINING; lia); done.
Qed.

Lemma scenario_execution (strict : bool) (c : Z) (n : nat) (sched : list (nat * action val nat)) :
  is_some (exec (vec_initial c n) sched) = true →
  Forall (λ ta, action_ok (B := buf) strict ta.2) sched →
  execution (action_ok strict) (vec_initial c n) (scenario c n sched).2 (scenario c n sched).1.
Proof.
  intros Hex Hok. unfold scenario, is_some in *.
  destruct (exec (vec_initial c n) sched) as [[c' tr]|] eqn:He; [|done].
  by eapply exec_execution.
Qed.

Lemma scenario_run (strict : bool) (c : Z) (n : nat) (sched : list (nat * action val nat)) :
  0 ≤ c < 4611686018427387903 →
  is_some (exec (vec_initial c n) sched) = true →
  Forall (λ ta, action_ok (B := buf) strict ta.2) sched →
  run strict n (scenario c n sched).2 (scenario c n sched).1.
Proof.
  intros Hc Hex Hok. exists (vec_queue c). split; [by apply vec_queue_built|].
  by apply scenario_execution.
Qed.

(** The actions of a concrete schedule are allowed. *)
Ltac actions_ok :=
  repeat constructor; cbn; try done; intros; simplify_eq; lia.

Lemma run_interleaved :
  run true 3 (scenario 4 3 sched_interleaved).2 (scenario 4 3 sched_interleaved).1.
Proof. apply scenario_run; [lia|vm_compute; reflexivity|actions_ok]. Qed.

Lemma run_pending :
  run true 3 (scenario 4 3 sched_pending).2 (scenario 4 3 sched_pending).1.
Proof. apply scenario_run; [lia|vm_compute; reflexivity|actions_ok]. Qed.

Lemma run_released :
  run true 3 (scenario 4 3 sched_released).2 (scenario 4 3 sched_released).1.
Proof. apply scenario_run; [lia|vm_compute; reflexivity|actions_ok]. Qed.

Lemma run_closed :
  run true 3 (scenario 4 3 sched_closed).2 (scenario 4 3 sched_closed).1.
Proof. apply scenario_run; [lia|vm_compute; reflexivity|actions_ok]. Qed.

Lemma run_spinning :
  run true 3 (scenario 4 3 sched_spinning).2 (scenario 4 3 sched_spinning).1.
Proof. apply scenario_run; [lia|vm_compute; reflexivity|actions_ok]. Qed.

Lemma run_reserving :
  run true 3 (scenario 4 3 sched_reserving).2 (scenario 4 3 sched_reserving).1.
Proof. apply scenario_run; [lia|vm_compute; reflexivity|actions_ok]. Qed.

Lemma run_emptied :
  run true 3 (scenario 4 3 sched_emptied).2 (scenario 4 3 sched_emptied).1.
Proof. apply scenario_run; [lia|vm_compute; reflexivity|actions_ok]. Qed.

(** A decidable property of all the threads of a concrete configuration. *)
Ltac all_threads := refine (bool_decide_unpack (map_Forall _ _) _); vm_compute; exact I.

(** After the release, three elements are consumed and one waits. *)
Lemma dequeued_prefix_witness :
  dequeued (scenario 4 3 sched_released).2 = [1; 2; 3]%nat ∧
  ∃ rest, [1; 2; 3; 4]%nat = [1; 2; 3]%nat ++ rest.
Proof.
  split; [vm_compute; reflexivity|].
  exact (dequeued_prefix true 3 _ _ run_released).
Defined.

Lemma slice_is_next_witness :
  ∃ rest, [1; 2; 3]%nat = [] ++ [1; 2; 3]%nat ++ rest ∧
          Z.of_nat (length rest) = 0 ∧ Z.of_nat (length [1; 2; 3]%nat) = 3 - 0.
Proof.
  exact (slice_is_next true 3 _ _ 2%nat
           (mk_BufferSlice 0 (Range 0 3) [1; 2; 3]%nat)
           run_interleaved ltac:(vm_compute; reflexivity)).
Defined.

Lemma nothing_lost_witness :
  Z.of_nat (length [1; 2; 3; 4]%nat) = Z.of_nat (length [1; 2; 3]%nat) + 1 + 0.
Proof.
  refine (nothing_lost true 3 _ _ run_released _).
  all_threads.
Defined.

(** The queue is empty and closed. *)
Lemma nothing_left_witness :
  let c := (scenario 4 3 sched_emptied).1 in
  ∃ dl enq since, threads c !! 2%nat = Some (DeqRestore dl enq) ∧
    [1; 2; 3]%nat = [1; 2; 3]%nat ++ since ∧
    Z.of_nat (length since) = EnqueuingCapacity.remaining_capacity enq -
      EnqueuingCapacity.remaining_capacity (enqueuing_capacity (queue c)) ∧
    (TryDequeueError.Closed = TryDequeueError.Closed ↔ EnqueuingCapacity.is_closed enq = true).
Proof.
  assert (∃ dl enq, threads (scenario 4 3 sched_emptied).1 !! 2%nat = Some (DeqRestore dl enq) ∧
    EnqueuingCapacity.is_closed enq = true) as (dl & enq & Ht & Hc)
    by (eexists _, _; split; [vm_compute; reflexivity|vm_compute; reflexivity]).
  assert (enqueued (scenario 4 3 sched_emptied).2 = [1; 2; 3]%nat ∧
    dequeued (scenario 4 3 sched_emptied).2 = [1; 2; 3]%nat) as [He Hd]
    by (split; vm_compute; reflexivity).
  exists dl, enq. revert Ht He Hd. pose proof run_emptied as Hr. revert Hr.
  generalize (scenario 4 3 sched_emptied). intros [c tr] Hr Ht He Hd. simpl in *.
  destruct (nothing_left true 3 tr c 2%nat (DeqRestore dl enq) false
    (set_dequeuing (queue c) (dl_dequeuing dl)) TryDequeueError.Closed [] Hr Ht)
    as (since & Hs & Hlen).
  - simpl. unfold deq_restore. by rewrite Hc.
  - by right.
  - exists since. split; [exact Ht|]. rewrite He, Hd in Hs. exact (conj Hs Hlen).
Defined.

Lemma no_undefined_behaviour_witness :
  threads (scenario 4 3 sched_released).1 !! 2%nat ≠ Some Undefined.
Proof. exact (no_undefined_behaviour true 3 _ _ 2%nat run_released). Defined.

Lemma no_panic_witness :
  threads (scenario 4 3 sched_released).1 !! 2%nat ≠ Some Panicked.
Proof. exact (no_panic 3 _ _ 2%nat run_released). Defined.

(** Thread 2 holds a slice: the word is locked, thread 2 alone holds. *)
Lemma dequeuing_exclusive_witness :
  (∀ t1 t2 p1 p2, threads (scenario 4 3 sched_interleaved).1 !! t1 = Some p1 →
     threads (scenario 4 3 sched_interleaved).1 !! t2 = Some p2 →
     is_holder p1 = true → is_holder p2 = true → t1 = t2) ∧
  (DEQUEUING_LOCKED = DEQUEUING_LOCKED ↔
   ∃ t p, threads (scenario 4 3 sched_interleaved).1 !! t = Some p ∧ is_holder p = true).
Proof. exact (dequeuing_exclusive true 3 _ _ run_interleaved). Defined.

Lemma conflict_iff_dequeuing_witness :
  deq_start (queue (scenario 4 3 sched_interleaved).1) None
    = Ret (queue (scenario 4 3 sched_interleaved).1,
           DeqErr TryDequeueError.Conflict : pc (list nat) val nat, []).
Proof.
  apply (conflict_iff_dequeuing true 3 _ _ None run_interleaved).
  exists 2%nat. eexists. split; vm_compute; reflexivity.
Defined.

(** Two reservations of the same buffer, at their insertions. *)
Lemma accesses_compatible_witness :
  compatible (Inserts 0 (Range 0 2)) (Inserts 0 (Range 2 3)).
Proof.
  refine (proj2 (accesses_compatible true 3 _ _ run_pending) 0%nat 1%nat
            (EnqInsert (VArray [1; 2]%nat) 8) (EnqInsert (VArray [3]%nat) 4) _ _ _ _ _ _ _);
    [done|vm_compute; reflexivity..].
Defined.

Lemma words_in_range_witness :
  let q := queue (scenario 4 3 sched_interleaved).1 in
  enqueuing_capacity q = 9 ∧
  enqueuing_capacity q =
    enc false 1 (EnqueuingCapacity.remaining_capacity (enqueuing_capacity q)) ∧
  0 ≤ EnqueuingCapacity.remaining_capacity (enqueuing_capacity q) ≤ 4.
Proof.
  split; [vm_compute; reflexivity|].
  destruct (words_in_range true 3 _ _ run_interleaved) as (Hw & Hr & _).
  split; [exact Hw|exact Hr].
Defined.

Lemma reservation_exact_witness :
  let w := enqueuing_capacity (queue (scenario 4 3 sched_reserving).1) in
  let c' := (after (scenario 4 3 sched_reserving).1 0%nat (Run false)).1 in
  EnqueuingCapacity.remaining_capacity w = 4 ∧
  EnqueuingCapacity.remaining_capacity (enqueuing_capacity (queue c')) = 4 - 2.
Proof.
  split; [vm_compute; reflexivity|].
  destruct (reservation_exact true 3 _ _ 0%nat (Run false)
    (after (scenario 4 3 sched_reserving).1 0%nat (Run false)).1
    (after (scenario 4 3 sched_reserving).1 0%nat (Run false)).2
    (VArray [1; 2]%nat) run_reserving ltac:(vm_compute; reflexivity)
    ltac:(vm_compute; constructor)) as (_ & _ & _ & _ & Hr).
  exact Hr.
Defined.

Lemma closed_no_reservation_witness :
  EvReserve (VArray [1; 2]%nat)
    ∉ (after (scenario 4 3 sched_closed).1 0%nat (Run false)).2.
Proof.
  refine (closed_no_reservation (scenario 4 3 sched_closed).1
            (after (scenario 4 3 sched_closed).1 0%nat (Run false)).1 0%nat (Run false) _ _ _ _);
    vm_compute; reflexivity.
Defined.

Lemma closed_until_reopened_witness :
  queue_is_closed (queue (after (scenario 4 3 sched_closed).1 0%nat (Run false)).1) = true.
Proof.
  refine (closed_until_reopened true 3 _ _ 0%nat (Run false) _
            (after (scenario 4 3 sched_closed).1 0%nat (Run false)).2 run_closed _ _ _);
    [vm_compute; reflexivity|vm_compute; discriminate|vm_compute; reflexivity].
Defined.

Lemma spin_succeeds_witness :
  ∃ r, deq_spin (queue (scenario 4 3 sched_spinning).1) 0 3 64
         = Ret (queue (scenario 4 3 sched_spinning).1,
                DeqTake 0 r : pc (list nat) val nat, []) ∧ r_end r - r_start r = 3.
Proof.
  refine (spin_succeeds true 3 _ _ 2%nat 0 3 63 run_spinning _ _);
    [vm_compute; reflexivity|all_threads].
Defined.

Lemma len_exact_witness :
  let q := queue (scenario 4 3 sched_released).1 in
  q_capacity q = 4 ∧ queue_len q q + 3 = 4 ∧ (queue_is_empty q q = true ↔ 3 = 4).
Proof.
  refine (len_exact true 3 _ _ run_released _). all_threads.
Defined.
