(* ===== verification/AnyLoad.v ===== *)
(** * Enqueuers that read any word

    [Machine] interleaves, so a load of the enqueuing word by [try_enqueue] reads the
    last one. Here the load, and the word a failed exchange returns, are any word
    at all: what a memory weaker than interleavings could give is among them. The
    exchange, a read-modify-write, still compares with the last word, and that is
    enough: order, delivery and the absence of conflicting accesses do not depend on what was
    loaded. [StaleReads] shows what does: not being left waiting. *)

From S2P Require Import Prelude PackedWords Errors Buffers CellBuffers Queue Machine Scenario.
From S2P Require Import Invariant GhostLemmas Preservation ResizeLoop DequeuerSteps StepInvariant Concurrent.
#[local] Open Scope Z_scope.

Section AnyLoad.
Context {B S V E Ob : Type}.
Context `{L : BufferLaws B S V E Ob}.
Variable strict : bool.

Abbreviation pc := (pc S V E).
Abbreviation event := (event S V E).
Abbreviation config := (config B S V E).

Definition set_point (c : config) (t : nat) (p : pc) : config :=
  mk_config (queue c) (<[t := p]> (threads c)).

Inductive loose_execution (c0 : config) : list event → config → Prop :=
  | loose_nil : loose_execution c0 [] c0
  | loose_act tr c t a c' evs :
      loose_execution c0 tr c → action_ok strict a → act c t a = Some (c', evs) →
      loose_execution c0 (tr ++ evs) c'
  | loose_load tr c t v w :
      loose_execution c0 tr c → threads c !! t = Some (EnqStart v) → size v ≠ 0 →
      loose_execution c0 tr (set_point c t (EnqLoop v w None))
  | loose_failed tr c t v enq b w b' :
      loose_execution c0 tr c → threads c !! t = Some (EnqLoop v enq b) →
      loose_execution c0 tr (set_point c t (EnqLoop v w b')).

Lemma loose_inv q0 n tr c :
  built q0 → loose_execution (initial q0 n) tr c → Inv strict c (hist_of tr).
Proof.
  intros Hb. induction 1 as [|tr c t a c' evs _ IH Hok Ha|tr c t v w _ IH Ht Hv|tr c t v enq b w b' _ IH Ht].
  - apply (run_inv strict n []). exists q0. split; [done|constructor].
  - rewrite hist_of_app. by eapply Inv_act.
  - destruct IH as (e & cl & g & held & HI). unfold set_point. destruct c as [q ths].
    pose proof (pc_ok_t _ _ _ _ _ _ _ _ _ HI _ Ht) as Hok. simpl in Hok, Ht.
    pose proof (valid_size_nonneg v Hok).
    eapply inv_neutral with (t := t); eauto; try done. simpl. split; [done|lia].
  - destruct IH as (e & cl & g & held & HI). unfold set_point. destruct c as [q ths].
    pose proof (pc_ok_t _ _ _ _ _ _ _ _ _ HI _ Ht) as Hok. simpl in Hok, Ht.
    by eapply inv_neutral with (t := t).
Qed.

(** C16: whatever words the enqueuers load, delivery is exactly-once and in order, no slot is read
    before it is inserted, and no two threads are about to do conflicting accesses to
    a buffer. *)
Theorem any_load_is_safe q0 n tr c :
  built q0 → loose_execution (initial q0 n) tr c →
  (∃ rest, obs <$> enqueued tr = dequeued tr ++ rest) ∧
  (∀ t, threads c !! t ≠ Some Undefined) ∧
  (∀ t1 t2 p1 p2 a1 a2, t1 ≠ t2 →
     threads c !! t1 = Some p1 → threads c !! t2 = Some p2 →
     access_of (buffers (queue c)) p1 = Some a1 →
     access_of (buffers (queue c)) p2 = Some a2 → compatible a1 a2).
Proof.
  intros Hb Hex. destruct (loose_inv _ _ _ _ Hb Hex) as (e & cl & g & held & HI).
  split_and!.
  - destruct HI as (_ & _ & _ & Hh). eauto.
  - intros t Ht. destruct HI as (_ & Hths & _). by apply (ti_pc _ _ _ _ Hths _ _ Ht).
  - by eapply inv_compatible.
Qed.
End AnyLoad.

(** Thread 0 loads a word of a full buffer, then one with the other index, then the last one. *)
Definition loose_value : val := VArray [1; 2]%nat.
Definition loose_start : vconfig := (after (vec_initial 4 2) 0%nat (Call (TryEnqueue loose_value))).1.
Definition loose_stale : vconfig := set_point loose_start 0%nat (EnqLoop loose_value 0 None).
Definition loose_other : vconfig := set_point loose_stale 0%nat (EnqLoop loose_value 5 (Some 1)).
Definition loose_last : vconfig := set_point loose_other 0%nat (EnqLoop loose_value 8 (Some 2)).
Definition loose_vec : vconfig := (after loose_last 0%nat (Run false)).1.

Lemma loose_vec_execution :
  loose_execution true (vec_initial 4 2) [EvReserve loose_value] loose_vec.
Proof.
  assert (loose_execution true (vec_initial 4 2) [] loose_start) as Hs.
  { apply (loose_act true (vec_initial 4 2) [] (vec_initial 4 2) 0%nat
             (Call (TryEnqueue loose_value)) loose_start []);
      [constructor|actions_ok|vm_compute; reflexivity]. }
  assert (loose_execution true (vec_initial 4 2) [] loose_last) as Hl.
  { unfold loose_last. eapply (loose_failed true _ [] loose_other 0%nat loose_value 5);
      [|vm_compute; reflexivity].
    unfold loose_other. eapply (loose_failed true _ [] loose_stale 0%nat loose_value 0);
      [|vm_compute; reflexivity].
    unfold loose_stale. apply (loose_load true _ [] loose_start);
      [exact Hs|vm_compute; reflexivity|vm_compute; discriminate]. }
  exact (loose_act true (vec_initial 4 2) [] loose_last 0%nat (Run false) loose_vec
           [EvReserve loose_value] Hl I ltac:(vm_compute; reflexivity)).
Qed.

Lemma any_load_is_safe_witness :
  threads loose_vec !! 0%nat = Some (EnqInsert loose_value 8) ∧
  ∃ rest, [1; 2]%nat = dequeued (S := list nat) (V := val) [EvReserve loose_value] ++ rest.
Proof.
  split; [vm_compute; reflexivity|].
  destruct (any_load_is_safe true (vec_queue 4) 2 _ _ (vec_queue_built 4 ltac:(lia))
              loose_vec_execution) as (Hd & _ & _).
  exact Hd.
Defined.
