(* ===== verification/Orderings.v ===== *)
(** * The memory orderings of the queue

    [Machine] interleaves the atomic operations of [src/src/queue.rs]; this
    file adds the [Ordering] each of them is given, and the accesses to the
    buffers, with the memory of [Views]: [race_free] says that whatever a thread is
    about to do with a buffer happens after the conflicting accesses. *)

From S2P Require Import Prelude Views PackedWords Errors Buffers CellBuffers Queue Machine Scenario.
From S2P Require Import Invariant GhostLemmas Preservation StepInvariant Concurrent.
#[local] Open Scope Z_scope.

(** The atomic locations of the queue. *)
Inductive location : Type :=
  | EnqueuingWord
  | DequeuingWord
  | BufferLength (i : Z)
  | CapacityField.

#[export] Instance location_eq_dec : EqDecision location.
Proof. solve_decision. Defined.

(** ** The ordering arguments of [src/src/queue.rs] *)
Record orderings : Type := mk_orderings {
  (* try_enqueue *)
  o_enqueue_load : ordering;
  o_reserve : ordering;
  o_reserve_failed : ordering;
  o_inserted : ordering;
  (* try_dequeue_internal *)
  o_lock : ordering;
  o_preloaded : ordering;
  o_dequeue_load : ordering;
  o_restore : ordering;
  o_swap : ordering;
  o_swap_failed : ordering;
  o_capacity : ordering;
  o_acknowledge : ordering;
  (* try_dequeue_spin *)
  o_spin : ordering;
  o_pending : ordering;
  (* release, requeue, remove *)
  o_reset : ordering;
  o_unlock : ordering;
  o_requeue : ordering;
  o_remove : ordering;
  (* close, reopen *)
  o_close : ordering;
  o_reopen : ordering;
}.

Definition source_orderings : orderings := {|
  o_enqueue_load := Acquire;
  o_reserve := AcqRel;
  o_reserve_failed := Relaxed;
  o_inserted := AcqRel;
  o_lock := Relaxed;
  o_preloaded := Relaxed;
  o_dequeue_load := Acquire;
  o_restore := Relaxed;
  o_swap := AcqRel;
  o_swap_failed := Relaxed;
  o_capacity := Relaxed;
  o_acknowledge := Relaxed;
  o_spin := Acquire;
  o_pending := Relaxed;
  o_reset := Release;
  o_unlock := Relaxed;
  o_requeue := Relaxed;
  o_remove := Relaxed;
  o_close := AcqRel;
  o_reopen := AcqRel;
|}.

(** What keeps the accesses ordered: a reservation acquires what the exchange of
    the buffers released, the spin loop acquires what the insertions released,
    and, unless one thread does all the dequeuing ([consumer]), the dequeuing
    word passes from one dequeuer to the next what they did. *)
Definition sufficient (consumer : option nat) (o : orderings) : bool :=
  acquires (o_reserve o) && releases (o_swap o) &&
  releases (o_inserted o) && acquires (o_spin o) &&
  (is_some consumer ||
   acquires (o_lock o) && releases (o_restore o) && releases (o_acknowledge o) &&
   releases (o_pending o) && releases (o_unlock o) && releases (o_requeue o)).

(** ** Accesses *)
(** What a step, or a call of a method of a handle, touches of the buffers:
    the slots it inserts, a whole buffer, or the capacity of a buffer. *)
Inductive touch : Type :=
  | Accesses (a : access)
  | ReadsCapacity (i : Z).

(** Two accesses that race unless one happens before the other. An insertion
    reads the capacity too, and leaves it as it is. *)
Definition conflict (a1 a2 : touch) : Prop :=
  match a1, a2 with
  | Accesses a1, Accesses a2 => ¬ compatible a1 a2
  | Accesses (Owns i), ReadsCapacity j | ReadsCapacity j, Accesses (Owns i) => i = j
  | _, _ => False
  end.

Abbreviation memory := (memory location touch).

(** ** The atomic operation of each step *)
Section Model.
Context {B S V E : Type}.
Context `{Buffer B S, InsertIntoBuffer B V, Resize B, Drain B E, SliceMut B S E}.

Abbreviation pc := (pc S V E).
Abbreviation config := (config B S V E).

Definition atomic_of (o : orderings) (spurious : bool) (q : Queue B) (p : pc) : atomic location :=
  match p with
  | EnqStart v => if size v =? 0 then NoAtomic else Load EnqueuingWord (o_enqueue_load o)
  | EnqLoop v enq _ =>
      if EnqueuingCapacity.is_closed enq then NoAtomic
      else
        match EnqueuingCapacity.try_reserve enq (size v) with
        | None => NoAtomic
        | Some _ =>
            if negb spurious && (enqueuing_capacity q =? enq)
            then ReadModifyWrite EnqueuingWord (o_reserve o)
            else Load EnqueuingWord (o_reserve_failed o)
        end
  | EnqAdd _ enq =>
      ReadModifyWrite (BufferLength (EnqueuingCapacity.buffer_index enq)) (o_inserted o)
  | DeqStart _ => ReadModifyWrite DequeuingWord (o_lock o)
  | DeqAddInserted d =>
      if 0 <? dl_inserted d
      then ReadModifyWrite (BufferLength (DequeuingLength.buffer_index (dl_dequeuing d)))
             (o_preloaded o)
      else NoAtomic
  | DeqLoad _ => Load EnqueuingWord (o_dequeue_load o)
  | DeqRestore _ _ => Store DequeuingWord (o_restore o)
  | DeqSwap _ enq _ _ _ =>
      if negb spurious && (enqueuing_capacity q =? enq)
      then ReadModifyWrite EnqueuingWord (o_swap o)
      else Load EnqueuingWord (o_swap_failed o)
  | DeqCapLoad _ _ _ => Load CapacityField (o_capacity o)
  | DeqCapStore _ _ _ => Store CapacityField (o_capacity o)
  | DeqAck _ => Store DequeuingWord (o_acknowledge o)
  | DeqSpin i _ (Datatypes.S _) => Load (BufferLength i) (o_spin o)
  | DeqSave _ _ => Store DequeuingWord (o_pending o)
  | RelLen i => Store (BufferLength i) (o_reset o)
  | RelUnlock _ => Store DequeuingWord (o_unlock o)
  | Requeue _ r =>
      if 0 <? r_end r - r_start r then Store DequeuingWord (o_requeue o) else NoAtomic
  | IterRemove _ => Load DequeuingWord (o_remove o)
  | CloseOr => ReadModifyWrite EnqueuingWord (o_close o)
  | ReopenAnd => ReadModifyWrite EnqueuingWord (o_reopen o)
  | _ => NoAtomic
  end.

Definition touch_of (bs : B * B) (p : pc) : option touch :=
  match p with
  | DeqCheck _ enq => Some (ReadsCapacity (EnqueuingCapacity.buffer_index enq))
  | _ => Accesses <$> access_of bs p
  end.

Definition memory_after (o : orderings) (c : config) (t : nat) (a : action V E)
    (m : memory) : memory :=
  match threads c !! t with
  | None => m
  | Some p =>
      let m := record_touch t (touch_of (buffers (queue c)) p) m in
      match a with
      | Call _ => m
      | Run spurious => synchronise t (atomic_of o spurious (queue c) p) m
      end
  end.

(** Executions with their memory; [ok] restricts what each thread does. *)
Inductive ordered_execution (o : orderings) (ok : nat → action V E → Prop) (c0 : config)
    : memory → config → Prop :=
  | ordered_nil : ordered_execution o ok c0 initial_memory c0
  | ordered_snoc m c t a c' evs :
      ordered_execution o ok c0 m c → ok t a → act c t a = Some (c', evs) →
      ordered_execution o ok c0 (memory_after o c t a m) c'.

(** Every access a thread is about to do comes after the conflicting ones. *)
Definition race_free (m : memory) (c : config) : Prop :=
  ∀ t p a k t' a',
    threads c !! t = Some p → touch_of (buffers (queue c)) p = Some a →
    m_log m !! k = Some (t', a') → conflict a a' → k ∈ m_view m t.

(** Calls that dequeue; [consumer]: the only thread that does, if any. *)
Definition dequeues (a : action V E) : bool :=
  match a with
  | Call TryDequeue | Call (TryDequeueAndResize _) => true
  | _ => false
  end.

Definition consumed_by (consumer : option nat) (t : nat) (a : action V E) : Prop :=
  ∀ d, consumer = Some d → dequeues a = true → t = d.

(** A schedule with its memory. *)
Fixpoint ordered_exec (o : orderings) (c : config) (m : memory)
    (sched : list (nat * action V E)) : option (config * memory) :=
  match sched with
  | [] => Some (c, m)
  | (t, a) :: sched =>
      '(c', _) ← act c t a;
      ordered_exec o c' (memory_after o c t a m) sched
  end.

Lemma ordered_exec_execution o (ok : nat → action V E → Prop) c0 sched : ∀ c m c' m',
  Forall (λ ta, ok ta.1 ta.2) sched → ordered_execution o ok c0 m c →
  ordered_exec o c m sched = Some (c', m') → ordered_execution o ok c0 m' c'.
Proof.
  induction sched as [|[t a] sched IH]; intros c m c' m' Hok Hex Hs; simpl in Hs.
  - by injection Hs as <- <-.
  - apply Forall_cons in Hok as [Ha Hok].
    apply bind_Some in Hs as ([c1 evs] & Hact & Hs).
    eapply IH; [done| |done]. by eapply ordered_snoc.
Qed.

(** The interleavings are those of [Machine]. *)
Lemma ordered_execution_execution o (ok : nat → action V E → Prop) ok' c0 m c :
  (∀ t a, ok t a → ok' a) → ordered_execution o ok c0 m c →
  ∃ tr, execution ok' c0 tr c.
Proof.
  intros Hok Hex. induction Hex as [|m c t a c' evs Hex [tr IH] Ha Hact].
  - exists []. constructor.
  - exists (tr ++ evs). econstructor; eauto.
Qed.
End Model.
