(* ===== verification/RaceFree.v ===== *)
(** * Every access to a buffer happens after the conflicting ones

    The proof that the orderings of [src/src/queue.rs] are enough when one
    thread dequeues ([sufficient] says which are needed, and what is missing for several);
    and the race of two threads that dequeue in turn. *)

From S2P Require Import Prelude Views PackedWords Errors Buffers CellBuffers Queue Machine Scenario.
From S2P Require Import Invariant GhostLemmas Preservation DequeuerSteps StepInvariant.
From S2P Require Import Concurrent Orderings.
#[local] Open Scope Z_scope.

(** ** The invariant *)
Section Ordered.
Context {B S V E Ob : Type}.
Context `{L : BufferLaws B S V E Ob}.
(** The only thread that dequeues, or none when any thread may. *)
Variable consumer : option nat.
Variable strict : bool.

Abbreviation pc := (pc S V E).
Abbreviation gbuf := (gbuf (E := E)).
Abbreviation config := (config B S V E).
Abbreviation hist := (hist (E := E) (Ob := Ob)).

Definition dequeuing (p : pc) : bool :=
  is_holder p || match p with DeqStart _ => true | _ => false end.

(** Program points where nobody inserts in the buffer the holder has: it was
    empty, or its insertions have been waited for. *)
Definition clean (p : pc) : bool :=
  match p with
  | DeqInternal w _ => DequeuingLength.buffer_len w =? 0
  | DeqCapLoad _ enq cap | DeqCapStore _ enq cap | DeqNotify _ enq cap
  | DeqMatch _ enq cap => cap =? EnqueuingCapacity.remaining_capacity enq
  | DeqSpin _ _ _ | DeqSave _ _ | Panicked => false
  | _ => is_holder p
  end.

Definition no_holder (ths : gmap nat pc) : Prop :=
  ∀ t p, ths !! t = Some p → is_holder p = false.

Definition drained (q : Queue B) (ths : gmap nat pc) : Prop :=
  (∃ t p, ths !! t = Some p ∧ is_holder p = true ∧ clean p = true) ∨
  (no_holder ths ∧ DequeuingLength.buffer_len (dequeuing_length q) = 0).

Abbreviation index_of q := (EnqueuingCapacity.buffer_index (enqueuing_capacity q)).
Abbreviation room_of q := (EnqueuingCapacity.remaining_capacity (enqueuing_capacity q)).

(** [K]: the accesses that happen before whatever the dequeuing side does next. *)
Record ordered (K : gset nat) (q : Queue B) (ths : gmap nat pc) (m : memory) : Prop := {
  or_holder t p : ths !! t = Some p → is_holder p = true → K ⊆ m_view m t;
  or_consumer d : consumer = Some d → K ⊆ m_view m d;
  or_dequeuing d t p : consumer = Some d → ths !! t = Some p → dequeuing p = true → t = d;
  or_free : consumer = None → no_holder ths → K ⊆ m_msg m DequeuingWord;
  or_known k t i : m_log m !! k = Some (t, Accesses (Owns i)) ∨
    m_log m !! k = Some (t, ReadsCapacity i) → k ∈ K;
  or_range k t i r : m_log m !! k = Some (t, Accesses (Inserts i r)) →
    0 ≤ i ≤ 1 ∧ 0 ≤ r_start r < r_end r;
  or_inserts k t i r : m_log m !! k = Some (t, Accesses (Inserts i r)) →
    k ∈ K ∨ k ∈ m_msg m (BufferLength i) ∨
    ∃ t' v enq, ths !! t' = Some (EnqAdd v enq) ∧
                EnqueuingCapacity.buffer_index enq = i ∧ k ∈ m_view m t';
  or_enq_owns k t : m_log m !! k = Some (t, Accesses (Owns (index_of q))) →
    k ∈ m_msg m EnqueuingWord;
  or_enq_inserts k t r : m_log m !! k = Some (t, Accesses (Inserts (index_of q) r)) →
    k ∈ K ∧ k ∈ m_msg m EnqueuingWord ∨
    r_end r ≤ capacity (sel (index_of q) (buffers q)) - room_of q;
  or_pend k t a t' v enq a' : ths !! t' = Some (EnqInsert v enq) →
    touch_of (buffers q) (EnqInsert v enq : pc) = Some a' →
    m_log m !! k = Some (t, a) → conflict a' a → k ∈ m_view m t';
  or_clean k t r : drained q ths →
    m_log m !! k = Some (t, Accesses (Inserts (1 - index_of q) r)) → k ∈ K;
}.

Section Facts.
Variables (q : Queue B) (ths : gmap nat pc) (h : hist).
Variables (e : Z) (cl : bool) (g : gbuf * gbuf) (held : list E).
Hypothesis HI : Inv_with strict q ths h e cl g held.

(** Nobody inserts in a drained buffer. *)
Lemma drained_all_done : drained q ths → all_done (sel (1 - e) g).
Proof using HI.
  destruct (inv_word _ _ _ _ _ _ _ _ HI) as (He & _).
  intros [(t & p & Ht & Hp & Hc)|[Hno Hw]].
  - destruct (holder_facts _ _ _ _ _ _ _ _ _ HI _ Ht Hp) as (_ & Hb & _ & Hinv & _).
    assert (∀ w, deq_word_ok (1 - e) (sel (1 - e) g) w → broken p = false → lag p = 0 →
            DequeuingLength.buffer_len w = 0 → all_done (sel (1 - e) g)) as Hword.
    { intros w [-> Hd] Hbr Hlag. specialize (Hb Hbr). rewrite Hlag, Z.add_0_r in Hb.
      pose proof (gd_bound _ _ _ _ Hb).
      rewrite deq_buffer_len_enc by (done || lia). intros. apply empty_all_done, Hd. lia. }
    destruct p; simplify_eq/=; try (apply Z.eqb_eq in Hc); unfold taken, prepared, swapped in Hinv;
      try (by destruct_and? Hinv); try (by apply empty_all_done; destruct_and? Hinv).
    + destruct Hinv as [_ Hinv]. by eapply Hword.
    + apply empty_all_done, g_len_nil. destruct_and? Hinv. lia.
    + apply empty_all_done, g_len_nil. destruct_and? Hinv. lia.
    + apply empty_all_done, g_len_nil. destruct_and? Hinv. lia.
    + apply empty_all_done, g_len_nil. destruct_and? Hinv. lia.
  - destruct HI as (_ & _ & [(_ & [Hd Hl] & _ & Hb & _)|(t & p & _ & Ht & Hp & _)] & _).
    + pose proof (gd_bound _ _ _ _ Hb).
      rewrite Hd, deq_buffer_len_enc in Hw by (done || lia).
      apply empty_all_done, Hl. lia.
    + rewrite (Hno _ _ Ht) in Hp. done.
Qed.

Lemma done_no_enqueuing t p : all_done (sel (1 - e) g) → ths !! t = Some p →
  enqueuing_on (1 - e) p = false.
Proof using HI.
  intros Hall Ht. destruct (enqueuing_on (1 - e) p) eqn:Hp; [exfalso|done].
  destruct HI as (_ & Hths & _).
  destruct p; try done; apply Z.eqb_eq in Hp;
    pose proof (ti_pend _ _ _ _ Hths _ _ _ Ht eq_refl) as HP; simpl in HP; rewrite Hp in HP;
    by eapply all_done_no_pend.
Qed.

(** The invariant gives the property. *)
Lemma ordered_race_free K m : ordered K q ths m → race_free m (mk_config q ths).
Proof using HI.
  intros Ho t p a k t' a' Ht Ha Hk Hc. simpl in *.
  destruct (inv_word _ _ _ _ _ _ _ _ HI) as (He & Hi & _).
  destruct (is_holder p) eqn:Hp.
  - apply (or_holder _ _ _ _ Ho _ _ Ht Hp).
    destruct a' as [[i r|i]|i];
      [|eapply (or_known _ _ _ _ Ho); eauto..].
    assert (a = Accesses (Owns (1 - e)) ∧ clean p = true) as [-> Hcl].
    { destruct p; simplify_eq/=; try done; (split; [|done]);
        pose proof (inv_owns _ _ _ _ _ _ _ _ HI _ _ _ Ht eq_refl) as (_ & <- & _); done. }
    destruct (Z.eq_dec (1 - e) i) as [<-|Hne].
    + eapply (or_clean _ _ _ _ Ho); [left; eauto|]. by rewrite Hi.
    + destruct Hc. simpl. congruence.
  - destruct p; simplify_eq/=.
    eapply (or_pend _ _ _ _ Ho); eauto.
Qed.
End Facts.

(** ** Steps of a thread that does not hold the dequeuing side *)
Inductive passive (q : Queue B) (t : nat) (m m' : memory) : pc → pc → Prop :=
  | passive_other p p' :
      (∀ i, enqueuing_on i p = false) → (∀ i, enqueuing_on i p' = false) →
      passive q t m m' p p'
  | passive_reserve p v :
      (∀ i, enqueuing_on i p = false) →
      m_msg m EnqueuingWord ⊆ m_view m' t →
      passive q t m m' p (EnqInsert v (enqueuing_capacity q))
  | passive_insert v enq : passive q t m m' (EnqInsert v enq) (EnqAdd v enq)
  | passive_add v enq p' :
      (∀ i, enqueuing_on i p' = false) →
      m_view m' t ⊆ m_msg m' (BufferLength (EnqueuingCapacity.buffer_index enq)) →
      passive q t m m' (EnqAdd v enq) p'.

Lemma passive_insert_inv q t m m' v enq p' :
  passive q t m m' (EnqInsert v enq) p' → p' = EnqAdd v enq.
Proof.
  inversion 1 as [? ? Hno|? ? Hno| |]; subst; try done;
    specialize (Hno (EnqueuingCapacity.buffer_index enq)); simpl in Hno;
    by rewrite Z.eqb_refl in Hno.
Qed.

Lemma passive_add_inv q t m m' v enq p' :
  passive q t m m' (EnqAdd v enq) p' →
  m_view m' t ⊆ m_msg m' (BufferLength (EnqueuingCapacity.buffer_index enq)).
Proof.
  inversion 1 as [? ? Hno|? ? Hno| |]; subst; try done;
    specialize (Hno (EnqueuingCapacity.buffer_index enq)); simpl in Hno;
    by rewrite Z.eqb_refl in Hno.
Qed.

Lemma passive_reserve_inv q t m m' p v enq :
  passive q t m m' p (EnqInsert v enq) →
  enq = enqueuing_capacity q ∧ m_msg m EnqueuingWord ⊆ m_view m' t.
Proof.
  inversion 1 as [? ? ? Hno| | |? ? ? Hno]; subst; try done;
    specialize (Hno (EnqueuingCapacity.buffer_index enq)); simpl in Hno;
    by rewrite Z.eqb_refl in Hno.
Qed.

Lemma passive_drained q q' ths t p p' :
  ths !! t = Some p → is_holder p = false → is_holder p' = false →
  dequeuing_length q' = dequeuing_length q →
  drained q' (<[t := p']> ths) → drained q ths.
Proof.
  intros Ht Hp Hp' Hw [(t0 & p0 & Ht0 & Hp0 & Hc)|[Hno Hl]].
  - left. apply lookup_insert_Some in Ht0 as [[_ <-]|[_ Ht0]]; [congruence|eauto].
  - right. split; [|congruence]. intros t0 p0 Ht0.
    destruct (decide (t0 = t)) as [->|]; [congruence|].
    apply (Hno t0). by rewrite lookup_insert_ne.
Qed.

Section Passive.
Variables (q q' : Queue B) (ths : gmap nat pc) (h : hist).
Variables (e : Z) (cl : bool) (g : gbuf * gbuf) (held : list E).
Variables (K : gset nat) (t : nat) (p p' : pc) (m m' : memory).
Hypothesis HI : Inv_with strict q ths h e cl g held.
Hypothesis Ho : ordered K q ths m.
Hypothesis Ht : ths !! t = Some p.
Hypothesis Hp : is_holder p = false.
Hypothesis Hp' : is_holder p' = false.
Hypothesis Hdq : ∀ d, consumer = Some d → dequeuing p' = true → t = d.
Hypothesis Hgr : grows t (option_list (touch_of (buffers q) p)) m m'.
Hypothesis Hmsg : ∀ l, m_msg m l ⊆ m_msg m' l.
Hypothesis Hw : dequeuing_length q' = dequeuing_length q.
Hypothesis Hcap : ∀ i, 0 ≤ i ≤ 1 → capacity (sel i (buffers q')) = capacity (sel i (buffers q)).
Hypothesis Hidx : index_of q' = index_of q.
Hypothesis Hroom : room_of q' ≤ room_of q.
Hypothesis Hpas : passive q t m m' p p'.

Lemma passive_new k t' a :
  m_log m' !! k = Some (t', a) →
  m_log m !! k = Some (t', a) ∨
  ∃ v enq r, p = EnqInsert v enq ∧ p' = EnqAdd v enq ∧ t' = t ∧
    a = Accesses (Inserts (EnqueuingCapacity.buffer_index enq) r) ∧
    access_of (buffers q) p = Some (Inserts (EnqueuingCapacity.buffer_index enq) r) ∧
    k ∈ m_view m' t.
Proof using Hgr Hp Hpas Ht.
  intros [?|(-> & Ha & Hk)]%(grows_lookup _ _ _ _ _ _ _ Hgr); [by left|right].
  destruct p; simplify_eq/=; try by apply elem_of_nil in Ha.
  apply list_elem_of_singleton in Ha as ->.
  eexists _, _, _. split_and!; try done. by eapply passive_insert_inv.
Qed.

(** What a new insertion is: within the reservation of the thread. *)
Lemma passive_range v enq r :
  p = EnqInsert v enq →
  access_of (buffers q) p = Some (Inserts (EnqueuingCapacity.buffer_index enq) r) →
  let i := EnqueuingCapacity.buffer_index enq in
  0 ≤ i ≤ 1 ∧ 0 ≤ r_start r < r_end r ∧ r_end r ≤ g_len (sel i g) ∧ ¬ all_done (sel i g).
Proof using HI Ht.
  intros Hpe Ha i. pose proof Ht as Ht'. rewrite Hpe in Ha, Ht'.
  destruct (inv_inserts _ _ _ _ _ _ _ _ HI _ _ _ _ Ht' Ha) as (pd & _ & Hi & -> & HP).
  fold i in HP. pose proof (po_buf _ _ HP). pose proof (po_off _ _ HP).
  pose proof (po_size _ _ HP). pose proof (po_end _ _ HP). simpl.
  unfold i in *. rewrite <- Hi in *. split_and!; try lia.
  intros Hall. by eapply all_done_no_pend.
Qed.

(** What another thread is about to insert is apart from the new insertion. *)
Lemma passive_pend k t0 a t' v enq a' :
  <[t := p']> ths !! t' = Some (EnqInsert v enq) →
  touch_of (buffers q') (EnqInsert v enq : pc) = Some a' →
  m_log m' !! k = Some (t0, a) → conflict a' a → k ∈ m_view m' t'.
Proof using All.
  intros Ht' Ha' Hk Hc. pose proof (gr_view _ _ _ _ Hgr) as Hv.
  assert (touch_of (buffers q) (EnqInsert v enq : pc) = Some a') as Ha.
  { rewrite <- Ha'. simpl. by rewrite Hcap by apply buffer_index_bound. }
  apply lookup_insert_Some in Ht' as [[<- Hpe]|[Hne Ht']].
  - pose proof Hpas as Hr. rewrite Hpe in Hr.
    destruct (passive_reserve_inv _ _ _ _ _ _ _ Hr) as [-> Hsub].
    apply passive_new in Hk as [Hk|(? & ? & ? & _ & ? & _)]; [|congruence].
    simpl in Ha. injection Ha as <-. destruct a as [[i r|i]|i]; simpl in Hc; [| |done].
    + destruct (Z.eq_dec (index_of q) i) as [<-|]; [|tauto].
      destruct (or_enq_inserts _ _ _ _ Ho _ _ _ Hk) as [[_ ?]|?]; [by apply Hsub|].
      destruct Hc. intros _. by right.
    + destruct (Z.eq_dec (index_of q) i) as [<-|]; [|tauto].
      by eapply Hsub, or_enq_owns.
  - apply passive_new in Hk as [Hk|(v2 & enq2 & r & Hpe & _ & _ & -> & Ha2 & _)];
      [by eapply Hv, or_pend|].
    destruct (inv_inserts _ _ _ _ _ _ _ _ HI _ _ _ _ Ht Ha2) as (pd2 & Hpd2 & Hi2 & -> & _).
    destruct HI as (_ & Hths & _).
    pose proof (ti_disjoint _ _ _ _ Hths _ _ _ _ _ _ Hne Ht Ht' Hpd2 eq_refl) as Hd.
    simpl in Ha. injection Ha as <-. simpl in Hc.
    unfold pend_disjoint, pd_size in Hd. simpl in Hd. rewrite Hi2 in Hd. exfalso.
    apply Hc. intros Hi. symmetry in Hi. specialize (Hd Hi). unfold pd_size. tauto.
Qed.

Lemma passive_step : ordered K q' (<[t := p']> ths) m'.
Proof using All.
  destruct (inv_word _ _ _ _ _ _ _ _ HI) as (He & Hie & Hrem & _).
  pose proof (gr_view _ _ _ _ Hgr) as Hv.
  split.
  - intros t0 p0 [[_ <-]|[_ Ht0]]%lookup_insert_Some Hp0; [congruence|].
    etrans; [by eapply or_holder|apply Hv].
  - intros d Hd. etrans; [by eapply or_consumer|apply Hv].
  - intros d t0 p0 Hd [[<- <-]|[_ Ht0]]%lookup_insert_Some Hp0; [eauto|by eapply or_dequeuing].
  - intros Hc Hno. etrans; [eapply or_free; try done|apply Hmsg].
    intros t0 p0 Ht0. destruct (decide (t0 = t)) as [->|]; [congruence|].
    apply (Hno t0). by rewrite lookup_insert_ne.
  - intros k t0 i [Hk|Hk];
      (apply passive_new in Hk as [?|(? & ? & ? & _ & _ & _ & Ha & _)];
       [eapply or_known; eauto|done]).
  - intros k t0 i r [?|(v & enq & r' & Hpe & _ & _ & [= -> ->] & Ha & _)]%passive_new;
      [by eapply or_range|].
    destruct (passive_range _ _ _ Hpe Ha) as (? & ? & _). done.
  - intros k t0 i r [Hk|(v & enq & r' & _ & -> & _ & [= -> ->] & _ & Hk)]%passive_new.
    + destruct (or_inserts _ _ _ _ Ho _ _ _ _ Hk) as [?|[?|(t' & v & enq & Ht' & Hi & Hk')]];
        [by left|right; left; by apply Hmsg|].
      right. destruct (decide (t' = t)) as [->|Hne].
      * rewrite Ht in Ht'. injection Ht' as ->. left. subst i.
        by eapply passive_add_inv, Hv.
      * right. exists t', v, enq. rewrite lookup_insert_ne by done.
        split_and!; [done..|by apply Hv].
    + right. right. exists t, v, enq. by rewrite lookup_insert_eq.
  - rewrite Hidx. intros k t0 [Hk|(? & ? & ? & _ & _ & _ & ? & _)]%passive_new; [|done].
    apply Hmsg. by eapply or_enq_owns.
  - rewrite Hidx, Hcap by (rewrite Hie; done).
    intros k t0 r [Hk|(v & enq & r' & Hpe & _ & _ & [= Hi ->] & Ha & _)]%passive_new.
    + destruct (or_enq_inserts _ _ _ _ Ho _ _ _ Hk) as [[? ?%Hmsg]|?]; [by left|right; lia].
    + right. destruct (passive_range _ _ _ Hpe Ha) as (_ & _ & Hr & _).
      rewrite Hie in *. rewrite <- Hi in Hr. lia.
  - intros k t0 a t' v enq a' Ht' Ha' Hk Hc.
    by eapply passive_pend.
  - rewrite Hidx. intros k t0 r Hdr. apply (passive_drained q q' ths t p p') in Hdr; try done.
    intros [Hk|(v & enq & r' & Hpe & _ & _ & [= Hi ->] & Ha & _)]%passive_new.
    + by eapply or_clean.
    + destruct (passive_range _ _ _ Hpe Ha) as (_ & _ & _ & []).
      rewrite <- Hi, Hie. by eapply drained_all_done.
Qed.
End Passive.

(** ** Steps of the thread that dequeues, the exchange of the buffers apart *)
Section Active.
Variables (q q' : Queue B) (ths : gmap nat pc) (h : hist).
Variables (e : Z) (cl : bool) (g : gbuf * gbuf) (held : list E).
Variables (K : gset nat) (t : nat) (p p' : pc) (m m' : memory) (new : list touch).
Hypothesis HI : Inv_with strict q ths h e cl g held.
Hypothesis Ho : ordered K q ths m.
Hypothesis Ht : ths !! t = Some p.
Hypothesis Hp : dequeuing p = true.
(** It holds the dequeuing side, or takes it. *)
Hypothesis Halone : ∀ t' p', ths !! t' = Some p' → is_holder p' = true → t' = t.
Hypothesis HK : K ⊆ m_view m' t.
(** It keeps the dequeuing side, or releases it. *)
Hypothesis Hp' : dequeuing p' = is_holder p'.
Hypothesis Henq : ∀ i, enqueuing_on i p' = false.
Hypothesis Hrel : is_holder p' = false → consumer = None → m_view m' t ⊆ m_msg m' DequeuingWord.
Hypothesis Hgr : grows t new m m'.
Hypothesis Hnew : ∀ a, a ∈ new → a = Accesses (Owns (1 - e)) ∨ ∃ i, a = ReadsCapacity i.
Hypothesis Hmsg : m_msg m EnqueuingWord ⊆ m_msg m' EnqueuingWord.
Hypothesis Hlen : ∀ i,
  m_msg m (BufferLength i) ⊆ m_msg m' (BufferLength i) ∨ i = 1 - e ∧ drained q ths.
Hypothesis Hw : enqueuing_capacity q' = enqueuing_capacity q.
Hypothesis Hcap : capacity (sel e (buffers q')) = capacity (sel e (buffers q)).
Hypothesis Hcapd :
  capacity (sel (1 - e) (buffers q')) = capacity (sel (1 - e) (buffers q)) ∨ drained q ths.
Hypothesis Hown : Accesses (Owns (1 - e)) ∈ new → drained q ths.
Hypothesis Hdr : drained q' (<[t := p']> ths) →
  drained q ths ∨
  all_done (sel (1 - e) g) ∧ m_msg m (BufferLength (1 - e)) ⊆ m_view m' t.

Lemma active_threads t' p0 i : <[t := p']> ths !! t' = Some p0 → enqueuing_on i p0 = true →
  ths !! t' = Some p0 ∧ (drained q ths → i ≠ 1 - e).
Proof using HI Henq.
  intros [[_ <-]|[_ Ht']]%lookup_insert_Some Hi; [by rewrite Henq in Hi|].
  split; [done|]. intros Hd ->.
  pose proof (drained_all_done _ _ _ _ _ _ _ HI Hd) as Hall.
  by rewrite (done_no_enqueuing _ _ _ _ _ _ _ HI _ _ Hall Ht') in Hi.
Qed.

(** Every insertion in a drained buffer is known. *)
Lemma active_clean k t0 r : drained q' (<[t := p']> ths) →
  m_log m !! k = Some (t0, Accesses (Inserts (1 - e) r)) → k ∈ m_view m' t.
Proof using HI Ho HK Hdr.
  destruct (inv_word _ _ _ _ _ _ _ _ HI) as (He & Hie & _).
  intros [Hd|[Hall Hsub]]%Hdr Hk.
  - apply HK. eapply or_clean; eauto. by rewrite Hie.
  - destruct (or_inserts _ _ _ _ Ho _ _ _ _ Hk) as [?|[?|(t' & v & enq & Ht' & Hi & _)]];
      [by apply HK|by apply Hsub|exfalso].
    pose proof (done_no_enqueuing _ _ _ _ _ _ _ HI _ _ Hall Ht') as Hno.
    simpl in Hno. by apply Z.eqb_neq in Hno.
Qed.

Lemma active_step : ordered (m_view m' t) q' (<[t := p']> ths) m'.
Proof using All.
  destruct (inv_word _ _ _ _ _ _ _ _ HI) as (He & Hie & Hrem & _).
  pose proof (gr_view _ _ _ _ Hgr) as Hv.
  split; rewrite ?Hw, ?Hie.
  - intros t0 p0 [[<- _]|[Hne Ht0]]%lookup_insert_Some Hp0; [done|].
    by destruct Hne; symmetry; eapply Halone.
  - intros d Hd. by rewrite <- (or_dequeuing _ _ _ _ Ho _ _ _ Hd Ht Hp).
  - intros d t0 p0 Hd [[<- _]|[_ Ht0]]%lookup_insert_Some Hp0;
      by eapply or_dequeuing.
  - intros Hc Hno. apply Hrel; [|done]. apply (Hno t). by rewrite lookup_insert_eq.
  - intros k t0 i [Hk|Hk]; apply (grows_lookup _ _ _ _ _ _ _ Hgr) in Hk as [Hk|(_ & _ & Hk)];
      try done; apply HK; eapply or_known; eauto.
  - intros k t0 i r [Hk|(_ & [?|[? ?]]%Hnew & _)]%(grows_lookup _ _ _ _ _ _ _ Hgr);
      [by eapply or_range|done..].
  - intros k t0 i r [Hk|(_ & [?|[? ?]]%Hnew & _)]%(grows_lookup _ _ _ _ _ _ _ Hgr); [|done..].
    destruct (or_inserts _ _ _ _ Ho _ _ _ _ Hk) as [?|[Hi|(t' & v & enq & Ht' & Hi & Hk')]].
    + left. by apply HK.
    + destruct (Hlen i) as [Hsub|[-> Hd]]; [right; left; by apply Hsub|left; apply HK].
      eapply or_clean; eauto. by rewrite Hie.
    + right. right. exists t', v, enq. rewrite lookup_insert_ne; [|intros <-; simplify_eq].
      split_and!; [done..|by apply Hv].
  - intros k t0 [Hk|(-> & Ha & Hk)]%(grows_lookup _ _ _ _ _ _ _ Hgr).
    + apply Hmsg. eapply or_enq_owns; eauto. by rewrite Hie.
    + apply Hnew in Ha as [[= ?]|[? ?]]; [lia|done].
  - rewrite Hcap. intros k t0 r [Hk|(-> & Ha & Hk)]%(grows_lookup _ _ _ _ _ _ _ Hgr);
      [|by apply Hnew in Ha as [?|[? ?]]].
    pose proof (or_enq_inserts _ _ _ _ Ho k t0 r) as Hin. rewrite Hie in Hin.
    destruct (Hin Hk) as [[? ?]|?]; [left|by right]. split; [by apply HK|by apply Hmsg].
  - intros k t0 a t' v enq a' Ht' Ha' Hk Hc.
    destruct (active_threads _ _ (EnqueuingCapacity.buffer_index enq) Ht') as [Ht0 Hd];
      [apply Z.eqb_refl|].
    assert (touch_of (buffers q) (EnqInsert v enq : pc) = Some a') as Ha.
    { rewrite <- Ha'. simpl. pose proof (buffer_index_bound enq).
      destruct (Z.eq_dec (EnqueuingCapacity.buffer_index enq) e) as [->|]; [by rewrite Hcap|].
      replace (EnqueuingCapacity.buffer_index enq) with (1 - e) in * by lia.
      destruct Hcapd as [->|Hdr']; [done|]. by destruct (Hd Hdr'). }
    apply (grows_lookup _ _ _ _ _ _ _ Hgr) in Hk as [Hk|(-> & Hin & Hk)];
      [by eapply Hv, or_pend|exfalso].
    simpl in Ha. injection Ha as <-.
    destruct (Hnew _ Hin) as [->|[? ->]]; [|done]. simpl in Hc.
    apply Hc. by apply Hd, Hown.
  - intros k t0 r Hd [Hk|(_ & [?|[? ?]]%Hnew & _)]%(grows_lookup _ _ _ _ _ _ _ Hgr);
      [by eapply active_clean|done..].
Qed.
End Active.

(** ** The exchange of the buffers *)
Section Swap.
Variables (q : Queue B) (ths : gmap nat pc) (h : hist).
Variables (e : Z) (cl : bool) (g : gbuf * gbuf) (held : list E).
Variables (K : gset nat) (t : nat) (dl : deq_locals) (cap nxt b : Z) (m m' : memory).
Hypothesis HI : Inv_with strict q ths h e cl g held.
Hypothesis Ho : ordered K q ths m.
Let w : Z := enqueuing_capacity q.
Hypothesis Ht : ths !! t = Some (DeqSwap dl w cap nxt b).
Hypothesis Hgr : grows t [] m m'.
Hypothesis Hmsg : ∀ l, m_msg m l ⊆ m_msg m' l.
(** The exchange releases. *)
Hypothesis Hrel : m_view m' t ⊆ m_msg m' EnqueuingWord.
Let q' : Queue B := set_enqueuing q (EnqueuingCapacity.with_closed nxt w).
Let ths' : gmap nat pc := <[t := DeqCapLoad dl w cap]> ths.

Lemma swap_facts : index_of q' = 1 - e ∧ cap = capacity (sel e (buffers q)).
Proof using HI Ht.
  destruct (word_of_inv _ _ _ _ _ _ _ _ HI) as [He Hr].
  destruct (holder_facts _ _ _ _ _ _ _ _ _ HI _ Ht eq_refl) as (_ & Hb & _ & Hinv & _).
  destruct Hinv as ((_ & _ & Hc & Hi & _ & _ & Hov) & Hno & Hcap & Hn & _).
  split; [|done]. rewrite Hno in Hov. destruct Hov as (Hd & _).
  unfold broken in Hb. specialize (Hb eq_refl). pose proof (bi_cap _ _ _ Hb).
  destruct HI as ((_ & Hw & _) & _). unfold q', w. simpl. rewrite Hn, Hw.
  apply Z.ltb_ge in Hno.
  rewrite with_closed_enc, buffer_index_enc by (done || lia). done.
Qed.

Lemma swap_drained : drained q ths.
Proof using Ht. left. eauto. Qed.

Lemma swap_known : K ⊆ m_view m' t.
Proof using Ho Ht Hgr. etrans; [by eapply or_holder|apply (gr_view _ _ _ _ Hgr)]. Qed.

Lemma swap_log k x : m_log m' !! k = Some x → m_log m !! k = Some x.
Proof using Hgr. by rewrite (gr_log _ _ _ _ Hgr), app_nil_r. Qed.

Lemma swap_step : ordered (m_view m' t) q' ths' m'.
Proof using All.
  destruct (inv_word _ _ _ _ _ _ _ _ HI) as (He & Hie & Hrem & _).
  destruct swap_facts as [Hie' Hcap]. pose proof swap_known as HK.
  pose proof (gr_view _ _ _ _ Hgr) as Hv.
  destruct (inv_locked _ _ _ _ _ _ _ _ HI _ _ Ht eq_refl) as (_ & _ & _ & Hu & _).
  split; rewrite ?Hie'.
  - intros t0 p0 [[<- _]|[Hne Ht0]]%lookup_insert_Some Hp0; [done|].
    by destruct Hne; symmetry; eapply Hu.
  - intros d Hd. by rewrite <- (or_dequeuing _ _ _ _ Ho _ _ _ Hd Ht eq_refl).
  - intros d t0 p0 Hd [[<- _]|[_ Ht0]]%lookup_insert_Some Hp0; by eapply or_dequeuing.
  - intros _ Hno. specialize (Hno t). unfold ths' in Hno. rewrite lookup_insert_eq in Hno.
    by specialize (Hno _ eq_refl).
  - intros k t0 i Hk. apply HK. eapply or_known; [done|].
    destruct Hk as [Hk|Hk]; apply swap_log in Hk; eauto.
  - intros k t0 i r Hk%swap_log. by eapply or_range.
  - intros k t0 i r Hk%swap_log.
    destruct (or_inserts _ _ _ _ Ho _ _ _ _ Hk) as [?|[Hi|(t' & v & enq & Ht' & Hi & Hk')]].
    + left. by apply HK.
    + right. left. by apply Hmsg.
    + right. right. exists t', v, enq. unfold ths'.
      rewrite lookup_insert_ne; [|intros <-; simplify_eq]. split_and!; [done..|by apply Hv].
  - intros k t0 Hk%swap_log. apply Hrel, HK. eapply or_known; eauto.
  - intros k t0 r Hk%swap_log. left.
    assert (k ∈ K) as HkK.
    { eapply or_clean; [done|apply swap_drained|]. by rewrite Hie. }
    split; [by apply HK|by apply Hrel, HK].
  - intros k t0 a t' v enq a' Ht' Ha' Hk%swap_log Hc.
    apply lookup_insert_Some in Ht' as [[_ ?]|[_ Ht']]; [done|].
    by eapply Hv, or_pend.
  - intros k t0 r Hd Hk%swap_log. apply HK.
    pose proof (or_enq_inserts _ _ _ _ Ho k t0 r) as Hin. rewrite Hie in Hin.
    replace (1 - (1 - e)) with e in Hk by lia.
    destruct (Hin Hk) as [[? ?]|Hr]; [done|exfalso].
    pose proof (or_range _ _ _ _ Ho _ _ _ _ Hk).
    assert (cap = room_of q) as Hroom.
    { destruct Hd as [(t1 & p1 & Ht1 & Hp1 & Hc1)|[Hno _]].
      - apply lookup_insert_Some in Ht1 as [[_ <-]|[Hne Ht1]].
        + simpl in Hc1. by apply Z.eqb_eq in Hc1.
        + by destruct Hne; symmetry; eapply Hu.
      - specialize (Hno t). unfold ths' in Hno. rewrite lookup_insert_eq in Hno.
        by specialize (Hno _ eq_refl). }
    lia.
Qed.
End Swap.

(** ** What each step does *)
Section Steps.
Variables (q : Queue B) (ths : gmap nat pc) (h : hist).
Variables (e : Z) (cl : bool) (g : gbuf * gbuf) (held : list E).
Hypothesis HI : Inv_with strict q ths h e cl g held.

(** Only the owner of a buffer changes its capacity. *)
Lemma step_buffers sp p out : step sp q p = Some out →
  let bs' := buffers (queue_after q out) in
  (∀ i, capacity (sel i bs') = capacity (sel i (buffers q))) ∨
  ∃ i b, access_of (buffers q) p = Some (Owns i) ∧ bs' = upd i b (buffers q).
Proof.
  intros Hs. destruct out as [[[q' p'] evs]| |]; simpl; [|by left..].
  destruct p; simpl in Hs; try discriminate; apply (inj Some) in Hs.
  all: try (unfold_step_in Hs; inv_ret Hs; simplify_eq; left; intros; by repeat case_match).
  all: try (unfold_step_in Hs; inv_ret Hs; right; by eexists _, _).
  unfold enq_insert in Hs. inv_ret Hs. left. intros i. simpl.
  apply insert_capacity in Hx0. unfold sel, upd in *. by repeat case_match.
Qed.

(** The word of a thread that does not dequeue: the room only shrinks. *)
Lemma passive_word sp p out : step sp q p = Some out →
  (∀ t, ths !! t = Some p → is_holder p = false →
   index_of (queue_after q out) = index_of q ∧ room_of (queue_after q out) ≤ room_of q).
Proof using HI.
  intros Hs t Ht Hp. destruct out as [[[q' p'] evs]| |]; simpl; [|done..].
  destruct (word_of_inv _ _ _ _ _ _ _ _ HI) as [He Hr].
  pose proof HI as ((_ & Hw & _) & Hths & _).
  destruct (step_word _ _ _ _ _ _ Hs)
    as [-> _|v b Hpe _ Hop Hres|? ? ? ? ->|_ _ ->|_ _ ->]; [done| |done| |].
  - subst p. destruct (ti_pc _ _ _ _ Hths _ _ Ht) as [Hv Hpos].
    destruct (valid_size v Hv) as [_ Hmax].
    unfold queue_is_closed in Hop. rewrite Hw in *. rewrite is_closed_enc in Hop by done.
    subst cl. rewrite try_reserve_enc in Hres by (try done; zlia).
    destruct (Z.leb_spec (size v) (capacity (sel e (buffers q)) - g_len (sel e g))); [|done].
    injection Hres as <-. rewrite !buffer_index_enc, !remaining_capacity_enc by (done || lia).
    split; [done|lia].
  - rewrite Hw, close_enc, !buffer_index_enc, !remaining_capacity_enc by done. done.
  - rewrite Hw, reopen_enc, !buffer_index_enc, !remaining_capacity_enc by done. done.
Qed.

(** The dequeuing side leaves the enqueuing word alone but for the exchange. *)
Lemma active_word sp p out : is_holder p = true → step sp q p = Some out →
  enqueuing_capacity (queue_after q out) = enqueuing_capacity q ∨
  ∃ dl cap nxt b, p = DeqSwap dl (enqueuing_capacity q) cap nxt b ∧ sp = false ∧
    out = Ret (set_enqueuing q (EnqueuingCapacity.with_closed nxt (enqueuing_capacity q)),
               DeqCapLoad dl (enqueuing_capacity q) cap, [EvSwap]).
Proof.
  intros Hp Hs. destruct out as [[[q' p'] evs]| |]; [|by left..]. simpl.
  destruct (step_word _ _ _ _ _ _ Hs)
    as [?|? ? -> |dl cap nxt b -> Hev Hw| -> | ->]; [by left|done| |done..].
  simpl in Hs. unfold deq_swap in Hs. destruct (_ && _) eqn:Hc; simplify_eq.
  right. apply andb_true_iff in Hc as [Hsp _]. destruct sp; [done|]. by eexists _, _, _, _.
Qed.

(** Nobody inserts in the buffer after a step of the dequeuer that does not wait
    only if nobody did before. *)
Lemma clean_backward sp t p q' p' evs : ths !! t = Some p → is_holder p = true →
  step sp q p = Some (Ret (q', p', evs)) →
  (if is_holder p' then clean p' else DequeuingLength.buffer_len (dequeuing_length q') =? 0)
    = true →
  clean p = true ∨
  ∃ len n, p = DeqSpin (1 - e) len (Datatypes.S n) ∧ all_done (sel (1 - e) g).
Proof using HI.
  intros Ht Hp Hs Hc.
  destruct (holder_facts _ _ _ _ _ _ _ _ _ HI _ Ht Hp) as (_ & Hb & _ & Hinv & _).
  destruct p; simpl in Hp; try discriminate; simpl in Hs; apply (inj Some) in Hs;
    try (left; reflexivity).
  - left. unfold_step_in Hs. inv_ret Hs; [done|]. done.
  - left. unfold_step_in Hs. inv_ret Hs; done.
  - left. unfold_step_in Hs. inv_ret Hs; done.
  - left. unfold_step_in Hs. inv_ret Hs; done.
  - left. unfold_step_in Hs. apply obind_Ret_inv in Hs as (x & Hx & Hs).
    apply usize_sub_inv in Hx as [-> _]. simpl.
    destruct (_ - _ =? 0) eqn:Hz; simpl in Hs; [lia|]. by injection Hs as <- <- <-.
  - destruct Hinv as (_ & -> & -> & Hlt). simpl in Hb. specialize (Hb eq_refl).
    rewrite Z.add_0_r in Hb.
    unfold_step_in Hs. inv_ret Hs; [done| |done]. right. eexists _, _.
    split; [done|]. apply Z.leb_le in Hm0.
    destruct (Z.eq_dec (g_drained (sel (1 - e) g)) 0) as [Hd|Hd].
    + eapply bi_full; [done|]. lia.
    + apply (bi_drained_done _ _ _ Hb). pose proof (bi_drained _ _ _ Hb). lia.
  - exfalso. destruct Hinv as (_ & -> & -> & Hlt). simpl in Hb. specialize (Hb eq_refl).
    unfold_step_in Hs. inv_ret Hs. simpl in Hc.
    destruct (word_of_inv _ _ _ _ _ _ _ _ HI) as [He _].
    pose proof (gd_bound _ _ _ _ Hb).
    rewrite deq_new_enc, deq_buffer_len_enc in Hc by lia. lia.
Qed.
End Steps.

(** ** Every action *)
Section Act.
Variable (o : orderings).
Hypothesis Hsuf : sufficient consumer o = true.

Lemma consumer_cases : (∃ d, consumer = Some d) ∨ consumer = None.
Proof using. clear. destruct consumer; eauto. Qed.

Lemma sufficient_consumer :
  consumer = None → acquires (o_lock o) = true ∧
  ∀ x, x ∈ [o_restore o; o_acknowledge o; o_pending o; o_unlock o; o_requeue o] →
       releases x = true.
Proof using Hsuf.
  intros Hc. unfold sufficient in Hsuf. rewrite Hc in Hsuf. simpl in Hsuf.
  rewrite !andb_true_iff in Hsuf. destruct_and? Hsuf. split; [done|].
  intros x Hx. repeat (apply elem_of_cons in Hx as [->|Hx]; [done|]). by apply elem_of_nil in Hx.
Qed.

Lemma passive_no_store sp (q : Queue B) (p : pc) l x : is_holder p = false → atomic_of o sp q p ≠ Store l x.
Proof using o. intros Hp. destruct p; simplify_eq/=; try done; by repeat case_match. Qed.

Lemma passive_lock_word sp (q : Queue B) (p : pc) out :
  step sp q p = Some out → is_holder p = false → (∀ rz, p ≠ DeqStart rz) →
  dequeuing_length (queue_after q out) = dequeuing_length q.
Proof using.
  intros Hs Hp Hne. destruct out as [[[q' p'] evs]| |]; [|done..]. simpl.
  destruct p; simplify_eq/=; try done; try (by destruct (Hne rz));
    unfold_step_in Hs; by inv_ret Hs.
Qed.

(** Dequeuing starts with a call. *)
Lemma step_dequeuing sp (q : Queue B) (p : pc) out :
  step sp q p = Some out → dequeuing (pc_after out) = is_holder (pc_after out).
Proof using.
  intros Hs. destruct out as [[[q' p'] evs]| |]; [|done..]. simpl.
  destruct p; simplify_eq/=; try done; unfold_step_in Hs; by inv_ret Hs.
Qed.

Lemma active_points sp (q : Queue B) (p : pc) out : step sp q p = Some out →
  is_holder p = true → ∀ i, enqueuing_on i (pc_after out) = false.
Proof using.
  intros Hs Hp i. destruct out as [[[q' p'] evs]| |]; [|done..]. simpl.
  destruct p; try discriminate Hp; simplify_eq/=; try done; unfold_step_in Hs; by inv_ret Hs.
Qed.

Section Step.
Variables (q : Queue B) (ths : gmap nat pc) (h : hist).
Variables (e : Z) (cl : bool) (g : gbuf * gbuf) (held : list E).
Variables (K : gset nat) (t : nat) (p : pc) (sp : bool) (m : memory).
Hypothesis HI : Inv_with strict q ths h e cl g held.
Hypothesis Ho : ordered K q ths m.
Hypothesis Ht : ths !! t = Some p.
Variable out : outcome (Queue B * pc * list (event S V E)).
Hypothesis Hs : step sp q p = Some out.
Let m' : memory :=
  synchronise t (atomic_of o sp q p) (record_touch t (touch_of (buffers q) p) m).

Lemma step_msg l : (∀ x, atomic_of o sp q p ≠ Store l x) → m_msg m l ⊆ m_msg m' l.
Proof using.
  intros Ha. etrans; [|by apply synchronise_msg]. by rewrite record_touch_msg.
Qed.

Hypothesis Hpost : ∃ h',
  Inv strict (mk_config (queue_after q out) (<[t := pc_after out]> ths)) h'.

(** A thread that does not dequeue does not come to hold the dequeuing side, not even by
    a panic: the word would say that somebody holds it already. *)
Lemma passive_not_holder : is_holder p = false →
  dequeuing_length (queue_after q out) = dequeuing_length q →
  is_holder (pc_after out) = false.
Proof using All.
  intros Hp Hw. destruct (is_holder (pc_after out)) eqn:Hp'; [exfalso|done].
  destruct Hpost as (h' & e' & cl' & g' & held' & HI'). simpl in HI'.
  assert (<[t := pc_after out]> ths !! t = Some (pc_after out)) as Ht'
    by apply lookup_insert_eq.
  destruct (inv_locked _ _ _ _ _ _ _ _ HI' _ _ Ht' Hp') as (Hl & _ & _ & Hu & _).
  rewrite Hw in Hl. apply (inv_lock_word _ _ _ _ _ _ _ _ HI) in Hl as (t1 & p1 & Ht1 & Hp1).
  assert (t1 ≠ t) as Hne by congruence.
  apply Hne, (Hu _ p1); [by rewrite lookup_insert_ne|done].
Qed.

Lemma run_passive_points :
  is_holder p = false → is_holder (pc_after out) = false →
  (∀ rz, p = DeqStart rz → pc_after out = DeqErr TryDequeueError.Conflict) →
  passive q t m m' p (pc_after out).
Proof using All.
  intros Hp Hp' Hlk. assert (pc_after out ≠ Undefined) as HnU.
  { intros HU. destruct Hpost as (h' & e' & cl' & g' & held' & _ & Hths & _).
    apply (ti_pc _ _ _ _ Hths t Undefined). simpl. by rewrite HU, lookup_insert_eq. }
  destruct p; simpl in Hs; try discriminate; apply (inj Some) in Hs; subst out m'.
  - unfold enq_start. destruct (_ =? _); by apply passive_other.
  - unfold enq_loop, sufficient in *. simpl in *. rewrite !andb_true_iff in Hsuf.
    destruct_and? Hsuf.
    repeat case_match; try (by apply passive_other). simpl.
    match goal with Hc : _ && _ = true |- _ => apply andb_true_iff in Hc as [_ <-%Z.eqb_eq] end.
    apply passive_reserve; [done|].
    by apply (rmw_acquires t EnqueuingWord (o_reserve o) m).
  - destruct (enq_insert q value enqueuing) as [[[q' p'] evs]| |] eqn:Hi; [|done..].
    unfold enq_insert in Hi. inv_ret Hi. apply passive_insert.
  - apply passive_add; [done|]. apply rmw_releases.
    unfold sufficient in Hsuf. rewrite !andb_true_iff in Hsuf. by destruct_and? Hsuf.
  - by apply passive_other.
  - rewrite (Hlk _ eq_refl). by apply passive_other.
  - by apply passive_other.
  - by apply passive_other.
  - by apply passive_other.
  - by apply passive_other.
Qed.

Lemma run_passive : is_holder p = false →
  dequeuing_length (queue_after q out) = dequeuing_length q →
  (∀ rz, p = DeqStart rz → pc_after out = DeqErr TryDequeueError.Conflict) →
  ordered K (queue_after q out) (<[t := pc_after out]> ths) m'.
Proof using All.
  intros Hp Hw Hlk. pose proof (passive_not_holder Hp Hw) as Hp'.
  destruct (passive_word _ _ _ _ _ _ _ HI _ _ _ Hs _ Ht Hp) as [Hidx Hroom].
  eapply passive_step; eauto.
  - intros d Hd Hdq. rewrite (step_dequeuing _ _ _ _ Hs) in Hdq. congruence.
  - apply step_grows.
  - intros l. apply step_msg. intros x. by apply passive_no_store.
  - intros i Hi. destruct (step_buffers _ _ _ _ Hs) as [Heq|(j & b & Ha & _)]; [done|].
    by destruct p.
  - by apply run_passive_points.
Qed.
(** Taking the dequeuing side: the last unlocking released what it knew. *)
Lemma run_lock rz w : p = DeqStart rz →
  DequeuingLength.try_from_atomic (dequeuing_length q) = Some w →
  ordered (m_view m' t) (queue_after q out) (<[t := pc_after out]> ths) m'.
Proof using All.
  intros Hpe Hw. pose proof Hs as Hout. pose proof Ht as Ht'. rewrite Hpe in Hout, Ht'.
  simpl in Hout. apply (inj Some) in Hout. unfold deq_start in Hout. rewrite Hw in Hout.
  rewrite <- Hout. simpl.
  assert (dequeuing_length q ≠ DEQUEUING_LOCKED ∧ w = dequeuing_length q) as [Hnl ->].
  { unfold DequeuingLength.try_from_atomic in Hw.
    destruct (Z.eqb_spec (dequeuing_length q) DEQUEUING_LOCKED); simplify_eq/=; done. }
  assert (no_holder ths) as Hno.
  { intros t0 p0 Ht0. destruct (is_holder p0) eqn:Hp0; [|done].
    destruct Hnl. apply (inv_lock_word _ _ _ _ _ _ _ _ HI). eauto. }
  assert (m' = synchronise t (ReadModifyWrite DequeuingWord (o_lock o)) m) as Hm'
    by (unfold m'; by rewrite Hpe).
  assert (grows t [] m m') as Hgr by (rewrite Hm'; apply (step_grows t None)).
  assert (∀ l, m_msg m l ⊆ m_msg m' l) as Hmsg.
  { intros l. apply step_msg. intros x. apply passive_no_store. by rewrite Hpe. }
  assert (K ⊆ m_view m' t) as HK.
  { destruct consumer_cases as [[d Hc]|Hc].
    - pose proof (or_dequeuing _ _ _ _ Ho d t _ Hc Ht' eq_refl) as <-.
      etrans; [by eapply or_consumer|apply (gr_view _ _ _ _ Hgr)].
    - etrans; [by eapply or_free|]. rewrite Hm'. apply rmw_acquires.
      by apply sufficient_consumer. }
  eapply (active_step q _ ths h e cl g held K t _ _ m m' []); try done.
  - intros t1 p1 Ht1 Hp1. by rewrite (Hno _ _ Ht1) in Hp1.
  - intros a Ha. by apply elem_of_nil in Ha.
  - intros i. by left.
  - by left.
  - intros Ha. by apply elem_of_nil in Ha.
  - intros [(t1 & p1 & Ht1 & Hp1 & Hc)|[Hno' _]]; left.
    + apply lookup_insert_Some in Ht1 as [[_ <-]|[_ Ht1]];
        [|by rewrite (Hno _ _ Ht1) in Hp1].
      right. split; [done|]. by apply Z.eqb_eq in Hc.
    + specialize (Hno' t). rewrite lookup_insert_eq in Hno'. by specialize (Hno' _ eq_refl).
Qed.

(** Unlocking releases what the dequeuer knows. *)
Lemma run_release : is_holder p = true → is_holder (pc_after out) = false →
  pc_after out ≠ Undefined → consumer = None →
  m_view m' t ⊆ m_msg m' DequeuingWord.
Proof using All.
  intros Hp Hp' HnU Hc. destruct (sufficient_consumer Hc) as [_ Hrel].
  assert (∃ x, atomic_of o sp q p = Store DequeuingWord x ∧ releases x = true)
    as (x & Ha & Hx).
  { clear -Hs Hp Hp' HnU Hrel. destruct out as [[[q' p'] evs]| |]; [|done..]. simpl in *.
    destruct p; try discriminate Hp; simpl in *; try discriminate; apply (inj Some) in Hs;
      unfold_step_in Hs; inv_ret Hs; try discriminate;
      try (match goal with Hu : usize_sub _ _ = Ret _ |- _ =>
             apply usize_sub_inv in Hu as [<- _] end;
           match goal with Hx : (0 <? _) = _ |- _ => rewrite Hx end);
      (eexists; split; [reflexivity|apply Hrel; set_solver]). }
  unfold m'. rewrite Ha. by apply store_releases.
Qed.
(** Only the reset of a length overwrites what it carries. *)
Lemma run_messages : is_holder p = true →
  m_msg m EnqueuingWord ⊆ m_msg m' EnqueuingWord ∧
  ∀ i, m_msg m (BufferLength i) ⊆ m_msg m' (BufferLength i) ∨ i = 1 - e ∧ drained q ths.
Proof using All.
  intros Hp. split.
  - apply step_msg. intros x Hx. clear -Hx Hp.
    destruct p; try discriminate Hp; simpl in Hx; repeat case_match; discriminate.
  - intros i.
    assert (p = RelLen i ∨ ∀ x, atomic_of o sp q p ≠ Store (BufferLength i) x) as [Hpe|Hne].
    { clear -Hp. destruct p; try discriminate Hp; simpl;
        try (right; intros ? ?; repeat case_match; discriminate).
      match goal with |- RelLen ?j = _ ∨ _ => destruct (decide (j = i)) as [->|] end;
        [by left|right; congruence]. }
    + right. pose proof Ht as Ht'. rewrite Hpe in Ht'.
      destruct (holder_facts _ _ _ _ _ _ _ _ _ HI _ Ht' eq_refl) as (_ & _ & _ & Hinv & _).
      destruct Hinv as (_ & Hi & _). split; [done|]. left. eauto.
    + left. by apply step_msg.
Qed.

(** What the dequeuing side touches: its buffer when it is drained, and a capacity. *)
Lemma run_touches a : is_holder p = true →
  a ∈ option_list (touch_of (buffers q) p) →
  (a = Accesses (Owns (1 - e)) ∧ drained q ths) ∨ ∃ i, a = ReadsCapacity i.
Proof using All.
  intros Hp Ha. destruct (touch_of (buffers q) p) as [a'|] eqn:Htp;
    [|by apply elem_of_nil in Ha].
  apply list_elem_of_singleton in Ha as ->.
  assert ((∃ i, access_of (buffers q) p = Some (Owns i) ∧ a' = Accesses (Owns i) ∧
             clean p = true) ∨ ∃ i, a' = ReadsCapacity i) as [(i & Ha & -> & Hc)|?]; [|left|by right].
  { clear -Hp Htp. destruct p; simplify_eq/=; eauto 10. }
  destruct (inv_owns _ _ _ _ _ _ _ _ HI _ _ _ Ht Ha) as (_ & -> & _).
  split; [done|left; eauto].
Qed.

(** After the step nobody inserts in the buffer: nobody did before, or the spin loop
    has acquired what the insertions released. *)
Lemma run_drained : is_holder p = true →
  drained (queue_after q out) (<[t := pc_after out]> ths) →
  drained q ths ∨
  all_done (sel (1 - e) g) ∧ m_msg m (BufferLength (1 - e)) ⊆ m_view m' t.
Proof using All.
  intros Hp Hd. destruct (inv_locked _ _ _ _ _ _ _ _ HI _ _ Ht Hp) as (_ & _ & _ & Hu & _).
  assert ((if is_holder (pc_after out) then clean (pc_after out)
           else DequeuingLength.buffer_len (dequeuing_length (queue_after q out)) =? 0)
          = true) as Hc.
  { destruct Hd as [(t1 & p1 & Ht1 & Hp1 & Hc1)|[Hno Hl]].
    - apply lookup_insert_Some in Ht1 as [[_ <-]|[Hne Ht1]]; [by rewrite Hp1|].
      by destruct Hne; symmetry; eapply Hu.
    - rewrite (Hno t) by apply lookup_insert_eq. by apply Z.eqb_eq. }
  destruct out as [[[q' p'] evs]| |]; [|done|]; simpl in Hc.
  - destruct (clean_backward _ _ _ _ _ _ _ HI _ _ _ _ _ _ Ht Hp Hs Hc)
      as [?|(len & n & Hpe & Hall)]; [left; left; eauto|right].
    split; [done|]. unfold m'. rewrite Hpe. simpl. apply load_acquires.
    unfold sufficient in Hsuf. rewrite !andb_true_iff in Hsuf. by destruct_and? Hsuf.
  - destruct Hpost as (h' & e' & cl' & g' & held' & _ & Hths & _).
    destruct (ti_pc _ _ _ _ Hths t Undefined). apply lookup_insert_eq.
Qed.

Lemma run_active : is_holder p = true →
  enqueuing_capacity (queue_after q out) = enqueuing_capacity q →
  ordered (m_view m' t) (queue_after q out) (<[t := pc_after out]> ths) m'.
Proof using All.
  intros Hp Hw. destruct (inv_word _ _ _ _ _ _ _ _ HI) as (He & Hie & _).
  destruct (inv_locked _ _ _ _ _ _ _ _ HI _ _ Ht Hp) as (_ & _ & _ & Hu & _).
  destruct (run_messages Hp) as [Henq Hlen].
  assert (pc_after out ≠ Undefined) as HnU.
  { intros HU. destruct Hpost as (h' & e' & cl' & g' & held' & _ & Hths & _).
    apply (ti_pc _ _ _ _ Hths t Undefined). simpl. by rewrite HU, lookup_insert_eq. }
  assert (grows t (option_list (touch_of (buffers q) p)) m m') as Hgr by apply step_grows.
  assert (∀ i, 0 ≤ i ≤ 1 →
    capacity (sel i (buffers (queue_after q out))) = capacity (sel i (buffers q)) ∨
    i = 1 - e ∧ drained q ths) as Hcap.
  { intros i Hi. destruct (step_buffers _ _ _ _ Hs) as [Heq|(j & b & Ha & Heq)]; [by left|].
    destruct (run_touches (Accesses (Owns j)) Hp) as [[[= ->] Hd]|[? ?]]; [| |done].
    { clear -Ha. destruct p; simplify_eq/=; set_solver. }
    destruct (Z.eq_dec i (1 - e)) as [->|Hne]; [by right|left].
    rewrite Heq, sel_upd_ne by lia. done. }
  eapply active_step; try done.
  - unfold dequeuing. by rewrite Hp.
  - etrans; [by eapply or_holder|apply (gr_view _ _ _ _ Hgr)].
  - by eapply step_dequeuing.
  - by eapply active_points.
  - intros ??. by apply run_release.
  - intros a [[-> _]|?]%run_touches; auto.
  - destruct (Hcap e) as [?|[? _]]; [done|done|lia].
  - destruct (Hcap (1 - e)) as [?|[_ ?]]; [lia|by left|by right].
  - intros [[_ ?]|[? ?]]%run_touches; done.
  - by apply run_drained.
Qed.

Lemma run_swap dl cap nxt b :
  p = DeqSwap dl (enqueuing_capacity q) cap nxt b →
  out = Ret (set_enqueuing q (EnqueuingCapacity.with_closed nxt (enqueuing_capacity q)),
             DeqCapLoad dl (enqueuing_capacity q) cap, [EvSwap]) →
  sp = false →
  ordered (m_view m' t) (queue_after q out) (<[t := pc_after out]> ths) m'.
Proof using All.
  intros Hpe Hout Hsp. pose proof Ht as Ht'. rewrite Hpe in Ht'. rewrite Hout. simpl.
  assert (m' = synchronise t (ReadModifyWrite EnqueuingWord (o_swap o)) m) as Hm'.
  { unfold m'. rewrite Hpe, Hsp. simpl. by rewrite Z.eqb_refl. }
  eapply swap_step; try done.
  - rewrite Hm'. apply (step_grows t None).
  - intros l. apply step_msg. intros x. rewrite Hpe, Hsp. simpl. by rewrite Z.eqb_refl.
  - rewrite Hm'. apply rmw_releases.
    unfold sufficient in Hsuf. rewrite !andb_true_iff in Hsuf. by destruct_and? Hsuf.
Qed.

Lemma run_ordered :
  ∃ K', ordered K' (queue_after q out) (<[t := pc_after out]> ths) m'.
Proof using All.
  destruct (is_holder p) eqn:Hp.
  - exists (m_view m' t).
    destruct (active_word _ _ _ _ Hp Hs) as [Hw|(dl & cap & nxt & b & Hpe & Hsp & Hout)].
    + by apply run_active.
    + by eapply run_swap.
  - assert ((∃ rz, p = DeqStart rz) ∨ ∀ rz, p ≠ DeqStart rz) as [[rz Hpe]|Hne].
    { clear. destruct p; try (by right); left; eauto. }
    + destruct (DequeuingLength.try_from_atomic (dequeuing_length q)) as [w|] eqn:Hw.
      * exists (m_view m' t). by eapply run_lock.
      * exists K. pose proof Hs as Hout. rewrite Hpe in Hout. simpl in Hout.
        unfold deq_start in Hout. rewrite Hw in Hout. apply (inj Some) in Hout.
        apply run_passive; [done| |by rewrite <- Hout].
        rewrite <- Hout. simpl. unfold DequeuingLength.try_from_atomic in Hw.
        by destruct (Z.eqb_spec (dequeuing_length q) DEQUEUING_LOCKED).
    + exists K. apply run_passive; [done|by eapply passive_lock_word|by intros rz ?%Hne].
Qed.
End Step.

(** What a call is: a method of a handle, or one of the queue by a thread at rest. *)
Lemma handle_call p c p' evs : is_holder p = true → call_ok strict c →
  start_call p c = Some (p', evs) →
  (∃ i, ∀ bs : B * B, access_of bs p = Some (Owns i)) ∧
  (∀ bs : B * B, touch_of bs p = Accesses <$> access_of bs p) ∧
  clean p = true ∧ is_holder p' = true ∧ clean p' = true ∧ dequeuing p' = true ∧
  ∀ i, enqueuing_on i p' = false.
Proof using.
  intros Hp Hok Hs. destruct c, p; try discriminate Hp; try discriminate Hs;
    simpl in Hok; unfold_start_in Hs; simplify_eq; repeat (case_match; simplify_eq);
    (split_and!; eauto; done).
Qed.

Lemma ready_call p c p' evs : is_holder p = false →
  start_call p c = Some (p', evs) →
  (∀ bs : B * B, touch_of bs p = None) ∧ is_holder p' = false ∧
  (dequeuing p' = true → dequeues (Call c) = true) ∧
  (∀ i, enqueuing_on i p = false) ∧ (∀ i, enqueuing_on i p' = false).
Proof using.
  intros Hp Hs. destruct c, p; try discriminate Hp; try discriminate Hs;
    unfold_start_in Hs; simpl in Hs; simplify_eq; repeat (case_match; simplify_eq);
    (split_and!; done).
Qed.

(** A call: the methods of a handle touch its buffer, which stays drained. *)
Lemma call_ordered q ths h e cl g held K t p c p' evs m :
  Inv_with strict q ths h e cl g held → ordered K q ths m → ths !! t = Some p →
  call_ok strict c → consumed_by consumer t (Call c) →
  start_call p c = Some (p', evs) →
  ∃ K', ordered K' q (<[t := p']> ths) (record_touch t (touch_of (buffers q) p) m).
Proof.
  intros HI Ho Ht Hok Hcon Hs. set (m' := record_touch _ _ _).
  assert (grows t (option_list (touch_of (buffers q) p)) m m') as Hgr
    by apply record_touch_grows.
  assert (∀ l, m_msg m l ⊆ m_msg m' l) as Hmsg
    by (intros l; unfold m'; by rewrite record_touch_msg).
  destruct (is_holder p) eqn:Hp.
  - exists (m_view m' t).
    destruct (inv_locked _ _ _ _ _ _ _ _ HI _ _ Ht Hp) as (_ & _ & _ & Hu & _).
    assert (touch_of (buffers q) p = Some (Accesses (Owns (1 - e))) ∧ clean p = true ∧
            is_holder p' = true ∧ clean p' = true ∧ dequeuing p' = true ∧
            ∀ i, enqueuing_on i p' = false)
      as (Htp & Hc & Hp' & Hc' & Hd' & Hen).
    { destruct (handle_call _ _ _ _ Hp Hok Hs) as ((i & Ha) & -> & Hrest).
      destruct (inv_owns _ _ _ _ _ _ _ _ HI _ _ _ Ht (Ha _)) as (_ & -> & _).
      rewrite Ha. done. }
    assert (drained q ths) as Hd by (left; eauto).
    rewrite Htp in Hgr.
    eapply active_step; try done.
    + unfold dequeuing. by rewrite Hp.
    + etrans; [by eapply or_holder|apply (gr_view _ _ _ _ Hgr)].
    + congruence.
    + congruence.
    + intros a ->%list_elem_of_singleton. by left.
    + intros i. by left.
    + by left.
    + by left.
  - exists K. destruct (ready_call _ _ _ _ Hp Hs) as (Htp & Hp' & Hd' & Hen & Hen').
    rewrite Htp in Hgr. eapply (passive_step q q ths); try done.
    + intros d Hd Hdq. by apply Hcon, Hd'.
    + by rewrite Htp.
    + by apply passive_other.
Qed.
Lemma ordered_act K c h m t a c' evs :
  Inv strict c h → ordered K (queue c) (threads c) m →
  action_ok strict a → consumed_by consumer t a → act c t a = Some (c', evs) →
  ∃ K', ordered K' (queue c') (threads c') (memory_after o c t a m).
Proof using Hsuf.
  intros HI Ho Hok Hcon Ha. pose proof (Inv_act strict _ _ _ _ _ _ HI Hok Ha) as Hpost.
  destruct HI as (e & cl & g & held & HI).
  unfold act, memory_after in *. apply bind_Some in Ha as (p & Ht & Ha). rewrite Ht.
  destruct a as [k|sp].
  - apply bind_Some in Ha as ([p' evs'] & Hs & [= <- <-]). simpl.
    by eapply call_ordered.
  - apply bind_Some in Ha as (out & Hs & Hout). apply (inj Some) in Hout.
    assert (c' = mk_config (queue_after (queue c) out) (<[t := pc_after out]> (threads c)))
      as ->.
    { destruct out as [[[q' p'] evs']| |]; by injection Hout as <- <-. }
    simpl. eapply run_ordered; eauto.
Qed.
End Act.

(** A new queue: nothing has been accessed. *)
Lemma ordered_initial (q0 : Queue B) n :
  ordered ∅ q0 (threads (initial q0 n : config)) initial_memory.
Proof.
  split; simpl; try (by intros); try (by intros; apply empty_subseteq).
  - intros d t p _ Ht. unfold initial in Ht. simpl in Ht.
    apply lookup_map_seq_Some in Ht as [_ [-> _]%lookup_replicate]. done.
  - by intros k t i [?|?].
Qed.

Lemma ordered_reached o q0 n m (c : config) :
  built q0 → sufficient consumer o = true →
  ordered_execution o (λ t a, action_ok strict a ∧ consumed_by consumer t a)
    (initial q0 n) m c →
  (∃ h, Inv strict c h) ∧ ∃ K, ordered K (queue c) (threads c) m.
Proof.
  intros Hb Hsuf Hex. induction Hex as [|m c t a c' evs Hex [[h HI] [K Ho]] [Hok Hcon] Ha].
  - split; [|eexists; apply ordered_initial].
    eexists. apply (run_inv strict n []). exists q0. split; [done|constructor].
  - split; [eexists; by eapply Inv_act|by eapply ordered_act].
Qed.

Lemma reached_race_free o q0 n m (c : config) :
  built q0 → sufficient consumer o = true →
  ordered_execution o (λ t a, action_ok strict a ∧ consumed_by consumer t a)
    (initial q0 n) m c → race_free m c.
Proof.
  intros Hb Hsuf Hex.
  destruct (ordered_reached _ _ _ _ _ Hb Hsuf Hex) as [(h & e & cl & g & held & HI) [K Ho]].
  destruct c. by eapply ordered_race_free.
Qed.
End Ordered.

(** ** The theorems *)
Section Theorems.
Context {B S V E Ob : Type}.
Context `{L : BufferLaws B S V E Ob}.

(** C6: with the orderings of the source, and one thread that does all the dequeuing,
    there is no data race on the buffers: in every execution, whatever a thread is about to
    do with a buffer happens after every conflicting access that was done. *)
Theorem race_free_one_consumer strict n d (q0 : Queue B) m c :
  built q0 →
  ordered_execution source_orderings
    (λ t a, action_ok strict a ∧ consumed_by (Some d) t a) (initial q0 n) m c →
  race_free m c.
Proof. intros Hb. by apply reached_race_free. Qed.

End Theorems.

(** ** Two threads that dequeue in turn *)
(** A consumer dequeues and releases the first buffer; another one dequeues the second
    buffer, which gives the first one back to thread 0. *)
Definition sched_consumers (t1 t2 : nat) : list (nat * action val nat) :=
  [(0%nat, Call (TryEnqueue (VArray [1]%nat)))] ++ runs 0 5 ++
  [(t1, Call TryDequeue)] ++ runs t1 12 ++ [(t1, Call SliceDrop)] ++ runs t1 3 ++
  [(0%nat, Call (TryEnqueue (VArray [2]%nat)))] ++ runs 0 5 ++
  [(t2, Call TryDequeue)] ++ runs t2 12 ++
  (if decide (t1 = t2) then [(t2, Call SliceDrop)] ++ runs t2 3 else []) ++
  [(0%nat, Call (TryEnqueue (VArray [3]%nat)))] ++ runs 0 2.

Definition consumers (o : orderings) (t1 t2 : nat) : vconfig * memory :=
  default (vec_initial 4 3, initial_memory)
    (ordered_exec o (vec_initial 4 3) initial_memory (sched_consumers t1 t2)).

Lemma consumers_execution o t1 t2 (ok : nat → action val nat → Prop) :
  Forall (λ ta, ok ta.1 ta.2) (sched_consumers t1 t2) →
  ordered_execution o ok (vec_initial 4 3) (consumers o t1 t2).2 (consumers o t1 t2).1.
Proof.
  intros Hok. unfold consumers.
  destruct (ordered_exec _ _ _ _) as [[c m]|] eqn:Hx; [|constructor].
  eapply ordered_exec_execution; [exact Hok|constructor|exact Hx].
Qed.

(** Thread 0 is about to insert in the first buffer, which thread 1 has cleared: the
    insertion, and the access it conflicts with. *)
Definition about_to_insert (c : vconfig) (m : memory) : Prop :=
  threads c !! 0%nat = Some (EnqInsert (VArray [3]%nat) 8) ∧
  touch_of (buffers (queue c)) (EnqInsert (VArray [3]%nat) 8 : pc (list nat) val nat)
    = Some (Accesses (Inserts 0 (Range 0 1))) ∧
  m_log m !! 5%nat = Some (1%nat, Accesses (Owns 0)).

Lemma about_to_insert_known c m :
  about_to_insert c m → race_free m c → 5%nat ∈ m_view m 0%nat.
Proof.
  intros (Ht & Ha & Hl) Hrf. eapply Hrf; [exact Ht|exact Ha|exact Hl|].
  simpl. intros Hne. by apply Hne.
Qed.

(** C33: with the orderings of the source, two threads that dequeue in turn, never at
    the same time, race with an enqueuer: the lock of the dequeuing word is relaxed, so what
    the first one did to a buffer (here, the [clear] of its release) does not
    happen before an insertion in that buffer. *)
Theorem two_consumers_race :
  let c := (consumers source_orderings 1 2).1 in
  let m := (consumers source_orderings 1 2).2 in
  ordered_execution source_orderings (λ t a, action_ok (B := buf) true a) (vec_initial 4 3) m c ∧
  about_to_insert c m ∧ (5%nat ∉ m_view m 0%nat) ∧ ¬ race_free m c.
Proof.
  intros c m.
  assert (about_to_insert c m) as Ha by (split_and!; vm_compute; reflexivity).
  assert (5%nat ∉ m_view m 0%nat) as Hv.
  { refine (bool_decide_unpack _ _). vm_compute. exact I. }
  split_and!; [|done|done|].
  - apply consumers_execution. actions_ok.
  - intros Hrf. by eapply Hv, about_to_insert_known.
Qed.

(** The actions of the schedule are allowed, and one thread dequeues. *)
Lemma one_consumer_ok :
  Forall (λ ta, action_ok (B := buf) true ta.2 ∧ consumed_by (Some 1%nat) ta.1 ta.2)
    (sched_consumers 1 1).
Proof.
  apply Forall_and. split; [actions_ok|].
  repeat (apply Forall_cons; split; [by intros ? [= <-]|]). apply Forall_nil. exact I.
Qed.

(** One consumer: what it did to the first buffer happens before the insertion. *)
Lemma race_free_one_consumer_witness :
  about_to_insert (consumers source_orderings 1 1).1 (consumers source_orderings 1 1).2 ∧
  5%nat ∈ m_view (consumers source_orderings 1 1).2 0%nat.
Proof.
  assert (about_to_insert (consumers source_orderings 1 1).1 (consumers source_orderings 1 1).2)
    as Ha by (split_and!; vm_compute; reflexivity).
  split; [exact Ha|]. apply (about_to_insert_known _ _ Ha).
  refine (race_free_one_consumer true 3 1%nat (vec_queue 4) _ _ _ _).
  - by apply vec_queue_built.
  - apply consumers_execution, one_consumer_ok.
Defined.
