(* ===== verification/AtomicQueue.v ===== *)
(** * The queue as an atomic object

    The specification of [Queue] under concurrent calls. A state is what the
    documentation speaks of: what was enqueued and not dequeued, what was dequeued
    and not consumed, whether the queue is closed, whether some thread is dequeuing.
    Each rule of [astep] is a call, the instant at which a method has its whole
    effect, or a return. [Linearize] proves that every execution of the program is
    one of these. *)

From S2P Require Import Prelude PackedWords Errors Buffers Queue Invariant ResizeLoop.
#[local] Open Scope Z_scope.

Section AtomicQueue.
Context {B S V E Ob : Type}.
Context `{L : BufferLaws B S V E Ob}.

Abbreviation event := (event S V E).
Abbreviation len l := (Z.of_nat (length l)).

Record aqueue : Type := mk_aqueue {
  a_closed : bool;
  a_capacity : Z;        (* of the buffer that is enqueued to *)
  a_next : Z;            (* of the other one *)
  a_enq : list Ob;       (* enqueued, not dequeued *)
  a_deq : list Ob;       (* dequeued, not consumed *)
  a_pre : list Ob;       (* inserted by the dequeuing call, enqueued by its swap *)
  a_locked : bool;       (* a thread is dequeuing *)
}.
Implicit Types (a : aqueue) (v : V) (l : list Ob).

Definition a_room a : Z := a_capacity a - len (a_enq a).

Definition set_a_closed a cl : aqueue :=
  mk_aqueue cl (a_capacity a) (a_next a) (a_enq a) (a_deq a) (a_pre a) (a_locked a).
Definition set_a_enq a l : aqueue :=
  mk_aqueue (a_closed a) (a_capacity a) (a_next a) l (a_deq a) (a_pre a) (a_locked a).
Definition set_a_deq a l : aqueue :=
  mk_aqueue (a_closed a) (a_capacity a) (a_next a) (a_enq a) l (a_pre a) (a_locked a).
Definition set_a_locked a b : aqueue :=
  mk_aqueue (a_closed a) (a_capacity a) (a_next a) (a_enq a) (a_deq a) (a_pre a) b.
Definition a_prepared a cap l : aqueue :=
  mk_aqueue (a_closed a) (a_capacity a) cap (a_enq a) (a_deq a) l (a_locked a).
(** The buffers are exchanged. *)
Definition a_swapped a : aqueue :=
  mk_aqueue (a_closed a) (a_next a) (a_capacity a) (a_pre a) (a_enq a) [] (a_locked a).

(** A thread, by the method it is in. *)
Inductive phase : Type :=
  | PRest                                          (* between two calls *)
  | PEnq (v : V)                                   (* [try_enqueue], no effect yet *)
  | PEnqRet (res : result unit (TryEnqueueError.t V))
  | PDeq (rz : option (resize_args V))             (* [try_dequeue] and resizing *)
  | PLocked (rz : option (resize_args V))          (* dequeuing, nothing dequeued *)
  | PPrepared (resized : bool) (inserted : Z)      (* the next buffer is ready *)
  | PFail (e : TryDequeueError.t)                  (* about to fail, still dequeuing *)
  | PGrabbed                                       (* something is dequeued *)
  | PDeqErr (e : TryDequeueError.t)
  | PSlice (l : list Ob)                           (* the slice, and what it shows *)
  | PAssign (k : Z) (x : E)                        (* slice[k] = x *)
  | PRelease                                       (* consumed, still dequeuing *)
  | PRequeue
  | PIter (last : option (option E))
  | PNext
  | PGetSlice
  | PClose
  | PReopen.

Definition a_ready (ph : phase) : bool :=
  match ph with PRest | PEnqRet _ | PDeqErr _ => true | _ => false end.

(** After the swap: the dequeued elements, or none because nothing had been
    enqueued (the call resized the buffer, or inserted into it). *)
Definition after_swap (l : list Ob) (inserted : Z) : phase :=
  match l with
  | [] => if 0 <? inserted then PLocked None else PFail TryDequeueError.Empty
  | _ => PGrabbed
  end.

Inductive astep a : phase → list event → aqueue → phase → Prop :=
  (* calls *)
  | a_call_enqueue ph v : a_ready ph = true → astep a ph [] a (PEnq v)
  | a_call_dequeue ph rz : a_ready ph = true → astep a ph [] a (PDeq rz)
  | a_call_close ph : a_ready ph = true → astep a ph [] a PClose
  | a_call_reopen ph : a_ready ph = true → astep a ph [] a PReopen
  | a_call_assign l k x : 0 ≤ k < len l → astep a (PSlice l) [] a (PAssign k x)
  | a_call_requeue l : astep a (PSlice l) [] a PRequeue
  | a_call_into_iter l : astep a (PSlice l) [] a (PIter None)
  | a_call_next last : a_deq a ≠ [] → astep a (PIter last) [] a PNext
  | a_call_drop_iter last : astep a (PIter last) [] a PRequeue
  | a_call_into_slice last : astep a (PIter last) [] a PGetSlice
  | a_call_with_owned last : astep a (PIter last) [] a (PIter None)
  (* [try_enqueue] *)
  | a_enqueue_nothing v : size v = 0 → astep a (PEnq v) [] a (PEnqRet (Ok tt))
  | a_enqueue_closed v :
      a_closed a = true →
      astep a (PEnq v) [] a (PEnqRet (Err (TryEnqueueError.Closed v)))
  | a_enqueue_full v :
      a_closed a = false → a_room a < size v →
      astep a (PEnq v) [] a (PEnqRet (Err (TryEnqueueError.InsufficientCapacity v)))
  | a_enqueue v :
      a_closed a = false → 0 < size v ≤ a_room a →
      astep a (PEnq v) [EvReserve v]
        (set_a_enq a (a_enq a ++ (obs <$> elems v))) (PEnqRet (Ok tt))
  (* [close], [reopen] *)
  | a_close : astep a PClose [] (set_a_closed a true) PRest
  | a_reopen : astep a PReopen [] (set_a_closed a false) PRest
  (* [try_dequeue], [try_dequeue_and_resize] *)
  | a_conflict rz :
      a_locked a = true → astep a (PDeq rz) [] a (PDeqErr TryDequeueError.Conflict)
  | a_lock rz :
      a_locked a = false →
      astep a (PDeq rz) [] (set_a_locked a true)
        (match a_deq a with [] => PLocked rz | _ => PGrabbed end)
  | a_prepare rz :
      a_deq a = [] →
      let cap := plan_cap rz (a_next a) in
      let l := obs <$> plan_elems (B := B) (E := E) rz cap in
      astep a (PLocked rz) [] (a_prepared a cap l) (PPrepared (negb (cap =? a_next a)) (len l))
  | a_empty :
      a_enq a = [] →
      astep a (PPrepared false 0) [] a
        (PFail (if a_closed a then TryDequeueError.Closed else TryDequeueError.Empty))
  | a_swap resized inserted :
      resized = true ∨ 0 < inserted ∨ a_enq a ≠ [] →
      astep a (PPrepared resized inserted) [] (a_swapped a) (after_swap (a_enq a) inserted)
  | a_fail e : astep a (PFail e) [] (set_a_locked a false) (PDeqErr e)
  | a_pending :
      a_deq a ≠ [] →
      astep a PGrabbed [] (set_a_locked a false) (PDeqErr TryDequeueError.Pending)
  | a_take : a_deq a ≠ [] → astep a PGrabbed [] a (PSlice (a_deq a))
  (* the slice and the iterator *)
  | a_assign k x :
      0 ≤ k < len (a_deq a) →
      let l := <[Z.to_nat k := obs x]> (a_deq a) in
      astep a (PAssign k x) [EvAssign (Z.to_nat k) x] (set_a_deq a l) (PSlice l)
  | a_drop s :
      view s = a_deq a →
      astep a (PSlice (view s)) [EvRelease s] (set_a_deq a []) PRelease
  | a_requeue : a_deq a ≠ [] → astep a PRequeue [] (set_a_locked a false) PRest
  | a_requeue_nothing : a_deq a = [] → astep a PRequeue [] a PRelease
  | a_release : a_deq a = [] → astep a PRelease [] (set_a_locked a false) PRest
  | a_iter_end last : a_deq a = [] → astep a (PIter last) [] a (PIter (Some None))
  | a_iter_next x l :
      a_deq a = obs x :: l →
      astep a PNext [EvNext x] (set_a_deq a l) (PIter (Some (Some x)))
  | a_get_slice : astep a PGetSlice [] a (PSlice (a_deq a)).

(** Any number of threads on one queue, with the events a client sees. *)
Definition aconfig : Type := aqueue * gmap nat phase.

Inductive aruns (c0 : aconfig) : list event → aconfig → Prop :=
  | aruns_nil : aruns c0 [] c0
  | aruns_snoc tr a ths t ph evs a' ph' :
      aruns c0 tr (a, ths) → ths !! t = Some ph → astep a ph evs a' ph' →
      aruns c0 (tr ++ evs) (a', <[t := ph']> ths).

Definition ainitial (capacity next : Z) (n : nat) : aconfig :=
  (mk_aqueue false capacity next [] [] [] false, map_seq 0 (replicate n PRest)).
End AtomicQueue.
Arguments aqueue : clear implicits.
Arguments phase : clear implicits.
Arguments aconfig : clear implicits.
