(* ===== verification/Linearize.v ===== *)
(** * The queue is the atomic queue

    Every execution of the machine of [Queue], any number of threads interleaved step
    by step, is an execution of the specification of [AtomicQueue]: each call has its
    whole effect at one of its steps. [abs] reads the abstract state off the shared
    words and the history, [phase_of] the phase of a thread off its program point;
    a step of the machine is one rule of the specification, or none. The instants:
    the exchange that reserves, or the load that finds the queue closed or full, for
    [try_enqueue]; the locking of the dequeuing word, the load that finds nothing, and
    the exchange of the buffers, for [try_dequeue]. *)

From S2P Require Import Prelude PackedWords Errors Buffers CellBuffers Queue Machine Scenario.
From S2P Require Import Invariant GhostLemmas Preservation ResizeLoop AtomicQueue.
From S2P Require Import DequeuerSteps StepInvariant Concurrent.
#[local] Open Scope Z_scope.

Section Linearize.
Context {B S V E Ob : Type}.
Context `{L : BufferLaws B S V E Ob}.

Abbreviation pc := (pc S V E).
Abbreviation event := (event S V E).
Abbreviation hist := (hist (E := E) (Ob := Ob)).
Abbreviation gbuf := (gbuf (E := E)).
Abbreviation aqueue := (aqueue Ob).
Abbreviation phase := (phase V E Ob).
Abbreviation len l := (Z.of_nat (length l)).
Implicit Types (q : Queue B) (h : hist) (ths : gmap nat pc) (p : pc).

(** ** The abstraction *)
Definition abs q h : aqueue :=
  let w := enqueuing_capacity q in
  let e := EnqueuingCapacity.buffer_index w in
  let cap := capacity (sel e (buffers q)) in
  let rest := drop (length (h_out h)) (obs <$> h_enq h) in
  let n := (length rest - Z.to_nat (cap - EnqueuingCapacity.remaining_capacity w))%nat in
  mk_aqueue (EnqueuingCapacity.is_closed w) cap (capacity (sel (1 - e) (buffers q)))
    (drop n rest) (take n rest) (obs <$> h_pre h)
    (dequeuing_length q =? DEQUEUING_LOCKED).

Definition enq_phase (v : V) (w : Z) : phase :=
  if EnqueuingCapacity.is_closed w then PEnqRet (Err (TryEnqueueError.Closed v))
  else match EnqueuingCapacity.try_reserve w (size v) with
       | None => PEnqRet (Err (TryEnqueueError.InsufficientCapacity v))
       | Some _ => PEnq v
       end.

Definition fail_error (enq : Z) : TryDequeueError.t :=
  if EnqueuingCapacity.is_closed enq then TryDequeueError.Closed else TryDequeueError.Empty.

Definition check_phase q (d : deq_locals) (enq : Z) : phase :=
  let cap := capacity (sel (EnqueuingCapacity.buffer_index enq) (buffers q)) in
  if (EnqueuingCapacity.remaining_capacity enq =? cap) && negb (dl_resized d) &&
     (dl_inserted d =? 0)
  then PFail (fail_error enq) else PPrepared (dl_resized d) (dl_inserted d).

Definition swapped_phase (d : deq_locals) (enq cap : Z) : phase :=
  if cap - EnqueuingCapacity.remaining_capacity enq =? 0
  then if 0 <? dl_inserted d then PLocked None else PFail TryDequeueError.Empty
  else PGrabbed.

Definition phase_of q p : phase :=
  match p with
  | Idle | CloseNotifyDeq | CloseNotifyEnq | Panicked | Undefined => PRest
  | EnqStart v => PEnq v
  | EnqLoop v w _ => enq_phase v w
  | EnqInsert _ _ | EnqAdd _ _ | EnqNotify => PEnqRet (Ok tt)
  | EnqDone res => PEnqRet res
  | DeqStart rz => PDeq rz
  | DeqInternal w rz => if DequeuingLength.buffer_len w =? 0 then PLocked rz else PGrabbed
  | DeqResize _ rz => PLocked rz
  | DeqAddInserted d | DeqLoad d | DeqSwap d _ _ _ _ => PPrepared (dl_resized d) (dl_inserted d)
  | DeqCheck d enq => check_phase q d enq
  | DeqRestore _ enq => PFail (fail_error enq)
  | DeqCapLoad d enq cap | DeqCapStore d enq cap | DeqNotify d enq cap
  | DeqMatch d enq cap => swapped_phase d enq cap
  | DeqAck _ => PFail TryDequeueError.Empty
  | DeqSpin _ _ _ | DeqTake _ _ | DeqSave _ _ => PGrabbed
  | DeqErr e => PDeqErr e
  | Slice bs => PSlice (view (bs_slice bs))
  | SliceSet _ k x => PAssign k x
  | RelClear _ _ | RelLen _ | RelUnlock _ => PRelease
  | Requeue _ _ => PRequeue
  | Iter _ last => PIter last
  | IterRemove _ => PNext
  | GetSlice _ => PGetSlice
  | CloseOr => PClose
  | ReopenAnd => PReopen
  end.

(** The events a client sees: the buffers and the notifications are hidden. *)
Definition shown (ev : event) : bool :=
  match ev with
  | EvReserve _ | EvRelease _ | EvNext _ | EvAssign _ _ => true
  | EvPreload _ | EvSwap | EvNotifyDequeue | EvNotifyEnqueue => false
  end.
Definition visible (evs : list event) : list event := base.filter shown evs.

(** ** Reading the abstraction *)
Lemma abs_enc q h cl e r l1 l2 :
  enqueuing_capacity q = enc cl e r → 0 ≤ e ≤ 1 → 0 ≤ r < MAX_REMAINING →
  capacity (sel e (buffers q)) - r = len l2 →
  obs <$> h_enq h = h_out h ++ l1 ++ l2 →
  abs q h = mk_aqueue cl (capacity (sel e (buffers q))) (capacity (sel (1 - e) (buffers q)))
              l2 l1 (obs <$> h_pre h) (dequeuing_length q =? DEQUEUING_LOCKED).
Proof.
  intros Hw He Hr Hl Hh. unfold abs. rewrite Hw.
  rewrite is_closed_enc, buffer_index_enc, remaining_capacity_enc by done.
  rewrite Hh, drop_app_length, Hl, Nat2Z.id, length_app.
  replace (length l1 + length l2 - length l2)%nat with (length l1) by lia.
  by rewrite drop_app_length, take_app_length.
Qed.

Lemma abs_same q q' h h' :
  enqueuing_capacity q' = enqueuing_capacity q → dequeuing_length q' = dequeuing_length q →
  (∀ i, 0 ≤ i ≤ 1 → capacity (sel i (buffers q')) = capacity (sel i (buffers q))) →
  h_enq h' = h_enq h → h_pre h' = h_pre h → h_out h' = h_out h →
  abs q' h' = abs q h.
Proof.
  intros Hw Hd Hc Henq Hpre Hout. unfold abs.
  pose proof (buffer_index_bound (enqueuing_capacity q)).
  rewrite Hw, Hd, Henq, Hpre, Hout, !Hc by lia. done.
Qed.

Lemma abs_set_dequeuing q h w :
  abs (set_dequeuing q w) h = set_a_locked (abs q h) (w =? DEQUEUING_LOCKED).
Proof. done. Qed.

Lemma phase_len (l : list Ob) n (rz : option (resize_args V)) :
  len l = n →
  match l with [] => PLocked rz | _ => PGrabbed end =
  (if n =? 0 then PLocked rz else PGrabbed : phase).
Proof. intros <-. by destruct l. Qed.

Lemma visible_app evs evs' : visible (evs ++ evs') = visible evs ++ visible evs'.
Proof. apply filter_app. Qed.

Lemma phase_not_holder q q' p : is_holder p = false → phase_of q' p = phase_of q p.
Proof. by destruct p. Qed.

Lemma phase_caps q q' p :
  (∀ i, 0 ≤ i ≤ 1 → capacity (sel i (buffers q')) = capacity (sel i (buffers q))) →
  phase_of q' p = phase_of q p.
Proof.
  intros Hc. destruct p; try done. simpl. unfold check_phase.
  by rewrite Hc by apply buffer_index_bound.
Qed.

(** ** One step of one thread *)
Section Step.
Variables (q : Queue B) (ths : gmap nat pc) (h : hist).
Variables (e : Z) (cl : bool) (g : gbuf * gbuf) (held : list E).
Variable (t : nat).
Hypothesis HI : Inv_with true q ths h e cl g held.
Let d : Z := 1 - e.
Let gd : gbuf := sel d g.
Let ge : gbuf := sel e g.
Let cap_e : Z := capacity (sel e (buffers q)).

(** The abstract state in terms of the ghost state. *)
Lemma abs_inv :
  abs q h = mk_aqueue cl cap_e (capacity (sel d (buffers q))) (obs <$> g_log ge) (obs <$> held)
              (obs <$> h_pre h) (dequeuing_length q =? DEQUEUING_LOCKED).
Proof using HI.
  destruct (word_of_inv _ _ _ _ _ _ _ _ HI) as [He Hr].
  destruct HI as ((_ & Hw & _) & _ & _ & Hh).
  rewrite fmap_app in Hh. eapply abs_enc; try done.
  rewrite length_fmap. unfold g_len, ge. lia.
Qed.

(** A step is a rule of the specification, or nothing; it keeps the capacities unless
    the thread is the one that dequeues. *)
Definition simulated p q' p' (evs : list event) : Prop :=
  (is_holder p = true ∨
   ∀ i, 0 ≤ i ≤ 1 → capacity (sel i (buffers q')) = capacity (sel i (buffers q))) ∧
  (abs q' (foldl hist_event h evs) = abs q h ∧ phase_of q' p' = phase_of q p ∧
     visible evs = [] ∨
   astep (B := B) (abs q h) (phase_of q p) (visible evs)
     (abs q' (foldl hist_event h evs)) (phase_of q' p')).

Definition simulates p (o : outcome (Queue B * pc * list event)) : Prop :=
  match o with Ret (q', p', evs) => simulated p q' p' evs | _ => True end.

(** Nothing happens: the abstract state and the phase stay. *)
Lemma sim_quiet p q' p' evs :
  enqueuing_capacity q' = enqueuing_capacity q → dequeuing_length q' = dequeuing_length q →
  (∀ i, 0 ≤ i ≤ 1 → capacity (sel i (buffers q')) = capacity (sel i (buffers q))) →
  foldl hist_event h evs = h → visible evs = [] → phase_of q' p' = phase_of q p →
  simulated p q' p' evs.
Proof using.
  intros Hw Hd Hc Hh Hv Hp. split; [by right|]. left.
  split; [|done]. rewrite Hh. by apply abs_same.
Qed.

(** A step of the specification with the shared state unchanged. *)
Lemma sim_local p p' :
  astep (B := B) (abs q h) (phase_of q p) [] (abs q h) (phase_of q p') → simulated p q p' [].
Proof using. intros Ha. split; [by right|]. by right. Qed.

(** *** The enqueuer *)
Lemma enq_phase_spec v :
  valid_value v → 0 < size v →
  enq_phase v (enqueuing_capacity q) = PEnq v ∨
  astep (B := B) (abs q h) (PEnq v) [] (abs q h) (enq_phase v (enqueuing_capacity q)).
Proof using HI.
  intros Hv Hs. destruct (valid_size v Hv) as [_ Hmax].
  destruct (word_of_inv _ _ _ _ _ _ _ _ HI) as [He Hr].
  pose proof HI as ((_ & Hw & _) & _).
  unfold enq_phase. rewrite Hw, is_closed_enc by done. rewrite abs_inv.
  destruct cl; [right; by apply a_enqueue_closed|].
  rewrite try_reserve_enc by (done || zlia).
  destruct (Z.leb_spec (size v) (capacity (sel e (buffers q)) - g_len (sel e g)));
    [by left|right].
  apply a_enqueue_full; [done|]. unfold a_room. simpl. rewrite length_fmap.
  unfold g_len, ge, cap_e in *. lia.
Qed.

Lemma sim_enq_start v : ths !! t = Some (EnqStart v) → simulates (EnqStart v) (enq_start q v).
Proof using HI.
  intros Ht. pose proof (pc_ok_t _ _ _ _ _ _ _ _ _ HI _ Ht) as Hok. simpl in Hok.
  unfold enq_start. destruct (Z.eqb_spec (size v) 0).
  - apply sim_local. by apply a_enqueue_nothing.
  - pose proof (valid_size_nonneg v Hok).
    destruct (enq_phase_spec v Hok ltac:(lia)) as [Hp|Ha]; [|by apply sim_local].
    by apply sim_quiet.
Qed.

Lemma sim_enq_loop sp v enq b :
  ths !! t = Some (EnqLoop v enq b) → simulates (EnqLoop v enq b) (enq_loop sp q v enq b).
Proof using HI.
  intros Ht. pose proof (pc_ok_t _ _ _ _ _ _ _ _ _ HI _ Ht) as [Hv Hs].
  unfold enq_loop. destruct (EnqueuingCapacity.is_closed enq) eqn:Hcl; simpl.
  { apply sim_quiet; try done. simpl. unfold enq_phase. by rewrite Hcl. }
  destruct (EnqueuingCapacity.try_reserve enq (size v)) as [nxt|] eqn:Hres;
    [|apply sim_quiet; try done; simpl; unfold enq_phase; by rewrite Hcl, Hres].
  assert (phase_of q (EnqLoop v enq b) = PEnq v) as Hp
    by (simpl; unfold enq_phase; by rewrite Hcl, Hres).
  destruct (negb sp && (enqueuing_capacity q =? enq)) eqn:Hcas.
  - apply andb_true_iff in Hcas as [_ <-%Z.eqb_eq].
    split; [by right|]. right. rewrite Hp. simpl. pose proof abs_inv as Habs.
    destruct (valid_size v Hv) as [Hlen Hmax].
    destruct (word_of_inv _ _ _ _ _ _ _ _ HI) as [He Hr].
    pose proof HI as ((_ & Hw & _) & _ & _ & Hh).
    rewrite Hw in Hcl, Hres. rewrite is_closed_enc in Hcl by done. subst cl.
    rewrite try_reserve_enc in Hres by (done || zlia).
    destruct (Z.leb_spec (size v) (capacity (sel e (buffers q)) - g_len (sel e g)));
      [|done]. injection Hres as <-.
    rewrite Habs.
    erewrite (abs_enc _ _ false e _ (obs <$> held) ((obs <$> g_log ge) ++ (obs <$> elems v)));
      try done; simpl.
    + simple refine (a_enqueue (B := B) _ v _ _); [done|]. unfold a_room. simpl.
      rewrite length_fmap. unfold g_len, ge, cap_e in *. lia.
    + lia.
    + rewrite length_app, !length_fmap. unfold g_len, ge in *. lia.
    + rewrite fmap_app, Hh, fmap_app. by rewrite <- !(assoc_L (++)).
  - destruct (enq_phase_spec v Hv Hs) as [Hq|Ha].
    + apply sim_quiet; try done. rewrite Hp. done.
    + split; [by right|]. right. by rewrite Hp.
Qed.

Lemma sim_enq_insert v enq :
  ths !! t = Some (EnqInsert v enq) → simulates (EnqInsert v enq) (enq_insert q v enq).
Proof using HI.
  intros Ht. unfold enq_insert.
  destruct (usize_sub _ _) as [index| |]; [simpl|done..].
  destruct (insert_into v _ index) as [b'| |] eqn:Hins; [simpl|done..].
  apply sim_quiet; try done. intros i Hi. simpl.
  pose proof (buffer_index_bound enq) as Hj. set (j := EnqueuingCapacity.buffer_index enq) in *.
  destruct (Z.eq_dec i j) as [->|]; [|by rewrite sel_upd_ne].
  rewrite sel_upd_eq. by apply (insert_capacity v _ index).
Qed.

(** *** [close] and [reopen] *)
Lemma sim_reword p p' cl' :
  astep (B := B) (abs q h) (phase_of q p) [] (set_a_closed (abs q h) cl') (phase_of q p') →
  simulated p (set_enqueuing q (enc cl' e (cap_e - g_len ge))) p' [].
Proof using HI.
  intros Ha. split; [by right|]. right. revert Ha.
  destruct (word_of_inv _ _ _ _ _ _ _ _ HI) as [He Hr].
  pose proof HI as (_ & _ & _ & Hh). rewrite fmap_app in Hh. rewrite abs_inv.
  rewrite (abs_enc _ _ cl' e (cap_e - g_len ge) (obs <$> held) (obs <$> g_log ge)); try done.
  simpl. rewrite length_fmap. unfold g_len, ge, cap_e. lia.
Qed.

Lemma sim_close : ths !! t = Some CloseOr → simulates CloseOr (close_or q).
Proof using HI.
  intros _. destruct (word_of_inv _ _ _ _ _ _ _ _ HI) as [He Hr].
  pose proof HI as ((_ & Hw & _) & _). simpl. rewrite Hw, close_enc by done.
  apply sim_reword, a_close.
Qed.

Lemma sim_reopen : ths !! t = Some ReopenAnd → simulates ReopenAnd (reopen_and q).
Proof using HI.
  intros _. destruct (word_of_inv _ _ _ _ _ _ _ _ HI) as [He Hr].
  pose proof HI as ((_ & Hw & _) & _). simpl. rewrite Hw, reopen_enc by done.
  apply sim_reword, a_reopen.
Qed.

(** *** Locking, and preparing the next buffer *)
Lemma sim_deq_start rz : ths !! t = Some (DeqStart rz) → simulates (DeqStart rz) (deq_start q rz).
Proof using HI.
  intros Ht. unfold deq_start, DequeuingLength.try_from_atomic.
  destruct (Z.eqb_spec (dequeuing_length q) DEQUEUING_LOCKED) as [Hl|Hl]; simpl.
  - replace (set_dequeuing q DEQUEUING_LOCKED) with q by (rewrite <- Hl; by destruct q).
    apply sim_local, a_conflict. rewrite abs_inv. simpl. by apply Z.eqb_eq.
  - split; [by right|]. right. rewrite abs_set_dequeuing, Z.eqb_refl. simpl.
    pose proof HI as (_ & _ & [(_ & [Hw Hnil] & Hheld & Hb & _)|(? & ? & ? & _)] & _); [|done].
    fold d gd in Hw, Hnil, Hheld, Hb.
    pose proof (gd_bound e g _ _ Hb) as Hlt. fold d gd in Hlt.
    pose proof (a_lock (B := B) (abs q h) rz) as Ha. rewrite Hw in Hl |- *.
    rewrite deq_buffer_len_enc by (done || by apply (d_bound _ _ _ _ _ _ _ _ HI)).
    revert Ha. rewrite abs_inv. simpl. rewrite Hw.
    rewrite (phase_len _ (g_len gd - g_drained gd)), (proj2 (Z.eqb_neq _ _)) by
      (done || rewrite length_fmap, Hheld; exact (g_rest_length _ _ _ Hb)). auto.
Qed.

Lemma sim_deq_internal w rz :
  ths !! t = Some (DeqInternal w rz) → simulates (DeqInternal w rz) (deq_internal q w rz).
Proof using HI.
  intros _. unfold deq_internal. destruct (DequeuingLength.buffer_len w =? 0) eqn:Hl;
    apply sim_quiet; try done; simpl; by rewrite Hl.
Qed.

(** The facts of the holder at the point of [Ht], simplified. *)
Ltac holder :=
  match goal with
  | Ht : ths !! t = Some _ |- _ =>
      destruct (holder_facts _ _ _ _ _ _ _ _ _ HI _ Ht eq_refl) as (Hdl & Hb & _ & Hinv & Hh);
      simpl in Hb, Hinv; unfold prepared, swapped, spinning, taken in Hinv;
      fold d gd ge in Hb, Hinv; try (specialize (Hb eq_refl); rewrite ?Z.add_0_r in Hb);
      pose proof (d_bound _ _ _ _ _ _ _ _ HI) as Hd; fold d in Hd
  end.

Lemma sim_deq_resize w rz : ths !! t = Some (DeqResize w rz) → simulates (DeqResize w rz) (deq_resize q w rz).
Proof using HI.
  intros Ht. pose proof (pc_ok_t _ _ _ _ _ _ _ _ _ HI _ Ht) as Hok. simpl in Hok. holder.
  destruct Hinv as (Hheld & -> & Hl).
  destruct (empty_gd _ _ _ _ Hb Hl) as [Hlen Hdr]. fold d gd in Hlen, Hdr.
  pose proof (bi_rep _ _ _ Hb) as HR. rewrite (bi_empty_cont _ _ _ Hb) in HR by lia.
  unfold deq_resize. rewrite deq_buffer_index_enc by (done || reflexivity).
  destruct (apply_resize_fits rz _ HR (bi_cap _ _ _ Hb) Hok) as (b' & -> & Hc & Hlt & Hn & _).
  simpl. split; [by left|]. right. simpl.
  destruct (word_of_inv _ _ _ _ _ _ _ _ HI) as [He Hr].
  pose proof HI as ((_ & Hw & _) & _).
  pose proof (a_prepare (B := B) (E := E) (abs q h) rz) as Ha. revert Ha.
  rewrite abs_inv. rewrite (abs_enc _ _ cl e (cap_e - g_len ge) (obs <$> held) (obs <$> g_log ge)); try done; simpl.
  - rewrite length_fmap, Hheld. fold d. rewrite sel_upd_eq, Hc.
    unfold cap_e, d. rewrite sel_upd_other' by done. auto.
  - rewrite sel_upd_other' by done. rewrite length_fmap. unfold g_len, ge, cap_e. lia.
  - by rewrite Hh, fmap_app.
Qed.

Lemma sim_deq_add_inserted dl :
  ths !! t = Some (DeqAddInserted dl) → simulates (DeqAddInserted dl) (deq_add_inserted q dl).
Proof using.
  intros _. unfold deq_add_inserted. destruct (0 <? dl_inserted dl); by apply sim_quiet.
Qed.

Lemma sim_deq_load dl : ths !! t = Some (DeqLoad dl) → simulates (DeqLoad dl) (deq_load q dl).
Proof using HI.
  intros Ht. unfold deq_load. destruct (assert _) as [[]| |]; [simpl|done..].
  destruct (word_of_inv _ _ _ _ _ _ _ _ HI) as [He Hr].
  pose proof HI as ((_ & Hw & _) & _).
  assert (∃ ph, check_phase q dl (enqueuing_capacity q) = ph) as [ph Hph] by eauto.
  pose proof Hph as Hcase. unfold check_phase in Hcase. destruct (_ && _) eqn:Hc in Hcase.
  - apply sim_local. simpl. rewrite Hph, <- Hcase. clear Hcase Hph.
    apply andb_true_iff in Hc as [[Hroom%Z.eqb_eq Hres%negb_true_iff]%andb_true_iff Hins%Z.eqb_eq].
    rewrite Hw, remaining_capacity_enc, buffer_index_enc in Hroom by done.
    rewrite Hres, Hins. unfold fail_error. rewrite Hw, is_closed_enc, abs_inv by done.
    apply (a_empty (B := B) (mk_aqueue cl _ _ _ _ _ _)). simpl.
    assert (g_log ge = []) as -> by (apply g_len_nil; unfold ge; lia). done.
  - apply sim_quiet; try done. simpl. by rewrite Hph, <- Hcase.
Qed.

Lemma sim_deq_check dl enq :
  ths !! t = Some (DeqCheck dl enq) → simulates (DeqCheck dl enq) (deq_check q dl enq).
Proof using.
  intros _. unfold deq_check. destruct (_ && _ && _) eqn:Hc.
  - apply sim_quiet; try done. simpl. unfold check_phase. by rewrite Hc.
  - destruct (usize_sub _ _); [simpl|done..].
    destruct (EnqueuingCapacity.new _ _); [simpl|done..].
    apply sim_quiet; try done. simpl. unfold check_phase. by rewrite Hc.
Qed.

(** Unlocking a word that is not the lock. *)
Lemma sim_unlock p p' i n :
  0 ≤ i ≤ 1 → 0 ≤ n < MAX_REMAINING →
  astep (B := B) (abs q h) (phase_of q p) [] (set_a_locked (abs q h) false) (phase_of q p') →
  simulated p (set_dequeuing q (deq_enc i n)) p' [].
Proof using.
  intros Hi Hn Ha. split; [by right|]. right. simpl. rewrite abs_set_dequeuing.
  rewrite (proj2 (Z.eqb_neq _ _)); [done|]. by apply deq_enc_unlocked.
Qed.

Lemma sim_deq_restore dl enq :
  ths !! t = Some (DeqRestore dl enq) → simulates (DeqRestore dl enq) (deq_restore q dl enq).
Proof using HI.
  intros Ht. holder. destruct Hinv as ((_ & Hdq & _) & _). simpl. rewrite Hdq.
  apply sim_unlock; [done|done|]. apply a_fail.
Qed.

Lemma sim_deq_swap sp dl enq cap nxt b :
  ths !! t = Some (DeqSwap dl enq cap nxt b) →
  simulates (DeqSwap dl enq cap nxt b) (deq_swap sp q dl enq cap nxt b).
Proof using HI.
  intros Ht. unfold deq_swap.
  destruct (negb sp && (enqueuing_capacity q =? enq)) eqn:Hcas; [|by apply sim_quiet].
  apply andb_true_iff in Hcas as [_ <-%Z.eqb_eq]. split; [by left|]. right. simpl. holder.
  destruct Hinv as ((Hheld & _ & Hnc & Hins & Hdr & Hall & Hm) & Hov & -> & -> & Hwhy).
  rewrite Hov in Hm. destruct Hm as (Hnc' & Hpre & Hlen).
  destruct (word_of_inv _ _ _ _ _ _ _ _ HI) as [He Hr]. pose proof HI as ((_ & Hw & _) & _).
  assert (0 ≤ capacity (sel d (buffers q)) - g_len gd < MAX_REMAINING) as Hrd.
  { pose proof (bi_len _ _ _ Hb). pose proof (bi_cap _ _ _ Hb). pose proof (g_len_nonneg gd). lia. }
  pose proof (a_swap (B := B) (abs q h) (dl_resized dl) (dl_inserted dl)) as Ha. revert Ha.
  rewrite abs_inv. unfold swapped_phase. rewrite Hw, remaining_capacity_enc by done.
  rewrite with_closed_enc by (done || lia). simpl.
  rewrite (abs_enc _ _ cl d (dl_next_capa dl - dl_inserted dl) (obs <$> g_log ge) (obs <$> g_log gd));
    try done; simpl.
  - unfold a_swapped. simpl. replace (1 - d) with e by (unfold d; lia).
    rewrite <- Hpre, Hheld. fold cap_e ge. intros Ha.
    replace (if _ =? 0 then _ else _ : phase)
      with (after_swap (E := E) (V := V) (obs <$> g_log ge) (dl_inserted dl)).
    + apply Ha. destruct Hwhy as [?|[?|Hne]]; auto. right; right. intros Hnil.
      by apply fmap_nil_inv in Hnil.
    + replace (cap_e - _) with (g_len ge) by lia. unfold g_len. by destruct (g_log ge).
  - lia.
  - rewrite length_fmap. unfold g_len in *. lia.
  - rewrite fmap_app, Hh, Hheld, Hpre. by rewrite <- (assoc_L (++)).
Qed.

(** *** After the swap *)
Lemma sim_deq_cap_load dl enq cap :
  ths !! t = Some (DeqCapLoad dl enq cap) → simulates (DeqCapLoad dl enq cap) (deq_cap_load q dl enq cap).
Proof using. intros _. unfold deq_cap_load. destruct (_ =? _); by apply sim_quiet. Qed.

Lemma sim_deq_cap_store dl enq cap :
  ths !! t = Some (DeqCapStore dl enq cap) → simulates (DeqCapStore dl enq cap) (deq_cap_store q dl enq cap).
Proof using. intros _. by apply sim_quiet. Qed.

Lemma sim_deq_notify dl enq cap :
  ths !! t = Some (DeqNotify dl enq cap) → simulates (DeqNotify dl enq cap) (deq_notify q dl enq cap).
Proof using. intros _. by apply sim_quiet. Qed.

Lemma sim_deq_match dl enq cap :
  ths !! t = Some (DeqMatch dl enq cap) → simulates (DeqMatch dl enq cap) (deq_match q dl enq cap).
Proof using HI.
  intros Ht. holder. destruct Hinv as (_ & _ & -> & Hbi & Hrem & _).
  pose proof (g_len_nonneg gd). unfold deq_match. rewrite Hbi, Hrem, usize_sub_Ret by lia. simpl.
  destruct (_ =? 0) eqn:Hz; simpl.
  - destruct (0 <? dl_inserted dl) eqn:Hi; simpl.
    + apply sim_quiet; try done. simpl. unfold swapped_phase. rewrite Hrem, Hz, Hi.
      by rewrite deq_new_enc, deq_buffer_len_enc.
    + destruct (assert _); [simpl|done..]. apply sim_quiet; try done.
      simpl. unfold swapped_phase. by rewrite Hrem, Hz, Hi.
  - apply sim_quiet; try done. simpl. unfold swapped_phase. by rewrite Hrem, Hz.
Qed.

Lemma sim_deq_ack i : ths !! t = Some (DeqAck i) → simulates (DeqAck i) (deq_ack q i).
Proof using HI.
  intros Ht. holder. destruct Hinv as (_ & -> & _). unfold deq_ack.
  rewrite deq_new_enc by done. apply sim_unlock; [done|done|]. apply a_fail.
Qed.

(** *** The spin loop *)
Lemma sim_deq_spin i n k : ths !! t = Some (DeqSpin i n k) → simulates (DeqSpin i n k) (deq_spin q i n k).
Proof using.
  intros _. destruct k; simpl; [by apply sim_quiet|].
  destruct (n <=? _); by apply sim_quiet.
Qed.

Lemma sim_deq_save i n : ths !! t = Some (DeqSave i n) → simulates (DeqSave i n) (deq_save q i n).
Proof using HI.
  intros Ht. holder. destruct Hinv as (Hheld & -> & -> & Hpos).
  pose proof (gd_bound e g _ _ Hb) as Hlt. fold d gd in Hlt.
  unfold deq_save. rewrite deq_new_enc by done.
  apply sim_unlock; [done|done|]. apply a_pending. rewrite abs_inv. simpl. rewrite Hheld.
  intros Hnil%fmap_nil_inv. pose proof (g_rest_length _ _ _ Hb) as Hrl. rewrite Hnil in Hrl.
  simpl in Hrl. lia.
Qed.

(** The slice of what remains shows the elements dequeued. *)
Lemma rest_slice i r :
  buf_inv (sel d (buffers q)) (sel d (buffers_length q)) gd → taken e g i r → held = g_rest gd →
  ∃ sl, slice (sel i (buffers q)) r = Ret sl ∧ view sl = a_deq (abs q h).
Proof using HI.
  intros Hb (-> & -> & Hall & Hne) Hheld.
  destruct (slice_rest _ _ _ Hb Hall Hne) as (sl & Hsl & Hv).
  exists sl. rewrite abs_inv, Hheld. by split.
Qed.

Lemma sim_deq_take i r : ths !! t = Some (DeqTake i r) → simulates (DeqTake i r) (deq_take q i r).
Proof using HI.
  intros Ht. holder. destruct Hinv as (Htk & Hheld & Hne).
  destruct (rest_slice i r Hb Htk Hheld) as (sl & Hsl & Hv).
  unfold deq_take. rewrite Hsl. apply sim_local. simpl. rewrite Hv.
  apply a_take. rewrite abs_inv. by intros Hnil%fmap_nil_inv.
Qed.

Lemma sim_get_slice it : ths !! t = Some (GetSlice it) → simulates (GetSlice it) (get_slice q it).
Proof using HI.
  intros Ht. holder. destruct Hinv as (Htk & Hheld).
  destruct (rest_slice _ _ Hb Htk Hheld) as (sl & Hsl & Hv).
  unfold get_slice. rewrite Hsl. apply sim_local. simpl. rewrite Hv. apply a_get_slice.
Qed.

(** *** Releasing and requeuing *)
Lemma caps_upd j b (i : Z) :
  0 ≤ j ≤ 1 → capacity b = capacity (sel j (buffers q)) → 0 ≤ i ≤ 1 →
  capacity (sel i (upd j b (buffers q))) = capacity (sel i (buffers q)).
Proof using.
  intros Hj Hb Hi. destruct (Z.eq_dec i j) as [->|]; [by rewrite sel_upd_eq|].
  by rewrite sel_upd_ne.
Qed.

Lemma sim_rel_clear i r : ths !! t = Some (RelClear i r) → simulates (RelClear i r) (rel_clear q i r).
Proof using HI.
  intros Ht. holder. destruct Hinv as ((-> & -> & Hall & Hne) & Hheld).
  destruct (clear_step _ _ _ Hb Hall) as (b' & Hb' & _ & Hc).
  unfold rel_clear. fold d. rewrite Hb'. apply sim_quiet; try done.
  intros i Hi. by apply caps_upd.
Qed.

Lemma sim_rel_len i : ths !! t = Some (RelLen i) → simulates (RelLen i) (rel_len q i).
Proof using. intros _. by apply sim_quiet. Qed.

Lemma sim_rel_unlock i : ths !! t = Some (RelUnlock i) → simulates (RelUnlock i) (rel_unlock q i).
Proof using HI.
  intros Ht. holder. destruct Hinv as (Hheld & -> & _). unfold rel_unlock.
  rewrite deq_new_enc by done. apply sim_unlock; [done|done|]. apply a_release.
  by rewrite abs_inv, Hheld.
Qed.

Lemma sim_requeue i r : ths !! t = Some (Requeue i r) → simulates (Requeue i r) (queue_requeue q i r).
Proof using HI.
  intros Ht. holder. destruct Hinv as ((-> & -> & Hall & Hne) & Hheld).
  pose proof (gd_bound e g _ _ Hb) as Hlt. fold d gd in Hlt.
  pose proof (g_rest_length _ _ _ Hb) as Hrl.
  unfold queue_requeue. simpl. fold d gd. rewrite usize_sub_Ret by lia. simpl.
  destruct (Z.ltb_spec 0 (g_len gd - g_drained gd)).
  - rewrite deq_new_enc by done. apply sim_unlock; [done|done|]. apply a_requeue.
    rewrite abs_inv. simpl. rewrite Hheld. intros Hnil%fmap_nil_inv. rewrite Hnil in Hrl.
    simpl in Hrl. lia.
  - apply sim_local. apply a_requeue_nothing. rewrite abs_inv. simpl. rewrite Hheld.
    apply length_zero_iff_nil. rewrite length_fmap. lia.
Qed.

(** *** Assigning, draining *)
(** What is dequeued and not consumed becomes [l]. *)
Lemma abs_deq b' h' l :
  capacity b' = capacity (sel d (buffers q)) → h_pre h' = h_pre h →
  obs <$> h_enq h' = h_out h' ++ l ++ (obs <$> g_log ge) →
  abs (set_buffer q d b') h' = set_a_deq (abs q h) l.
Proof using HI.
  intros Hc Hpre Hh'. destruct (word_of_inv _ _ _ _ _ _ _ _ HI) as [He Hr].
  pose proof HI as ((_ & Hw & _) & _).
  pose proof (d_bound _ _ _ _ _ _ _ _ HI) as Hd. fold d in Hd.
  rewrite abs_inv. unfold set_a_deq; simpl.
  rewrite (abs_enc _ _ cl e (cap_e - g_len ge) l (obs <$> g_log ge)); try done; simpl.
  - rewrite !caps_upd by (done || lia). by rewrite Hpre.
  - rewrite caps_upd by done. rewrite length_fmap. unfold g_len, ge, cap_e. lia.
Qed.

Lemma sim_slice_assign bs k x :
  ths !! t = Some (SliceSet bs k x) → simulates (SliceSet bs k x) (slice_assign q bs k x).
Proof using HI.
  intros Ht. pose proof (pc_ok_t _ _ _ _ _ _ _ _ _ HI _ Ht) as Hsome. simpl in Hsome. holder.
  destruct Hinv as ((Hi & Hr & Hall & Hne) & Hheld & Hk). unfold slice_assign.
  destruct slice_mut as [ops|] eqn:Hops in Hsome |- *; [|done].
  pose proof (g_rest_length _ _ _ Hb) as Hrl.
  destruct (assign_step ops _ _ _ (Z.to_nat k) x Hops Hb Hall) as (b' & sl & Hset & Hv & Hc & _);
    [lia|].
  rewrite Z2Nat.id in Hset by lia. rewrite Hi, Hr. fold d gd. rewrite Hset. simpl.
  split; [by left|]. right. simpl.
  rewrite (abs_deq _ _ (<[Z.to_nat k := obs x]> (obs <$> g_rest gd))); try done; simpl.
  - rewrite Hv. pose proof (a_assign (B := B) (abs q h) k x) as Ha. revert Ha.
    rewrite abs_inv. simpl. rewrite length_fmap, Hheld, list_fmap_insert. intros Ha.
    apply (Ha ltac:(lia)).
  - rewrite list_fmap_insert, Hh, insert_app_r, fmap_app, Hheld. f_equal.
    rewrite insert_app_l; [done|]. rewrite length_fmap. lia.
Qed.

Lemma sim_iter_remove it : ths !! t = Some (IterRemove it) → simulates (IterRemove it) (iter_remove q it).
Proof using HI.
  intros Ht. pose proof (pc_ok_t _ _ _ _ _ _ _ _ _ HI _ Ht) as Hsome. simpl in Hsome. holder.
  destruct Hinv as ((Hi & Hr & Hall & Hne) & Hheld & Hlt). unfold iter_remove.
  destruct remove as [rm|] eqn:Hrm in Hsome |- *; [|done].
  destruct (assert _); [simpl|done..].
  destruct (remove_step rm _ _ _ Hrm Hb Hall Hlt) as (b' & x & Hb' & _ & Hrest & Hc).
  rewrite Hi, Hr. fold d gd. simpl. rewrite Hb'. simpl. split; [by left|]. right. simpl.
  rewrite (abs_deq _ _ (obs <$> g_rest (g_removed gd))); try done; simpl.
  - apply (a_iter_next (B := B) (abs q h) x). rewrite abs_inv. simpl. by rewrite Hheld, Hrest.
  - rewrite Hh, Hheld, Hrest, fmap_app. simpl. by rewrite <- (assoc_L (++)).
Qed.

(** *** Any step *)
Lemma sim_step sp p o :
  ths !! t = Some p → step sp q p = Some o → simulates p o.
Proof using HI.
  intros Ht Hs. destruct p; simpl in Hs; try discriminate; injection Hs as <-.
  - by apply sim_enq_start.
  - by apply sim_enq_loop.
  - by apply sim_enq_insert.
  - by apply sim_quiet.
  - by apply sim_quiet.
  - by apply sim_deq_start.
  - by apply sim_deq_internal.
  - by apply sim_deq_resize.
  - by apply sim_deq_add_inserted.
  - by apply sim_deq_load.
  - by apply sim_deq_check.
  - by apply sim_deq_restore.
  - by apply sim_deq_swap.
  - by apply sim_deq_cap_load.
  - by apply sim_deq_cap_store.
  - by apply sim_deq_notify.
  - by apply sim_deq_match.
  - by apply sim_deq_ack.
  - by apply sim_deq_spin.
  - by apply sim_deq_take.
  - by apply sim_deq_save.
  - by apply sim_slice_assign.
  - by apply sim_rel_clear.
  - by apply sim_rel_len.
  - by apply sim_rel_unlock.
  - by apply sim_requeue.
  - by apply sim_iter_remove.
  - by apply sim_get_slice.
  - by apply sim_close.
  - by apply sim_quiet.
  - by apply sim_quiet.
  - by apply sim_reopen.
Qed.

(** *** The start of a call *)
Lemma sim_call m p p' evs :
  ths !! t = Some p → call_ok true m → start_call p m = Some (p', evs) →
  simulated p q p' evs.
Proof using HI.
  intros Ht Hm Hs.
  assert (ready p = true → a_ready (phase_of q p) = true) as Hready by by destruct p.
  unfold_start_in Hs. destruct m; simpl in Hs, Hm;
    try (destruct (ready p); [|done]; simplify_eq/=; apply sim_local; constructor; auto).
  - destruct (ready p); [|done]. destruct (is_some resize); simplify_eq/=.
    apply sim_local. constructor; auto.
  - destruct p; try done. destruct (is_some slice_mut); [|done].
    destruct (_ && _) eqn:Hk; simplify_eq. apply andb_true_iff in Hk as [Hk1%Z.leb_le Hk2%Z.ltb_lt].
    holder. destruct Hinv as ((_ & Hr & _) & Hheld & Hv). rewrite Hr in Hk2. simpl in Hk2.
    pose proof (g_rest_length _ _ _ Hb) as Hrl.
    apply sim_local. apply a_call_assign. rewrite Hv, length_fmap. fold d gd. lia.
  - destruct p; simplify_eq. holder. destruct Hinv as (_ & Hheld & Hv).
    split; [by right|]. right. cbn [foldl]. 
    assert (abs q (hist_event h (EvRelease (bs_slice bs))) = set_a_deq (abs q h) []) as ->.
    { rewrite <- (abs_deq (sel d (buffers q)) (hist_event h (EvRelease (bs_slice bs))) []); try done.
      - apply abs_same; try done. simpl. intros i Hi. by rewrite upd_sel.
      - simpl. by rewrite Hh, Hv, Hheld, fmap_app, (assoc_L (++)). }
    simple refine (a_drop (B := B) (abs q h) (bs_slice bs) _).
    by rewrite abs_inv, Hv, <- Hheld.
  - destruct p; simplify_eq. apply sim_local, a_call_requeue.
  - destruct p; try done. destruct (is_some remove); simplify_eq. apply sim_local, a_call_into_iter.
  - destruct p; try done. holder. destruct Hinv as ((_ & Hr & _) & Hheld).
    pose proof (g_rest_length _ _ _ Hb) as Hrl.
    destruct (range_is_empty _) eqn:Hemp; injection Hs as <- <-; apply sim_local;
      rewrite Hr in Hemp; unfold range_is_empty in Hemp; simpl in Hemp.
    + apply a_iter_end. rewrite abs_inv. simpl. rewrite Hheld. apply length_zero_iff_nil.
      rewrite length_fmap. apply negb_true_iff, Z.ltb_ge in Hemp. lia.
    + apply a_call_next. rewrite abs_inv. simpl. rewrite Hheld. intros Hnil%fmap_nil_inv.
      apply negb_false_iff, Z.ltb_lt in Hemp. rewrite Hnil in Hrl. simpl in Hrl. lia.
  - destruct p; simplify_eq. apply sim_local, a_call_drop_iter.
  - destruct p; simplify_eq. apply sim_local, a_call_into_slice.
  - rewrite Hm in Hs. destruct p; simplify_eq. apply sim_local, a_call_with_owned.
Qed.
End Step.


(** ** Every execution *)
Lemma no_panicked q ths h t :
  Inv true (mk_config q ths) h → ths !! t = Some Panicked → False.
Proof.
  intros (e & cl & g & held & HI) Ht.
  destruct (holder_facts _ _ _ _ _ _ _ _ _ HI _ Ht eq_refl) as (_ & _ & _ & Hinv & _).
  simpl in Hinv. by destruct Hinv.
Qed.

Lemma others_phase q q' ths h e cl g held t p t' p'' :
  Inv_with true q ths h e cl g held → ths !! t = Some p →
  (is_holder p = true ∨
   ∀ i, 0 ≤ i ≤ 1 → capacity (sel i (buffers q')) = capacity (sel i (buffers q))) →
  t' ≠ t → ths !! t' = Some p'' → phase_of q' p'' = phase_of q p''.
Proof.
  intros HI Ht [Hp|Hc] Hne Ht'; [|by apply phase_caps].
  apply phase_not_holder. destruct (is_holder p'') eqn:Hp''; [|done].
  destruct (holder_locked _ _ _ _ _ _ _ _ _ _ HI Ht Hp) as (_ & _ & _ & Hu & _).
  by destruct Hne; eauto.
Qed.

(** A simulated step extends an execution of the specification. *)
Lemma aruns_simulated c0 tr q ths h e cl g held t p q' p' evs :
  Inv_with true q ths h e cl g held → ths !! t = Some p → simulated q h p q' p' evs →
  aruns (B := B) c0 tr (abs q h, phase_of q <$> ths) →
  aruns (B := B) c0 (tr ++ visible evs)
    (abs q' (foldl hist_event h evs), phase_of q' <$> <[t := p']> ths).
Proof.
  intros HI Ht [Hc Hstep] Hruns.
  assert (phase_of q' <$> <[t := p']> ths = <[t := phase_of q' p']> (phase_of q <$> ths)) as ->.
  { rewrite fmap_insert. apply map_eq. intros t'.
    destruct (decide (t' = t)) as [->|Hne]; [by rewrite !lookup_insert_eq|].
    rewrite !lookup_insert_ne, !lookup_fmap by done.
    destruct (ths !! t') as [p''|] eqn:Ht'; [simpl; f_equal|done].
    by apply (others_phase q q' ths h e cl g held t p t' p''). }
  destruct Hstep as [(-> & -> & ->)|Hstep].
  - rewrite app_nil_r, insert_id; [done|]. by rewrite lookup_fmap, Ht.
  - eapply aruns_snoc; [done| |done]. by rewrite lookup_fmap, Ht.
Qed.

Lemma aruns_act c0 tr c t a c' evs h :
  Inv true c h → action_ok true a → act c t a = Some (c', evs) →
  aruns (B := B) c0 tr (abs (queue c) h, phase_of (queue c) <$> threads c) →
  aruns (B := B) c0 (tr ++ visible evs)
    (abs (queue c') (foldl hist_event h evs), phase_of (queue c') <$> threads c').
Proof.
  intros HInv Hok Ha. pose proof (Inv_act true c h t a c' evs HInv Hok Ha) as HInv'.
  destruct HInv as (e & cl & g & held & HI). unfold act in Ha.
  apply bind_Some in Ha as (p & Ht & Ha). destruct c as [q ths]; simpl in *.
  destruct a as [m|sp]; simpl in *.
  - apply bind_Some in Ha as ([p' evs'] & Hs & [= <- <-]). simpl.
    eapply aruns_simulated; eauto using sim_call.
  - apply bind_Some in Ha as (o & Hs & [= Ho]).
    pose proof (sim_step _ _ _ _ _ _ _ _ HI sp p o Ht Hs) as Hsim.
    destruct o as [[[q' p'] evs']| |]; simplify_eq; simpl in *.
    + eapply aruns_simulated; eauto.
    + destruct (no_panicked _ _ _ t HInv'). apply lookup_insert_eq.
    + destruct HInv' as (? & ? & ? & ? & _ & Hths & _).
      destruct (ti_pc _ _ _ _ Hths t Undefined). apply lookup_insert_eq.
Qed.

(** A new queue: two equal buffers, empty. *)
Lemma built_shape (q0 : Queue B) :
  built q0 →
  ∃ b, q0 = mk_Queue (enc false 0 (capacity b)) (DequeuingLength.new 1 0) (b, b) (0, 0) (capacity b) ∧
       0 ≤ capacity b < MAX_REMAINING.
Proof.
  unfold built, queue_new, queue_with_capacity, EnqueuingCapacity.check_overflow.
  change (shr usize_MAX 2) with 4611686018427387903. cbn [sel Z.eqb fst].
  pose proof (capacity_nonneg (buf_default (B := B))).
  intros [Hq|(rs & c & Hrs & Hc & Hq)].
  - destruct (Z.ltb_spec (capacity (buf_default (B := B))) 4611686018427387903); [|done].
    simpl in Hq. rewrite new_enc in Hq by (unfold MAX_REMAINING; lia). injection Hq as <-.
    eexists. split; [done|]. unfold MAX_REMAINING. lia.
  - destruct (Z.ltb_spec c 4611686018427387903); [|done].
    destruct (resize_spec rs buf_default c Hrs rep_default) as [_ Hcap]; [lia|].
    simpl in Hq. rewrite new_enc in Hq by (unfold MAX_REMAINING; lia). injection Hq as <-.
    exists (rs buf_default c). rewrite Hcap. split; [done|]. unfold MAX_REMAINING. lia.
Qed.

(** The abstraction of a new queue. *)
Lemma abs_built (q0 : Queue B) n :
  built q0 →
  (abs q0 h_empty, phase_of q0 <$> threads (initial q0 n))
  = ainitial (q_capacity q0) (q_capacity q0) n.
Proof.
  intros (b & -> & Hb)%built_shape. unfold ainitial. f_equal.
  - rewrite (abs_enc _ _ false 0 (capacity b) [] []); try done. cbn. lia.
  - simpl. rewrite fmap_map_seq, fmap_replicate. done.
Qed.

(** C2: linearizability. Any execution of any number of threads on one queue, whatever
    the interleaving of their steps, is an execution of the atomic queue: [try_enqueue],
    [close], [reopen] and every operation on a dequeued slice take effect at one
    instant, a dequeuing call at the instants where it locks the queue and where the
    buffers are exchanged, with the same results, slices and elements. *)
Theorem linearizable (q0 : Queue B) n tr c :
  built q0 → execution (action_ok true) (initial q0 n) tr c →
  aruns (B := B) (ainitial (q_capacity q0) (q_capacity q0) n) (visible tr)
    (abs (queue c) (hist_of tr), phase_of (queue c) <$> threads c).
Proof.
  intros Hq Hex. rewrite <- abs_built by done.
  assert (Inv true (initial q0 n) h_empty) as Hinit.
  { destruct Hq as [Hq|(rs & cap & Hrs & Hc & Hq)];
      [by apply Inv_queue_new|by eapply Inv_queue_with_capacity]. }
  induction Hex as [|tr c t a c' evs Hex IH Hok Ha]; [constructor|].
  rewrite visible_app, hist_of_app. eapply aruns_act; eauto.
  by eapply Inv_execution.
Qed.

(** ** The read-only methods *)
Lemma execution_inv (q0 : Queue B) n tr c :
  built q0 → execution (action_ok true) (initial q0 n) tr c →
  Inv true c (hist_of tr).
Proof. intros Hq Hex. apply (run_inv true n). by exists q0. Qed.

(** C12: what [capacity], [is_closed], [len] and [is_empty] answer, in terms of the atomic
    queue; no dequeuing call is between the exchange of the buffers and its store to [capacity]
    when [capacity] is loaded. The first two answer what the atomic queue has at their load. [len]
    and [is_empty] load the enqueuing word in [c], and then [capacity] in [c'], any number of
    steps later: they answer what the atomic queue has at the first load if the capacity is
    still the same at the second, and otherwise the difference between the
    capacity of the second and the room of the first. *)
Theorem observers_exact (q0 : Queue B) n tr c tr' c' :
  built q0 → execution (action_ok true) (initial q0 n) tr c →
  execution (action_ok true) c tr' c' →
  (∀ t p, threads c' !! t = Some p → cap_stale p = false) →
  let a := abs (queue c) (hist_of tr) in
  let a' := abs (queue c') (hist_of (tr ++ tr')) in
  queue_capacity (queue c') = a_capacity a' ∧ queue_is_closed (queue c') = a_closed a' ∧
  queue_len (queue c) (queue c') = Z.max 0 (a_capacity a' - a_room a) ∧
  (a_capacity a' = a_capacity a →
     queue_len (queue c) (queue c') = len (a_enq a) ∧
     queue_is_empty (queue c) (queue c') = bool_decide (a_enq a = [])).
Proof.
  intros Hq Hex Hex' Hst.
  destruct (execution_inv _ _ _ _ Hq Hex) as (e & cl & g & held & HI).
  destruct (execution_inv _ _ _ _ Hq (execution_app _ _ _ _ _ _ Hex Hex'))
    as (e' & cl' & g' & held' & HI').
  destruct (word_of_inv _ _ _ _ _ _ _ _ HI) as [He Hr].
  destruct (word_of_inv _ _ _ _ _ _ _ _ HI') as [He' Hr'].
  pose proof HI as ((_ & Hw & _) & _). pose proof HI' as ((_ & Hw' & _ & _) & _ & Hlock & _).
  assert (q_capacity (queue c') = capacity (sel e' (buffers (queue c')))) as Hcap.
  { destruct Hlock as [(_ & _ & _ & _ & ?)|(t & p & _ & Ht & _ & _ & _ & Hc & _)]; eauto. }
  cbv zeta. rewrite (abs_inv _ _ _ _ _ _ _ HI), (abs_inv _ _ _ _ _ _ _ HI'). unfold a_room. simpl.
  assert (queue_len (queue c) (queue c') =
    Z.max 0 (capacity (sel e' (buffers (queue c'))) -
             (capacity (sel e (buffers (queue c))) - g_len (sel e g)))) as Hlen.
  { unfold queue_len, queue_capacity, saturating_sub. by rewrite Hw, remaining_capacity_enc, Hcap. }
  unfold queue_is_empty, queue_is_closed. rewrite Hlen, Hw', is_closed_enc, length_fmap by done.
  pose proof (g_len_nonneg (sel e g)). split_and!; try done.
  intros Hsame. rewrite Hsame.
  replace (Z.max 0 _) with (g_len (sel e g)) by lia. split; [done|].
  case_bool_decide as Hnil.
  - apply Z.eqb_eq, g_len_nil. by apply fmap_nil_inv in Hnil.
  - apply Z.eqb_neq. intros Hz%g_len_nil. by rewrite Hz in Hnil.
Qed.

(** C13: the size hint of the draining iterator is exact: the number of elements dequeued
    and not consumed yet. *)
Theorem iter_size_exact (q0 : Queue B) n tr c t it last :
  built q0 → execution (action_ok true) (initial q0 n) tr c →
  threads c !! t = Some (Iter it last) →
  let m := len (a_deq (abs (queue c) (hist_of tr))) in
  iter_size_hint it = (m, Some m).
Proof.
  intros Hq Hex Ht. destruct (execution_inv _ _ _ _ Hq Hex) as (e & cl & g & held & HI).
  cbv zeta. rewrite (abs_inv _ _ _ _ _ _ _ HI). simpl.
  destruct (holder_facts _ _ _ _ _ _ _ _ _ HI _ Ht eq_refl) as (_ & Hb & _ & Hinv & _).
  simpl in Hb, Hinv. specialize (Hb eq_refl). rewrite Z.add_0_r in Hb.
  destruct Hinv as ((_ & Hr & _) & Hheld).
  pose proof (g_rest_length _ _ _ Hb) as Hrl. rewrite length_fmap, Hheld, Hrl.
  pose proof (bi_drained _ _ _ Hb). unfold iter_size_hint. rewrite Hr. simpl.
  destruct (Z.ltb_spec (g_drained (sel (1 - e) g)) (g_len (sel (1 - e) g))); [done|].
  do 2 f_equal; lia.
Qed.
End Linearize.

(** ** Witness *)
(** Two enqueues that overlap, a dequeue of both, a release and one more enqueue. *)
Lemma linearizable_witness :
  aruns (B := buf)
    (ainitial (V := val) (E := nat) (Ob := nat) 4 4 3)
    [EvReserve (VArray [1; 2]%nat); EvReserve (VArray [3]%nat);
     EvRelease [1; 2; 3]%nat; EvReserve (VIter (into_value_iter [4]%nat))]
    (mk_aqueue false 4 4 [4]%nat [] [] false,
     map_seq 0 [PEnqRet (Ok tt); PEnqRet (Ok tt); PRest]).
Proof.
  pose proof (linearizable (vec_queue 4) 3 (scenario 4 3 sched_released).2
    (scenario 4 3 sched_released).1 (vec_queue_built 4 ltac:(lia))
    (scenario_execution true 4 3 sched_released ltac:(vm_compute; reflexivity)
       ltac:(actions_ok))) as Ha.
  replace (visible _) with
    ([EvReserve (VArray [1; 2]%nat); EvReserve (VArray [3]%nat);
      EvRelease [1; 2; 3]%nat; EvReserve (VIter (into_value_iter [4]%nat))] : list vevent) in Ha
    by (vm_compute; reflexivity).
  replace (abs _ _) with (mk_aqueue false 4 4 [4]%nat [] [] false) in Ha by (vm_compute; reflexivity).
  replace (phase_of _ <$> _) with (map_seq (M := gmap nat _) 0
    [PEnqRet (Ok tt); PEnqRet (Ok tt); PRest : AtomicQueue.phase val nat nat]) in Ha
    by (vm_compute; reflexivity).
  exact Ha.
Defined.

(** A [len] loads the word with one element of four slots enqueued, and [capacity] after a
    dequeuing call and two more enqueues. *)
Definition sched_meanwhile : list (nat * action val nat) :=
  [(2%nat, Call TryDequeue)] ++ runs 2 12 ++
  [(0%nat, Call (TryEnqueue (VArray [5]%nat)))] ++ runs 0 5 ++
  [(1%nat, Call (TryEnqueue (VArray [6]%nat)))] ++ runs 1 5.
Definition meanwhile : vconfig * list vevent :=
  default ((scenario 4 3 sched_released).1, [])
    (exec (scenario 4 3 sched_released).1 sched_meanwhile).

Lemma observers_exact_witness :
  queue_capacity (queue meanwhile.1) = 4 ∧ queue_is_closed (queue meanwhile.1) = false ∧
  queue_len (queue (scenario 4 3 sched_released).1) (queue meanwhile.1) = Z.max 0 (4 - 3) ∧
  (4 = 4 → queue_len (queue (scenario 4 3 sched_released).1) (queue meanwhile.1) = 1 ∧
     queue_is_empty (queue (scenario 4 3 sched_released).1) (queue meanwhile.1) = false).
Proof.
  refine (observers_exact (vec_queue 4) 3 (scenario 4 3 sched_released).2
    (scenario 4 3 sched_released).1 meanwhile.2 meanwhile.1 (vec_queue_built 4 ltac:(lia))
    (scenario_execution true 4 3 sched_released ltac:(vm_compute; reflexivity)
       ltac:(actions_ok)) _ _).
  - apply (exec_execution (action_ok (B := buf) true) sched_meanwhile);
      [actions_ok|vm_compute; reflexivity].
  - all_threads.
Defined.

(** One of three elements is drained. *)
Definition sched_draining : list (nat * action val nat) :=
  sched_interleaved ++ [(2%nat, Call SliceIntoIter); (2%nat, Call IterNext)] ++ runs 2 1.

Lemma iter_size_exact_witness :
  iter_size_hint (mk_BufferIter 0 (Range 1 3)) = (2, Some 2).
Proof.
  exact (iter_size_exact (vec_queue 4) 3 (scenario 4 3 sched_draining).2
    (scenario 4 3 sched_draining).1 2%nat (mk_BufferIter 0 (Range 1 3)) (Some (Some 1%nat))
    (vec_queue_built 4 ltac:(lia))
    (scenario_execution true 4 3 sched_draining ltac:(vm_compute; reflexivity)
       ltac:(actions_ok)) ltac:(vm_compute; reflexivity)).
Defined.
