(* ===== verification/Sequential.v ===== *)
(** * The queue without concurrency: refinement of a sequential specification

    [alone] runs the steps of one call to its end. [squeue] is what the queue
    is for a client: the elements enqueued, those already handed to the
    dequeuer and not consumed, the two capacities and the closed flag. Each
    method, run alone from a queue that represents a [squeue], returns, answers
    what the specification answers, and leaves a queue that represents the
    specified [squeue]; [QueueSpec] composes them over any sequence of
    calls. *)

From S2P Require Import Prelude PackedWords Errors Buffers CellBuffers Queue Machine Invariant.
From S2P Require Import GhostLemmas ResizeLoop.
#[local] Open Scope Z_scope.

Section Sequential.
Context {B S V E Ob : Type}.
Context `{L : BufferLaws B S V E Ob}.

Abbreviation pc := (pc S V E).
Abbreviation event := (event S V E).
Abbreviation gbuf := (gbuf (E := E)).
Abbreviation next := (outcome (Queue B * pc * list event)).

(** Run a call to its end; [None]: not within [fuel] steps. *)
Fixpoint alone (fuel : nat) (q : Queue B) (p : pc) : option next :=
  match step false q p with
  | None => Some (Ret (q, p, []))
  | Some (Ret (q1, p1, evs1)) =>
      match fuel with
      | Datatypes.O => None
      | Datatypes.S fuel =>
          o ← alone fuel q1 p1;
          Some (let! (q2, p2, evs2) := o in Ret (q2, p2, evs1 ++ evs2))
      end
  | Some o => Some o
  end.

(** A call takes at most 23 steps alone: [try_dequeue_and_resize] that
    resizes, inserts, and dequeues what it inserted. *)
Definition FUEL : nat := 24.

(** ** The specification *)
Record squeue : Type := mk_squeue {
  s_enq : list E;       (* enqueued, before the next exchange *)
  s_deq : list E;       (* handed over, not consumed *)
  s_cap : Z;            (* capacity of the enqueuing buffer *)
  s_cap' : Z;           (* capacity of the other buffer *)
  s_closed : bool;
}.

Definition s_len (l : list E) : Z := Z.of_nat (length l).

Definition spec_try_enqueue (s : squeue) (v : V) : squeue * result unit (TryEnqueueError.t V) :=
  if size v =? 0 then (s, Ok tt)
  else if s_closed s then (s, Err (TryEnqueueError.Closed v))
  else if s_cap s - s_len (s_enq s) <? size v
  then (s, Err (TryEnqueueError.InsufficientCapacity v))
  else (mk_squeue (s_enq s ++ elems v) (s_deq s) (s_cap s) (s_cap' s) (s_closed s), Ok tt).

Definition spec_try_dequeue (s : squeue) : squeue * result (list E) TryDequeueError.t :=
  match s_deq s, s_enq s with
  | _ :: _, _ => (s, Ok (s_deq s))
  | [], [] => (s, Err (if s_closed s then TryDequeueError.Closed else TryDequeueError.Empty))
  | [], _ :: _ => (mk_squeue [] (s_enq s) (s_cap' s) (s_cap s) (s_closed s), Ok (s_enq s))
  end.

Definition spec_consume (s : squeue) (l : list E) : squeue :=
  mk_squeue (s_enq s) l (s_cap s) (s_cap' s) (s_closed s).

Definition spec_set_closed (s : squeue) (cl : bool) : squeue :=
  mk_squeue (s_enq s) (s_deq s) (s_cap s) (s_cap' s) cl.

(** ** Representation *)
(** All of the queue but the dequeuing word. *)
Record represents (q : Queue B) (s : squeue) (e : Z) (g : gbuf * gbuf) : Prop := {
  rp_enq : enq_side q e (s_closed s) g;
  rp_enq_log : g_log (sel e g) = s_enq s;
  rp_enq_done : all_done (sel e g);
  rp_deq : buf_inv (sel (1 - e) (buffers q)) (sel (1 - e) (buffers_length q)) (sel (1 - e) g);
  rp_deq_rest : g_rest (sel (1 - e) g) = s_deq s;
  rp_deq_done : all_done (sel (1 - e) g);
  rp_cap : capacity (sel e (buffers q)) = s_cap s;
  rp_cap' : capacity (sel (1 - e) (buffers q)) = s_cap' s;
  rp_q_capacity : q_capacity q = s_cap s;
}.

(** A queue that nobody is dequeuing. *)
Definition repr (q : Queue B) (s : squeue) : Prop :=
  ∃ e g, represents q s e g ∧ deq_word_ok (1 - e) (sel (1 - e) g) (dequeuing_length q).

(** A queue whose dequeued range is held through a handle. *)
Definition held (q : Queue B) (s : squeue) (i : Z) (r : range) : Prop :=
  ∃ e g, represents q s e g ∧ dequeuing_length q = DEQUEUING_LOCKED ∧
    i = 1 - e ∧ r = Range (g_drained (sel (1 - e) g)) (g_len (sel (1 - e) g)) ∧
    g_log (sel (1 - e) g) ≠ [].

(** ** Running *)
Lemma alone_end fuel q p : step false q p = None → alone fuel q p = Some (Ret (q, p, [])).
Proof. intros Hs. destruct fuel; simpl; by rewrite Hs. Qed.

Lemma alone_step fuel q p q1 p1 evs1 q2 p2 evs2 :
  step false q p = Some (Ret (q1, p1, evs1)) →
  alone fuel q1 p1 = Some (Ret (q2, p2, evs2)) →
  alone (Datatypes.S fuel) q p = Some (Ret (q2, p2, evs1 ++ evs2)).
Proof. intros Hs Ha. simpl. by rewrite Hs, Ha. Qed.

(** More fuel changes nothing. *)
Lemma alone_mono fuel fuel' q p o :
  (fuel ≤ fuel')%nat → alone fuel q p = Some o → alone fuel' q p = Some o.
Proof.
  revert fuel' q p o. induction fuel as [|fuel IH]; intros fuel' q p o Hle; simpl.
  - destruct (step false q p) as [[[[q1 p1] evs1]| |]|] eqn:Hs; try done;
      intros [= <-]; destruct fuel'; simpl; by rewrite Hs.
  - destruct fuel' as [|fuel']; [lia|]. simpl.
    destruct (step false q p) as [[[[q1 p1] evs1]| |]|]; try done.
    intros (o1 & Ho & [= <-])%bind_Some. rewrite (IH fuel' _ _ o1) by (done || lia). done.
Qed.

Section Facts.
Variables (q : Queue B) (s : squeue) (e : Z) (g : gbuf * gbuf).
Hypothesis HR : represents q s e g.

Lemma rp_bounds :
  0 ≤ e ≤ 1 ∧ 0 ≤ 1 - e ≤ 1 ∧ g_len (sel e g) = s_len (s_enq s) ∧
  g_len (sel (1 - e) g) - g_drained (sel (1 - e) g) = s_len (s_deq s) ∧
  0 ≤ s_len (s_enq s) ≤ s_cap s ∧ 0 ≤ s_len (s_deq s) ≤ s_cap' s ∧
  s_cap s < MAX_REMAINING ∧ s_cap' s < MAX_REMAINING ∧ g_drained (sel e g) = 0.
Proof using HR.
  destruct HR as [(? & _ & Hb & ?) Hl _ Hd Hr _ <- <- _].
  pose proof (bi_len _ _ _ Hb). pose proof (bi_cap _ _ _ Hb).
  pose proof (bi_len _ _ _ Hd). pose proof (bi_cap _ _ _ Hd).
  pose proof (bi_drained _ _ _ Hd). pose proof (g_rest_length _ _ _ Hd).
  unfold s_len. rewrite <- Hr, <- Hl. unfold g_len in *. lia.
Qed.

Lemma rp_word : enqueuing_capacity q = enc (s_closed s) e (s_cap s - s_len (s_enq s)).
Proof using HR.
  pose proof rp_bounds. destruct HR as [(_ & -> & _) Hl _ _ _ _ <- _ _].
  unfold s_len, g_len. by rewrite Hl.
Qed.
End Facts.

(** A run is built backwards, one step at a time; its events come out last. *)
Lemma alone_events fuel q p q' p' evs evs' :
  alone fuel q p = Some (Ret (q', p', evs')) → evs' = evs →
  alone fuel q p = Some (Ret (q', p', evs)).
Proof. by intros -> ->. Qed.

Ltac run_step tac := eapply alone_step; [simpl; tac; reflexivity|].
Ltac run_end := apply alone_end; reflexivity.

(** ** [try_enqueue] *)
(** The three ghost steps of an enqueuer that nobody interrupts. *)
Definition g_enqueued (ge : gbuf) (v : V) : gbuf :=
  let pd := mk_pending 0 (g_len ge) v false in
  g_ack (g_insert (g_reserve ge v) pd) pd.

Lemma enqueue_buffer (b : B) n ge v :
  buf_inv b n ge → valid_value v → 0 < size v → g_len ge + size v ≤ capacity b →
  g_drained ge = 0 → all_done ge →
  ∃ b', insert_into v b (g_len ge) = Ret b' ∧ capacity b' = capacity b ∧
        buf_inv b' (wrapping_add n (size v)) (g_enqueued ge v) ∧
        all_done (g_enqueued ge v).
Proof.
  intros Hb Hv Hs Hfit Hdr Hall. set (pd := mk_pending 0 (g_len ge) v false).
  pose proof (pend_ok_new _ _ _ _ 0 Hb Hv Hs ltac:(lia)) as HP.
  pose proof (buf_inv_reserve _ _ _ _ Hb Hv Hfit Hdr) as Hb1.
  destruct (insert_step _ _ _ pd Hb1 HP eq_refl) as (b' & Hins & Hcap & Hb2 & HP2).
  exists b'. split; [done|]. split; [done|].
  pose proof (buf_inv_ack _ _ _ _ Hb2 HP2 eq_refl) as Hb3. split; [exact Hb3|].
  intros j Hj. simpl. apply elem_of_union. change (0 ≤ j < g_len (g_reserve ge v)) in Hj.
  rewrite g_reserve_len in Hj by done.
  destruct (Z.lt_ge_cases j (g_len ge)); [left; apply Hall; lia|].
  right. apply elem_of_seg. unfold pd_size; simpl. lia.
Qed.

Lemma enq_pair (q : Queue B) s e g ge' w b n :
  represents q s e g → buf_inv b n ge' → all_done ge' → g_drained ge' = 0 →
  capacity b = s_cap s → w = enc (s_closed s) e (s_cap s - g_len ge') →
  represents (mk_Queue w (dequeuing_length q) (upd e b (buffers q))
                (upd e n (buffers_length q)) (q_capacity q))
    (mk_squeue (g_log ge') (s_deq s) (s_cap s) (s_cap' s) (s_closed s)) e (upd e ge' g).
Proof.
  intros HR Hb Hall Hdr Hcap Hw. destruct (rp_bounds _ _ _ _ HR) as (He & _).
  destruct HR as [_ _ _ ? ? ? ? ? ?].
  split; simpl; rewrite ?sel_upd_eq, ?sel_upd_other by done; try done.
  unfold enq_side; simpl. rewrite !sel_upd_eq, Hcap. done.
Qed.

Definition spec_enqueue_events (s : squeue) (v : V) : list event :=
  if size v =? 0 then []
  else match (spec_try_enqueue s v).2 with
       | Ok _ => [EvReserve v; EvNotifyDequeue]
       | Err _ => []
       end.

(** [try_enqueue] alone. It answers exactly what the specification
    answers, and notifies the dequeuer exactly when it inserted. *)
Lemma try_enqueue_run q s v :
  repr q s → valid_value v →
  ∃ q', alone FUEL q (EnqStart v)
          = Some (Ret (q', EnqDone (spec_try_enqueue s v).2, spec_enqueue_events s v)) ∧
        repr q' (spec_try_enqueue s v).1.
Proof.
  intros (e & g & HR & Hdw) Hv.
  destruct (rp_bounds _ _ _ _ HR) as (He & _ & Hle & _ & Hlen & _ & Hcap & _ & Hdr).
  pose proof (rp_word _ _ _ _ HR) as Hw. destruct (valid_size v Hv) as [Hsz Hmax].
  unfold spec_try_enqueue, spec_enqueue_events, spec_try_enqueue.
  destruct (Z.eqb_spec (size v) 0) as [H0s|H0s].
  { exists q. split; [|by exists e, g]. eapply alone_events.
    - run_step ltac:(unfold enq_start; rewrite H0s). run_end.
    - done. }
  assert ((size v =? 0) = false) as Hstart by by apply Z.eqb_neq.
  destruct (s_closed s) eqn:Hcl.
  { exists q. split; [|by exists e, g]. eapply alone_events.
    - run_step ltac:(unfold enq_start; rewrite Hstart).
      run_step ltac:(unfold enq_loop; rewrite Hw, is_closed_enc by lia). run_end.
    - done. }
  assert (EnqueuingCapacity.try_reserve (enc false e (s_cap s - s_len (s_enq s))) (size v) =
          if size v <=? s_cap s - s_len (s_enq s)
          then Some (enc false e (s_cap s - s_len (s_enq s) - size v)) else None) as Hres
    by (apply try_reserve_enc; [done|lia|zlia]).
  destruct (Z.ltb_spec (s_cap s - s_len (s_enq s)) (size v)) as [Hlt|Hfit].
  { rewrite (proj2 (Z.leb_gt _ _)) in Hres by done.
    exists q. split; [|by exists e, g]. eapply alone_events.
    - run_step ltac:(unfold enq_start; rewrite Hstart).
      run_step ltac:(unfold enq_loop; rewrite Hw, is_closed_enc, Hres by lia). run_end.
    - done. }
  rewrite (proj2 (Z.leb_le _ _)) in Hres by done.
  pose proof HR as [(? & ? & Hb & ?) Hlog Hall ? ? ? Hcape ? ?].
  destruct (enqueue_buffer _ _ _ v Hb Hv ltac:(lia) ltac:(lia) Hdr Hall)
    as (b' & Hins & Hcap' & Hb' & Hall').
  eexists. split.
  { eapply alone_events.
    - run_step ltac:(unfold enq_start; rewrite Hstart).
      run_step ltac:(unfold enq_loop; rewrite Hw, is_closed_enc, Hres, Z.eqb_refl by lia).
      run_step ltac:(unfold enq_insert; rewrite buffer_index_enc, remaining_capacity_enc by lia;
        simpl; rewrite usize_sub_Ret by lia; simpl;
        replace (capacity (sel e (buffers q)) - (s_cap s - s_len (s_enq s)))
          with (g_len (sel e g)) by lia; rewrite Hins).
      run_step ltac:(unfold enq_add; rewrite buffer_index_enc by lia).
      run_step idtac. run_end.
    - done. }
  exists e, (upd e (g_enqueued (sel e g) v) g). rewrite <- Hlog, sel_upd_other by done.
  split; [|done].
  pose proof (enq_pair q s e g (g_enqueued (sel e g) v)) as HP. rewrite Hcl in HP.
  eapply HP; try done; [congruence|].
  change (g_len (g_enqueued (sel e g) v)) with (g_len (g_reserve (sel e g) v)).
  rewrite g_reserve_len, Hlog by done. simpl. f_equal. lia.
Qed.

(** ** [try_dequeue] and [try_dequeue_and_resize] *)
(** [k] steps. *)
Inductive steps : nat → Queue B → pc → Queue B → pc → Prop :=
  | steps_refl q p : steps 0 q p q p
  | steps_step k q p q1 p1 evs q2 p2 :
      step false q p = Some (Ret (q1, p1, evs)) → steps k q1 p1 q2 p2 →
      steps (Datatypes.S k) q p q2 p2.

Lemma steps_trans k1 k2 q p q1 p1 q2 p2 :
  steps k1 q p q1 p1 → steps k2 q1 p1 q2 p2 → steps (k1 + k2) q p q2 p2.
Proof. induction 1; simpl; eauto using steps_step. Qed.

Lemma steps_alone k fuel q p q' p' :
  steps k q p q' p' → step false q' p' = None → (k ≤ fuel)%nat →
  ∃ evs, alone fuel q p = Some (Ret (q', p', evs)).
Proof.
  intros Hs Hend Hle. assert (∃ evs, alone k q p = Some (Ret (q', p', evs))) as [evs Ha].
  { clear Hle. induction Hs as [q p|k q p q1 p1 evs q2 p2 Hs _ IH].
    - exists []. by apply alone_end.
    - destruct (IH Hend) as [evs' Ha]. eexists. by eapply alone_step. }
  exists evs. by eapply alone_mono.
Qed.

Ltac one tac := eapply steps_step; [simpl; tac; reflexivity|].

Definition spec_dequeued (s : squeue) (rz : option (resize_args V))
    : squeue * result (list E) TryDequeueError.t :=
  let c := plan_cap rz (s_cap' s) in
  let pre := plan_elems rz c in
  match s_deq s, s_enq s, pre with
  | _ :: _, _, _ => (s, Ok (s_deq s))
  | [], [], [] =>
      if c =? s_cap' s
      then (s, Err (if s_closed s then TryDequeueError.Closed else TryDequeueError.Empty))
      else (mk_squeue [] [] c (s_cap s) (s_closed s), Err TryDequeueError.Empty)
  | [], [], _ :: _ => (mk_squeue [] pre (s_cap s) c (s_closed s), Ok pre)
  | [], _ :: _, _ => (mk_squeue pre (s_enq s) c (s_cap s) (s_closed s), Ok (s_enq s))
  end.

(** Two ways to look at the same answer. *)
Definition answers (q : Queue B) (s : squeue) (p : pc)
    (res : result (list E) TryDequeueError.t) : Prop :=
  match res with
  | Ok l => ∃ bs, p = Slice bs ∧ held q s (bs_buffer_index bs) (bs_range bs) ∧
                  s_deq s = l ∧ view (bs_slice bs) = obs <$> l
  | Err err => p = DeqErr err ∧ repr q s
  end.

Lemma spin_take q s e g :
  represents q s e g → dequeuing_length q = DEQUEUING_LOCKED →
  s_deq s ≠ [] →
  ∃ p, steps 2 q (DeqSpin (1 - e) (s_len (s_deq s)) SPIN_LIMIT) q p ∧
       answers q s p (Ok (s_deq s)).
Proof.
  intros HR Hl Hne. destruct (rp_bounds _ _ _ _ HR) as (_ & He & _ & Hd & _).
  pose proof HR as [_ _ _ Hb Hrest Hall _ _ _].
  assert (g_log (sel (1 - e) g) ≠ []) as Hne'.
  { intros Hn. apply Hne. rewrite <- Hrest. unfold g_rest. by rewrite Hn, drop_nil. }
  destruct (slice_rest _ _ _ Hb Hall Hne') as (sl & Hsl & Hv).
  pose proof (bi_full_count _ _ _ Hb Hall) as Hn. pose proof (bi_drained _ _ _ Hb).
  eexists. split.
  - one ltac:(unfold deq_spin, SPIN_LIMIT; rewrite (proj2 (Z.leb_le _ _)) by lia).
    one ltac:(unfold deq_take; rewrite Hn, <- Hd;
      replace (g_len (sel (1 - e) g) - (g_len (sel (1 - e) g) - g_drained (sel (1 - e) g)))
        with (g_drained (sel (1 - e) g)) by lia; rewrite Hsl).
    apply steps_refl.
  - eexists. split; [done|]. simpl. rewrite <- Hrest at 3. split; [|by rewrite Hrest in *].
    exists e, g. by split_and!.
Qed.

(** The buffers exchange their roles. *)
Definition flip (s : squeue) : squeue :=
  mk_squeue (s_deq s) (s_enq s) (s_cap' s) (s_cap s) (s_closed s).

Lemma represents_flip q s e g :
  represents q s e g → g_drained (sel (1 - e) g) = 0 →
  represents (mk_Queue (enc (s_closed s) (1 - e) (s_cap' s - s_len (s_deq s)))
                (dequeuing_length q) (buffers q) (buffers_length q) (s_cap' s))
    (flip s) (1 - e) g.
Proof.
  intros HR Hdr. destruct (rp_bounds _ _ _ _ HR) as (He & Hd & Hle & Hld & _ & _ & _ & _ & Hdre).
  destruct HR as [(_ & _ & Hb & _) Hlog Hall Hbd Hrest Halld Hc Hc' Hq].
  assert (1 - (1 - e) = e) as He' by lia.
  split; simpl; rewrite ?He'; try done.
  - unfold enq_side; simpl. rewrite Hc', Hdr in *. by rewrite Z.sub_0_r in Hld; rewrite Hld.
  - rewrite <- Hrest. unfold g_rest. by rewrite Hdr.
  - unfold g_rest. by rewrite Hdre.
Qed.

Lemma prepared_swap q s e g resized :
  represents q s e g → dequeuing_length q = DEQUEUING_LOCKED →
  g_drained (sel (1 - e) g) = 0 →
  (s_enq s = [] → resized = false → s_deq s ≠ []) →
  let dl := mk_deq_locals (deq_enc (1 - e) 0) resized (s_len (s_deq s)) (s_cap' s) in
  ∃ k q', (k ≤ 6)%nat ∧
    steps k q (DeqLoad dl) q' (DeqMatch dl (enqueuing_capacity q) (s_cap s)) ∧
    represents q' (flip s) (1 - e) g ∧ dequeuing_length q' = DEQUEUING_LOCKED.
Proof.
  intros HR Hl Hdr Hwhy dl.
  destruct (rp_bounds _ _ _ _ HR) as (He & Hd & Hle & Hld & Hlen & Hlen' & Hc & Hc' & _).
  pose proof (rp_word _ _ _ _ HR) as Hw. pose proof (represents_flip _ _ _ _ HR Hdr) as HF.
  pose proof HR as [_ _ _ _ _ _ Hcap _ Hq].
  assert ((s_cap s - s_len (s_enq s) =? s_cap s) && negb resized && (s_len (s_deq s) =? 0)
          = false) as Htest.
  { destruct (Z.eqb_spec (s_cap s - s_len (s_enq s)) (s_cap s)); [|done].
    destruct resized; [done|]. simpl. apply Z.eqb_neq. intros Hz. apply Hwhy; [|done|].
    - apply length_zero_iff_nil. unfold s_len in *. lia.
    - apply length_zero_iff_nil. unfold s_len in *. lia. }
  set (q1 := set_enqueuing q (enc (s_closed s) (1 - e) (s_cap' s - s_len (s_deq s)))).
  assert (steps 3 q (DeqLoad dl) q1 (DeqCapLoad dl (enqueuing_capacity q) (s_cap s))) as Hswap.
  { one ltac:(unfold deq_load; simpl; rewrite Hw, deq_buffer_index_enc, buffer_index_enc
                by (done || lia); rewrite (proj2 (Z.eqb_neq (1 - e) e)) by lia).
    one ltac:(unfold deq_check; simpl; rewrite buffer_index_enc, remaining_capacity_enc,
                deq_buffer_index_enc, Hcap, Htest by (done || lia);
                rewrite usize_sub_Ret by lia; simpl; rewrite new_enc by lia; simpl).
    one ltac:(unfold deq_swap; rewrite Hw, Z.eqb_refl; simpl; rewrite with_closed_enc by lia).
    rewrite <- Hw. apply steps_refl. }
  destruct (Z.eqb_spec (s_cap s) (s_cap' s)) as [Heq|Hne].
  - exists 5%nat, q1. split; [lia|]. split; [|split; [|done]].
    + apply (steps_trans 3 2 _ _ _ _ _ _ Hswap).
      one ltac:(unfold deq_cap_load; simpl; rewrite Hq, Heq, Z.eqb_refl).
      one idtac. rewrite Heq. apply steps_refl.
    + unfold q1, set_enqueuing. rewrite Hq, Heq. exact HF.
  - exists 6%nat. eexists. split; [lia|]. split; [|split; [exact HF|done]].
    apply (steps_trans 3 3 _ _ _ _ _ _ Hswap).
    one ltac:(unfold deq_cap_load; simpl; rewrite Hq, (proj2 (Z.eqb_neq _ _) Hne)).
    one idtac. one idtac. apply steps_refl.
Qed.

(** From an empty dequeuing buffer to the next buffer, prepared. *)
Lemma prepare q s e g rz :
  represents q s e g → dequeuing_length q = DEQUEUING_LOCKED →
  g_log (sel (1 - e) g) = [] → rz_ok (B := B) true rz →
  let c := plan_cap rz (s_cap' s) in
  let pre := plan_elems rz c in
  let dl := mk_deq_locals (deq_enc (1 - e) 0) (negb (c =? s_cap' s)) (s_len pre) c in
  ∃ q' g', steps 3 q (DeqInternal (deq_enc (1 - e) 0) rz) q' (DeqLoad dl) ∧
    represents q' (mk_squeue (s_enq s) pre (s_cap s) c (s_closed s)) e g' ∧
    dequeuing_length q' = DEQUEUING_LOCKED ∧ g_drained (sel (1 - e) g') = 0.
Proof.
  intros HR Hl Hlog Hrz c pre dl.
  destruct (rp_bounds _ _ _ _ HR) as (He & Hd & _ & _ & _ & _ & _ & Hc' & _).
  destruct HR as [Henq Hel Hed Hb _ _ Hcap Hcap' Hq].
  pose proof (bi_empty_count _ _ _ Hb Hlog) as Hn.
  pose proof (bi_rep _ _ _ Hb) as HR.
  assert (g_len (sel (1 - e) g) = 0) as Hlen by by apply g_len_nil.
  rewrite (bi_empty_cont _ _ _ Hb) in HR by (pose proof (bi_drained _ _ _ Hb); lia).
  destruct (apply_resize_fits rz _ HR ltac:(lia) Hrz) as (b' & Hrs & Hc & Hlt & Hfit & HR').
  rewrite Hcap' in Hrs, Hc, Hlt, Hfit, HR'. fold c pre in Hrs, Hc, Hlt, Hfit, HR'.
  set (gd := mk_gbuf pre (seg 0 (s_len pre)) (map_seqZ 0 pre) 0).
  assert (buf_inv b' (0 + s_len pre) gd) as Hgd.
  { apply buf_inv_preloaded; unfold s_len; congruence || lia || done. }
  set (q1 := if 0 <? s_len pre
             then set_buffer_length (set_buffer q (1 - e) b') (1 - e)
                    (wrapping_add (sel (1 - e) (buffers_length q)) (s_len pre))
             else set_buffer q (1 - e) b').
  exists q1, (upd (1 - e) gd g). split_and!.
  - one ltac:(unfold deq_internal; rewrite deq_buffer_len_enc by (done || lia); simpl).
    one ltac:(unfold deq_resize; rewrite deq_buffer_index_enc by (done || lia);
                rewrite Hrs; simpl).
    one ltac:(unfold deq_add_inserted; simpl; rewrite deq_buffer_index_enc by (done || lia);
                fold (s_len pre)).
    unfold q1. rewrite Hc. apply steps_refl.
  - assert (enqueuing_capacity q1 = enqueuing_capacity q ∧
            buffers q1 = upd (1 - e) b' (buffers q) ∧ q_capacity q1 = q_capacity q ∧
            sel e (buffers_length q1) = sel e (buffers_length q) ∧
            sel (1 - e) (buffers_length q1) = s_len pre) as (Hw & Hbs & Hqc & Hle & Hld).
    { unfold q1. rewrite Hn. destruct (Z.ltb_spec 0 (s_len pre)); simpl; split_and!; try done.
      - by apply sel_upd_other'.
      - rewrite sel_upd_eq. apply wrapping_add_small; unfold MAX_REMAINING, s_len in *; zlia.
      - unfold s_len in *. lia. }
    split; unfold enq_side; rewrite ?Hw, ?Hbs, ?Hqc, ?Hle, ?Hld, ?sel_upd_eq,
      ?sel_upd_other' by done; try done.
    intros j Hj. simpl. by apply elem_of_seg.
  - unfold q1. by destruct (_ <? _).
  - by rewrite sel_upd_eq.
Qed.

(** After the exchange: the old enqueuing buffer is taken, when it has
    elements. *)
Lemma match_take q s e g dl cl w :
  represents q s e g → dequeuing_length q = DEQUEUING_LOCKED → s_deq s ≠ [] →
  w = enc cl (1 - e) (s_cap' s - s_len (s_deq s)) →
  ∃ p, steps 3 q (DeqMatch dl w (s_cap' s)) q p ∧ answers q s p (Ok (s_deq s)).
Proof.
  intros HR Hl Hne ->. destruct (spin_take q s e g HR Hl Hne) as (p & Hs & Hp).
  destruct (rp_bounds _ _ _ _ HR) as (_ & Hd & _ & _ & _ & Hlen & _ & Hc' & _).
  assert (0 < s_len (s_deq s)) by (unfold s_len; destruct (s_deq s); simpl in *; [done|lia]).
  exists p. split; [|done].
  one ltac:(unfold deq_match; rewrite buffer_index_enc, remaining_capacity_enc by lia;
    rewrite usize_sub_Ret by lia; simpl;
    replace (s_cap' s - (s_cap' s - s_len (s_deq s))) with (s_len (s_deq s)) by lia;
    rewrite (proj2 (Z.eqb_neq (s_len (s_deq s)) 0)) by lia; simpl).
  exact Hs.
Qed.

(** Nothing to exchange for. *)
Lemma nothing_there q s e g :
  represents q s e g → dequeuing_length q = DEQUEUING_LOCKED →
  g_log (sel (1 - e) g) = [] → s_enq s = [] →
  let dl := mk_deq_locals (deq_enc (1 - e) 0) false 0 (s_cap' s) in
  ∃ q', steps 3 q (DeqLoad dl) q'
          (DeqErr (if s_closed s then TryDequeueError.Closed else TryDequeueError.Empty)) ∧
        repr q' s.
Proof.
  intros HR Hl Hlog Henq dl.
  destruct (rp_bounds _ _ _ _ HR) as (He & Hd & Hle & Hld & Hlen & _ & Hc & _).
  pose proof (rp_word _ _ _ _ HR) as Hw. pose proof (rp_cap _ _ _ _ HR) as Hcap.
  rewrite Henq in *. change (s_len []) with 0 in *. rewrite Z.sub_0_r in Hw.
  exists (set_dequeuing q (deq_enc (1 - e) 0)). split.
  - one ltac:(unfold deq_load; simpl; rewrite Hw, deq_buffer_index_enc, buffer_index_enc
                by (done || lia); rewrite (proj2 (Z.eqb_neq (1 - e) e)) by lia).
    one ltac:(unfold deq_check; simpl; rewrite buffer_index_enc, remaining_capacity_enc,
                Hcap, Z.eqb_refl by lia).
    one ltac:(unfold deq_restore; rewrite is_closed_enc by lia). apply steps_refl.
  - exists e, g. split; [by destruct HR|]. split; [|done]. simpl. f_equal.
    pose proof (bi_drained _ _ _ (rp_deq _ _ _ _ HR)).
    assert (g_len (sel (1 - e) g) = 0) by by apply g_len_nil. lia.
Qed.

(** The exchange gave an empty buffer and no value was inserted. *)
Lemma match_ack q s e g dl cl w :
  represents q s e g → dequeuing_length q = DEQUEUING_LOCKED →
  g_log (sel (1 - e) g) = [] → dl_inserted dl = 0 → dl_resized dl = true →
  w = enc cl (1 - e) (s_cap' s) →
  ∃ q', steps 2 q (DeqMatch dl w (s_cap' s)) q' (DeqErr TryDequeueError.Empty) ∧ repr q' s.
Proof.
  intros HR Hl Hlog Hi Hr ->.
  destruct (rp_bounds _ _ _ _ HR) as (_ & Hd & _ & Hld & _ & Hlen & _ & Hc' & _).
  exists (set_dequeuing q (deq_enc (1 - e) 0)). split.
  - one ltac:(unfold deq_match; rewrite buffer_index_enc, remaining_capacity_enc by lia;
      rewrite usize_sub_Ret by lia; simpl; rewrite Z.sub_diag; simpl; rewrite Hi, Hr; simpl).
    one ltac:(unfold deq_ack; rewrite deq_new_enc by (done || lia)). apply steps_refl.
  - exists e, g. split; [by destruct HR|]. split; [|done]. simpl. f_equal.
    pose proof (bi_drained _ _ _ (rp_deq _ _ _ _ HR)).
    assert (g_len (sel (1 - e) g) = 0) by by apply g_len_nil. lia.
Qed.

(** The exchange gave an empty buffer, but values were inserted: the second
    round exchanges again and takes them. *)
Lemma match_retry q s e g dl cl w :
  represents q s e g → dequeuing_length q = DEQUEUING_LOCKED →
  g_log (sel (1 - e) g) = [] → 0 < dl_inserted dl → s_enq s ≠ [] →
  w = enc cl (1 - e) (s_cap' s) →
  ∃ k q' p, (k ≤ 13)%nat ∧ steps k q (DeqMatch dl w (s_cap' s)) q' p ∧
    answers q' (flip s) p (Ok (s_enq s)).
Proof.
  intros HR Hl Hlog Hi Hne ->.
  destruct (rp_bounds _ _ _ _ HR) as (He & Hd & _ & Hld & _ & Hlen & _ & Hc' & _).
  destruct (prepare q s e g None HR Hl Hlog) as (q1 & g1 & Hs1 & HR1 & Hl1 & Hd1); [done|].
  change (plan_cap None (s_cap' s)) with (s_cap' s) in *.
  change (plan_elems None (s_cap' s)) with (@nil E) in *.
  rewrite Z.eqb_refl in Hs1. simpl in Hs1.
  destruct (prepared_swap q1 _ e g1 false HR1 Hl1 Hd1) as (k & q2 & Hk & Hs2 & HR2 & Hl2);
    [by simpl|].
  assert (1 - (1 - e) = e) as Hee by lia.
  destruct (match_take q2 _ (1 - e) g1 (mk_deq_locals (deq_enc (1 - e) 0) false 0 (s_cap' s))
              (s_closed s) (enqueuing_capacity q1) HR2 Hl2 Hne) as (p & Hs3 & Hp).
  { rewrite (rp_word _ _ _ _ HR1), Hee. done. }
  exists (1 + (3 + (k + 3)))%nat, q2, p. split; [lia|]. split.
  - eapply steps_trans; [|eapply steps_trans; [exact Hs1|eapply steps_trans; [exact Hs2|exact Hs3]]].
    one ltac:(unfold deq_match; rewrite buffer_index_enc, remaining_capacity_enc by lia;
      rewrite usize_sub_Ret by lia; simpl; rewrite Z.sub_diag; simpl;
      rewrite (proj2 (Z.ltb_lt _ _) Hi); rewrite deq_new_enc by (done || lia)).
    apply steps_refl.
  - assert (s_deq s = []) as Hdq.
    { rewrite <- (rp_deq_rest _ _ _ _ HR). unfold g_rest. by rewrite Hlog, drop_nil. }
    unfold flip in *. simpl in *. by rewrite Hdq.
Qed.

Lemma dequeue_run q s e g rz :
  represents q s e g → dequeuing_length q = DEQUEUING_LOCKED →
  rz_ok (B := B) true rz → (s_deq s = [] → g_log (sel (1 - e) g) = []) →
  ∃ k q' p, (k ≤ 23)%nat ∧
    steps k q (DeqInternal (deq_enc (1 - e) (s_len (s_deq s))) rz) q' p ∧
    answers q' (spec_dequeued s rz).1 p (spec_dequeued s rz).2.
Proof.
  intros HR Hl Hrz Hnil.
  destruct (rp_bounds _ _ _ _ HR) as (He & Hd & _ & _ & _ & Hlen & _ & Hc' & _).
  unfold spec_dequeued. destruct (s_deq s) as [|x l] eqn:Hdq.
  2: { rewrite <- Hdq in *. assert (s_deq s ≠ []) as Hne by by rewrite Hdq.
    destruct (spin_take q s e g HR Hl Hne) as (p & Hsp & Hp).
    exists 3%nat, q, p. split; [lia|]. split; [|done].
    one ltac:(unfold deq_internal; rewrite deq_buffer_len_enc, deq_buffer_index_enc by (done || lia);
      rewrite (proj2 (Z.eqb_neq (s_len (s_deq s)) 0)) by (unfold s_len; by rewrite Hdq)).
    exact Hsp. }
  specialize (Hnil eq_refl). change (s_len []) with 0.
  destruct (prepare q s e g rz HR Hl Hnil Hrz) as (q1 & g1 & Hs1 & HR1 & Hl1 & Hd1).
  set (c := plan_cap rz (s_cap' s)) in *. set (pre := plan_elems rz c) in *.
  assert (1 - (1 - e) = e) as Hee by lia.
  pose proof (rp_word _ _ _ _ HR1) as Hw1. simpl in Hw1.
  assert (pre = [] → g_log (sel (1 - e) g1) = []) as Hlog1.
  { intros Hp. pose proof (rp_deq_rest _ _ _ _ HR1) as Hr. unfold g_rest in Hr.
    by rewrite Hd1, Hp in Hr. }
  destruct (decide (s_enq s = [] ∧ pre = [] ∧ c = s_cap' s)) as [(Henq & Hpre & Hc)|Hex].
  { rewrite Henq, Hpre, Hc, Z.eqb_refl. simpl.
    destruct (nothing_there q1 _ e g1 HR1 Hl1 (Hlog1 Hpre) Henq) as (q2 & Hs2 & HR2).
    exists 6%nat, q2, (DeqErr (if s_closed s then TryDequeueError.Closed else TryDequeueError.Empty)).
    split; [lia|]. split; [|split; [done|]].
    - apply (steps_trans 3 3 _ _ _ _ _ _ Hs1). 
      rewrite Hpre, Hc, Z.eqb_refl. simpl in Hs2. rewrite Hc in Hs2. exact Hs2.
    - rewrite Hpre, Hc, <- Hdq in HR2. by destruct s. }
  destruct (prepared_swap q1 _ e g1 (negb (c =? s_cap' s)) HR1 Hl1 Hd1)
    as (k & q2 & Hk & Hs2 & HR2 & Hl2).
  { simpl. intros Henq Hc Hpre. apply Hex. split; [done|]. split; [done|].
    by apply negb_false_iff, Z.eqb_eq in Hc. }
  simpl in Hs2. unfold flip in HR2; simpl in HR2.
  pose proof (steps_trans _ _ _ _ _ _ _ _ Hs1 Hs2) as Hs. clear Hs1 Hs2.
  destruct (s_enq s) as [|x l] eqn:Henq.
  2: { destruct (match_take q2 _ (1 - e) g1
        (mk_deq_locals (deq_enc (1 - e) 0) (negb (c =? s_cap' s)) (s_len pre) c)
        (s_closed s) (enqueuing_capacity q1) HR2 Hl2) as (p & Hs3 & Hp); [done|by rewrite Hee|].
    exists (3 + k + 3)%nat, q2, p. split; [lia|]. split; [by eapply steps_trans|done]. }
  change (s_len []) with 0 in Hw1. rewrite Z.sub_0_r in Hw1.
  assert (g_log (sel (1 - (1 - e)) g1) = []) as Hlog2.
  { rewrite Hee. apply (rp_enq_log _ _ _ _ HR1). }
  destruct pre as [|y pre'] eqn:Hpre.
  - destruct (Z.eqb_spec c (s_cap' s)); [by destruct Hex|].
    destruct (match_ack q2 _ (1 - e) g1 (mk_deq_locals (deq_enc (1 - e) 0) true 0 c)
      (s_closed s) (enqueuing_capacity q1) HR2 Hl2 Hlog2) as (q3 & Hs3 & HR3);
      [done|done|by rewrite Hee|].
    exists (3 + k + 2)%nat, q3. eexists. split; [lia|].
    split; [by eapply steps_trans|done].
  - destruct (match_retry q2 _ (1 - e) g1
      (mk_deq_locals (deq_enc (1 - e) 0) (negb (c =? s_cap' s)) (s_len (y :: pre')) c)
      (s_closed s) (enqueuing_capacity q1) HR2 Hl2 Hlog2) as (k3 & q3 & p & Hk3 & Hs3 & Hp);
      [done|done|by rewrite Hee|].
    exists (3 + k + k3)%nat, q3, p. split; [lia|]. split; [by eapply steps_trans|done].
Qed.

Lemma answers_rest q s p res : answers q s p res → step false q p = None.
Proof. destruct res; simpl; [by intros (? & -> & _)|by intros [-> _]]. Qed.

(** [try_dequeue] and [try_dequeue_and_resize] alone, whatever the state
    of the two buffers. [rz = None] is [try_dequeue]. *)
Lemma try_dequeue_run q s rz :
  repr q s → rz_ok (B := B) true rz →
  ∃ q' p evs, alone FUEL q (DeqStart rz) = Some (Ret (q', p, evs)) ∧
    answers q' (spec_dequeued s rz).1 p (spec_dequeued s rz).2.
Proof.
  intros (e & g & HR & Hw & Hnil) Hrz.
  destruct (rp_bounds _ _ _ _ HR) as (He & Hd & _ & Hld & _ & Hlen & _ & Hc' & _).
  rewrite Hld in Hw. set (q0 := set_dequeuing q DEQUEUING_LOCKED).
  destruct (dequeue_run q0 s e g rz) as (k & q' & p & Hk & Hs & Hp);
    [by destruct HR|done|done| |].
  { intros Hdq. apply Hnil. rewrite Hdq in Hld. change (s_len []) with 0 in Hld. lia. }
  destruct (steps_alone (1 + k) FUEL q (DeqStart rz) q' p) as (evs & Ha);
    [|by eapply answers_rest|unfold FUEL; lia|by exists q', p, evs].
  eapply steps_trans; [|exact Hs].
  one ltac:(unfold deq_start; rewrite Hw, try_from_atomic_enc by (done || lia)).
  apply steps_refl.
Qed.

(** ** Handles *)
Lemma held_facts q s i r :
  held q s i r →
  ∃ e g, represents q s e g ∧ dequeuing_length q = DEQUEUING_LOCKED ∧ i = 1 - e ∧
    r = Range (g_drained (sel (1 - e) g)) (g_len (sel (1 - e) g)) ∧
    g_log (sel (1 - e) g) ≠ [] ∧ 0 ≤ 1 - e ≤ 1 ∧ r_end r - r_start r = s_len (s_deq s).
Proof.
  intros (e & g & HR & Hl & -> & -> & Hne). exists e, g.
  destruct (rp_bounds _ _ _ _ HR) as (_ & ? & _ & ? & _).
  split_and!; try done; simpl; lia.
Qed.

(** The dequeuing buffer changes, the enqueuing one does not. *)
Lemma represents_deq q s e g b n gd w l :
  represents q s e g → buf_inv b n gd → g_rest gd = l → all_done gd →
  capacity b = s_cap' s →
  represents (mk_Queue (enqueuing_capacity q) w (upd (1 - e) b (buffers q))
                (upd (1 - e) n (buffers_length q)) (q_capacity q))
    (spec_consume s l) e (upd (1 - e) gd g).
Proof.
  intros HR Hb Hr Hd Hc. destruct (rp_bounds _ _ _ _ HR) as (He & _).
  destruct HR as [? ? ? ? ? ? ? ? ?].
  split; unfold enq_side; simpl; rewrite ?sel_upd_eq, ?sel_upd_other' by done; done.
Qed.

(** dropping a slice (or an iterator over what is left) releases the
    buffer: all of it is consumed, and the queue can be dequeued again. *)
Lemma release_run q s i r :
  held q s i r →
  ∃ q', alone 3 q (RelClear i r) = Some (Ret (q', Idle, [])) ∧
        repr q' (spec_consume s []).
Proof.
  intros (e & g & HR & Hl & -> & -> & Hne & Hd & _)%held_facts.
  pose proof HR as [_ _ _ Hb _ Hall _ Hc' _].
  destruct (clear_step _ _ _ Hb Hall) as (b' & Hcl & Hb' & Hcap).
  rewrite Hc' in Hcap. pose proof (bi_rep _ _ _ Hb') as HRep.
  pose proof (buf_inv_fresh b' HRep (bi_cap _ _ _ Hb')) as Hf.
  eexists. split.
  - eapply alone_events.
    + run_step ltac:(unfold rel_clear; rewrite Hcl; simpl). run_step idtac.
      run_step ltac:(unfold rel_unlock; rewrite deq_new_enc by (done || reflexivity)). run_end.
    + done.
  - exists e, (upd (1 - e) g_fresh g). split; [|rewrite sel_upd_eq; by split].
    apply (represents_deq q s e g b' 0 g_fresh); try done. by apply empty_all_done.
Qed.

(** Requeuing keeps what was not consumed; the next dequeue gets it. *)
Lemma requeue_run q s i r :
  held q s i r →
  ∃ q', alone 4 q (Requeue i r) = Some (Ret (q', Idle, [])) ∧ repr q' s.
Proof.
  intros Hheld. pose proof Hheld as (e & g & HR & Hl & -> & -> & Hne & Hd & Hlen)%held_facts.
  simpl in Hlen. destruct (rp_bounds _ _ _ _ HR) as (_ & _ & _ & _ & _ & Hs & _ & Hc & _).
  destruct (Z.ltb_spec 0 (s_len (s_deq s))) as [Hpos|Hz].
  - eexists. split.
    + eapply alone_events.
      * run_step ltac:(unfold queue_requeue; simpl; rewrite usize_sub_Ret by lia; simpl;
          rewrite Hlen, (proj2 (Z.ltb_lt _ _) Hpos), deq_new_enc by (done || lia)).
        run_end.
      * done.
    + exists e, g. split; [by destruct HR|]. split; [by rewrite <- Hlen|lia].
  - assert (s_deq s = []) as Hdq by (apply length_zero_iff_nil; unfold s_len in *; lia).
    destruct (release_run _ _ _ _ Hheld) as (q' & Hrun & Hrep). exists q'. split.
    + refine (alone_step _ _ _ _ _ [] _ _ [] _ Hrun).
      simpl. unfold queue_requeue; simpl. rewrite usize_sub_Ret by lia. simpl.
      by rewrite (proj2 (Z.ltb_ge _ _)) by lia.
    + unfold spec_consume in Hrep. rewrite <- Hdq in Hrep. by destruct s.
Qed.

(** One [next] of the draining iterator takes the first element left. *)
Lemma iter_next_run rm q s i r x l :
  remove = Some rm → held q s i r → s_deq s = x :: l →
  ∃ q', alone 1 q (IterRemove (mk_BufferIter i r))
          = Some (Ret (q', Iter (mk_BufferIter i (Range (r_start r + 1) (r_end r)))
                             (Some (Some x)), [EvNext x])) ∧
        held q' (spec_consume s l) i (Range (r_start r + 1) (r_end r)).
Proof.
  intros Hrm (e & g & HR & Hl & -> & -> & Hne & Hd & Hlen)%held_facts Hdq.
  rewrite Hdq in Hlen. simpl in Hlen. unfold s_len in Hlen. simpl in Hlen.
  pose proof HR as [_ _ _ Hb Hrest Hall _ Hc' _].
  destruct (remove_step rm _ _ _ Hrm Hb Hall) as (b' & y & Hb' & Hbuf & Hr & Hcap); [lia|].
  rewrite Hrest, Hdq in Hr. injection Hr as <- ->. rewrite Hc' in Hcap.
  eexists. split.
  - eapply alone_events.
    + run_step ltac:(unfold iter_remove; rewrite Hrm, Hl, Z.eqb_refl; simpl;
        rewrite Hb'; simpl). run_end.
    + done.
  - exists e, (upd (1 - e) (g_removed (sel (1 - e) g)) g).
    rewrite sel_upd_eq. split_and!; try done.
    pose proof (represents_deq q s e g b' _ _ (dequeuing_length q) _ HR Hbuf eq_refl Hall Hcap)
      as HR'. rewrite upd_sel in HR'. exact HR'.
Qed.

(** Assigning element [k] of the slice. *)
Lemma slice_assign_run ops q s i r sl0 k x :
  slice_mut = Some ops → held q s i r → (k < length (s_deq s))%nat →
  ∃ q' sl, alone 1 q (SliceSet (mk_BufferSlice i r sl0) (Z.of_nat k) x)
             = Some (Ret (q', Slice (mk_BufferSlice i r sl), [EvAssign k x])) ∧
           view sl = obs <$> <[k := x]> (s_deq s) ∧
           held q' (spec_consume s (<[k := x]> (s_deq s))) i r.
Proof.
  intros Hops (e & g & HR & Hl & -> & -> & Hne & Hd & Hlen)%held_facts Hk.
  pose proof HR as [_ _ _ Hb Hrest Hall _ Hc' _].
  destruct (assign_step ops _ _ _ k x Hops Hb Hall) as (b' & sl & Hset & Hv & Hcap & Hbuf);
    [by rewrite Hrest|]. rewrite Hc' in Hcap. rewrite Hrest in Hv.
  do 2 eexists. split; [|split; [exact Hv|]].
  - eapply alone_events.
    + run_step ltac:(unfold slice_assign; rewrite Hops; simpl; rewrite Hset, Nat2Z.id; simpl).
      run_end.
    + done.
  - exists e, (upd (1 - e) (g_assign (sel (1 - e) g) k x) g).
    rewrite sel_upd_eq, g_assign_len. split_and!; try done.
    + assert (all_done (g_assign (sel (1 - e) g) k x)) as Hall'
        by (intros j; rewrite g_assign_len; apply Hall).
      rewrite <- Hrest, <- g_rest_assign.
      pose proof (represents_deq q s e g b' _ _ (dequeuing_length q) _ HR Hbuf eq_refl Hall' Hcap)
        as HR'. rewrite upd_sel in HR'. exact HR'.
    + intros Hnil. apply (f_equal length) in Hnil. simpl in Hnil. rewrite length_insert in Hnil.
      by apply Hne, length_zero_iff_nil.
Qed.

(** [into_slice] shows what the iterator has left. *)
Lemma get_slice_run q s i r :
  held q s i r →
  ∃ sl, alone 1 q (GetSlice (mk_BufferIter i r))
          = Some (Ret (q, Slice (mk_BufferSlice i r sl), [])) ∧
        view sl = obs <$> s_deq s.
Proof.
  intros (e & g & HR & Hl & -> & -> & Hne & Hd & Hlen)%held_facts.
  pose proof HR as [_ _ _ Hb Hrest Hall _ _ _].
  destruct (slice_rest _ _ _ Hb Hall Hne) as (sl & Hsl & Hv). rewrite Hrest in Hv.
  exists sl. split; [|done]. eapply alone_events.
  - run_step ltac:(unfold get_slice; simpl; rewrite Hsl; simpl). run_end.
  - done.
Qed.

(** ** [close] and [reopen] *)
Lemma represents_closed q s e g cl :
  represents q s e g →
  represents (set_enqueuing q (enc cl e (s_cap s - s_len (s_enq s)))) (spec_set_closed s cl) e g.
Proof.
  intros HR. destruct (rp_bounds _ _ _ _ HR) as (_ & _ & Hle & _).
  destruct HR as [(? & _ & ? & ?) ? ? ? ? ? Hc ? ?]. split; try done.
  unfold enq_side; simpl. by rewrite Hc, Hle.
Qed.

Lemma close_run q s :
  repr q s →
  ∃ q', alone 3 q CloseOr = Some (Ret (q', Idle, [EvNotifyDequeue; EvNotifyEnqueue])) ∧
        repr q' (spec_set_closed s true).
Proof.
  intros (e & g & HR & Hw). destruct (rp_bounds _ _ _ _ HR) as (He & _ & _ & _ & ? & _ & ? & _).
  eexists. split.
  - eapply alone_events.
    + run_step ltac:(unfold close_or; rewrite (rp_word _ _ _ _ HR), close_enc by lia).
      run_step idtac. run_step idtac. run_end.
    + done.
  - exists e, g. split; [by apply represents_closed|done].
Qed.

Lemma reopen_run q s :
  repr q s →
  ∃ q', alone 1 q ReopenAnd = Some (Ret (q', Idle, [])) ∧ repr q' (spec_set_closed s false).
Proof.
  intros (e & g & HR & Hw). destruct (rp_bounds _ _ _ _ HR) as (He & _ & _ & _ & ? & _ & ? & _).
  eexists. split.
  - eapply alone_events.
    + run_step ltac:(unfold reopen_and; rewrite (rp_word _ _ _ _ HR), reopen_enc by lia).
      run_end.
    + done.
  - exists e, g. split; [by apply represents_closed|done].
Qed.
End Sequential.
