(* ===== verification/QueueSpec.v ===== *)
(** * The queue refines its specification

    A client that makes one call after the other: [run_ops] runs its calls with
    the steps of [Queue], [spec_ops] on the specification [squeue] of
    [Sequential], and the two agree; then what the specification says of the
    executions of [Concurrent] and of [Drop]. *)

From S2P Require Import Prelude PackedWords Errors Buffers CellBuffers Queue Machine Scenario.
From S2P Require Import Invariant GhostLemmas Preservation DequeuerSteps ResizeLoop.
From S2P Require Import StepInvariant Concurrent Sequential.
#[local] Open Scope Z_scope.
#[local] Arguments alone : simpl never.

Section QueueSpec.
Context {B S V E Ob : Type}.
Context `{L : BufferLaws B S V E Ob}.

Abbreviation pc := (pc S V E).
Implicit Types (q : Queue B) (s : squeue (E := E)) (p : pc).

(** ** Sequential clients *)
(** Call a method from the point [p] and run it to its end. *)
Definition invoke q p (c : call V E) : option (Queue B * pc) :=
  '(p1, _) ← start_call p c;
  match alone FUEL q p1 with
  | Some (Ret (q2, p2, _)) => Some (q2, p2)
  | _ => None
  end.

#[local] Arguments invoke : simpl never.

(** What a client does with a dequeued slice. *)
Inductive use : Type :=
  | Consume           (* read it, and drop it *)
  | Keep              (* read it, and requeue it *)
  | Take (n : nat)    (* [into_iter], [n] calls of [next], drop the iterator *)
  | Assign (k : nat) (x : E) (u : use).  (* assign element [k] if there is one, then [u] *)

Inductive op : Type :=
  | OpEnqueue (v : V)
  | OpDequeue (rz : option (resize_args V)) (u : use)
  | OpClose
  | OpReopen.

Inductive response : Type :=
  | REnqueue (res : result unit (TryEnqueueError.t V))
  | RSlice (l : list Ob)
  | RItems (l : list (option Ob))
  | RError (e : TryDequeueError.t)
  | RUnit.

Definition dequeue_call (rz : option (resize_args V)) : call V E :=
  match rz with Some args => TryDequeueAndResize args | None => TryDequeue end.

Fixpoint take_next (n : nat) q p : option (Queue B * pc * list (option Ob)) :=
  match n with
  | Datatypes.O => Some (q, p, [])
  | Datatypes.S n =>
      '(q, p) ← invoke q p IterNext;
      match p with
      | Iter _ (Some x) =>
          '(q, p, l) ← take_next n q p; Some (q, p, (obs <$> x) :: l)
      | _ => None
      end
  end.

Fixpoint use_slice q p (l : list Ob) (u : use) : option (Queue B * response) :=
  match u with
  | Consume => '(q, _) ← invoke q p SliceDrop; Some (q, RSlice l)
  | Keep => '(q, _) ← invoke q p SliceRequeue; Some (q, RSlice l)
  | Take n =>
      '(q, p) ← invoke q p SliceIntoIter;
      '(q, p, l) ← take_next n q p;
      '(q, _) ← invoke q p IterDrop; Some (q, RItems l)
  | Assign k x u =>
      if (k <? length l)%nat
      then
        '(q, p) ← invoke q p (SliceAssign (Z.of_nat k) x);
        match p with
        | Slice bs => use_slice q p (view (bs_slice bs)) u
        | _ => None
        end
      else use_slice q p l u
  end.

Definition run_op q (o : op) : option (Queue B * response) :=
  match o with
  | OpEnqueue v =>
      '(q, p) ← invoke q Idle (TryEnqueue v);
      match p with EnqDone res => Some (q, REnqueue res) | _ => None end
  | OpDequeue rz u =>
      '(q, p) ← invoke q Idle (dequeue_call rz);
      match p with
      | Slice bs => use_slice q p (view (bs_slice bs)) u
      | DeqErr e => Some (q, RError e)
      | _ => None
      end
  | OpClose => '(q, _) ← invoke q Idle Close; Some (q, RUnit)
  | OpReopen => '(q, _) ← invoke q Idle Reopen; Some (q, RUnit)
  end.

Fixpoint run_ops q (os : list op) : option (Queue B * list response) :=
  match os with
  | [] => Some (q, [])
  | o :: os => '(q, r) ← run_op q o; '(q, rs) ← run_ops q os; Some (q, r :: rs)
  end.

(** ** The same on the specification *)
Fixpoint spec_take (n : nat) (l : list E) : list E * list (option Ob) :=
  match n with
  | Datatypes.O => (l, [])
  | Datatypes.S n =>
      match l with
      | [] => let (l, xs) := spec_take n [] in (l, None :: xs)
      | x :: l => let (l, xs) := spec_take n l in (l, Some (obs x) :: xs)
      end
  end.

Fixpoint spec_use s (l : list E) (u : use) : squeue * response :=
  match u with
  | Consume => (spec_consume s [], RSlice (obs <$> l))
  | Keep => (s, RSlice (obs <$> l))
  | Take n => let (l', xs) := spec_take n l in (spec_consume s l', RItems xs)
  | Assign k x u => spec_use (spec_consume s (<[k := x]> l)) (<[k := x]> l) u
  end.

Definition spec_op s (o : op) : squeue * response :=
  match o with
  | OpEnqueue v => let (s', res) := spec_try_enqueue (B := B) s v in (s', REnqueue res)
  | OpDequeue rz u =>
      let (s', res) := spec_dequeued s rz in
      match res with
      | Ok l => spec_use s' l u
      | Err e => (s', RError e)
      end
  | OpClose => (spec_set_closed s true, RUnit)
  | OpReopen => (spec_set_closed s false, RUnit)
  end.

Fixpoint spec_ops s (os : list op) : squeue * list response :=
  match os with
  | [] => (s, [])
  | o :: os =>
      let (s, r) := spec_op s o in
      let (s, rs) := spec_ops s os in (s, r :: rs)
  end.

(** What the buffer can do. *)
Fixpoint use_ok (u : use) : Prop :=
  match u with
  | Take _ => is_some (remove (B := B) (E := E)) = true
  | Assign _ _ u => is_some (slice_mut (B := B) (S := S) (E := E)) = true ∧ use_ok u
  | _ => True
  end.

(** Values are valid, resizing calls fit, and buffers can do what is asked. *)
Definition op_ok (o : op) : Prop :=
  match o with
  | OpEnqueue v => valid_value v
  | OpDequeue rz u => rz_ok (B := B) true rz ∧ use_ok u
  | OpClose | OpReopen => True
  end.

(** ** Refinement *)
Lemma invoke_alone q p c p1 evs fuel q2 p2 evs2 :
  start_call p c = Some (p1, evs) → alone fuel q p1 = Some (Ret (q2, p2, evs2)) →
  (fuel ≤ FUEL)%nat → invoke q p c = Some (q2, p2).
Proof.
  intros Hs Ha Hf. unfold invoke. rewrite Hs. simpl.
  by rewrite (alone_mono _ _ _ _ _ Hf Ha).
Qed.

Lemma take_next_refines rm n : remove = Some rm → ∀ q s i r last,
  held q s i r →
  ∃ q' r' last', take_next n q (Iter (mk_BufferIter i r) last)
      = Some (q', Iter (mk_BufferIter i r') last', (spec_take n (s_deq s)).2) ∧
    held q' (spec_consume s (spec_take n (s_deq s)).1) i r'.
Proof.
  intros Hrm. induction n as [|n IH]; intros q s i r last Hh; simpl.
  { exists q, r, last. split; [done|]. by destruct s. }
  pose proof Hh as (e & g & _ & _ & _ & _ & _ & _ & Hlen)%held_facts.
  destruct (s_deq s) as [|x l] eqn:Hdq.
  - assert (invoke q (Iter (mk_BufferIter i r) last) IterNext
              = Some (q, Iter (mk_BufferIter i r) (Some None))) as ->.
    { eapply invoke_alone with (fuel := 0%nat); [|by apply alone_end|lia].
      simpl. unfold iter_next, range_is_empty. simpl. rewrite (proj2 (Z.ltb_ge _ _)); [done|].
      unfold s_len in Hlen; simpl in Hlen. lia. }
    simpl. destruct (IH q s i r (Some None) Hh) as (q' & r' & last' & Hn & Hh').
    rewrite Hdq in *. rewrite Hn. simpl.
    exists q', r', last'. by destruct (spec_take n []) as [l' xs].
  - destruct (iter_next_run rm q s i r x l Hrm Hh Hdq) as (q1 & Hrun & Hh1).
    assert (invoke q (Iter (mk_BufferIter i r) last) IterNext
              = Some (q1, Iter (mk_BufferIter i (Range (r_start r + 1) (r_end r)))
                            (Some (Some x)))) as ->.
    { eapply invoke_alone; [|exact Hrun|unfold FUEL; lia].
      simpl. unfold iter_next, range_is_empty. simpl. rewrite (proj2 (Z.ltb_lt _ _)); [done|].
      unfold s_len in Hlen; simpl in Hlen. lia. }
    simpl. destruct (IH q1 _ i _ (Some (Some x)) Hh1) as (q' & r' & last' & Hn & Hh').
    simpl in Hn, Hh'. rewrite Hn. simpl.
    exists q', r', last'. by destruct (spec_take n l) as [l' xs].
Qed.

Lemma use_slice_refines u : ∀ q s i r sl,
  held q s i r → use_ok u →
  ∃ q', use_slice q (Slice (mk_BufferSlice i r sl)) (obs <$> s_deq s) u
          = Some (q', (spec_use s (s_deq s) u).2) ∧
        repr q' (spec_use s (s_deq s) u).1.
Proof.
  induction u as [| |n|k x u IH]; intros q s i r sl Hh Hu; cbn [use_slice spec_use fst snd].
  - destruct (release_run _ _ _ _ Hh) as (q' & Hrun & Hr). exists q'. split; [|done].
    erewrite invoke_alone; [|done|exact Hrun|unfold FUEL; lia]. done.
  - destruct (requeue_run _ _ _ _ Hh) as (q' & Hrun & Hr). exists q'. split; [|done].
    erewrite invoke_alone; [|done|exact Hrun|unfold FUEL; lia]. done.
  - simpl in Hu. destruct remove as [rm|] eqn:Hrm; [|done].
    assert (invoke q (Slice (mk_BufferSlice i r sl)) SliceIntoIter
              = Some (q, Iter (mk_BufferIter i r) None)) as ->.
    { eapply invoke_alone with (fuel := 0%nat); [|by apply alone_end|lia].
      simpl. by rewrite Hrm. }
    simpl. destruct (take_next_refines rm n Hrm q s i r None Hh) as (q1 & r1 & last & -> & Hh1).
    simpl. destruct (requeue_run _ _ _ _ Hh1) as (q' & Hrun & Hr). exists q'.
    erewrite invoke_alone; [|done|exact Hrun|unfold FUEL; lia]. simpl.
    by destruct (spec_take n (s_deq s)).
  - destruct Hu as [Hops Hu]. rewrite length_fmap. destruct (Nat.ltb_spec k (length (s_deq s))) as [Hk|Hk].
    + destruct slice_mut as [ops|] eqn:Hsm; [|done].
      destruct (slice_assign_run ops q s i r sl k x Hsm Hh Hk) as (q1 & sl1 & Hrun & Hv & Hh1).
      pose proof Hh as (e & g & _ & _ & _ & _ & _ & _ & Hlen)%held_facts.
      erewrite invoke_alone; [|..|exact Hrun|unfold FUEL; lia].
      2: { simpl. rewrite Hsm. simpl. unfold slice_deref_mut. simpl.
           rewrite (proj2 (Z.leb_le _ _)), (proj2 (Z.ltb_lt _ _)); [done|..];
             unfold s_len in Hlen; lia. }
      cbn [bs_slice mbind option_bind]. rewrite Hv.
      destruct (IH q1 _ i r sl1 Hh1 Hu) as (q' & Hq' & Hr'). exists q'. simpl in Hq', Hr'.
      by split.
    + rewrite list_insert_ge by lia.
      assert (spec_consume s (s_deq s) = s) as -> by (by destruct s). by apply IH.
Qed.

Lemma run_op_refines q s o :
  repr q s → op_ok o →
  ∃ q', run_op q o = Some (q', (spec_op s o).2) ∧ repr q' (spec_op s o).1.
Proof.
  intros Hr Ho. destruct o as [v|rz u| |]; cbn [run_op spec_op op_ok fst snd] in Ho |- *.
  - destruct (try_enqueue_run q s v Hr Ho) as (q' & Hrun & Hr'). exists q'.
    erewrite invoke_alone; [|done|exact Hrun|done]. simpl.
    by destruct (spec_try_enqueue s v).
  - destruct Ho as [Hrz Hu]. destruct (try_dequeue_run q s rz Hr Hrz) as (q1 & p & evs & Hrun & Ha).
    assert (invoke q Idle (dequeue_call rz) = Some (q1, p)) as ->.
    { eapply invoke_alone with (evs := []); [|exact Hrun|done].
      destruct rz as [args|]; [|done]. simpl. by destruct (Hrz args eq_refl) as [_ ->]. }
    simpl. destruct (spec_dequeued s rz) as [s1 [l|e]]; simpl in Ha |- *.
    + destruct Ha as ([i r sl] & -> & Hh & <- & ->). by apply use_slice_refines.
    + destruct Ha as [-> Hr1]. eauto.
  - destruct (close_run q s Hr) as (q' & Hrun & Hr'). exists q'. split; [|done].
    erewrite invoke_alone; [|done|exact Hrun|unfold FUEL; lia]. done.
  - destruct (reopen_run q s Hr) as (q' & Hrun & Hr'). exists q'. split; [|done].
    erewrite invoke_alone; [|done|exact Hrun|unfold FUEL; lia]. done.
Qed.

(** A new queue is empty. *)
Definition spec_new (cap : Z) : squeue (E := E) := mk_squeue [] [] cap cap false.

Lemma repr_new b0 b1 c w :
  Rep b0 ∅ → Rep b1 ∅ → capacity b0 = c → capacity b1 = c → c < MAX_REMAINING →
  w = enc false 0 c →
  repr (mk_Queue w (DequeuingLength.new 1 0) (b0, b1) (0, 0) c) (spec_new c).
Proof.
  intros HR0 HR1 Hc0 Hc1 Hlt ->.
  assert (buf_inv b0 0 g_fresh) by (apply buf_inv_fresh; [done|lia]).
  assert (buf_inv b1 0 g_fresh) by (apply buf_inv_fresh; [done|lia]).
  exists 0, (g_fresh, g_fresh). split; [|done].
  split; try done; try (by apply empty_all_done).
  unfold enq_side. split_and!; try done. simpl.
  change (sel 0 (b0, b1)) with b0. by rewrite Hc0, Z.sub_0_r.
Qed.

Lemma run_ops_sim q s os :
  repr q s → Forall op_ok os →
  ∃ q', run_ops q os = Some (q', (spec_ops s os).2) ∧ repr q' (spec_ops s os).1.
Proof.
  intros Hr Hos. revert q s Hr.
  induction Hos as [|o os Ho _ IH]; intros q s Hr; simpl; [by exists q|].
  destruct (run_op_refines q s o Hr Ho) as (q1 & -> & Hr1). simpl.
  destruct (spec_op s o) as [s1 r]. destruct (IH q1 s1 Hr1) as (q2 & -> & Hr2).
  exists q2. simpl in *. by destruct (spec_ops s1 os).
Qed.

Lemma with_capacity_repr rs c :
  resize = Some rs → 0 ≤ c < shr usize_MAX 2 →
  ∃ q, queue_with_capacity rs c = Ret q ∧ repr q (spec_new c).
Proof.
  intros Hrs Hc. unfold queue_with_capacity, EnqueuingCapacity.check_overflow.
  rewrite (proj2 (Z.ltb_lt _ _)) by lia. simpl.
  change (shr usize_MAX 2) with 4611686018427387903 in Hc.
  destruct (resize_spec rs buf_default c Hrs rep_default) as [HR Hcap]; [lia|].
  rewrite new_enc by (unfold MAX_REMAINING; lia). simpl. eexists; split; [done|].
  apply repr_new; try done. unfold MAX_REMAINING. lia.
Qed.

(** C3: the queue refines its specification. From a new queue, whatever the
    sequence of calls of one client (enqueuing, dequeuing with or without
    resizing, dropping, requeuing or draining the slices, closing and
    reopening), each call returns, and answers what the specification
    answers. *)
Theorem run_ops_refines rs c os :
  resize = Some rs → 0 ≤ c < shr usize_MAX 2 → Forall op_ok os →
  ∃ q q', queue_with_capacity rs c = Ret q ∧
    run_ops q os = Some (q', (spec_ops (spec_new c) os).2) ∧
    repr q' (spec_ops (spec_new c) os).1.
Proof.
  intros Hrs Hc Hos. destruct (with_capacity_repr rs c Hrs Hc) as (q & Hq & Hr).
  destruct (run_ops_sim q _ os Hr Hos) as (q' & Hrun & Hr'). by exists q, q'.
Qed.

(** [with_capacity c] gives an open empty queue of capacity [c], when
    [c] passes [check_overflow], and panics otherwise. *)
Theorem with_capacity_refines rs c :
  resize = Some rs → 0 ≤ c →
  if c <? shr usize_MAX 2
  then ∃ q, queue_with_capacity rs c = Ret q ∧ repr q (spec_new c) ∧ queue_len q q = 0
  else queue_with_capacity rs c = Panic.
Proof.
  intros Hrs Hc. destruct (Z.ltb_spec c (shr usize_MAX 2)) as [Hlt|Hge].
  - destruct (with_capacity_repr rs c Hrs ltac:(lia)) as (q & Hq & Hr).
    exists q. split; [done|]. split; [done|]. destruct Hr as (e & g & HR & _).
    unfold queue_len, queue_capacity, saturating_sub. rewrite (rp_word _ _ _ _ HR), (rp_q_capacity _ _ _ _ HR).
    destruct (rp_bounds _ _ _ _ HR) as (He & _ & _ & _ & Hl & _ & Hm & _).
    rewrite remaining_capacity_enc by lia. simpl. change (s_len []) with 0. lia.
  - unfold queue_with_capacity, EnqueuingCapacity.check_overflow.
    by rewrite (proj2 (Z.ltb_ge _ _)).
Qed.

(** ** From concurrent executions to the specification *)
(** between calls, a queue used by any number of threads is a
    specification state: what it holds is what was enqueued and not consumed,
    in order, and the requeued part comes first. *)
Theorem quiescent_repr strict n tr c :
  run strict n tr c →
  (∀ t p, threads c !! t = Some p → ready p = true) →
  ∃ s, repr (queue c) s ∧
       obs <$> enqueued tr = dequeued tr ++ (obs <$> s_deq s ++ s_enq s).
Proof.
  intros (e & cl & g & held & HI)%run_inv Hready.
  pose proof (inv_word _ _ _ _ _ _ _ _ HI) as (He & _).
  pose proof HI as (Henq & Hths & Hlock & Hh).
  destruct Hlock as [(_ & Hw & Hheld & Hb & Hcap)|(t & p & _ & Ht & Hp & _)];
    [|specialize (Hready _ _ Ht); by destruct p].
  assert (∀ i, 0 ≤ i ≤ 1 → all_done (sel i g)) as Hall.
  { intros i Hi j Hj. destruct (decide (j ∈ g_done (sel i g))) as [|Hnd]; [done|exfalso].
    destruct (ti_cover _ _ _ _ Hths i j Hi) as (t & p & Ht & pd & Hpd & Hbuf & _);
      [by split|].
    specialize (Hready _ _ Ht). by destruct p. }
  exists (mk_squeue (g_log (sel e g)) held (capacity (sel e (buffers (queue c))))
            (capacity (sel (1 - e) (buffers (queue c)))) cl).
  split; [|exact Hh]. exists e, g. split; [|exact Hw].
  split; simpl; try done; try (by apply Hall; lia).
Qed.

(** ** [Drop] *)
(** [Drop for Queue]: dequeue without notification or resizing; the slice,
    if any, is dropped. *)
Definition queue_drop q : option (Queue B) :=
  '(q, p) ← invoke q Idle TryDequeue;
  match p with
  | Slice _ => '(q, _) ← invoke q p SliceDrop; Some q
  | _ => Some q
  end.

(** C39: what [Drop] releases. One buffer is cleared; the elements of the other
    one, if the queue has elements in both, are not dropped. *)
Theorem drop_releases_one_buffer q s :
  repr q s →
  ∃ q' s', queue_drop q = Some q' ∧ repr q' s' ∧
    s_deq s' = [] ∧ s_enq s' = match s_deq s with [] => [] | _ => s_enq s end.
Proof.
  intros Hr. destruct (run_op_refines q s (OpDequeue None Consume) Hr) as (q' & Hrun & Hr').
  { by split. }
  exists q', (spec_op s (OpDequeue None Consume)).1.
  split; [|split; [exact Hr'|]].
  - unfold run_op in Hrun. unfold queue_drop. change (dequeue_call None) with (TryDequeue (V := V) (E := E)) in Hrun.
    destruct (invoke q Idle TryDequeue) as [[q1 p]|]; [|done]. cbn in Hrun |- *.
    destruct p; try done; [by simplify_eq|]. unfold use_slice in Hrun.
    destruct (invoke q1 _ SliceDrop) as [[q2 ?]|]; [|done]. cbn in Hrun |- *. by simplify_eq.
  - cbn [spec_op]. unfold spec_dequeued, plan_cap, plan_elems. simpl. rewrite Z.eqb_refl.
    destruct (s_deq s) eqn:Hd, (s_enq s) eqn:He; simpl; rewrite ?Hd, ?He; done.
Qed.
End QueueSpec.

(** ** A client at work *)
Lemma vec_queue_repr : repr (B := buf) (vec_queue 4) (spec_new 4).
Proof. apply (repr_new (B := buf)); try done; apply cells_rep_empty. Qed.

Definition client : list (op (V := val) (E := nat)) := [
  OpEnqueue (VArray [1; 2]%nat);
  OpEnqueue (VArray [3; 4; 5]%nat);                  (* does not fit *)
  OpDequeue None (Take 1);                           (* takes 1, requeues 2 *)
  OpEnqueue (VIter (into_value_iter [6; 7]%nat));
  OpDequeue None Keep;
  OpDequeue None Consume;                            (* what was requeued *)
  OpDequeue None (Take 3);
  OpDequeue None Consume;
  OpDequeue (Some (mk_resize_args (Some 8) (Some [VArray [8; 9]%nat])))
    (Assign 1 7%nat (Assign 5 3%nat Keep));          (* slice[1] = 7; slice[5]: none *)
  OpDequeue None Consume;
  OpEnqueue (VArray [1; 2; 3; 4; 5]%nat);            (* the other buffer: does not fit *)
  OpClose; OpEnqueue (VArray [1]%nat); OpDequeue None Consume; OpReopen;
  OpEnqueue (VArray []%nat)].

Definition client_responses : list (response (V := val) (Ob := nat)) := [
  REnqueue (Ok tt);
  REnqueue (Err (TryEnqueueError.InsufficientCapacity (VArray [3; 4; 5]%nat)));
  RItems [Some 1%nat];
  REnqueue (Ok tt);
  RSlice [2%nat]; RSlice [2%nat];
  RItems [Some 6%nat; Some 7%nat; None];
  RError TryDequeueError.Empty;
  RSlice [8; 7]%nat; RSlice [8; 7]%nat;
  REnqueue (Err (TryEnqueueError.InsufficientCapacity (VArray [1; 2; 3; 4; 5]%nat)));
  RUnit;
  REnqueue (Err (TryEnqueueError.Closed (VArray [1]%nat)));
  RError TryDequeueError.Closed;
  RUnit; REnqueue (Ok tt)].

Lemma client_resize_ok :
  rz_ok (B := buf) true (Some (mk_resize_args (Some 8) (Some [VArray [8; 9]%nat]))).
Proof.
  intros args [= <-]. split; [|done]. split_and!.
  - intros c [= <-]. lia.
  - repeat constructor.
  - intros _. split; [by intros c [= <-]|].
    intros vs [= <-]. right. exists 8. split; [done|]. vm_compute. discriminate.
Qed.

Lemma run_ops_refines_witness :
  ∃ q q', queue_with_capacity (B := buf) VecBuffer.resize 4 = Ret q ∧
    run_ops (B := buf) q client = Some (q', client_responses) ∧
    repr q' (spec_ops (B := buf) (spec_new 4) client).1.
Proof.
  refine (run_ops_refines (B := buf) VecBuffer.resize 4 client eq_refl ltac:(done) _).
  repeat (apply Forall_cons; split); try (split; [apply client_resize_ok|done]);
    try apply Forall_nil; repeat split; done.
Defined.

Lemma with_capacity_refines_witness :
  ∃ q, queue_with_capacity (B := buf) VecBuffer.resize 4 = Ret q ∧
       repr q (spec_new 4) ∧ queue_len q q = 0.
Proof.
  exact (with_capacity_refines (B := buf) VecBuffer.resize 4 eq_refl ltac:(lia)).
Defined.

Lemma quiescent_repr_witness :
  ∃ s, repr (queue (scenario 4 3 sched_released).1) s ∧
       [1; 2; 3; 4]%nat = [1; 2; 3]%nat ++ (id <$> s_deq s ++ s_enq s).
Proof. refine (quiescent_repr true 3 _ _ run_released _). all_threads. Defined.

(** A queue with a requeued slice and another buffer in use: [Drop] leaves the
    second one. *)
Definition requeued_client : list (op (V := val) (E := nat)) := [
  OpEnqueue (VArray [1; 2]%nat); OpDequeue None Keep; OpEnqueue (VArray [3]%nat)].

Lemma requeued_queue_repr :
  ∃ q, run_ops (B := buf) (vec_queue 4) requeued_client = Some (q, [
         REnqueue (Ok tt); RSlice [1; 2]%nat; REnqueue (Ok tt)]) ∧
       repr q (mk_squeue [3]%nat [1; 2]%nat 4 4 false).
Proof.
  apply (run_ops_sim (B := buf) (vec_queue 4) (spec_new 4) requeued_client vec_queue_repr).
  repeat (apply Forall_cons; split); try apply Forall_nil; repeat split; done.
Qed.

Lemma drop_releases_one_buffer_witness :
  ∃ q q' s', repr (B := buf) q (mk_squeue [3]%nat [1; 2]%nat 4 4 false) ∧
    queue_drop q = Some q' ∧ repr q' s' ∧ s_deq s' = [] ∧ s_enq s' = [3]%nat.
Proof.
  destruct requeued_queue_repr as (q & _ & Hr).
  destruct (drop_releases_one_buffer (B := buf) q _ Hr) as (q' & s' & H).
  exists q, q', s'. split; [exact Hr|exact H].
Defined.
