(* ===== verification/Limits.v ===== *)
(** * Where the contracts end

    What the code does outside the conditions of the other theorems: sizes that
    [size << 1] cannot represent, resizing calls whose values do not fit, and
    iterators whose [len] is wrong. *)

From S2P Require Import Prelude PackedWords Errors Buffers CellBuffers Queue Machine Scenario.
From S2P Require Import Invariant GhostLemmas ResizeLoop StepInvariant Concurrent Linearize.
From S2P Require AtomicQueue.
#[local] Open Scope Z_scope.

(** ** A panicked resizing call *)
Section Panicked.
Context {B S V E Ob : Type}.
Context `{L : BufferLaws B S V E Ob}.

Lemma act_panicked (c c' : config B S V E) t t' a evs :
  act c t' a = Some (c', evs) → threads c !! t = Some Panicked →
  threads c' !! t = Some Panicked.
Proof.
  unfold act. intros (p & Hp & Ha)%bind_Some Ht.
  destruct (decide (t = t')) as [<-|Hne].
  - assert (p = Panicked) as -> by congruence. by destruct a as [[]|].
  - destruct a.
    + apply bind_Some in Ha as ([p' evs'] & _ & [= <- _]). simpl.
      unfold set_thread. by rewrite lookup_insert_ne.
    + apply bind_Some in Ha as ([[[q' p'] evs']| |] & _ & [= <- _]); simpl;
        unfold set_thread; by rewrite lookup_insert_ne.
Qed.

(** C37: a panic while dequeuing is for ever: nothing releases the dequeuing
    word, so whatever happens later, every dequeue answers [Conflict]. *)
Theorem panicked_dequeue_blocks strict n tr (c : config B S V E) tr' c' t rz :
  run strict n tr c → threads c !! t = Some Panicked →
  execution (action_ok strict) c tr' c' →
  deq_start (queue c') rz = Ret (queue c', DeqErr TryDequeueError.Conflict : pc S V E, []).
Proof.
  intros (q0 & Hq & Hex) Ht Hex'.
  assert (run strict n (tr ++ tr') c') as Hrun.
  { exists q0. split; [done|]. by eapply execution_app. }
  assert (threads c' !! t = Some Panicked) as Ht'.
  { clear Hrun. induction Hex' as [|? ? ? ? ? ? _ IH _ Ha]; [done|].
    by eapply act_panicked. }
  apply run_inv in Hrun as (e & cl & g & held & HI).
  assert (dequeuing_length (queue c') = DEQUEUING_LOCKED) as Hl.
  { apply (inv_lock_word _ _ _ _ _ _ _ _ HI). by exists t, Panicked. }
  unfold deq_start, DequeuingLength.try_from_atomic. rewrite Hl. simpl.
  do 3 f_equal. rewrite <- Hl. by destruct (queue c').
Qed.
(** ** A resizing call whose values overrun the capacity *)
(** It is past the loop that inserts, before the subtraction that panics. *)
Definition overrunning (p : pc S V E) : Prop :=
  match p with
  | DeqAddInserted d | DeqLoad d | DeqCheck d _ => 0 ≤ dl_next_capa d < dl_inserted d
  | Panicked => True
  | _ => False
  end.

Definition steps_left (p : pc S V E) : nat :=
  match p with DeqAddInserted _ => 3 | DeqLoad _ => 2 | DeqCheck _ _ => 1 | _ => 0 end.

Lemma step_overrunning sp (q : Queue B) p o :
  overrunning p → step sp q p = Some o →
  overrunning (pc_after o) ∧ (steps_left (pc_after o) < steps_left p)%nat.
Proof.
  destruct p; simpl; try done; intros Hp [= <-].
  - split; [done|]. simpl. lia.
  - unfold deq_load, assert. destruct (negb _); simpl; [split; [done|lia]|split; [done|lia]].
  - unfold deq_check. rewrite (proj2 (Z.eqb_neq (dl_inserted d) 0)) by lia.
    rewrite andb_false_r. unfold usize_sub.
    rewrite (proj2 (Z.leb_gt _ _)) by lia. simpl. split; [done|lia].
Qed.

Lemma act_overrunning (c c' : config B S V E) t t' a evs p :
  act c t' a = Some (c', evs) → threads c !! t = Some p → overrunning p →
  ∃ p', threads c' !! t = Some p' ∧ overrunning p'.
Proof.
  unfold act. intros (p0 & Hp0 & Ha)%bind_Some Ht Hp.
  destruct (decide (t = t')) as [<-|Hne].
  - assert (p0 = p) as -> by congruence. destruct a as [m|sp].
    + apply bind_Some in Ha as ([p' evs'] & Hs & _). destruct p; try done; by destruct m.
    + apply bind_Some in Ha as (o & Hs & Hc). apply (inj Some) in Hc.
      destruct (step_overrunning _ _ _ _ Hp Hs) as [Ho _]. exists (pc_after o). split; [|done].
      destruct o as [[[q' p'] evs']| |]; injection Hc as <- _; apply lookup_insert_eq.
  - exists p. split; [|done]. destruct a.
    + apply bind_Some in Ha as ([p' evs'] & _ & [= <- _]). simpl.
      unfold set_thread. by rewrite lookup_insert_ne.
    + apply bind_Some in Ha as ([[[q' p'] evs']| |] & _ & [= <- _]); simpl;
        unfold set_thread; by rewrite lookup_insert_ne.
Qed.

Lemma overrunning_panics t k : ∀ (c : config B S V E) p,
  threads c !! t = Some p → overrunning p → steps_left p = k →
  ∃ j c' evs, (j ≤ k)%nat ∧ exec c (replicate j (t, Run false)) = Some (c', evs) ∧
    threads c' !! t = Some Panicked.
Proof.
  induction k as [k IH] using lt_wf_ind. intros c p Ht Hp Hk.
  destruct (step false (queue c) p) as [o|] eqn:Hs.
  - destruct (step_overrunning _ _ _ _ Hp Hs) as [Ho Hlt].
    assert (∃ c1 evs1, act c t (Run false) = Some (c1, evs1) ∧ threads c1 !! t = Some (pc_after o))
      as (c1 & evs1 & Hact & Ht1).
    { unfold act. rewrite Ht. simpl. rewrite Hs. simpl.
      destruct o as [[[q' p'] evs']| |]; eexists _, _; (split; [done|apply lookup_insert_eq]). }
    destruct (IH (steps_left (pc_after o)) ltac:(lia) c1 _ Ht1 Ho eq_refl)
      as (j & c' & evs & Hj & Hex & Hend).
    exists (Datatypes.S j), c', (evs1 ++ evs). split; [lia|]. simpl. by rewrite Hact; simpl; rewrite Hex.
  - exists 0%nat, c, []. split; [lia|]. split; [done|]. by destruct p.
Qed.

(** The step that resizes and inserts. *)
Lemma resize_overruns strict n tr (c : config B S V E) t w args sp o :
  run strict n tr c → threads c !! t = Some (DeqResize w (Some args)) →
  let cap := plan_cap (Some args)
               (capacity (sel (DequeuingLength.buffer_index w) (buffers (queue c)))) in
  cap < sizes (inserted_values (B := B) cap (default [] (ra_insert args))) →
  step sp (queue c) (DeqResize w (Some args)) = Some o → overrunning (pc_after o).
Proof.
  intros (e & cl & g & held & HI)%run_inv Ht cap Hover [= <-].
  pose proof (pc_ok_t _ _ _ _ _ _ _ _ _ HI _ Ht) as Hok. simpl in Hok.
  destruct (holder_facts _ _ _ _ _ _ _ _ _ HI _ Ht eq_refl) as (_ & Hb & _ & Hinv & _).
  specialize (Hb eq_refl). destruct Hinv as (_ & -> & Hl).
  pose proof (d_bound _ _ _ _ _ _ _ _ HI) as Hd.
  assert (DequeuingLength.buffer_index (deq_enc (1 - e) 0) = 1 - e) as Hi
    by (rewrite deq_buffer_index_enc; done || reflexivity).
  unfold cap in Hover. rewrite Hi in Hover. unfold deq_resize. rewrite Hi.
  pose proof (bi_rep _ _ _ Hb) as HR.
  destruct (empty_gd e g _ _ Hb Hl) as [Hlen Hdr].
  rewrite (bi_empty_cont _ _ _ Hb) in HR by lia.
  pose proof (apply_resize_spec strict (Some args) _ HR (bi_cap _ _ _ Hb) Hok) as Hspec.
  destruct (apply_resize (Some args) (sel (1 - e) (buffers (queue c)))) as [[[b' rz] m]| |] eqn:Hr;
    simpl; [|done|done].
  split; [apply capacity_nonneg|].
  by eapply apply_resize_overruns; [exact HR|exact (bi_cap _ _ _ Hb)|exact Hok|exact Hover|].
Qed.

(** C36: [try_dequeue_and_resize] compares each value with the whole capacity, not with what
    remains of it: when the values that its loop inserts overrun the capacity together, the
    call does not stop at what fits. Whatever the other threads do, it never
    returns: at any later point, three steps of its own at most and it has
    panicked. *)
Theorem resize_overrun_panics strict n tr (c : config B S V E) t w args sp c1 evs1 tr' c' :
  run strict n tr c → threads c !! t = Some (DeqResize w (Some args)) →
  let cap := plan_cap (Some args)
               (capacity (sel (DequeuingLength.buffer_index w) (buffers (queue c)))) in
  cap < sizes (inserted_values (B := B) cap (default [] (ra_insert args))) →
  act c t (Run sp) = Some (c1, evs1) → execution (action_ok strict) c1 tr' c' →
  ∃ k c2 evs, (k ≤ 3)%nat ∧ exec c' (replicate k (t, Run false)) = Some (c2, evs) ∧
    threads c2 !! t = Some Panicked.
Proof.
  intros Hrun Ht cap Hover Hact Hex.
  assert (∃ p, threads c1 !! t = Some p ∧ overrunning p) as Hp1.
  { unfold act in Hact. rewrite Ht in Hact. simpl in Hact. apply (inj Some) in Hact. rename Hact into Hc.
    pose proof (resize_overruns _ _ _ _ _ _ _ sp _ Hrun Ht Hover eq_refl) as Ho.
    eexists. split; [|exact Ho]. revert Hc. simpl.
    destruct (deq_resize _ _ _) as [[[q' p'] evs']| |]; intros [= <-]; apply lookup_insert_eq. }
  assert (∃ p, threads c' !! t = Some p ∧ overrunning p) as (p & Htp & Hp).
  { induction Hex as [|tr1 c2 t' a c3 evs Hex IH _ Ha]; [done|].
    destruct IH as (p & Htp & Hp). by eapply act_overrunning. }
  destruct (overrunning_panics t _ c' p Htp Hp eq_refl) as (k & c2 & evs & Hk & Hx & Hend).
  exists k, c2, evs. split; [|done]. etrans; [exact Hk|]. destruct p; simpl; lia.
Qed.
End Panicked.

(** Two values of two elements, for a buffer of three: thread 0 is about to insert them. *)
Definition overrun_args : resize_args val :=
  mk_resize_args (Some 3) (Some [VArray [1; 2]; VArray [3; 4]]%nat).
Definition sched_inserting : list (nat * action val nat) :=
  [(0%nat, Call (TryDequeueAndResize overrun_args))] ++ runs 0 2.
Definition sched_overrun : list (nat * action val nat) := sched_inserting ++ runs 0 1.

Lemma run_overrun sched :
  is_some (exec (vec_initial 4 1) sched) = true →
  sched = sched_inserting ∨ sched = sched_overrun →
  run (B := buf) false 1 (scenario 4 1 sched).2 (scenario 4 1 sched).1.
Proof.
  intros Hex Hs. apply scenario_run; [lia|done|].
  destruct Hs as [->| ->]; repeat (apply Forall_cons; split); try apply Forall_nil; try done;
    split_and!; try done; try (by intros c [= <-]); repeat constructor.
Qed.

Lemma resize_overrun_panics_witness :
  ∃ k c2 evs, (k ≤ 3)%nat ∧
    exec (scenario 4 1 sched_overrun).1 (replicate k (0%nat, Run false)) = Some (c2, evs) ∧
    threads c2 !! 0%nat = Some Panicked.
Proof.
  refine (resize_overrun_panics (B := buf) false 1 (scenario 4 1 sched_inserting).2
    (scenario 4 1 sched_inserting).1 0%nat (DequeuingLength.new 1 0) overrun_args false _ [] []
    (scenario 4 1 sched_overrun).1 _ _ _ _ _).
  - apply run_overrun; [vm_compute; reflexivity|by left].
  - vm_compute. reflexivity.
  - vm_compute. reflexivity.
  - vm_compute. reflexivity.
  - apply execution_nil.
Defined.

Lemma panicked_dequeue_blocks_witness :
  deq_start (queue (scenario 4 1 sched_overrun).1) None
    = Ret (queue (scenario 4 1 sched_overrun).1,
           DeqErr TryDequeueError.Conflict : pc (list nat) val nat, []).
Proof.
  refine (panicked_dequeue_blocks (B := buf) false 1 _ (scenario 4 1 sched_overrun).1 []
            _ 0%nat None _ _ _).
  - apply run_overrun; [vm_compute; reflexivity|by right].
  - vm_compute. reflexivity.
  - apply execution_nil.
Defined.

(** ** Iterators whose [len] is wrong *)
Definition sched_short_iterator : list (nat * action val nat) :=
  [(0%nat, Call (TryEnqueue (VIter (mk_ValueIter 2 1 [7]%nat))))] ++ runs 0 5 ++
  [(0%nat, Call TryDequeue)] ++ runs 0 12.

(** [ValueIter] trusts [ExactSizeIterator::len], which safe code can
    implement wrongly. An iterator that answers 2 when the size is reserved and
    1 when the values are inserted leaves a reserved slot uninitialised, and
    the dequeuer reads it. *)
Theorem wrong_len_is_undefined :
  ∃ c tr, exec (vec_initial 4 1) sched_short_iterator = Some (c, tr) ∧
          threads c !! 0%nat = Some Undefined.
Proof. eexists _, _. split; vm_compute; reflexivity. Qed.

Definition sched_long_iterator : list (nat * action val nat) :=
  [(0%nat, Call (TryEnqueue (VIter (mk_ValueIter 1 2 [7; 8]%nat))))] ++ runs 0 2 ++
  [(1%nat, Call (TryEnqueue (VArray [9]%nat)))] ++ runs 1 5 ++ runs 0 3 ++
  [(1%nat, Call TryDequeue)] ++ runs 1 12.

(** one that answers 1 and then 2 writes over the slot of the next
    reservation: its owner's value [9] is delivered as [8]. *)
Theorem wrong_len_overwrites :
  ∃ c tr bs, exec (vec_initial 4 2) sched_long_iterator = Some (c, tr) ∧
    threads c !! 1%nat = Some (Slice bs) ∧ bs_slice bs = [7; 8]%nat.
Proof. eexists _, _, _. split_and!; vm_compute; reflexivity. Qed.

(** ** Sizes that [size << 1] cannot represent *)
(** [try_reserve] computes [size << 1], which drops the top bit of [size]. A
    size of [2^63 + n] reserves [n] slots only; [2^63] itself is accepted by
    any open queue, full or not, and reserves nothing. *)
Theorem try_reserve_wraps w n :
  0 ≤ n < 9223372036854775808 →
  EnqueuingCapacity.try_reserve w (9223372036854775808 + n)
    = EnqueuingCapacity.try_reserve w n.
Proof.
  intros Hn. unfold EnqueuingCapacity.try_reserve. f_equal.
  unfold shl. rewrite !Z.shiftl_mul_pow2 by lia. unfold wrap, USIZE_MODULUS.
  replace ((9223372036854775808 + n) * 2 ^ 1) with (n * 2 ^ 1 + 1 * 18446744073709551616) by lia.
  apply Z_mod_plus_full.
Qed.

Lemma try_reserve_wraps_witness :
  EnqueuingCapacity.try_reserve (enc false 0 0) (9223372036854775808 + 0)
    = EnqueuingCapacity.try_reserve (enc false 0 0) 0.
Proof. apply (try_reserve_wraps (enc false 0 0) 0). lia. Defined.

(** ** [capacity] and [len] during a resizing call *)
(** A dequeuing call shrinks the buffers from 4 to 2, or grows them to 8 and inserts
    two values, and stops before its store to [capacity]. *)
Definition sched_resizing (args : resize_args val) : list (nat * action val nat) :=
  [(0%nat, Call (TryDequeueAndResize args))] ++ runs 0 8.
Definition shrinking : resize_args val := mk_resize_args (Some 2) None.
Definition growing : resize_args val := mk_resize_args (Some 8) (Some [VArray [1; 2]%nat]).

Definition resizing (args : resize_args val) : vconfig * list vevent :=
  scenario 4 2 (sched_resizing args).
Definition resizing_abs (args : resize_args val) : AtomicQueue.aqueue nat :=
  abs (queue (resizing args).1) (hist_of (resizing args).2).

(** between the exchange of the buffers and the store to [capacity] of a resizing
    call, [capacity] is that of the buffer that was dequeued, and [len] is wrong either
    way: 2 for an empty buffer of 2 slots, 0 for a buffer of 8 with two elements. *)
Theorem len_while_resizing :
  AtomicQueue.a_capacity (resizing_abs shrinking) = 2 ∧
  AtomicQueue.a_enq (resizing_abs shrinking) = [] ∧
  queue_capacity (queue (resizing shrinking).1) = 4 ∧
  queue_len (queue (resizing shrinking).1) (queue (resizing shrinking).1) = 2 ∧
  AtomicQueue.a_capacity (resizing_abs growing) = 8 ∧
  AtomicQueue.a_enq (resizing_abs growing) = [1; 2]%nat ∧
  queue_capacity (queue (resizing growing).1) = 4 ∧
  queue_is_empty (queue (resizing growing).1) (queue (resizing growing).1) = true.
Proof. by vm_compute. Qed.

(** [len] loads the word before such a call and [capacity] after it: the queue has four slots,
    and then eight, it is empty all along, and [len] answers 4. *)
Definition growing_empty : resize_args val := mk_resize_args (Some 8) None.
Definition sched_grown : list (nat * action val nat) :=
  [(0%nat, Call (TryDequeueAndResize growing_empty))] ++ runs 0 12.

Theorem len_across_resizing :
  threads (scenario 4 2 sched_grown).1 !! 0%nat = Some (DeqErr TryDequeueError.Empty) ∧
  enqueued (scenario 4 2 sched_grown).2 = [] ∧
  queue_capacity (queue (scenario 4 2 sched_grown).1) = 8 ∧
  queue_len (queue (vec_initial 4 2)) (queue (scenario 4 2 sched_grown).1) = 4 ∧
  queue_is_empty (queue (vec_initial 4 2)) (queue (scenario 4 2 sched_grown).1) = false.
Proof. by vm_compute. Qed.
