(* ===== verification/BufferQueues.v ===== *)
(** * Queues of the other buffers

    The theorems about the queue apply to any buffer that satisfies
    [BufferLaws]; here to byte buffers and vectored buffers: the examples of
    the documentation of [src/src/write.rs] and [src/src/write_vectored.rs], and
    what the queue shows of the counter of vectored buffers. *)

From S2P Require Import Prelude PackedWords Errors Buffers CellBuffers WriteBuffers.
From S2P Require Import VectoredBuffers Queue Machine Invariant Sequential QueueSpec.
#[local] Open Scope Z_scope.

(** Enqueue [v], dequeue and look at the slice, and drop it. *)
Definition round {B S V E} `{Buffer B S, InsertIntoBuffer B V, Resize B, Drain B E, SliceMut B S E}
    (q : Queue B) (v : V) : option (Queue B * S) :=
  '(q, _) ← invoke q (Idle : pc S V E) (TryEnqueue v);
  '(q, p) ← invoke q (Idle : pc S V E) TryDequeue;
  match p with
  | Slice bs => '(q, _) ← invoke q p SliceDrop; Some (q, bs_slice bs)
  | _ => None
  end.

Definition queue_of {B} (o : outcome (Queue B)) (dflt : Queue B) : Queue B :=
  match o with Ret q => q | _ => dflt end.

(** ** Byte buffers *)
Definition write_queue : Queue (WriteVecBuffer.t 2 4) :=
  queue_of (queue_with_capacity WriteVecBuffer.resize 42)
    (mk_Queue 0 0 (WriteVecBuffer.default, WriteVecBuffer.default) (0, 0) 0).

(** The example of [BytesSlice]: four bytes between a header and a trailer. *)
Example write_queue_frame :
  match round (E := Z) write_queue (Bytes [2; 3; 4; 5]) with
  | Some (_, s) =>
      BytesSlice.deref s = Ret [2; 3; 4; 5] ∧
      (let! fr := copy_from_slice (BytesSlice.frame s) (Range 0 2) [0; 1] in
       let! r := BytesSlice.trailer_range s in
       copy_from_slice fr r [6; 7; 8; 9]) = Ret [0; 1; 2; 3; 4; 5; 6; 7; 8; 9]
  | None => False
  end.
Proof. vm_compute. split; reflexivity. Qed.

(** ** Vectored buffers *)
Abbreviation vectored := (WriteVectoredVecBuffer.t (list Z)).

Definition vectored_queue : Queue vectored :=
  queue_of (queue_with_capacity WriteVectoredVecBuffer.resize 4)
    (mk_Queue 0 0 (WriteVectoredVecBuffer.default, WriteVectoredVecBuffer.default) (0, 0) 0).

(** The total size of the slice of a round. *)
Definition round_total (q : Queue vectored) (xs : list (list Z)) : option (Queue vectored * Z) :=
  '(q, s) ← round (E := list Z) q (VArray xs); Some (q, VectoredSlice.total_size s).

(** the drift, seen from the queue. Three values of 3, 5 and 2 bytes are
    enqueued and dequeued one after the other. The third one goes through the
    buffer of the first, whose counter was left at -3: its slice reports
    [2^64 - 1] bytes instead of 2. *)
Theorem vectored_total_size_drifts :
  (let! (q, t1) := match round_total vectored_queue [[1; 2; 3]] with Some r => Ret r | None => UB end in
   let! (q, t2) := match round_total q [[1; 2; 3; 4; 5]] with Some r => Ret r | None => UB end in
   let! (_, t3) := match round_total q [[1; 2]] with Some r => Ret r | None => UB end in
   Ret (t1, t2, t3)) = Ret (3, 5, usize_MAX).
Proof. vm_compute. reflexivity. Qed.
