(* ===== verification/Waker.v ===== *)
(** * Wakers ([src/src/synchronized/waker.rs])

    A task waker or the handle of a thread. The task wakers come from the
    executor: their type, and whether two of them wake the same task, are
    parameters. *)

From S2P Require Import Prelude.

Section Waker.
(** [task::Waker] *)
Context {TW : Type}.
(** [task::Waker::will_wake] *)
Variable task_will_wake : TW → TW → bool.

Inductive Waker : Type :=
  | Async (w : TW)
  | Sync (thread : nat).

(** What waking does outside: [task::Waker::wake] or [Thread::unpark]. *)
Inductive effect : Type :=
  | WakeTask (w : TW)
  | Unpark (thread : nat).

(** [cx]: the waker of the context, in an async call; [current]: the thread. *)
Definition waker_new (cx : option TW) (current : nat) : Waker :=
  match cx with
  | Some w => Async w
  | None => Sync current
  end.

Definition waker_will_wake (self : Waker) (cx : option TW) : bool :=
  match self, cx with
  | Async w, Some w' => task_will_wake w w'
  | _, _ => false
  end.

Definition waker_wake (self : Waker) : effect :=
  match self with
  | Async w => WakeTask w
  | Sync t => Unpark t
  end.

(** The caller itself, when it is woken without having been stored. *)
Definition wake_caller (cx : option TW) (current : nat) : effect :=
  match cx with
  | Some w => WakeTask w
  | None => Unpark current
  end.

Lemma wake_caller_new cx current : wake_caller cx current = waker_wake (waker_new cx current).
Proof. by destruct cx. Qed.
End Waker.
Arguments Waker : clear implicits.
Arguments effect : clear implicits.
