(* ===== verification/Interleave.v ===== *)
(** * Interleavings of small state machines

    A shared state, a point per thread, and a step function that is one atomic
    operation: [runs] is any interleaving of the threads, with the events
    emitted. [exec] follows a schedule, for concrete runs. Used for the two wakers
    of [src/src/synchronized]; the queue has its own machine in [Machine]. *)

From S2P Require Import Prelude.

Section Interleave.
Context {St P Ev : Type}.
(** One step of a thread; [None]: at rest, or blocked. *)
Variable step : St → P → option (St * P * list Ev).
(** Calls: a thread at rest at [p] may start at [p']. *)
Variable call : P → P → Prop.

Definition state : Type := St * gmap nat P.

Inductive move : state → list Ev → state → Prop :=
  | move_call s ths t p p' :
      ths !! t = Some p → call p p' → move (s, ths) [] (s, <[t := p']> ths)
  | move_step s ths t p s' p' evs :
      ths !! t = Some p → step s p = Some (s', p', evs) →
      move (s, ths) evs (s', <[t := p']> ths).

Inductive runs (c0 : state) : list Ev → state → Prop :=
  | runs_nil : runs c0 [] c0
  | runs_snoc tr c evs c' : runs c0 tr c → move c evs c' → runs c0 (tr ++ evs) c'.

(** Rule induction for an invariant that follows the trace. *)
Lemma runs_invariant (I : list Ev → state → Prop) c0 :
  I [] c0 →
  (∀ tr c evs c', I tr c → move c evs c' → I (tr ++ evs) c') →
  ∀ tr c, runs c0 tr c → I tr c.
Proof. intros H0 Hm tr c Hr. induction Hr; eauto. Qed.

(** Run one thread alone to its end. *)
Fixpoint solo (fuel : nat) (s : St) (p : P) : St * P * list Ev :=
  match fuel with
  | O => (s, p, [])
  | S fuel =>
      match step s p with
      | None => (s, p, [])
      | Some (s1, p1, evs) =>
          let '(s2, p2, evs') := solo fuel s1 p1 in (s2, p2, evs ++ evs')
      end
  end.

Lemma solo_step fuel s p s1 p1 evs s' p' evs' :
  step s p = Some (s1, p1, evs) → solo fuel s1 p1 = (s', p', evs') →
  solo (S fuel) s p = (s', p', evs ++ evs').
Proof. intros Hp Hs. simpl. by rewrite Hp, Hs. Qed.

(** The steps of a thread that runs alone are a run. *)
Lemma solo_runs c0 tr s ths t p fuel s' p' evs :
  runs c0 tr (s, ths) → ths !! t = Some p → solo fuel s p = (s', p', evs) →
  runs c0 (tr ++ evs) (s', <[t := p']> ths).
Proof.
  revert tr s ths p evs. induction fuel as [|fuel IH]; intros tr s ths p evs Hr Ht Hs;
    simpl in Hs.
  - injection Hs as <- <- <-. by rewrite app_nil_r, insert_id.
  - destruct (step s p) as [[[s1 p1] evs1]|] eqn:Hp;
      [|injection Hs as <- <- <-; by rewrite app_nil_r, insert_id].
    destruct (solo fuel s1 p1) as [[s2 p2] evs2] eqn:Hsol. injection Hs as <- <- <-.
    rewrite (assoc_L (++)).
    pose proof (IH (tr ++ evs1) s1 (<[t := p1]> ths) p1 evs2) as IH'.
    rewrite insert_insert_eq in IH'. apply IH'; [|by rewrite lookup_insert_eq|done].
    econstructor; [exact Hr|]. by econstructor.
Qed.

(** A schedule: [(t, Some p)] starts a call of thread [t] at [p], [(t, None)] is
    its next step. *)
Variable callb : P → P → bool.
Hypothesis callb_call : ∀ p p', callb p p' = true → call p p'.

Fixpoint exec (sched : list (nat * option P)) (tr : list Ev) (c : state)
    : option (list Ev * state) :=
  match sched with
  | [] => Some (tr, c)
  | (t, Some p') :: sched =>
      p ← c.2 !! t;
      if callb p p' then exec sched tr (c.1, <[t := p']> c.2) else None
  | (t, None) :: sched =>
      p ← c.2 !! t;
      '(s', p', evs) ← step c.1 p;
      exec sched (tr ++ evs) (s', <[t := p']> c.2)
  end.

Lemma exec_runs sched c0 tr c tr' c' :
  runs c0 tr c → exec sched tr c = Some (tr', c') → runs c0 tr' c'.
Proof using callb_call.
  revert tr c. induction sched as [|[t [p'|]] sched IH]; intros tr [s ths] Hr He; simpl in He.
  - by simplify_eq.
  - apply bind_Some in He as (p & Hp & He). destruct (callb p p') eqn:Hc; [|done].
    eapply IH, He. rewrite <- (app_nil_r tr). econstructor; [done|]. econstructor; eauto.
  - apply bind_Some in He as (p & Hp & He).
    apply bind_Some in He as ([[s1 p1] evs] & Hs & He).
    eapply IH, He. econstructor; [done|]. by econstructor.
Qed.
End Interleave.
