(* ===== verification/WakerList.v ===== *)
(** * The list of waiting enqueuers
    ([src/src/synchronized/waker_list.rs])

    Wakers behind a mutex, and a flag that tells [wake] whether to take it. One
    step is one operation on the mutex or on the flag; the body of [register]
    under the lock, and each waking of [wake_all], are steps of their own. *)

From S2P Require Import Prelude Waker Interleave.

Section WakerList.
(** [task::Waker] *)
Context {TW : Type}.
#[local] Abbreviation W := (Waker TW).

Record waker_list : Type := mk_waker_list {
  wakers : list W;
  locked : bool;        (* the mutex *)
  non_empty : bool;
}.

Definition default : waker_list := mk_waker_list [] false false.

Inductive wl_pc : Type :=
  | WIdle
  (* register *)
  | RegLock (w : W)
  | RegCheck (w : W)
  | RegStore (w : W)
  | RegPush (w : W)
  | RegUnlock
  (* wake *)
  | WakeLoad
  | WakeCas
  (* wake_all; [WakeEach ws]: what the drain has left *)
  | WakeLock
  | WakeEach (ws : list W).

Inductive wl_event : Type :=
  | Registered (w : W)
  | Woken (w : W) (how : effect TW).

(** Taking the mutex blocks while it is taken. *)
Definition with_lock (s : waker_list) (k : waker_list → wl_pc)
    (s' : waker_list → waker_list) : option (waker_list * wl_pc * list wl_event) :=
  if locked s then None
  else let s1 := mk_waker_list (wakers s) true (non_empty s) in Some (s' s1, k s, []).

Definition register_step (s : waker_list) (p : wl_pc)
    : option (waker_list * wl_pc * list wl_event) :=
  match p with
  | RegLock w => with_lock s (λ _, RegCheck w) id
  | RegCheck w =>
      Some (s, if (match wakers s with [] => true | _ => false end)
               then RegStore w else RegPush w, [])
  | RegStore w => Some (mk_waker_list (wakers s) (locked s) true, RegPush w, [])
  | RegPush w =>
      Some (mk_waker_list (wakers s ++ [w]) (locked s) (non_empty s), RegUnlock, [Registered w])
  | RegUnlock => Some (mk_waker_list (wakers s) false (non_empty s), WIdle, [])
  | _ => None
  end.

Definition wake_step (s : waker_list) (p : wl_pc)
    : option (waker_list * wl_pc * list wl_event) :=
  match p with
  | WakeLoad => Some (s, if non_empty s then WakeCas else WIdle, [])
  | WakeCas =>
      if non_empty s
      then Some (mk_waker_list (wakers s) (locked s) false, WakeLock, [])
      else Some (s, WIdle, [])
  | _ => None
  end.

(** The drain empties the vector when it starts; the guard lives until the
    loop ends. *)
Definition wake_all_step (s : waker_list) (p : wl_pc)
    : option (waker_list * wl_pc * list wl_event) :=
  match p with
  | WakeLock =>
      with_lock s (λ s, WakeEach (wakers s)) (λ s, mk_waker_list [] (locked s) (non_empty s))
  | WakeEach (w :: ws) => Some (s, WakeEach ws, [Woken w (waker_wake w)])
  | WakeEach [] => Some (mk_waker_list (wakers s) false (non_empty s), WIdle, [])
  | _ => None
  end.

Definition wl_step (s : waker_list) (p : wl_pc)
    : option (waker_list * wl_pc * list wl_event) :=
  match p with
  | WIdle => None
  | RegLock _ | RegCheck _ | RegStore _ | RegPush _ | RegUnlock => register_step s p
  | WakeLoad | WakeCas => wake_step s p
  | WakeLock | WakeEach _ => wake_all_step s p
  end.

Definition wl_call (p p' : wl_pc) : Prop :=
  p = WIdle ∧ (p' = WakeLoad ∨ ∃ cx current, p' = RegLock (waker_new cx current)).

Definition wl_initial (n : nat) : state (St := waker_list) (P := wl_pc) :=
  (default, map_seq 0 (replicate n WIdle)).

Abbreviation wl_runs n := (runs wl_step wl_call (wl_initial n)).

(** ** What a trace shows *)
Definition registered (tr : list wl_event) : list W :=
  omap (λ ev, match ev with Registered w => Some w | _ => None end) tr.
Definition woken (tr : list wl_event) : list W :=
  omap (λ ev, match ev with Woken w _ => Some w | _ => None end) tr.

(** ** The invariant *)
Definition holds_lock (p : wl_pc) : bool :=
  match p with
  | RegCheck _ | RegStore _ | RegPush _ | RegUnlock | WakeEach _ => true
  | _ => false
  end.

(** The wakers drained and not woken yet. *)
Definition drained (p : wl_pc) : list W :=
  match p with WakeEach ws => ws | _ => [] end.

(** Somebody will look at the list: the flag is up, or a [wake] took it down
    and is about to lock. *)
Definition will_look (s : waker_list) (ths : gmap nat wl_pc) : Prop :=
  non_empty s = true ∨ ∃ t, ths !! t = Some WakeLock.

(** What the thread that holds the mutex has drained. *)
Definition held_by (ths : gmap nat wl_pc) (owner : option nat) : list W :=
  match owner ≫= (ths !!.) with Some p => drained p | None => [] end.

Record wl_inv_with (tr : list wl_event) (s : waker_list) (ths : gmap nat wl_pc)
    (owner : option nat) : Prop := {
  wi_locked : locked s = is_some owner;
  wi_owner t p : ths !! t = Some p → holds_lock p = true ↔ owner = Some t;
  wi_in t : owner = Some t → is_Some (ths !! t);
  wi_look : wakers s ≠ [] → will_look s ths;
  wi_push t w : ths !! t = Some (RegPush w) → will_look s ths;
  wi_trace : registered tr = woken tr ++ held_by ths owner ++ wakers s;
}.

Definition wl_inv (tr : list wl_event) (c : state (St := waker_list) (P := wl_pc)) : Prop :=
  ∃ owner, wl_inv_with tr c.1 c.2 owner.

Section Step.
Variables (tr : list wl_event) (s : waker_list) (ths : gmap nat wl_pc).
Variables (owner : option nat) (t : nat) (p : wl_pc).
Hypothesis HI : wl_inv_with tr s ths owner.
Hypothesis Ht : ths !! t = Some p.

(** Somebody still looks when [t] moves on, unless it is the one. *)
Lemma will_look_keep s' p' :
  will_look s ths → (non_empty s = true → non_empty s' = true ∨ p' = WakeLock) →
  (p = WakeLock → p' = WakeLock) → will_look s' (<[t := p']> ths).
Proof using Ht.
  intros [Hn|[t0 Ht0]] Hs Hp.
  - destruct (Hs Hn) as [?| ->]; [by left|]. right. exists t. by rewrite lookup_insert_eq.
  - right. destruct (decide (t = t0)) as [<-|Hne].
    + exists t. rewrite lookup_insert_eq. rewrite Hp; [done|congruence].
    + exists t0. by rewrite lookup_insert_ne.
Qed.

Lemma held_by_t : holds_lock p = true → held_by ths owner = drained p.
Proof using HI Ht.
  intros Hp. destruct HI as [_ Ho _ _ _ _]. apply (Ho _ _ Ht) in Hp as ->.
  unfold held_by. simpl. by rewrite Ht.
Qed.

Lemma held_by_t' p' :
  holds_lock p = true → held_by (<[t := p']> ths) owner = drained p'.
Proof using HI Ht.
  intros Hp. destruct HI as [_ Ho _ _ _ _]. apply (Ho _ _ Ht) in Hp as ->.
  unfold held_by. simpl. by rewrite lookup_insert_eq.
Qed.

Lemma held_by_other p' :
  holds_lock p = false → held_by (<[t := p']> ths) owner = held_by ths owner.
Proof using HI Ht.
  intros Hp. unfold held_by. destruct owner as [t0|] eqn:Hown; [|done]. simpl.
  rewrite lookup_insert_ne; [done|]. intros ->.
  destruct HI as [_ Ho _ _ _ _]. assert (holds_lock p = true) by by apply (Ho _ _ Ht).
  congruence.
Qed.

(** A step that neither takes nor releases the mutex. *)
Lemma wl_inv_same s' p' evs :
  holds_lock p' = holds_lock p → locked s' = locked s →
  (non_empty s = true → non_empty s' = true ∨ p' = WakeLock) →
  (p = WakeLock → p' = WakeLock) →
  (wakers s' ≠ [] → wakers s ≠ [] ∨ (∃ w, p = RegPush w) ∨ non_empty s' = true) →
  (∀ w, p' = RegPush w → wakers s ≠ [] ∨ non_empty s' = true) →
  registered (tr ++ evs) =
    woken (tr ++ evs) ++ held_by (<[t := p']> ths) owner ++ wakers s' →
  wl_inv (tr ++ evs) (s', <[t := p']> ths).
Proof using HI Ht.
  intros Hh Hl Hn Hp Hw Hpush Htr. destruct HI as [Hlo Ho Hin Hlook Hpu Htrace].
  exists owner. split; simpl.
  - congruence.
  - intros t0 p0 [[<- <-]|[Hne H0]]%lookup_insert_Some; [rewrite Hh|]; by apply Ho.
  - intros t0 H0. apply lookup_insert_is_Some'. auto.
  - intros Hne.
    assert (will_look s ths ∨ non_empty s' = true) as [Hl'|?]; [|by apply will_look_keep|by left].
    destruct (Hw Hne) as [?|[[w Hpw]|?]]; [left; auto| |by right].
    left. apply (Hpu t w). congruence.
  - intros t0 w [[<- ->]|[Hne H0]]%lookup_insert_Some.
    + destruct (Hpush w eq_refl); [|by left]. apply will_look_keep; eauto.
    + apply will_look_keep; eauto.
  - done.
Qed.

(** Taking the mutex. *)
Lemma wl_inv_lock s' p' :
  locked s = false → locked s' = true → holds_lock p' = true → non_empty s' = non_empty s →
  (wakers s' ≠ [] → wakers s ≠ [] ∧ p ≠ WakeLock) →
  (∀ w, p' ≠ RegPush w) →
  drained p' ++ wakers s' = wakers s →
  wl_inv (tr ++ []) (s', <[t := p']> ths).
Proof using HI Ht.
  intros Hl Hl' Hp' Hn Hw Hpush Hd. destruct HI as [Hlo Ho Hin Hlook Hpu Htrace].
  rewrite Hl in Hlo. destruct owner as [t0|] eqn:Hown; [done|].
  assert (∀ t0 p0, ths !! t0 = Some p0 → holds_lock p0 = false) as Hfree.
  { intros t0 p0 H0. destruct (holds_lock p0) eqn:Hh; [|done].
    by apply (Ho _ _ H0) in Hh. }
  exists (Some t). split; simpl.
  - done.
  - intros t0 p0 [[<- <-]|[Hne H0]]%lookup_insert_Some; [done|].
    rewrite (Hfree _ _ H0). split; [done|congruence].
  - intros t0 [= <-]. apply lookup_insert_is_Some'. by left.
  - intros Hne. destruct (Hw Hne). apply will_look_keep; [by apply Hlook| |done].
    rewrite Hn. by left.
  - intros t0 w [[<- Hc]|[Hne H0]]%lookup_insert_Some; [by destruct (Hpush w)|].
    by specialize (Hfree _ _ H0).
  - rewrite app_nil_r. unfold held_by. simpl. rewrite lookup_insert_eq, Hd. exact Htrace.
Qed.

(** Releasing it. *)
Lemma wl_inv_unlock s' p' :
  holds_lock p = true → holds_lock p' = false → locked s' = false →
  non_empty s' = non_empty s → wakers s' = wakers s → p ≠ WakeLock → drained p = [] →
  wl_inv (tr ++ []) (s', <[t := p']> ths).
Proof using HI Ht.
  intros Hp Hp' Hl' Hn Hw Hnp Hd. pose proof (held_by_t Hp) as Hheld.
  destruct HI as [Hlo Ho Hin Hlook Hpu Htrace].
  pose proof (proj1 (Ho _ _ Ht) Hp) as Hown.
  exists None. split; simpl.
  - done.
  - intros t0 p0 [[<- <-]|[Hne H0]]%lookup_insert_Some; [by rewrite Hp'|].
    split; [|done]. intros Hh. apply (Ho _ _ H0) in Hh. congruence.
  - done.
  - rewrite Hw. intros Hne. apply will_look_keep; [by apply Hlook| |done]. rewrite Hn. by left.
  - intros t0 w [[<- ->]|[Hne H0]]%lookup_insert_Some; [done|].
    assert (holds_lock (RegPush w) = true) as Hh by done. apply (Ho _ _ H0) in Hh. congruence.
  - rewrite app_nil_r, Hw. by rewrite Hheld, Hd in Htrace.
Qed.
End Step.

Lemma registered_app tr1 tr2 : registered (tr1 ++ tr2) = registered tr1 ++ registered tr2.
Proof. apply omap_app. Qed.
Lemma woken_app tr1 tr2 : woken (tr1 ++ tr2) = woken tr1 ++ woken tr2.
Proof. apply omap_app. Qed.

(** A call keeps it. *)
Lemma wl_inv_call tr s ths t p' :
  wl_inv tr (s, ths) → ths !! t = Some WIdle → wl_call WIdle p' →
  wl_inv (tr ++ []) (s, <[t := p']> ths).
Proof.
  intros [owner HI] Ht [_ Hp']. pose proof (wi_trace _ _ _ _ HI) as Htr. simpl in *.
  apply (wl_inv_same tr s ths owner t WIdle HI Ht); try done; try by left.
  - by destruct Hp' as [->|(cx & current & ->)].
  - intros w ->. by destruct Hp' as [|(? & ? & ?)].
  - rewrite !app_nil_r. by rewrite (held_by_other tr s ths owner t WIdle HI Ht).
Qed.

(** The equation of the trace after a step, from the one before. *)
Ltac trace_eq HI Ht Htr :=
  rewrite ?registered_app, ?woken_app; simpl; rewrite ?app_nil_r;
  first
    [ rewrite (held_by_t' _ _ _ _ _ _ HI Ht) by done;
      rewrite (held_by_t _ _ _ _ _ _ HI Ht) in Htr by done
    | rewrite (held_by_other _ _ _ _ _ _ HI Ht) by done ];
  simpl in Htr |- *; rewrite ?Htr; rewrite <- ?(assoc_L (++)); try done.

(** So does a step of [register]. *)
Lemma wl_inv_register tr s ths t p s' p' evs :
  wl_inv tr (s, ths) → ths !! t = Some p → register_step s p = Some (s', p', evs) →
  wl_inv (tr ++ evs) (s', <[t := p']> ths).
Proof.
  intros [owner HI] Ht Hs. pose proof (wi_trace _ _ _ _ HI) as Htr. simpl in *.
  destruct p as [|w|w|w|w| | | | |ws]; simpl in Hs; try done.
  - unfold with_lock in Hs. destruct (locked s) eqn:Hl; [done|]. simplify_eq/=.
    by apply (wl_inv_lock tr s ths owner t _ HI Ht).
  - simplify_eq/=.
    apply (wl_inv_same tr s' ths owner t _ HI Ht); try done; try by left.
    + by destruct (wakers s').
    + intros w' Hw. destruct (wakers s'); [done|by left].
    + destruct (wakers s') eqn:Hws; trace_eq HI Ht Htr; by rewrite Hws.
  - simplify_eq/=. apply (wl_inv_same tr s ths owner t _ HI Ht); simpl; auto; try done.
    trace_eq HI Ht Htr.
  - simplify_eq/=. apply (wl_inv_same tr s ths owner t _ HI Ht); simpl; eauto; try done.
    trace_eq HI Ht Htr.
  - simplify_eq/=. by apply (wl_inv_unlock tr s ths owner t _ HI Ht).
Qed.

(** And a step of [wake] or [wake_all]. *)
Lemma wl_inv_wake tr s ths t p s' p' evs :
  wl_inv tr (s, ths) → ths !! t = Some p →
  wake_step s p = Some (s', p', evs) ∨ wake_all_step s p = Some (s', p', evs) →
  wl_inv (tr ++ evs) (s', <[t := p']> ths).
Proof.
  intros [owner HI] Ht Hs. pose proof (wi_trace _ _ _ _ HI) as Htr. simpl in *.
  destruct p as [|w|w|w|w| | | | |ws]; simpl in Hs; destruct Hs as [Hs|Hs]; try done.
  - simplify_eq/=. destruct (non_empty s') eqn:Hn;
      (apply (wl_inv_same tr s' ths owner t _ HI Ht); try done; try by left);
      trace_eq HI Ht Htr.
  - destruct (non_empty s) eqn:Hn; simplify_eq/=;
      (apply (wl_inv_same tr _ ths owner t _ HI Ht); simpl; try done; try by left);
      try trace_eq HI Ht Htr; by right.
  - unfold with_lock in Hs. destruct (locked s) eqn:Hl; [done|]. simplify_eq/=.
    apply (wl_inv_lock tr s ths owner t _ HI Ht); try done. apply app_nil_r.
  - destruct ws as [|w ws]; simplify_eq/=.
    + by apply (wl_inv_unlock tr s ths owner t _ HI Ht).
    + apply (wl_inv_same tr s' ths owner t _ HI Ht); try done; try by left.
      trace_eq HI Ht Htr.
Qed.

Lemma wl_inv_move tr c evs c' :
  wl_inv tr c → move wl_step wl_call c evs c' → wl_inv (tr ++ evs) c'.
Proof.
  intros HI Hm. destruct Hm as [s ths t p p' Ht Hc|s ths t p s' p' evs Ht Hs].
  - pose proof Hc as [-> _]. by apply wl_inv_call.
  - destruct p; simpl in Hs; try done;
      first [ by eapply wl_inv_register; eauto | by eapply wl_inv_wake; eauto ].
Qed.

Lemma wl_inv_initial n : wl_inv [] (wl_initial n).
Proof.
  exists None. split; simpl; try done.
  - intros t p [_ Hp]%lookup_map_seq_Some. apply lookup_replicate in Hp as [-> _]. done.
  - intros t w [_ Hp]%lookup_map_seq_Some. apply lookup_replicate in Hp as [Hp _]. done.
Qed.

Lemma wl_inv_runs n tr c : wl_runs n tr c → wl_inv tr c.
Proof. apply runs_invariant; [apply wl_inv_initial|apply wl_inv_move]. Qed.

(** A waker leaves the list when the drain takes it all. *)
Lemma wl_step_wakers s p s' p' evs w :
  wl_step s p = Some (s', p', evs) → w ∈ wakers s → w ∈ wakers s' ∨ p' = WakeEach (wakers s).
Proof.
  intros Hs Hw. destruct p as [|w1|w1|w1|w1| | | | |[|w1 ws]]; simpl in Hs; try done;
    unfold with_lock in Hs.
  - destruct (locked s); [done|]. injection Hs as <- <- <-. by left.
  - injection Hs as <- <- <-. by left.
  - injection Hs as <- <- <-. by left.
  - injection Hs as <- <- <-. left. simpl. apply elem_of_app. by left.
  - injection Hs as <- <- <-. by left.
  - injection Hs as <- <- <-. by left.
  - destruct (non_empty s); injection Hs as <- <- <-; by left.
  - destruct (locked s); [done|]. injection Hs as <- <- <-. by right.
  - injection Hs as <- <- <-. by left.
  - injection Hs as <- <- <-. by left.
Qed.

(** *** One thread alone *)
Lemma solo_wake_each s ws k :
  solo wl_step (S (length ws) + k) s (WakeEach ws) =
  (mk_waker_list (wakers s) false (non_empty s), WIdle,
   map (λ w, Woken w (waker_wake w)) ws).
Proof.
  induction ws as [|w ws IH]; [by destruct k|]. simpl in IH |- *. by rewrite IH.
Qed.

Lemma solo_wake s :
  locked s = false → non_empty s = true →
  solo wl_step (4 + length (wakers s)) s WakeLoad =
  (mk_waker_list [] false false, WIdle, map (λ w, Woken w (waker_wake w)) (wakers s)).
Proof.
  intros Hl Hn.
  pose proof (solo_wake_each (mk_waker_list [] true false) (wakers s) 0) as H.
  rewrite Nat.add_0_r in H.
  eapply (solo_step _ _ _ _ s WakeCas []); [by simpl; rewrite Hn|].
  eapply (solo_step _ _ _ _ (mk_waker_list (wakers s) (locked s) false) WakeLock []);
    [by simpl; rewrite Hn|].
  eapply (solo_step _ _ _ _ (mk_waker_list [] true false) (WakeEach (wakers s)) []);
    [by simpl; unfold with_lock; simpl; rewrite Hl|].
  exact H.
Qed.

Lemma woken_wakes ws : woken (map (λ w, Woken w (waker_wake w)) ws) = ws.
Proof. induction ws as [|w ws IH]; [done|]. unfold woken in *. simpl. f_equal. exact IH. Qed.

(** ** Theorems *)

(** In every interleaving of [register] and [wake] calls, the wakers woken
    so far are the first ones registered, in the order of their registration:
    nobody is woken twice for one registration, and nobody before an earlier
    waiter. *)
Theorem waker_list_in_order n tr c : wl_runs n tr c → woken tr `prefix_of` registered tr.
Proof. intros [owner HI]%wl_inv_runs. rewrite (wi_trace _ _ _ _ HI). by exists (held_by c.2 owner ++ wakers c.1). Qed.

(** C26: No registered waker is forgotten: whenever the list holds one, or a
    thread is about to push one, the flag is up or a [wake] that took it down
    has yet to lock the list. *)
Theorem waker_list_not_forgotten n tr s ths t w :
  wl_runs n tr (s, ths) →
  wakers s ≠ [] ∨ ths !! t = Some (RegPush w) →
  non_empty s = true ∨ ∃ t', ths !! t' = Some WakeLock.
Proof. intros [owner HI]%wl_inv_runs [H|H]; [by apply (wi_look _ _ _ _ HI)|by eapply (wi_push _ _ _ _ HI)]. Qed.

(** When nobody else is in the middle of a [wake], a call of [wake] that
    runs to its end wakes every waker registered so far and not woken yet, in
    order, and releases the mutex. *)
Theorem waker_list_wake_all n tr s ths t :
  wl_runs n tr (s, ths) → ths !! t = Some WakeLoad → locked s = false →
  (∀ t', ths !! t' ≠ Some WakeLock) →
  ∃ fuel s' evs,
    solo wl_step fuel s WakeLoad = (s', WIdle, evs) ∧
    wl_runs n (tr ++ evs) (s', <[t := WIdle]> ths) ∧
    wakers s' = [] ∧ locked s' = false ∧ woken (tr ++ evs) = registered tr.
Proof.
  intros Hr Ht Hl Hno. pose proof (wl_inv_runs _ _ _ Hr) as [owner HI]. simpl in HI.
  pose proof (wi_trace _ _ _ _ HI) as Htr. pose proof (wi_locked _ _ _ _ HI) as Hown.
  rewrite Hl in Hown. destruct owner as [t0|]; [done|]. unfold held_by in Htr. simpl in Htr.
  destruct (non_empty s) eqn:Hn.
  - pose proof (solo_wake s Hl Hn) as Hs. do 3 eexists. split; [exact Hs|].
    split; [by eapply solo_runs|]. simpl. by rewrite woken_app, woken_wakes, Htr.
  - assert (wakers s = []) as Hw.
    { destruct (wakers s) eqn:Hw; [done|]. exfalso.
      assert (wakers s ≠ []) as Hne by by rewrite Hw.
      destruct (wi_look _ _ _ _ HI Hne) as [?|[t' ?]]; [congruence|by destruct (Hno t')]. }
    exists 1, s, []. assert (solo wl_step 1 s WakeLoad = (s, WIdle, [])) as Hs.
    { simpl. by rewrite Hn. }
    split; [done|]. split; [by eapply solo_runs|].
    by rewrite app_nil_r, Htr, Hw, app_nil_r.
Qed.

(** The mutex never blocks everybody: whenever a thread is inside
    [register] or [wake], some thread can take a step. *)
Theorem waker_list_progress n tr s ths t p :
  wl_runs n tr (s, ths) → ths !! t = Some p → p ≠ WIdle →
  ∃ t' p', ths !! t' = Some p' ∧ is_Some (wl_step s p').
Proof.
  intros [owner HI]%wl_inv_runs Ht Hp. simpl in HI.
  destruct (locked s) eqn:Hl.
  - rewrite (wi_locked _ _ _ _ HI) in Hl. destruct owner as [t0|]; [|done].
    destruct (wi_in _ _ _ _ HI t0 eq_refl) as [p0 H0]. exists t0, p0. split; [done|].
    assert (holds_lock p0 = true) as Hh by by apply (wi_owner _ _ _ _ HI _ _ H0).
    destruct p0 as [| | | | | | | | |[|w ws]]; try done; eauto.
  - exists t, p. split; [done|].
    destruct p as [| | | | | | | | |[|w ws]]; simpl; unfold with_lock; rewrite ?Hl; try done; eauto.
    by destruct (non_empty s); eauto.
Qed.

(** Calls, as a test. *)
Definition wl_callb (p p' : wl_pc) : bool :=
  match p, p' with
  | WIdle, WakeLoad | WIdle, RegLock _ => true
  | _, _ => false
  end.

Lemma wl_callb_call p p' : wl_callb p p' = true → wl_call p p'.
Proof.
  destruct p, p'; try done; split; eauto. right.
  destruct w as [w|t]; [by exists (Some w), 0|by exists None, t].
Qed.
End WakerList.
Arguments waker_list : clear implicits.
Arguments wl_pc : clear implicits.
Arguments wl_event : clear implicits.

(** ** A concrete run: two waiters register while a wake is in progress *)
Definition wl_example : list (nat * option (wl_pc nat)) :=
  [(0, Some (RegLock (waker_new (Some 7) 0))); (0, None); (0, None); (0, None); (0, None); (0, None);
   (1, Some WakeLoad); (1, None); (1, None);
   (0, Some (RegLock (waker_new None 0))); (0, None); (0, None); (0, None); (0, None);
   (2, Some WakeLoad)].

(** The state it reaches: both wakers wait, thread 1 is about to lock. *)
Definition wl_example_end : state (St := waker_list nat) (P := wl_pc nat) :=
  (mk_waker_list [Async 7; Sync 0] false false,
   <[2 := WakeLoad]> (<[1 := WakeLock]> (map_seq 0 (replicate 3 WIdle)))).

Lemma wl_example_runs tail tr c :
  exec wl_step wl_callb (wl_example ++ tail) [] (wl_initial 3) = Some (tr, c) →
  runs wl_step wl_call (wl_initial 3) tr c.
Proof. apply (exec_runs _ _ _ wl_callb_call). constructor. Qed.

Lemma waker_list_in_order_witness :
  woken (TW := nat) [Registered (Async 7); Registered (Sync 0);
     Woken (Async 7) (WakeTask 7); Woken (Sync 0) (Unpark 0)]
  `prefix_of` [Async 7; Sync 0].
Proof.
  apply (waker_list_in_order 3 [Registered (Async 7); Registered (Sync 0);
    Woken (Async 7) (WakeTask 7); Woken (Sync 0) (Unpark 0)]
    (mk_waker_list [] true false, <[2 := WakeLoad]> (<[1 := WakeEach []]> (map_seq 0 (replicate 3 WIdle))))).
  apply (wl_example_runs [(1, None); (1, None); (1, None)]). vm_compute. reflexivity.
Defined.

Lemma waker_list_not_forgotten_witness :
  non_empty wl_example_end.1 = true ∨ ∃ t', wl_example_end.2 !! t' = Some WakeLock.
Proof.
  apply (waker_list_not_forgotten 3 [Registered (Async 7); Registered (Sync 0)]
    wl_example_end.1 wl_example_end.2 0 (Sync 0)); [|left; discriminate].
  apply (wl_example_runs []). vm_compute. reflexivity.
Defined.

Lemma waker_list_wake_all_witness :
  ∃ fuel s' evs,
    solo wl_step fuel (mk_waker_list [Async 7] false true) WakeLoad = (s', WIdle, evs) ∧
    runs wl_step wl_call (wl_initial 2) ([Registered (Async 7)] ++ evs)
      (s', <[1 := WIdle]> (<[1 := WakeLoad]> (map_seq 0 (replicate 2 WIdle)))) ∧
    wakers s' = [] ∧ locked s' = false ∧
    woken ([Registered (Async 7)] ++ evs) = registered [Registered (Async 7)].
Proof.
  apply (waker_list_wake_all 2 [Registered (Async 7)] (mk_waker_list [Async 7] false true)
    (<[1 := WakeLoad]> (map_seq 0 (replicate 2 WIdle))) 1).
  - apply (exec_runs _ _ _ wl_callb_call
      [(0, Some (RegLock (Async 7))); (0, None); (0, None); (0, None); (0, None); (0, None);
       (1, Some WakeLoad)] _ [] (wl_initial 2)); [constructor|].
    vm_compute. reflexivity.
  - reflexivity.
  - reflexivity.
  - intros t' [[_ H]|[_ [_ H]%lookup_map_seq_Some]]%lookup_insert_Some; [discriminate|].
    apply lookup_replicate in H as [H _]. discriminate.
Defined.

Lemma waker_list_progress_witness :
  ∃ t' p', wl_example_end.2 !! t' = Some p' ∧ is_Some (wl_step wl_example_end.1 p').
Proof.
  apply (waker_list_progress 3 [Registered (Async 7); Registered (Sync 0)]
    wl_example_end.1 wl_example_end.2 1 WakeLock); [|reflexivity|discriminate].
  apply (wl_example_runs []). vm_compute. reflexivity.
Defined.
