(* ===== verification/AtomicWaker.v ===== *)
(** * The waker of the dequeuer ([src/src/synchronized/atomic_waker.rs])

    A cell holding at most one waker, guarded by a word of two bits. One step is
    one atomic operation on the word, or one access to the cell, or the waking. *)

From S2P Require Import Prelude Waker Interleave.
Open Scope Z_scope.

Definition WAITING : Z := 0.
Definition REGISTERING : Z := 1.
Definition WAKING : Z := 2.

Section AtomicWaker.
Context {TW : Type}.
Variable task_will_wake : TW → TW → bool.
#[local] Abbreviation W := (Waker TW).

Record atomic_waker : Type := mk_atomic_waker {
  aw_state : Z;
  aw_waker : option W;
}.

Definition atomic_waker_new : atomic_waker := mk_atomic_waker WAITING None.

(** [cx] and [cur]: the context of the caller and its thread. *)
Inductive aw_pc : Type :=
  | AIdle
  (* register *)
  | RegCas (cx : option TW) (cur : nat)
  | RegCell (cx : option TW) (cur : nat)   (* the cell is set *)
  | RegDone                                (* REGISTERING to WAITING *)
  | RegTake                                (* woken meanwhile: take the cell *)
  | RegSwap (w : W)
  | RegWake (w : W)
  | RegSelf (cx : option TW) (cur : nat)
  (* wake *)
  | WakeOr
  | WakeTake
  | WakeAnd (w : option W)
  | WakeFire (w : W)
  (* a failed [debug_assert] or [unwrap] *)
  | APanic.

Inductive aw_event : Type :=
  | Stored (w : W)
  | Woke (how : effect TW).

#[local] Abbreviation result := (option (atomic_waker * aw_pc * list aw_event)).

(** The cell after the update: kept when it wakes the same task. *)
Definition cell_update (old : option W) (cx : option TW) (cur : nat) : W :=
  match old with
  | Some w => if waker_will_wake task_will_wake w cx then w else waker_new cx cur
  | None => waker_new cx cur
  end.

(** [compare_exchange(WAITING, REGISTERING).unwrap_or_else(|x| x)] and its match. *)
Definition reg_cas (s : atomic_waker) (cx : option TW) (cur : nat) : result :=
  let found := aw_state s in
  if found =? WAITING
  then Some (mk_atomic_waker REGISTERING (aw_waker s), RegCell cx cur, [])
  else if found =? WAKING then Some (s, RegSelf cx cur, [])
  else if (found =? REGISTERING) || (found =? Z.lor REGISTERING WAKING)
  then Some (s, AIdle, []) else Some (s, APanic, []).

(** [compare_exchange(REGISTERING, WAITING)] and its match. *)
Definition reg_done (s : atomic_waker) : result :=
  if aw_state s =? REGISTERING
  then Some (mk_atomic_waker WAITING (aw_waker s), AIdle, [])
  else if aw_state s =? Z.lor REGISTERING WAKING then Some (s, RegTake, [])
  else Some (s, APanic, []).

Definition register_step (s : atomic_waker) (p : aw_pc) : result :=
  match p with
  | RegCas cx cur => reg_cas s cx cur
  | RegCell cx cur =>
      let w := cell_update (aw_waker s) cx cur in
      Some (mk_atomic_waker (aw_state s) (Some w), RegDone, [Stored w])
  | RegDone => reg_done s
  | RegTake =>
      Some (mk_atomic_waker (aw_state s) None,
            match aw_waker s with Some w => RegSwap w | None => APanic end, [])
  | RegSwap w => Some (mk_atomic_waker WAITING (aw_waker s), RegWake w, [])
  | RegWake w => Some (s, AIdle, [Woke (waker_wake w)])
  | RegSelf cx cur => Some (s, AIdle, [Woke (wake_caller cx cur)])
  | _ => None
  end.

(** [fetch_or(WAKING)] and its match. *)
Definition wake_or (s : atomic_waker) : result :=
  let found := aw_state s in
  let s' := mk_atomic_waker (Z.lor found WAKING) (aw_waker s) in
  if found =? WAITING then Some (s', WakeTake, [])
  else if (found =? REGISTERING) || (found =? Z.lor REGISTERING WAKING) || (found =? WAKING)
  then Some (s', AIdle, []) else Some (s', APanic, []).

Definition wake_step (s : atomic_waker) (p : aw_pc) : result :=
  match p with
  | WakeOr => wake_or s
  | WakeTake => Some (mk_atomic_waker (aw_state s) None, WakeAnd (aw_waker s), [])
  | WakeAnd w =>
      Some (mk_atomic_waker (Z.land (aw_state s) (Z.lnot WAKING)) (aw_waker s),
            match w with Some w => WakeFire w | None => AIdle end, [])
  | WakeFire w => Some (s, AIdle, [Woke (waker_wake w)])
  | _ => None
  end.

Definition aw_step (s : atomic_waker) (p : aw_pc) : result :=
  match p with
  | AIdle | APanic => None
  | RegCas _ _ | RegCell _ _ | RegDone | RegTake | RegSwap _ | RegWake _ | RegSelf _ _ =>
      register_step s p
  | WakeOr | WakeTake | WakeAnd _ | WakeFire _ => wake_step s p
  end.

Definition aw_callb (p p' : aw_pc) : bool :=
  match p, p' with
  | AIdle, (RegCas _ _ | WakeOr) => true
  | _, _ => false
  end.
Definition aw_call (p p' : aw_pc) : Prop := aw_callb p p' = true.

Definition aw_initial (n : nat) : state (St := atomic_waker) (P := aw_pc) :=
  (atomic_waker_new, map_seq 0 (replicate n AIdle)).

Abbreviation aw_runs n := (runs aw_step aw_call (aw_initial n)).

(** ** The invariant *)

(** The thread that owns the cell, at each value of the word. *)
Definition owns (p : aw_pc) : bool :=
  match p with
  | RegCell _ _ | RegDone | RegTake | RegSwap _ | WakeTake | WakeAnd _ => true
  | _ => false
  end.

Definition owner_ok (s : atomic_waker) (p : aw_pc) : Prop :=
  match p with
  | RegCell _ _ => aw_state s = REGISTERING ∨ aw_state s = Z.lor REGISTERING WAKING
  | RegDone =>
      (aw_state s = REGISTERING ∨ aw_state s = Z.lor REGISTERING WAKING) ∧ is_Some (aw_waker s)
  | RegTake => aw_state s = Z.lor REGISTERING WAKING ∧ is_Some (aw_waker s)
  | RegSwap _ => aw_state s = Z.lor REGISTERING WAKING ∧ aw_waker s = None
  | WakeTake => aw_state s = WAKING
  | WakeAnd _ => aw_state s = WAKING ∧ aw_waker s = None
  | _ => False
  end.

Record aw_inv_with (s : atomic_waker) (ths : gmap nat aw_pc) (owner : option nat) : Prop := {
  ai_free : owner = None ↔ aw_state s = WAITING;
  ai_owner t p : ths !! t = Some p → owns p = true ↔ owner = Some t;
  ai_ok t : owner = Some t → ∃ p, ths !! t = Some p ∧ owner_ok s p;
  ai_panic t : ths !! t ≠ Some APanic;
}.
Definition aw_inv (s : atomic_waker) (ths : gmap nat aw_pc) : Prop :=
  ∃ owner, aw_inv_with s ths owner.

Lemma owner_ok_range s p :
  owner_ok s p →
  aw_state s = REGISTERING ∨ aw_state s = WAKING ∨ aw_state s = Z.lor REGISTERING WAKING.
Proof. destruct p; simpl; tauto. Qed.

(** Setting WAKING keeps what the owner relies on. *)
Lemma owner_ok_or s s' p :
  owner_ok s p → aw_waker s' = aw_waker s →
  (aw_state s' = aw_state s ∨ aw_state s' = Z.lor (aw_state s) WAKING) →
  owner_ok s' p.
Proof.
  destruct s as [x w], s' as [x' w']. simpl. intros Hok -> [->| ->]; [done|].
  destruct p; simpl in *; try done;
    repeat match goal with
    | H : _ ∧ _ |- _ => destruct H
    | H : _ ∨ _ |- _ => destruct H
    end; subst x; auto.
Qed.

Lemma aw_inv_initial n : aw_inv (aw_initial n).1 (aw_initial n).2.
Proof.
  exists None. split; simpl; try done.
  - intros t p [_ [-> _]%lookup_replicate]%lookup_map_seq_Some. done.
  - intros t [_ [H _]%lookup_replicate]%lookup_map_seq_Some. done.
Qed.

Section Step.
Variables (s : atomic_waker) (ths : gmap nat aw_pc) (owner : option nat).
Variables (t : nat) (p : aw_pc).
Hypothesis HI : aw_inv_with s ths owner.
Hypothesis Ht : ths !! t = Some p.

Lemma owner_step_ok : owns p = true → owner_ok s p.
Proof using HI Ht.
  intros Hp. apply (ai_owner _ _ _ HI _ _ Ht) in Hp.
  destruct (ai_ok _ _ _ HI _ Hp) as (p0 & H0 & ?). congruence.
Qed.

(** A thread that does not own the cell takes a step that does not either. *)
Lemma inv_other s' p' :
  owns p = false → owns p' = false → p' ≠ APanic →
  (aw_state s' = aw_state s ∨
   aw_state s ≠ WAITING ∧ aw_state s' = Z.lor (aw_state s) WAKING) →
  aw_waker s' = aw_waker s → aw_inv s' (<[t := p']> ths).
Proof using HI Ht.
  intros Hp Hp' Hnp Hs Hw. destruct HI as [Hf Ho Hok Hpa]. exists owner.
  assert (∀ p0, owner_ok s p0 → owner_ok s' p0) as Hokk.
  { intros p0 H0. apply (owner_ok_or s); tauto. }
  split.
  - rewrite Hf. destruct Hs as [->|[Hne Hs]]; [done|].
    split; [done|]. intros H. exfalso. destruct owner as [t0|] eqn:Hown; [|by apply Hne, Hf].
    destruct (Hok t0 eq_refl) as (p0 & _ & H0). apply Hokk, owner_ok_range in H0. by rewrite H in H0; destruct H0 as [|[|]].
  - intros t0 p0 [[<- <-]|[Hne H0]]%lookup_insert_Some; [|by apply Ho].
    rewrite Hp', <- Hp. by apply Ho.
  - intros t0 H0. destruct (Hok t0 H0) as (p0 & Hp0 & Hokp).
    exists p0. split; [|by apply Hokk]. rewrite lookup_insert_ne; [done|].
    intros <-. apply (Ho _ _ Hp0) in H0. congruence.
  - intros t0 [[_ ?]|[_ ?]]%lookup_insert_Some; [done|by destruct (Hpa t0)].
Qed.

(** It takes the cell. *)
Lemma inv_take s' p' :
  aw_state s = WAITING → aw_state s' ≠ WAITING → owns p' = true → owner_ok s' p' →
  aw_inv s' (<[t := p']> ths).
Proof using HI Ht.
  intros Hs Hs' Hp' Hok'. destruct HI as [Hf Ho Hok Hpa]. apply Hf in Hs. exists (Some t). split.
  - done.
  - intros t0 p0 [[<- <-]|[Hne H0]]%lookup_insert_Some; [done|].
    rewrite (Ho _ _ H0), Hs. split; [done|congruence].
  - intros t0 [= <-]. exists p'. by rewrite lookup_insert_eq.
  - intros t0 [[_ ->]|[_ ?]]%lookup_insert_Some; [done|by destruct (Hpa t0)].
Qed.

(** The owner takes a step; [p'] says whether it keeps the cell. *)
Lemma inv_own s' p' :
  owns p = true → p' ≠ APanic →
  (if owns p' then owner_ok s' p' ∧ aw_state s' ≠ WAITING else aw_state s' = WAITING) →
  aw_inv s' (<[t := p']> ths).
Proof using HI Ht.
  intros Hp Hnp H. destruct HI as [Hf Ho Hok Hpa]. apply (Ho _ _ Ht) in Hp as Hown.
  exists (if owns p' then Some t else None). split.
  - by destruct (owns p'); [split; [done|intros ?; by destruct H]|].
  - intros t0 p0 [[<- <-]|[Hne H0]]%lookup_insert_Some; [by destruct (owns p')|].
    rewrite (Ho _ _ H0), Hown. destruct (owns p'); split; congruence.
  - intros t0 H0. destruct (owns p'); [|done]. injection H0 as <-.
    exists p'. rewrite lookup_insert_eq. by destruct H.
  - intros t0 [[_ ?]|[_ ?]]%lookup_insert_Some; [done|by destruct (Hpa t0)].
Qed.

Lemma aw_range :
  aw_state s = WAITING ∨ aw_state s = REGISTERING ∨ aw_state s = WAKING ∨
  aw_state s = Z.lor REGISTERING WAKING.
Proof using HI.
  destruct HI as [Hf _ Hok _]. destruct owner as [t0|].
  - destruct (Hok t0 eq_refl) as (p0 & _ & H). destruct p0; simpl in H; tauto.
  - left. by apply Hf.
Qed.

End Step.

(** The branch of a match on the word. *)
#[local] Ltac word Hr Hs :=
  rewrite Hr in Hs; cbv [WAITING REGISTERING WAKING] in Hs;
  simpl in Hs; simplify_eq.

Lemma aw_inv_step s ths owner t p s' p' evs :
  aw_inv_with s ths owner → ths !! t = Some p →
  aw_step s p = Some (s', p', evs) → aw_inv s' (<[t := p']> ths).
Proof.
  intros HI Ht Hs. pose proof (aw_range _ _ _ HI) as Hr.
  pose proof (owner_step_ok _ _ _ _ _ HI Ht) as Hok.
  destruct p; simpl in Hs, Hok; try done.
  - unfold reg_cas in Hs.
    destruct Hr as [Hr|[Hr|[Hr|Hr]]]; word Hr Hs;
      first [ apply (inv_take _ _ _ _ _ HI Ht); simpl; by auto | apply (inv_other _ _ _ _ _ HI Ht); by auto ].
  - simplify_eq. apply (inv_own _ _ _ _ _ HI Ht); try done. simpl. destruct (Hok eq_refl) as [->| ->]; split; eauto; done.
  - unfold reg_done in Hs.
    destruct (Hok eq_refl) as [[Hr'|Hr'] Hw]; word Hr' Hs;
      apply (inv_own _ _ _ _ _ HI Ht); simpl; rewrite ?Hr'; by auto.
  - destruct (Hok eq_refl) as [Hr' [w Hw]]. rewrite Hw in Hs. simplify_eq.
    apply (inv_own _ _ _ _ _ HI Ht); simpl; rewrite ?Hr'; by auto.
  - simplify_eq. by apply (inv_own _ _ _ _ _ HI Ht).
  - simplify_eq. apply (inv_other _ _ _ _ _ HI Ht); by auto.
  - simplify_eq. apply (inv_other _ _ _ _ _ HI Ht); by auto.
  - unfold wake_or in Hs.
    destruct Hr as [Hr|[Hr|[Hr|Hr]]]; word Hr Hs;
      first [ apply (inv_take _ _ _ _ _ HI Ht); simpl; by auto
            | apply (inv_other _ _ _ _ _ HI Ht); simpl; rewrite ?Hr; auto; right; by split ].
  - simplify_eq. apply (inv_own _ _ _ _ _ HI Ht); simpl; rewrite ?(Hok eq_refl); by auto.
  - simplify_eq. destruct (Hok eq_refl) as [Hr' _].
    destruct w; apply (inv_own _ _ _ _ _ HI Ht); simpl; rewrite ?Hr'; by auto.
  - simplify_eq. apply (inv_other _ _ _ _ _ HI Ht); by auto.
Qed.

Lemma aw_inv_call s ths t p p' :
  aw_inv s ths → ths !! t = Some p → aw_call p p' → aw_inv s (<[t := p']> ths).
Proof.
  intros [owner HI] Ht Hc. apply (inv_other s ths owner t p HI Ht); auto;
    unfold aw_call in Hc; by destruct p, p'.
Qed.

Lemma aw_inv_runs n tr s ths : aw_runs n tr (s, ths) → aw_inv s ths.
Proof.
  intros Hr.
  apply (runs_invariant aw_step aw_call (λ _ c, aw_inv c.1 c.2)) in Hr; [done| |].
  - apply aw_inv_initial.
  - intros tr0 c evs c' HI Hm.
    destruct Hm as [s0 ths0 t p p' Ht Hc|s0 ths0 t p s' p' evs0 Ht Hs]; simpl in *.
    + eapply aw_inv_call; [exact HI|exact Ht|exact Hc].
    + destruct HI as [owner HI]. eapply aw_inv_step; [exact HI|exact Ht|exact Hs].
Qed.

(** ** Wakers in flight *)

(** A waker taken from the cell and not woken yet. *)
Definition in_flight (p : aw_pc) : option W :=
  match p with
  | RegSwap w | RegWake w | WakeFire w => Some w
  | WakeAnd w => w
  | _ => None
  end.

(** The waker stored last, and what was woken since. *)
Definition last_stored (tr : list aw_event) : option (W * list (effect TW)) :=
  foldl (λ acc ev,
    match ev with
    | Stored w => Some (w, [])
    | Woke e => (λ '(w, l), (w, l ++ [e])) <$> acc
    end) None tr.

Definition stored_safe (tr : list aw_event) (c : state (St := atomic_waker) (P := aw_pc)) : Prop :=
  ∀ w l, last_stored tr = Some (w, l) →
    waker_wake w ∈ l ∨ aw_waker c.1 = Some w ∨
    ∃ t p, c.2 !! t = Some p ∧ in_flight p = Some w.

(** A step that stores and wakes nothing: the waker stays where it was, or
    the thread takes it. *)
Lemma stored_safe_quiet tr s ths t p s' p' :
  stored_safe tr (s, ths) → ths !! t = Some p →
  (∀ w, in_flight p = Some w → in_flight p' = Some w) →
  (∀ w, aw_waker s = Some w → aw_waker s' = Some w ∨ in_flight p' = Some w) →
  stored_safe (tr ++ []) (s', <[t := p']> ths).
Proof.
  intros H Ht Hp Hw w l Hl. rewrite app_nil_r in Hl. simpl.
  destruct (H w l Hl) as [?|[Hc|(t0 & p0 & H0 & Hf)]]; [by left| |]; simpl in *.
  - right. destruct (Hw w Hc) as [?|?]; [by left|]. right. exists t, p'.
    by rewrite lookup_insert_eq.
  - right. right. destruct (decide (t = t0)) as [<-|Hne].
    + exists t, p'. rewrite lookup_insert_eq. split; [done|]. apply Hp. congruence.
    + exists t0, p0. by rewrite lookup_insert_ne.
Qed.

(** A waking: of what was in flight, or of the caller. *)
Lemma stored_safe_woke tr s ths t p e :
  stored_safe tr (s, ths) → ths !! t = Some p →
  (∀ w, in_flight p = Some w → e = waker_wake w) →
  stored_safe (tr ++ [Woke e]) (s, <[t := AIdle]> ths).
Proof.
  intros H Ht Hp w l. unfold last_stored. rewrite foldl_app. simpl.
  change (foldl _ None tr) with (last_stored tr).
  destruct (last_stored tr) as [[w0 l0]|] eqn:Hl; [|done]. simpl. intros [= -> <-].
  destruct (H w l0 Hl) as [?|[Hc|(t0 & p0 & H0 & Hf)]]; simpl in *.
  - left. set_solver.
  - by right; left.
  - destruct (decide (t = t0)) as [<-|Hne].
    + left. rewrite (Hp w); [set_solver|congruence].
    + right. right. exists t0, p0. by rewrite lookup_insert_ne.
Qed.

Lemma stored_safe_move tr c evs c' :
  stored_safe tr c → move aw_step aw_call c evs c' → stored_safe (tr ++ evs) c'.
Proof.
  intros HS Hm. destruct Hm as [s ths t p p' Ht Hc|s ths t p s' p' evs Ht Hs].
  - eapply stored_safe_quiet; [exact HS|exact Ht| |by auto].
    intros w. unfold aw_call in Hc. by destruct p.
  - destruct p as [|cx cur|cx cur| | |w|w|cx cur| | |w|w|]; simpl in Hs; try done.
    + unfold reg_cas in Hs. repeat case_match; simplify_eq;
        by (eapply stored_safe_quiet; [exact HS|exact Ht| |]; auto).
    + simplify_eq. intros w l. unfold last_stored. rewrite foldl_app. simpl.
      intros [= <- <-]. by right; left.
    + unfold reg_done in Hs. repeat case_match; simplify_eq;
        by (eapply stored_safe_quiet; [exact HS|exact Ht| |]; auto).
    + simplify_eq. eapply stored_safe_quiet; [exact HS|exact Ht|done|].
      intros w Hw. rewrite Hw. by right.
    + simplify_eq. eapply stored_safe_quiet; [exact HS|exact Ht| |]; auto.
    + simplify_eq. eapply stored_safe_woke; [exact HS|exact Ht|]. by intros ? [= ->].
    + simplify_eq. by eapply stored_safe_woke; [exact HS|exact Ht|].
    + unfold wake_or in Hs. repeat case_match; simplify_eq;
        by (eapply stored_safe_quiet; [exact HS|exact Ht| |]; auto).
    + simplify_eq. eapply stored_safe_quiet; [exact HS|exact Ht|done|]. by right.
    + simplify_eq. destruct w; by (eapply stored_safe_quiet; [exact HS|exact Ht| |]; auto).
    + simplify_eq. eapply stored_safe_woke; [exact HS|exact Ht|]. by intros ? [= ->].
Qed.

(** ** Theorems *)

(** Where the [UnsafeCell] is accessed. *)
Definition accesses_cell (p : aw_pc) : bool :=
  match p with RegCell _ _ | RegTake | WakeTake => true | _ => false end.

(** C23: The word of the atomic waker makes its [UnsafeCell] safe: in every
    interleaving of [register] and [wake] calls, two threads are never both
    about to access the cell. *)
Theorem atomic_waker_exclusive n tr s ths t1 t2 p1 p2 :
  aw_runs n tr (s, ths) → ths !! t1 = Some p1 → ths !! t2 = Some p2 →
  t1 ≠ t2 → accesses_cell p1 = true → accesses_cell p2 = false.
Proof.
  intros [owner HI]%aw_inv_runs H1 H2 Hne Ha1.
  destruct (accesses_cell p2) eqn:Ha2; [|done].
  assert (owner = Some t1) as Ho1.
  { apply (ai_owner _ _ _ HI _ _ H1). by destruct p1. }
  assert (owner = Some t2) as Ho2.
  { apply (ai_owner _ _ _ HI _ _ H2). by destruct p2. }
  congruence.
Qed.

(** The [unwrap] of [register] and the [debug_assert]s of [register] and
    [wake] never fail, in any interleaving. *)
Theorem atomic_waker_no_panic n tr s ths t :
  aw_runs n tr (s, ths) → ths !! t ≠ Some APanic.
Proof. intros [owner HI]%aw_inv_runs. apply (ai_panic _ _ _ HI). Qed.

(** C22: No wakeup is lost: the waker a [register] stored last has been woken
    since, or it is still in the cell, or a thread has taken it and is about
    to wake it. *)
Theorem atomic_waker_not_lost n tr s ths w l :
  aw_runs n tr (s, ths) → last_stored tr = Some (w, l) →
  waker_wake w ∈ l ∨ aw_waker s = Some w ∨
  ∃ t p, ths !! t = Some p ∧ in_flight p = Some w.
Proof.
  intros Hr. revert w l.
  apply (runs_invariant aw_step aw_call stored_safe) in Hr; [exact Hr|done|].
  apply stored_safe_move.
Qed.

(** What a waking in progress is to wake. *)
Definition pending_waker (s : atomic_waker) (p : aw_pc) : option W :=
  match p with
  | RegCell cx cur => Some (cell_update (aw_waker s) cx cur)
  | RegDone | RegTake | WakeTake => aw_waker s
  | _ => in_flight p
  end.

(** The wakings of a trace. *)
Definition wokes (tr : list aw_event) : list (effect TW) :=
  omap (λ ev, match ev with Woke e => Some e | _ => None end) tr.

(** A [wake] that finds a registration or another [wake] in progress is not
    lost either: while the WAKING bit is up, one thread, alone and in at most
    five steps of its own, wakes the waker that is registered or being
    registered, empties the cell and puts the word back to WAITING. *)
Theorem atomic_waker_delivers n tr s ths :
  aw_runs n tr (s, ths) → Z.testbit (aw_state s) 1 = true →
  ∃ t p evs, ths !! t = Some p ∧
    solo aw_step 5 s p = (atomic_waker_new, AIdle, evs) ∧
    wokes evs = waker_wake <$> option_list (pending_waker s p).
Proof.
  intros [owner HI]%aw_inv_runs Hb.
  destruct owner as [t|].
  2:{ assert (aw_state s = WAITING) as Hs by by apply (ai_free _ _ _ HI). by rewrite Hs in Hb. }
  destruct (ai_ok _ _ _ HI t eq_refl) as (p & Hp & Hok). exists t, p.
  destruct s as [x c].
  assert (∃ evs, solo aw_step 5 (mk_atomic_waker x c) p = (atomic_waker_new, AIdle, evs) ∧
    wokes evs = waker_wake <$> option_list (pending_waker (mk_atomic_waker x c) p)) as (evs & H).
  2:{ by exists evs. }
  destruct p; simpl in Hok, Hb; try done.
  - destruct Hok as [->| ->]; [done|]. eexists. by split.
  - destruct Hok as [[->| ->] [w ->]]; [done|]. eexists. by split.
  - destruct Hok as [-> [w ->]]. eexists. by split.
  - destruct Hok as [-> ->]. eexists. by split.
  - subst x. destruct c; eexists; by split.
  - destruct Hok as [-> ->]. destruct w; eexists; by split.
Qed.

(** Alone on a waiting word, [register] stores the waker of its caller and
    [wake] wakes the stored one, at most once; a [register] that meets a
    [wake] wakes its caller instead of storing it. *)
Theorem atomic_waker_alone s cx cur :
  (aw_state s = WAITING →
    let w := cell_update (aw_waker s) cx cur in
    solo aw_step 4 s (RegCas cx cur) = (mk_atomic_waker WAITING (Some w), AIdle, [Stored w]) ∧
    solo aw_step 5 s WakeOr =
      (atomic_waker_new, AIdle, (λ w, Woke (waker_wake w)) <$> option_list (aw_waker s))) ∧
  (aw_state s = WAKING →
    solo aw_step 4 s (RegCas cx cur) = (s, AIdle, [Woke (wake_caller cx cur)])).
Proof.
  destruct s as [x c]. split; simpl; intros ->; [split; [done|by destruct c]|done].
Qed.
End AtomicWaker.

(** ** Concrete runs: thread 0 registers, thread 1 wakes meanwhile, thread 2 too *)
Abbreviation nat_step := (aw_step Nat.eqb).

Lemma aw_example_runs sched tr c :
  exec nat_step aw_callb sched [] (aw_initial 3) = Some (tr, c) →
  runs nat_step aw_call (aw_initial 3) tr c.
Proof. apply (exec_runs nat_step aw_call aw_callb); [by intros|constructor]. Qed.

(** [register] holds the cell, one [wake] came. *)
Definition aw_threads (p0 p1 p2 : aw_pc (TW := nat)) : gmap nat aw_pc :=
  <[2%nat := p2]> (<[1%nat := p1]> (<[0%nat := p0]> (map_seq 0 (replicate 3 AIdle)))).

Lemma atomic_waker_exclusive_witness : accesses_cell (WakeOr (TW := nat)) = false.
Proof.
  apply (atomic_waker_exclusive Nat.eqb 3 [] (mk_atomic_waker 3 None)
    (aw_threads (RegCell (Some 7%nat) 0) AIdle WakeOr) 0 2
    (RegCell (Some 7%nat) 0) WakeOr); [|reflexivity|reflexivity|discriminate|reflexivity].
  apply (aw_example_runs [(0, Some (RegCas (Some 7) 0)); (0, None); (1, Some WakeOr); (1, None);
    (2, Some WakeOr)]%nat). vm_compute. reflexivity.
Defined.

Lemma atomic_waker_no_panic_witness :
  aw_threads (RegSwap (Async 7%nat)) AIdle AIdle !! 0%nat ≠ Some APanic.
Proof.
  apply (atomic_waker_no_panic Nat.eqb 3 [Stored (Async 7%nat)] (mk_atomic_waker 3 None)).
  apply (aw_example_runs [(0, Some (RegCas (Some 7) 0)); (0, None); (0, None); (1, Some WakeOr);
    (1, None); (0, None); (0, None)]%nat). vm_compute. reflexivity.
Defined.

Lemma atomic_waker_not_lost_witness :
  waker_wake (Async 7%nat) ∈ @nil (effect nat) ∨
  aw_waker (mk_atomic_waker 3 None) = Some (Async 7%nat) ∨
  ∃ t p, aw_threads (RegSwap (Async 7%nat)) AIdle AIdle !! t = Some p ∧
    in_flight p = Some (Async 7%nat).
Proof.
  apply (atomic_waker_not_lost Nat.eqb 3 [Stored (Async 7%nat)] (mk_atomic_waker 3 None));
    [|reflexivity].
  apply (aw_example_runs [(0, Some (RegCas (Some 7) 0)); (0, None); (0, None); (1, Some WakeOr);
    (1, None); (0, None); (0, None)]%nat). vm_compute. reflexivity.
Defined.

Lemma atomic_waker_delivers_witness :
  ∃ t p evs, aw_threads (RegCell None 0) AIdle AIdle !! t = Some p ∧
    solo nat_step 5 (mk_atomic_waker 3 None) p = (atomic_waker_new, AIdle, evs) ∧
    wokes evs = waker_wake <$> option_list (pending_waker Nat.eqb (mk_atomic_waker 3 None) p).
Proof.
  apply (atomic_waker_delivers Nat.eqb 3 []); [|reflexivity].
  apply (aw_example_runs [(0, Some (RegCas None 0)); (0, None); (1, Some WakeOr);
    (1, None)]%nat). vm_compute. reflexivity.
Defined.

Lemma atomic_waker_alone_witness :
  solo nat_step 4 (mk_atomic_waker WAKING None) (RegCas (Some 7%nat) 0) =
    (mk_atomic_waker WAKING None, AIdle, [Woke (WakeTask 7%nat)]).
Proof.
  pose proof (atomic_waker_alone Nat.eqb (mk_atomic_waker WAKING None) (Some 7%nat) 0) as [_ H].
  apply H. reflexivity.
Defined.
