(* ===== verification/WakerOrderings.v ===== *)
(** * The memory orderings of the waker of the dequeuer

    The [Ordering] arguments of [src/src/synchronized/atomic_waker.rs], and what the
    cell of the waker, which is not atomic, needs of them: with the memory of [Views],
    every access to the cell happens after all the previous ones. *)

From S2P Require Import Prelude Views Waker Interleave AtomicWaker.
Open Scope Z_scope.

(** ** The ordering arguments *)
Record aw_orderings : Type := mk_aw_orderings {
  (* register *)
  a_registering : ordering;
  a_registering_failed : ordering;
  a_registered : ordering;
  a_registered_failed : ordering;
  a_swap : ordering;
  (* wake *)
  a_waking : ordering;
  a_woken : ordering;
}.

Definition source_aw_orderings : aw_orderings := {|
  a_registering := Acquire;
  a_registering_failed := Acquire;
  a_registered := AcqRel;
  a_registered_failed := Acquire;
  a_swap := AcqRel;
  a_waking := AcqRel;
  a_woken := Release;
|}.

(** Whoever takes the cell acquires the word, whoever gives it back releases it. *)
Definition aw_sufficient (o : aw_orderings) : bool :=
  acquires (a_registering o) && acquires (a_waking o) &&
  releases (a_registered o) && releases (a_swap o) && releases (a_woken o).

Section WakerOrderings.
Context {TW : Type}.
Variable task_will_wake : TW → TW → bool.
Abbreviation aw_pc := (aw_pc (TW := TW)).
Abbreviation atomic_waker := (atomic_waker (TW := TW)).
(** One word, and one cell. *)
Abbreviation memory := (memory unit unit).

Definition aw_atomic_of (o : aw_orderings) (s : atomic_waker) (p : aw_pc) : atomic unit :=
  match p with
  | RegCas _ _ =>
      if aw_state s =? WAITING then ReadModifyWrite tt (a_registering o)
      else Load tt (a_registering_failed o)
  | RegDone =>
      if aw_state s =? REGISTERING then ReadModifyWrite tt (a_registered o)
      else Load tt (a_registered_failed o)
  | RegSwap _ => ReadModifyWrite tt (a_swap o)
  | WakeOr => ReadModifyWrite tt (a_waking o)
  | WakeAnd _ => ReadModifyWrite tt (a_woken o)
  | _ => NoAtomic
  end.

(** The accesses to the cell, of [accesses_cell]. *)
Definition aw_touch (p : aw_pc) : option unit := if accesses_cell p then Some tt else None.

Definition aw_memory_after (o : aw_orderings) (s : atomic_waker) (t : nat) (p : aw_pc)
    (m : memory) : memory :=
  synchronise t (aw_atomic_of o s p) (record_touch t (aw_touch p) m).

Inductive aw_ordered_run (o : aw_orderings) (n : nat)
    : memory → state (St := atomic_waker) (P := aw_pc) → Prop :=
  | aw_ordered_nil : aw_ordered_run o n initial_memory (aw_initial n)
  | aw_ordered_call m s ths t p p' :
      aw_ordered_run o n m (s, ths) → ths !! t = Some p → aw_call p p' →
      aw_ordered_run o n m (s, <[t := p']> ths)
  | aw_ordered_step m s ths t p s' p' evs :
      aw_ordered_run o n m (s, ths) → ths !! t = Some p →
      aw_step task_will_wake s p = Some (s', p', evs) →
      aw_ordered_run o n (aw_memory_after o s t p m) (s', <[t := p']> ths).

Definition cell_race_free (m : memory) (ths : gmap nat aw_pc) : Prop :=
  ∀ t p k, ths !! t = Some p → accesses_cell p = true →
    (k < length (m_log m))%nat → k ∈ m_view m t.

(** A schedule: [(t, Some p)] starts a call of thread [t] at [p], [(t, None)] is its
    next step. *)
Fixpoint aw_ordered_exec (o : aw_orderings) (sched : list (nat * option aw_pc))
    (m : memory) (c : state (St := atomic_waker) (P := aw_pc))
    : option (memory * state (St := atomic_waker) (P := aw_pc)) :=
  match sched with
  | [] => Some (m, c)
  | (t, Some p') :: sched =>
      p ← c.2 !! t;
      if aw_callb p p' then aw_ordered_exec o sched m (c.1, <[t := p']> c.2) else None
  | (t, None) :: sched =>
      p ← c.2 !! t;
      '(s', p', _) ← aw_step task_will_wake c.1 p;
      aw_ordered_exec o sched (aw_memory_after o c.1 t p m) (s', <[t := p']> c.2)
  end.

Lemma aw_ordered_exec_run o n sched : ∀ m c m' c',
  aw_ordered_run o n m c → aw_ordered_exec o sched m c = Some (m', c') →
  aw_ordered_run o n m' c'.
Proof.
  induction sched as [|[t [p'|]] sched IH]; intros m [s ths] m' c' Hr Hx; simpl in Hx.
  - by injection Hx as <- <-.
  - apply bind_Some in Hx as (p & Ht & Hx). destruct (aw_callb p p') eqn:Hc; [|done].
    eapply IH; [|exact Hx]. by eapply aw_ordered_call.
  - apply bind_Some in Hx as (p & Ht & Hx).
    apply bind_Some in Hx as ([[s' p'] evs] & Hs & Hx).
    eapply IH; [|exact Hx]. by eapply aw_ordered_step.
Qed.

Lemma aw_ordered_runs o n m c :
  aw_ordered_run o n m c → ∃ tr, runs (aw_step task_will_wake) aw_call (aw_initial n) tr c.
Proof.
  induction 1 as [|m s ths t p p' _ [tr IH] Ht Hc|m s ths t p s' p' evs _ [tr IH] Ht Hs].
  - eexists. constructor.
  - eexists. eapply runs_snoc; [exact IH|by eapply move_call].
  - eexists. eapply runs_snoc; [exact IH|by eapply move_step].
Qed.

Lemma aw_ordered_inv o n m s ths : aw_ordered_run o n m (s, ths) → aw_inv s ths.
Proof. intros [tr Hr]%aw_ordered_runs. by eapply aw_inv_runs. Qed.

(** ** The invariant: whoever owns the cell, or the word when nobody does, knows of
    every access. *)
Definition knows_all (m : memory) (X : gset nat) : Prop :=
  ∀ k, (k < length (m_log m))%nat → k ∈ X.

Definition aw_known (m : memory) (s : atomic_waker) (ths : gmap nat aw_pc) : Prop :=
  (∀ t p, ths !! t = Some p → owns p = true → knows_all m (m_view m t)) ∧
  (aw_state s = WAITING → knows_all m (m_msg m tt)).

Lemma touches_owner (p : aw_pc) : accesses_cell p = true → owns p = true.
Proof. by destruct p. Qed.

Lemma aw_no_store o s (p : aw_pc) l x : aw_atomic_of o s p ≠ Store l x.
Proof. destruct p; simpl; try done; by case_match. Qed.

(** A step of a thread that does not own the cell never frees the word. *)
Lemma aw_not_freed s (p : aw_pc) s' p' evs :
  owns p = false → aw_step task_will_wake s p = Some (s', p', evs) →
  aw_state s' = WAITING → aw_state s = WAITING.
Proof.
  intros Hp Hs Hw. destruct p; try discriminate Hp; simpl in Hs; simplify_eq; try done.
  - unfold reg_cas in Hs. by repeat case_match; simplify_eq.
  - unfold wake_or in Hs. exfalso.
    assert (Z.lor (aw_state s) WAKING = 0) as [_ ?]%Z.lor_eq_0_iff; [|done].
    by repeat case_match; simplify_eq.
Qed.

Section Step.
Variables (o : aw_orderings) (m : memory) (s s' : atomic_waker) (ths : gmap nat aw_pc).
Variables (t : nat) (p p' : aw_pc) (evs : list (aw_event (TW := TW))).
Hypothesis Hsuf : aw_sufficient o = true.
Hypothesis HI : aw_inv s ths.
Hypothesis HK : aw_known m s ths.
Hypothesis Ht : ths !! t = Some p.
Hypothesis Hs : aw_step task_will_wake s p = Some (s', p', evs).
Let m' : memory := aw_memory_after o s t p m.

Lemma aw_grows : grows t (option_list (aw_touch p)) m m'.
Proof using. apply step_grows. Qed.

Lemma aw_msg_grows : m_msg m tt ⊆ m_msg m' tt.
Proof using.
  unfold m', aw_memory_after. etrans; [|apply synchronise_msg].
  - by rewrite record_touch_msg.
  - intros x. apply aw_no_store.
Qed.

(** Nothing is logged but by an owner, which knows of what it logs. *)
Lemma aw_knows X : knows_all m X → X ⊆ m_view m' t → knows_all m' (m_view m' t).
Proof using.
  destruct aw_grows as [_ Hn Hv]. intros HX HXv k Hk.
  destruct (decide (k < length (m_log m))%nat) as [Hlt|]; [by apply HXv, HX|].
  apply Hn. lia.
Qed.

Lemma aw_log_same : owns p = false → length (m_log m') = length (m_log m).
Proof using.
  intros Hp. destruct aw_grows as [-> _ _]. rewrite length_app, length_fmap.
  unfold aw_touch. destruct (accesses_cell p) eqn:Ha; [by rewrite touches_owner in Hp|].
  simpl. lia.
Qed.

(** A step that takes the cell finds the word free, and acquires it. *)
Lemma aw_takes : owns p = false → owns p' = true →
  aw_state s = WAITING ∧ m_msg m tt ⊆ m_view m' t.
Proof using All.
  unfold aw_sufficient in Hsuf. rewrite !andb_true_iff in Hsuf. destruct_and? Hsuf.
  intros Hp Hp'. unfold m', aw_memory_after.
  destruct p; try discriminate Hp; simpl in Hs; simplify_eq; try discriminate Hp'.
  - unfold reg_cas in Hs. destruct (Z.eqb_spec (aw_state s) WAITING) as [Hw|];
      [|repeat case_match; simplify_eq; discriminate].
    split; [done|]. simpl. rewrite Hw. simpl. by apply (rmw_acquires t tt _ m).
  - unfold wake_or in Hs. destruct (Z.eqb_spec (aw_state s) WAITING) as [Hw|];
      [|repeat case_match; simplify_eq; discriminate].
    split; [done|]. by apply (rmw_acquires t tt _ m).
Qed.

(** A step that gives the cell back releases the word. *)
Lemma aw_gives : owns p = true → owns p' = false → p' ≠ APanic →
  m_view m' t ⊆ m_msg m' tt.
Proof using All.
  unfold aw_sufficient in Hsuf. rewrite !andb_true_iff in Hsuf. destruct_and? Hsuf.
  intros Hp Hp' Hn. unfold m', aw_memory_after.
  destruct p; try discriminate Hp; simpl in Hs; simplify_eq; try discriminate Hp'.
  - unfold reg_done in Hs. simpl. destruct (aw_state s =? REGISTERING); simplify_eq.
    + by apply rmw_releases.
    + case_match; simplify_eq; done.
  - by destruct (aw_waker s).
  - by apply rmw_releases.
  - by apply rmw_releases.
Qed.

Lemma aw_known_step : aw_known m' s' (<[t := p']> ths).
Proof using All.
  destruct HK as [Hown Hfree]. pose proof HI as [owner HI0].
  pose proof (aw_inv_step _ _ _ _ _ _ _ _ _ HI0 Ht Hs) as [owner' HI'].
  assert (<[t := p']> ths !! t = Some p') as Ht' by apply lookup_insert_eq.
  assert (p' ≠ APanic) as Hnp.
  { intros ->. by apply (ai_panic _ _ _ HI' t). }
  pose proof (gr_view _ _ _ _ aw_grows t) as Hv.
  destruct (owns p) eqn:Hp.
  - pose proof (aw_knows _ (Hown _ _ Ht Hp) Hv) as Hk. split.
    + intros t0 p0 [[<- _]|[Hne Ht0]]%lookup_insert_Some Hp0; [done|].
      apply (ai_owner _ _ _ HI0 _ _ Ht0) in Hp0. apply (ai_owner _ _ _ HI0 _ _ Ht) in Hp.
      congruence.
    + intros Hw k Hlt. apply aw_gives; [done| |done|by apply Hk].
      apply (ai_free _ _ _ HI') in Hw. destruct (owns p') eqn:Hp'; [|done].
      apply (ai_owner _ _ _ HI' _ _ Ht') in Hp'. congruence.
  - split.
    + intros t0 p0 [[<- <-]|[Hne Ht0]]%lookup_insert_Some Hp0.
      * destruct (aw_takes Hp Hp0) as [Hw Hsub]. by eapply aw_knows; [apply Hfree|].
      * intros k Hk. rewrite (aw_log_same Hp) in Hk.
        apply (gr_view _ _ _ _ aw_grows), (Hown _ _ Ht0 Hp0 _ Hk).
    + intros Hw k Hk. rewrite (aw_log_same Hp) in Hk. apply aw_msg_grows, Hfree; [|done].
      by eapply aw_not_freed.
Qed.
End Step.

Lemma aw_ordered_known o n m s ths :
  aw_sufficient o = true → aw_ordered_run o n m (s, ths) → aw_known m s ths.
Proof.
  intros Hsuf. remember (s, ths) as c eqn:Hc. intros Hr. revert s ths Hc.
  induction Hr as [|m s ths t p p' Hr IH Ht Hcall|m s ths t p s' p' evs Hr IH Ht Hs];
    intros s0 ths0 [= <- <-].
  - split; [|by intros _ k Hk%Nat.nlt_0_r].
    intros t p _ _ k Hk. by apply Nat.nlt_0_r in Hk.
  - destruct (IH _ _ eq_refl) as [Hown Hfree]. split; [|done].
    intros t0 p0 [[<- <-]|[_ Ht0]]%lookup_insert_Some Hp0; [|by eapply Hown].
    unfold aw_call in Hcall. by destruct p, p'.
  - eapply aw_known_step; eauto. by eapply aw_ordered_inv.
Qed.

(** C24: the cell of the waker is free of data races: with the orderings of
    [register] and [wake], in every interleaving, an access to the cell happens after
    all the accesses that were done, by whatever thread. *)
Theorem atomic_waker_race_free n m s ths :
  aw_ordered_run source_aw_orderings n m (s, ths) → cell_race_free m ths.
Proof.
  intros Hr t p k Ht Ha Hk.
  destruct (aw_ordered_known source_aw_orderings n m s ths eq_refl Hr) as [Hown _].
  by eapply (Hown t p Ht); [apply touches_owner|].
Qed.
End WakerOrderings.

(** ** A concrete run: thread 0 registers, and thread 1 is about to take the waker *)
Definition aw_register_wake : memory unit unit * state (St := atomic_waker) (P := aw_pc) :=
  default (initial_memory, aw_initial 2)
    (aw_ordered_exec Nat.eqb source_aw_orderings
       [(0, Some (RegCas (Some 7) 0)); (0, None); (0, None); (0, None);
        (1, Some WakeOr); (1, None)]%nat initial_memory (aw_initial 2)).

Lemma aw_register_wake_run :
  aw_ordered_run Nat.eqb source_aw_orderings 2 aw_register_wake.1 aw_register_wake.2.
Proof.
  unfold aw_register_wake. destruct (aw_ordered_exec _ _ _ _ _) as [[m c]|] eqn:Hx;
    [|constructor].
  eapply aw_ordered_exec_run; [constructor|exact Hx].
Qed.

Lemma atomic_waker_race_free_witness :
  m_log aw_register_wake.1 = [(0%nat, tt)] ∧ 0%nat ∈ m_view aw_register_wake.1 1%nat.
Proof.
  split; [vm_compute; reflexivity|].
  refine (atomic_waker_race_free Nat.eqb 2 _ aw_register_wake.2.1 aw_register_wake.2.2 _
            1%nat WakeTake 0%nat _ _ _); [|vm_compute; reflexivity..|vm_compute; lia].
  rewrite <- surjective_pairing. exact aw_register_wake_run.
Defined.
