(* ===== verification/Synchronized.v ===== *)
(** * The synchronized queue ([src/src/synchronized.rs])

    A queue whose notifier wakes the waiting callers: the queue of [Queue], the
    wakers of [WakerList] and [AtomicWaker], and the loops of the waiting
    methods. A thread is four program points, of which one runs at a time: its
    call on the queue, the notification or registration it is in the middle of
    (on the list of enqueuers or on the waker of the dequeuer), and, around
    them, where it is in a waiting method. A step of a thread is a step of the
    innermost one. *)

From S2P Require Import Prelude PackedWords Errors Buffers Queue Machine Waker Interleave.
From S2P Require Import WakerList AtomicWaker.
#[local] Open Scope Z_scope.

(** [dequeue_err] *)
Definition dequeue_err (error : TryDequeueError.t) : outcome DequeueError.t :=
  match error with
  | TryDequeueError.Closed => Ret DequeueError.Closed
  | TryDequeueError.Conflict => Ret DequeueError.Conflict
  | _ => Panic    (* unreachable! *)
  end.

Section Synchronized.
Context {B S V E TW : Type}.
Context `{Buffer B S, InsertIntoBuffer B V, Resize B, Drain B E, SliceMut B S E}.
(** [task::Waker]: whether two wakers are the same, and the task one wakes. *)
Variable task_will_wake : TW → TW → bool.
Variable task_of : TW → nat.

Abbreviation pc := (pc S V E).

(** How a waiting method waits: parking the thread, with or without a deadline,
    or by polls of its task, the last one with the waker [w]. *)
Inductive mode : Type :=
  | Blocking (deadline : bool)
  | Polled (w : TW).

(** Where a thread is in a waiting method; [k]: the turns of the spin loop left
    after this one. The value is in the call on the queue while it runs. *)
Inductive outer : Type :=
  | Direct                               (* in none: direct calls on the queue *)
  | EnqTry (m : mode) (k : nat)
  | EnqRegister (m : mode) (v : V)
  | EnqLast (m : mode)
  | EnqWait (m : mode) (v : V)
  | EnqFinal
  | EnqReady (res : result unit (TryEnqueueError.t V))
  | DeqTry (m : mode) (k : nat)
  | DeqRegister (m : mode)
  | DeqLast (m : mode)
  | DeqWait (m : mode)
  | DeqFinal
  | DeqFailed (e : DequeueError.t)               (* dequeue, dequeue_async *)
  | DeqTimedOut (e : TryDequeueError.t)          (* dequeue_timeout *)
  | Unreachable.

Record thread : Type := mk_thread {
  th_outer : outer;
  th_q : pc;
  th_list : wl_pc TW;
  th_cell : aw_pc (TW := TW);
}.

(** [signals]: the threads with an unpark token, and the tasks to be polled. *)
Record sync : Type := mk_sync {
  s_queue : Queue B;
  s_enqueuers : waker_list TW;
  s_dequeuer : atomic_waker (TW := TW);
  s_signals : gset nat;
  s_threads : gmap nat thread;
}.

(** Thread [t] blocks as itself, and is polled as the task [t]. *)
Definition mode_ok (t : nat) (m : mode) : bool :=
  match m with Blocking _ => true | Polled w => Nat.eqb (task_of w) t end.

Definition cx_of (m : mode) : option TW :=
  match m with Blocking _ => None | Polled w => Some w end.

(** Whom a waking wakes. *)
Definition target (e : effect TW) : nat :=
  match e with WakeTask w => task_of w | Unpark t => t end.

Definition targets_list (evs : list (wl_event TW)) : list nat :=
  omap (λ ev, match ev with Woken _ how => Some (target how) | _ => None end) evs.
Definition targets_cell (evs : list (aw_event (TW := TW))) : list nat :=
  omap (λ ev, match ev with Woke how => Some (target how) | _ => None end) evs.

(** ** The notifier
    [notify_dequeue] is a [wake] of the atomic waker, [notify_enqueue] one of
    the list; each starts where the queue calls it. *)
Definition notify_cell (evs : list (event S V E)) : aw_pc (TW := TW) :=
  if existsb (λ ev, match ev with EvNotifyDequeue => true | _ => false end) evs
  then WakeOr else AIdle.
Definition notify_list (evs : list (event S V E)) : wl_pc TW :=
  if existsb (λ ev, match ev with EvNotifyEnqueue => true | _ => false end) evs
  then WakeLoad else WIdle.

(** ** [try_enqueue], [enqueue_sync], [enqueue_async]: after an attempt *)
(** What the methods do with the result [res] of [queue.try_enqueue]: the value
    to wait with, when the capacity may become sufficient. *)
Definition enq_retry (q : Queue B) (res : result unit (TryEnqueueError.t V)) : option V :=
  match res with
  | Err (TryEnqueueError.InsufficientCapacity v) =>
      if size v <=? q_capacity q then Some v else None
  | _ => None
  end.

Definition after_enqueue (q : Queue B) (t : nat) (o : outer)
    (res : result unit (TryEnqueueError.t V)) : option thread :=
  match o with
  | EnqTry m k =>
      Some match enq_retry q res, k with
           | Some v, Datatypes.S k => mk_thread (EnqTry m k) (EnqStart v) WIdle AIdle
           | Some v, Datatypes.O =>
               mk_thread (EnqRegister m v) (EnqDone res)
                 (RegLock (waker_new (cx_of m) t)) AIdle
           | None, _ => mk_thread (EnqReady res) (EnqDone res) WIdle AIdle
           end
  | EnqLast m =>
      Some match enq_retry q res with
           | Some v => mk_thread (EnqWait m v) (EnqDone res) WIdle AIdle
           | None => mk_thread (EnqReady res) (EnqDone res) WIdle AIdle
           end
  | EnqFinal => Some (mk_thread (EnqReady res) (EnqDone res) WIdle AIdle)
  | _ => None
  end.

(** ** [try_dequeue], [dequeue_sync], [dequeue_async]: after an attempt *)
Definition deq_retry (e : TryDequeueError.t) : bool :=
  match e with TryDequeueError.Empty | TryDequeueError.Pending => true | _ => false end.

(** The error as the method returns it. *)
Definition deq_error (m : mode) (e : TryDequeueError.t) : outer :=
  match m with
  | Blocking true => DeqTimedOut e
  | _ => match dequeue_err e with Ret e => DeqFailed e | _ => Unreachable end
  end.

Definition after_dequeue (t : nat) (o : outer) (e : TryDequeueError.t) : option thread :=
  match o with
  | DeqTry m k =>
      Some (if deq_retry e
            then match k with
                 | Datatypes.S k => mk_thread (DeqTry m k) (DeqStart None) WIdle AIdle
                 | Datatypes.O =>
                     mk_thread (DeqRegister m) (DeqErr e) WIdle (RegCas (cx_of m) t)
                 end
            else mk_thread (deq_error m e) (DeqErr e) WIdle AIdle)
  | DeqLast m =>
      Some (if deq_retry e then mk_thread (DeqWait m) (DeqErr e) WIdle AIdle
            else mk_thread (deq_error m e) (DeqErr e) WIdle AIdle)
  | DeqFinal => Some (mk_thread (DeqTimedOut e) (DeqErr e) WIdle AIdle)
  | _ => None
  end.

(** A dequeued slice is handed to the caller. *)
Definition after_slice (o : outer) (p : pc) : option thread :=
  match o with
  | DeqTry _ _ | DeqLast _ | DeqFinal => Some (mk_thread Direct p WIdle AIdle)
  | _ => None
  end.

(** The next step of a waiting method whose calls have returned. *)
Definition outer_step (q : Queue B) (t : nat) (th : thread) : option thread :=
  match th_outer th with
  | EnqRegister m v => Some (mk_thread (EnqLast m) (EnqStart v) WIdle AIdle)
  | DeqRegister m => Some (mk_thread (DeqLast m) (DeqStart None) WIdle AIdle)
  | o =>
      match th_q th with
      | EnqDone res => after_enqueue q t o res
      | DeqErr e => after_dequeue t o e
      | Slice bs => after_slice o (Slice bs)
      | _ => None
      end
  end.

(** ** Steps *)
Definition list_idle (th : thread) : bool :=
  match th_list th with WIdle => true | _ => false end.
Definition cell_idle (th : thread) : bool :=
  match th_cell th with AIdle => true | _ => false end.

Definition set_th (c : sync) (t : nat) (th : thread) : gmap nat thread :=
  <[t := th]> (s_threads c).

(** The thread moves, and nothing else. *)
Definition set_thread_only (c : sync) (t : nat) (th : thread) : sync :=
  mk_sync (s_queue c) (s_enqueuers c) (s_dequeuer c) (s_signals c) (set_th c t th).

(** A step of [WakerList::register] or [WakerList::wake]. *)
Definition run_list (c : sync) (t : nat) (th : thread) : option sync :=
  '(s', p', evs) ← wl_step (s_enqueuers c) (th_list th);
  Some (mk_sync (s_queue c) s' (s_dequeuer c)
          (s_signals c ∪ list_to_set (targets_list evs))
          (set_th c t (mk_thread (th_outer th) (th_q th) p' (th_cell th)))).

(** A step of [AtomicWaker::register] or [AtomicWaker::wake]. *)
Definition run_cell (c : sync) (t : nat) (th : thread) : option sync :=
  '(s', p', evs) ← aw_step task_will_wake (s_dequeuer c) (th_cell th);
  Some (mk_sync (s_queue c) (s_enqueuers c) s'
          (s_signals c ∪ list_to_set (targets_cell evs))
          (set_th c t (mk_thread (th_outer th) (th_q th) (th_list th) p'))).

(** A step of the call on the queue, or what follows its return. *)
Definition run_queue (c : sync) (t : nat) (th : thread) (spurious : bool)
    : option (sync * list (event S V E)) :=
  match step spurious (s_queue c) (th_q th) with
  | Some (Ret (q', p', evs)) =>
      Some (mk_sync q' (s_enqueuers c) (s_dequeuer c) (s_signals c)
              (set_th c t (mk_thread (th_outer th) p' (notify_list evs) (notify_cell evs))),
            evs)
  | Some Panic =>
      Some (set_thread_only c t (mk_thread (th_outer th) Panicked WIdle AIdle), [])
  | Some UB =>
      Some (set_thread_only c t (mk_thread (th_outer th) Undefined WIdle AIdle), [])
  | None => th' ← outer_step (s_queue c) t th; Some (set_thread_only c t th', [])
  end.

Definition run_step (c : sync) (t : nat) (th : thread) (spurious : bool)
    : option (sync * list (event S V E)) :=
  if negb (list_idle th) then c' ← run_list c t th; Some (c', [])
  else if negb (cell_idle th) then c' ← run_cell c t th; Some (c', [])
  else run_queue c t th spurious.

Inductive sync_action : Type :=
  | SCall (c : call V E)                  (* a method of the queue *)
  | SEnqueue (m : mode) (v : V)         (* enqueue, enqueue_timeout, enqueue_async *)
  | SDequeue (m : mode)                 (* dequeue, dequeue_timeout, dequeue_async *)
  | SRun (spurious : bool)              (* the next step *)
  | SResume (m : mode)                  (* the thread is unparked or the task polled *)
  | SExpire                             (* the deadline has passed *)
  | SCancel.                            (* the pending future is dropped *)

(** Between calls. *)
Definition at_rest (o : outer) : bool :=
  match o with
  | Direct | EnqReady _ | DeqFailed _ | DeqTimedOut _ => true
  | _ => false
  end.

(** Parking consumes the token; a task is polled with another waker of it. *)
Definition same_mode (m m' : mode) : bool :=
  match m, m' with
  | Blocking d, Blocking d' => Bool.eqb d d'
  | Polled _, Polled _ => true
  | _, _ => false
  end.

(** A turn of the loop of [enqueue_sync] or [dequeue_sync], or a poll of
    [enqueue_async] or [dequeue_async]: a call of [try_enqueue] or [try_dequeue]. *)
Definition enqueue_turn (m : mode) (v : V) : thread :=
  mk_thread (EnqTry m (SPIN_LIMIT - 1)) (EnqStart v) WIdle AIdle.
Definition dequeue_turn (m : mode) : thread :=
  mk_thread (DeqTry m (SPIN_LIMIT - 1)) (DeqStart None) WIdle AIdle.

(** [wait_until] returns [false]: woken, or spuriously; and [true]: too late. *)
Definition resume (o : outer) (m' : mode) : option thread :=
  match o with
  | EnqWait m v => if same_mode m m' then Some (enqueue_turn m' v) else None
  | DeqWait m => if same_mode m m' then Some (dequeue_turn m') else None
  | _ => None
  end.

Definition expire (o : outer) : option thread :=
  match o with
  | EnqWait (Blocking true) v => Some (mk_thread EnqFinal (EnqStart v) WIdle AIdle)
  | DeqWait (Blocking true) => Some (mk_thread DeqFinal (DeqStart None) WIdle AIdle)
  | _ => None
  end.

(** A future dropped between two polls: its value goes with it, and its waker stays
    where it was registered. *)
Definition cancel (th : thread) : option thread :=
  match th_outer th with
  | EnqWait (Polled _) _ | DeqWait (Polled _) => Some (mk_thread Direct (th_q th) WIdle AIdle)
  | _ => None
  end.

Definition sync_start (th : thread) (c : call V E) (o : outer)
    : option (thread * list (event S V E)) :=
  if at_rest (th_outer th) && list_idle th && cell_idle th
  then '(p', evs) ← start_call (th_q th) c; Some (mk_thread o p' WIdle AIdle, evs)
  else None.

(** The client of thread [t] acts; [None]: it cannot. *)
Definition sync_act (c : sync) (t : nat) (a : sync_action)
    : option (sync * list (event S V E)) :=
  th ← s_threads c !! t;
  match a with
  | SCall m => '(th', evs) ← sync_start th m Direct; Some (set_thread_only c t th', evs)
  | SEnqueue m v =>
      if mode_ok t m
      then '(th', evs) ← sync_start th (TryEnqueue v) (EnqTry m (SPIN_LIMIT - 1));
           Some (set_thread_only c t th', evs)
      else None
  | SDequeue m =>
      if mode_ok t m
      then '(th', evs) ← sync_start th TryDequeue (DeqTry m (SPIN_LIMIT - 1));
           Some (set_thread_only c t th', evs)
      else None
  | SRun spurious => run_step c t th spurious
  | SResume m =>
      if mode_ok t m
      then th' ← resume (th_outer th) m;
           Some (mk_sync (s_queue c) (s_enqueuers c) (s_dequeuer c)
                   (s_signals c ∖ {[t]}) (set_th c t th'), [])
      else None
  | SExpire => th' ← expire (th_outer th); Some (set_thread_only c t th', [])
  | SCancel => th' ← cancel th; Some (set_thread_only c t th', [])
  end.

(** ** The public methods *)
Definition enqueue (v : V) : sync_action := SEnqueue (Blocking false) v.
Definition enqueue_timeout (v : V) : sync_action := SEnqueue (Blocking true) v.
Definition enqueue_async (cx : TW) (v : V) : sync_action := SEnqueue (Polled cx) v.
Definition dequeue : sync_action := SDequeue (Blocking false).
Definition dequeue_timeout : sync_action := SDequeue (Blocking true).
Definition dequeue_async (cx : TW) : sync_action := SDequeue (Polled cx).

(** [iter]: what the iterator does next with its thread between two calls. It
    dequeues, then iterates over the slice ([flatten]), whose iterator it drops at
    its end; the first error ends it ([map_while]): [None]. *)
Definition queue_iter (th : thread) : option sync_action :=
  match th_outer th, th_q th with
  | DeqFailed _, _ => None
  | _, Slice _ => Some (SCall SliceIntoIter)
  | _, Iter _ (Some None) => Some (SCall IterDrop)
  | _, Iter _ _ => Some (SCall IterNext)
  | _, _ => Some dequeue
  end.
End Synchronized.
Arguments mode : clear implicits.
Arguments outer : clear implicits.
Arguments thread : clear implicits.
Arguments sync : clear implicits.
Arguments sync_action : clear implicits.
