(* ===== verification/SyncRuns.v ===== *)
(** * Executions of the synchronized queue

    The queue, the list of wakers and the atomic waker of a synchronized queue
    each follow their own machine: an execution projects to an execution of
    [Machine], and to runs of [WakerList] and [AtomicWaker]. Their theorems hold
    of it. *)

From S2P Require Import Prelude PackedWords Errors Buffers CellBuffers Queue Machine Scenario.
From S2P Require Import Waker Interleave.
From S2P Require Import WakerList AtomicWaker Invariant Preservation StepInvariant Concurrent.
From S2P Require Import Synchronized.
#[local] Open Scope Z_scope.

Section SyncRuns.
Context {B S V E Ob TW : Type}.
Context `{L : BufferLaws B S V E Ob}.
Variable task_will_wake : TW → TW → bool.
Variable task_of : TW → nat.

Abbreviation pc := (pc S V E).
Abbreviation event := (event S V E).
Abbreviation sync := (sync B S V E TW).
Abbreviation thread := (thread S V E TW).
Abbreviation sync_action := (sync_action V E TW).
Abbreviation act_of := (sync_act task_will_wake task_of).

(** A new queue whose [n] threads are between calls. *)
Definition sync_initial (q : Queue B) (n : nat) : sync :=
  mk_sync q default atomic_waker_new ∅
    (map_seq 0 (replicate n (mk_thread Direct Idle WIdle AIdle))).

Definition sync_ok (strict : bool) (a : sync_action) : Prop :=
  match a with
  | SCall c => call_ok strict c
  | SEnqueue _ v => valid_value v
  | _ => True
  end.

Inductive sync_run (strict : bool) (n : nat) (q0 : Queue B) : list event → sync → Prop :=
  | sync_run_nil : built q0 → sync_run strict n q0 [] (sync_initial q0 n)
  | sync_run_snoc tr c t a c' evs :
      sync_run strict n q0 tr c → sync_ok strict a → act_of c t a = Some (c', evs) →
      sync_run strict n q0 (tr ++ evs) c'.

(** ** Threads in a waiting method *)
(** The value of a call of [try_enqueue], while it may come back. *)
Definition q_valid (p : pc) : Prop :=
  match p with
  | EnqStart v | EnqLoop v _ _ | EnqDone (Err (TryEnqueueError.InsufficientCapacity v))
  | EnqDone (Err (TryEnqueueError.Closed v)) => valid_value v
  | _ => True
  end.

Record thread_wf (th : thread) : Prop := {
  tw_one : th_list th = WIdle ∨ th_cell th = AIdle;
  tw_valid : q_valid (th_q th);
  tw_outer :
    match th_outer th with
    | EnqRegister _ v =>
        th_q th = EnqDone (Err (TryEnqueueError.InsufficientCapacity v)) ∧ th_cell th = AIdle
    | EnqWait _ v =>
        th_q th = EnqDone (Err (TryEnqueueError.InsufficientCapacity v)) ∧
        th_list th = WIdle ∧ th_cell th = AIdle
    | DeqRegister _ => (∃ e, th_q th = DeqErr e) ∧ th_list th = WIdle
    | DeqWait _ => (∃ e, th_q th = DeqErr e) ∧ th_list th = WIdle ∧ th_cell th = AIdle
    | _ => True
    end;
}.

(** ** The three projections *)
Definition proj_q (c : sync) : config B S V E :=
  mk_config (s_queue c) (th_q <$> s_threads c).
Definition proj_list (c : sync) : state (St := waker_list TW) (P := wl_pc TW) :=
  (s_enqueuers c, th_list <$> s_threads c).
Definition proj_cell (c : sync) : state (St := atomic_waker) (P := aw_pc (TW := TW)) :=
  (s_dequeuer c, th_cell <$> s_threads c).

(** A step of a thread, seen by each machine: it stutters, or it is one of its
    steps. *)
Record sync_move (strict : bool) (c : sync) (t : nat) (th th' : thread) (c' : sync) (evs : list event)
    (levs : list (wl_event TW)) (cevs : list (aw_event (TW := TW))) : Prop := {
  sm_thread : s_threads c !! t = Some th;
  sm_threads : s_threads c' = <[t := th']> (s_threads c);
  sm_queue :
    (s_queue c' = s_queue c ∧ th_q th' = th_q th ∧ evs = []) ∨
    ∃ a, action_ok strict a ∧
      act (proj_q c) t a = Some (mk_config (s_queue c') (<[t := th_q th']> (th_q <$> s_threads c)), evs);
  sm_list :
    (s_enqueuers c' = s_enqueuers c ∧ th_list th' = th_list th ∧ levs = []) ∨
    (s_enqueuers c' = s_enqueuers c ∧ wl_call (th_list th) (th_list th') ∧ levs = []) ∨
    wl_step (s_enqueuers c) (th_list th) = Some (s_enqueuers c', th_list th', levs);
  sm_cell :
    (s_dequeuer c' = s_dequeuer c ∧ th_cell th' = th_cell th ∧ cevs = []) ∨
    (s_dequeuer c' = s_dequeuer c ∧ aw_call (th_cell th) (th_cell th') ∧ cevs = []) ∨
    aw_step task_will_wake (s_dequeuer c) (th_cell th) = Some (s_dequeuer c', th_cell th', cevs);
}.

(** ** Every action is such a move *)
Lemma step_valid sp (q q' : Queue B) p p' evs :
  step sp q p = Some (Ret (q', p', evs)) → q_valid p → q_valid p'.
Proof.
  intros Hs Hp. destruct p; simpl in Hs; try discriminate; apply (inj Some) in Hs;
    try (unfold_call_in Hs; inv_ret Hs; done).
  - unfold enq_start in Hs. by inv_ret Hs.
  - unfold enq_loop in Hs. by inv_ret Hs.
Qed.

Lemma start_ready p (c : call V E) p' evs :
  match c with TryEnqueue _ | TryDequeue => True | _ => False end →
  start_call (S := S) (E := E) p c = Some (p', evs) → ready p = true ∧ evs = [].
Proof. destruct c; try done; simpl; intros _; destruct (ready p); naive_solver. Qed.

Lemma start_valid strict p (c : call V E) p' evs :
  start_call (S := S) (E := E) p c = Some (p', evs) → call_ok strict c → q_valid p'.
Proof.
  intros Hs Hc. unfold_start_in Hs.
  destruct c; repeat (case_match; try discriminate); by simplify_eq.
Qed.

(** A call of the queue, in the projection. *)
Lemma proj_call strict c t th m p' evs :
  s_threads c !! t = Some th → call_ok strict m → start_call (th_q th) m = Some (p', evs) →
  ∃ a, action_ok strict a ∧
    act (proj_q c) t a = Some (mk_config (s_queue c) (<[t := p']> (th_q <$> s_threads c)), evs).
Proof.
  intros Ht Hm Hs. exists (Call m). split; [done|]. unfold act. simpl.
  rewrite lookup_fmap, Ht. simpl. by rewrite Hs.
Qed.

Lemma start_enqueue p (v : V) :
  ready p = true → start_call (S := S) (E := E) p (TryEnqueue v) = Some (EnqStart v, []).
Proof. intros Hp. simpl. by rewrite Hp. Qed.

Lemma start_dequeue p :
  ready p = true → start_call (V := V) (S := S) (E := E) p TryDequeue = Some (DeqStart None, []).
Proof. intros Hp. simpl. by rewrite Hp. Qed.
Lemma notify_list_call (evs : list event) : notify_list (TW := TW) evs = WIdle ∨
  wl_call (TW := TW) WIdle (notify_list (TW := TW) evs).
Proof. unfold notify_list. case_match; [right|by left]. split; auto. Qed.

Lemma notify_cell_call (evs : list event) : notify_cell (TW := TW) evs = AIdle ∨
  aw_call (TW := TW) AIdle (notify_cell (TW := TW) evs).
Proof. unfold notify_cell. case_match; [by right|by left]. Qed.

Lemma list_idle_true th : list_idle (S := S) (V := V) (E := E) (TW := TW) th = true ↔ th_list th = WIdle.
Proof. unfold list_idle. by destruct (th_list th). Qed.
Lemma cell_idle_true th : cell_idle (S := S) (V := V) (E := E) (TW := TW) th = true ↔ th_cell th = AIdle.
Proof. unfold cell_idle. by destruct (th_cell th). Qed.

(** The signals after a move. *)
Definition signals_move (a : sync_action) (t : nat) (c c' : sync) levs cevs : Prop :=
  match a with
  | SResume _ => s_signals c' = s_signals c ∖ {[t]} ∧ levs = [] ∧ cevs = []
  | _ => s_signals c' = s_signals c ∪ list_to_set (targets_list task_of levs)
                          ∪ list_to_set (targets_cell task_of cevs)
  end.

Lemma move_list strict c t th c' :
  s_threads c !! t = Some th → thread_wf th → list_idle th = false →
  run_list task_of c t th = Some c' →
  ∃ th' levs, sync_move strict c t th th' c' [] levs [] ∧ thread_wf th' ∧
    th_outer th' = th_outer th ∧ th_q th' = th_q th ∧ th_cell th' = th_cell th ∧
    s_queue c' = s_queue c ∧ s_dequeuer c' = s_dequeuer c ∧
    wl_step (s_enqueuers c) (th_list th) = Some (s_enqueuers c', th_list th', levs) ∧
    s_signals c' = s_signals c ∪ list_to_set (targets_list task_of levs).
Proof.
  intros Ht [Hone Hv Ho] Hidle Hr. unfold run_list in Hr.
  apply bind_Some in Hr as ([[s' p'] levs] & Hs & [= <-]).
  assert (th_list th ≠ WIdle) as Hne by (intros Hc%list_idle_true; congruence).
  exists (mk_thread (th_outer th) (th_q th) p' (th_cell th)), levs. simpl. split_and!; try done.
  - split; simpl; auto.
  - split; simpl; [tauto|done|].
    destruct (th_outer th); try done; tauto.
Qed.

Lemma move_cell strict c t th c' :
  s_threads c !! t = Some th → thread_wf th → list_idle th = true → cell_idle th = false →
  run_cell task_will_wake task_of c t th = Some c' →
  ∃ th' cevs, sync_move strict c t th th' c' [] [] cevs ∧ thread_wf th' ∧
    th_outer th' = th_outer th ∧ th_q th' = th_q th ∧ th_list th' = WIdle ∧
    s_queue c' = s_queue c ∧ s_enqueuers c' = s_enqueuers c ∧
    aw_step task_will_wake (s_dequeuer c) (th_cell th) = Some (s_dequeuer c', th_cell th', cevs) ∧
    s_signals c' = s_signals c ∪ list_to_set (targets_cell task_of cevs).
Proof.
  intros Ht [Hone Hv Ho] Hl%list_idle_true Hidle Hr. unfold run_cell in Hr.
  apply bind_Some in Hr as ([[s' p'] cevs] & Hs & [= <-]).
  assert (th_cell th ≠ AIdle) as Hne by (intros Hc%cell_idle_true; congruence).
  exists (mk_thread (th_outer th) (th_q th) (th_list th) p'), cevs. simpl. split_and!; try done.
  - split; simpl; auto.
  - split; simpl; [tauto|done|].
    destruct (th_outer th); try done; tauto.
Qed.
(** A move of a thread that leaves the shared state alone: it may start a call of
    each machine. *)
Record starts (th th' : thread) (evs : list event) (strict : bool) : Prop := {
  st_q : (th_q th' = th_q th ∧ evs = []) ∨
    ∃ m, call_ok strict m ∧ start_call (th_q th) m = Some (th_q th', evs);
  st_list : th_list th = WIdle ∧ (th_list th' = WIdle ∨ wl_call (TW := TW) WIdle (th_list th'));
  st_cell : th_cell th = AIdle ∧ (th_cell th' = AIdle ∨ aw_call (TW := TW) AIdle (th_cell th'));
}.

Lemma move_starts strict c t th th' c' evs :
  s_threads c !! t = Some th → starts th th' evs strict →
  s_queue c' = s_queue c → s_enqueuers c' = s_enqueuers c → s_dequeuer c' = s_dequeuer c →
  s_threads c' = <[t := th']> (s_threads c) →
  sync_move strict c t th th' c' evs [] [].
Proof.
  intros Ht [Hq [Hl Hl'] [Hc Hc']] Eq Ee Ed Et. split; try done; rewrite ?Eq, ?Ee, ?Ed.
  - destruct Hq as [[-> ->]|(m & Hm & Hs)]; [by left|right].
    by eapply proj_call.
  - rewrite Hl. destruct Hl' as [->|?]; auto.
  - rewrite Hc. destruct Hc' as [->|?]; auto.
Qed.

Lemma reg_list_call cx t : wl_call (TW := TW) WIdle (RegLock (waker_new cx t)).
Proof. split; eauto. Qed.
Lemma reg_cell_call cx t : aw_call (TW := TW) AIdle (RegCas cx t).
Proof. done. Qed.
#[local] Hint Resolve reg_list_call reg_cell_call : core.

Lemma after_enqueue_starts strict q t o res th' l cl :
  after_enqueue q t o res = Some th' → q_valid (EnqDone res) →
  l = WIdle → cl = AIdle →
  thread_wf th' ∧ starts (mk_thread o (EnqDone res) l cl) th' [] strict.
Proof.
  intros Ho Hv -> ->.
  assert (∀ v, enq_retry q res = Some v →
    res = Err (TryEnqueueError.InsufficientCapacity v) ∧ valid_value v) as Hres.
  { intros v Hr. unfold enq_retry in Hr. destruct res as [|[v'|v']]; try done.
    case_match; [by simplify_eq|done]. }
  destruct o; simpl in Ho; try done; simplify_eq.
  - destruct (enq_retry q res) as [v|] eqn:Hr; [|by repeat split; simpl; auto].
    destruct (Hres v eq_refl) as [-> Hvv].
    destruct k; [by repeat split; simpl; eauto|]. split; [by split; simpl; auto|].
    split; simpl; auto. right. by exists (TryEnqueue v).
  - destruct (enq_retry q res) as [v|] eqn:Hr; [|by repeat split; simpl; auto].
    destruct (Hres v eq_refl) as [-> Hvv]. by repeat split; simpl; auto.
  - by repeat split; simpl; auto.
Qed.

Lemma after_dequeue_starts strict t o e th' l cl :
  after_dequeue t o e = Some th' → l = WIdle → cl = AIdle →
  thread_wf th' ∧ starts (mk_thread o (DeqErr e) l cl) th' [] strict.
Proof.
  intros Ho -> ->. destruct o; simpl in Ho; try done; simplify_eq.
  - destruct (deq_retry e).
    + destruct k; [by repeat split; simpl; eauto|]. split; [by split; simpl; auto|].
      split; simpl; auto. right. by exists TryDequeue.
    + unfold deq_error. repeat split; simpl; auto; repeat case_match; auto; by simplify_eq.
  - destruct (deq_retry e); [by repeat split; simpl; eauto|].
    unfold deq_error. repeat split; simpl; auto; repeat case_match; auto; by simplify_eq.
  - by repeat split; simpl; auto.
Qed.

(** What can follow the return of the calls. *)
Lemma outer_step_inv (q : Queue B) t (th th' : thread) :
  outer_step q t th = Some th' →
  (∃ m v, th_outer th = EnqRegister m v ∧ th' = mk_thread (EnqLast m) (EnqStart v) WIdle AIdle) ∨
  (∃ m, th_outer th = DeqRegister m ∧ th' = mk_thread (DeqLast m) (DeqStart None) WIdle AIdle) ∨
  (∃ res, th_q th = EnqDone res ∧ after_enqueue q t (th_outer th) res = Some th') ∨
  (∃ e, th_q th = DeqErr e ∧ after_dequeue t (th_outer th) e = Some th') ∨
  (∃ bs, th_q th = Slice bs ∧ after_slice (th_outer th) (Slice bs) = Some th').
Proof.
  unfold outer_step. destruct th as [o p l cl]; simpl. intros Hs.
  destruct o; simplify_eq; eauto 6; destruct p; try done; eauto 10.
Qed.

Lemma outer_step_starts strict q t th th' :
  thread_wf th → th_list th = WIdle → th_cell th = AIdle → outer_step q t th = Some th' →
  thread_wf th' ∧ starts th th' [] strict.
Proof.
  intros [_ Hv Ho] Hl Hc Hs. destruct th as [o p l cl]; simpl in *. subst l cl.
  apply outer_step_inv in Hs. simpl in Hs. destruct Hs as
    [(m & v & -> & ->)|[(m & -> & ->)|[(res & -> & Ha)|[(e & -> & Ha)|(bs & -> & Ha)]]]];
    simpl in *.
  - destruct Ho as [-> _]. split; [by split; simpl; auto|].
    split; simpl; auto. right. by exists (TryEnqueue v).
  - destruct Ho as [[e ->] _]. split; [by split; simpl; auto|].
    split; simpl; auto. right. by exists TryDequeue.
  - by eapply after_enqueue_starts.
  - by eapply after_dequeue_starts.
  - destruct o; simpl in Ha; simplify_eq; by repeat split; simpl; auto.
Qed.

(** A step of the queue notifies one side at most. *)
Lemma step_notifies sp (q q' : Queue B) p p' evs :
  step sp q p = Some (Ret (q', p', evs)) →
  notify_list (TW := TW) evs = WIdle ∨ notify_cell (TW := TW) evs = AIdle.
Proof.
  intros Hs. destruct p; simpl in Hs; try discriminate; apply (inj Some) in Hs;
    unfold_step_in Hs;
    inv_ret Hs; auto.
Qed.

(** In a method that waits or registers, the call on the queue is over. *)
Lemma wf_stepping sp (q : Queue B) th o :
  thread_wf th → step sp q (th_q th) = Some o →
  match th_outer th with
  | EnqRegister _ _ | EnqWait _ _ | DeqRegister _ | DeqWait _ => False
  | _ => True
  end.
Proof.
  intros [_ _ Ho] Hs. destruct (th_outer th); try done.
  - destruct Ho as [Ho _]. by rewrite Ho in Hs.
  - destruct Ho as [Ho _]. by rewrite Ho in Hs.
  - destruct Ho as [[e Ho] _]. by rewrite Ho in Hs.
  - destruct Ho as [[e Ho] _]. by rewrite Ho in Hs.
Qed.

(** The step of the call on the queue, with the notification it starts. *)
Definition queue_next (th : thread) (o : outcome (Queue B * pc * list event)) : thread :=
  match o with
  | Ret (_, p', evs) => mk_thread (th_outer th) p' (notify_list evs) (notify_cell evs)
  | Panic => mk_thread (th_outer th) Panicked WIdle AIdle
  | UB => mk_thread (th_outer th) Undefined WIdle AIdle
  end.

Lemma move_step strict c t th sp o c' evs :
  s_threads c !! t = Some th → thread_wf th → th_list th = WIdle → th_cell th = AIdle →
  step sp (s_queue c) (th_q th) = Some o → run_queue c t th sp = Some (c', evs) →
  let th' := queue_next th o in
  sync_move strict c t th th' c' evs [] [] ∧ thread_wf th' ∧
  s_signals c' = s_signals c ∧
  match o with Ret (q', _, evs') => s_queue c' = q' ∧ evs = evs' | _ => s_queue c' = s_queue c end.
Proof.
  intros Ht Hwf Hl Hc Hs Hr. unfold run_queue in Hr. rewrite Hs in Hr.
  pose proof (wf_stepping _ _ _ _ Hwf Hs) as Hout. pose proof (tw_valid _ Hwf) as Hv.
  assert (∀ x evs', act (proj_q c) t (Run sp) = Some (x, evs') →
    ∃ a, action_ok strict a ∧ act (proj_q c) t a = Some (x, evs')) as Hact by by exists (Run sp).
  assert (act (proj_q c) t (Run sp) = Some match o with
    | Ret (q', p', evs) => (mk_config q' (<[t := p']> (th_q <$> s_threads c)), evs)
    | Panic => (mk_config (s_queue c) (<[t := Panicked]> (th_q <$> s_threads c)), [])
    | UB => (mk_config (s_queue c) (<[t := Undefined]> (th_q <$> s_threads c)), [])
    end) as Ha.
  { unfold act. simpl. rewrite lookup_fmap, Ht. simpl. by rewrite Hs. }
  destruct o as [[[q' p'] evs']| |]; simplify_eq/=.
  - split_and!; try done; split; simpl; auto.
    + rewrite Hl. destruct (notify_list_call evs) as [->|?]; auto.
    + rewrite Hc. destruct (notify_cell_call evs) as [->|?]; auto.
    + by eapply step_notifies.
    + by eapply step_valid.
    + by destruct (th_outer th).
  - split_and!; try done; split; simpl; auto; try (by rewrite ?Hl, ?Hc; auto).
    by destruct (th_outer th).
  - split_and!; try done; split; simpl; auto; try (by rewrite ?Hl, ?Hc; auto).
    by destruct (th_outer th).
Qed.

Lemma sync_start_starts strict th m o th' evs :
  call_ok strict m → (∀ m v, o ≠ EnqRegister m v ∧ o ≠ EnqWait m v) →
  (∀ m, o ≠ DeqRegister m ∧ o ≠ DeqWait m) →
  sync_start th m o = Some (th', evs) → thread_wf th' ∧ starts th th' evs strict.
Proof.
  intros Hm Ho1 Ho2 Hs. unfold sync_start in Hs.
  destruct (at_rest _ && list_idle th && cell_idle th) eqn:Hb; [|done].
  apply andb_true_iff in Hb as [Hb Hc%cell_idle_true].
  apply andb_true_iff in Hb as [_ Hl%list_idle_true].
  apply bind_Some in Hs as ([p' evs'] & Hs & [= <- <-]).
  split; split; simpl; auto.
  - by eapply start_valid.
  - destruct o; try done; first [by destruct (Ho1 m0 v) | by destruct (Ho2 m0)].
  - right. eauto.
Qed.

Lemma resume_starts strict th m th' :
  thread_wf th → resume (th_outer th) m = Some th' → thread_wf th' ∧ starts th th' [] strict.
Proof.
  intros [_ Hv Ho] Hs. destruct th as [o p l cl]. destruct o; simpl in *; try done.
  - destruct Ho as (-> & -> & ->). case_match; [|done]. simplify_eq. split; [by split; simpl; auto|].
    split; simpl; auto. right. by exists (TryEnqueue v).
  - destruct Ho as ([e ->] & -> & ->). case_match; [|done]. simplify_eq. split; [by split; simpl; auto|].
    split; simpl; auto. right. by exists TryDequeue.
Qed.

Lemma expire_starts strict th th' :
  thread_wf th → expire (th_outer th) = Some th' → thread_wf th' ∧ starts th th' [] strict.
Proof.
  intros [_ Hv Ho] Hs. destruct th as [o p l cl].
  destruct o as [| | | |[[]|] v| | | | | |[[]|]| | | | ]; simpl in *; try done; simplify_eq.
  - destruct Ho as (-> & -> & ->). split; [by split; simpl; auto|].
    split; simpl; auto. right. by exists (TryEnqueue v).
  - destruct Ho as ([e ->] & -> & ->). split; [by split; simpl; auto|].
    split; simpl; auto. right. by exists TryDequeue.
Qed.

Lemma cancel_starts strict th th' :
  thread_wf th → cancel th = Some th' → thread_wf th' ∧ starts th th' [] strict.
Proof.
  intros [_ Hv Ho] Hs. destruct th as [o p l cl]. unfold cancel in Hs.
  destruct o as [| | | |[|] v| | | | | |[|]| | | | ]; simpl in *; try done; simplify_eq.
  - destruct Ho as (-> & -> & ->). by repeat split; simpl; auto.
  - destruct Ho as ([e ->] & -> & ->). by repeat split; simpl; auto.
Qed.

Lemma signals_quiet (sg : gset nat) :
  sg = sg ∪ list_to_set (targets_list task_of []) ∪ list_to_set (targets_cell task_of []).
Proof. unfold targets_list, targets_cell. simpl. by rewrite !(right_id_L ∅ (∪)). Qed.

Lemma starts_move strict c t th th' evs sig :
  s_threads c !! t = Some th → thread_wf th' ∧ starts th th' evs strict →
  let c' := mk_sync (s_queue c) (s_enqueuers c) (s_dequeuer c) sig (set_th c t th') in
  sync_move strict c t th th' c' evs [] [] ∧ thread_wf th'.
Proof. intros Ht [Hwf Hst]. split; [by eapply move_starts|done]. Qed.

(** A step is a move of its thread. *)
Lemma run_step_move strict c t th sp c' evs :
  s_threads c !! t = Some th → thread_wf th →
  run_step task_will_wake task_of c t th sp = Some (c', evs) →
  ∃ th' levs cevs, sync_move strict c t th th' c' evs levs cevs ∧ thread_wf th' ∧
    s_signals c' = s_signals c ∪ list_to_set (targets_list task_of levs)
                          ∪ list_to_set (targets_cell task_of cevs).
Proof.
  intros Ht Hwf Hs. unfold run_step in Hs.
  destruct (list_idle th) eqn:Hl; simpl in Hs;
    [destruct (cell_idle th) eqn:Hc; simpl in Hs|].
  - apply list_idle_true in Hl. apply cell_idle_true in Hc.
    destruct (step sp (s_queue c) (th_q th)) as [o|] eqn:Hst'.
    + destruct (move_step strict _ _ _ _ _ _ _ Ht Hwf Hl Hc Hst' Hs) as (Hm & Hwf' & -> & _).
      exists (queue_next th o), [], []. split_and!; try done. apply signals_quiet.
    + unfold run_queue in Hs. rewrite Hst' in Hs.
      apply bind_Some in Hs as (th' & Hs & [= <- <-]).
      apply (outer_step_starts strict) in Hs; try done.
      destruct (starts_move _ _ _ _ _ _ (s_signals c) Ht Hs) as [Hm Hwf'].
      exists th', [], []. split_and!; try done. apply signals_quiet.
  - apply bind_Some in Hs as (c1 & Hs & [= <- <-]).
    destruct (move_cell strict _ _ _ _ Ht Hwf Hl Hc Hs)
      as (th' & cevs & Hm & Hwf' & _ & _ & _ & _ & _ & _ & ->).
    exists th', [], cevs. split_and!; try done. unfold targets_list, targets_cell. simpl.
    by rewrite (right_id_L ∅ (∪)).
  - apply bind_Some in Hs as (c1 & Hs & [= <- <-]).
    destruct (move_list strict _ _ _ _ Ht Hwf Hl Hs)
      as (th' & levs & Hm & Hwf' & _ & _ & _ & _ & _ & _ & ->).
    exists th', levs, []. split_and!; try done. unfold targets_list, targets_cell. simpl.
    by rewrite (right_id_L ∅ (∪)).
Qed.

(** Every action is a move of its thread. *)
Lemma sync_act_move strict c t th a c' evs :
  s_threads c !! t = Some th → thread_wf th → sync_ok strict a →
  act_of c t a = Some (c', evs) →
  ∃ th' levs cevs, sync_move strict c t th th' c' evs levs cevs ∧ thread_wf th' ∧
    signals_move a t c c' levs cevs.
Proof.
  intros Ht Hwf Ha Hs. unfold sync_act in Hs. rewrite Ht in Hs. simpl in Hs.
  assert (∀ th' evs' sig, thread_wf th' ∧ starts th th' evs' strict →
    signals_move a t c (mk_sync (s_queue c) (s_enqueuers c) (s_dequeuer c) sig (set_th c t th')) [] [] →
    ∃ th'' levs cevs, sync_move strict c t th th''
      (mk_sync (s_queue c) (s_enqueuers c) (s_dequeuer c) sig (set_th c t th')) evs' levs cevs ∧
      thread_wf th'' ∧ signals_move a t c
      (mk_sync (s_queue c) (s_enqueuers c) (s_dequeuer c) sig (set_th c t th')) levs cevs) as Hst.
  { intros th' evs' sig [Hm Hwf']%(starts_move _ _ _ _ _ _ sig Ht) Hsig. by exists th', [], []. }
  destruct a as [m|m v|m|sp|m| |]; simpl in Ha;
    try (destruct (mode_ok task_of t m); [|done]);
    try (apply bind_Some in Hs as ([th' evs'] & Hs & [= <- <-]);
      apply (sync_start_starts strict) in Hs; [|done..];
      apply (Hst _ _ _ Hs), signals_quiet).
  - by apply run_step_move with (sp := sp).
  - apply bind_Some in Hs as (th' & Hs & [= <- <-]).
    apply (resume_starts strict) in Hs; [|done]. by apply (Hst _ _ _ Hs).
  - apply bind_Some in Hs as (th' & Hs & [= <- <-]).
    apply (expire_starts strict) in Hs; [|done]. apply (Hst _ _ _ Hs), signals_quiet.
  - apply bind_Some in Hs as (th' & Hs & [= <- <-]).
    apply (cancel_starts strict) in Hs; [|done]. apply (Hst _ _ _ Hs), signals_quiet.
Qed.
(** ** Executions project *)
Lemma proj_initial q n :
  proj_q (sync_initial q n) = initial q n ∧
  proj_list (sync_initial q n) = wl_initial n ∧
  proj_cell (sync_initial q n) = aw_initial n.
Proof.
  unfold proj_q, proj_list, proj_cell, sync_initial, initial, wl_initial, aw_initial. simpl.
  by rewrite !fmap_map_seq, !fmap_replicate.
Qed.

Record sync_facts (strict : bool) (n : nat) (tr : list event) (c : sync) : Prop := {
  sf_wf t th : s_threads c !! t = Some th → thread_wf th;
  sf_queue : run strict n tr (proj_q c);
  sf_list : ∃ ltr, runs wl_step wl_call (wl_initial n) ltr (proj_list c);
  sf_cell : ∃ ctr, runs (aw_step task_will_wake) aw_call (aw_initial n) ctr (proj_cell c);
}.

Lemma run_snoc strict n tr c t a c' evs :
  run strict n tr c → action_ok strict a → act c t a = Some (c', evs) →
  run strict n (tr ++ evs) c'.
Proof. intros (q0 & Hb & Hex) Ha Hact. exists q0. split; [done|]. by econstructor. Qed.

Lemma proj_threads {A} (f : thread → A) (c c' : sync) t th th' :
  s_threads c !! t = Some th → s_threads c' = <[t := th']> (s_threads c) →
  f <$> s_threads c' = <[t := f th']> (f <$> s_threads c) ∧
  (f th' = f th → f <$> s_threads c' = f <$> s_threads c).
Proof.
  intros Ht ->. rewrite fmap_insert. split; [done|]. intros ->.
  apply insert_id. by rewrite lookup_fmap, Ht.
Qed.

Lemma move_proj_list strict c t th th' c' evs levs cevs n ltr :
  sync_move strict c t th th' c' evs levs cevs →
  runs wl_step wl_call (wl_initial n) ltr (proj_list c) →
  runs wl_step wl_call (wl_initial n) (ltr ++ levs) (proj_list c').
Proof.
  intros [Ht Hths _ Hm _] Hr. destruct (proj_threads th_list _ _ _ _ _ Ht Hths) as [Hi Hs].
  unfold proj_list in *.
  destruct Hm as [(-> & Hl & ->)|[(-> & Hc & ->)|Hstep]].
  - rewrite (Hs Hl). by rewrite app_nil_r.
  - rewrite Hi. econstructor; [exact Hr|]. econstructor; [|exact Hc].
    by rewrite lookup_fmap, Ht.
  - rewrite Hi. econstructor; [exact Hr|]. econstructor; [|exact Hstep].
    by rewrite lookup_fmap, Ht.
Qed.

Lemma move_proj_cell strict c t th th' c' evs levs cevs n ctr :
  sync_move strict c t th th' c' evs levs cevs →
  runs (aw_step task_will_wake) aw_call (aw_initial n) ctr (proj_cell c) →
  runs (aw_step task_will_wake) aw_call (aw_initial n) (ctr ++ cevs) (proj_cell c').
Proof.
  intros [Ht Hths _ _ Hm] Hr. destruct (proj_threads th_cell _ _ _ _ _ Ht Hths) as [Hi Hs].
  unfold proj_cell in *.
  destruct Hm as [(-> & Hl & ->)|[(-> & Hc & ->)|Hstep]].
  - rewrite (Hs Hl). by rewrite app_nil_r.
  - rewrite Hi. econstructor; [exact Hr|]. econstructor; [|exact Hc].
    by rewrite lookup_fmap, Ht.
  - rewrite Hi. econstructor; [exact Hr|]. econstructor; [|exact Hstep].
    by rewrite lookup_fmap, Ht.
Qed.

Lemma move_proj_queue strict c t th th' c' evs levs cevs n tr :
  sync_move strict c t th th' c' evs levs cevs →
  run strict n tr (proj_q c) → run strict n (tr ++ evs) (proj_q c').
Proof.
  intros [Ht Hths Hm _ _] Hr. destruct (proj_threads th_q _ _ _ _ _ Ht Hths) as [Hi Hs].
  unfold proj_q in *. destruct Hm as [(-> & Hq & ->)|(a & Ha & Hact)].
  - rewrite (Hs Hq). by rewrite app_nil_r.
  - rewrite Hi. by eapply run_snoc.
Qed.

Lemma sync_facts_move strict n tr c t th th' c' evs levs cevs :
  sync_facts strict n tr c → sync_move strict c t th th' c' evs levs cevs → thread_wf th' →
  sync_facts strict n (tr ++ evs) c'.
Proof.
  intros [Hwf Hq [ltr Hl] [ctr Hc]] Hm Hwf'. split.
  - rewrite (sm_threads _ _ _ _ _ _ _ _ _ Hm).
    intros t0 th0 [[<- <-]|[_ Ht0]]%lookup_insert_Some; eauto.
  - by eapply move_proj_queue.
  - eexists. by eapply move_proj_list.
  - eexists. by eapply move_proj_cell.
Qed.

Lemma sync_act_thread c t a c' evs :
  act_of c t a = Some (c', evs) → ∃ th, s_threads c !! t = Some th.
Proof. unfold sync_act. destruct (s_threads c !! t); [eauto|done]. Qed.

Lemma sync_run_facts strict n q0 tr c : sync_run strict n q0 tr c → sync_facts strict n tr c.
Proof.
  intros Hr. induction Hr as [Hb|tr c t a c' evs Hr IH Ha Hact].
  - destruct (proj_initial q0 n) as (Hq & Hl & Hc). split.
    + intros t th [_ [-> _]%lookup_replicate]%lookup_map_seq_Some. split; simpl; auto.
    + exists q0. split; [done|]. rewrite Hq. constructor.
    + exists []. rewrite Hl. constructor.
    + exists []. rewrite Hc. constructor.
  - destruct (sync_act_thread _ _ _ _ _ Hact) as [th Ht].
    destruct (sync_act_move strict _ _ _ _ _ _ Ht (sf_wf _ _ _ _ IH _ _ Ht) Ha Hact)
      as (th' & levs & cevs & Hm & Hwf' & _).
    by eapply sync_facts_move.
Qed.

(** The enqueuing word of a reachable queue. *)
Lemma facts_enc strict n tr (c : sync) :
  sync_facts strict n tr c →
  ∃ cl e r, 0 ≤ e ≤ 1 ∧ 0 ≤ r < MAX_REMAINING ∧ enqueuing_capacity (s_queue c) = enc cl e r.
Proof.
  intros Hf. destruct (run_inv _ _ _ _ (sf_queue _ _ _ _ Hf)) as (e & cl & g & held & HI).
  destruct (word_of_inv _ _ _ _ _ _ _ _ HI) as [He Hr].
  destruct HI as ((_ & Hw & _) & _). simpl in Hw, Hr. by eexists _, _, _.
Qed.

Lemma facts_word strict n tr (c : sync) :
  sync_facts strict n tr c → is_usize (enqueuing_capacity (s_queue c)).
Proof. intros Hf. destruct (facts_enc _ _ _ _ Hf) as (cl & e & r & He & Hr & ->). by apply enc_is_usize. Qed.

(** ** The kinds of moves *)
Lemma pc_after_next (th : thread) (o : outcome (Queue B * pc * list event)) :
  th_q (queue_next th o) = pc_after o.
Proof. by destruct o as [[[q' p'] evs]| |]. Qed.
Lemma outer_after_next (th : thread) (o : outcome (Queue B * pc * list event)) :
  th_outer (queue_next th o) = th_outer th.
Proof. by destruct o as [[[q' p'] evs]| |]. Qed.

Lemma sync_start_inv (th th' : thread) m o evs :
  sync_start th m o = Some (th', evs) →
  ∃ p', start_call (th_q th) m = Some (p', evs) ∧ th' = mk_thread o p' WIdle AIdle.
Proof.
  unfold sync_start. destruct (_ && _); [|done].
  intros ([p' evs'] & Hs & [= <- <-])%bind_Some. by exists p'.
Qed.

Inductive sync_kind (c : sync) (t : nat) (th : thread)
    : sync_action → thread → sync → list event → Prop :=
  | kind_list sp s' p' levs :
      wl_step (s_enqueuers c) (th_list th) = Some (s', p', levs) →
      sync_kind c t th (SRun sp) (mk_thread (th_outer th) (th_q th) p' (th_cell th))
        (mk_sync (s_queue c) s' (s_dequeuer c)
           (s_signals c ∪ list_to_set (targets_list task_of levs))
           (set_th c t (mk_thread (th_outer th) (th_q th) p' (th_cell th)))) []
  | kind_cell sp s' p' cevs :
      th_list th = WIdle →
      aw_step task_will_wake (s_dequeuer c) (th_cell th) = Some (s', p', cevs) →
      sync_kind c t th (SRun sp) (mk_thread (th_outer th) (th_q th) (th_list th) p')
        (mk_sync (s_queue c) (s_enqueuers c) s'
           (s_signals c ∪ list_to_set (targets_cell task_of cevs))
           (set_th c t (mk_thread (th_outer th) (th_q th) (th_list th) p'))) []
  | kind_step sp o :
      th_list th = WIdle → th_cell th = AIdle → step sp (s_queue c) (th_q th) = Some o →
      sync_kind c t th (SRun sp) (queue_next th o)
        (mk_sync (queue_after (s_queue c) o) (s_enqueuers c) (s_dequeuer c) (s_signals c)
           (set_th c t (queue_next th o))) (events_of o)
  | kind_outer sp th' :
      th_list th = WIdle → th_cell th = AIdle → outer_step (s_queue c) t th = Some th' →
      sync_kind c t th (SRun sp) th' (set_thread_only c t th') []
  | kind_call a th' evs :
      match a with
      | SCall m => sync_start th m Direct = Some (th', evs)
      | SEnqueue m v => mode_ok task_of t m = true ∧
          sync_start th (TryEnqueue v) (EnqTry m (SPIN_LIMIT - 1)) = Some (th', evs)
      | SDequeue m => mode_ok task_of t m = true ∧
          sync_start th TryDequeue (DeqTry m (SPIN_LIMIT - 1)) = Some (th', evs)
      | _ => False
      end →
      sync_kind c t th a th' (set_thread_only c t th') evs
  | kind_resume m th' :
      mode_ok task_of t m = true → resume (th_outer th) m = Some th' →
      sync_kind c t th (SResume m) th'
        (mk_sync (s_queue c) (s_enqueuers c) (s_dequeuer c) (s_signals c ∖ {[t]})
           (set_th c t th')) []
  | kind_expire th' :
      expire (th_outer th) = Some th' →
      sync_kind c t th SExpire th' (set_thread_only c t th') []
  | kind_cancel th' :
      cancel th = Some th' →
      sync_kind c t th SCancel th' (set_thread_only c t th') [].

(** Where an action of the client puts the thread: at the start of a call. *)
Definition restarted (t : nat) (th' : thread) : Prop :=
  th_list th' = WIdle ∧ th_cell th' = AIdle ∧
  match th_outer th' with
  | Direct => True
  | EnqTry m _ => mode_ok task_of t m = true ∧ ∃ v, th_q th' = EnqStart v
  | EnqFinal => ∃ v, th_q th' = EnqStart v
  | DeqTry m _ => mode_ok task_of t m = true ∧ th_q th' = DeqStart None
  | DeqFinal => th_q th' = DeqStart None
  | _ => False
  end.

Lemma restarted_call t th th' m o evs :
  sync_start th m o = Some (th', evs) →
  match o with
  | Direct => True
  | EnqTry md _ => mode_ok task_of t md = true ∧ ∃ v, m = TryEnqueue v
  | DeqTry md _ => mode_ok task_of t md = true ∧ m = TryDequeue
  | _ => False
  end → restarted t th'.
Proof.
  intros (p' & Hs & ->)%sync_start_inv Ho. split_and!; try done. simpl.
  destruct o; try done.
  - destruct Ho as [Hm [v ->]]. simpl in Hs. case_match; simplify_eq. eauto.
  - destruct Ho as [Hm ->]. simpl in Hs. case_match; by simplify_eq.
Qed.

Lemma kind_restarted c t th a th' c' evs :
  sync_kind c t th a th' c' evs → (∀ sp, a ≠ SRun sp) → restarted t th'.
Proof.
  intros Hk Ha. destruct Hk as [sp s' p' levs Hs|sp s' p' cevs Hl Hs|sp o Hl Hc Hs|sp th' Hl Hc Hs|a th' evs Hc|m th' Hm Hr|th' He|th' He];
    try (by destruct (Ha sp)).
  - destruct a as [m|m v|m| | | |]; try done; [|destruct Hc as [? Hc]..];
      apply (restarted_call t) in Hc; eauto.
  - unfold resume in Hr. destruct (th_outer th); try done;
      (destruct (same_mode _ _); [|done]); injection Hr as <-; split_and!; simpl; eauto.
  - unfold expire in He. destruct (th_outer th) as [| | | |[[]|]| | | | | |[[]|]| | | |]; try done;
      injection He as <-; split_and!; simpl; eauto.
  - unfold cancel in He. by repeat case_match; simplify_eq.
Qed.

Lemma run_step_kind c t th sp c' evs :
  run_step task_will_wake task_of c t th sp = Some (c', evs) →
  ∃ th', sync_kind c t th (SRun sp) th' c' evs.
Proof.
  unfold run_step. intros Hs.
  destruct (list_idle th) eqn:Hl; simpl in Hs;
    [destruct (cell_idle th) eqn:Hc; simpl in Hs|].
  - apply list_idle_true in Hl. apply cell_idle_true in Hc. unfold run_queue in Hs.
    destruct (step sp (s_queue c) (th_q th)) as [o|] eqn:Hst.
    + exists (queue_next th o).
      assert (c' = mk_sync (queue_after (s_queue c) o) (s_enqueuers c) (s_dequeuer c) (s_signals c)
           (set_th c t (queue_next th o)) ∧ evs = events_of o) as [-> ->]
        by (destruct o as [[[q' p'] evs']| |]; by simplify_eq).
      by apply kind_step.
    + apply bind_Some in Hs as (th' & Hs & [= <- <-]). exists th'. by apply kind_outer.
  - apply list_idle_true in Hl. apply bind_Some in Hs as (c1 & Hs & [= <- <-]).
    apply bind_Some in Hs as ([[s' p'] cevs] & Hs & [= <-]). eexists. by apply kind_cell.
  - apply bind_Some in Hs as (c1 & Hs & [= <- <-]).
    apply bind_Some in Hs as ([[s' p'] levs] & Hs & [= <-]). eexists. by apply kind_list.
Qed.

Lemma sync_act_kind c t th a c' evs :
  s_threads c !! t = Some th → act_of c t a = Some (c', evs) →
  ∃ th', sync_kind c t th a th' c' evs ∧ s_threads c' = <[t := th']> (s_threads c).
Proof.
  intros Ht Hs. unfold sync_act in Hs. rewrite Ht in Hs. simpl in Hs.
  assert (∃ th', sync_kind c t th a th' c' evs) as [th' Hk].
  { destruct a as [m|m v|m|sp|m| |];
      try (destruct (mode_ok task_of t m) eqn:Hm; [|done]);
      try (apply bind_Some in Hs as ([th' evs'] & Hs & [= <- <-]); exists th'; by apply kind_call).
    - by apply run_step_kind.
    - apply bind_Some in Hs as (th' & Hs & [= <- <-]). exists th'. by apply kind_resume.
    - apply bind_Some in Hs as (th' & Hs & [= <- <-]). exists th'. by apply kind_expire.
    - apply bind_Some in Hs as (th' & Hs & [= <- <-]). exists th'. by apply kind_cancel. }
  exists th'. split; [done|]. by destruct Hk.
Qed.

(** Everything about one action. *)
Record sync_step (strict : bool) (c : sync) (t : nat) (th : thread) (a : sync_action)
    (th' : thread) (c' : sync) (evs : list event) levs cevs : Prop := {
  ss_move : sync_move strict c t th th' c' evs levs cevs;
  ss_kind : sync_kind c t th a th' c' evs;
  ss_wf : thread_wf th;
  ss_wf' : thread_wf th';
  ss_signals : signals_move a t c c' levs cevs;
}.

Lemma sync_act_step strict n tr c t a c' evs :
  sync_facts strict n tr c → sync_ok strict a → act_of c t a = Some (c', evs) →
  ∃ th th' levs cevs, sync_step strict c t th a th' c' evs levs cevs.
Proof.
  intros Hf Ha Hs. destruct (sync_act_thread _ _ _ _ _ Hs) as [th Ht].
  pose proof (sf_wf _ _ _ _ Hf _ _ Ht) as Hwf.
  destruct (sync_act_move strict _ _ _ _ _ _ Ht Hwf Ha Hs) as (th' & levs & cevs & Hm & Hwf' & Hsig).
  destruct (sync_act_kind _ _ _ _ _ _ Ht Hs) as (th2 & Hk & Hths).
  rewrite (sm_threads _ _ _ _ _ _ _ _ _ Hm) in Hths.
  assert (th2 = th') as ->.
  { apply (f_equal (lookup t)) in Hths. rewrite !lookup_insert_eq in Hths. congruence. }
  by exists th, th', levs, cevs.
Qed.

(** Whom a stored waker wakes. *)
Definition wtarget (w : Waker TW) : nat := target task_of (waker_wake w).

Lemma wtarget_new m t : mode_ok task_of t m = true → wtarget (waker_new (cx_of m) t) = t.
Proof. destruct m as [d|w]; [done|]. by intros Hm%Nat.eqb_eq. Qed.

Section Move.
Variables (strict : bool) (c c' : sync) (t : nat) (th th' : thread).
Variables (a : sync_action) (evs : list event).
Variables (levs : list (wl_event TW)) (cevs : list (aw_event (TW := TW))).
Hypothesis Hs : sync_step strict c t th a th' c' evs levs cevs.

Lemma mover : s_threads c !! t = Some th.
Proof using Hs. apply Hs. Qed.

Lemma moved : s_threads c' = <[t := th']> (s_threads c).
Proof using Hs. apply Hs. Qed.

(** Another thread, or the mover. *)
Lemma moved_lookup t1 th1 :
  s_threads c !! t1 = Some th1 →
  (t1 = t ∧ th1 = th ∧ s_threads c' !! t1 = Some th') ∨ (t1 ≠ t ∧ s_threads c' !! t1 = Some th1).
Proof using Hs.
  intros Hth1. rewrite moved. destruct (decide (t1 = t)) as [->|Hne].
  - left. rewrite lookup_insert_eq. pose proof mover. split_and!; congruence.
  - right. by rewrite lookup_insert_ne.
Qed.

Lemma moved_lookup_t : s_threads c' !! t = Some th'.
Proof using Hs. by rewrite moved, lookup_insert_eq. Qed.

(** Only its own resumption takes the signal of a thread. *)
Lemma signal_kept t0 :
  (∀ m, a = SResume m → t ≠ t0) → t0 ∈ s_signals c → t0 ∈ s_signals c'.
Proof using Hs.
  intros Hne Hin. destruct Hs as [_ _ _ _ Hsig].
  destruct a; simpl in Hsig; try (rewrite Hsig, !elem_of_union; by auto).
  destruct Hsig as [-> _]. apply elem_of_difference. split; [done|].
  intros ->%elem_of_singleton. by destruct (Hne _ eq_refl).
Qed.

Lemma signal_new w : Woken w (waker_wake w) ∈ levs → wtarget w ∈ s_signals c'.
Proof using Hs.
  intros Hin. destruct Hs as [_ _ _ _ Hsig].
  assert (wtarget w ∈ targets_list task_of levs) as Ht.
  { unfold targets_list. apply list_elem_of_omap. by eexists. }
  destruct a; simpl in Hsig;
    try (rewrite Hsig, !elem_of_union, elem_of_list_to_set; by auto).
  destruct Hsig as (_ & -> & _). by apply elem_of_nil in Hin.
Qed.

Lemma signal_new_cell e : Woke e ∈ cevs → target task_of e ∈ s_signals c'.
Proof using Hs.
  intros Hin. destruct Hs as [_ _ _ _ Hsig].
  assert (target task_of e ∈ targets_cell task_of cevs) as Ht.
  { unfold targets_cell. apply list_elem_of_omap. by eexists. }
  destruct a; simpl in Hsig;
    try (rewrite Hsig, !elem_of_union, !elem_of_list_to_set; by auto).
  destruct Hsig as (_ & _ & ->). by apply elem_of_nil in Hin.
Qed.
End Move.

(** Rule induction for an invariant of the executions. *)
Lemma sync_run_invariant strict n q0 (I : sync → Prop) :
  I (sync_initial q0 n) →
  (∀ tr c t th a th' c' evs levs cevs,
     sync_facts strict n tr c → sync_step strict c t th a th' c' evs levs cevs → I c → I c') →
  ∀ tr c, sync_run strict n q0 tr c → I c.
Proof.
  intros H0' Hstep tr c Hr. induction Hr as [Hb|tr c t a c' evs Hr IH Ha Hact]; [done|].
  pose proof (sync_run_facts _ _ _ _ _ Hr) as Hf.
  destruct (sync_act_step _ _ _ _ _ _ _ _ Hf Ha Hact) as (th & th' & levs & cevs & Hs). eauto.
Qed.

(** A synchronized queue is a queue: forgetting the wakers and the waiting
    loops, each of its executions is an execution of the queue, so all that is
    proved of the queue holds of it. *)
Theorem sync_run_queue strict n q0 tr c :
  sync_run strict n q0 tr c → run strict n tr (proj_q c).
Proof. intros Hr. apply (sf_queue _ _ _ _ (sync_run_facts _ _ _ _ _ Hr)). Qed.

(** ** Schedules *)
Fixpoint sync_exec (c : sync) (sched : list (nat * sync_action)) : option (sync * list event) :=
  match sched with
  | [] => Some (c, [])
  | (t, a) :: sched =>
      '(c1, evs1) ← act_of c t a;
      '(c2, evs2) ← sync_exec c1 sched;
      Some (c2, evs1 ++ evs2)
  end.

(** Every schedule continues the execution. *)
Lemma sync_exec_run strict n q0 sched : ∀ tr0 c0 c tr,
  sync_run strict n q0 tr0 c0 → Forall (λ ta, sync_ok strict ta.2) sched →
  sync_exec c0 sched = Some (c, tr) → sync_run strict n q0 (tr0 ++ tr) c.
Proof.
  induction sched as [|[t a] sched IH]; intros tr0 c0 c tr Hr Hok Hex; simpl in Hex.
  - injection Hex as <- <-. by rewrite app_nil_r.
  - apply Forall_cons in Hok as [Ha Hok].
    apply bind_Some in Hex as ([c1 evs1] & Hact & Hex).
    apply bind_Some in Hex as ([c2 evs2] & Hex & [= <- <-]).
    rewrite (assoc_L (++)). eapply IH; eauto. by econstructor.
Qed.
End SyncRuns.

(** ** Schedules on a queue of a [VecBuffer] of capacity 2; tasks are numbers *)
Abbreviation vsync := (sync buf (list nat) val nat nat).
Abbreviation vaction := (sync_action val nat nat).

Definition vec_sync (n : nat) (sched : list (nat * vaction)) : vsync * list vevent :=
  from_option id (sync_initial (vec_queue 2) n, [])
    (sync_exec Nat.eqb id (sync_initial (vec_queue 2) n) sched).

(** [n] steps of thread [t]. *)
Definition steps (t n : nat) : list (nat * vaction) := replicate n (t, SRun false).

Lemma vec_sync_run (strict : bool) n sched :
  is_some (sync_exec Nat.eqb id (sync_initial (vec_queue 2) n) sched) = true →
  Forall (λ ta, sync_ok (B := buf) strict ta.2) sched →
  sync_run Nat.eqb id strict n (vec_queue 2) (vec_sync n sched).2 (vec_sync n sched).1.
Proof.
  intros Hex Hok. unfold vec_sync, is_some in *.
  destruct (sync_exec Nat.eqb id (sync_initial (vec_queue 2) n) sched) as [[c' tr]|] eqn:He; [|done].
  eapply (sync_exec_run Nat.eqb id strict n (vec_queue 2) sched []); [|done..].
  constructor. by apply vec_queue_built.
Qed.

(** Thread 0 fills the queue; thread 1 spins, registers and waits. *)
Definition sched_waiting : list (nat * vaction) :=
  [(0%nat, SCall (TryEnqueue (VArray [1; 2]%nat)))] ++ steps 0 8 ++
  [(1%nat, SEnqueue (Blocking false) (VArray [3]%nat))] ++ steps 1 201.

(** Then thread 0 dequeues, and wakes it. *)
Definition sched_woken : list (nat * vaction) :=
  sched_waiting ++ [(0%nat, SCall TryDequeue)] ++ steps 0 17.

Example waiting_woken : s_signals (vec_sync 2 sched_woken).1 = {[1%nat]}.
Proof. vm_compute. reflexivity. Qed.

Lemma sync_run_waiting :
  sync_run Nat.eqb id true 2 (vec_queue 2) (vec_sync 2 sched_waiting).2 (vec_sync 2 sched_waiting).1.
Proof. apply vec_sync_run; [vm_compute; reflexivity|actions_ok]. Qed.

Lemma sync_run_queue_witness :
  run true 2 (vec_sync 2 sched_waiting).2 (proj_q (vec_sync 2 sched_waiting).1).
Proof. apply (sync_run_queue Nat.eqb id true 2 (vec_queue 2)), sync_run_waiting. Defined.
