(* ===== verification/LockFree.v ===== *)
(** * The queue is lock-free

    The number of steps that the calls in progress have left, whatever their
    interleaving. Each call has a rank; a compare-and-swap fails only because another
    one succeeded, and each call can make others fail a bounded number of times. *)

From S2P Require Import Prelude PackedWords Errors Buffers CellBuffers Queue Machine Scenario.
From S2P Require Import Invariant Concurrent.
#[local] Open Scope nat_scope.

Section LockFree.
Context {B S V E : Type}.
Context `{Buffer B S, InsertIntoBuffer B V, Resize B, Drain B E, SliceMut B S E}.

Abbreviation pc := (pc S V E).
Abbreviation event := (event S V E).

(** ** The steps of one call *)
(** The steps left in a call on the queue. A round of [try_dequeue_internal] is
    done twice when values were inserted in the empty buffer; a stale word costs
    one turn of a compare-and-swap loop. *)
Definition again (d : deq_locals) : nat := if (0 <? dl_inserted d)%Z then 20 else 0.
Definition again_rz {A} (rz : option A) : nat := match rz with Some _ => 20 | None => 0 end.
Definition stale (q : Queue B) (w : Z) : nat := if (enqueuing_capacity q =? w)%Z then 0 else 1.

Definition q_rank (q : Queue B) (p : pc) : nat :=
  match p with
  | EnqStart _ => 14
  | EnqLoop _ w _ => 12 + stale q w
  | EnqInsert _ _ => 3
  | EnqAdd _ _ => 2
  | EnqNotify => 1
  | DeqStart rz => SPIN_LIMIT + 17 + again_rz rz
  | DeqInternal _ rz => SPIN_LIMIT + 16 + again_rz rz
  | DeqResize _ rz => SPIN_LIMIT + 15 + again_rz rz
  | DeqAddInserted d => SPIN_LIMIT + 14 + again d
  | DeqLoad d => SPIN_LIMIT + 13 + again d
  | DeqCheck d _ => SPIN_LIMIT + 12 + again d
  | DeqSwap d w _ _ _ => SPIN_LIMIT + 10 + again d + stale q w
  | DeqCapLoad d _ _ => SPIN_LIMIT + 9 + again d
  | DeqCapStore d _ _ => SPIN_LIMIT + 8 + again d
  | DeqNotify d _ _ => SPIN_LIMIT + 7 + again d
  | DeqMatch d _ _ => SPIN_LIMIT + 6 + again d
  | DeqSpin _ _ n => 3 + n
  | DeqRestore _ _ | DeqAck _ | DeqTake _ _ | DeqSave _ _ => 1
  | Requeue _ _ => 4
  | RelClear _ _ => 3
  | RelLen _ => 2
  | RelUnlock _ | IterRemove _ | GetSlice _ | SliceSet _ _ _ | ReopenAnd => 1
  | CloseOr => 3
  | CloseNotifyDeq => 2
  | CloseNotifyEnq => 1
  | Idle | EnqDone _ | DeqErr _ | Slice _ | Iter _ _ | Panicked | Undefined => 0
  end.

Lemma stale_refl (q : Queue B) : stale q (enqueuing_capacity q) = 0.
Proof. unfold stale. by rewrite Z.eqb_refl. Qed.

Lemma again_bound (d : deq_locals) : again d ≤ 20.
Proof. unfold again. case_match; lia. Qed.

(** Case analysis on the result of a step, then arithmetic on the ranks. *)
Ltac ranks :=
  unfold obind; repeat (case_match; simplify_eq/=; try discriminate); unfold queue_after, pc_after; simpl;
  rewrite ?stale_refl; unfold again, again_rz, stale in *; repeat case_match; simplify_eq/=; try (change SPIN_LIMIT with 64; lia).

Lemma apply_resize_inserted rz (b nb : B) r i :
  apply_resize (V := V) rz b = Ret (nb, r, i) →
  again (mk_deq_locals 0 r i (capacity nb)) ≤ again_rz rz.
Proof.
  destruct rz as [args|]; simpl; [intros _; apply again_bound|].
  unfold apply_resize. intros [= <- <- <-]. unfold again. simpl. lia.
Qed.

(** A step goes down, or fails spuriously. *)
Lemma step_rank sp (q : Queue B) p o :
  step sp q p = Some o →
  q_rank (queue_after q o) (pc_after o) < q_rank q p + Nat.b2n sp.
Proof.
  intros Hs. destruct p; simpl in Hs; try discriminate; apply (inj Some) in Hs as <-;
    lazymatch goal with
    | |- context [deq_resize] => idtac
    | |- context [Nat.b2n] => destruct sp; unfold_step; by ranks
    end.
  unfold deq_resize. destruct (apply_resize rz _) as [[[nb r] i]| |] eqn:Hr; simpl; [|lia..].
  apply apply_resize_inserted in Hr. unfold again in *. simpl in *. lia.
Qed.


(** ** The words that a call may still write *)
Definition swaps (d : deq_locals) : nat := if (0 <? dl_inserted d)%Z then 1 else 0.

Definition writes (p : pc) : nat :=
  match p with
  | EnqStart _ | EnqLoop _ _ _ | CloseOr | ReopenAnd => 1
  | DeqStart rz | DeqInternal _ rz | DeqResize _ rz =>
      1 + match rz with Some _ => 1 | None => 0 end
  | DeqAddInserted d | DeqLoad d | DeqCheck d _ | DeqSwap d _ _ _ _ => 1 + swaps d
  | DeqCapLoad d _ _ | DeqCapStore d _ _ | DeqNotify d _ _ | DeqMatch d _ _ => swaps d
  | _ => 0
  end.

(** Whether the enqueuing word changed. *)
Definition written (q q' : Queue B) : nat := stale q (enqueuing_capacity q').

Ltac counts :=
  unfold obind; repeat (case_match; simplify_eq/=; try discriminate); unfold queue_after, pc_after, written; simpl;
  rewrite ?stale_refl; unfold swaps, stale in *; repeat case_match; simplify_eq/=; try lia.

Lemma step_writes sp (q : Queue B) p o :
  step sp q p = Some o → writes (pc_after o) + written q (queue_after q o) ≤ writes p.
Proof.
  intros Hs. destruct p; simpl in Hs; try discriminate; apply (inj Some) in Hs as <-;
    lazymatch goal with
    | |- context [deq_resize] => idtac
    | |- _ => unfold_step; by counts
    end.
  unfold deq_resize, written. destruct (apply_resize rz _) as [[[nb r] i]| |] eqn:Hr; simpl;
    rewrite stale_refl; [|lia..].
  destruct rz; simpl; [unfold swaps; case_match; lia|].
  unfold apply_resize in Hr. injection Hr as <- <- <-. unfold swaps. simpl. lia.
Qed.

(** ** All the threads *)
(** The steps left: each write of a word may cost each other thread one turn. *)
Definition work (c : config B S V E) : nat :=
  map_sum (λ p, q_rank (queue c) p + set_size (threads c) * writes p) (threads c).

(** A thread in the middle of a call: the others are at rest, or hold a handle. *)
Definition in_call (p : pc) : bool :=
  match p with
  | Idle | EnqDone _ | DeqErr _ | Slice _ | Iter _ _ | Panicked | Undefined => false
  | _ => true
  end.

Lemma in_call_step sp (q : Queue B) p : in_call p = is_some (step sp q p).
Proof. by destruct p. Qed.

(** A word that changes makes another thread's copy of it stale, once. *)
Lemma other_rank (q q' : Queue B) p : q_rank q' p ≤ q_rank q p + written q q'.
Proof.
  destruct p; simpl; try lia; unfold written, stale; repeat (case_match; simplify_eq/=); try lia;
    repeat match goal with Hz : (_ =? _)%Z = _ |- _ =>
      first [apply Z.eqb_eq in Hz|apply Z.eqb_neq in Hz] end; congruence.
Qed.

Lemma act_run (c c' : config B S V E) t sp evs :
  act c t (Run sp) = Some (c', evs) →
  ∃ p o, threads c !! t = Some p ∧ step sp (queue c) p = Some o ∧
    queue c' = queue_after (queue c) o ∧ threads c' = <[t := pc_after o]> (threads c).
Proof.
  unfold act. intros (p & Ht & (o & Hs & [= Ho])%bind_Some)%bind_Some.
  exists p, o. split; [done|]. split; [done|]. by destruct o as [[[q' p'] evs']| |]; simplify_eq/=.
Qed.

Lemma work_step (c c' : config B S V E) t sp evs :
  act c t (Run sp) = Some (c', evs) →
  set_size (threads c') = set_size (threads c) ∧ work c' < work c + Nat.b2n sp.
Proof.
  intros (p & o & Ht & Hs & Hq & Hths)%act_run.
  assert (set_size (threads c') = set_size (threads c)) as Hsz
    by (rewrite Hths; apply map_size_insert_Some; eauto).
  split; [done|]. unfold work. rewrite Hsz, Hths, map_sum_insert, (map_sum_delete _ _ _ _ Ht), Hq.
  set (n := set_size (threads c)). set (rest := delete t (threads c)).
  pose proof (step_rank _ _ _ _ Hs) as Hr. pose proof (step_writes _ _ _ _ Hs) as Hw.
  set (q' := queue_after (queue c) o) in *. set (w := written (queue c) q') in *.
  assert (set_size rest ≤ n) as Hle.
  { unfold rest, n. rewrite map_size_delete, Ht. lia. }
  assert (map_sum (λ p, q_rank q' p + n * writes p) rest
          ≤ map_sum (λ p, q_rank (queue c) p + n * writes p) rest + w * set_size rest) as Hsum.
  { apply map_sum_le. intros t' p' _. pose proof (other_rank (queue c) q' p'). unfold w. lia. }
  nia.
Qed.

(** A spin loop starts with [SPIN_LIMIT] turns. *)
Definition spin_ok (p : pc) : Prop := match p with DeqSpin _ _ n => n ≤ SPIN_LIMIT | _ => True end.

Lemma step_spin sp (q : Queue B) p o : step sp q p = Some o → spin_ok p → spin_ok (pc_after o).
Proof.
  intros Hs Hp. destruct p; simpl in Hs; try discriminate; apply (inj Some) in Hs as <-;
    unfold_step; unfold obind; repeat (case_match; simplify_eq/=; try discriminate); try done; simpl in *; lia.
Qed.

Lemma start_spin p (m : call V E) p' evs : start_call (S := S) p m = Some (p', evs) → spin_ok p'.
Proof. intros Hs. unfold_start_in Hs. destruct m; repeat (case_match; try discriminate); by simplify_eq. Qed.

Lemma execution_spin ok (q0 : Queue B) n tr c :
  execution ok (initial q0 n) tr c → ∀ t p, threads c !! t = Some p → spin_ok p.
Proof.
  induction 1 as [|tr c t a c' evs Hex IH Hok Ha]; intros t' p' Ht'.
  - simpl in Ht'. by apply lookup_map_seq_Some in Ht' as [_ [-> _]%lookup_replicate].
  - destruct a as [m|sp].
    + unfold act in Ha. apply bind_Some in Ha as (p & Ht & Ha).
      apply bind_Some in Ha as ([p1 evs1] & Hs & [= <- <-]). simpl in Ht'. unfold set_thread in Ht'.
      apply lookup_insert_Some in Ht' as [[<- <-]|[_ Ht']]; [by eapply start_spin|by eapply IH].
    + apply act_run in Ha as (p & o & Ht & Hs & _ & Hths). rewrite Hths in Ht'.
      apply lookup_insert_Some in Ht' as [[<- <-]|[_ Ht']]; [|by eapply IH].
      eapply step_spin; [done|by eapply IH].
Qed.

(** The bound: 101 steps for a call alone, two writes of the word at most. *)
Lemma map_sum_zero (m : gmap nat pc) : map_sum (λ _, 0) m = 0.
Proof.
  induction m as [|i x m Hi IH] using map_ind; [done|]. by rewrite map_sum_insert, delete_id.
Qed.

Lemma work_bound (c : config B S V E) :
  (∀ t p, threads c !! t = Some p → spin_ok p) →
  let n := set_size (threads c) in work c ≤ n * (2 * n + 101).
Proof.
  intros Hspin n. unfold work. fold n.
  pose proof (map_sum_le (λ p, q_rank (queue c) p + n * writes p) (λ _, 0) (threads c)
    (2 * n + 101)) as Hle. fold n in Hle. rewrite map_sum_zero in Hle.
  assert (map_sum (λ p, q_rank (queue c) p + n * writes p) (threads c)
    ≤ 0 + (2 * n + 101) * n); [|lia]. apply Hle. intros t p Ht. specialize (Hspin t p Ht).
  assert (q_rank (queue c) p ≤ 101 ∧ writes p ≤ 2) as [? ?]; [|nia].
  unfold spin_ok, SPIN_LIMIT in Hspin.
  destruct p; unfold q_rank, writes, SPIN_LIMIT, again, again_rz, swaps, stale;
    repeat case_match; simplify_eq; lia.
Qed.

Definition is_run (a : action V E) : bool := match a with Run _ => true | Call _ => false end.
Fixpoint spurious (sched : list (nat * action V E)) : nat :=
  match sched with
  | [] => 0
  | (_, Run true) :: sched => 1 + spurious sched
  | _ :: sched => spurious sched
  end.

Lemma execution_size ok (q0 : Queue B) n tr c :
  execution ok (initial q0 n) tr c → set_size (threads c) = n.
Proof.
  induction 1 as [|tr c t a c' evs Hex IH Hok Ha].
  - simpl. by rewrite <- size_dom, dom_seq_L, size_set_seq, length_replicate.
  - rewrite <- IH. unfold act in Ha. apply bind_Some in Ha as (p & Ht & Ha).
    assert (∀ p', set_size (set_thread (threads c) t p') = set_size (threads c)) as Hs
      by (intros p'; apply map_size_insert_Some; eauto).
    destruct a as [m|sp].
    + apply bind_Some in Ha as ([p1 evs1] & _ & [= <- <-]). apply Hs.
    + apply bind_Some in Ha as ([[[q' p'] evs']| |] & _ & [= <- <-]); apply Hs.
Qed.

Lemma exec_work sched : ∀ (c c' : config B S V E) tr,
  Forall (λ ta, is_run ta.2 = true) sched → exec c sched = Some (c', tr) →
  work c' + length sched ≤ work c + spurious sched.
Proof.
  induction sched as [|[t a] sched IH]; intros c c' tr Hrun Hex; simpl in Hex.
  { injection Hex as <- <-. simpl. lia. }
  apply Forall_cons in Hrun as [Ha Hrun]. simpl in Ha. destruct a as [|sp]; [done|].
  apply bind_Some in Hex as ([c1 evs1] & Hact & Hex).
  apply bind_Some in Hex as ([c2 evs2] & Hex & [= <- <-]).
  apply work_step in Hact as [_ Hw]. specialize (IH c1 c2 evs2 Hrun Hex).
  destruct sp; simpl in *; lia.
Qed.

(** C8: lock-freedom. Whatever the interleaving, and as long as no new call is made, [n]
    threads end their calls within [n * (2 * n + 101)] steps, plus one for each spurious
    failure of a weak exchange; and a thread in the middle of a call can always take a
    step: none blocks. *)
Theorem calls_end ok (q0 : Queue B) n tr c sched c' tr' :
  execution ok (initial q0 n) tr c →
  Forall (λ ta, is_run ta.2 = true) sched → exec c sched = Some (c', tr') →
  length sched ≤ n * (2 * n + 101) + spurious sched ∧
  ∀ t p, threads c' !! t = Some p → in_call p = true → is_Some (act c' t (Run false)).
Proof.
  intros Hex Hrun Hsched. split.
  - pose proof (work_bound c (execution_spin _ _ _ _ _ Hex)) as Hb. cbv zeta in Hb.
    rewrite (execution_size _ _ _ _ _ Hex) in Hb.
    pose proof (exec_work _ _ _ _ Hrun Hsched). lia.
  - intros t p Ht Hin. rewrite (in_call_step false (queue c')) in Hin. unfold act. rewrite Ht.
    simpl. destruct (step false (queue c') p); [eauto|done].
Qed.
End LockFree.

(** ** Witness: three threads, two of which reserved, all in the middle of a call *)
Definition vec_exec (c : vconfig) (sched : list (nat * action val nat)) : vconfig * list vevent :=
  from_option id (c, []) (exec c sched).

Lemma calls_end_witness :
  let c := (scenario 4 3 sched_pending).1 in
  let c' := (vec_exec c (runs 2 1 ++ runs 0 3 ++ runs 1 2)).1 in
  length (runs 2 1 ++ runs 0 3 ++ runs 1 2) ≤ 3 * (2 * 3 + 101) + 0 ∧
  ∀ t p, threads c' !! t = Some p → in_call p = true → is_Some (act c' t (Run false)).
Proof.
  refine (calls_end (action_ok true) (vec_queue 4) 3 (scenario 4 3 sched_pending).2
    (scenario 4 3 sched_pending).1 (runs 2 1 ++ runs 0 3 ++ runs 1 2)
    (vec_exec (scenario 4 3 sched_pending).1 (runs 2 1 ++ runs 0 3 ++ runs 1 2)).1
    (vec_exec (scenario 4 3 sched_pending).1 (runs 2 1 ++ runs 0 3 ++ runs 1 2)).2
    (scenario_execution true 4 3 sched_pending ltac:(vm_compute; reflexivity) ltac:(actions_ok))
    _ _).
  - repeat constructor.
  - vm_compute. reflexivity.
Defined.
