(* ===== verification/Progress.v ===== *)
(** * Every method ends

    A thread that runs alone returns from its method, or waits, or stands in
    front of the mutex of the list of wakers while another thread has it: there
    is no other place where one thread depends on the progress of the others.
    The measure is lexicographic: the turns of the spin loops left, the steps
    left in the call on the queue, and those in the wakers. *)

From S2P Require Import Prelude PackedWords Errors Buffers CellBuffers Queue Machine Scenario.
From S2P Require Import Waker Interleave.
From S2P Require Import WakerList AtomicWaker Invariant StepInvariant Concurrent.
From S2P Require Import Synchronized SyncRuns LockFree.
#[local] Open Scope nat_scope.

Section Progress.
Context {B S V E Ob TW : Type}.
Context `{L : BufferLaws B S V E Ob}.
Variable task_will_wake : TW → TW → bool.
Variable task_of : TW → nat.

Abbreviation pc := (pc S V E).
Abbreviation event := (event S V E).
Abbreviation sync := (sync B S V E TW).
Abbreviation thread := (thread S V E TW).
Abbreviation act_of := (sync_act task_will_wake task_of).
Abbreviation kind := (sync_kind (B := B) task_will_wake task_of).

(** ** The measure *)
(** Those in [register] and [wake], on the list and on the cell. *)
Definition list_rank (s : waker_list TW) (p : wl_pc TW) : nat :=
  match p with
  | WIdle => 0
  | RegLock _ => 5
  | RegCheck _ => 4
  | RegStore _ => 3
  | RegPush _ => 2
  | RegUnlock => 1
  | WakeLoad => 4 + length (wakers s)
  | WakeCas => 3 + length (wakers s)
  | WakeLock => 2 + length (wakers s)
  | WakeEach ws => 1 + length ws
  end.

Definition cell_rank (p : aw_pc (TW := TW)) : nat :=
  match p with
  | AIdle | APanic => 0
  | RegCas _ _ => 6
  | RegCell _ _ => 5
  | RegDone => 4
  | RegTake => 3
  | RegSwap _ => 2
  | RegWake _ | RegSelf _ _ => 1
  | WakeOr => 4
  | WakeTake => 3
  | WakeAnd _ => 2
  | WakeFire _ => 1
  end.

(** The attempts left in a waiting method. *)
Definition outer_rank (o : outer V TW) : nat :=
  match o with
  | EnqTry _ k | DeqTry _ k => 3 + k
  | EnqRegister _ _ | DeqRegister _ => 2
  | EnqLast _ | DeqLast _ | EnqFinal | DeqFinal => 1
  | _ => 0
  end.

Definition smaller (x y : nat * nat * nat) : Prop :=
  let '(a, b, c) := x in let '(a', b', c') := y in
  a < a' ∨ a = a' ∧ (b < b' ∨ b = b' ∧ c < c').

Lemma smaller_wf : well_founded smaller.
Proof.
  intros [[a b] c]. revert b c. induction (lt_wf a) as [a _ IHa].
  intros b. induction (lt_wf b) as [b _ IHb]. intros c. induction (lt_wf c) as [c _ IHc].
  constructor. intros [[a' b'] c'] [Ha|[-> [Hb|[-> Hc]]]]; auto.
Qed.

Definition measure (c : sync) (th : thread) : nat * nat * nat :=
  (outer_rank (th_outer th), q_rank (s_queue c) (th_q th),
   list_rank (s_enqueuers c) (th_list th) + cell_rank (th_cell th)).

(** ** Every step of a thread alone decreases it *)
Lemma list_step_rank (s s' : waker_list TW) p p' evs :
  wl_step s p = Some (s', p', evs) → list_rank s' p' < list_rank s p.
Proof.
  intros Hs. destruct p; simpl in Hs; try discriminate;
    try (unfold with_lock in Hs; destruct (locked s); [discriminate|]);
    repeat (case_match; try discriminate); simplify_eq/=; lia.
Qed.

Lemma cell_step_rank s s' (p p' : aw_pc (TW := TW)) evs :
  aw_step task_will_wake s p = Some (s', p', evs) → cell_rank p' < cell_rank p.
Proof.
  intros Hs. destruct p; simpl in Hs; try discriminate; unfold reg_cas, reg_done, wake_or in Hs;
    repeat (case_match; try discriminate); simplify_eq/=; lia.
Qed.

Lemma outer_step_rank (q : Queue B) t (th th' : thread) :
  outer_step q t th = Some th' → outer_rank (th_outer th') < outer_rank (th_outer th).
Proof.
  intros [(m & v & -> & ->)|[(m & -> & ->)|[(res & _ & Ha)|[(e & _ & Ha)|(bs & _ & Ha)]]]]%outer_step_inv;
    [simpl; lia..| | |]; unfold after_enqueue, after_dequeue, after_slice, deq_error, dequeue_err in Ha;
    destruct (th_outer th); try discriminate; apply (inj Some) in Ha as <-;
    repeat (case_match; simplify_eq/=); simpl; lia.
Qed.

Lemma run_smaller (c : sync) t th th' c' evs :
  kind c t th (SRun false) th' c' evs → smaller (measure c' th') (measure c th).
Proof.
  intros Hk. remember (SRun false) as a eqn:Ha.
  destruct Hk as [sp s' p' levs Hs|sp s' p' cevs Hl Hs|sp o Hl Hc Hs|sp th' Hl Hc Hs|a th' evs Hc|m th' Hm Hr|th' He|th' He];
    try discriminate; unfold measure; simpl.
  - apply list_step_rank in Hs. lia.
  - apply cell_step_rank in Hs. lia.
  - injection Ha as ->. rewrite outer_after_next, pc_after_next. apply step_rank in Hs. simpl in Hs. lia.
  - apply outer_step_rank in Hs. lia.
  - by subst a.
Qed.

(** ** Where it stops *)
(** The call on the queue fits the method. *)
Definition enq_point (p : pc) : bool :=
  match p with
  | EnqStart _ | EnqLoop _ _ _ | EnqInsert _ _ | EnqAdd _ _ | EnqNotify | EnqDone _ => true
  | Panicked | Undefined => true
  | _ => false
  end.
Definition deq_point (p : pc) : bool :=
  match p with
  | DeqStart _ | DeqInternal _ _ | DeqResize _ _ | DeqAddInserted _ | DeqLoad _ | DeqCheck _ _
  | DeqRestore _ _ | DeqSwap _ _ _ _ _ | DeqCapLoad _ _ _ | DeqCapStore _ _ _ | DeqNotify _ _ _
  | DeqMatch _ _ _ | DeqAck _ | DeqSpin _ _ _ | DeqTake _ _ | DeqSave _ _ | DeqErr _ | Slice _ => true
  | Panicked | Undefined => true
  | _ => false
  end.

Definition fits_method (th : thread) : Prop :=
  match th_outer th with
  | EnqTry _ _ | EnqLast _ | EnqFinal => enq_point (th_q th) = true
  | DeqTry _ _ | DeqLast _ | DeqFinal => deq_point (th_q th) = true
  | Unreachable => False
  | _ => True
  end.

Lemma step_point sp (q : Queue B) p o :
  step sp q p = Some o →
  (enq_point p = true → enq_point (pc_after o) = true) ∧
  (deq_point p = true → deq_point (pc_after o) = true).
Proof.
  intros Hs. destruct p; simpl in Hs; try discriminate; apply (inj Some) in Hs as <-;
    split; try done; intros _;
    unfold enq_start, enq_loop, enq_insert, enq_add, enq_notify, deq_start, deq_internal,
      deq_resize, deq_add_inserted, deq_load, deq_check, deq_restore, deq_cap_load,
      deq_cap_store, deq_notify, deq_match, deq_ack, deq_spin, deq_take, deq_save, deq_swap, obind;
    repeat (case_match; simplify_eq/=); try done.
Qed.

Lemma outer_step_fits (q : Queue B) t (th th' : thread) :
  outer_step q t th = Some th' → fits_method th'.
Proof.
  intros [(m & v & _ & ->)|[(m & _ & ->)|[(res & _ & Ha)|[(e & _ & Ha)|(bs & _ & Ha)]]]]%outer_step_inv;
    [done..| | |]; unfold after_enqueue, after_dequeue, after_slice, deq_error in Ha;
    destruct (th_outer th); try discriminate; apply (inj Some) in Ha as <-;
    repeat (case_match; simplify_eq/=); try done; by destruct e.
Qed.

Lemma restarted_fits t (th : thread) : restarted task_of t th → fits_method th.
Proof.
  unfold restarted, fits_method. intros (_ & _ & Ho). destruct (th_outer th); try done.
  - by destruct Ho as (_ & v & ->).
  - by destruct Ho as (v & ->).
  - by destruct Ho as (_ & ->).
  - by rewrite Ho.
Qed.

Lemma fits_kept (c : sync) t a th th' c' evs :
  kind c t th a th' c' evs → fits_method th → fits_method th'.
Proof.
  intros Hk Hfit. pose proof (kind_restarted _ _ _ _ _ _ _ _ _ Hk) as Hre.
  destruct Hk as [sp s' p' levs Hs|sp s' p' cevs Hl Hs|sp o Hl Hc Hs|sp th' Hl Hc Hs|a th' evs Hc|m th' Hm Hr|th' He|th' He];
    try done.
  - apply step_point in Hs as [He Hd]. unfold fits_method in *.
    rewrite outer_after_next, pc_after_next. destruct (th_outer th); auto.
  - by eapply outer_step_fits.
  - eapply restarted_fits, Hre. by intros ? ->.
  - by eapply restarted_fits, Hre.
  - by eapply restarted_fits, Hre.
  - by eapply restarted_fits, Hre.
Qed.

Lemma sync_run_fits strict n q0 tr c :
  sync_run task_will_wake task_of strict n q0 tr c →
  ∀ t th, s_threads c !! t = Some th → fits_method th.
Proof.
  revert tr c. apply (sync_run_invariant task_will_wake task_of strict n q0
    (λ c, ∀ t th, s_threads c !! t = Some th → fits_method th)).
  - intros t th. simpl. by intros [_ [-> _]%lookup_replicate]%lookup_map_seq_Some.
  - intros tr c t th a th' c' evs levs cevs Hf [Hm Hk _ _ _] HI t0 th0.
    rewrite (sm_threads _ _ _ _ _ _ _ _ _ _ Hm).
    intros [[<- <-]|[_ Ht0]]%lookup_insert_Some; [|by eapply HI].
    eapply fits_kept; [exact Hk|]. eapply HI, (sm_thread _ _ _ _ _ _ _ _ _ _ Hm).
Qed.

(** A method has returned, or waits. *)
Definition call_over (p : pc) : bool :=
  match p with Idle | EnqDone _ | DeqErr _ | Slice _ | Iter _ _ => true | _ => false end.
Definition settled (th : thread) : bool :=
  list_idle th && cell_idle th && call_over (th_q th) &&
  match th_outer th with
  | Direct | EnqReady _ | EnqWait _ _ | DeqWait _ | DeqFailed _ | DeqTimedOut _ => true
  | _ => false
  end.

(** It stands in front of the mutex. *)
Definition blocked (c : sync) (t : nat) (th : thread) : Prop :=
  (th_list th = WakeLock ∨ ∃ w, th_list th = RegLock w) ∧
  ∃ t' th', t' ≠ t ∧ s_threads c !! t' = Some th' ∧ holds_lock (th_list th') = true.

Lemma facts_no_panic n tr (c : sync) t th :
  sync_facts task_will_wake true n tr c → s_threads c !! t = Some th →
  th_q th ≠ Panicked ∧ th_q th ≠ Undefined ∧ th_cell th ≠ APanic.
Proof.
  intros Hf Ht. destruct (run_inv _ _ _ _ (sf_queue _ _ _ _ _ Hf)) as (e & cl & g & held & HI).
  assert ((th_q <$> s_threads c) !! t = Some (th_q th)) as Hq by by rewrite lookup_fmap, Ht.
  split_and!; intros Hp.
  - rewrite Hp in Hq. by destruct (inv_locked _ _ _ _ _ _ _ _ HI _ _ Hq eq_refl)
      as (_ & _ & _ & _ & _ & _ & Hx & _).
  - rewrite Hp in Hq. destruct HI as (_ & Hths & _). by apply (ti_pc _ _ _ _ Hths _ _ Hq).
  - destruct (sf_cell _ _ _ _ _ Hf) as [ctr Hr]. apply aw_inv_runs in Hr as [owner HI'].
    apply (ai_panic _ _ _ HI' t). by rewrite lookup_fmap, Ht, <- Hp.
Qed.

Lemma list_stuck (s : waker_list TW) p :
  p ≠ WIdle → wl_step s p = None → locked s = true ∧ (p = WakeLock ∨ ∃ w, p = RegLock w).
Proof.
  intros Hp Hs. destruct p; simpl in Hs; try done; unfold with_lock in Hs;
    repeat (case_match; try discriminate); eauto.
Qed.

Lemma cell_stuck s (p : aw_pc (TW := TW)) :
  p ≠ AIdle → p ≠ APanic → aw_step task_will_wake s p ≠ None.
Proof.
  intros Hp Hp'. destruct p; try done; simpl; unfold reg_cas, reg_done, wake_or;
    repeat case_match; done.
Qed.

Lemma queue_stuck (q : Queue B) t (th : thread) :
  fits_method th → th_q th ≠ Panicked → th_q th ≠ Undefined →
  step false q (th_q th) = None → outer_step q t th = None →
  call_over (th_q th) = true ∧
  match th_outer th with
  | Direct | EnqReady _ | EnqWait _ _ | DeqWait _ | DeqFailed _ | DeqTimedOut _ => true
  | _ => false
  end = true.
Proof.
  intros Hfit Hp Hu Hs Ho.
  assert (call_over (th_q th) = true) as Hover by by destruct (th_q th).
  split; [done|]. unfold outer_step, fits_method in *.
  destruct (th_outer th); try done; destruct (th_q th); try done.
Qed.

(** A thread of an execution that cannot move has nothing left to do. *)
Lemma stuck n q0 tr c t th :
  sync_run task_will_wake task_of true n q0 tr c → s_threads c !! t = Some th →
  run_step task_will_wake task_of c t th false = None → settled th = true ∨ blocked c t th.
Proof.
  intros Hr Ht Hs. pose proof (sync_run_facts _ _ _ _ _ _ _ Hr) as Hf.
  destruct (facts_no_panic _ _ _ _ _ Hf Ht) as (Hp & Hu & Ha).
  pose proof (sync_run_fits _ _ _ _ _ Hr _ _ Ht) as Hfit. unfold run_step in Hs.
  destruct (list_idle th) eqn:Hl; simpl in Hs; [destruct (cell_idle th) eqn:Hc; simpl in Hs|].
  - left. unfold settled. rewrite Hl, Hc. simpl. unfold run_queue in Hs.
    destruct (step false (s_queue c) (th_q th)) as [[[[q' p'] evs]| |]|] eqn:Hst; try discriminate.
    destruct (outer_step (s_queue c) t th) eqn:Ho; [discriminate|].
    by destruct (queue_stuck _ _ _ Hfit Hp Hu Hst Ho) as [-> ->].
  - exfalso. unfold run_cell in Hs.
    destruct (aw_step _ _ _) as [[[? ?] ?]|] eqn:Haw; [done|].
    apply cell_stuck in Haw; [done| |done]. intros Hc'%cell_idle_true. congruence.
  - right. unfold run_list in Hs. destruct (wl_step _ _) as [[[? ?] ?]|] eqn:Hw; [done|].
    apply list_stuck in Hw as [Hlock Hpc]; [|intros Hc'%list_idle_true; congruence].
    split; [done|]. destruct (sf_list _ _ _ _ _ Hf) as [ltr Hlr].
    apply wl_inv_runs in Hlr as [owner HI]. pose proof (wi_locked _ _ _ _ HI) as Hown.
    simpl in Hown. rewrite Hlock in Hown. destruct owner as [t'|]; [|done].
    destruct (wi_in _ _ _ _ HI t' eq_refl) as [p Hp']. simpl in Hp'.
    pose proof (proj2 (wi_owner _ _ _ _ HI _ _ Hp') eq_refl) as Hh.
    rewrite lookup_fmap in Hp'. apply fmap_Some in Hp' as (th' & Ht' & ->).
    exists t', th'. split; [|done]. intros ->. simplify_eq.
    by destruct Hpc as [Hx|[w Hx]]; rewrite Hx in Hh.
Qed.

(** Every method ends: in any execution whose resizing calls fit, a thread
    that runs alone comes, in finitely many steps and without a panic, to the end
    of its call or to where it waits to be woken, unless it meets the mutex of the
    list of wakers while another thread has it. The rest is obstruction-free. *)
Theorem alone_terminates n q0 tr c t th :
  sync_run task_will_wake task_of true n q0 tr c → s_threads c !! t = Some th →
  ∃ k c' evs th', sync_exec task_will_wake task_of c (replicate k (t, SRun false)) = Some (c', evs) ∧
    s_threads c' !! t = Some th' ∧ (settled th' = true ∨ blocked c' t th').
Proof.
  remember (measure c th) as x eqn:Hx. revert tr c th Hx.
  induction (smaller_wf x) as [x _ IH]. intros tr c th -> Hr Ht.
  destruct (run_step task_will_wake task_of c t th false) as [[c1 evs1]|] eqn:Hs.
  - assert (act_of c t (SRun false) = Some (c1, evs1)) as Hact.
    { unfold sync_act. by rewrite Ht. }
    destruct (sync_act_kind _ _ _ _ _ _ _ _ Ht Hact) as (th1 & Hk & Hths).
    destruct (IH _ (run_smaller _ _ _ _ _ _ Hk) (tr ++ evs1) c1 th1 eq_refl)
      as (k & c' & evs & th' & Hex & H');
      [by apply (sync_run_snoc _ _ _ _ _ _ _ _ (SRun false) _ _ Hr I Hact)|by rewrite Hths, lookup_insert_eq|].
    exists (Datatypes.S k), c', (evs1 ++ evs), th'. split; [|done]. simpl. rewrite Hact. simpl.
    by rewrite Hex.
  - exists 0, c, [], th. split; [done|]. split; [done|]. by eapply stuck.
Qed.
(** The states of the threads are well formed: a thread notifies one side at a
    time; one that registers or waits has a call that returned, an enqueuer with
    the very value it waits with, back from an attempt without room; in its
    attempts it runs [try_enqueue] or [try_dequeue], and [unreachable!] is not
    reached. *)
Theorem threads_well_formed strict n q0 tr c t th :
  sync_run task_will_wake task_of strict n q0 tr c → s_threads c !! t = Some th →
  thread_wf th ∧ fits_method th.
Proof.
  intros Hr Ht. split; [|by eapply sync_run_fits].
  by eapply (sf_wf _ _ _ _ _ (sync_run_facts _ _ _ _ _ _ _ Hr)).
Qed.

(** ** What the waiting methods return *)
(** The result of an enqueue after an attempt of the spin loop, or after the
    registration. *)
Definition enqueue_answer (q : Queue B) (res : result unit (TryEnqueueError.t V)) : Prop :=
  match res with
  | Err (TryEnqueueError.InsufficientCapacity v) => (q_capacity q < size v)%Z
  | _ => True
  end.

Lemma enq_retry_none (q : Queue B) res : enq_retry q res = None → enqueue_answer q res.
Proof.
  unfold enq_retry, enqueue_answer. destruct res as [|[v|v]]; try done.
  destruct (Z.leb_spec (size v) (q_capacity q)); [done|]. lia.
Qed.

(** The thread [th'] has just returned from the method that [th] was in. *)
Definition method_result (q : Queue B) (th th' : thread) : Prop :=
  match th_outer th' with
  | EnqReady res =>
      th_q th = EnqDone res ∧ (th_outer th = EnqFinal ∨ enqueue_answer q res)
  | DeqTimedOut e =>
      th_q th = DeqErr e ∧
      (th_outer th = DeqFinal ∨ e = TryDequeueError.Closed ∨ e = TryDequeueError.Conflict)
  | DeqFailed DequeueError.Closed => th_q th = DeqErr TryDequeueError.Closed
  | DeqFailed DequeueError.Conflict => th_q th = DeqErr TryDequeueError.Conflict
  | _ => True
  end.

Lemma outer_step_result (q : Queue B) t (th th' : thread) :
  outer_step q t th = Some th' → method_result q th th'.
Proof.
  intros [(m & v & _ & ->)|[(m & _ & ->)|[(res & Hp & Ha)|[(e & Hp & Ha)|(bs & Hp & Ha)]]]]%outer_step_inv;
    try done; unfold method_result.
  - unfold after_enqueue in Ha.
    destruct (th_outer th); try discriminate; apply (inj Some) in Ha as <-;
      try (destruct (enq_retry q res) eqn:Hr; [by repeat case_match|]);
      simpl; eauto using enq_retry_none.
  - unfold after_dequeue, deq_error in Ha.
    destruct (th_outer th); try discriminate; apply (inj Some) in Ha as <-; destruct e;
      repeat (case_match; simplify_eq/=); eauto.
  - unfold after_slice in Ha. by destruct (th_outer th); try discriminate; apply (inj Some) in Ha as <-.
Qed.

Lemma restarted_result (q : Queue B) t (th th' : thread) :
  restarted task_of t th' → method_result q th th'.
Proof. unfold restarted, method_result. intros (_ & _ & Ho). by destruct (th_outer th'). Qed.

(** C9: What the waiting methods return: an enqueue gives the result of its last
    attempt, and gives up for want of room only on a value larger than the queue,
    or at its deadline; a dequeue fails because the queue is closed or another
    thread is dequeuing, or at its deadline. The [unreachable!] of [dequeue_err] is
    never reached. *)
Theorem waiting_results strict n q0 tr c t a c' evs th th' :
  sync_run task_will_wake task_of strict n q0 tr c → act_of c t a = Some (c', evs) →
  s_threads c !! t = Some th → s_threads c' !! t = Some th' →
  th_outer th' ≠ Unreachable ∧
  (at_rest (th_outer th) = false → method_result (s_queue c) th th').
Proof.
  intros Hr Hact Ht Ht'. destruct (sync_act_kind _ _ _ _ _ _ _ _ Ht Hact) as (th1 & Hk & Hths).
  rewrite Hths, lookup_insert_eq in Ht'. injection Ht' as ->.
  pose proof (fits_kept _ _ _ _ _ _ _ Hk (sync_run_fits _ _ _ _ _ Hr _ _ Ht)) as Hfit.
  split; [intros Hu; unfold fits_method in Hfit; by rewrite Hu in Hfit|]. intros Hrest.
  pose proof (kind_restarted _ _ _ _ _ _ _ _ _ Hk) as Hre.
  destruct Hk as [sp s' p' levs Hs|sp s' p' cevs Hl Hs|sp o Hl Hc Hs|sp th' Hl Hc Hs|a th' evs Hc|m th' Hm He|th' He|th' He].
  - unfold method_result. simpl. by destruct (th_outer th).
  - unfold method_result. simpl. by destruct (th_outer th).
  - unfold method_result. rewrite outer_after_next. by destruct (th_outer th).
  - by eapply outer_step_result.
  - eapply restarted_result, Hre. by intros ? ->.
  - by eapply restarted_result, Hre.
  - by eapply restarted_result, Hre.
  - by eapply restarted_result, Hre.
Qed.
End Progress.

(** Thread 1, at the start of its enqueue of one element in the full queue. *)
Definition sched_spin : list (nat * vaction) :=
  [(0, SCall (TryEnqueue (VArray [1; 2])))] ++ steps 0 8 ++
  [(1, SEnqueue (Blocking false) (VArray [3]))].

Lemma alone_terminates_witness :
  ∃ k c' evs th', sync_exec Nat.eqb id (vec_sync 2 sched_spin).1 (replicate k (1, SRun false)) =
      Some (c', evs) ∧
    s_threads c' !! 1 = Some th' ∧ (settled th' = true ∨ blocked c' 1 th').
Proof.
  eapply (alone_terminates Nat.eqb id 2 (vec_queue 2) (vec_sync 2 sched_spin).2);
    [|vm_compute; reflexivity].
  apply vec_sync_run; [vm_compute; reflexivity|actions_ok].
Defined.

(** Thread 1 enqueues three elements at once, in a queue of capacity 2: its first
    attempt is its last. *)
Definition sched_large : list (nat * vaction) :=
  [(1, SEnqueue (Blocking false) (VArray [1; 2; 3]))] ++ steps 1 2.

Definition large_attempt (o : outer val nat) : thread (list nat) val nat nat :=
  mk_thread o (EnqDone (Err (TryEnqueueError.InsufficientCapacity (VArray [1; 2; 3])))) WIdle AIdle.

Lemma threads_well_formed_witness :
  let th := large_attempt (EnqTry (Blocking false) 63) in thread_wf (B := buf) th ∧ fits_method th.
Proof.
  apply (threads_well_formed Nat.eqb id true 2 (vec_queue 2) (vec_sync 2 sched_large).2
    (vec_sync 2 sched_large).1 1); [|vm_compute; reflexivity].
  apply vec_sync_run; [vm_compute; reflexivity|actions_ok].
Defined.

Lemma waiting_results_witness :
  method_result (s_queue (vec_sync 2 sched_large).1)
    (large_attempt (EnqTry (Blocking false) 63))
    (large_attempt (EnqReady (Err (TryEnqueueError.InsufficientCapacity (VArray [1; 2; 3]))))).
Proof.
  eapply (waiting_results Nat.eqb id true 2 (vec_queue 2) (vec_sync 2 sched_large).2
    (vec_sync 2 sched_large).1 1 (SRun false)); [|vm_compute; reflexivity..].
  apply vec_sync_run; [vm_compute; reflexivity|actions_ok].
Defined.
