(* ===== verification/SyncProgress.v ===== *)
(** * The synchronized queue comes to rest

    Whatever the interleaving of its threads, a synchronized queue that gets no new
    call takes finitely many steps, and stops with every thread between two calls or
    waiting: neither the notifications nor the attempts of the waiting methods feed
    each other for ever, and nobody waits for the mutex of the list of wakers. *)

From S2P Require Import Prelude PackedWords Errors Buffers CellBuffers Queue Machine Scenario.
From S2P Require Import Waker Interleave.
From S2P Require Import WakerList AtomicWaker Invariant StepInvariant Concurrent.
From S2P Require Import Synchronized SyncRuns LockFree Progress.
#[local] Open Scope nat_scope.

Section SyncProgress.
Context {B S V E Ob TW : Type}.
Context `{L : BufferLaws B S V E Ob}.
Variable task_will_wake : TW → TW → bool.
Variable task_of : TW → nat.

Abbreviation pc := (pc S V E).
Abbreviation sync := (sync B S V E TW).
Abbreviation thread := (thread S V E TW).
Abbreviation act_of := (sync_act task_will_wake task_of).
Abbreviation kind := (sync_kind (B := B) task_will_wake task_of).

(** ** The measure *)
(** The steps left on the list of wakers; those that wait to be woken are counted
    once, for all the threads. *)
Definition list_work (p : wl_pc TW) : nat :=
  match p with
  | WIdle => 0
  | RegLock _ => 6
  | RegCheck _ => 5
  | RegStore _ => 4
  | RegPush _ => 3
  | RegUnlock => 1
  | WakeLoad => 4
  | WakeCas => 3
  | WakeLock => 2
  | WakeEach ws => 1 + length ws
  end.

(** A step of the queue starts at most two wakings, of four steps each. *)
Definition queue_work (n : nat) (q : Queue B) (p : pc) : nat :=
  9 * (q_rank q p + n * writes p).

(** An attempt of a waiting method, with the registration before it. *)
Definition attempt_work (n : nat) : nat := 9 * (SPIN_LIMIT + 17 + n) + 7.

Definition thread_work (n : nat) (q : Queue B) (th : thread) : nat :=
  outer_rank (th_outer th) * attempt_work n + queue_work n q (th_q th) +
  list_work (th_list th) + cell_rank (th_cell th).

Definition sync_work (c : sync) : nat :=
  map_sum (thread_work (set_size (s_threads c)) (s_queue c)) (s_threads c) +
  length (wakers (s_enqueuers c)).

(** ** Every step decreases it *)
Lemma list_step_work (s s' : waker_list TW) p p' evs :
  wl_step s p = Some (s', p', evs) →
  list_work p' + length (wakers s') < list_work p + length (wakers s).
Proof.
  intros Hs. destruct p; simpl in Hs; try discriminate;
    try (unfold with_lock in Hs; destruct (locked s); [discriminate|]);
    repeat (case_match; try discriminate); simplify_eq/=;
    repeat match goal with Hw : wakers _ = _ |- _ => rewrite Hw end;
    rewrite ?length_app; simpl; lia.
Qed.

Lemma outer_step_work n (q : Queue B) t (th th' : thread) :
  outer_step q t th = Some th' →
  queue_work n q (th_q th') + list_work (th_list th') + cell_rank (th_cell th') < attempt_work n.
Proof.
  intros Ho. apply outer_step_inv in Ho.
  destruct Ho as [(m & v & _ & ->)|[(m & _ & ->)|[(res & _ & Ha)|[(e & _ & Ha)|(bs & _ & Ha)]]]].
  all: try (unfold after_enqueue, after_dequeue, after_slice in Ha;
    destruct (th_outer th); try discriminate; apply (inj Some) in Ha as <-;
    repeat (case_match; simplify_eq)).
  all: unfold queue_work, attempt_work, q_rank, writes, again_rz, SPIN_LIMIT; simpl; lia.
Qed.

(** The threads other than the one that moves. *)
Lemma others_work n (q q' : Queue B) (th : thread) :
  thread_work n q' th ≤ thread_work n q th + 9 * written q q'.
Proof. unfold thread_work, queue_work. pose proof (other_rank q q' (th_q th)). nia. Qed.

Lemma work_moves (c c' : sync) t th th' k :
  s_threads c !! t = Some th → s_threads c' = <[t := th']> (s_threads c) →
  let n := set_size (s_threads c) in
  thread_work n (s_queue c') th' + 9 * written (s_queue c) (s_queue c') * n +
    length (wakers (s_enqueuers c')) <
  thread_work n (s_queue c) th + length (wakers (s_enqueuers c)) + k →
  set_size (s_threads c') = n ∧ sync_work c' < sync_work c + k.
Proof.
  intros Ht Hths n Hlt.
  assert (set_size (s_threads c') = n) as Hsz
    by (rewrite Hths; apply map_size_insert_Some; eauto).
  split; [done|]. unfold sync_work. rewrite Hsz, Hths, map_sum_insert.
  fold n. rewrite (map_sum_delete (thread_work n (s_queue c)) _ _ _ Ht).
  set (rest := delete t (s_threads c)).
  pose proof (map_sum_le (thread_work n (s_queue c')) (thread_work n (s_queue c)) rest
    (9 * written (s_queue c) (s_queue c')) (λ _ _ _, others_work _ _ _ _)) as Hle.
  assert (set_size rest ≤ n) as Hrest by (unfold rest, n; rewrite map_size_delete, Ht; lia).
  nia.
Qed.

Lemma notify_work (evs : list (event S V E)) :
  list_work (notify_list evs) ≤ 4 ∧ cell_rank (notify_cell (TW := TW) evs) ≤ 4.
Proof. unfold notify_list, notify_cell. by repeat case_match; simpl; split; lia. Qed.

Lemma next_work (th : thread) (o : outcome (Queue B * pc * list (event S V E))) :
  list_work (th_list (queue_next th o)) ≤ 4 ∧ cell_rank (th_cell (queue_next th o)) ≤ 4.
Proof. destruct o as [[[q' p'] evs]| |]; simpl; [apply notify_work|lia..]. Qed.

Lemma run_work (c : sync) t th sp th' c' evs :
  kind c t th (SRun sp) th' c' evs → s_threads c !! t = Some th →
  set_size (s_threads c') = set_size (s_threads c) ∧
  sync_work c' < sync_work c + 9 * Nat.b2n sp.
Proof.
  intros Hk Ht. remember (SRun sp) as a eqn:Ha.
  destruct Hk as [sp0 s' p' levs Hs|sp0 s' p' cevs Hl Hs|sp0 o Hl Hc Hs|sp0 th' Hl Hc Hs|a th' evs Hc|m th' Hm Hr|th' He|th' He];
    try discriminate; [injection Ha as ->..|by subst a].
  - eapply work_moves; [exact Ht|reflexivity|]. apply list_step_work in Hs.
    unfold thread_work, written. simpl. rewrite stale_refl. lia.
  - eapply work_moves; [exact Ht|reflexivity|]. apply cell_step_rank in Hs.
    unfold thread_work, written. simpl. rewrite stale_refl. lia.
  - eapply work_moves; [exact Ht|reflexivity|].
    pose proof (step_rank _ _ _ _ Hs). pose proof (step_writes _ _ _ _ Hs).
    pose proof (next_work th o). unfold thread_work, queue_work.
    cbn [s_queue s_enqueuers]. rewrite outer_after_next, pc_after_next. rewrite Hl, Hc.
    change (list_work WIdle) with 0. change (cell_rank AIdle) with 0. nia.
  - eapply work_moves; [exact Ht|reflexivity|].
    pose proof (outer_step_work (set_size (s_threads c)) _ _ _ _ Hs).
    pose proof (outer_step_rank _ _ _ _ Hs).
    unfold thread_work, written. cbn [s_queue s_enqueuers set_thread_only]. rewrite stale_refl. nia.
Qed.

(** ** Executions without new calls *)
Definition is_step (a : sync_action V E TW) : bool :=
  match a with SRun _ => true | _ => false end.

Fixpoint failures (sched : list (nat * sync_action V E TW)) : nat :=
  match sched with
  | [] => 0
  | (_, SRun true) :: sched => 1 + failures sched
  | _ :: sched => failures sched
  end.

Lemma exec_sync_work sched : ∀ (c c' : sync) tr,
  Forall (λ ta, is_step ta.2 = true) sched →
  sync_exec task_will_wake task_of c sched = Some (c', tr) →
  sync_work c' + length sched ≤ sync_work c + 9 * failures sched.
Proof.
  induction sched as [|[t a] sched IH]; intros c c' tr Hrun Hex; simpl in Hex.
  { injection Hex as <- <-. simpl. lia. }
  apply Forall_cons in Hrun as [Ha Hrun]. simpl in Ha. destruct a as [| | |sp| | |]; try done.
  apply bind_Some in Hex as ([c1 evs1] & Hact & Hex).
  apply bind_Some in Hex as ([c2 evs2] & Hex & [= <- <-]).
  specialize (IH c1 c2 evs2 Hrun Hex).
  destruct (sync_act_thread _ _ _ _ _ _ _ Hact) as [th Ht].
  destruct (sync_act_kind _ _ _ _ _ _ _ _ Ht Hact) as (th' & Hk & _).
  apply run_work in Hk as [_ Hw]; [|done]. destruct sp; simpl in *; lia.
Qed.

(** Threads that cannot move: none of them waits for the mutex. *)
Lemma all_stuck n q0 tr (c : sync) :
  sync_run task_will_wake task_of true n q0 tr c →
  (∀ t th, s_threads c !! t = Some th → run_step task_will_wake task_of c t th false = None) →
  ∀ t th, s_threads c !! t = Some th → settled th = true.
Proof.
  intros Hr Hst t th Ht.
  destruct (stuck _ _ _ _ _ _ _ _ Hr Ht (Hst _ _ Ht)) as [|(_ & t' & th' & _ & Ht' & Hlock)]; [done|].
  destruct (stuck _ _ _ _ _ _ _ _ Hr Ht' (Hst _ _ Ht')) as [Hs|([Hw|[w Hw]] & _)].
  - unfold settled, list_idle in Hs. by destruct (th_list th').
  - by rewrite Hw in Hlock.
  - by rewrite Hw in Hlock.
Qed.

(** C7: the calls in progress settle. In any execution whose resizing calls fit, from any point
    on, as long as the threads only run - no new call, no wait that is resumed, expires or is
    cancelled -, they take boundedly many steps, however they are interleaved (a spurious
    failure of an exchange allows for 9 more); and when none of them can take one, each is between two calls
    or waits to be woken. No thread panics or stays in front of the mutex of the
    wakers. *)
Theorem all_settle n q0 tr c sched c' tr' :
  sync_run task_will_wake task_of true n q0 tr c →
  Forall (λ ta, is_step ta.2 = true) sched →
  sync_exec task_will_wake task_of c sched = Some (c', tr') →
  length sched ≤ sync_work c + 9 * failures sched ∧
  ((∀ t th, s_threads c' !! t = Some th →
      run_step task_will_wake task_of c' t th false = None) →
   ∀ t th, s_threads c' !! t = Some th → settled th = true).
Proof.
  intros Hr Hrun Hex. split.
  - pose proof (exec_sync_work _ _ _ _ Hrun Hex). lia.
  - eapply all_stuck, sync_exec_run; [exact Hr| |exact Hex].
    eapply Forall_impl; [exact Hrun|]. intros [t a] Ha. by destruct a.
Qed.
End SyncProgress.

(** ** Witness: thread 1 comes to wait in front of a full queue; thread 0 is at rest *)
Definition vec_settled : vsync * list vevent :=
  from_option id ((vec_sync 2 sched_spin).1, [])
    (sync_exec Nat.eqb id (vec_sync 2 sched_spin).1 (steps 1 201)).

(** No thread can move, decided on a concrete configuration. *)
Definition all_stuckb (c : vsync) : bool :=
  forallb (λ p, negb (is_some (run_step Nat.eqb id c p.1 p.2 false))) (map_to_list (s_threads c)).

Lemma all_stuckb_true (c : vsync) :
  all_stuckb c = true →
  ∀ t th, s_threads c !! t = Some th → run_step Nat.eqb id c t th false = None.
Proof.
  unfold all_stuckb. intros Hall t th Ht. rewrite forallb_forall in Hall.
  specialize (Hall (t, th)). rewrite <- list_elem_of_In, elem_of_map_to_list in Hall.
  specialize (Hall Ht). by destruct (run_step _ _ _ _ _ _).
Qed.

Lemma all_settle_witness :
  201 ≤ sync_work (vec_sync 2 sched_spin).1 + 9 * 0 ∧
  ∀ t th, s_threads vec_settled.1 !! t = Some th → settled th = true.
Proof.
  assert (sync_run Nat.eqb id true 2 (vec_queue 2) (vec_sync 2 sched_spin).2
            (vec_sync 2 sched_spin).1) as Hr
    by (apply vec_sync_run; [vm_compute; reflexivity|actions_ok]).
  destruct (all_settle Nat.eqb id 2 (vec_queue 2) _ _ (steps 1 201) vec_settled.1 vec_settled.2 Hr)
    as [Hb Hs].
  - by repeat constructor.
  - vm_compute. reflexivity.
  - split; [exact Hb|]. apply Hs, all_stuckb_true. vm_compute. reflexivity.
Defined.
