(* ===== verification/EnqueueWaiting.v ===== *)
(** * No enqueuer is left waiting

    An enqueuer that finds no room registers its waker, tries again, and waits.
    Between that last attempt and its waking, either its waker has been taken
    from the list, or it is in the list and the queue still has no room for it,
    or a thread that made room, or closed the queue, is about to look at the
    list. *)

From S2P Require Import Prelude PackedWords Errors Buffers CellBuffers Queue Machine Scenario.
From S2P Require Import Waker Interleave.
From S2P Require Import WakerList AtomicWaker Invariant Preservation StepInvariant Concurrent.
From S2P Require Import Synchronized SyncRuns.
#[local] Open Scope Z_scope.

(** The word has no room for [n] slots, and is open. *)
Definition word_full (w n : Z) : Prop :=
  EnqueuingCapacity.is_closed w = false ∧ EnqueuingCapacity.try_reserve w n = None.

(** A reservation does not make room, nor close the queue. *)
Lemma word_full_reserve w w' n k :
  is_usize w → EnqueuingCapacity.try_reserve w k = Some w' → word_full w n → word_full w' n.
Proof.
  intros Hw Hk [Hc Hn]. apply open_small in Hc; [|done].
  unfold EnqueuingCapacity.try_reserve, checked_sub, shl in Hk, Hn.
  set (sk := wrap _) in Hk. set (sn := wrap _) in Hn.
  assert (0 ≤ sk) by by apply Z.mod_pos_bound.
  destruct (Z.leb_spec sk w); [|done]. destruct (Z.leb_spec sn w); [done|]. simplify_eq.
  unfold is_usize in Hw. split.
  - apply open_small; unfold is_usize; lia.
  - unfold EnqueuingCapacity.try_reserve, checked_sub, shl. fold sn.
    by destruct (Z.leb_spec sn (w - sk)); [lia|].
Qed.

(** Nor does [reopen], on an open word. *)
Lemma word_full_reopen w n :
  is_usize w → word_full w n → word_full (EnqueuingCapacity.reopen w) n.
Proof. intros Hw [Hc Hn]. by rewrite reopen_open. Qed.

Section EnqueueWaiting.
Context {B S V E Ob TW : Type}.
Context `{L : BufferLaws B S V E Ob}.
Variable task_will_wake : TW → TW → bool.
Variable task_of : TW → nat.

Abbreviation pc := (pc S V E).
Abbreviation event := (event S V E).
Abbreviation sync := (sync B S V E TW).
Abbreviation thread := (thread S V E TW).
Abbreviation act_of := (sync_act task_will_wake task_of).
Abbreviation kind := (sync_kind (B := B) task_will_wake task_of).

(** ** Where the waker of [t] can be *)
Definition pushed (c : sync) (t : nat) : Prop :=
  ∃ w, w ∈ wakers (s_enqueuers c) ∧ wtarget task_of w = t.

Definition being_woken (c : sync) (t : nat) : Prop :=
  ∃ t' th' ws w, s_threads c !! t' = Some th' ∧ th_list th' = WakeEach ws ∧ w ∈ ws ∧ wtarget task_of w = t.

(** Woken, or taken from the list by a thread that wakes it next. *)
Definition roused (c : sync) (t : nat) : Prop := t ∈ s_signals c ∨ being_woken c t.

(** A thread that is about to look at the list: it made room or closed the queue,
    or it is in [wake] before the lock. *)
Definition q_notifies (p : pc) : bool :=
  match p with
  | DeqCapLoad _ _ _ | DeqCapStore _ _ _ | DeqNotify _ _ _ | CloseNotifyDeq | CloseNotifyEnq => true
  | _ => false
  end.
Definition l_notifies (p : wl_pc TW) : bool :=
  match p with WakeLoad | WakeCas | WakeLock => true | _ => false end.

Definition notifier (c : sync) : Prop :=
  ∃ t th, s_threads c !! t = Some th ∧ (q_notifies (th_q th) || l_notifies (th_list th)) = true.

(** What holds of a waiting enqueuer. *)
Definition waits_ok (c : sync) (t : nat) (v : V) : Prop :=
  roused c t ∨
  pushed c t ∧ (word_full (enqueuing_capacity (s_queue c)) (size v) ∨ notifier c).

(** ** The list, in a move of any thread *)
Lemma list_moves strict (c c' : sync) t th th' a evs levs cevs :
  sync_step (B := B) task_will_wake task_of strict c t th a th' c' evs levs cevs →
  (s_enqueuers c' = s_enqueuers c ∧ th_list th' = th_list th ∧ levs = []) ∨
  (s_enqueuers c' = s_enqueuers c ∧ wl_call (th_list th) (th_list th') ∧ levs = []) ∨
  wl_step (s_enqueuers c) (th_list th) = Some (s_enqueuers c', th_list th', levs).
Proof. by intros [[]]. Qed.


Abbreviation sstep := (sync_step (B := B) task_will_wake task_of).

Lemma roused_kept strict c t th a th' c' evs levs cevs t0 :
  sstep strict c t th a th' c' evs levs cevs →
  (∀ m, a = SResume m → t ≠ t0) → roused c t0 → roused c' t0.
Proof.
  intros Hs Hne [Hsig|(t1 & th1 & ws & w & Hth1 & Hl & Hw & Htg)];
    [left; by eapply signal_kept|].
  destruct (moved_lookup _ _ _ _ _ _ _ _ _ _ _ _ Hs _ _ Hth1) as [(-> & -> & Hth1')|[Hne1 Hth1']].
  - pose proof (signal_new _ _ _ _ _ _ _ _ _ _ _ _ Hs) as Hnew.
    pose proof (list_moves _ _ _ _ _ _ _ _ _ _ Hs) as Hm.
    rewrite Hl in Hm. destruct Hm as [(_ & Hl' & _)|[(_ & [Hc _] & _)|Hm]].
    + right. by exists t, th', ws, w.
    + done.
    + destruct ws as [|w0 ws]; [by apply elem_of_nil in Hw|]. simpl in Hm.
      injection Hm as _ Hl' <-. apply elem_of_cons in Hw as [->|Hw].
      * left. rewrite <- Htg. apply Hnew. by left.
      * right. by exists t, th', ws, w.
  - right. by exists t1, th1, ws, w.
Qed.

(** A waker in the list stays, or the thread that locks the list has it. *)
Lemma pushed_kept strict c t th a th' c' evs levs cevs t0 :
  sstep strict c t th a th' c' evs levs cevs → pushed c t0 → pushed c' t0 ∨ roused c' t0.
Proof.
  intros Hs (w & Hw & Htg). pose proof (moved_lookup_t _ _ _ _ _ _ _ _ _ _ _ _ Hs) as Ht'.
  destruct (list_moves _ _ _ _ _ _ _ _ _ _ Hs) as [(He & _)|[(He & _)|Hm]];
    [left; exists w; by rewrite He..|].
  destruct (wl_step_wakers _ _ _ _ _ _ Hm Hw) as [Hw'|Hl']; [left; by exists w|].
  right. right. by exists t, th', (wakers (s_enqueuers c)), w.
Qed.

(** ** A thread about to look at the list *)
(** The notifying part of a call on the queue ends in [wake]. *)
Lemma step_notifier sp (q : Queue B) p o :
  q_notifies p = true → step sp q p = Some o →
  ∃ q' p' evs, o = Ret (q', p', evs) ∧
    (q_notifies p' = true ∨ notify_list (TW := TW) evs = WakeLoad).
Proof.
  intros Hp Hs. destruct p; try done; simpl in Hs; injection Hs as <-;
    unfold deq_cap_load, deq_cap_store, deq_notify; try case_match; eauto 10.
Qed.

Lemma notifier_call p (m : call V E) : q_notifies p = true → start_call (S := S) (E := E) p m = None.
Proof. by destruct m, p. Qed.

(** In [wake] before the lock: the thread goes on, or leaves because another one
    is there, or takes the list. *)
Lemma list_notifier strict n tr c t th a th' c' evs levs cevs :
  sync_facts task_will_wake strict n tr c → sstep strict c t th a th' c' evs levs cevs →
  l_notifies (th_list th) = true → wakers (s_enqueuers c') ≠ [] → notifier c'.
Proof.
  intros Hf Hs Hl Hne. pose proof (moved_lookup_t _ _ _ _ _ _ _ _ _ _ _ _ Hs) as Ht'.
  assert (l_notifies (th_list th') = true → notifier c') as Hself.
  { intros Hl'. exists t, th'. split; [done|]. by rewrite Hl', orb_true_r. }
  assert (wakers (s_enqueuers c) ≠ [] → non_empty (s_enqueuers c) = false →
    th_list th ≠ WakeLock → notifier c') as Hother.
  { intros Hw Hn Hnl. destruct (sf_list _ _ _ _ _ Hf) as [ltr Hr].
    apply wl_inv_runs in Hr as [owner HI]. destruct (wi_look _ _ _ _ HI Hw) as [Hx|[t1 Hx]];
      [simpl in Hx; congruence|].
    simpl in Hx. rewrite lookup_fmap in Hx. apply fmap_Some in Hx as (th1 & Hth1 & Hx).
    destruct (moved_lookup _ _ _ _ _ _ _ _ _ _ _ _ Hs _ _ Hth1) as [(-> & -> & _)|[_ Hth1']];
      [congruence|].
    exists t1, th1. split; [done|]. by rewrite <- Hx, orb_true_r. }
  destruct (list_moves _ _ _ _ _ _ _ _ _ _ Hs) as [(_ & Hl' & _)|[(_ & [Hc _] & _)|Hm]].
  - apply Hself. by rewrite Hl'.
  - by rewrite Hc in Hl.
  - destruct (th_list th) eqn:Hlt; try done; simpl in Hm.
    + injection Hm as He Hl' _. rewrite <- He in Hne.
      destruct (non_empty (s_enqueuers c)) eqn:Hn; [apply Hself; by rewrite <- Hl'|by apply Hother].
    + destruct (non_empty (s_enqueuers c)) eqn:Hn; injection Hm as He Hl' _.
      * apply Hself. by rewrite <- Hl'.
      * rewrite <- He in Hne. by apply Hother.
    + unfold with_lock in Hm. destruct (locked _); [done|]. injection Hm as He _ _.
      by rewrite <- He in Hne.
Qed.

(** A thread at rest, in a waiting method or between two, does not notify. *)
Lemma outer_no_notify (q : Queue B) t (th th' : thread) :
  thread_wf th → outer_step q t th = Some th' → q_notifies (th_q th) = false.
Proof.
  intros [_ _ Ho] [(m & v & Hm & _)|[(m & Hm & _)|[(res & -> & _)|[(e & -> & _)|(bs & -> & _)]]]]%outer_step_inv;
    try done; rewrite Hm in Ho.
  - by destruct Ho as [-> _].
  - by destruct Ho as [[e ->] _].
Qed.

Lemma sync_start_no_notify (th th' : thread) m o evs :
  sync_start th m o = Some (th', evs) → q_notifies (th_q th) = false.
Proof.
  unfold sync_start. destruct (_ && _); [|done]. intros Hs.
  destruct (q_notifies (th_q th)) eqn:Hq; [|done].
  by rewrite (notifier_call _ m Hq) in Hs.
Qed.

Lemma waiting_no_notify (th : thread) :
  thread_wf th →
  match th_outer th with EnqWait _ _ | DeqWait _ => q_notifies (th_q th) = false | _ => True end.
Proof.
  intros [_ _ Ho]. destruct (th_outer th); try done.
  - by destruct Ho as [-> _].
  - by destruct Ho as [[e ->] _].
Qed.

Lemma queue_notifier strict c t th a th' c' evs levs cevs :
  sstep strict c t th a th' c' evs levs cevs → q_notifies (th_q th) = true → notifier c'.
Proof.
  intros Hs Hq. pose proof (moved_lookup_t _ _ _ _ _ _ _ _ _ _ _ _ Hs) as Ht'.
  assert (q_notifies (th_q th') || l_notifies (th_list th') = true) as Hn; [|by exists t, th'].
  pose proof (waiting_no_notify _ (ss_wf _ _ _ _ _ _ _ _ _ _ _ _ Hs)) as Hwait.
  pose proof (ss_wf _ _ _ _ _ _ _ _ _ _ _ _ Hs) as Hwf.
  destruct (ss_kind _ _ _ _ _ _ _ _ _ _ _ _ Hs)
    as [sp s' p' levs' Hl|sp s' p' cevs' Hl Hc|sp o Hl Hc Hst|sp th1 Hl Hc Ho|a th1 evs1 Hc|m th1 _ Hr|th1 He|th1 He].
  - simpl. by rewrite Hq.
  - simpl. by rewrite Hq.
  - destruct (step_notifier _ _ _ _ Hq Hst) as (q' & p' & evs' & -> & [Hp'|Hl']); simpl.
    + by rewrite Hp'.
    + by rewrite Hl', orb_true_r.
  - by rewrite (outer_no_notify _ _ _ _ Hwf Ho) in Hq.
  - assert (∃ m o, sync_start th m o = Some (th1, evs1)) as (m & o & Hstart).
    { destruct a; try done; [|destruct Hc as [_ Hc]..]; eauto. }
    by rewrite (sync_start_no_notify _ _ _ _ _ Hstart) in Hq.
  - destruct (th_outer th); try done; congruence.
  - destruct (th_outer th) as [| | | |[]| | | | | |[]| | | |]; try done; congruence.
  - unfold cancel in He. destruct (th_outer th) as [| | | |[]| | | | | |[]| | | |]; try done; congruence.
Qed.

Lemma notifier_kept strict n tr c t th a th' c' evs levs cevs :
  sync_facts task_will_wake strict n tr c → sstep strict c t th a th' c' evs levs cevs →
  notifier c → wakers (s_enqueuers c') ≠ [] → notifier c'.
Proof.
  intros Hf Hs (t1 & th1 & Hth1 & Hn) Hne.
  destruct (moved_lookup _ _ _ _ _ _ _ _ _ _ _ _ Hs _ _ Hth1) as [(-> & -> & _)|[_ Hth1']];
    [|by exists t1, th1].
  apply orb_true_iff in Hn as [Hq|Hl]; [by eapply queue_notifier|by eapply list_notifier].
Qed.

(** ** The room of the queue *)
(** A step that may make room, or closes the queue, notifies next. *)
Lemma step_full sp (q q' : Queue B) p p' evs k :
  is_usize (enqueuing_capacity q) → step sp q p = Some (Ret (q', p', evs)) →
  word_full (enqueuing_capacity q) k →
  word_full (enqueuing_capacity q') k ∨ q_notifies p' = true.
Proof.
  intros Hw Hst Hfull. destruct (step_word _ _ _ _ _ _ Hst)
    as [-> _|v b _ _ _ Hr|dl capa nxt b -> Hev _| -> _ _ | _ _ ->].
  - by left.
  - left. by eapply word_full_reserve.
  - right. simpl in Hst. injection Hst as Hst. unfold deq_swap in Hst.
    destruct (_ && _); injection Hst as <- <- <-; done.
  - right. simpl in Hst. by injection Hst as <- <- <-.
  - left. by apply word_full_reopen.
Qed.

(** No room for [k]: less remains. *)
Lemma facts_full strict n tr (c : sync) k :
  sync_facts task_will_wake strict n tr c → 0 ≤ k < 9223372036854775808 →
  word_full (enqueuing_capacity (s_queue c)) k ↔
    queue_is_closed (s_queue c) = false ∧
    EnqueuingCapacity.remaining_capacity (enqueuing_capacity (s_queue c)) < k.
Proof.
  intros Hf Hk. destruct (facts_enc task_will_wake _ _ _ _ Hf) as (cl & e & r & He & Hr & Hw).
  unfold word_full, queue_is_closed. rewrite Hw, is_closed_enc, remaining_capacity_enc by done.
  destruct cl; [by split; intros [? ?]|]. rewrite try_reserve_enc by (unfold USIZE_MODULUS; lia).
  destruct (Z.leb_spec k r); split; intros [? ?]; split; try done; lia.
Qed.

Lemma full_kept strict n tr c t th a th' c' evs levs cevs k :
  sync_facts task_will_wake strict n tr c → sstep strict c t th a th' c' evs levs cevs →
  word_full (enqueuing_capacity (s_queue c)) k →
  word_full (enqueuing_capacity (s_queue c')) k ∨ notifier c'.
Proof.
  intros Hf Hs Hfull. pose proof (moved_lookup_t _ _ _ _ _ _ _ _ _ _ _ _ Hs) as Ht'.
  pose proof (facts_word task_will_wake _ _ _ _ Hf) as Hw.
  destruct (ss_kind _ _ _ _ _ _ _ _ _ _ _ _ Hs)
    as [sp s' p' levs' Hl|sp s' p' cevs' Hl Hc|sp o Hl Hc Hst|sp th1 Hl Hc Ho|a th1 evs1 Hc|m th1 _ Hr|th1 He|th1 He];
    try (by left).
  destruct o as [[[q' p'] evs']| |]; simpl in *; [|by left..].
  destruct (step_full _ _ _ _ _ _ k Hw Hst Hfull) as [?|Hn]; [by left|right].
  eexists t, _. split; [exact Ht'|]. simpl. by rewrite Hn.
Qed.

(** ** The condition of a waiting enqueuer is kept by every move but its own *)
Lemma waits_ok_kept strict n tr c t th a th' c' evs levs cevs t0 v :
  sync_facts task_will_wake strict n tr c → sstep strict c t th a th' c' evs levs cevs →
  (∀ m, a = SResume m → t ≠ t0) → waits_ok c t0 v → waits_ok c' t0 v.
Proof.
  intros Hf Hs Hne [Hr|[Hp Hfn]]; [left; by eapply roused_kept|].
  destruct (pushed_kept _ _ _ _ _ _ _ _ _ _ _ Hs Hp) as [Hp'|]; [|by left].
  right. split; [done|].
  assert (wakers (s_enqueuers c') ≠ []) as Hw.
  { destruct Hp' as (w & Hin & _). intros Hnil. rewrite Hnil in Hin. by apply elem_of_nil in Hin. }
  destruct Hfn as [Hfull|Hn].
  - by eapply full_kept.
  - right. by eapply notifier_kept.
Qed.

(** ** The invariant *)
(** What the last attempt has seen. *)
Definition attempt_ok (c : sync) (t : nat) (p : pc) : Prop :=
  match p with
  | EnqLoop v enqueuing _ => word_full enqueuing (size v) → waits_ok c t v
  | EnqDone (Err (TryEnqueueError.InsufficientCapacity v)) => waits_ok c t v
  | _ => True
  end.

Definition enq_inv (c : sync) (t : nat) (th : thread) : Prop :=
  match th_outer th with
  | EnqTry m _ => mode_ok task_of t m = true
  | EnqRegister _ _ =>
      match th_list th with
      | RegLock w | RegCheck w | RegStore w | RegPush w => wtarget task_of w = t
      | RegUnlock | WIdle => roused c t ∨ pushed c t
      | _ => False
      end
  | EnqLast _ => (roused c t ∨ pushed c t) ∧ attempt_ok c t (th_q th)
  | EnqWait _ v => waits_ok c t v
  | _ => True
  end.

(** The last attempt fails on the word it loaded. *)
Lemma step_attempt sp (q q' : Queue B) p p' evs :
  step sp q p = Some (Ret (q', p', evs)) →
  match p' with
  | EnqLoop v enqueuing _ => enqueuing = enqueuing_capacity q'
  | EnqDone (Err (TryEnqueueError.InsufficientCapacity v)) =>
      ∃ enqueuing b, p = EnqLoop v enqueuing b ∧ word_full enqueuing (size v)
  | _ => True
  end.
Proof.
  intros Hs. destruct p; simpl in Hs; try discriminate; apply (inj Some) in Hs;
    try (unfold_call_in Hs; inv_ret Hs; done).
  - unfold enq_start in Hs. by inv_ret Hs.
  - unfold enq_loop in Hs. destruct (EnqueuingCapacity.is_closed enqueuing) eqn:Hc;
      [by inv_ret Hs|].
    destruct (EnqueuingCapacity.try_reserve enqueuing (size value)) eqn:Hr; inv_ret Hs; try done.
    eexists _, _. by split.
Qed.

Section Preserved.
Variables (strict : bool) (n : nat) (tr : list event) (c c' : sync) (t : nat) (th th' : thread).
Variables (a : sync_action V E TW) (evs : list event).
Variables (levs : list (wl_event TW)) (cevs : list (aw_event (TW := TW))).
Hypothesis Hf : sync_facts task_will_wake strict n tr c.
Hypothesis Hs : sstep strict c t th a th' c' evs levs cevs.

Lemma known_kept t0 :
  (∀ m, a = SResume m → t ≠ t0) → roused c t0 ∨ pushed c t0 → roused c' t0 ∨ pushed c' t0.
Proof using Hs.
  intros Hne [Hr|Hp]; [left; by eapply roused_kept|].
  destruct (pushed_kept _ _ _ _ _ _ _ _ _ _ _ Hs Hp); auto.
Qed.

(** What is known of a thread stays known, unless it resumes. *)
Lemma enq_inv_kept t0 th0 :
  (∀ m, a = SResume m → t ≠ t0) → enq_inv c t0 th0 → enq_inv c' t0 th0.
Proof using Hf Hs.
  intros Hres. pose proof (known_kept t0 Hres) as Hk.
  assert (∀ v, waits_ok c t0 v → waits_ok c' t0 v) as Hw
    by (intros v; by eapply waits_ok_kept).
  unfold enq_inv. destruct (th_outer th0); auto.
  - by destruct (th_list th0); auto.
  - intros [Hr Hq]. split; [by apply Hk|]. unfold attempt_ok in *. repeat case_match; auto.
Qed.

(** A step of the registration. *)
Lemma enq_inv_list m v s' p' levs0 :
  (∀ m, a ≠ SResume m) → th_outer th = EnqRegister m v →
  wl_step (s_enqueuers c) (th_list th) = Some (s', p', levs0) →
  s_enqueuers c' = s' → th_outer th' = th_outer th → th_list th' = p' →
  enq_inv c t th → enq_inv c' t th'.
Proof using Hf Hs.
  intros Ha Ho Hstep He Ho' Hl'. unfold enq_inv. rewrite Ho', Ho, Hl'.
  assert (roused c t ∨ pushed c t → roused c' t ∨ pushed c' t) as Hk
    by (apply known_kept; intros m0 Hm; by destruct (Ha m0)).
  destruct (th_list th); simpl in Hstep; try done.
  - unfold with_lock in Hstep. destruct (locked _); [done|]. by injection Hstep as _ <- _.
  - injection Hstep as _ <- _. by destruct (wakers _).
  - by injection Hstep as _ <- _.
  - injection Hstep as <- <- _. intros Hw. right. exists w. rewrite He. simpl.
    split; [|done]. apply elem_of_app. right. by apply list_elem_of_singleton.
  - by injection Hstep as _ <- _.
Qed.

(** A step of the call on the queue. *)
Lemma enq_inv_step sp o :
  (∀ m, a ≠ SResume m) → step sp (s_queue c) (th_q th) = Some o →
  th' = queue_next th o → s_queue c' = queue_after (s_queue c) o →
  enq_inv c t th → enq_inv c' t th'.
Proof using Hf Hs.
  intros Ha Hst Hth' Hq. pose proof (wf_stepping _ _ _ _ (ss_wf _ _ _ _ _ _ _ _ _ _ _ _ Hs) Hst) as Hw.
  assert (∀ m, a = SResume m → t ≠ t) as Hres by (intros m Hm; by destruct (Ha m)).
  pose proof (known_kept t Hres) as Hk.
  assert (th_outer (queue_next th o) = th_outer th) as Ho by by destruct o as [[[]]| |].
  unfold enq_inv. rewrite Hth', Ho. destruct (th_outer th); try done.
  intros [Hr Hold]. split; [by apply Hk|].
  destruct o as [[[q' p'] evs']| |]; simpl; [|done..].
  pose proof (step_attempt _ _ _ _ _ _ Hst) as Hatt. simpl in Hq.
  destruct p'; try done; simpl.
  - intros Hfull. rewrite Hatt, <- Hq in Hfull.
    destruct (Hk Hr); [by left|right; auto].
  - destruct res as [|[v|v]]; try done. destruct Hatt as (enqueuing & b & Hp & Hfull).
    rewrite Hp in Hold. eapply waits_ok_kept; eauto.
Qed.

End Preserved.

(** What follows the return of a call. *)
Lemma enq_inv_outer (c : sync) t (th th' : thread) :
  thread_wf th → th_list th = WIdle → outer_step (s_queue c) t th = Some th' →
  enq_inv c t th → enq_inv c t th'.
Proof.
  intros Hwf Hl Ho. unfold enq_inv at 1.
  destruct (outer_step_inv _ _ _ _ Ho)
    as [(m & v & Hm & ->)|[(m & Hm & ->)|[(res & Hres & Ha)|[(e & He & Ha)|(bs & Hbs & Ha)]]]].
  - rewrite Hm, Hl. intros Hk. by split.
  - done.
  - rewrite Hres. unfold after_enqueue in Ha. destruct (th_outer th); try done; injection Ha as <-.
    + intros Hm. destruct (enq_retry _ res); [|done]. destruct k; [|done]. by apply wtarget_new.
    + intros [_ Hw]. destruct (enq_retry _ res) as [v|] eqn:Hr; [|done].
      unfold enq_retry in Hr. destruct res as [|[v'|v']]; try done. simpl in Hw.
      case_match; by simplify_eq.
    + done.
  - unfold after_dequeue in Ha. destruct (th_outer th); try done; injection Ha as <-; intros _;
      repeat case_match; try done; unfold deq_error; by repeat case_match.
  - unfold after_slice in Ha. by destruct (th_outer th); try done; injection Ha as <-.
Qed.

(** It depends on the method and its call, and on the registration. *)
Lemma enq_inv_ext (c : sync) t (th th' : thread) :
  th_outer th' = th_outer th → th_q th' = th_q th →
  match th_outer th with EnqRegister _ _ => th_list th' = th_list th | _ => True end →
  enq_inv c t th → enq_inv c t th'.
Proof. unfold enq_inv. intros -> ->. destruct (th_outer th); try done. by intros ->. Qed.

Lemma restarted_enq (c : sync) t (th : thread) : restarted task_of t th → enq_inv c t th.
Proof. unfold restarted, enq_inv. intros (_ & _ & Ho). destruct (th_outer th); tauto. Qed.

Lemma enq_inv_mover strict n tr c t th a th' c' evs levs cevs :
  sync_facts task_will_wake strict n tr c → sstep strict c t th a th' c' evs levs cevs →
  enq_inv c t th → enq_inv c' t th'.
Proof.
  intros Hf Hs HI. pose proof (ss_wf _ _ _ _ _ _ _ _ _ _ _ _ Hs) as Hwf.
  pose proof (enq_inv_kept _ _ _ _ _ _ _ _ _ _ _ _ Hf Hs t) as Hkept.
  pose proof (enq_inv_list _ _ _ _ _ _ _ _ _ _ _ _ Hf Hs) as Hlist.
  pose proof (enq_inv_step _ _ _ _ _ _ _ _ _ _ _ _ Hf Hs) as Hstep.
  pose proof (kind_restarted _ _ _ _ _ _ _ _ _ (ss_kind _ _ _ _ _ _ _ _ _ _ _ _ Hs)) as Hre.
  destruct (ss_kind _ _ _ _ _ _ _ _ _ _ _ _ Hs)
    as [sp s' p' levs' Hl|sp s' p' cevs' Hl Hc|sp o Hl Hc Hst|sp th1 Hl Hc Ho|a th1 evs1 Hc|m th1 Hm Hr|th1 He|th1 He];
    try (assert (enq_inv _ t th) as HI' by (by apply Hkept)).
  - destruct (th_outer th) as [| |m v| | | | | | | | | | | |] eqn:Ho; simpl in *;
      try (eapply enq_inv_ext; [..|exact HI']; simpl; by rewrite ?Ho).
    by eapply Hlist.
  - eapply enq_inv_ext; [..|exact HI']; try done. by destruct (th_outer th).
  - by eapply Hstep.
  - apply Hkept; [done|]. by eapply enq_inv_outer.
  - eapply restarted_enq, Hre. by intros ? ->.
  - by eapply restarted_enq, Hre.
  - by eapply restarted_enq, Hre.
  - by eapply restarted_enq, Hre.
Qed.

(** ** Every execution *)
Lemma sync_run_enq_inv strict n q0 tr c :
  sync_run task_will_wake task_of strict n q0 tr c →
  ∀ t th, s_threads c !! t = Some th → enq_inv c t th.
Proof.
  revert tr c. apply (sync_run_invariant task_will_wake task_of strict n q0
    (λ c, ∀ t th, s_threads c !! t = Some th → enq_inv c t th)).
  - intros t th. simpl. intros [_ [-> _]%lookup_replicate]%lookup_map_seq_Some. done.
  - intros tr c t th a th' c' evs levs cevs Hf Hs HI t0 th0.
    rewrite (moved _ _ _ _ _ _ _ _ _ _ _ _ Hs).
    intros [[<- <-]|[Hne Ht0]]%lookup_insert_Some.
    + eapply enq_inv_mover; eauto. apply HI. by eapply mover.
    + eapply enq_inv_kept; eauto.
Qed.

(** A thread in the notifying part of a call, or in [WakerList::wake]. *)
Definition notifying (th : thread) : bool :=
  q_notifies (th_q th) ||
  match th_list th with WakeLoad | WakeCas | WakeLock | WakeEach _ => true | _ => false end.

(** C4: No enqueuer is left waiting, in every sequentially consistent interleaving (with
    loads of older words, which the orderings allow, one can be: see [StaleReads]): when a
    blocking or asynchronous enqueue is parked or pending, it has been unparked or its task scheduled, or a thread
    that made room or closed the queue is still on its way to the list of wakers,
    or its waker is in that list and the queue is open without room for its value. *)
Theorem enqueue_not_stranded strict n q0 tr c t th m v :
  sync_run task_will_wake task_of strict n q0 tr c →
  s_threads c !! t = Some th → th_outer th = EnqWait m v →
  t ∈ s_signals c ∨
  (∃ t' th', s_threads c !! t' = Some th' ∧ notifying th' = true) ∨
  (pushed c t ∧ queue_is_closed (s_queue c) = false ∧
   EnqueuingCapacity.remaining_capacity (enqueuing_capacity (s_queue c)) < size v).
Proof.
  intros Hr Ht Ho. pose proof (sync_run_facts _ _ _ _ _ _ _ Hr) as Hf.
  pose proof (sync_run_enq_inv _ _ _ _ _ Hr _ _ Ht) as HI. unfold enq_inv in HI. rewrite Ho in HI.
  destruct (sf_wf _ _ _ _ _ Hf _ _ Ht) as [_ Hv Hwf]. rewrite Ho in Hwf. destruct Hwf as [Hq _].
  rewrite Hq in Hv. simpl in Hv. pose proof (valid_size v Hv) as [Hsz Hlt].
  destruct HI as [[Hsig|(t' & th' & ws & w & Ht' & Hl & _)]|[Hp [Hfull|(t' & th' & Ht' & Hn)]]].
  - by left.
  - right. left. exists t', th'. split; [done|]. unfold notifying. by rewrite Hl, orb_true_r.
  - right. right. split; [done|]. apply (facts_full _ _ _ _ _ Hf); [lia|done].
  - right. left. exists t', th'. split; [done|]. unfold notifying.
    apply orb_true_iff in Hn as [->|Hl]; [done|]. destruct (th_list th'); try done; apply orb_true_r.
Qed.
End EnqueueWaiting.

(** The queue of capacity 2 is full, and thread 1 waits with one element. *)
Lemma enqueue_not_stranded_witness :
  let c := (vec_sync 2 sched_waiting).1 in
  pushed (B := buf) id c 1 ∧ queue_is_closed (s_queue c) = false ∧
  EnqueuingCapacity.remaining_capacity (enqueuing_capacity (s_queue c)) < 1.
Proof.
  destruct (enqueue_not_stranded Nat.eqb id true 2 (vec_queue 2) _ _ 1 _ (Blocking false)
    (VArray [3]%nat) sync_run_waiting ltac:(vm_compute; reflexivity) eq_refl)
    as [Hs|[(t' & th' & Ht & Hn)|H]]; [..|exact H].
  - exfalso. revert Hs. vm_compute. done.
  - exfalso. revert Hn.
    assert (map_Forall (λ _ th, notifying th = false) (s_threads (vec_sync 2 sched_waiting).1)) as Hall
      by all_threads.
    by rewrite (Hall _ _ Ht).
Defined.
