(* ===== verification/EnqueueValue.v ===== *)
(** * The value of an enqueue

    A waiting [enqueue] tries as many times as it is woken, passing its value from one
    attempt to the next. Here: from the call to its return, whatever the other threads do in
    between, the value is reserved once, and the call succeeds, or never, and the error
    has the very value back. *)

From S2P Require Import Prelude PackedWords Errors Buffers CellBuffers Queue Machine Scenario.
From S2P Require Import Waker Interleave.
From S2P Require Import WakerList AtomicWaker Invariant StepInvariant Concurrent.
From S2P Require Import Synchronized SyncRuns.
#[local] Open Scope Z_scope.

Section EnqueueValue.
Context {B S V E Ob TW : Type}.
Context `{L : BufferLaws B S V E Ob}.
Variable task_will_wake : TW → TW → bool.
Variable task_of : TW → nat.

Abbreviation pc := (pc S V E).
Abbreviation event := (event S V E).
Abbreviation sync := (sync B S V E TW).
Abbreviation thread := (thread S V E TW).
Abbreviation action := (sync_action V E TW).
Abbreviation act_of := (sync_act (B := B) task_will_wake task_of).
Abbreviation kind := (sync_kind (B := B) task_will_wake task_of).

(** The actions of a thread that stays in its call: steps, and the ends of a wait. *)
Definition continues (a : action) : Prop :=
  match a with SRun _ | SResume _ | SExpire => True | _ => False end.

(** The events of thread [t] in a schedule of all the threads. *)
Fixpoint call_exec (t : nat) (c : sync) (sched : list (nat * action))
    : option (sync * list event) :=
  match sched with
  | [] => Some (c, [])
  | (t', a) :: sched =>
      '(c1, evs1) ← act_of c t' a;
      '(c2, evs2) ← call_exec t c1 sched;
      Some (c2, (if decide (t' = t) then evs1 else []) ++ evs2)
  end.

Definition reserved (evs : list event) : list V :=
  omap (λ ev, match ev with EvReserve v => Some v | _ => None end) evs.

Lemma reserved_app evs evs' : reserved (evs ++ evs') = reserved evs ++ reserved evs'.
Proof. apply omap_app. Qed.

(** What a call with value [v] may answer, having done the reservations [vs]. *)
Definition answers (v : V) (vs : list V) (res : result unit (TryEnqueueError.t V)) : Prop :=
  match res with
  | Ok _ => vs = if size v =? 0 then [] else [v]
  | Err e => vs = [] ∧ TryEnqueueError.into_inner e = v
  end.

(** Where the value is, in the call on the queue and in the method. *)
Definition q_carries (v : V) (vs : list V) (p : pc) : Prop :=
  match p with
  | EnqStart v' => v' = v ∧ vs = []
  | EnqLoop v' _ _ => v' = v ∧ vs = [] ∧ size v ≠ 0
  | EnqInsert _ _ | EnqAdd _ _ | EnqNotify => vs = [v] ∧ size v ≠ 0
  | EnqDone res => answers v vs res
  | Panicked | Undefined => True
  | _ => False
  end.

Definition done (p : pc) : Prop := match p with EnqDone _ => True | _ => False end.

Definition carries (v : V) (vs : list V) (th : thread) : Prop :=
  match th_outer th with
  | EnqTry _ _ | EnqLast _ | EnqFinal => q_carries v vs (th_q th)
  | EnqRegister _ v' | EnqWait _ v' => done (th_q th) ∧ v' = v ∧ vs = []
  | EnqReady res => done (th_q th) ∧ answers v vs res
  | _ => False
  end.

Lemma step_carries v vs sp (q : Queue B) p o :
  q_carries v vs p → step sp q p = Some o →
  q_carries v (vs ++ reserved (events_of o)) (pc_after o).
Proof.
  destruct p; simpl; try done; intros Hp [= <-].
  - destruct Hp as [-> ->]. unfold enq_start.
    destruct (Z.eqb_spec (size v) 0) as [Hz|]; simpl; [|done].
    by rewrite (proj2 (Z.eqb_eq _ _) Hz).
  - destruct Hp as (-> & -> & Hz). unfold enq_loop.
    destruct (EnqueuingCapacity.is_closed enqueuing); [done|].
    destruct (EnqueuingCapacity.try_reserve enqueuing (size v)); [|done].
    by destruct (_ && _).
  - unfold enq_insert. destruct (usize_sub _ _); simpl; [|done..].
    destruct (insert_into _ _ _); simpl; [|done..]. by rewrite app_nil_r.
  - by rewrite app_nil_r.
  - destruct Hp as [-> Hz]. simpl. by rewrite (proj2 (Z.eqb_neq _ _) Hz).
Qed.

Lemma done_stays sp (q : Queue B) p : done p → step sp q p = None.
Proof. by destruct p. Qed.

Lemma retry_carries v vs (q : Queue B) res v' :
  answers v vs res → enq_retry q res = Some v' → v' = v ∧ vs = [].
Proof.
  unfold enq_retry. destruct res as [|[v0|v0]]; try done. simpl.
  intros [-> ->]. case_match; [|done]. by intros [= ->].
Qed.

Lemma outer_carries v vs (q : Queue B) t (th th' : thread) :
  carries v vs th → outer_step q t th = Some th' → carries v vs th'.
Proof.
  intros Hc [(m & v' & Ho & ->)|[(m & Ho & ->)|[(res & Hq & Ha)|[(e & Hq & Ha)|(bs & Hq & Ha)]]]]%outer_step_inv;
    unfold carries in Hc; try rewrite Ho in Hc; try rewrite Hq in Hc.
  - destruct Hc as (_ & -> & ->). done.
  - done.
  - unfold after_enqueue in Ha. destruct (th_outer th); try discriminate Ha;
      apply (inj Some) in Ha as <-; simpl in Hc;
      try (destruct (enq_retry q res) as [v'|] eqn:Hr;
             [destruct (retry_carries _ _ _ _ _ Hc Hr) as [-> ->]|]); try done;
      by destruct k.
  - by destruct (th_outer th).
  - by destruct (th_outer th).
Qed.

Lemma kind_carries v vs (c : sync) t a th th' c' evs :
  kind c t th a th' c' evs → continues a → carries v vs th →
  carries v (vs ++ reserved evs) th'.
Proof.
  intros Hk Ha Hc.
  destruct Hk as [sp s' p' levs Hs|sp s' p' cevs Hl Hs|sp o Hl Hcl Hs|sp th' Hl Hcl Hs|a th' evs Hcall|m th' Hm Hr|th' He|th' He];
    simpl; try rewrite app_nil_r; try done.
  - unfold carries in *. rewrite outer_after_next, pc_after_next.
    destruct (th_outer th); try done;
      first [by eapply step_carries|destruct Hc as [Hd _]; by rewrite done_stays in Hs].
  - by eapply outer_carries.
  - by destruct a.
  - unfold carries in Hc. unfold resume in Hr. destruct (th_outer th); try done.
    destruct (same_mode _ _); [|done]. injection Hr as <-. destruct Hc as (_ & -> & ->). done.
  - unfold carries in Hc. unfold expire in He. destruct (th_outer th) as [| | | |[[]|] | | | | | | | | | |]; try done.
    injection He as <-. destruct Hc as (_ & -> & ->). done.
Qed.

Lemma call_exec_carries v t sched : ∀ (c c' : sync) vs evs th,
  Forall (λ ta, ta.1 = t → continues ta.2) sched → call_exec t c sched = Some (c', evs) →
  s_threads c !! t = Some th → carries v vs th →
  ∃ th', s_threads c' !! t = Some th' ∧ carries v (vs ++ reserved evs) th'.
Proof.
  induction sched as [|[t' a] sched IH]; intros c c' vs evs th Hok Hex Ht Hc; simpl in Hex.
  - injection Hex as <- <-. exists th. by rewrite app_nil_r.
  - apply Forall_cons in Hok as [Ha Hok]. simpl in Ha.
    apply bind_Some in Hex as ([c1 evs1] & Hact & Hex).
    apply bind_Some in Hex as ([c2 evs2] & Hex & [= <- <-]).
    destruct (sync_act_thread _ _ _ _ _ _ _ Hact) as [th0 Ht0].
    destruct (sync_act_kind _ _ _ _ _ _ _ _ Ht0 Hact) as (th1 & Hk & Hths).
    destruct (decide (t' = t)) as [->|Hne].
    + simplify_eq. rewrite reserved_app, (assoc_L (++)).
      eapply IH; [done|exact Hex|by rewrite Hths, lookup_insert_eq|].
      by eapply kind_carries; [exact Hk|apply Ha|].
    + eapply IH; [done|exact Hex|by rewrite Hths, lookup_insert_ne|done].
Qed.

(** C25: the value of an enqueue is neither lost nor taken twice. A call of [enqueue],
    [enqueue_timeout] or [enqueue_async] that returns, however often it has waited and whatever
    the other threads did meanwhile: when it succeeds, it has reserved room for its
    value exactly once (not at all when the value is empty); when it fails, it has
    reserved nothing, and the error gives that very value back. *)
Theorem enqueue_value_kept (c c1 c2 : sync) t m v evs1 sched evs th res :
  act_of c t (SEnqueue m v) = Some (c1, evs1) →
  Forall (λ ta, ta.1 = t → continues ta.2) sched → call_exec t c1 sched = Some (c2, evs) →
  s_threads c2 !! t = Some th → th_outer th = EnqReady res →
  match res with
  | Ok _ => reserved evs = if size v =? 0 then [] else [v]
  | Err e => reserved evs = [] ∧ TryEnqueueError.into_inner e = v
  end.
Proof.
  intros Hact Hok Hex Ht Ho.
  destruct (sync_act_thread _ _ _ _ _ _ _ Hact) as [th0 Ht0].
  destruct (sync_act_kind _ _ _ _ _ _ _ _ Ht0 Hact) as (th1 & Hk & Hths).
  inversion Hk as [| | | |a th' evs' Hcall| | |]; subst. destruct Hcall as [_ Hs].
  apply sync_start_inv in Hs as (p' & Hp & ->). simpl in Hp.
  destruct (ready (th_q th0)); [|done]. injection Hp as <- <-.
  destruct (call_exec_carries v t sched _ c2 [] evs _ Hok Hex (lookup_insert_eq _ _ _))
    as (th' & Ht' & Hc); [done|].
  simplify_eq. unfold carries in Hc. rewrite Ho in Hc. by apply Hc.
Qed.
End EnqueueValue.

(** ** Witness: thread 1, in front of a full queue, registers, waits, is resumed, waits again,
    and comes to its deadline *)
Definition sched_deadline : list (nat * vaction) :=
  steps 1 201 ++ [(1%nat, SResume (Blocking true))] ++ steps 1 200 ++
  [(1%nat, SExpire)] ++ steps 1 3.

Definition full : vsync :=
  (vec_sync 2 ([(0%nat, SCall (TryEnqueue (VArray [1; 2]%nat)))] ++ steps 0 8)).1.
Definition called : vsync :=
  from_option fst full
    (sync_act Nat.eqb id full 1 (SEnqueue (Blocking true) (VArray [3]%nat))).
Definition expired : vsync :=
  from_option fst called (call_exec Nat.eqb id 1 called sched_deadline).

Lemma enqueue_value_kept_witness :
  reserved (S := list nat) (V := val) (E := nat) [] = [] ∧
  TryEnqueueError.into_inner (TryEnqueueError.InsufficientCapacity (VArray [3]%nat)) =
    VArray [3]%nat.
Proof.
  refine (enqueue_value_kept (B := buf) Nat.eqb id full called expired 1%nat (Blocking true)
    (VArray [3]%nat) [] sched_deadline []
    (mk_thread _ (EnqDone (Err (TryEnqueueError.InsufficientCapacity (VArray [3]%nat))))
       WIdle AIdle) (Err (TryEnqueueError.InsufficientCapacity (VArray [3]%nat)))
    _ _ _ _ eq_refl).
  - vm_compute. reflexivity.
  - unfold sched_deadline, steps. rewrite !Forall_app.
    split_and!; try apply Forall_replicate; repeat constructor.
  - vm_compute. reflexivity.
  - vm_compute. reflexivity.
Defined.
