(* ===== verification/DequeueWaiting.v ===== *)
(** * The dequeuer is not left waiting

    A queue with one consumer: the thread [d] makes all the dequeuing calls, any
    thread enqueues, closes and reopens. When the consumer waits, it has been
    woken, or a thread that inserted a value or closed the queue is about to wake
    it, or its waker is stored and the queue is open and empty. *)

From S2P Require Import Prelude PackedWords Errors Buffers CellBuffers Queue Machine Scenario.
From S2P Require Import Waker Interleave.
From S2P Require Import WakerList AtomicWaker Invariant Preservation StepInvariant Concurrent.
From S2P Require Import Synchronized SyncRuns.
#[local] Open Scope Z_scope.

Section DequeueWaiting.
Context {B S V E Ob TW : Type}.
Context `{L : BufferLaws B S V E Ob}.
Variable task_will_wake : TW → TW → bool.
Variable task_of : TW → nat.
Variable d : nat.

Abbreviation pc := (pc S V E).
Abbreviation event := (event S V E).
Abbreviation sync := (sync B S V E TW).
Abbreviation thread := (thread S V E TW).
Abbreviation cell_pc := (aw_pc (TW := TW)).
Abbreviation act_of := (sync_act task_will_wake task_of).
Abbreviation kind := (sync_kind (B := B) task_will_wake task_of).
Abbreviation cstep := (sync_step (B := B) task_will_wake task_of).
Abbreviation facts := (sync_facts (B := B) task_will_wake).

(** ** Executions with one consumer *)
Definition consumer_ok (t : nat) (a : sync_action V E TW) : Prop :=
  match a with
  | SCall TryDequeue | SCall (TryDequeueAndResize _) | SDequeue _ => t = d
  | _ => True
  end.

Inductive consumer_run (strict : bool) (n : nat) (q0 : Queue B) : list event → sync → Prop :=
  | consumer_run_nil : built q0 → consumer_run strict n q0 [] (sync_initial q0 n)
  | consumer_run_snoc tr c t a c' evs :
      consumer_run strict n q0 tr c → sync_ok strict a → consumer_ok t a →
      act_of c t a = Some (c', evs) → consumer_run strict n q0 (tr ++ evs) c'.

Lemma consumer_sync_run strict n q0 tr c :
  consumer_run strict n q0 tr c → sync_run task_will_wake task_of strict n q0 tr c.
Proof. induction 1; by econstructor. Qed.

(** Rule induction. *)
Lemma consumer_run_invariant strict n q0 (I : sync → Prop) :
  I (sync_initial q0 n) →
  (∀ tr c t th a th' c' evs levs cevs,
     facts strict n tr c → cstep strict c t th a th' c' evs levs cevs → consumer_ok t a →
     I c → I c') →
  ∀ tr c, consumer_run strict n q0 tr c → I c.
Proof.
  intros H0' Hstep tr c Hr. induction Hr as [Hb|tr c t a c' evs Hr IH Ha Hc Hact]; [done|].
  pose proof (sync_run_facts _ _ _ _ _ _ _ (consumer_sync_run _ _ _ _ _ Hr)) as Hf.
  destruct (sync_act_step _ _ _ _ _ _ _ _ _ _ Hf Ha Hact) as (th & th' & levs & cevs & Hs). eauto.
Qed.

(** ** The other threads *)
Definition producer_point (p : pc) : bool :=
  match p with
  | Idle | EnqStart _ | EnqLoop _ _ _ | EnqInsert _ _ | EnqAdd _ _ | EnqNotify | EnqDone _
  | CloseOr | CloseNotifyDeq | CloseNotifyEnq | ReopenAnd | Panicked | Undefined => true
  | _ => false
  end.
Definition producer_outer (o : outer V TW) : bool :=
  match o with
  | Direct | EnqTry _ _ | EnqRegister _ _ | EnqLast _ | EnqWait _ _ | EnqFinal | EnqReady _ => true
  | _ => false
  end.
Definition producer_cell (p : cell_pc) : bool :=
  match p with AIdle | WakeOr | WakeTake | WakeAnd _ | WakeFire _ | APanic => true | _ => false end.

Definition producer (th : thread) : Prop :=
  producer_point (th_q th) = true ∧ producer_outer (th_outer th) = true ∧
  producer_cell (th_cell th) = true.

Lemma producer_step sp (q : Queue B) p o :
  step sp q p = Some o → producer_point p = true → producer_point (pc_after o) = true.
Proof.
  intros Hs Hp. destruct p; try discriminate; apply (inj Some) in Hs as <-;
    unfold enq_start, enq_loop, enq_insert, enq_add, enq_notify, close_or, reopen_and, obind;
    repeat (case_match; simplify_eq/=); try done.
Qed.

Lemma producer_cell_step s s' p p' evs :
  aw_step task_will_wake s p = Some (s', p', evs) → producer_cell p = true → producer_cell p' = true.
Proof.
  intros Hs Hp. destruct p; try discriminate; simpl in Hs; unfold wake_or in Hs;
    repeat (case_match; try discriminate); by simplify_eq/=.
Qed.

Lemma producer_outer_step (q : Queue B) t (th th' : thread) :
  outer_step q t th = Some th' → producer th → producer th'.
Proof.
  intros [(m & v & Hm & ->)|[(m & Hm & ->)|[(res & Hp & Ha)|[(e & Hp & Ha)|(bs & Hp & Ha)]]]]%outer_step_inv;
    intros (Hq & Ho & Hc); rewrite ?Hm in *; try done.
  - unfold after_enqueue in Ha. destruct (th_outer th); try discriminate; apply (inj Some) in Ha as <-;
      repeat (case_match; simplify_eq/=); done.
  - by rewrite Hp in Hq.
  - by rewrite Hp in Hq.
Qed.

Lemma producer_cell_next (th : thread) (o : outcome (Queue B * pc * list event)) :
  producer_cell (th_cell (queue_next th o)) = true.
Proof. destruct o as [[[q' p'] evs]| |]; try done. simpl. unfold notify_cell. by case_match. Qed.

Lemma producer_kept (c : sync) t a th th' c' evs :
  kind c t th a th' c' evs → consumer_ok t a → t ≠ d → producer th → producer th'.
Proof.
  intros Hk Hok Hne Hp. pose proof Hp as (Hq & Ho & Hce).
  destruct Hk as [sp s' p' levs Hs|sp s' p' cevs Hl Hs|sp o Hl Hc Hs|sp th' Hl Hc Hs|a th' evs Hc|m th' Hm Hr|th' He|th' He].
  - done.
  - split_and!; try done. by eapply producer_cell_step.
  - split_and!; [rewrite pc_after_next; by eapply producer_step|by rewrite outer_after_next|apply producer_cell_next].
  - by eapply producer_outer_step.
  - destruct a as [m|m v|m| | | |]; try done; [|destruct Hc as [_ Hc]];
      apply sync_start_inv in Hc as (p' & Hs & ->); split_and!; try done; simpl;
      unfold start_call in Hs; destruct m, (th_q th); simplify_eq/=; done.
  - unfold resume in Hr. destruct (th_outer th); try done;
      (destruct (same_mode _ _); [|done]); by injection Hr as <-.
  - unfold expire in He. destruct (th_outer th) as [| | | |[[]|]| | | | | |[[]|]| | | |]; try done;
      by injection He as <-.
  - unfold cancel in He. destruct (th_outer th) as [| | | |[]| | | | | |[]| | | |]; try done;
      by injection He as <-.
Qed.

(** ** Only the waker of [d] is stored *)
Abbreviation wtarget := (wtarget task_of).

Definition cell_wf (p : cell_pc) : Prop :=
  match p with
  | RegCas cx cur | RegCell cx cur | RegSelf cx cur => wtarget (waker_new cx cur) = d
  | RegSwap w | RegWake w | WakeFire w | WakeAnd (Some w) => wtarget w = d
  | _ => True
  end.

Definition stored_wf (s : atomic_waker (TW := TW)) : Prop := ∀ w, aw_waker s = Some w → wtarget w = d.

Lemma cell_step_wf s s' p p' evs :
  aw_step task_will_wake s p = Some (s', p', evs) → stored_wf s → cell_wf p →
  stored_wf s' ∧ cell_wf p' ∧ ∀ e, Woke e ∈ evs → target task_of e = d.
Proof.
  intros Hs Hst Hp. assert (∀ e, Woke (TW := TW) e ∈ [] → target task_of e = d) as Hnil
    by by intros e ?%elem_of_nil.
  assert (∀ w, wtarget w = d → ∀ e, Woke e ∈ [Woke (waker_wake w)] → target task_of e = d) as Hone.
  { intros w Hw e He%list_elem_of_singleton. by injection He as ->. }
  destruct p; try discriminate; simpl in Hs, Hp.
  - unfold reg_cas in Hs. repeat (case_match; try discriminate); by simplify_eq/=.
  - apply (inj Some) in Hs. simplify_eq/=. split_and!; [|done|].
    + intros w. unfold cell_update. simpl. destruct (aw_waker s) as [w0|] eqn:Hw; [|by intros [= <-]].
      destruct (waker_will_wake _ _ _); intros [= <-]; [by apply Hst|done].
    + by intros e He%list_elem_of_singleton.
  - unfold reg_done in Hs. repeat (case_match; try discriminate); by simplify_eq/=.
  - apply (inj Some) in Hs. destruct (aw_waker s) eqn:Hw; simplify_eq/=; split_and!; try done.
    by apply Hst.
  - by apply (inj Some) in Hs; simplify_eq/=.
  - apply (inj Some) in Hs. simplify_eq/=. eauto.
  - apply (inj Some) in Hs. simplify_eq/=. split_and!; try done. rewrite wake_caller_new. eauto.
  - unfold wake_or in Hs. repeat (case_match; try discriminate); by simplify_eq/=.
  - apply (inj Some) in Hs. simplify_eq/=. split_and!; try done. destruct (aw_waker s) eqn:Hw; [|done].
    by apply Hst.
  - apply (inj Some) in Hs. destruct w; by simplify_eq/=.
  - apply (inj Some) in Hs. simplify_eq/=. eauto.
Qed.

(** What holds of each thread. *)
Record known (t : nat) (th : thread) : Prop := {
  kn_cell : cell_wf (th_cell th);
  kn_other : t ≠ d → producer th;
  kn_mode : match th_outer th with DeqTry m _ => mode_ok task_of t m = true | _ => True end;
}.

Definition one_consumer (c : sync) : Prop :=
  stored_wf (s_dequeuer c) ∧ ∀ t th, s_threads c !! t = Some th → known t th.

Lemma known_outer_step (q : Queue B) t (th th' : thread) :
  outer_step q t th = Some th' → known t th → known t th'.
Proof.
  intros Hs Hk. split; [| |].
  - destruct (outer_step_inv _ _ _ _ Hs)
      as [(m & v & Hm & ->)|[(m & Hm & ->)|[(res & Hp & Ha)|[(e & Hp & Ha)|(bs & Hp & Ha)]]]]; try done.
    + unfold after_enqueue in Ha. destruct (th_outer th); try discriminate; apply (inj Some) in Ha as <-;
        repeat (case_match; simplify_eq/=); done.
    + pose proof (kn_mode _ _ Hk) as Hm. pose proof (kn_other _ _ Hk) as Hd.
      unfold after_dequeue in Ha. destruct (th_outer th) eqn:Ho; try discriminate; apply (inj Some) in Ha as <-;
        repeat (case_match; simplify_eq/=); try done.
      rewrite wtarget_new by done. destruct (decide (t = d)) as [|Hne]; [done|].
      destruct (Hd Hne) as (_ & Hx & _). by rewrite Ho in Hx.
    + unfold after_slice in Ha. by destruct (th_outer th); try discriminate; apply (inj Some) in Ha as <-.
  - intros Hne. by eapply producer_outer_step, kn_other.
  - pose proof (kn_mode _ _ Hk) as Hm.
    destruct (outer_step_inv _ _ _ _ Hs)
      as [(m & v & _ & ->)|[(m & _ & ->)|[(res & Hp & Ha)|[(e & Hp & Ha)|(bs & Hp & Ha)]]]]; try done;
      unfold after_enqueue, after_dequeue, after_slice, deq_error in Ha;
      destruct (th_outer th); try discriminate; apply (inj Some) in Ha as <-;
      repeat (case_match; simplify_eq/=); done.
Qed.

Lemma restarted_known t (th : thread) :
  restarted task_of t th → (t ≠ d → producer th) → known t th.
Proof.
  intros (_ & Hc & Ho) Hp. split; [by rewrite Hc|done|]. destruct (th_outer th); try done. by destruct Ho.
Qed.

Lemma known_thread_kept (c : sync) t a th th' c' evs :
  kind c t th a th' c' evs → consumer_ok t a → stored_wf (s_dequeuer c) → known t th →
  stored_wf (s_dequeuer c') ∧ known t th'.
Proof.
  intros Hk Hok Hst Hkn. pose proof Hkn as [Hc Ho Hm].
  pose proof (producer_kept _ _ _ _ _ _ _ Hk Hok) as Hprod.
  pose proof (kind_restarted _ _ _ _ _ _ _ _ _ Hk) as Hre.
  assert (t ≠ d → producer th') as Ho' by auto.
  destruct Hk as [sp s' p' levs Hs|sp s' p' cevs Hl Hs|sp o Hl Hce Hs|sp th' Hl Hce Hs|a th' evs Hca|m th' Hmo Hr|th' He|th' He].
  - split; [done|]. by split.
  - destruct (cell_step_wf _ _ _ _ _ Hs Hst Hc) as (Hst' & Hc' & _). split; [done|]. by split.
  - split; [by destruct o as [[[]]| |]|]. split; [|done|by rewrite outer_after_next].
    destruct o as [[[q' p'] evs]| |]; try done. simpl. unfold notify_cell. by destruct (existsb _ _).
  - split; [done|]. by eapply known_outer_step.
  - split; [done|]. apply restarted_known; [|done]. apply Hre. by intros ? ->.
  - split; [done|]. by apply restarted_known; [apply Hre|].
  - split; [done|]. by apply restarted_known; [apply Hre|].
  - split; [done|]. by apply restarted_known; [apply Hre|].
Qed.

Lemma one_consumer_kept strict c t th a th' c' evs levs cevs :
  cstep strict c t th a th' c' evs levs cevs → consumer_ok t a → one_consumer c → one_consumer c'.
Proof.
  intros Hs Hok [Hst Hall]. pose proof (mover _ _ _ _ _ _ _ _ _ _ _ _ Hs) as Ht.
  destruct (known_thread_kept _ _ _ _ _ _ _ (ss_kind _ _ _ _ _ _ _ _ _ _ _ _ Hs) Hok Hst (Hall _ _ Ht))
    as [Hst' Hk']. split; [done|].
  rewrite (moved _ _ _ _ _ _ _ _ _ _ _ _ Hs).
  intros t0 th0 [[<- <-]|[_ Ht0]]%lookup_insert_Some; auto.
Qed.

Lemma one_consumer_initial q n : one_consumer (sync_initial q n).
Proof.
  split; [done|]. intros t th. simpl. intros [_ [-> _]%lookup_replicate]%lookup_map_seq_Some. by split.
Qed.

(** ** What is known of the waker of [d] *)
Definition stored (c : sync) : Prop := is_Some (aw_waker (s_dequeuer c)).

(** Woken; or taken from the cell, or about to be. *)
Definition roused_d (c : sync) : Prop :=
  d ∈ s_signals c ∨
  ∃ t th, s_threads c !! t = Some th ∧
    (is_Some (in_flight (th_cell th)) ∨ th_cell th = WakeTake ∧ stored c).

(** A thread that inserts a value or closes the queue, and wakes the dequeuer
    next. *)
Definition d_notifies (p : pc) : bool :=
  match p with EnqInsert _ _ | EnqAdd _ _ | EnqNotify | CloseNotifyDeq => true | _ => false end.
Definition before_wake (p : cell_pc) : bool := match p with WakeOr => true | _ => false end.
Definition notifier_d (c : sync) : Prop :=
  ∃ t th, s_threads c !! t = Some th ∧ (d_notifies (th_q th) || before_wake (th_cell th)) = true.

(** Woken, or watching: the waker is there, and [P] until somebody notifies. *)
Definition watching (P : Prop) (c : sync) : Prop :=
  roused_d c ∨ stored c ∧ (notifier_d c ∨ P).

Lemma watching_impl (P Q : Prop) c : (P → Q) → watching P c → watching Q c.
Proof. unfold watching. tauto. Qed.

(** *** A step of the cell *)
Lemma cell_moves strict (c c' : sync) t th th' a evs levs cevs :
  cstep strict c t th a th' c' evs levs cevs →
  (s_dequeuer c' = s_dequeuer c ∧ th_cell th' = th_cell th ∧ cevs = []) ∨
  (s_dequeuer c' = s_dequeuer c ∧ aw_call (th_cell th) (th_cell th') ∧ cevs = []) ∨
  aw_step task_will_wake (s_dequeuer c) (th_cell th) = Some (s_dequeuer c', th_cell th', cevs).
Proof. by intros [[]]. Qed.

(** A waker taken is woken next, or was. *)
Lemma flight_step s s' p p' evs :
  aw_step task_will_wake s p = Some (s', p', evs) → is_Some (in_flight p) →
  is_Some (in_flight p') ∨ ∃ e, Woke e ∈ evs.
Proof.
  intros Hs [w Hw]. destruct p; simplify_eq/=; eauto; right; eexists; by left.
Qed.

(** The cell keeps its waker, or the thread that empties it has it. *)
Lemma stored_step s s' p p' evs :
  aw_step task_will_wake s p = Some (s', p', evs) → is_Some (aw_waker s) →
  is_Some (aw_waker s') ∨ is_Some (in_flight p').
Proof.
  intros Hs [w Hw]. destruct p; try discriminate; simpl in Hs; unfold reg_cas, reg_done, wake_or in Hs;
    rewrite ?Hw in Hs; repeat (case_match; try discriminate); simplify_eq/=; rewrite ?Hw; eauto.
Qed.

(** ** It stays known *)
(** *** A notifying thread *)
Lemma facts_insert strict n tr (c : sync) t th v enq :
  facts strict n tr c → s_threads c !! t = Some th → th_q th = EnqInsert v enq →
  ∃ q', enq_insert (s_queue c) v enq = Ret (q', EnqAdd v enq : pc, []).
Proof.
  intros Hf Ht Hp. destruct (run_inv _ _ _ _ (sf_queue _ _ _ _ _ Hf)) as (e & cl & g & held & HI).
  assert ((th_q <$> s_threads c) !! t = Some (EnqInsert v enq)) as Hq
    by by rewrite lookup_fmap, Ht, <- Hp.
  destruct (inv_insert _ _ _ _ _ _ _ _ _ _ HI Hq v enq eq_refl) as (q' & Hr & _). by exists q'.
Qed.

Lemma d_notifies_call p (m : call V E) : d_notifies p = true → start_call (S := S) (E := E) p m = None.
Proof. by destruct m, p. Qed.

(** Mid-call, the thread is not at a turn of a waiting method. *)
Lemma d_notifies_outer (q : Queue B) t (th : thread) :
  thread_wf th → d_notifies (th_q th) = true →
  outer_step q t th = None ∧ (∀ m', resume (th_outer th) m' = None (A := thread)) ∧
  expire (th_outer th) = None (A := thread) ∧ cancel th = None.
Proof.
  intros [_ _ Ho] Hq.
  assert (∀ e, th_q th ≠ DeqErr e) as He by (intros e He; by rewrite He in Hq).
  assert (∀ r, th_q th ≠ EnqDone r) as Hr by (intros r Hr; by rewrite Hr in Hq).
  assert (∀ bs, th_q th ≠ Slice bs) as Hb by (intros bs Hb; by rewrite Hb in Hq).
  assert (match th_outer th with
          | EnqRegister _ _ | EnqWait _ _ | DeqRegister _ | DeqWait _ => False | _ => True end) as Hw.
  { destruct (th_outer th); try done; [destruct Ho as [Ho _]; by destruct (Hr _ Ho)..| |];
      destruct Ho as [[e Ho] _]; by destruct (He e). }
  split_and!.
  - destruct (outer_step q t th) eqn:Hos; [|done].
    apply outer_step_inv in Hos as [(m & v & Hm & _)|[(m & Hm & _)|[(r & Hx & _)|[(e & Hx & _)|(bs & Hx & _)]]]];
      [by rewrite Hm in Hw..| | |]; naive_solver.
  - intros m'. by destruct (th_outer th).
  - by destruct (th_outer th).
  - unfold cancel. by destruct (th_outer th).
Qed.

Section Moves.
Variables (strict : bool) (n : nat) (tr : list event) (c c' : sync) (t : nat) (th th' : thread).
Variables (a : sync_action V E TW) (evs : list event).
Variables (levs : list (wl_event TW)) (cevs : list (aw_event (TW := TW))).
Hypothesis Hf : facts strict n tr c.
Hypothesis Hs : cstep strict c t th a th' c' evs levs cevs.
Hypothesis Hone : one_consumer c.

Lemma t_after : s_threads c' !! t = Some th'.
Proof using Hs. by eapply moved_lookup_t. Qed.

(** A waking by the cell is a waking of [d]. *)
Lemma woke_d e :
  aw_step task_will_wake (s_dequeuer c) (th_cell th) = Some (s_dequeuer c', th_cell th', cevs) →
  Woke e ∈ cevs → d ∈ s_signals c'.
Proof using Hs Hone.
  intros Hst He. destruct Hone as [Hw Hall].
  assert (s_threads c !! t = Some th) as Ht by by eapply mover.
  destruct (cell_step_wf _ _ _ _ _ Hst Hw (kn_cell _ _ (Hall _ _ Ht))) as (_ & _ & Htg).
  rewrite <- (Htg _ He). by eapply signal_new_cell.
Qed.

Lemma stored_kept : stored c → stored c' ∨ roused_d c'.
Proof using Hs.
  intros Hst. destruct (cell_moves _ _ _ _ _ _ _ _ _ _ Hs) as [(He & _)|[(He & _)|Hm]];
    [left; unfold stored; by rewrite He..|].
  destruct (stored_step _ _ _ _ _ Hm Hst) as [?|Hfl]; [by left|].
  right. right. exists t, th'. split; [exact t_after|by left].
Qed.

Lemma roused_d_kept : (∀ m, a = SResume m → t ≠ d) → roused_d c → roused_d c'.
Proof using Hs Hone.
  intros Hne [Hsig|(t1 & th1 & Ht1 & Hd)]; [left; by eapply signal_kept|].
  pose proof t_after as Ht'. pose proof woke_d as Hwoke.
  pose proof (cell_moves _ _ _ _ _ _ _ _ _ _ Hs) as Hm.
  destruct (moved_lookup _ _ _ _ _ _ _ _ _ _ _ _ Hs _ _ Ht1) as [(-> & -> & _)|[Hne1 Ht1']].
  - destruct Hm as [(He & Hc & _)|[(_ & Hc & _)|Hm]].
    + right. exists t, th'. split; [done|]. rewrite Hc. unfold stored in *. by rewrite He.
    + exfalso. unfold aw_call in Hc. destruct (th_cell th); try done.
      destruct Hd as [[? Hd]|[Hd _]]; discriminate.
    + destruct Hd as [Hfl|[Hc [w Hw]]].
      * destruct (flight_step _ _ _ _ _ Hm Hfl) as [Hfl'|[e He]]; [|left; by eapply Hwoke].
        right. exists t, th'. auto.
      * right. exists t, th'. split; [done|]. left. rewrite Hc in Hm. simpl in Hm.
        rewrite Hw in Hm. injection Hm as _ <- _. by eexists.
  - destruct Hd as [Hfl|[Hc Hst]]; [right; by exists t1, th1; auto|].
    destruct (stored_kept Hst); [|done]. right. exists t1, th1. auto.
Qed.

(** In the call on the queue. *)
Lemma d_notifies_kept : d_notifies (th_q th) = true → notifier_d c'.
Proof using Hf Hs.
  intros Hq. exists t, th'. split; [exact t_after|].
  pose proof (ss_wf _ _ _ _ _ _ _ _ _ _ _ _ Hs) as Hwf.
  assert (s_threads c !! t = Some th) as Ht by by eapply mover.
  destruct (d_notifies_outer (s_queue c) t th Hwf Hq) as (Hno & Hnr & Hne & Hnc).
  destruct (ss_kind _ _ _ _ _ _ _ _ _ _ _ _ Hs)
    as [sp s' p' levs' Hl|sp s' p' cevs' Hl Hc|sp o Hl Hc Hst|sp th1 Hl Hc Ho|a th1 evs1 Hc|m th1 _ Hr|th1 He|th1 He].
  - simpl. by rewrite Hq.
  - simpl. by rewrite Hq.
  - destruct (th_q th) eqn:Hp; try done; simpl in Hst; injection Hst as <-; try done.
    destruct (facts_insert _ _ _ _ _ _ _ _ Hf Ht Hp) as [q' ->]. done.
  - by rewrite Hno in Ho.
  - assert (∃ m o, sync_start th m o = Some (th1, evs1)) as (m & o & Hst).
    { destruct a; try done; [|destruct Hc as [_ Hc]..]; eauto. }
    apply sync_start_inv in Hst as (p' & Hst & _). by rewrite d_notifies_call in Hst.
  - by rewrite Hnr in Hr.
  - by rewrite Hne in He.
  - by rewrite Hnc in He.
Qed.

(** Before [wake]: the word is free and the thread takes the cell next, or
    another one does. *)
Lemma before_wake_kept :
  (∀ thd, s_threads c !! d = Some thd → producer_cell (th_cell thd) = true) →
  stored c → th_cell th = WakeOr → notifier_d c' ∨ roused_d c'.
Proof using Hf Hs Hone.
  intros Hidle [w Hw] Hc. pose proof t_after as Ht'.
  destruct (cell_moves _ _ _ _ _ _ _ _ _ _ Hs) as [(_ & Hc' & _)|[(_ & Hc' & _)|Hm]].
  - left. exists t, th'. split; [done|]. by rewrite Hc', Hc, orb_true_r.
  - by rewrite Hc in Hc'.
  - right. right. rewrite Hc in Hm. simpl in Hm.
    destruct (sf_cell _ _ _ _ _ Hf) as [ctr Hr]. apply aw_inv_runs in Hr as [owner HI]. simpl in HI.
    unfold wake_or in Hm. destruct owner as [t0|].
    + destruct (ai_ok _ _ _ HI t0 eq_refl) as (p0 & Hp0 & Hok).
      pose proof Hp0 as Hp0'. rewrite lookup_fmap in Hp0.
      apply fmap_Some in Hp0 as (th0 & Ht0 & Heq).
      assert (producer_cell p0 = true) as Hpr.
      { rewrite Heq. destruct (decide (t0 = d)) as [->|Hne]; [by apply Hidle|].
        apply Hone in Ht0 as [_ Hpr _]. by apply Hpr. }
      assert (p0 = WakeTake) as -> by (destruct p0; try done; simpl in Hok; destruct Hok; congruence).
      destruct (moved_lookup _ _ _ _ _ _ _ _ _ _ _ _ Hs _ _ Ht0) as [(-> & -> & _)|[_ Ht0']];
        [congruence|].
      exists t0, th0. split; [done|]. right. split; [done|].
      simpl in Hok. rewrite Hok in Hm. injection Hm as He _ _. unfold stored. rewrite <- He. by exists w.
    + assert (aw_state (s_dequeuer c) = WAITING) as Hst by by apply (ai_free _ _ _ HI).
      rewrite Hst in Hm. injection Hm as He Hp _. exists t, th'. split; [done|].
      right. split; [done|]. unfold stored. rewrite <- He. by exists w.
Qed.

Lemma notifier_d_kept :
  (∀ thd, s_threads c !! d = Some thd → producer_cell (th_cell thd) = true) →
  stored c → notifier_d c → notifier_d c' ∨ roused_d c'.
Proof using Hf Hs Hone.
  intros Hidle Hst (t1 & th1 & Ht1 & Hn).
  destruct (moved_lookup _ _ _ _ _ _ _ _ _ _ _ _ Hs _ _ Ht1) as [(-> & -> & _)|[_ Ht1']];
    [|left; by exists t1, th1].
  apply orb_true_iff in Hn as [Hq|Hb].
  - left. by apply d_notifies_kept.
  - apply before_wake_kept; [done..|]. by destruct (th_cell th).
Qed.

(** The watch goes on, with a condition that stays or is notified. *)
Lemma watching_kept (P P' : Prop) :
  (∀ m, a = SResume m → t ≠ d) →
  (∀ thd, s_threads c !! d = Some thd → producer_cell (th_cell thd) = true) →
  (P → P' ∨ notifier_d c') → watching P c → watching P' c'.
Proof using Hf Hs Hone.
  intros Hne Hidle HP [Hr|[Hst Hn]]; [left; by apply roused_d_kept|].
  destruct (stored_kept Hst) as [Hst'|]; [|by left].
  destruct Hn as [Hn|Hp].
  - destruct (notifier_d_kept Hidle Hst Hn); [right; auto|by left].
  - right. destruct (HP Hp); auto.
Qed.
End Moves.

(** ** The queue, while the others run *)
(** Open, and every slot of the enqueuing buffer is free. *)
Definition all_room (q : Queue B) : Prop :=
  queue_is_closed q = false ∧
  EnqueuingCapacity.remaining_capacity (enqueuing_capacity q) =
    capacity (sel (EnqueuingCapacity.buffer_index (enqueuing_capacity q)) (buffers q)).

(** And the dequeuing side is free, with nothing left in its buffer. *)
Definition nothing_queued (q : Queue B) : Prop :=
  all_room q ∧ dequeuing_length q ≠ DEQUEUING_LOCKED ∧
  DequeuingLength.buffer_len (dequeuing_length q) = 0.

(** An open word stays the same, as well as the buffers. *)
Definition still (q q' : Queue B) : Prop :=
  dequeuing_length q' = dequeuing_length q ∧ buffers q' = buffers q ∧
  (queue_is_closed q = false → enqueuing_capacity q' = enqueuing_capacity q).

Lemma still_refl q : still q q.
Proof. done. Qed.

Lemma still_all_room q q' : still q q' → all_room q → all_room q'.
Proof.
  unfold all_room, queue_is_closed. intros (_ & Hb & Hw) [Hc Hr].
  by rewrite Hb, Hw.
Qed.

Lemma still_nothing_queued q q' : still q q' → nothing_queued q → nothing_queued q'.
Proof.
  intros Hst [Hr Hd]. split; [by eapply still_all_room|]. destruct Hst as (Hl & _). by rewrite Hl.
Qed.

(** A producer's step that disturbs the queue is followed by a notification. *)
Lemma producer_still sp (q q' : Queue B) p p' evs :
  is_usize (enqueuing_capacity q) → producer_point p = true → d_notifies p = false →
  step sp q p = Some (Ret (q', p', evs)) → still q q' ∨ d_notifies p' = true.
Proof.
  intros Hw Hp Hn Hs. destruct p; try discriminate; simpl in Hs; apply (inj Some) in Hs.
  - unfold enq_start in Hs. case_match; injection Hs as <- <- <-; auto using still_refl.
  - unfold enq_loop in Hs. repeat (case_match; try discriminate); injection Hs as <- <- <-;
      auto using still_refl.
  - injection Hs as <- <- <-. by right.
  - injection Hs as <- <- <-. left. apply still_refl.
  - injection Hs as <- <- <-. left. split; [done|]. split; [done|]. simpl. by apply reopen_open.
Qed.

Lemma producer_move strict n tr c t th a th' c' evs levs cevs :
  facts strict n tr c → cstep strict c t th a th' c' evs levs cevs → producer th →
  still (s_queue c) (s_queue c') ∨ notifier_d c'.
Proof.
  intros Hf Hs (Hp & _). pose proof (t_after _ _ _ _ _ _ _ _ _ _ Hs) as Ht'.
  destruct (d_notifies (th_q th)) eqn:Hn;
    [right; exact (d_notifies_kept _ _ _ _ _ _ _ _ _ _ _ _ Hf Hs Hn)|].
  pose proof (facts_word task_will_wake _ _ _ _ Hf) as Hw.
  destruct (ss_kind _ _ _ _ _ _ _ _ _ _ _ _ Hs)
    as [sp s' p' levs' Hl|sp s' p' cevs' Hl Hc|sp o Hl Hc Hst|sp th1 Hl Hc Ho|a th1 evs1 Hc|m th1 _ Hr|th1 He|th1 He];
    try (left; apply still_refl).
  destruct o as [[[q' p'] evs']| |]; simpl in *; [|left; apply still_refl..].
  destruct (producer_still _ _ _ _ _ _ Hw Hp Hn Hst) as [?|Hn']; [by left|right].
  eexists t, _. split; [exact Ht'|]. simpl. by rewrite Hn'.
Qed.

(** ** The invariant *)
(** What the attempt after the registration has seen. *)
Definition attempt (c : sync) (p : pc) : Prop :=
  match p with
  | DeqStart rz | DeqInternal _ rz | DeqResize _ rz => rz = None
  | DeqAddInserted dl | DeqLoad dl | DeqSwap dl _ _ _ _ | DeqCapLoad dl _ _ | DeqCapStore dl _ _
  | DeqNotify dl _ _ | DeqMatch dl _ _ => dl_resized dl = false
  | DeqCheck dl enq =>
      dl_resized dl = false ∧
      (EnqueuingCapacity.is_closed enq = false →
       watching (enqueuing_capacity (s_queue c) = enq) c)
  | DeqRestore _ enq =>
      EnqueuingCapacity.is_closed enq = false → watching (all_room (s_queue c)) c
  | DeqAck _ => False
  | DeqSpin _ _ k => (k < SPIN_LIMIT)%nat → watching False c
  | DeqSave _ _ | DeqErr TryDequeueError.Pending => watching False c
  | DeqErr TryDequeueError.Empty => watching (nothing_queued (s_queue c)) c
  | _ => True
  end.

Definition deq_inv (c : sync) (th : thread) : Prop :=
  match th_outer th with
  | DeqRegister _ =>
      match th_cell th with
      | AIdle => watching True c
      | RegCas _ _ | RegCell _ _ | RegDone | RegTake | RegSwap _ | RegWake _ | RegSelf _ _ => True
      | _ => False
      end
  | DeqLast _ => producer_cell (th_cell th) = true ∧ watching True c ∧ attempt c (th_q th)
  | DeqWait _ => watching (nothing_queued (s_queue c)) c
  | _ => True
  end.

Section Watch.
Variables (strict : bool) (n : nat) (tr : list event) (c c' : sync) (t : nat) (th th' thd : thread).
Variables (a : sync_action V E TW) (evs : list event).
Variables (levs : list (wl_event TW)) (cevs : list (aw_event (TW := TW))).
Hypothesis Hf : facts strict n tr c.
Hypothesis Hs : cstep strict c t th a th' c' evs levs cevs.
Hypothesis Hone : one_consumer c.
Hypothesis Hd : s_threads c !! d = Some thd.
Hypothesis Hres : ∀ m, a = SResume m → t ≠ d.

(** The watch goes on while the queue is left alone or a producer moves. *)
Lemma watch_kept (P P' : Prop) :
  producer_cell (th_cell thd) = true →
  still (s_queue c) (s_queue c') ∨ notifier_d c' →
  (still (s_queue c) (s_queue c') → P → P') → watching P c → watching P' c'.
Proof using Hf Hs Hone Hd Hres.
  intros Hc Hst HP. eapply watching_kept; eauto.
  - intros thd' Hd'. congruence.
  - intros p. destruct Hst; auto.
Qed.

Lemma attempt_kept p :
  producer_cell (th_cell thd) = true →
  still (s_queue c) (s_queue c') ∨ notifier_d c' → attempt c p → attempt c' p.
Proof using Hf Hs Hone Hd Hres.
  intros Hc Hst. pose proof (λ P P', watch_kept P P' Hc Hst) as Hk.
  destruct p; simpl; try done.
  - intros [Hr Hx]. split; [done|]. intros Hcl. specialize (Hx Hcl). revert Hx. apply Hk.
    intros (_ & _ & Hw) He. rewrite Hw; [done|]. unfold queue_is_closed. by rewrite He.
  - intros Hx Hcl. specialize (Hx Hcl). revert Hx. apply Hk. intros Hq. by apply still_all_room.
  - intros Hx Hlt. specialize (Hx Hlt). revert Hx. by apply Hk.
  - by apply Hk.
  - destruct e; try done; apply Hk; [|done]. intros Hq. by apply still_nothing_queued.
Qed.

Lemma deq_inv_kept :
  thread_wf thd → still (s_queue c) (s_queue c') ∨ notifier_d c' → deq_inv c thd → deq_inv c' thd.
Proof using Hf Hs Hone Hd Hres.
  intros [_ _ Hwf] Hst. unfold deq_inv. destruct (th_outer thd); try done.
  - destruct (th_cell thd) eqn:Hc; try done. apply watch_kept; [by rewrite Hc|done|done].
  - intros (Hc & Hw & Ha). split; [done|]. split; [|by apply attempt_kept].
    revert Hw. by apply watch_kept.
  - destruct Hwf as (_ & _ & Hc). apply watch_kept; [by rewrite Hc|done|].
    intros Hq. by apply still_nothing_queued.
Qed.
End Watch.

(** ** The moves of [d] *)
Section Own.
Variables (strict : bool) (n : nat) (tr : list event) (c c' : sync) (th th' : thread).
Variables (a : sync_action V E TW) (evs : list event).
Variables (levs : list (wl_event TW)) (cevs : list (aw_event (TW := TW))).
Hypothesis Hf : facts strict n tr c.
Hypothesis Hs : cstep strict c d th a th' c' evs levs cevs.
Hypothesis Hone : one_consumer c.
Hypothesis Hres : ∀ m, a ≠ SResume m.

Lemma own_watch (P P' : Prop) :
  producer_cell (th_cell th) = true → (P → P') → watching P c → watching P' c'.
Proof using Hf Hs Hone Hres.
  intros Hc HP. eapply watching_kept; eauto.
  - intros m Hm. by destruct (Hres m).
  - intros thd Hd. pose proof (mover _ _ _ _ _ _ _ _ _ _ _ _ Hs). congruence.
Qed.

(** The registration. *)
Lemma own_register :
  (match th_cell th with
   | RegCas _ _ | RegCell _ _ | RegDone | RegTake | RegSwap _ | RegWake _ | RegSelf _ _ => True
   | _ => False
   end) →
  aw_step task_will_wake (s_dequeuer c) (th_cell th) = Some (s_dequeuer c', th_cell th', cevs) →
  match th_cell th' with
  | AIdle => watching True c'
  | RegCas _ _ | RegCell _ _ | RegDone | RegTake | RegSwap _ | RegWake _ | RegSelf _ _ => True
  | _ => False
  end.
Proof using Hf Hs Hone.
  intros Hreg Hst. pose proof (woke_d _ _ _ _ _ _ _ _ _ _ Hs Hone) as Hwoke.
  pose proof (mover _ _ _ _ _ _ _ _ _ _ _ _ Hs) as Ht.
  assert (∀ e, cevs = [Woke e] → watching True c') as Hwoken.
  { intros e He. left. left. apply (Hwoke e Hst). rewrite He. by left. }
  destruct (sf_cell _ _ _ _ _ Hf) as [ctr Hr]. apply aw_inv_runs in Hr as [owner HI]. simpl in HI.
  assert ((th_cell <$> s_threads c) !! d = Some (th_cell th)) as Htc by by rewrite lookup_fmap, Ht.
  pose proof (owner_step_ok _ _ _ _ _ HI Htc) as Hok.
  destruct (th_cell th) eqn:Hc; try done; simpl in Hst, Hok.
  - assert (aw_state (s_dequeuer c) = WAITING ∨ aw_state (s_dequeuer c) = WAKING) as Hw.
    { destruct owner as [t0|]; [|left; by apply (ai_free _ _ _ HI)].
      destruct (ai_ok _ _ _ HI t0 eq_refl) as (p0 & Hp0 & Hok0).
      rewrite lookup_fmap in Hp0. apply fmap_Some in Hp0 as (th0 & Ht0 & ->).
      destruct (decide (t0 = d)) as [->|Hne]; [simplify_eq; by rewrite Hc in Hok0|].
      apply Hone in Ht0 as [_ Hpr _]. apply Hpr in Hne as (_ & _ & Hpc).
      right. destruct (th_cell th0); try done; simpl in Hok0; tauto. }
    unfold reg_cas in Hst. destruct Hw as [Hw|Hw]; rewrite Hw in Hst; injection Hst as _ <- _; done.
  - by injection Hst as _ <- _.
  - unfold reg_done in Hst. destruct (Hok eq_refl) as [[Hw|Hw] [w Hsome]]; rewrite Hw in Hst;
      injection Hst as He <- _; [|done].
    right. unfold stored. rewrite <- He. simpl. rewrite Hsome. eauto.
  - destruct (Hok eq_refl) as [_ [w Hsome]]. rewrite Hsome in Hst. by injection Hst as _ <- _.
  - by injection Hst as _ <- _.
  - injection Hst as _ <- He. by eapply Hwoken.
  - injection Hst as _ <- He. by eapply Hwoken.
Qed.
(** The loop fails its turn on an insertion in progress. *)
Lemma spin_notifier i len k :
  s_threads c !! d = Some th → th_q th = DeqSpin i len k →
  (len <=? sel i (buffers_length (s_queue c))) = false → notifier_d c.
Proof using Hf.
  intros Ht Hp Hlen. destruct (run_inv _ _ _ _ (sf_queue _ _ _ _ _ Hf)) as (e & cl & g & held & HI).
  destruct (decide (map_Forall (λ _ p, enqueuing_on i p = false) (th_q <$> s_threads c))) as [Hall|Hno].
  - exfalso. assert ((th_q <$> s_threads c) !! d = Some (DeqSpin i len k)) as Hq
      by by rewrite lookup_fmap, Ht, <- Hp.
    destruct (spin_complete _ _ _ _ _ _ _ _ _ _ _ _ HI Hq) as [_ Hle]; [by apply Hall|].
    apply Z.leb_gt in Hlen. simpl in Hle. lia.
  - apply map_not_Forall in Hno as (t' & p' & Ht' & Hp'); [|apply _].
    rewrite lookup_fmap in Ht'. apply fmap_Some in Ht' as (th2 & Ht' & ->).
    exists t', th2. split; [done|]. apply orb_true_iff. left.
    unfold enqueuing_on in Hp'. by destruct (th_q th2).
Qed.

(** Nothing was found: the word put back has length 0. *)
Lemma restore_length dl enq :
  s_threads c !! d = Some th → th_q th = DeqRestore dl enq →
  dl_dequeuing dl ≠ DEQUEUING_LOCKED ∧ DequeuingLength.buffer_len (dl_dequeuing dl) = 0.
Proof using Hf.
  intros Ht Hp. destruct (run_inv _ _ _ _ (sf_queue _ _ _ _ _ Hf)) as (e & cl & g & held & HI).
  assert ((th_q <$> s_threads c) !! d = Some (DeqRestore dl enq)) as Hq
    by by rewrite lookup_fmap, Ht, <- Hp.
  destruct (word_of_inv _ _ _ _ _ _ _ _ HI) as [He _].
  destruct (holder_facts _ _ _ _ _ _ _ _ _ HI _ Hq eq_refl) as (_ & _ & _ & Hinv & _).
  destruct Hinv as ((_ & -> & _) & _).
  split; [apply deq_enc_unlocked|apply deq_buffer_len_enc]; unfold MAX_REMAINING; lia.
Qed.

Lemma own_attempt sp o :
  producer_cell (th_cell th) = true → watching True c → attempt c (th_q th) →
  step sp (s_queue c) (th_q th) = Some o → s_queue c' = queue_after (s_queue c) o →
  attempt c' (pc_after o).
Proof using Hf Hs Hone Hres.
  intros Hcell Hw Hatt Hst Hq'. pose proof (λ P P' HP, own_watch P P' Hcell HP) as Hk.
  pose proof (mover _ _ _ _ _ _ _ _ _ _ _ _ Hs) as Ht.
  destruct (th_q th) eqn:Hp; simpl in Hst; try discriminate; apply (inj Some) in Hst as <-;
    try (unfold enq_start, enq_loop, enq_insert, rel_clear, queue_requeue, get_slice, slice_assign, iter_remove,
           obind in *; repeat (case_match; simplify_eq/=); done);
    simpl in Hatt, Hq'.
  - rewrite Hatt. unfold deq_start. by case_match.
  - rewrite Hatt. unfold deq_internal. case_match; simpl; [done|lia].
  - rewrite Hatt. done.
  - unfold deq_load in *. destruct (assert _); simpl in *; try done. split; [done|].
    intros _. revert Hw. apply Hk. intros _. by rewrite Hq'.
  - destruct Hatt as [Hrz Hatt]. unfold deq_check in *.
    destruct (_ && _ && _) eqn:Hroom; simpl in *.
    + rewrite Hq'. intros Hcl. specialize (Hatt Hcl). revert Hatt. apply Hk. intros Hword.
      apply andb_true_iff in Hroom as [[Hroom _]%andb_true_iff _]. apply Z.eqb_eq in Hroom.
      split; unfold queue_is_closed; by rewrite Hword.
    + unfold obind. by repeat (case_match; simplify_eq/=).
  - destruct (restore_length _ _ Ht Hp) as [Hnl Hlen]. simpl.
    destruct (EnqueuingCapacity.is_closed enqueuing); [done|].
    specialize (Hatt eq_refl). revert Hatt. apply Hk. intros Hroom. rewrite Hq'. by split.
  - unfold deq_swap. by case_match.
  - unfold deq_cap_load. by case_match.
  - unfold deq_match, obind. rewrite Hatt. repeat (case_match; simplify_eq/=); try done; lia.
  - unfold deq_spin in *. destruct n0 as [|k]; simpl in *.
    + apply Hk with (P := False); [done|]. apply Hatt. unfold SPIN_LIMIT. lia.
    + destruct (length <=? sel buffer_index (buffers_length (s_queue c))) eqn:Hlen; simpl; [done|].
      intros _. apply Hk with (P := False); [done|].
      pose proof (spin_notifier _ _ _ Ht Hp Hlen). destruct Hw as [?|[? _]]; [by left|right; auto].
  - unfold deq_take, obind. by case_match.
  - by apply (Hk False).
Qed.
End Own.
(** What follows the return of a call. *)
Lemma deq_inv_outer (c : sync) t (th th' : thread) :
  th_cell th = AIdle → outer_step (s_queue c) t th = Some th' → deq_inv c th → deq_inv c th'.
Proof.
  intros Hc Hs. unfold deq_inv at 1.
  destruct (outer_step_inv _ _ _ _ Hs)
    as [(m & v & Hm & ->)|[(m & Hm & ->)|[(res & Hp & Ha)|[(e & Hp & Ha)|(bs & Hp & Ha)]]]].
  - done.
  - rewrite Hm, Hc. intros Hw. by split.
  - unfold after_enqueue in Ha. destruct (th_outer th); try discriminate; apply (inj Some) in Ha as <-;
      repeat (case_match; simplify_eq/=); done.
  - rewrite Hp. unfold after_dequeue in Ha.
    destruct (th_outer th) eqn:Ho; try discriminate; apply (inj Some) in Ha as <-; [| |done].
    + intros _. unfold deq_error. repeat (case_match; simplify_eq/=); done.
    + intros (_ & _ & Hw). destruct (deq_retry e) eqn:He.
      * destruct e; try done. simpl in Hw. revert Hw. by apply watching_impl.
      * unfold deq_error. repeat (case_match; simplify_eq/=); done.
  - unfold after_slice in Ha. by destruct (th_outer th); try discriminate; apply (inj Some) in Ha as <-.
Qed.

Lemma deq_inv_ext (c : sync) (th th' : thread) :
  th_outer th' = th_outer th → th_q th' = th_q th → th_cell th' = th_cell th →
  deq_inv c th → deq_inv c th'.
Proof. unfold deq_inv. by intros -> -> ->. Qed.

Lemma restarted_deq (c : sync) t (th : thread) : restarted task_of t th → deq_inv c th.
Proof. unfold restarted, deq_inv. intros (_ & _ & Ho). by destruct (th_outer th). Qed.

Lemma deq_inv_mover strict n tr c th a th' c' evs levs cevs :
  facts strict n tr c → cstep strict c d th a th' c' evs levs cevs → one_consumer c →
  deq_inv c th → deq_inv c' th'.
Proof.
  intros Hf Hs Hone HI. pose proof (mover _ _ _ _ _ _ _ _ _ _ _ _ Hs) as Ht.
  pose proof (ss_wf _ _ _ _ _ _ _ _ _ _ _ _ Hs) as Hwf.
  pose proof (cell_moves _ _ _ _ _ _ _ _ _ _ Hs) as Hcell.
  pose proof (own_register _ _ _ _ _ _ _ _ _ _ _ Hf Hs Hone) as Hreg.
  pose proof (own_attempt _ _ _ _ _ _ _ _ _ _ _ Hf Hs Hone) as Hatt.
  pose proof (own_watch _ _ _ _ _ _ _ _ _ _ _ Hf Hs Hone) as Hwatch.
  pose proof (deq_inv_kept _ _ _ _ _ _ _ _ _ _ _ _ _ Hf Hs Hone Ht) as Hkept.
  pose proof (kind_restarted _ _ _ _ _ _ _ _ _ (ss_kind _ _ _ _ _ _ _ _ _ _ _ _ Hs)) as Hre.
  destruct (ss_kind _ _ _ _ _ _ _ _ _ _ _ _ Hs)
    as [sp s' p' levs' Hl|sp s' p' cevs' Hl Hc|sp o Hl Hc Hst|sp th1 Hl Hc Ho|a th1 evs1 Hc|m th1 Hm Hr|th1 He|th1 He];
    try (assert (deq_inv _ th) as HI' by (apply Hkept; [done|done|left; apply still_refl|done])).
  - by eapply deq_inv_ext; [..|exact HI'].
  - unfold deq_inv in *. simpl in *. destruct (th_outer th) eqn:Ho; try done.
    + destruct Hcell as [(_ & Hc' & _)|[(_ & Hc' & _)|Hm]].
      * by rewrite <- Hc' in HI'.
      * unfold aw_call in Hc'. by destruct (th_cell th).
      * apply Hreg; [|done]. by destruct (th_cell th).
    + destruct HI' as (Hpc & HI'). split; [|done]. by eapply producer_cell_step.
  - pose proof (wf_stepping _ _ _ _ Hwf Hst) as Hws. unfold deq_inv in *.
    rewrite outer_after_next, pc_after_next. destruct (th_outer th); try done.
    destruct HI as (Hpc & Hw & Hat). split; [apply producer_cell_next|].
    split; [by eapply Hwatch|]. by eapply Hatt.
  - by eapply (deq_inv_outer (set_thread_only c d th1)).
  - eapply restarted_deq, Hre. by intros ? ->.
  - by eapply restarted_deq, Hre.
  - by eapply restarted_deq, Hre.
  - by eapply restarted_deq, Hre.
Qed.

(** ** Every execution *)
Lemma consumer_run_inv strict n q0 tr c :
  consumer_run strict n q0 tr c →
  one_consumer c ∧ ∀ th, s_threads c !! d = Some th → deq_inv c th.
Proof.
  revert tr c. apply (consumer_run_invariant strict n q0
    (λ c, one_consumer c ∧ ∀ th, s_threads c !! d = Some th → deq_inv c th)).
  - split; [apply one_consumer_initial|].
    intros th. simpl. by intros [_ [-> _]%lookup_replicate]%lookup_map_seq_Some.
  - intros tr c t th a th' c' evs levs cevs Hf Hs Hok [Hone HI].
    split; [by eapply one_consumer_kept|]. intros th0.
    pose proof (mover _ _ _ _ _ _ _ _ _ _ _ _ Hs) as Ht.
    rewrite (moved _ _ _ _ _ _ _ _ _ _ _ _ Hs).
    intros [[-> <-]|[Hne Ht0]]%lookup_insert_Some; [eapply deq_inv_mover; eauto|].
    eapply deq_inv_kept; eauto; [by eapply sf_wf|].
    eapply producer_move; eauto. by apply (kn_other _ _ (proj2 Hone _ _ Ht)).
Qed.

(** A thread that inserts, closes, or wakes the dequeuer. *)
Definition waking_d (th : thread) : bool :=
  d_notifies (th_q th) ||
  match th_cell th with WakeOr | WakeTake | WakeAnd (Some _) | WakeFire _ => true | _ => false end.

(** C5: The dequeuer is not left waiting, in every sequentially consistent
    interleaving: on a queue with one consumer, when a blocking or asynchronous dequeue is parked or pending, it has been unparked or
    its task scheduled, or a thread that reserved its slots or closed the queue is
    still on its way to wake it, or its waker is stored and the queue is open and
    empty. *)
Theorem dequeue_not_stranded strict n q0 tr c th m :
  consumer_run strict n q0 tr c → s_threads c !! d = Some th → th_outer th = DeqWait m →
  d ∈ s_signals c ∨
  (∃ t' th', s_threads c !! t' = Some th' ∧ waking_d th' = true) ∨
  ((∃ w, aw_waker (s_dequeuer c) = Some w ∧ wtarget w = d) ∧ nothing_queued (s_queue c)).
Proof.
  intros Hr Ht Ho. destruct (consumer_run_inv _ _ _ _ _ Hr) as [Hone HI].
  pose proof (sync_run_facts _ _ _ _ _ _ _ (consumer_sync_run _ _ _ _ _ Hr)) as Hf.
  specialize (HI _ Ht). unfold deq_inv in HI. rewrite Ho in HI.
  destruct (sf_wf _ _ _ _ _ Hf _ _ Ht) as [_ _ Hwf]. rewrite Ho in Hwf.
  destruct Hwf as (_ & _ & Hcell).
  destruct HI as [[Hsig|(t' & th' & Ht' & Hx)]|[[w Hw] [(t' & th' & Ht' & Hn)|Hq]]].
  - by left.
  - right. left. exists t', th'. split; [done|]. unfold waking_d. apply orb_true_iff. right.
    destruct Hx as [[w Hw]|[-> _]]; [|done].
    assert (producer_cell (th_cell th') = true) as Hpc.
    { destruct (decide (t' = d)) as [->|Hne]; [simplify_eq; by rewrite Hcell|].
      apply Hone in Ht' as [_ Hp _]. by apply Hp. }
    destruct (th_cell th'); try done. by simplify_eq/=.
  - right. left. exists t', th'. split; [done|]. unfold waking_d.
    apply orb_true_iff in Hn as [->|Hb]; [done|]. apply orb_true_iff. right. by destruct (th_cell th').
  - right. right. split; [|done]. exists w. split; [done|]. by apply Hone.
Qed.

(** Schedules with one consumer. *)
Lemma consumer_exec_run strict n q0 sched : ∀ tr0 c0 c tr,
  consumer_run strict n q0 tr0 c0 →
  Forall (λ ta, sync_ok strict ta.2 ∧ consumer_ok ta.1 ta.2) sched →
  sync_exec task_will_wake task_of c0 sched = Some (c, tr) →
  consumer_run strict n q0 (tr0 ++ tr) c.
Proof.
  induction sched as [|[t a] sched IH]; intros tr0 c0 c tr Hr Hok Hex; simpl in Hex.
  - injection Hex as <- <-. by rewrite app_nil_r.
  - apply Forall_cons in Hok as [[Ha Hc] Hok].
    apply bind_Some in Hex as ([c1 evs1] & Hact & Hex).
    apply bind_Some in Hex as ([c2 evs2] & Hex & [= <- <-]).
    rewrite (assoc_L (++)). eapply IH; eauto. by econstructor.
Qed.
End DequeueWaiting.

(** ** Thread 1 is the consumer of an empty queue: its task is pending *)
Definition sched_consumer : list (nat * vaction) :=
  [(1%nat, SDequeue (Polled 1%nat))] ++ steps 1 524.

Lemma vec_consumer_run (d : nat) (strict : bool) n sched :
  is_some (sync_exec Nat.eqb id (sync_initial (vec_queue 2) n) sched) = true →
  Forall (λ ta, sync_ok (B := buf) strict ta.2 ∧ consumer_ok d ta.1 ta.2) sched →
  consumer_run Nat.eqb id d strict n (vec_queue 2) (vec_sync n sched).2 (vec_sync n sched).1.
Proof.
  intros Hex Hok. unfold vec_sync, is_some in *.
  destruct (sync_exec Nat.eqb id (sync_initial (vec_queue 2) n) sched) as [[c' tr]|] eqn:He; [|done].
  eapply (consumer_exec_run Nat.eqb id d strict n (vec_queue 2) sched []); [|done..].
  constructor. by apply vec_queue_built.
Qed.

Lemma consumer_run_waiting :
  consumer_run Nat.eqb id 1 true 2 (vec_queue 2)
    (vec_sync 2 sched_consumer).2 (vec_sync 2 sched_consumer).1.
Proof.
  apply vec_consumer_run; [vm_compute; reflexivity|].
  apply Forall_app. split; [by repeat constructor|]. by apply Forall_replicate.
Qed.

Definition consumer_waiting : thread (list nat) val nat nat :=
  mk_thread (DeqWait (Polled 1%nat)) (DeqErr TryDequeueError.Empty) WIdle AIdle.

Lemma dequeue_not_stranded_witness :
  let c := (vec_sync 2 sched_consumer).1 in
  (∃ w, aw_waker (s_dequeuer c) = Some w ∧ wtarget id w = 1%nat) ∧ nothing_queued (s_queue c).
Proof.
  assert (s_threads (vec_sync 2 sched_consumer).1 !! 1%nat = Some consumer_waiting) as Ht
    by (vm_compute; reflexivity).
  destruct (dequeue_not_stranded Nat.eqb id 1 true 2 (vec_queue 2) _ _ consumer_waiting
    (Polled 1%nat) consumer_run_waiting Ht eq_refl) as [Hs|[(t' & th' & Ht' & Hn)|H]]; [..|exact H].
  - exfalso. revert Hs. vm_compute. done.
  - exfalso. revert Hn.
    assert (map_Forall (λ _ th, waking_d th = false) (s_threads (vec_sync 2 sched_consumer).1)) as Hall
      by all_threads.
    by rewrite (Hall _ _ Ht').
Defined.
