(* ===== verification/QueueIter.v ===== *)
(** * The iterator of a synchronized queue

    The thread [d] only drives [SynchronizedQueue::iter]; the others enqueue,
    close and reopen. What the iterator yields is what was enqueued, in order. *)

From S2P Require Import Prelude PackedWords Errors Buffers CellBuffers Queue Machine Scenario.
From S2P Require Import Waker Interleave.
From S2P Require Import WakerList AtomicWaker Invariant StepInvariant Concurrent.
From S2P Require Import Synchronized SyncRuns DequeueWaiting.
#[local] Open Scope Z_scope.

Section QueueIter.
Context {B S V E Ob TW : Type}.
Context `{L : BufferLaws B S V E Ob}.
Variable task_will_wake : TW → TW → bool.
Variable task_of : TW → nat.
Variable d : nat.

Abbreviation pc := (pc S V E).
Abbreviation event := (event S V E).
Abbreviation sync := (sync B S V E TW).
Abbreviation thread := (thread S V E TW).
Abbreviation act_of := (sync_act task_will_wake task_of).

(** [d] does what the iterator does; it also waits, and is woken. *)
Definition iter_ok (c : sync) (t : nat) (a : sync_action V E TW) : Prop :=
  if decide (t = d)
  then match a with
       | SRun _ | SResume _ => True
       | _ => ∃ th, s_threads c !! d = Some th ∧ queue_iter th = Some a
       end
  else match a with
       | SCall TryDequeue | SCall (TryDequeueAndResize _) | SDequeue _ => False
       | _ => True
       end.

Inductive iter_run (strict : bool) (n : nat) (q0 : Queue B) : list event → sync → Prop :=
  | iter_run_nil : built q0 → iter_run strict n q0 [] (sync_initial q0 n)
  | iter_run_snoc tr c t a c' evs :
      iter_run strict n q0 tr c → sync_ok strict a → iter_ok c t a →
      act_of c t a = Some (c', evs) → iter_run strict n q0 (tr ++ evs) c'.

Lemma iter_consumer_ok (c : sync) t a : iter_ok c t a → consumer_ok d t a.
Proof.
  unfold iter_ok. destruct (decide (t = d)) as [->|]; destruct a as [[]| | | | | |]; done.
Qed.

Lemma iter_consumer_run strict n q0 tr c :
  iter_run strict n q0 tr c → consumer_run task_will_wake task_of d strict n q0 tr c.
Proof. induction 1; econstructor; eauto using iter_consumer_ok. Qed.

(** What the iterator has returned. *)
Definition yielded (tr : list event) : list E :=
  omap (λ ev, match ev with EvNext x => Some x | _ => None end) tr.

(** No slice is consumed as a whole. *)
Definition no_release (tr : list event) : Prop := ∀ s, EvRelease s ∉ tr.

Lemma no_release_app tr1 tr2 : no_release tr1 → no_release tr2 → no_release (tr1 ++ tr2).
Proof. intros H1' H2' s [Hs|Hs]%elem_of_app; [by eapply H1'|by eapply H2']. Qed.

Lemma dequeued_app (h : hist (E := E) (Ob := Ob)) tr :
  no_release tr → h_out (foldl hist_event h tr) = h_out h ++ (obs <$> yielded tr).
Proof.
  revert h. induction tr as [|ev tr IH]; intros h Hn; simpl; [by rewrite app_nil_r|].
  rewrite IH; [|intros s Hs; apply (Hn s); by right].
  destruct ev; simpl; try done.
  - destruct (Hn slice). by left.
  - by rewrite <- (assoc_L (++)).
Qed.

Lemma dequeued_yielded tr : no_release tr → dequeued tr = obs <$> yielded tr.
Proof. apply dequeued_app. Qed.

(** *** Only the drop of a slice releases it *)
Ltac no_release_evs :=
  let s := fresh "s" in let Hx := fresh "Hx" in
  intros s Hx; repeat (apply elem_of_cons in Hx as [Hx|Hx]; [discriminate Hx|]);
  by apply elem_of_nil in Hx.

Lemma step_no_release sp (q q' : Queue B) p p' evs :
  step sp q p = Some (Ret (q', p', evs)) → no_release evs.
Proof.
  intros Hs. destruct p; simpl in Hs; try discriminate; apply (inj Some) in Hs;
    unfold_step_in Hs;
    inv_ret Hs; no_release_evs.
Qed.

Lemma start_no_release p (m : call V E) p' evs :
  start_call (S := S) (E := E) p m = Some (p', evs) → m ≠ SliceDrop → no_release evs.
Proof.
  intros Hs Hm. unfold_start_in Hs. destruct m; try done; repeat (case_match; try discriminate); simplify_eq; no_release_evs.
Qed.

Lemma nil_no_release : no_release [].
Proof. no_release_evs. Qed.

Lemma kind_no_release (c : sync) t th a th' c' evs :
  sync_kind task_will_wake task_of c t th a th' c' evs →
  (t ≠ d → producer th) → s_threads c !! t = Some th → iter_ok c t a → no_release evs.
Proof.
  intros Hk Hp Ht Hok.
  destruct Hk as [sp s' p' levs Hs|sp s' p' cevs Hl Hs|sp o Hl Hc Hs|sp th' Hl Hc Hs|a th' evs Hc|m th' Hm Hr|th' He|th' He];
    try apply nil_no_release.
  - destruct o as [[[q' p'] evs]| |]; simpl; [by eapply step_no_release|apply nil_no_release..].
  - destruct a as [m|m v|m| | | |]; try done; [|destruct Hc as [_ Hc]..];
      apply sync_start_inv in Hc as (p' & Hs & _); [|by eapply start_no_release..].
    eapply start_no_release; [done|]. intros ->. unfold iter_ok in Hok.
    destruct (decide (t = d)) as [->|Hne].
    + destruct Hok as (th0 & Ht0 & Hi). simplify_eq. unfold queue_iter in Hi. by repeat case_match.
    + destruct (Hp Hne) as (Hq & _). by destruct (th_q th).
Qed.

Lemma iter_no_release strict n q0 tr c : iter_run strict n q0 tr c → no_release tr.
Proof.
  intros Hr. induction Hr as [|tr c t a c' evs Hr IH Ha Hok Hact]; [apply nil_no_release|].
  apply no_release_app; [done|]. pose proof (iter_consumer_run _ _ _ _ _ Hr) as Hc.
  destruct (consumer_run_inv _ _ _ _ _ _ _ _ Hc) as [Hone _].
  destruct (sync_act_thread _ _ _ _ _ _ _ Hact) as [th Ht].
  destruct (sync_act_kind _ _ _ _ _ _ _ _ Ht Hact) as (th' & Hk & _).
  eapply kind_no_release; eauto. apply (kn_other _ _ _ _ (proj2 Hone _ _ Ht)).
Qed.

(** C10: The iterator yields what was enqueued: when a thread drives [iter] and the
    others only enqueue, close and reopen, the elements it has yielded are, in
    order, a prefix of those that were enqueued, with none left out. *)
Theorem iter_in_order strict n q0 tr c :
  iter_run strict n q0 tr c →
  ∃ rest, obs <$> enqueued tr = (obs <$> yielded tr) ++ rest.
Proof.
  intros Hr. pose proof (dequeued_yielded _ (iter_no_release _ _ _ _ _ Hr)) as Hd.
  pose proof (sf_queue _ _ _ _ _ (sync_run_facts _ _ _ _ _ _ _
    (consumer_sync_run _ _ _ _ _ _ _ _ (iter_consumer_run _ _ _ _ _ Hr)))) as Hq.
  destruct (run_inv _ _ _ _ Hq) as (e & cl & g & held & _ & _ & _ & Hh).
  unfold dequeued in Hd. rewrite Hd in Hh. eauto.
Qed.

(** ** Schedules: [None] is what the iterator does next *)
Fixpoint iter_exec (c : sync) (sched : list (nat * option (sync_action V E TW)))
    : option (sync * list event) :=
  match sched with
  | [] => Some (c, [])
  | (t, oa) :: sched =>
      a ← (match oa with Some a => Some a | None => th ← s_threads c !! t; queue_iter th end);
      '(c1, evs1) ← act_of c t a;
      '(c2, evs2) ← iter_exec c1 sched;
      Some (c2, evs1 ++ evs2)
  end.

Lemma queue_iter_ok strict (th : thread) a : queue_iter th = Some a → sync_ok strict a.
Proof. unfold queue_iter, dequeue. intros Hi. repeat case_match; by simplify_eq/=. Qed.

Lemma iter_exec_run strict n q0 sched : ∀ tr0 c0 c tr,
  iter_run strict n q0 tr0 c0 →
  Forall (λ ta, match ta.2 with
                | Some a => sync_ok strict a ∧ ∀ c, iter_ok c ta.1 a
                | None => ta.1 = d end) sched →
  iter_exec c0 sched = Some (c, tr) → iter_run strict n q0 (tr0 ++ tr) c.
Proof.
  induction sched as [|[t oa] sched IH]; intros tr0 c0 c tr Hr Hok Hex; simpl in Hex.
  - injection Hex as <- <-. by rewrite app_nil_r.
  - apply Forall_cons in Hok as [Ha Hok]. simpl in Ha.
    apply bind_Some in Hex as (a & Hoa & Hex).
    apply bind_Some in Hex as ([c1 evs1] & Hact & Hex).
    apply bind_Some in Hex as ([c2 evs2] & Hex & [= <- <-]).
    assert (sync_ok strict a ∧ iter_ok c0 t a) as [Hs Hi].
    { destruct oa as [a'|]; [simplify_eq; destruct Ha; by auto|]. subst t.
      apply bind_Some in Hoa as (th & Ht & Hth). split; [by eapply queue_iter_ok|].
      unfold iter_ok. rewrite decide_True by done. destruct a; try done; by exists th. }
    rewrite (assoc_L (++)). eapply IH; eauto. by econstructor.
Qed.
End QueueIter.

(** ** Thread 0 enqueues two elements; thread 1 iterates and yields both *)
Abbreviation vec_iter_exec := (iter_exec Nat.eqb id (sync_initial (vec_queue 2) 2)).
Definition run_on (t n : nat) : list (nat * option vaction) := replicate n (t, Some (SRun false)).

Definition sched_iter : list (nat * option vaction) :=
  [(0%nat, Some (SCall (TryEnqueue (VArray [1; 2]%nat))))] ++ run_on 0 8 ++
  [(1%nat, None)] ++ run_on 1 14 ++ [(1%nat, None); (1%nat, None)] ++ run_on 1 1 ++
  [(1%nat, None)] ++ run_on 1 1 ++ [(1%nat, None); (1%nat, None)] ++ run_on 1 4.

Definition vec_iter (sched : list (nat * option vaction)) : vsync * list vevent :=
  from_option id (sync_initial (vec_queue 2) 2, []) (vec_iter_exec sched).

Lemma vec_iter_run (strict : bool) sched :
  is_some (vec_iter_exec sched) = true →
  Forall (λ ta, match ta.2 with
                | Some a => sync_ok (B := buf) strict a ∧ ∀ c : vsync, iter_ok 1 c ta.1 a
                | None => ta.1 = 1%nat end) sched →
  iter_run Nat.eqb id 1 strict 2 (vec_queue 2) (vec_iter sched).2 (vec_iter sched).1.
Proof.
  intros Hex Hok. unfold vec_iter, is_some in *.
  destruct (vec_iter_exec sched) as [[c' tr]|] eqn:He; [|done].
  eapply (iter_exec_run Nat.eqb id 1 strict 2 (vec_queue 2) sched []); [|done..].
  constructor. by apply vec_queue_built.
Qed.

Lemma iter_run_yields :
  iter_run Nat.eqb id 1 true 2 (vec_queue 2) (vec_iter sched_iter).2 (vec_iter sched_iter).1.
Proof.
  apply vec_iter_run; [vm_compute; reflexivity|].
  repeat constructor; cbn; try done; intros; simplify_eq; lia.
Qed.

Lemma iter_in_order_witness :
  yielded (vec_iter sched_iter).2 = [1; 2]%nat ∧ ∃ rest, enqueued (vec_iter sched_iter).2 = [1; 2]%nat ++ rest.
Proof.
  assert (yielded (vec_iter sched_iter).2 = [1; 2]%nat) as Hy by (vm_compute; reflexivity). split; [exact Hy|].
  destruct (iter_in_order Nat.eqb id 1 true 2 (vec_queue 2) _ _ iter_run_yields) as [rest Hr].
  exists rest. rewrite Hy in Hr. etransitivity; [|exact Hr]. symmetry. apply list_fmap_id.
Defined.
