(* ===== verification/SyncLimits.v ===== *)
(** * Outside the conditions of the theorems on waiting

    The wakers of two consumers that wait at the same time share one cell. *)

From S2P Require Import Prelude PackedWords Errors Buffers CellBuffers Queue Machine Scenario.
From S2P Require Import Waker Interleave.
From S2P Require Import WakerList AtomicWaker Invariant StepInvariant Concurrent.
From S2P Require Import Synchronized SyncRuns Progress.
#[local] Open Scope Z_scope.

(** Threads 1 and 2 wait to dequeue; thread 0 enqueues, which wakes thread 2; it
    dequeues and drops its slice; thread 0 enqueues again. *)
Definition sched_two_consumers : list (nat * vaction) :=
  [(1%nat, SDequeue (Blocking false))] ++ steps 1 524 ++
  [(2%nat, SDequeue (Blocking false))] ++ steps 2 524 ++
  [(0%nat, SCall (TryEnqueue (VArray [1; 2]%nat)))] ++ steps 0 9 ++
  [(2%nat, SResume (Blocking false))] ++ steps 2 14 ++
  [(2%nat, SCall SliceDrop)] ++ steps 2 3 ++
  [(0%nat, SCall (TryEnqueue (VArray [3]%nat)))] ++ steps 0 8.

Lemma sync_run_two_consumers :
  sync_run Nat.eqb id true 3 (vec_queue 2)
    (vec_sync 3 sched_two_consumers).2 (vec_sync 3 sched_two_consumers).1.
Proof. apply vec_sync_run; [vm_compute; reflexivity|actions_ok]. Qed.

(** C35: A second waiting dequeue strands the first: it takes its place in the cell
    instead of failing with [Conflict], so in this execution thread 1 stays parked
    while an element is in the queue, nobody has anything left to do, and no waker
    is stored for the next notifications. *)
Theorem second_consumer_strands :
  ∃ tr (c : vsync) th,
    sync_run Nat.eqb id true 3 (vec_queue 2) tr c ∧
    s_threads c !! 1%nat = Some th ∧ th_outer th = DeqWait (Blocking false) ∧
    s_signals c = ∅ ∧ aw_waker (s_dequeuer c) = None ∧
    map_Forall (λ _ th, settled th = true) (s_threads c) ∧
    queue_len (s_queue c) (s_queue c) = 1 ∧ queue_is_closed (s_queue c) = false.
Proof.
  exists (vec_sync 3 sched_two_consumers).2, (vec_sync 3 sched_two_consumers).1,
    (mk_thread (DeqWait (Blocking false)) (DeqErr TryDequeueError.Empty) WIdle AIdle).
  split; [exact sync_run_two_consumers|].
  split; [vm_compute; reflexivity|]. split; [done|].
  split; [vm_compute; reflexivity|]. split; [vm_compute; reflexivity|].
  split; [all_threads|]. split; vm_compute; reflexivity.
Qed.
