(* ===== verification/StaleReads.v ===== *)
(** * Stale reads: an enqueuer that waits for ever

    The executions of [Synchronized] always read the last value of an atomic.
    This file adds one thing the orderings of the source allow: the load of the
    enqueuing word by [try_enqueue] (an [Acquire] load, not a [SeqCst] one) may read an older
    value, as long as the thread has not synchronised with the write of a newer one. The memory
    is that of [Views], where the accesses are the writes of the enqueuing word: a
    thread may read the value of a write when no later one is in its view.
    Synchronisation is over-approximated: reading the word, even an old value,
    acquires all that the word carries; [SeqCst] operations synchronise with each
    other; unparking synchronises with being resumed.

    [enqueue_not_stranded] does not survive: [wake] looks at the flag of the list with a
    [Relaxed] load, so an enqueuer may register and read the word of before the exchange
    of the buffers, while the dequeuer exchanges the buffers and reads
    the flag of before the registration. *)

From S2P Require Import Prelude Views PackedWords Errors Buffers CellBuffers Queue Machine Scenario.
From S2P Require Import Waker Interleave WakerList AtomicWaker Invariant StepInvariant Concurrent.
From S2P Require Import Synchronized SyncRuns EnqueueWaiting Orderings WakerOrderings.
#[local] Open Scope Z_scope.

(** ** Locations of the synchronized queue *)
Inductive slocation : Type :=
  | QueueAtomic (l : location)
  | CellState                     (* of the atomic waker *)
  | ListMutex
  | ListFlag
  | Token (t : nat)               (* parking thread [t], or scheduling the task [t] *)
  | SeqCstOrder.                  (* what [SeqCst] operations share *)

#[export] Instance slocation_eq_dec : EqDecision slocation.
Proof. solve_decision. Defined.

(** The accesses are the writes of the enqueuing word. *)
Abbreviation smemory := (Views.memory slocation Z).

Definition relocate {L : Type} (f : L → slocation) (a : atomic L) : atomic slocation :=
  match a with
  | NoAtomic => NoAtomic
  | Load l o => Load (f l) o
  | Store l o => Store (f l) o
  | ReadModifyWrite l o => ReadModifyWrite (f l) o
  end.

Definition seq_cst (a : atomic slocation) : list (atomic slocation) :=
  [ReadModifyWrite SeqCstOrder AcqRel; a].

Section StaleReads.
Context {B S V E TW : Type}.
Context `{Buffer B S, InsertIntoBuffer B V, Resize B, Drain B E, SliceMut B S E}.
Variable task_will_wake : TW → TW → bool.
Variable task_of : TW → nat.

Abbreviation sync := (sync B S V E TW).
Abbreviation thread := (thread S V E TW).
Abbreviation action := (sync_action V E TW).

(** ** The atomic operations of each step *)
Definition wake_token (w : Waker TW) : atomic slocation :=
  ReadModifyWrite (Token (target task_of (waker_wake w))) Release.

(** [src/src/synchronized/waker_list.rs] *)
Definition wl_atomics (s : waker_list TW) (p : wl_pc TW) : list (atomic slocation) :=
  match p with
  | RegLock _ | WakeLock => [ReadModifyWrite ListMutex Acquire]
  | RegStore _ => seq_cst (Store ListFlag Release)
  | RegUnlock | WakeEach [] => [ReadModifyWrite ListMutex Release]
  | WakeLoad => [Load ListFlag Relaxed]
  | WakeCas =>
      seq_cst (if non_empty s then ReadModifyWrite ListFlag AcqRel else Load ListFlag Acquire)
  | WakeEach (w :: _) => [wake_token w]
  | _ => []
  end.

(** [src/src/synchronized/atomic_waker.rs] *)
Definition cell_atomics (s : atomic_waker (TW := TW)) (p : aw_pc (TW := TW))
    : list (atomic slocation) :=
  match p with
  | RegWake w | WakeFire w => [wake_token w]
  | RegSelf cx cur => [wake_token (waker_new cx cur)]
  | _ => [relocate (λ _, CellState) (aw_atomic_of source_aw_orderings s p)]
  end.

Definition sync_atomics (c : sync) (th : thread) (a : action) : list (atomic slocation) :=
  match a with
  | SRun spurious =>
      if negb (list_idle th) then wl_atomics (s_enqueuers c) (th_list th)
      else if negb (cell_idle th) then cell_atomics (s_dequeuer c) (th_cell th)
      else [relocate QueueAtomic
              (atomic_of source_orderings spurious (s_queue c) (th_q th))]
  | _ => []
  end.

(** ** Memory *)
(** Thread [t] learns of the writes up to the [n]-th. *)
Definition observe (t : nat) (n : nat) (m : smemory) : smemory :=
  mk_memory (m_log m) (λ t', if decide (t' = t) then m_view m t ∪ set_seq 0 n else m_view m t')
    (m_msg m).

Definition uses_enqueuing_word (a : atomic slocation) : bool :=
  match a with
  | Load (QueueAtomic EnqueuingWord) _ | ReadModifyWrite (QueueAtomic EnqueuingWord) _ => true
  | _ => false
  end.

Definition writes_enqueuing_word (a : atomic slocation) : bool :=
  match a with ReadModifyWrite (QueueAtomic EnqueuingWord) _ => true | _ => false end.

Definition synchronise_all (t : nat) (l : list (atomic slocation)) (m : smemory) : smemory :=
  foldl (λ m a, synchronise t a m) m l.

(** After [a] by thread [t], from [c] to [c']. *)
Definition smemory_after (c c' : sync) (t : nat) (a : action) (m : smemory) : smemory :=
  match s_threads c !! t with
  | None => m
  | Some th =>
      match a with
      | SResume _ => synchronise_all t [ReadModifyWrite (Token t) Acquire] m
      | _ =>
          let l := sync_atomics c th a in
          let m := if existsb uses_enqueuing_word l
                   then observe t (length (m_log m)) m else m in
          let m := if existsb writes_enqueuing_word l
                   then record_touch t (Some (enqueuing_capacity (s_queue c'))) m
                   else m in
          synchronise_all t l m
      end
  end.

(** The write of the initial word comes first, and every thread knows of it. *)
Definition initial_smemory (q0 : Queue B) : smemory :=
  mk_memory [(0%nat, enqueuing_capacity q0)] (λ _, {[0%nat]}) (λ _, ∅).

(** The writes a thread may read: no later one is in its view. *)
Definition readable (m : smemory) (t j : nat) : Prop :=
  ∀ k, (j < k < length (m_log m))%nat → k ∉ m_view m t.

Definition readableb (m : smemory) (t j : nat) : bool :=
  forallb (λ k, negb (bool_decide (k ∈ m_view m t)))
    (seq (Datatypes.S j) (length (m_log m) - Datatypes.S j)).

Lemma readableb_true m t j : readableb m t j = true → readable m t j.
Proof.
  unfold readableb. rewrite forallb_forall. intros Hall k Hk Hin.
  assert (In k (seq (Datatypes.S j) (length (m_log m) - Datatypes.S j))) as Hs
    by (apply in_seq; lia).
  apply Hall, negb_true_iff, bool_decide_eq_false in Hs. done.
Qed.

(** The load of [try_enqueue] reads the word [w]. *)
Definition load_word (c : sync) (t : nat) (th : thread) (v : V) (w : Z) : sync :=
  set_thread_only c t (mk_thread (th_outer th) (EnqLoop v w None) WIdle AIdle).

Definition smemory_load (t j : nat) (m : smemory) : smemory :=
  synchronise t (Load (QueueAtomic EnqueuingWord) (o_enqueue_load source_orderings))
    (observe t (Datatypes.S j) m).

(** A thread about to load the enqueuing word. *)
Definition loading (th : thread) (v : V) : Prop :=
  list_idle th = true ∧ cell_idle th = true ∧ th_q th = EnqStart v ∧ size v ≠ 0.

Inductive stale_run (ok : nat → action → Prop) (n : nat) (q0 : Queue B) : smemory → sync → Prop :=
  | stale_nil : stale_run ok n q0 (initial_smemory q0) (sync_initial q0 n)
  | stale_act m c t a c' evs :
      stale_run ok n q0 m c → ok t a → sync_act task_will_wake task_of c t a = Some (c', evs) →
      stale_run ok n q0 (smemory_after c c' t a m) c'
  | stale_load m c t th v j t' w :
      stale_run ok n q0 m c → s_threads c !! t = Some th → loading th v →
      m_log m !! j = Some (t', w) → readable m t j →
      stale_run ok n q0 (smemory_load t j m) (load_word c t th v w).

(** ** Schedules: [inr j] is a load of the word of write [j] *)
Definition stale_exec1 (m : smemory) (c : sync) (t : nat) (a : action + nat)
    : option (smemory * sync) :=
  match a with
  | inl a =>
      '(c', _) ← sync_act task_will_wake task_of c t a;
      Some (smemory_after c c' t a m, c')
  | inr j =>
      th ← s_threads c !! t;
      '(_, w) ← m_log m !! j;
      match th_q th with
      | EnqStart v =>
          if list_idle th && cell_idle th && negb (size v =? 0) && readableb m t j
          then Some (smemory_load t j m, load_word c t th v w) else None
      | _ => None
      end
  end.

Fixpoint stale_exec (m : smemory) (c : sync) (sched : list (nat * (action + nat)))
    : option (smemory * sync) :=
  match sched with
  | [] => Some (m, c)
  | (t, a) :: sched =>
      '(m, c) ← stale_exec1 m c t a; stale_exec m c sched
  end.

Definition allowed (ok : nat → action → Prop) (ta : nat * (action + nat)) : Prop :=
  match ta.2 with inl a => ok ta.1 a | inr _ => True end.

Lemma stale_exec_run ok n q0 sched : ∀ m c m' c',
  Forall (allowed ok) sched → stale_run ok n q0 m c →
  stale_exec m c sched = Some (m', c') → stale_run ok n q0 m' c'.
Proof.
  induction sched as [|[t a] sched IH]; intros m c m' c' Hok Hr Hx; simpl in Hx.
  - by injection Hx as <- <-.
  - apply Forall_cons in Hok as [Ha Hok]. unfold allowed in Ha. simpl in Ha.
    apply bind_Some in Hx as ([m1 c1] & H1' & Hx). eapply IH; [done| |exact Hx].
    destruct a as [a|j]; simpl in H1'.
    + apply bind_Some in H1' as ([c2 evs] & Hact & [= <- <-]). by eapply stale_act.
    + apply bind_Some in H1' as (th & Ht & H1').
      apply bind_Some in H1' as ([t' w] & Hj & H1').
      destruct (th_q th) eqn:Hq; try discriminate.
      destruct (_ && _) eqn:Hc; [|discriminate]. injection H1' as <- <-.
      rewrite !andb_true_iff, negb_true_iff, Z.eqb_neq in Hc.
      destruct Hc as [[[? ?] ?] ?%readableb_true]. by eapply stale_load.
Qed.

(** ** What is logged are the words written, the last one being the word of the queue *)
Lemma step_logged sp (q q' : Queue B) p p' evs :
  step sp q p = Some (Ret (q', p', evs)) →
  writes_enqueuing_word (relocate QueueAtomic (atomic_of source_orderings sp q p)) = false →
  enqueuing_capacity q' = enqueuing_capacity q.
Proof.
  intros Hs Hw. destruct p; simpl in Hs; try discriminate; apply (inj Some) in Hs;
    simpl in Hw; try discriminate Hw; unfold_step_in Hs; inv_ret Hs; simpl; try done.
  all: repeat (case_match; simplify_eq/=); done.
Qed.

Lemma act_logged (c c' : sync) t th a evs :
  s_threads c !! t = Some th → sync_act task_will_wake task_of c t a = Some (c', evs) →
  existsb writes_enqueuing_word (sync_atomics c th a) = false →
  enqueuing_capacity (s_queue c') = enqueuing_capacity (s_queue c).
Proof.
  intros Ht Hs Hw. unfold sync_act in Hs. rewrite Ht in Hs. simpl in Hs.
  destruct a as [m|m v|m|sp|m| |];
    try (repeat case_match; try discriminate; simpl in Hs;
         repeat (apply bind_Some in Hs as (? & ? & Hs); repeat case_match; try discriminate);
         by simplify_eq).
  unfold run_step, run_list, run_cell, run_queue in Hs. simpl in Hw.
  destruct (negb (list_idle th)).
  { apply bind_Some in Hs as (c1 & Hs & [= <- <-]).
    by apply bind_Some in Hs as ([[? ?] ?] & _ & [= <-]). }
  destruct (negb (cell_idle th)).
  { apply bind_Some in Hs as (c1 & Hs & [= <- <-]).
    by apply bind_Some in Hs as ([[? ?] ?] & _ & [= <-]). }
  destruct (step sp (s_queue c) (th_q th)) as [[[[q' p'] evs']| |]|] eqn:Hst.
  - injection Hs as <- <-. simpl. eapply step_logged; [exact Hst|].
    simpl in Hw. by rewrite orb_false_r in Hw.
  - by injection Hs as <- <-.
  - by injection Hs as <- <-.
  - by apply bind_Some in Hs as (th' & _ & [= <- <-]).
Qed.

Lemma synchronise_all_log t l (m : smemory) : m_log (synchronise_all t l m) = m_log m.
Proof.
  revert m. induction l as [|a l IH]; intros m; simpl; [done|].
  unfold synchronise_all in *. simpl. by rewrite IH, synchronise_log.
Qed.

Lemma smemory_after_log (c c' : sync) t th a m :
  s_threads c !! t = Some th →
  m_log (smemory_after c c' t a m) =
    m_log m ++ (if existsb writes_enqueuing_word (sync_atomics c th a)
                then [(t, enqueuing_capacity (s_queue c'))] else []).
Proof.
  intros Ht. unfold smemory_after. rewrite Ht.
  destruct a; simpl; rewrite ?synchronise_all_log; repeat case_match; simpl;
    by rewrite ?app_nil_r.
Qed.

(** The last word logged is the one the interleavings of [Synchronized] read. *)
Lemma stale_last ok n q0 m c :
  stale_run ok n q0 m c → ∃ t, last (m_log m) = Some (t, enqueuing_capacity (s_queue c)).
Proof.
  induction 1 as [|m c t a c' evs Hr [t0 IH] Ha Hs|m c t th v j t' w Hr [t0 IH] Ht Hl Hj Hm].
  - by eexists.
  - assert (∃ th, s_threads c !! t = Some th) as [th Ht].
    { unfold sync_act in Hs. apply bind_Some in Hs as (th & ? & _). eauto. }
    rewrite (smemory_after_log _ _ _ _ _ _ Ht).
    destruct (existsb _ _) eqn:Hw; [eexists; by rewrite last_snoc|].
    exists t0. by rewrite app_nil_r, (act_logged _ _ _ _ _ _ Ht Hs Hw).
  - exists t0. unfold smemory_load. by rewrite synchronise_log.
Qed.

(** Loading the last word is what [Synchronized] does. *)
Lemma load_last (c : sync) t th v :
  s_threads c !! t = Some th → loading th v →
  sync_act task_will_wake task_of c t (SRun false) =
    Some (load_word c t th v (enqueuing_capacity (s_queue c)), []).
Proof.
  intros Ht (Hl & Hc & Hq & Hv). unfold sync_act. rewrite Ht. simpl.
  unfold run_step, run_queue. rewrite Hl, Hc, Hq. simpl. unfold enq_start.
  rewrite (proj2 (Z.eqb_neq _ _) Hv). unfold load_word, set_thread_only. simpl.
  destruct th as [? ? [] []]; try done.
Qed.
End StaleReads.

(** ** Concrete runs on a queue of capacity 2 *)
Abbreviation stale_action := (vaction + nat)%type.

(** [n] steps of thread [t]. *)
Definition stale_steps (t n : nat) : list (nat * stale_action) := replicate n (t, inl (SRun false)).

(** Thread 0 fills the queue, tries once more, and is about to register. Thread 1 exchanges
    the buffers, finds the flag of the list down, releases what it got, and comes to wait:
    the queue is empty. Thread 0 registers. *)
Definition sched_registered : list (nat * stale_action) :=
  [(0%nat, inl (SCall (TryEnqueue (VArray [1; 2]%nat))))] ++ stale_steps 0 8 ++
  [(0%nat, inl (SEnqueue (Blocking false) (VArray [3]%nat)))] ++ stale_steps 0 192 ++
  [(1%nat, inl (SDequeue (Blocking false)))] ++ stale_steps 1 14 ++
  [(1%nat, inl (SCall SliceDrop))] ++ stale_steps 1 3 ++
  [(1%nat, inl (SDequeue (Blocking false)))] ++ stale_steps 1 524 ++ stale_steps 0 6.

(** Its last attempt reads the word of write [j]. *)
Definition sched_last_try (j n : nat) : list (nat * stale_action) :=
  sched_registered ++ [(0%nat, inr j)] ++ stale_steps 0 n.

Definition stale_vec (sched : list (nat * stale_action)) : smemory * vsync :=
  from_option id (initial_smemory (vec_queue 2), sync_initial (vec_queue 2) 2)
    (stale_exec Nat.eqb id (initial_smemory (vec_queue 2)) (sync_initial (vec_queue 2) 2) sched).

Lemma stale_vec_run sched :
  Forall (allowed (λ _, sync_ok (B := buf) true)) sched →
  stale_run Nat.eqb id (λ _, sync_ok (B := buf) true) 2 (vec_queue 2)
    (stale_vec sched).1 (stale_vec sched).2.
Proof.
  intros Hok. unfold stale_vec. destruct (stale_exec _ _ _ _ _) as [[m c]|] eqn:Hx; [|constructor].
  eapply stale_exec_run; [exact Hok|constructor|exact Hx].
Qed.

(** The word of the exchange is the third one written: with it the last attempt reserves. *)
Example last_try_fresh :
  (th_q <$> s_threads (stale_vec (sched_last_try 2 1)).2 !! 0%nat)
    = Some (EnqInsert (VArray [3]%nat) 5).
Proof. vm_compute. reflexivity. Qed.

(** C34: with the orderings of the source, an enqueuer can wait for ever in front of an empty
    queue: there is an execution with one stale load, of a word of before the exchange of
    the buffers, after which an enqueuer and the dequeuer both wait, nobody has
    been signalled, no thread can move, and the queue is open, empty, with room for the value.
    The flag of the list of wakers is up, but no [wake] is left to see it. *)
Theorem stale_load_strands :
  let c := (stale_vec (sched_last_try 1 2)).2 in
  stale_run Nat.eqb id (λ _, sync_ok (B := buf) true) 2 (vec_queue 2)
    (stale_vec (sched_last_try 1 2)).1 c ∧
  (th_outer <$> s_threads c !! 0%nat) = Some (EnqWait (Blocking false) (VArray [3]%nat)) ∧
  (th_outer <$> s_threads c !! 1%nat) = Some (DeqWait (Blocking false)) ∧
  s_signals c = ∅ ∧
  (∀ t th, s_threads c !! t = Some th →
     notifying th = false ∧ run_step Nat.eqb id c t th false = None) ∧
  non_empty (s_enqueuers c) = true ∧ queue_is_closed (s_queue c) = false ∧
  queue_is_empty (s_queue c) (s_queue c) = true ∧
  size (VArray [3]%nat) ≤ EnqueuingCapacity.remaining_capacity (enqueuing_capacity (s_queue c)).
Proof.
  intros c. split_and!.
  - apply stale_vec_run. unfold sched_last_try, sched_registered, stale_steps.
    rewrite !Forall_app. split_and!; try apply Forall_replicate; actions_ok.
  - vm_compute. reflexivity.
  - vm_compute. reflexivity.
  - vm_compute. reflexivity.
  - intros t th Ht.
    assert (map_Forall (λ t th, notifying th = false ∧
              is_some (run_step Nat.eqb id c t th false) = false) (s_threads c)) as Hall.
    { refine (bool_decide_unpack _ _). vm_compute. exact I. }
    destruct (Hall _ _ Ht) as [? Hst]. split; [done|].
    by destruct (run_step Nat.eqb id c t th false).
  - vm_compute. reflexivity.
  - vm_compute. reflexivity.
  - vm_compute. reflexivity.
  - vm_compute. discriminate.
Qed.
