(* ===== verification/DebugText.v ===== *)
(** * The texts of the [Debug] implementations

    What [{:?}] prints for the queue, its handles, its notifier, and the vectored
    slices and frames: the builders of [core::fmt] without the alternate flag, on the
    fields the source gives them. How a buffer slice, a notifier or an io-slice prints
    is a parameter, as it is a bound of the implementations. *)

From stdpp Require Import pretty.
From S2P Require Import Prelude PackedWords Errors Buffers CellBuffers VectoredBuffers Queue.
From S2P Require Import Machine Scenario.
#[local] Open Scope Z_scope.
#[local] Open Scope string_scope.

(** ** The builders of [core::fmt] *)
Fixpoint separated (sep : string) (l : list string) : string :=
  match l with
  | [] => ""
  | [x] => x
  | x :: l => x +:+ sep +:+ separated sep l
  end.

Definition debug_struct (name : string) (fields : list (string * string)) : string :=
  match fields with
  | [] => name
  | _ => name +:+ " { " +:+ separated ", " ((λ f, f.1 +:+ ": " +:+ f.2) <$> fields) +:+ " }"
  end.

Definition debug_tuple (name : string) (fields : list string) : string :=
  match fields with [] => name | _ => name +:+ "(" +:+ separated ", " fields +:+ ")" end.

Definition debug_list (l : list string) : string := "[" +:+ separated ", " l +:+ "]".

Definition debug_range (r : range) : string :=
  pretty (r_start r) +:+ ".." +:+ pretty (r_end r).

(** ** The implementations *)
(** [Debug for Queue]: the queue at its three loads, that of [capacity] and the two of [len]. *)
Definition queue_debug {B} (notify : string) (q q' q'' : Queue B) : string :=
  debug_struct "Queue"
    [("capacity", pretty (queue_capacity q)); ("len", pretty (queue_len q' q''));
     ("notify", notify)].

Definition slice_debug {S} (show : S → string) (bs : BufferSlice S) : string :=
  debug_tuple "BufferSlice" [show (bs_slice bs)].

(** [Debug for OwnedBufferIter], under the name of its alias. *)
Definition iter_debug (it : BufferIter) : string :=
  debug_tuple "BufferIter" [debug_range (it_range it)].

Definition notifier_debug : string := debug_struct "SynchronizedNotifier" [].

Definition vectored_slice_debug (show : IoSlice → string) (self : VectoredSlice.t)
    : outcome string :=
  let! slices := VectoredSlice.deref self in
  Ret (debug_struct "VectoredSlice"
         [("slices", debug_list (show <$> slices));
          ("total_size", pretty (VectoredSlice.total_size self))]).

Definition frame_debug (show : IoSlice → string) (self : VectoredFrame.t) : outcome string :=
  let! slices := VectoredFrame.deref self in
  Ret (debug_tuple "VectoredFrame" [debug_list (show <$> slices)]).

(** ** What they print *)
Example queue_debug_shared :
  let q := queue (scenario 4 3 sched_released).1 in
  queue_debug notifier_debug q q q
    = "Queue { capacity: 4, len: 1, notify: SynchronizedNotifier }".
Proof. vm_compute. reflexivity. Qed.

Example slice_debug_array :
  slice_debug (λ l : list nat, debug_list (pretty <$> l))
    (mk_BufferSlice 0 (Range 0 3) [1; 2; 3]%nat) = "BufferSlice([1, 2, 3])".
Proof. vm_compute. reflexivity. Qed.

Example iter_debug_range : iter_debug (mk_BufferIter 1 (Range 2 10)) = "BufferIter(2..10)".
Proof. vm_compute. reflexivity. Qed.

(** The padding io-slices at the ends are not printed. *)
Lemma vectored_slice_debug_inner show first last l n :
  vectored_slice_debug show (VectoredSlice.new (first :: l ++ [last]) n)
    = Ret (debug_struct "VectoredSlice"
             [("slices", debug_list (show <$> l)); ("total_size", pretty n)]).
Proof.
  unfold vectored_slice_debug, VectoredSlice.deref, VectoredSlice.len, index_range. simpl.
  assert (Z.of_nat (Datatypes.S (length (l ++ [last]))) = Z.of_nat (length l) + 2) as Hlen.
  { rewrite length_app. simpl. lia. }
  rewrite Hlen, usize_sub_Ret by lia. simpl.
  rewrite (proj2 (Z.leb_le _ _)), (proj2 (Z.leb_le _ _)) by lia. simpl.
  replace (Z.to_nat (Z.of_nat (length l) + 2 - 1 - 1)) with (length l) by lia.
  simpl. rewrite drop_0. by rewrite take_app_length.
Qed.
